(* ===== verification/_CoqProject ===== *)
-Q . S2P
Prelude.v
TreeMath.v
TipsHash.v
LoadQuorum.v
QuorumOrchestrator.v
ChangeTree.v
AclChain.v
Ecies.v
BeeKem.v
BeeKemGeometry.v
BeeKemTheory.v
Wire.v
Welcome.v
Bloom.v
Gossip.v
Utils.v
Auth.v
WriterCache.v
Document.v
Pruning.v
DocumentTheory.v
Transactions.v
Replication.v
Loading.v
LoadingTheory.v
DocExamples.v
DocRuns.v
Group.v
GroupTheory.v
GroupExamples.v
Index.v
IndexManager.v
IndexTheory.v
IndexOrder.v
IndexIdb.v
IndexIntegration.v
IndexExamples.v
Base64.v
Ucan.v
UcanTheory.v
UcanAcl.v
UcanExamples.v
JsonMessages.v
JsonExamples.v
JsonSerializers.v
Lru.v
Keychain.v
KeychainTheory.v
UserAcl.v
KeychainExamples.v
Relay.v
Epoch.v
BlindIndex.v
Swarm.v
SwarmDocuments.v
SwarmExamples.v
Redux.v
React.v
Node.v
Startup.v
IndexHooks.v
