(* ===== verification/Prelude.v ===== *)
(** * Verification of swarmbase

    swarmbase is a peer-to-peer document database in TypeScript. A document is a
    Merkle-CRDT: changes are encrypted blocks, a sync message carries a tree of
    them, and every peer merges what it receives. Access is governed by lists of
    readers and writers, by a signed chain of ACL changes and by BeeKEM, a
    tree-based group key agreement. A peer that opens a document first asks
    several peers for the hash of their tips and loads only from a cohort that
    agrees. Local indexes answer queries over documents, and Bloom filters are
    gossiped so that a query can be sent to the peers that may answer it. Around
    that are the swarm that routes protocol streams to documents, a pinning node, a
    relay server, and bindings for Redux and React.

    The source paths below are under [src/packages/collabswarm/src/] unless
    they start with another package or with [relay-server].

    ** Files

    Shared:
    - [Prelude] (this file): outcomes of JavaScript code ([result], [eff]),
      32-bit operators, numbers, insertion-ordered maps and sets, bytes, and the
      lemmas, hints and tactics the other files share.
    - [Base64]: [btoa], [atob] and the helpers built on them.
    - [Utils]: [utils.ts]: byte streams, the incremental request reader, the
      path-prefixed header, [firstTrue] and the shuffle.
    - [Lru]: [lru-cache.ts], against an unbounded cache ordered by last use.

    Trees, hashes and agreement:
    - [TreeMath]: [beekem/tree-math.ts], the index arithmetic of the left-balanced
      tree. The loops run with fuel: an index is below 2^53 and the shift count
      wraps modulo 32, so 33 iterations decide [level]; the clamps and the direct
      path take at most one step per level.
    - [TipsHash]: [tips-hash.ts], the order-independent hash of a tip set.
    - [LoadQuorum]: [load-quorum.ts], the decision on the peers' answers, the
      clamps of K and Q and the validation of the configuration.
    - [QuorumOrchestrator]: [load-quorum-orchestrator.ts], the whole probe round,
      with the specification [round_spec] that it implements.
    - [ChangeTree]: [crdt-change-node.ts], [merkle-cross-links.ts] and
      [blockstore-gc.ts]: merging a served tree, its frontier, listing and search,
      cross-links, and the blocks that compaction may delete.
    - [AclChain]: [acl-chain.ts]: entry validation, the canonical payload,
      ingestion, authoring, replay and the mutation queue, against the contract
      [append].

    Keys:
    - [Ecies]: [ecies.ts]; the class [SealedBox] is what BeeKEM needs of sealing,
      and [ecies_box] shows that ECIES provides it.
    - [BeeKem]: [beekem/beekem.ts] and [beekem/types.ts], every method of the class
      as an effect on its fields. [BeeKemGeometry] and [BeeKemTheory] hold the
      theorems about it, the first on which subtree a leaf is in.
    - [Wire]: [merkle-dag-serialization.ts], [path-update-wire.ts] and
      [beekem-welcome-wire.ts], the encoders and the validating decoders.
    - [Welcome]: [beekem-welcome-handler.ts], the gates an incoming welcome passes.
    - [Auth]: [auth-subtlecrypto.ts] and [auth-provider.ts]; the class
      [AuthProvider] is what a document relies on, and [subtle_auth] provides it.
    - [Epoch]: [epoch.ts], epoch identifiers, secrets, keys and their manager.

    The document, [collabswarm-document.ts]:
    - [WriterCache]: the cache of writer keys under interleaved calls.
    - [Document]: fields, blocks, authoring, merging, snapshots with pruning and
      garbage collection, transactions, writers. The CRDT, the lists, the keychain
      and the serializers are classes. Messages are records here; the order of
      their fields, which a signature covers, is in [JsonMessages].
      [DocumentTheory], [Pruning], [Transactions] and [Replication] hold the
      theorems.
    - [Loading] and [LoadingTheory]: request handlers, probing, quorum-bound
      loading, [open], [close], the pubsub handler and the topic validator.
    - [Group] and [GroupTheory]: readers, welcomes, path updates and key updates,
      with [kem-key-pair.ts], [derive-doc-key.ts] and
      [welcome-sealed-payload.ts].
    - [DocExamples], [DocRuns] and [GroupExamples]: concrete providers that obey the
      laws, witnesses, and runs of several peers.

    Capabilities, formats and adapters:
    - [Ucan], [UcanTheory], [UcanAcl], [UcanExamples]: [capabilities.ts], [ucan.ts]
      and [ucan-acl.ts].
    - [JsonMessages], [JsonSerializers], [JsonExamples]: [json-serializer.ts] and the
      serializers of the two adapters.
    - [Keychain], [KeychainTheory], [UserAcl], [KeychainExamples]: the keychains and
      lists of [collabswarm-yjs] and [collabswarm-automerge]. The document's class of
      keychains has a [getKey] that finds every merged key; the adapters' keychains
      have that only after [keys()] or [current()], which
      [KeychainTheory.merged_keys_available] states exactly.

    Indexes, [collabswarm-index/src]:
    - [Bloom] and [Gossip]: [bloom-filter-crdt.ts] and [bloom-filter-gossip.ts].
    - [Index], [IndexManager], [IndexIdb], [IndexIntegration]: fields, values and
      the in-memory storage, the manager, the IndexedDB storage, and the feed from
      documents; [IndexTheory], [IndexOrder] and [IndexExamples] are about them.
    - [BlindIndex]: tokens for encrypted fields and the searches over them.
    - [IndexHooks]: the React hooks of [react.ts].

    Around the document:
    - [Swarm]: [collabswarm.ts]: the registry, the protocol handlers, peers and
      initialization, over any documents (the class [DocumentHandlers]).
      [SwarmDocuments] puts the documents of [Group] into it, [SwarmExamples] has the
      witnesses.
    - [Node]: [collabswarm-node.ts] and the ICE servers of [collabswarm-config.ts].
    - [Startup]: [store-lifecycle.ts], [helia-node.ts], [stream-adapter.ts],
      [document-topic.ts] and [network-stats.ts].
    - [Relay]: [relay-server/src]: configuration, topic policy and listeners.
    - [Redux]: [collabswarm-redux/src]: the reducer and the thunks as threads.
    - [React]: [collabswarm-react/src]: [useCollabswarmDocumentState] and its caches.

    ** How the code is modelled

    A function that can throw returns a [result]; a method that assigns fields is
    an [eff] on the record of the fields, so what it assigned before a throw stays
    assigned. An awaited call that rejects is a thrown error. Where the order of
    concurrent calls matters (the writer cache, the mutation queue of the ACL
    chain, the fetches of a sync, index updates, pins, thunks and hooks) the parts
    between two awaits are steps, and the theorems are about all sequences of
    them; other methods run to their end, so that a remote change between the awaits of
    a transaction, or two overlapping epoch transitions, are not represented. A [Map] or [Set] is a list in insertion
    order. Objects that are shared have an identity and live in a store ([Swarm],
    [Redux], [React], [Node]). A loop that is not over a list has fuel, and running
    out of it is the outcome [OutOfFuel], distinct from a throw; every loop has a
    lemma that its fuel is enough, except [level] and [log2] where the code
    does not terminate, which is a theorem too. The clock, random numbers and keys
    are arguments or functions of a counter. WebCrypto, js-base64, JSON text, the
    CRDT libraries, IndexedDB and libp2p are parameters: classes or section
    variables with the documented laws (a sealed box opens, AES-GCM decrypts what it
    encrypted, an exported key imports, a text that was written is read back), each
    instantiated by a concrete function for the witnesses. SHA-256 and signatures
    are unconstrained functions.

    ** What the theorems show

    - Load quorum: a passing round names a cohort of probed peers that all answered
      the winning hash and meets the threshold; fewer dissenting peers than the
      threshold cannot change the hash or turn the document into a new one; no
      configuration and no rejected probe bypasses the gate or escapes as another
      error.
    - Change tree: a merge returns each unknown node once, with its payload, and
      nothing else; the served frontier, the listing and the search are exact on
      content-addressed trees; compaction deletes exactly what is unreachable and
      unprotected.
    - ACL chain: ingestion is equivalent to the append contract; whatever is queued,
      the chain stays linked, contiguous and authorized; the head hash commits to
      the history up to a collision; replay reproduces a chain.
    - BeeKEM: the tree arithmetic is that of the complete tree cut to its width; an
      update renews every key of the path; a removal revokes every key the member
      knew; a welcome delivers the root secret; a member across the root follows an
      update. Three theorems record where the code falls short: members that joined
      earlier cannot follow an addition, a fourth member cannot be added, and a
      path update can make its receiver loop forever.
    - Wire formats and welcomes: decoders accept exactly the documented shapes and
      invert the encoders; a welcome is accepted exactly when it is well formed, for
      the local user, who is a reader, and signed by a writer.
    - Document: a sync applies each unknown change once and, when it returns, all of
      them; a failed transaction changes nothing when the CRDT provider returns new
      documents, and what a provider did to the document in place stays, as the code
      says; every operation keeps the invariant; pruning ends and keeps the
      access-control changes.
    - Loading: only readers and writers are answered; once a writer is known, what
      arrives by pubsub or in answer to a load changes the document only when a
      writer signed it (before, a first load has nobody to check against); a bound
      load that succeeds has the agreed frontier and the changes that the served tree
      lists; peers that do not present the agreed frontier leave the document
      alone and do not keep the load from an honest peer after them. The runs of
      [DocRuns] show where compaction breaks this.
    - Groups: a welcome onboards its reader; a removal rotates the key and leaves
      nothing of the reader; installed keys were authorized by a writer; each
      change of the invitation epoch is to a later key of the keychain.
    - Capabilities: a token that validates rests on a chain of delegations from the
      document's creator; a revoked key stays out of the list.
    - Formats: which signed messages verify after the way through JSON text, and
      that the serializers keep the contract that the document assumes.
    - Keychains, lists, epochs: which keys a member finds after a merge; the lists
      are sets of users; the epochs form a chain on which the members agree.
    - Indexes: queries by indexed scalar fields find exactly the documents indexed
      last, both storages agree, and results are ordered and paged; a blind search finds exactly the equal tokens.
    - Bloom filters: a join-semilattice without false negatives; replicas converge;
      gossip queries miss no peer.
    - Swarm: a request reaches the document it names and data is sent only to
      entitled peers (any peer, where signatures are not required); a path stays routed to its document until that is closed.
    - Node, start, relay: at most ten pins run and all end; starting a node is all or
      nothing; a stream is sent whole before it is closed; the relay follows its
      permanent topics and no more automatic ones than its cap.
    - Bindings: the Redux store shows the documents it is subscribed to as long as only
      peers change them; React components share one open document per path, which is closed when
      the last one goes; a component that takes over from another loses it.

    ** Not modelled

    The configuration and construction of libp2p and Helia nodes and dialling;
    helpers that only call WebCrypto (signing, key generation and import) or a CRDT
    library (the CRDT providers of the adapters); [useCollabswarm], [initializeAsync]
    and [connectAsync], which only await the swarm's initialization; the info file
    and the shutdown of the relay; console output and the wording of errors; type
    declarations and re-exports; the examples, benchmarks, end-to-end tests and the
    site's scripts, and the vendored yarn release. *)

From stdpp Require Import base numbers list list_numbers gmap strings sorting.
From Stdlib Require Import ZArith Lia QArith Qround.
From Stdlib Require Strings.Byte.

Open Scope nat_scope.

(** * Outcomes of JavaScript code

    A synchronous or awaited call either returns, throws, or keeps looping.
    Loops are modelled with fuel; running out of fuel is its own outcome, so
    that no theorem can mistake "did not finish" for "threw". *)

Inductive exn : Type :=
| Throw (msg : string)
| OutOfFuel.

Inductive result (A : Type) : Type :=
| Ok (a : A)
| Err (e : exn).
Arguments Ok {A} _.
Arguments Err {A} _.

Declare Scope js_scope.
Delimit Scope js_scope with js.
Notation "'let?' x := m 'in' k" :=
  (match m with Ok x => k | Err e => Err e end)
  (at level 10, x name, m at level 100, k at level 200) : js_scope.
Open Scope js_scope.

Definition throw {A} (msg : string) : result A := Err (Throw msg).

#[export] Instance exn_eq_dec : EqDecision exn.
Proof. solve_decision. Defined.
#[export] Instance result_eq_dec `{EqDecision A} : EqDecision (result A).
Proof. solve_decision. Defined.

(** * Effects on an object

    A method that assigns fields and may throw is a function from the object's
    fields to an outcome and the fields at that point: what was assigned before
    a throw stays assigned. *)

Definition eff (S A : Type) : Type := S → result A * S.

Definition ret {S A} (a : A) : eff S A := λ s, (Ok a, s).
Definition raise {S A} (e : exn) : eff S A := λ s, (Err e, s).
Definition bind {S A B} (m : eff S A) (k : A → eff S B) : eff S B :=
  λ s, match m s with (Ok a, s') => k a s' | (Err e, s') => (Err e, s') end.
Definition get {S} : eff S S := λ s, (Ok s, s).
Definition modify {S} (f : S → S) : eff S unit := λ s, (Ok tt, f s).

(** A pure computation that may throw, inside a method. *)
Definition lift {S A} (r : result A) : eff S A := λ s, (r, s).

(** An operation of another component that returns [None] when it throws. *)
Definition or_throw {A} (msg : string) (o : option A) : result A :=
  match o with Some a => Ok a | None => throw msg end.

Notation "'let!' x := m 'in' k" := (bind m (λ x, k))
  (at level 10, x name, m at level 100, k at level 200) : js_scope.

(** [try { m } catch (e) { h(e) }]: the handler runs on the fields as the throw left
    them. Running out of fuel is not an exception and is not caught. *)
Definition catch {S A} (m : eff S A) (h : string → eff S A) : eff S A :=
  λ s, match m s with
       | (Err (Throw e), s') => h e s'
       | r => r
       end.

(** [try { m } finally { f }], where [f] only assigns fields. *)
Definition finally {S A} (m : eff S A) (f : S → S) : eff S A :=
  λ s, let '(r, s') := m s in (r, f s').

(** [if (b) { m }] *)
Definition when {S} (b : bool) (m : eff S unit) : eff S unit :=
  if b then m else ret tt.

(** ** Updating a field

    [s <| f := v |>] is [s] with the field [f] assigned. A record type declares its
    constructor applied to its own fields; the update is found by abstracting the
    field out of that term. *)
Class Settable (R : Type) := eta_expanded : R → R.
Class Setter {R T : Type} (proj : R → T) := update_field : (T → T) → R → R.

Ltac solve_setter :=
  match goal with
  | |- @Setter ?R ?T ?proj =>
      let inst := constr:(_ : Settable R) in
      let eta := eval cbv beta delta [eta_expanded] in (@eta_expanded R inst) in
      let eta := eval hnf in eta in
      let p := eval pattern proj in eta in
      match p with
      | ?upd _ => let t := eval cbv beta in (fun f : T → T => upd (fun r => f (proj r))) in exact t
      end
  end.
#[export] Hint Extern 1 (Setter _) => solve_setter : typeclass_instances.

#[warnings="-postfix-notation-not-level-1"]
Notation "s <| f := v |>" := (update_field (proj := f) (λ _, v) s)
  (at level 12, left associativity, f constr at level 10, v at level 200) : js_scope.

(** A [for] loop over a list with an accumulator. *)
Fixpoint for_each {S A B} (f : B → A → eff S B) (b : B) (l : list A) : eff S B :=
  match l with
  | [] => ret b
  | x :: l' => let! b' := f b x in for_each f b' l'
  end.

Lemma bind_ok {S A B} (m : eff S A) (k : A → eff S B) s a s1 :
  m s = (Ok a, s1) → bind m k s = k a s1.
Proof. unfold bind. by intros ->. Qed.

Lemma bind_inv {S A B} (m : eff S A) (k : A → eff S B) s b s2 :
  bind m k s = (Ok b, s2) → ∃ a s1, m s = (Ok a, s1) ∧ k a s1 = (Ok b, s2).
Proof. unfold bind. destruct (m s) as [[a|e] s1]; [eauto|done]. Qed.

Lemma bind_modify {S B} (f : S → S) (k : unit → eff S B) s : bind (modify f) k s = k tt (f s).
Proof. done. Qed.

Lemma bind_err {S A B} (m : eff S A) (k : A → eff S B) s e s1 :
  m s = (Err e, s1) → bind m k s = (Err e, s1).
Proof. unfold bind. by intros ->. Qed.

(** Run the next statement of a method, when its outcome is known. *)
Ltac eff_step := erewrite bind_ok; [|first [reflexivity | eassumption]]; cbn beta.

(** ** Relations that a method preserves, whether it returns or throws

    [steps R m]: every run of [m] relates the fields before to the fields after. *)

Definition steps {S A} (R : relation S) (m : eff S A) : Prop := ∀ s, R s (m s).2.

Section Steps.
  Context {S : Type} (R : relation S) `{!PreOrder R}.

Lemma steps_ret {A} (a : A) : steps R (ret a).
Proof. by intros s. Qed.

Lemma steps_lift {A} (r : result A) : steps R (lift r).
Proof. by intros s. Qed.

Lemma steps_modify (f : S → S) : (∀ s, R s (f s)) → steps R (modify f).
Proof. by intros H s. Qed.

Lemma steps_bind {A B} (m : eff S A) (k : A → eff S B) :
  steps R m → (∀ a, steps R (k a)) → steps R (bind m k).
Proof.
  intros Hm Hk s. unfold bind. specialize (Hm s). destruct (m s) as [[a|e] s']; [|done].
  transitivity s'; [done|apply Hk].
Qed.

(** Reading the fields: what follows knows that they are the current ones. *)
Lemma steps_get {B} (k : S → eff S B) : (∀ s, R s (k s s).2) → steps R (bind get k).
Proof. by intros H s. Qed.

Lemma steps_get_any {B} (k : S → eff S B) : (∀ s, steps R (k s)) → steps R (bind get k).
Proof. intros H s. apply H. Qed.

Lemma steps_for_each {A B} (f : B → A → eff S B) b l :
  (∀ b x, steps R (f b x)) → steps R (for_each f b l).
Proof.
  intros Hf. revert b. induction l as [|x l IH]; intros b; simpl; [apply steps_ret|].
  by apply steps_bind.
Qed.

Lemma steps_catch {A} (m : eff S A) (h : string → eff S A) :
  steps R m → (∀ e, steps R (h e)) → steps R (catch m h).
Proof.
  intros Hm Hh s. unfold catch. specialize (Hm s). destruct (m s) as [[a|[e|]] s']; try done.
  transitivity s'; [done|apply Hh].
Qed.

Lemma steps_finally {A} (m : eff S A) (f : S → S) :
  steps R m → (∀ s, R s (f s)) → steps R (finally m f).
Proof.
  intros Hm Hf s. unfold finally. specialize (Hm s). destruct (m s) as [r s'].
  transitivity s'; [done|apply Hf].
Qed.

Lemma steps_when b (m : eff S unit) : steps R m → steps R (when b m).
Proof. intros. unfold when. destruct b; [done|apply steps_ret]. Qed.

End Steps.

(** The inverse of a run through [catch] or [lift]. *)
Lemma lift_inv {S A} (r : result A) (s : S) a s' : lift r s = (Ok a, s') → r = Ok a ∧ s' = s.
Proof. by intros [= -> ->]. Qed.

(** Decompose a method into its statements; what is left are the assignments and
    the calls of other methods, unless the database has lemmas about them. *)
Create HintDb steps discriminated.
Ltac steps_step :=
  lazymatch goal with
  | |- steps _ (ret _) => apply steps_ret; apply _
  | |- steps _ (lift _) => apply steps_lift; apply _
  | |- steps _ (bind get _) => apply steps_get_any; [apply _..|intros ?]
  | |- steps _ (bind _ _) => apply steps_bind; [apply _..| |intros ?]
  | |- steps _ (for_each _ _ _) => apply steps_for_each; [apply _..|intros ? ?]
  | |- steps _ (catch _ _) => apply steps_catch; [apply _..| |intros ?]
  | |- steps _ (finally _ _) => apply steps_finally; [apply _..| |]
  | |- steps _ (when _ _) => apply steps_when; [apply _..|]
  | |- steps _ (match ?x with _ => _ end) => destruct x
  | |- steps _ _ => solve [eauto with steps nocore]
  end.
Ltac steps_tac := cbv zeta; repeat (steps_step; cbv zeta).

(** * 32-bit integer operators

    JavaScript's bitwise operators first convert their operands with
    [ToInt32]; shift counts are taken modulo 32; [>>>] works on [ToUint32].
    Numbers are integers here; the callers that can receive a fraction or a
    non-finite number check for it first. *)

Definition to_uint32 (z : Z) : Z := (z mod 2 ^ 32)%Z.

Definition to_int32 (z : Z) : Z :=
  (let u := z mod 2 ^ 32 in if u <? 2 ^ 31 then u else u - 2 ^ 32)%Z.

Definition js_and (a b : Z) : Z := Z.land (to_int32 a) (to_int32 b).
Definition js_or (a b : Z) : Z := Z.lor (to_int32 a) (to_int32 b).
Definition js_xor (a b : Z) : Z := Z.lxor (to_int32 a) (to_int32 b).
Definition js_not (a : Z) : Z := Z.lnot (to_int32 a).
Definition js_shl (a n : Z) : Z := to_int32 (Z.shiftl (to_int32 a) (n mod 32)).
Definition js_shr (a n : Z) : Z := Z.shiftr (to_int32 a) (n mod 32).
Definition js_ushr (a n : Z) : Z := Z.shiftr (to_uint32 a) (n mod 32).

Definition MAX_SAFE_INTEGER : Z := (2 ^ 53 - 1)%Z.

(** * Floating-point numbers that reach a finiteness or integrality check

    A finite double is a rational; the two zeros are identified. *)

Inductive num : Type :=
| Fin (q : Q)
| NaN
| PosInf
| NegInf.

Definition num_of_Z (z : Z) : num := Fin (inject_Z z).
Coercion num_of_Z : Z >-> num.

(** [Number.isFinite] *)
Definition num_is_finite (x : num) : bool :=
  match x with Fin _ => true | _ => false end.

(** [Number.isInteger] *)
Definition num_is_integer (x : num) : bool :=
  match x with Fin q => Qeq_bool q (inject_Z (Qfloor q)) | _ => false end.

(** [x < y]; every comparison with [NaN] is false. *)
Definition num_lt (x y : num) : bool :=
  match x, y with
  | NaN, _ | _, NaN => false
  | Fin a, Fin b => negb (Qle_bool b a)
  | NegInf, NegInf | PosInf, _ => false
  | NegInf, _ => true
  | Fin _, PosInf => true
  | Fin _, NegInf => false
  end.

(** [x <= y] *)
Definition num_le (x y : num) : bool :=
  match x, y with
  | NaN, _ | _, NaN => false
  | Fin a, Fin b => Qle_bool a b
  | NegInf, _ | _, PosInf => true
  | PosInf, _ | Fin _, NegInf => false
  end.

(** * Maps and sets in insertion order

    A JavaScript [Map] (or [Set]) iterates in the order in which its keys were
    first inserted; re-setting a present key keeps its place. *)

Section JsMap.
  Context {K V : Type} `{EqDecision K}.

Fixpoint map_get (k : K) (m : list (K * V)) : option V :=
  match m with
  | [] => None
  | (k', v) :: m' => if decide (k = k') then Some v else map_get k m'
  end.

Definition map_has (k : K) (m : list (K * V)) : bool :=
  match map_get k m with Some _ => true | None => false end.

Fixpoint map_set (k : K) (v : V) (m : list (K * V)) : list (K * V) :=
  match m with
  | [] => [(k, v)]
  | (k', v') :: m' =>
      if decide (k = k') then (k, v) :: m' else (k', v') :: map_set k v m'
  end.

Fixpoint map_delete (k : K) (m : list (K * V)) : list (K * V) :=
  match m with
  | [] => []
  | (k', v') :: m' =>
      if decide (k = k') then map_delete k m' else (k', v') :: map_delete k m'
  end.

Lemma map_get_set (k k' : K) (v : V) m :
  map_get k' (map_set k v m) = if decide (k' = k) then Some v else map_get k' m.
Proof.
  induction m as [|[k0 v0] m IH]; simpl.
  - by repeat case_decide.
  - repeat case_decide; simplify_eq/=; repeat case_decide; congruence.
Qed.

Lemma map_get_set_eq (k : K) (v : V) m : map_get k (map_set k v m) = Some v.
Proof. rewrite map_get_set. by case_decide. Qed.

Lemma map_get_set_ne (k k' : K) (v : V) m :
  k' ≠ k → map_get k' (map_set k v m) = map_get k' m.
Proof. intros. rewrite map_get_set. by case_decide. Qed.

Lemma map_get_delete (k k' : K) (m : list (K * V)) :
  map_get k' (map_delete k m) = if decide (k' = k) then None else map_get k' m.
Proof.
  induction m as [|[k0 v0] m IH]; simpl.
  - by case_decide.
  - repeat case_decide; simplify_eq/=; repeat case_decide; congruence.
Qed.

Lemma map_get_None (k : K) (m : list (K * V)) : map_get k m = None ↔ k ∉ m.*1.
Proof.
  induction m as [|[k0 v0] m IH]; csimpl.
  - split; [intros _; apply not_elem_of_nil|done].
  - rewrite not_elem_of_cons. case_decide; naive_solver.
Qed.

Lemma map_get_is_Some (k : K) (m : list (K * V)) : is_Some (map_get k m) ↔ k ∈ m.*1.
Proof.
  rewrite <- not_eq_None_Some, map_get_None.
  destruct (decide (k ∈ m.*1)); naive_solver.
Qed.

Lemma map_has_spec (k : K) (m : list (K * V)) : map_has k m = true ↔ k ∈ m.*1.
Proof. rewrite <- map_get_is_Some. unfold map_has, is_Some. case_match; naive_solver. Qed.

Lemma map_has_false (k : K) (m : list (K * V)) : map_has k m = false ↔ k ∉ m.*1.
Proof. rewrite <- map_get_None. unfold map_has. case_match; naive_solver. Qed.

Lemma map_get_elem_of (k : K) (v : V) m : map_get k m = Some v → (k, v) ∈ m.
Proof.
  induction m as [|[k0 v0] m IH]; simpl; [done|].
  case_decide; intros; simplify_eq; [left|right]; auto.
Qed.

Lemma elem_of_map_get (k : K) (v : V) m :
  NoDup m.*1 → (k, v) ∈ m → map_get k m = Some v.
Proof.
  induction m as [|[k0 v0] m IH]; csimpl; [by intros _ ?%elem_of_nil|].
  intros [Hn Hd]%NoDup_cons [|Hin]%elem_of_cons; simplify_eq.
  - by case_decide.
  - case_decide; [|auto]. subst. exfalso. apply Hn.
    apply list_elem_of_fmap. by exists (k0, v).
Qed.

Lemma map_keys_set_in (k : K) (v : V) m : k ∈ m.*1 → (map_set k v m).*1 = m.*1.
Proof.
  induction m as [|[k0 v0] m IH]; csimpl; [by intros ?%elem_of_nil|].
  intros [->|Hin]%elem_of_cons; case_decide; csimpl; try congruence.
  by rewrite IH.
Qed.

Lemma map_keys_set_notin (k : K) (v : V) m : k ∉ m.*1 → (map_set k v m).*1 = m.*1 ++ [k].
Proof.
  induction m as [|[k0 v0] m IH]; csimpl; [done|].
  intros [? ?]%not_elem_of_cons. case_decide; [congruence|]. csimpl. by rewrite IH.
Qed.

Lemma map_set_notin (k : K) (v : V) m : k ∉ m.*1 → map_set k v m = m ++ [(k, v)].
Proof.
  induction m as [|[k0 v0] m IH]; csimpl; [done|].
  intros [? ?]%not_elem_of_cons. case_decide; [congruence|]. csimpl. by rewrite IH.
Qed.

Lemma elem_of_map_keys_set (k k' : K) (v : V) m :
  k' ∈ (map_set k v m).*1 ↔ k' = k ∨ k' ∈ m.*1.
Proof.
  destruct (decide (k ∈ m.*1)).
  - rewrite map_keys_set_in by done. naive_solver.
  - rewrite map_keys_set_notin, elem_of_app, list_elem_of_singleton by done. naive_solver.
Qed.

Lemma Forall_map_set (P : K * V → Prop) (k : K) (v : V) m :
  Forall P m → P (k, v) → Forall P (map_set k v m).
Proof.
  intros HF Hk. induction HF as [|[k0 v0] m H0 HF IH]; simpl; [by constructor|].
  case_decide; constructor; done.
Qed.

Lemma NoDup_map_set (k : K) (v : V) m : NoDup m.*1 → NoDup (map_set k v m).*1.
Proof.
  intros. destruct (decide (k ∈ m.*1)).
  - by rewrite map_keys_set_in.
  - rewrite map_keys_set_notin by done. apply NoDup_app.
    split_and!; [done| |apply NoDup_singleton].
    intros x ? ->%list_elem_of_singleton. done.
Qed.

Lemma elem_of_map_keys_delete (k k' : K) (m : list (K * V)) :
  k' ∈ (map_delete k m).*1 ↔ k' ≠ k ∧ k' ∈ m.*1.
Proof.
  rewrite <- !map_get_is_Some, map_get_delete. case_decide; [|naive_solver].
  split; [by intros [? ?]|naive_solver].
Qed.

Lemma map_delete_sublist (k : K) (m : list (K * V)) : sublist (map_delete k m) m.
Proof.
  induction m as [|[k0 v0] m IH]; simpl; [constructor|].
  case_decide; by constructor.
Qed.

Lemma NoDup_map_delete (k : K) (m : list (K * V)) : NoDup m.*1 → NoDup (map_delete k m).*1.
Proof.
  intros Hd. apply (sublist_NoDup _ _ Hd).
  apply fmap_sublist, map_delete_sublist.
Qed.

Lemma map_delete_notin (k : K) (m : list (K * V)) : k ∉ m.*1 → map_delete k m = m.
Proof.
  induction m as [|[k0 v0] m IH]; csimpl; [done|].
  intros [? ?]%not_elem_of_cons. case_decide; [congruence|]. by rewrite IH.
Qed.
End JsMap.

Section JsSet.
  Context {K : Type} `{EqDecision K}.

Definition set_has (k : K) (s : list K) : bool := bool_decide (k ∈ s).

Definition set_add (k : K) (s : list K) : list K :=
  if decide (k ∈ s) then s else s ++ [k].

(** [new Set(iterable)] *)
Definition set_of_list (l : list K) : list K := foldl (flip set_add) [] l.

Lemma set_has_spec (k : K) s : set_has k s = true ↔ k ∈ s.
Proof. apply bool_decide_eq_true. Qed.

Lemma elem_of_set_add (k k' : K) s : k' ∈ set_add k s ↔ k' = k ∨ k' ∈ s.
Proof.
  unfold set_add. case_decide; [naive_solver|].
  rewrite elem_of_app, list_elem_of_singleton. naive_solver.
Qed.

Lemma NoDup_set_add (k : K) s : NoDup s → NoDup (set_add k s).
Proof.
  unfold set_add. case_decide; [done|]. intros. apply NoDup_app.
  split_and!; [done| |apply NoDup_singleton]. by intros x ? ->%list_elem_of_singleton.
Qed.

Lemma set_add_in (k : K) s : k ∈ s → set_add k s = s.
Proof. unfold set_add. by case_decide. Qed.

Lemma set_add_notin (k : K) s : k ∉ s → set_add k s = s ++ [k].
Proof. unfold set_add. by case_decide. Qed.

Lemma elem_of_foldl_set_add (l s : list K) k : k ∈ foldl (flip set_add) s l ↔ k ∈ s ∨ k ∈ l.
Proof.
  revert s. induction l as [|x l IH]; intros s; simpl; [set_solver|].
  rewrite IH. unfold flip. rewrite elem_of_set_add. set_solver.
Qed.

Lemma NoDup_foldl_set_add (l s : list K) : NoDup s → NoDup (foldl (flip set_add) s l).
Proof.
  revert s. induction l as [|x l IH]; intros s Hs; simpl; [done|].
  apply IH. by apply NoDup_set_add.
Qed.

Lemma elem_of_set_of_list (l : list K) k : k ∈ set_of_list l ↔ k ∈ l.
Proof. unfold set_of_list. rewrite elem_of_foldl_set_add. set_solver. Qed.

Lemma NoDup_set_of_list (l : list K) : NoDup (set_of_list l).
Proof. apply NoDup_foldl_set_add. constructor. Qed.
End JsSet.

(** * Bytes

    A [Uint8Array] is a list of bytes. *)

Abbreviation byte := Init.Byte.byte.
Abbreviation bytes := (list byte).

Definition byte_to_Z (b : byte) : Z := Z.of_N (Strings.Byte.to_N b).

(** Storing a number in a [Uint8Array] slot keeps its low eight bits. *)
Definition byte_of_Z (z : Z) : byte :=
  match Strings.Byte.of_N (Z.to_N (z mod 256)) with Some b => b | None => Init.Byte.x00 end.

(** [DataView.setUint32(off, z, false)] *)
Definition be32 (z : Z) : bytes :=
  [byte_of_Z (z / 2 ^ 24); byte_of_Z (z / 2 ^ 16); byte_of_Z (z / 2 ^ 8); byte_of_Z z].

Definition of_be32 (b0 b1 b2 b3 : byte) : Z :=
  (byte_to_Z b0 * 2 ^ 24 + byte_to_Z b1 * 2 ^ 16 + byte_to_Z b2 * 2 ^ 8 + byte_to_Z b3)%Z.

#[export] Instance byte_eq_dec : EqDecision byte := Strings.Byte.byte_eq_dec.

Lemma byte_to_Z_range (b : byte) : (0 ≤ byte_to_Z b < 256)%Z.
Proof. unfold byte_to_Z. pose proof (Strings.Byte.to_N_bounded b). lia. Qed.

Lemma byte_of_to_Z (b : byte) : byte_of_Z (byte_to_Z b) = b.
Proof.
  unfold byte_of_Z, byte_to_Z. pose proof (Strings.Byte.to_N_bounded b).
  rewrite Z.mod_small by lia. rewrite N2Z.id. by rewrite Strings.Byte.of_to_N.
Qed.

Lemma byte_to_of_Z (z : Z) : byte_to_Z (byte_of_Z z) = (z mod 256)%Z.
Proof.
  unfold byte_of_Z, byte_to_Z. pose proof (Z.mod_pos_bound z 256 ltac:(lia)).
  destruct (Strings.Byte.of_N _) as [b|] eqn:E.
  - apply Strings.Byte.to_of_N in E. rewrite E. lia.
  - apply Strings.Byte.of_N_None_iff in E. lia.
Qed.

#[export] Instance byte_to_Z_inj : Inj (=) (=) byte_to_Z.
Proof. intros x y E. rewrite <- (byte_of_to_Z x), <- (byte_of_to_Z y). by rewrite E. Qed.

Lemma length_be32 z : length (be32 z) = 4.
Proof. done. Qed.

(** The value a big-endian reader sees is the value reduced modulo [2^32]. *)
Lemma of_be32_be32 (z : Z) :
  of_be32 (byte_of_Z (z / 2 ^ 24)) (byte_of_Z (z / 2 ^ 16)) (byte_of_Z (z / 2 ^ 8)) (byte_of_Z z)
  = (z mod 2 ^ 32)%Z.
Proof.
  unfold of_be32. rewrite !byte_to_of_Z.
  change (2 ^ 24)%Z with 16777216%Z. change (2 ^ 16)%Z with 65536%Z.
  change (2 ^ 8)%Z with 256%Z. change (2 ^ 32)%Z with 4294967296%Z.
  Z.div_mod_to_equations. lia.
Qed.

Lemma be32_inj_mod x y : be32 x = be32 y → (x mod 2 ^ 32 = y mod 2 ^ 32)%Z.
Proof. intros [= E1 E2 E3 E4]. by rewrite <- (of_be32_be32 x), <- (of_be32_be32 y), E1, E2, E3, E4. Qed.

Lemma be32_inj x y :
  (0 ≤ x < 2 ^ 32)%Z → (0 ≤ y < 2 ^ 32)%Z → be32 x = be32 y → x = y.
Proof. intros ?? E%be32_inj_mod. by rewrite !Z.mod_small in E by lia. Qed.

(** * Facts about the 32-bit operators *)

Lemma to_int32_small z : (- 2 ^ 31 ≤ z < 2 ^ 31)%Z → to_int32 z = z.
Proof.
  intros. unfold to_int32. destruct (Z.ltb_spec (z mod 2 ^ 32) (2 ^ 31)).
  - destruct (decide (0 ≤ z)%Z); [by apply Z.mod_small; lia|].
    rewrite <- (Z.mod_add z 1) in H0 by lia. rewrite Z.mod_small in H0 by lia. lia.
  - destruct (decide (0 ≤ z)%Z).
    + rewrite Z.mod_small in H0 by lia. lia.
    + rewrite <- (Z.mod_add z 1) by lia. rewrite Z.mod_small by lia. lia.
Qed.

Lemma to_int32_range z : (- 2 ^ 31 ≤ to_int32 z < 2 ^ 31)%Z.
Proof.
  unfold to_int32. pose proof (Z.mod_pos_bound z (2 ^ 32) ltac:(lia)).
  destruct (Z.ltb_spec (z mod 2 ^ 32) (2 ^ 31)); lia.
Qed.

(** [to_int32] keeps the low 32 bits. *)
Lemma to_int32_testbit z i : (0 ≤ i < 32)%Z → Z.testbit (to_int32 z) i = Z.testbit z i.
Proof.
  intros. unfold to_int32.
  assert (Hm : Z.testbit (z mod 2 ^ 32) i = Z.testbit z i)
    by (apply Z.mod_pow2_bits_low; lia).
  destruct (Z.ltb_spec (z mod 2 ^ 32) (2 ^ 31)); [done|].
  rewrite <- Hm. set (u := (z mod 2 ^ 32)%Z) in *.
  rewrite <- (Z.mod_pow2_bits_low (u - 2 ^ 32) 32 i) by lia.
  rewrite <- (Z.mod_pow2_bits_low u 32 i) by lia. f_equal.
  replace (u - 2 ^ 32)%Z with (u + (-1) * 2 ^ 32)%Z by lia. by rewrite Z.mod_add by lia.
Qed.

(** * Lists *)

Lemma foldl_ext {A B} (f g : A → B → A) l a :
  (∀ a b, f a b = g a b) → foldl f a l = foldl g a l.
Proof. intros E. revert a. induction l as [|x l IH]; intros a; simpl; [done|]. by rewrite E. Qed.

(** Lists of the same length whose concatenations agree are equal. *)
Lemma app_inj_length {A} (l1 l2 k1 k2 : list A) :
  length l1 = length l2 → l1 ++ k1 = l2 ++ k2 → l1 = l2 ∧ k1 = k2.
Proof. intros. by apply app_inj_1. Qed.

Lemma list_filter_sublist {A} (f : A → bool) (l : list A) : List.filter f l `sublist_of` l.
Proof. induction l; simpl; [done|]. case_match; by constructor. Qed.

(** A function without repeated values on a list is injective there. *)
Lemma NoDup_fmap_elem {A B} (l : list A) (f : A → B) x y :
  NoDup (f <$> l) → x ∈ l → y ∈ l → f x = f y → x = y.
Proof.
  induction l as [|a l IH]; csimpl; [by intros _ ?%elem_of_nil|].
  intros [Hn Hd]%NoDup_cons [->|Hx]%elem_of_cons [->|Hy]%elem_of_cons E; [done| | |auto].
  - destruct Hn. rewrite E. by apply list_elem_of_fmap_2.
  - destruct Hn. rewrite <- E. by apply list_elem_of_fmap_2.
Qed.

Lemma last_cons_elem {A} (x d : A) (l : list A) : l ≠ [] → List.last (x :: l) d ∈ l.
Proof.
  intros Hne. destruct l as [|y l] using rev_ind; [done|].
  rewrite app_comm_cons, List.last_last. apply elem_of_app. right. by left.
Qed.

(** Sorting forgets the order, and only the order. *)
Lemma merge_sort_perm {A} (R : relation A) `{!RelDecision R, !Total R, !Transitive R, !AntiSymm (=) R} (a b : list A) :
  merge_sort R a = merge_sort R b ↔ a ≡ₚ b.
Proof.
  split; intros E.
  - by rewrite <- (merge_sort_Permutation R a), E, merge_sort_Permutation.
  - apply (StronglySorted_unique R); try apply StronglySorted_merge_sort; try apply _.
    by rewrite !merge_sort_Permutation.
Qed.

(** Setting a list of keys, one after the other. *)
Lemma map_get_foldl_set {K V X} `{EqDecision K} (key : X → K) (val : X → V) (l : list X) (m : list (K * V)) i :
  map_get i (foldl (λ m x, map_set (key x) (val x) m) m l) = map_get i m ∧ i ∉ key <$> l ∨
  ∃ x, x ∈ l ∧ key x = i ∧ map_get i (foldl (λ m x, map_set (key x) (val x) m) m l) = Some (val x).
Proof.
  revert m. induction l as [|y l IH]; intros m; csimpl.
  { left. split; [done|apply not_elem_of_nil]. }
  destruct (IH (map_set (key y) (val y) m)) as [[E Hn]|(x & Hx & Hk & E)].
  - rewrite E, map_get_set. case_decide as Hd.
    + right. exists y. subst i. split_and!; [by left|done|done].
    + left. split; [done|]. by apply not_elem_of_cons.
  - right. exists x. split_and!; [by right|done|done].
Qed.

Lemma NoDup_foldl_set {K V X} `{EqDecision K} (key : X → K) (val : X → V) (l : list X) (m : list (K * V)) :
  NoDup m.*1 → NoDup (foldl (λ m x, map_set (key x) (val x) m) m l).*1.
Proof. revert m. induction l as [|y l IH]; intros m Hn; simpl; [done|]. apply IH. by apply NoDup_map_set. Qed.

Lemma elem_of_foldl_set_keys {K V X} `{EqDecision K} (key : X → K) (val : X → V) (l : list X) (m : list (K * V)) i :
  i ∈ (foldl (λ m x, map_set (key x) (val x) m) m l).*1 ↔ i ∈ m.*1 ∨ i ∈ key <$> l.
Proof.
  revert m. induction l as [|y l IH]; intros m; csimpl; [rewrite elem_of_nil; naive_solver|].
  rewrite IH, elem_of_map_keys_set, elem_of_cons. naive_solver.
Qed.

(** * Automation *)

Create HintDb swarm discriminated.
#[export] Hint Resolve NoDup_map_set NoDup_map_delete NoDup_set_add NoDup_set_of_list : swarm.
#[export] Hint Rewrite @map_get_set_eq @elem_of_set_add @elem_of_set_of_list
  @elem_of_map_keys_set @elem_of_map_keys_delete : swarm.

(** Split every conditional and every [let?] of the goal or of [H], discarding
    the branches that throw. *)
Ltac run_step :=
  match goal with
  | H : context [match ?x with Ok _ => _ | Err _ => _ end] |- _ =>
      let E := fresh "E" in destruct x eqn:E; try discriminate H
  | H : context [if decide ?P then _ else _] |- _ =>
      destruct (decide P); try discriminate H
  | H : context [if ?b then _ else _] |- _ =>
      let E := fresh "E" in destruct b eqn:E; try discriminate H
  | H : Ok _ = Ok _ |- _ => injection H as H; try subst
  | H : Err _ = Ok _ |- _ => discriminate H
  | H : Ok _ = Err _ |- _ => discriminate H
  | H : throw _ = Ok _ |- _ => discriminate H
  end.
Ltac run := repeat run_step.

(** * Accumulated differences

    The constant-time comparisons accumulate [diff |= x ^ y]. *)

Lemma int32_sign z : (- 2 ^ 31 <= z < 2 ^ 31)%Z <-> (Z.shiftr z 31 = 0 \/ Z.shiftr z 31 = -1)%Z.
Proof.
  rewrite Z.shiftr_div_pow2 by lia. change (2 ^ 31)%Z with 2147483648%Z.
  split; intros; Z.div_mod_to_equations; lia.
Qed.

Lemma js_or_range a b : (- 2 ^ 31 <= js_or a b < 2 ^ 31)%Z.
Proof.
  unfold js_or. pose proof (to_int32_range a) as Ha%int32_sign. pose proof (to_int32_range b) as Hb%int32_sign.
  apply int32_sign. rewrite Z.shiftr_lor. destruct Ha as [-> | ->], Hb as [-> | ->]; vm_compute; tauto.
Qed.

Lemma js_xor_range a b : (- 2 ^ 31 <= js_xor a b < 2 ^ 31)%Z.
Proof.
  unfold js_xor. pose proof (to_int32_range a) as Ha%int32_sign. pose proof (to_int32_range b) as Hb%int32_sign.
  apply int32_sign. rewrite Z.shiftr_lxor. destruct Ha as [-> | ->], Hb as [-> | ->]; vm_compute; tauto.
Qed.

Lemma js_xor_eq_0 a b : (js_xor a b = 0)%Z <-> to_int32 a = to_int32 b.
Proof. unfold js_xor. apply Z.lxor_eq_0_iff. Qed.

Lemma js_or_eq_0 a b :
  (- 2 ^ 31 <= a < 2 ^ 31)%Z -> (- 2 ^ 31 <= b < 2 ^ 31)%Z -> (js_or a b = 0)%Z <-> (a = 0 /\ b = 0)%Z.
Proof. intros. unfold js_or. rewrite !to_int32_small by lia. apply Z.lor_eq_0_iff. Qed.

(** The accumulator ends at zero exactly when it started there and every
    compared pair agrees as 32-bit integers. *)
Lemma foldl_diff {A} (f g : A -> Z) (l : list A) d :
  (- 2 ^ 31 <= d < 2 ^ 31)%Z ->
  (foldl (fun d x => js_or d (js_xor (f x) (g x))) d l = 0)%Z <->
  d = 0%Z /\ Forall (fun x => to_int32 (f x) = to_int32 (g x)) l.
Proof.
  revert d. induction l as [|x l IH]; intros d Hd; simpl.
  - split; [by intros ->|naive_solver].
  - rewrite IH by apply js_or_range. rewrite js_or_eq_0 by (done || apply js_xor_range).
    rewrite js_xor_eq_0, Forall_cons. tauto.
Qed.

(** * Comparisons of [num]s that are integers *)

Lemma num_lt_Z (a b : Z) : num_lt a b = (a <? b)%Z.
Proof.
  unfold num_lt, num_of_Z. destruct (Z.ltb_spec a b).
  - apply negb_true_iff, not_true_iff_false. rewrite Qle_bool_iff, <- Zle_Qle. lia.
  - apply negb_false_iff. rewrite Qle_bool_iff, <- Zle_Qle. lia.
Qed.

Lemma num_le_Z (a b : Z) : num_le a b = (a <=? b)%Z.
Proof.
  unfold num_le, num_of_Z. destruct (Z.leb_spec a b).
  - rewrite Qle_bool_iff, <- Zle_Qle. lia.
  - apply not_true_iff_false. rewrite Qle_bool_iff, <- Zle_Qle. lia.
Qed.

Lemma num_is_integer_Z (a : Z) : num_is_integer a = true.
Proof. unfold num_is_integer, num_of_Z. rewrite Qfloor_Z. apply Qeq_bool_iff. done. Qed.
