(* ===== verification/TreeMath.v ===== *)
(** * Tree math of BeeKEM's left-balanced binary tree

    Models [packages/collabswarm/src/beekem/tree-math.ts]: node indices are
    JavaScript numbers handled with 32-bit operators, so every function is
    written with the operators of the prelude and every [while] loop has fuel.
    The theorems relate the bit tricks to the coordinates of a node: a node of
    level [k] at position [m] has index [2^k * (2*m+1) - 1]. *)
From stdpp Require Import base numbers list list_numbers strings.
From Stdlib Require Import ZArith Lia.
From S2P Require Import Prelude.

Open Scope Z_scope.

Module TreeMath.

(** ** Definitions *)

Definition assertNonNegativeSafeInt (value : Z) : result unit :=
  if (MAX_SAFE_INTEGER <? Z.abs value) || (value <? 0)
  then throw "must be a non-negative safe integer"
  else Ok tt.

Definition isLeaf (index : Z) : bool := js_and index 1 =? 0.

Definition isInternal (index : Z) : bool := js_and index 1 =? 1.

(** [while (((index >> k) & 1) === 1) k++] *)
Fixpoint level_loop (fuel : nat) (index k : Z) : result Z :=
  match fuel with
  | O => Err OutOfFuel
  | S fuel' =>
      if js_and (js_shr index k) 1 =? 1 then level_loop fuel' index (k + 1) else Ok k
  end.

(** The loop leaves within 32 shifts ([level_loop_stops]) or, its shift count
    wrapping modulo 32, never ([level_loop_diverges]): 33 iterations decide. *)
Definition level (index : Z) : result Z :=
  let? _ := assertNonNegativeSafeInt index in
  if js_and index 1 =? 0 then Ok 0 else level_loop 33 index 0.

Definition nodeWidth (numLeaves : Z) : Z :=
  if numLeaves =? 0 then 0 else 2 * numLeaves - 1.

(** [while ((x >> k) !== 0) k++] *)
Fixpoint log2_loop (fuel : nat) (x k : Z) : result Z :=
  match fuel with
  | O => Err OutOfFuel
  | S fuel' => if js_shr x k =? 0 then Ok k else log2_loop fuel' x (k + 1)
  end.

Definition log2 (x : Z) : result Z :=
  let? _ := assertNonNegativeSafeInt x in
  if x =? 0 then Ok 0 else
  let? k := log2_loop 33 x 0 in Ok (k - 1).

Definition left (index : Z) : result Z :=
  let? k := level index in
  if k =? 0 then throw "Leaves have no children" else
  Ok (js_xor index (js_shl 1 (k - 1))).

(** [while (r >= w) r = left(r)] *)
Fixpoint right_clamp (fuel : nat) (w r : Z) : result Z :=
  match fuel with
  | O => Err OutOfFuel
  | S fuel' => if r >=? w then let? r' := left r in right_clamp fuel' w r' else Ok r
  end.

Definition right (index : Z) (numLeaves : option Z) : result Z :=
  let? k := level index in
  if k =? 0 then throw "Leaves have no children" else
  let r := js_xor index (js_shl 3 (k - 1)) in
  match numLeaves with
  | None => Ok r
  | Some n => right_clamp 33 (nodeWidth n) r
  end.

Definition parentStep (index : Z) : result Z :=
  let? k := level index in
  Ok (js_and (js_or index (js_shl 1 k)) (js_not (js_shl 1 (k + 1)))).

Definition root (numLeaves : Z) : result Z :=
  if numLeaves =? 0 then throw "Tree must have at least one leaf" else
  if numLeaves =? 1 then Ok 0 else
  let? l := log2 (nodeWidth numLeaves) in
  Ok (js_shl 1 l - 1).

(** [while (p >= w) p = parentStep(p)] *)
Fixpoint parent_clamp (fuel : nat) (w p : Z) : result Z :=
  match fuel with
  | O => Err OutOfFuel
  | S fuel' => if p >=? w then let? p' := parentStep p in parent_clamp fuel' w p' else Ok p
  end.

Definition parent (index numLeaves : Z) : result Z :=
  let? r := root numLeaves in
  if index =? r then throw "Root has no parent" else
  let? p := parentStep index in
  parent_clamp 33 (nodeWidth numLeaves) p.

Definition sibling (index numLeaves : Z) : result Z :=
  let? p := parent index numLeaves in
  let? l := left p in
  if l =? index then right p (Some numLeaves) else left p.

(** [while (current !== r) { current = parent(current); path.push(current) }] *)
Fixpoint directPath_loop (fuel : nat) (r numLeaves current : Z) (path : list Z) : result (list Z) :=
  match fuel with
  | O => Err OutOfFuel
  | S fuel' =>
      if current =? r then Ok path else
      let? p := parent current numLeaves in
      directPath_loop fuel' r numLeaves p (path ++ [p])
  end.

Definition directPath (leafIndex numLeaves : Z) : result (list Z) :=
  if numLeaves <=? 1 then Ok [] else
  let? r := root numLeaves in
  directPath_loop 33 r numLeaves leafIndex [].

(** [nodes.map((n) => sibling(n, numLeaves))]; the first throw wins. *)
Fixpoint map_sibling (numLeaves : Z) (nodes : list Z) : result (list Z) :=
  match nodes with
  | [] => Ok []
  | n :: nodes' =>
      let? s := sibling n numLeaves in
      let? ss := map_sibling numLeaves nodes' in
      Ok (s :: ss)
  end.

(** [dp.slice(0, -1)] *)
Definition all_but_last (l : list Z) : list Z := take (length l - 1) l.

Definition copath (leafIndex numLeaves : Z) : result (list Z) :=
  let? dp := directPath leafIndex numLeaves in
  map_sibling numLeaves (leafIndex :: all_but_last dp).

Definition leafToNodeIndex (leafPosition : Z) : Z := leafPosition * 2.

Definition nodeToLeafIndex (nodeIndex : Z) : result Z :=
  if negb (isLeaf nodeIndex) then throw "Not a leaf node" else Ok (js_shr nodeIndex 1).

(** ** Coordinates

    [node k m] is the index of the node of level [k] at position [m] counted
    from the left among the nodes of that level; [ancestors_from] lists the
    ancestors of such a node in the infinite complete tree. *)

Definition node (k m : Z) : Z := 2 ^ k * (2 * m + 1) - 1.

Fixpoint ancestors_from (count : nat) (k m : Z) : list Z :=
  match count with
  | O => []
  | S count' => node (k + 1) (m / 2) :: ancestors_from count' (k + 1) (m / 2)
  end.

(** The level of the root of a tree of [n] leaves. *)
Definition height (n : Z) : Z := Z.log2 (2 * n - 1).

(** A position of the complete tree of height [K]. *)
Definition in_tree (K k m : Z) : Prop := 0 <= k <= K /\ 0 <= m < 2 ^ (K - k).

(** The reference definition of the direct path: the ancestors of the leaf in
    the complete tree, without the nodes the tree is too narrow to hold. *)
Definition directPath_ref (leafIndex numLeaves : Z) : list Z :=
  List.filter (fun v => v <? 2 * numLeaves - 1)
    (ancestors_from (Z.to_nat (height numLeaves)) 0 (leafIndex / 2)).

(** ** Bits of an index *)

Lemma pow2_S k : 0 <= k -> 2 ^ (k + 1) = 2 * 2 ^ k.
Proof. intros. rewrite Z.pow_add_r by lia. lia. Qed.

Lemma pow2_le31 k : 0 <= k <= 31 -> 1 <= 2 ^ k <= 2 ^ 31.
Proof.
  intros. split; [|by apply Z.pow_le_mono_r; lia].
  pose proof (Z.pow_pos_nonneg 2 k ltac:(lia) ltac:(lia)). lia.
Qed.

Lemma node_lor k m : 0 <= k -> node k m = Z.lor (Z.shiftl m (k + 1)) (Z.ones k).
Proof.
  intros. assert (Hl : Z.land (Z.shiftl m (k + 1)) (Z.ones k) = 0).
  { apply Z.bits_inj'. intros i Hi. rewrite Z.land_spec, Z.bits_0.
    destruct (Z.ltb_spec i k).
    - rewrite Z.shiftl_spec_low by lia. done.
    - rewrite Z.ones_spec_high by lia. by rewrite andb_false_r. }
  rewrite <- Z.lxor_lor, <- Z.add_nocarry_lxor by done.
  rewrite Z.shiftl_mul_pow2, Z.ones_equiv, pow2_S by lia. unfold node. lia.
Qed.

Lemma node_testbit k m i :
  0 <= k -> 0 <= i ->
  Z.testbit (node k m) i = if i <? k then true else if i =? k then false else Z.testbit m (i - k - 1).
Proof.
  intros. rewrite node_lor, Z.lor_spec, Z.shiftl_spec by lia.
  destruct (Z.ltb_spec i k); [rewrite Z.ones_spec_low by lia; by rewrite orb_true_r|].
  rewrite Z.ones_spec_high, orb_false_r by lia.
  destruct (Z.eqb_spec i k); [rewrite Z.testbit_neg_r by lia; done|]. f_equal. lia.
Qed.

Lemma node_nonneg k m : 0 <= k -> 0 <= m -> 0 <= node k m.
Proof. intros. unfold node. pose proof (Z.pow_pos_nonneg 2 k). nia. Qed.

(** Every index has coordinates. *)
Lemma node_exists i : 0 <= i -> exists k m, 0 <= k /\ 0 <= m /\ i = node k m.
Proof.
  induction i as [i IH] using (well_founded_induction (Z.lt_wf 0)). intros.
  destruct (Z.Even_or_Odd i) as [[j ->]|[j ->]].
  - exists 0, j. unfold node. lia.
  - destruct (IH j) as (k & m & ? & ? & ->); [lia..|].
    exists (k + 1), m. split_and!; [lia..|]. unfold node. rewrite pow2_S by lia. lia.
Qed.

Lemma in_tree_up K k m : in_tree K k m -> k < K -> in_tree K (k + 1) (m / 2).
Proof.
  intros [? [? Hm]] ?. split; [lia|]. split; [by apply Z.div_pos; lia|].
  apply Z.div_lt_upper_bound; [lia|].
  replace (K - k) with ((K - (k + 1)) + 1) in Hm by lia. rewrite pow2_S in Hm by lia. lia.
Qed.

Lemma in_tree_bound K k m : in_tree K k m -> 0 <= node k m < 2 ^ (K + 1) - 1.
Proof.
  intros [? [? Hm]]. split; [by apply node_nonneg; lia|]. unfold node.
  replace (2 ^ (K + 1)) with (2 ^ k * (2 * 2 ^ (K - k))).
  - pose proof (Z.pow_pos_nonneg 2 k ltac:(lia) ltac:(lia)). nia.
  - rewrite <- pow2_S, <- Z.pow_add_r by lia. f_equal. lia.
Qed.

Lemma in_tree_intro K k m :
  0 <= k -> 0 <= m -> 0 <= K -> node k m < 2 ^ (K + 1) - 1 -> in_tree K k m.
Proof.
  unfold node. intros ??? Hlt. pose proof (Z.pow_pos_nonneg 2 k ltac:(lia) ltac:(lia)).
  assert (k <= K).
  { destruct (Z.le_gt_cases k K); [done|].
    pose proof (Z.pow_le_mono_r 2 (K + 1) k ltac:(lia) ltac:(lia)). nia. }
  split; [lia|]. split; [done|].
  replace (2 ^ (K + 1)) with (2 ^ k * (2 * 2 ^ (K - k))) in Hlt.
  - nia.
  - rewrite <- pow2_S, <- Z.pow_add_r by lia. f_equal. lia.
Qed.

(** ** The 32-bit loops *)

Lemma js_shr_small x k : 0 <= x < 2 ^ 31 -> 0 <= k < 32 -> js_shr x k = x / 2 ^ k.
Proof.
  intros. unfold js_shr. rewrite to_int32_small, Z.mod_small by lia.
  by apply Z.shiftr_div_pow2; lia.
Qed.

Lemma shiftr_int32 z k :
  0 <= k -> - 2 ^ 31 <= z < 2 ^ 31 -> - 2 ^ 31 <= Z.shiftr z k < 2 ^ 31.
Proof.
  intros. rewrite Z.shiftr_div_pow2 by lia.
  pose proof (Z.pow_pos_nonneg 2 k ltac:(lia) ltac:(lia)). split.
  - apply Z.div_le_lower_bound; nia.
  - apply Z.div_lt_upper_bound; nia.
Qed.

(** The loop's test reads bit [k mod 32] of the 32-bit value. *)
Lemma js_bit index k :
  0 <= k -> js_and (js_shr index k) 1 = Z.b2z (Z.testbit (to_int32 index) (k mod 32)).
Proof.
  intros. unfold js_and, js_shr.
  pose proof (Z.mod_pos_bound k 32 ltac:(lia)).
  rewrite (to_int32_small 1) by lia.
  rewrite to_int32_small by (apply shiftr_int32; [lia|apply to_int32_range]).
  change 1 with (Z.ones 1) at 1. rewrite Z.land_ones by lia. change (2 ^ 1) with 2.
  rewrite <- Z.bit0_mod, Z.shiftr_spec by lia. done.
Qed.

(** An all-ones 32-bit value never leaves the loop. *)
Lemma level_loop_diverges fuel index k :
  0 <= k -> to_int32 index = -1 -> level_loop fuel index k = Err OutOfFuel.
Proof.
  intros Hk E. revert k Hk. induction fuel as [|fuel IH]; intros k Hk; simpl; [done|].
  rewrite js_bit, E, Z.bits_m1 by (pose proof (Z.mod_pos_bound k 32); lia). simpl.
  by apply IH; lia.
Qed.

Lemma level_loop_stops n index j :
  0 <= j -> j + Z.of_nat n = 31 ->
  (exists i, j <= i < 32 /\ Z.testbit (to_int32 index) i = false) ->
  exists k, level_loop (S n) index j = Ok k.
Proof.
  revert j. induction n as [|n IH]; intros j Hj Hn (i & Hi & E).
  - exists j. simpl. rewrite js_bit, Z.mod_small by lia. replace j with i by lia. by rewrite E.
  - destruct (Z.testbit (to_int32 index) j) eqn:Ej.
    + destruct (IH (j + 1)) as [k Hk]; [lia..| |].
      * exists i. split; [|done]. destruct (decide (i = j)); [congruence|lia].
      * exists k. rewrite <- Hk. remember (S n) as f. simpl.
        by rewrite js_bit, Z.mod_small, Ej by lia.
    + exists j. simpl. by rewrite js_bit, Z.mod_small, Ej by lia.
Qed.

Lemma int32_zero_bit index :
  to_int32 index <> -1 -> exists i, 0 <= i < 32 /\ Z.testbit (to_int32 index) i = false.
Proof.
  intros Hne. pose proof (to_int32_range index) as Hr.
  assert (Hdec : (forall i, 0 <= i < 32 -> Z.testbit (to_int32 index) i = true) \/
    exists i, 0 <= i < 32 /\ Z.testbit (to_int32 index) i = false).
  { clear Hne Hr. generalize (to_int32 index). intros z.
    destruct (List.forallb (Z.testbit z) (seqZ 0 32)) eqn:E.
    - left. intros i Hi. rewrite List.forallb_forall in E. apply E.
      apply list_elem_of_In, elem_of_seqZ. lia.
    - right. apply not_true_iff_false in E. rewrite List.forallb_forall in E.
      destruct (List.existsb (fun i => negb (Z.testbit z i)) (seqZ 0 32)) eqn:E2.
      + apply List.existsb_exists in E2 as (i & Hi%list_elem_of_In%elem_of_seqZ & Hb).
        exists i. split; [lia|]. by destruct (Z.testbit z i).
      + exfalso. apply E. intros i Hi. destruct (Z.testbit z i) eqn:Eb; [done|].
        assert (List.existsb (fun i => negb (Z.testbit z i)) (seqZ 0 32) = true) as E3.
        { apply List.existsb_exists. exists i. by rewrite Eb. }
        congruence. }
  destruct Hdec as [Hall|?]; [|done]. exfalso. apply Hne.
  assert (Hm : to_int32 index mod 2 ^ 32 = (-1) mod 2 ^ 32).
  { apply Z.bits_inj'. intros i Hi. destruct (Z.ltb_spec i 32).
    - rewrite !Z.mod_pow2_bits_low, Z.bits_m1 by lia. by apply Hall; lia.
    - by rewrite !Z.mod_pow2_bits_high by lia. }
  assert (to_int32 (to_int32 index) = to_int32 (-1)) as E by (unfold to_int32 at 1 3; by rewrite Hm).
  rewrite !to_int32_small in E by lia. done.
Qed.

Lemma level_even index :
  0 <= index <= MAX_SAFE_INTEGER ->
  level index = if js_and index 1 =? 0 then Ok 0 else level_loop 33 index 0.
Proof.
  intros. unfold level, assertNonNegativeSafeInt.
  destruct (Z.ltb_spec MAX_SAFE_INTEGER (Z.abs index)); [lia|].
  by destruct (Z.ltb_spec index 0); [lia|].
Qed.

(** On the coordinates of an index below [2^31 - 1], [level] is the level. *)
Lemma level_node k m :
  0 <= k -> 0 <= m -> node k m < 2 ^ 31 - 1 -> level (node k m) = Ok k.
Proof.
  intros Hk Hm Hlt. pose proof (node_nonneg k m Hk Hm).
  assert (k < 31).
  { destruct (Z.le_gt_cases 31 k); [|lia]. unfold node in Hlt.
    pose proof (Z.pow_le_mono_r 2 31 k ltac:(lia) ltac:(lia)). nia. }
  rewrite level_even by (unfold MAX_SAFE_INTEGER; lia).
  assert (Hb : forall j, 0 <= j <= 31 ->
    js_and (js_shr (node k m) j) 1 = Z.b2z (Z.testbit (node k m) j)).
  { intros. rewrite js_bit, Z.mod_small, to_int32_small by lia. done. }
  assert (Hloop : forall n j, 0 <= j <= k -> k - j <= Z.of_nat n ->
    level_loop (S n) (node k m) j = Ok k).
  { induction n as [|n IH]; intros j Hj Hn.
    - simpl. replace j with k by lia. rewrite Hb, node_testbit by lia.
      by rewrite Z.ltb_irrefl, Z.eqb_refl.
    - remember (S n) as f. simpl. rewrite Hb, node_testbit by lia. destruct (Z.ltb_spec j k).
      + simpl. subst f. apply IH; lia.
      + replace j with k by lia. by rewrite Z.eqb_refl. }
  destruct (Z.eqb_spec (js_and (node k m) 1) 0) as [E|E]; [|by apply Hloop; lia].
  specialize (Hb 0 ltac:(lia)). unfold js_shr in Hb. rewrite Z.mod_0_l in Hb by lia.
  rewrite Z.shiftr_0_r, (to_int32_small (node k m)) in Hb by lia.
  rewrite Hb, node_testbit in E by lia.
  destruct (Z.ltb_spec 0 k); [done|]. by replace k with 0 by lia.
Qed.

(** ** The bit tricks on coordinates *)

Lemma js_shl_1 k : 0 <= k <= 30 -> js_shl 1 k = 2 ^ k.
Proof.
  intros. unfold js_shl. rewrite (to_int32_small 1), Z.mod_small by lia.
  rewrite Z.shiftl_mul_pow2, Z.mul_1_l by lia. apply to_int32_small.
  pose proof (Z.pow_lt_mono_r 2 k 31 ltac:(lia) ltac:(lia) ltac:(lia)).
  pose proof (Z.pow_pos_nonneg 2 k ltac:(lia) ltac:(lia)). lia.
Qed.

Lemma js_shl_3 k : 0 <= k <= 29 -> js_shl 3 k = 2 ^ k + 2 ^ (k + 1).
Proof.
  intros. unfold js_shl. rewrite (to_int32_small 3), Z.mod_small by lia.
  rewrite Z.shiftl_mul_pow2 by lia.
  pose proof (Z.pow_le_mono_r 2 (k + 1) 30 ltac:(lia) ltac:(lia)).
  pose proof (Z.pow_pos_nonneg 2 k ltac:(lia) ltac:(lia)).
  rewrite to_int32_small; rewrite pow2_S in * by lia; lia.
Qed.

Lemma testbit_pow2 k i : 0 <= k -> 0 <= i -> Z.testbit (2 ^ k) i = (i =? k).
Proof.
  intros. destruct (Z.eqb_spec i k) as [->|]; [by apply Z.pow2_bits_true; lia|].
  by apply Z.pow2_bits_false; lia.
Qed.

Lemma level_lt31 k m : 0 <= k -> 0 <= m -> node k m < 2 ^ 31 - 1 -> k <= 30.
Proof.
  intros. destruct (Z.le_gt_cases k 30); [done|]. unfold node in *.
  pose proof (Z.pow_le_mono_r 2 31 k ltac:(lia) ltac:(lia)). nia.
Qed.

Lemma testbit_double m i : 0 <= i -> Z.testbit (2 * m) i = if i =? 0 then false else Z.testbit m (i - 1).
Proof.
  intros. destruct (Z.eqb_spec i 0) as [->|]; [by apply Z.testbit_even_0|].
  replace i with (Z.succ (i - 1)) at 1 by lia. by apply Z.testbit_even_succ; lia.
Qed.

Lemma testbit_double1 m i : 0 <= i -> Z.testbit (2 * m + 1) i = if i =? 0 then true else Z.testbit m (i - 1).
Proof.
  intros. destruct (Z.eqb_spec i 0) as [->|]; [by apply Z.testbit_odd_0|].
  replace i with (Z.succ (i - 1)) at 1 by lia. by apply Z.testbit_odd_succ; lia.
Qed.

(** Decides equalities between bits written with [<?] and [=?]. *)
Ltac bits :=
  repeat match goal with
  | |- context [?a <? ?b] => destruct (Z.ltb_spec a b); try lia
  | |- context [?a =? ?b] => destruct (Z.eqb_spec a b); try lia
  end; rewrite ?xorb_false_r, ?xorb_true_r, ?orb_false_r, ?orb_true_r, ?andb_true_r; simpl;
  try done; try (f_equal; lia).

Lemma left_node k m :
  0 <= k -> 0 <= m -> node (k + 1) m < 2 ^ 31 - 1 -> left (node (k + 1) m) = Ok (node k (2 * m)).
Proof.
  intros Hk Hm Hlt. pose proof (level_lt31 (k + 1) m ltac:(lia) Hm Hlt).
  pose proof (node_nonneg (k + 1) m ltac:(lia) Hm).
  unfold left. rewrite level_node by lia. destruct (Z.eqb_spec (k + 1) 0); [lia|].
  do 2 f_equal. replace (k + 1 - 1) with k by lia. unfold js_xor.
  rewrite js_shl_1, !to_int32_small by (try pose proof (pow2_le31 k); try pose proof (Z.pow_lt_mono_r 2 k 31); lia).
  apply Z.bits_inj'. intros i Hi.
  rewrite Z.lxor_spec, !node_testbit, testbit_pow2 by lia.
  destruct (Z.ltb_spec i (k + 1)); [bits|].
  destruct (Z.eqb_spec i (k + 1)).
  - bits. rewrite testbit_double by lia. bits.
  - bits. rewrite testbit_double by lia. bits.
Qed.

Lemma right_node k m :
  0 <= k -> 0 <= m -> node (k + 1) m < 2 ^ 31 - 1 ->
  js_xor (node (k + 1) m) (js_shl 3 k) = node k (2 * m + 1).
Proof.
  intros Hk Hm Hlt. pose proof (level_lt31 (k + 1) m ltac:(lia) Hm Hlt).
  pose proof (node_nonneg (k + 1) m ltac:(lia) Hm).
  pose proof (Z.pow_le_mono_r 2 (k + 1) 30 ltac:(lia) ltac:(lia)).
  pose proof (Z.pow_pos_nonneg 2 k ltac:(lia) ltac:(lia)).
  assert (Hlor : 2 ^ k + 2 ^ (k + 1) = Z.lor (2 ^ k) (2 ^ (k + 1))).
  { assert (Z.land (2 ^ k) (2 ^ (k + 1)) = 0).
    { apply Z.bits_inj'. intros i Hi. rewrite Z.land_spec, !testbit_pow2, Z.bits_0 by lia. bits. }
    rewrite <- Z.lxor_lor, <- Z.add_nocarry_lxor; done. }
  unfold js_xor. rewrite js_shl_3 by lia.
  rewrite !to_int32_small by (rewrite ?pow2_S in * by lia; lia). rewrite Hlor.
  apply Z.bits_inj'. intros i Hi.
  rewrite Z.lxor_spec, Z.lor_spec, !node_testbit, !testbit_pow2 by lia.
  destruct (Z.ltb_spec i (k + 1)); [bits|].
  destruct (Z.eqb_spec i (k + 1)).
  - bits. rewrite testbit_double1 by lia. bits.
  - bits. rewrite testbit_double1 by lia. bits.
Qed.

Lemma parentStep_node k m :
  0 <= k <= 29 -> 0 <= m -> node k m < 2 ^ 31 - 1 -> parentStep (node k m) = Ok (node (k + 1) (m / 2)).
Proof.
  intros Hk Hm Hlt. pose proof (node_nonneg k m ltac:(lia) Hm).
  unfold parentStep. rewrite level_node by lia. do 2 f_equal.
  pose proof (Z.pow_le_mono_r 2 (k + 1) 30 ltac:(lia) ltac:(lia)).
  pose proof (Z.pow_pos_nonneg 2 k ltac:(lia) ltac:(lia)).
  pose proof (Z.pow_pos_nonneg 2 (k + 1) ltac:(lia) ltac:(lia)).
  assert (Hp : 2 ^ k <= 2 ^ 29) by (apply Z.pow_le_mono_r; lia).
  unfold js_and, js_or, js_not. rewrite !js_shl_1 by lia.
  rewrite (to_int32_small (2 ^ k)), (to_int32_small (2 ^ (k + 1))), (to_int32_small (node k m)) by lia.
  assert (Hor : 0 <= Z.lor (node k m) (2 ^ k) < 2 ^ 31).
  { split; [apply Z.lor_nonneg; lia|].
    destruct (decide (Z.lor (node k m) (2 ^ k) = 0)) as [->|]; [lia|].
    apply Z.log2_lt_pow2; [pose proof (proj2 (Z.lor_nonneg (node k m) (2 ^ k))); lia|].
    rewrite Z.log2_lor by lia. apply Z.max_lub_lt.
    - destruct (decide (node k m = 0)) as [->|]; [done|]. apply Z.log2_lt_pow2; lia.
    - rewrite Z.log2_pow2; lia. }
  rewrite (to_int32_small (Z.lor _ _)), (to_int32_small (Z.lnot _)) by (unfold Z.lnot in *; lia).
  apply Z.bits_inj'. intros i Hi.
  rewrite Z.land_spec, Z.lor_spec, Z.lnot_spec, !node_testbit, !testbit_pow2 by lia.
  destruct (Z.ltb_spec i (k + 1)); [bits|].
  destruct (Z.eqb_spec i (k + 1)); [bits; by rewrite andb_false_r|].
  bits. rewrite Z.div2_bits by lia. bits.
Qed.

(** ** The root *)

Lemma log2_loop_spec n x j :
  0 < x < 2 ^ 31 -> 0 <= j <= Z.log2 x + 1 -> Z.log2 x + 1 - j <= Z.of_nat n ->
  log2_loop (S n) x j = Ok (Z.log2 x + 1).
Proof.
  intros Hx. assert (Hl : Z.log2 x <= 30).
  { pose proof (Z.log2_lt_pow2 x 31 ltac:(lia)). lia. }
  pose proof (Z.log2_spec x ltac:(lia)) as Hs. pose proof (Z.log2_nonneg x).
  revert j. induction n as [|n IH]; intros j Hj Hn.
  - replace j with (Z.log2 x + 1) by lia. simpl. rewrite js_shr_small by lia.
    by rewrite Z.div_small by lia.
  - remember (S n) as f. simpl. rewrite js_shr_small by lia.
    destruct (decide (j = Z.log2 x + 1)) as [->|].
    + by rewrite Z.div_small by lia.
    + destruct (Z.eqb_spec (x / 2 ^ j) 0) as [E|].
      * exfalso. pose proof (Z.pow_le_mono_r 2 j (Z.log2 x) ltac:(lia) ltac:(lia)).
        pose proof (Z.pow_pos_nonneg 2 j ltac:(lia) ltac:(lia)).
        pose proof (Z.div_le_mono (2 ^ j) x (2 ^ j) ltac:(lia) ltac:(lia)) as Hd.
        rewrite Z.div_same in Hd by lia. lia.
      * subst f. apply IH; lia.
Qed.

Lemma height_bounds n : 1 <= n <= 2 ^ 30 ->
  0 <= height n <= 30 /\ 2 ^ height n <= 2 * n - 1 < 2 ^ (height n + 1).
Proof.
  intros. unfold height. pose proof (Z.log2_spec (2 * n - 1) ltac:(lia)).
  pose proof (Z.log2_nonneg (2 * n - 1)).
  pose proof (Z.log2_lt_pow2 (2 * n - 1) 31 ltac:(lia)).
  change (Z.succ (Z.log2 (2 * n - 1))) with (Z.log2 (2 * n - 1) + 1) in *. lia.
Qed.

Lemma root_node n : 1 <= n <= 2 ^ 30 -> root n = Ok (node (height n) 0).
Proof.
  intros Hn. pose proof (height_bounds n Hn) as [? ?].
  unfold root, node. destruct (Z.eqb_spec n 0); [lia|].
  destruct (Z.eqb_spec n 1) as [->|]; [done|].
  unfold log2, nodeWidth. destruct (Z.eqb_spec n 0); [lia|].
  unfold assertNonNegativeSafeInt. destruct (Z.ltb_spec MAX_SAFE_INTEGER (Z.abs (2 * n - 1)));
    [unfold MAX_SAFE_INTEGER in *; lia|].
  destruct (Z.ltb_spec (2 * n - 1) 0); [lia|]. cbn [orb].
  destruct (Z.eqb_spec (2 * n - 1) 0); [lia|]. fold (height n).
  pose proof (log2_loop_spec 32 (2 * n - 1) 0) as Hl. unfold height in *.
  rewrite Hl by lia. rewrite js_shl_1 by lia.
  do 2 f_equal. replace (Z.log2 (2 * n - 1) + 1 - 1) with (Z.log2 (2 * n - 1)) by lia. lia.
Qed.

(** ** Walking up and down *)

(** What the lemmas below assume of a tree of [n] leaves, in coordinates: its
    width is odd and at most that of the complete tree of height [K], whose
    root it contains. *)
Definition fits (K w : Z) : Prop :=
  0 <= K <= 30 /\ node K 0 < w <= 2 ^ (K + 1) - 1 /\ Z.Odd w.

Lemma fits_height n : 1 <= n <= 2 ^ 30 -> fits (height n) (2 * n - 1).
Proof.
  intros Hn. pose proof (height_bounds n Hn) as [? ?]. unfold fits, node.
  split_and!; [lia..|]. exists (n - 1). lia.
Qed.

Lemma pow2_height K : 0 <= K <= 30 -> 2 ^ (K + 1) <= 2 ^ 31.
Proof. intros. apply Z.pow_le_mono_r; lia. Qed.

Lemma nodeWidth_eq n : 1 <= n -> nodeWidth n = 2 * n - 1.
Proof. intros. unfold nodeWidth. destruct (Z.eqb_spec n 0); lia. Qed.

Lemma node_in_tree K w i :
  fits K w -> 0 <= i < w -> exists k m, in_tree K k m /\ i = node k m.
Proof.
  intros (? & ? & ?) ?. destruct (node_exists i) as (k & m & ? & ? & ->); [lia|].
  exists k, m. split; [|done]. apply in_tree_intro; lia.
Qed.

Lemma in_tree_top K m : in_tree K K m -> m = 0.
Proof. intros [? [? Hm]]. rewrite Z.sub_diag in Hm. lia. Qed.

Lemma in_tree_level K w k m : fits K w -> in_tree K k m -> level (node k m) = Ok k.
Proof.
  intros (? & ? & ?) Hi. pose proof (in_tree_bound _ _ _ Hi). pose proof (pow2_height K).
  destruct Hi. apply level_node; lia.
Qed.

Lemma in_tree_inj K w k m k' m' :
  fits K w -> in_tree K k m -> in_tree K k' m' -> node k m = node k' m' -> k = k'.
Proof.
  intros Hf H1 H2 E. pose proof (in_tree_level _ _ _ _ Hf H1) as E1.
  rewrite E, (in_tree_level _ _ _ _ Hf H2) in E1. congruence.
Qed.

Lemma parentStep_in_tree K w k m :
  fits K w -> in_tree K k m -> k < K -> parentStep (node k m) = Ok (node (k + 1) (m / 2)).
Proof.
  intros (? & ? & ?) Hi ?. pose proof (in_tree_bound _ _ _ Hi). pose proof (pow2_height K).
  destruct Hi. apply parentStep_node; lia.
Qed.

Lemma ancestors_from_S K k m :
  0 <= k < K ->
  ancestors_from (Z.to_nat (K - k)) k m =
  node (k + 1) (m / 2) :: ancestors_from (Z.to_nat (K - (k + 1))) (k + 1) (m / 2).
Proof. intros. replace (Z.to_nat (K - k)) with (S (Z.to_nat (K - (k + 1)))) by lia. done. Qed.

(** The clamped walk stops at the first ancestor inside the tree. *)
Lemma parent_clamp_spec fuel K w k m :
  fits K w -> in_tree K k m -> K - k < Z.of_nat fuel ->
  exists k' m', k <= k' /\ in_tree K k' m' /\ node k' m' < w /\
    parent_clamp fuel w (node k m) = Ok (node k' m') /\
    List.filter (fun v => v <? w) (node k m :: ancestors_from (Z.to_nat (K - k)) k m) =
    node k' m' :: List.filter (fun v => v <? w) (ancestors_from (Z.to_nat (K - k')) k' m').
Proof.
  intros Hf. revert k m. induction fuel as [|fuel IH]; intros k m Hi Hfuel.
  { destruct Hi. lia. }
  cbn [parent_clamp List.filter]. rewrite Z.geb_leb.
  destruct (Z.leb_spec w (node k m)).
  - destruct (decide (k = K)) as [->|].
    { rewrite (in_tree_top _ _ Hi) in *. unfold fits in Hf. lia. }
    assert (k < K) by (destruct Hi; lia).
    rewrite (parentStep_in_tree K w) by done. destruct (Z.ltb_spec (node k m) w); [lia|].
    destruct (IH (k + 1) (m / 2)) as (k' & m' & ? & ? & ? & ? & E); [by apply in_tree_up|lia|].
    exists k', m'. split_and!; [lia|done..|]. rewrite ancestors_from_S by (destruct Hi; lia). done.
  - destruct (Z.ltb_spec (node k m) w); [|lia]. exists k, m. done.
Qed.

Lemma parent_spec n k m :
  1 <= n <= 2 ^ 30 -> in_tree (height n) k m -> k < height n ->
  exists k' m', k < k' /\ in_tree (height n) k' m' /\ node k' m' < 2 * n - 1 /\
    parent (node k m) n = Ok (node k' m') /\
    parent_clamp 33 (2 * n - 1) (node (k + 1) (m / 2)) = Ok (node k' m') /\
    List.filter (fun v => v <? 2 * n - 1) (ancestors_from (Z.to_nat (height n - k)) k m) =
    node k' m' :: List.filter (fun v => v <? 2 * n - 1) (ancestors_from (Z.to_nat (height n - k')) k' m').
Proof.
  intros Hn Hi Hk. pose proof (fits_height n Hn) as Hf.
  pose proof (in_tree_up _ _ _ Hi Hk) as Hi'.
  destruct (parent_clamp_spec 33 _ _ _ _ Hf Hi') as (k' & m' & ? & ? & ? & E & E'); [unfold fits in Hf; destruct Hi; lia|].
  exists k', m'. split_and!; [lia|done|done| |done|].
  - unfold parent. rewrite root_node by done.
    destruct (Z.eqb_spec (node k m) (node (height n) 0)) as [Er|].
    { exfalso. apply (in_tree_inj _ _ _ _ _ _ Hf) in Er; [lia|done|].
      split; [unfold fits in Hf; lia|]. rewrite Z.sub_diag. lia. }
    rewrite (parentStep_in_tree _ _ _ _ Hf Hi Hk), nodeWidth_eq by lia. done.
  - rewrite ancestors_from_S by (destruct Hi; lia). done.
Qed.

Lemma in_tree_left K k m : in_tree K (k + 1) m -> 0 <= k -> in_tree K k (2 * m).
Proof.
  intros [? [? Hm]] ?. split; [lia|]. split; [lia|].
  replace (K - k) with ((K - (k + 1)) + 1) by lia. rewrite pow2_S by lia. lia.
Qed.

Lemma in_tree_right K k m : in_tree K (k + 1) m -> 0 <= k -> in_tree K k (2 * m + 1).
Proof.
  intros [? [? Hm]] ?. split; [lia|]. split; [lia|].
  replace (K - k) with ((K - (k + 1)) + 1) by lia. rewrite pow2_S by lia. lia.
Qed.

Lemma left_in_tree K w k m :
  fits K w -> in_tree K (k + 1) m -> 0 <= k -> left (node (k + 1) m) = Ok (node k (2 * m)).
Proof.
  intros (? & ? & ?) Hi ?. pose proof (in_tree_bound _ _ _ Hi). pose proof (pow2_height K).
  destruct Hi. apply left_node; lia.
Qed.

(** Descending from [node j q] to the left until the tree contains the node
    reaches a node whose parent is the node we came from. *)
Lemma right_clamp_spec fuel K w j q v :
  fits K w -> in_tree K j q -> j < Z.of_nat fuel -> Z.Odd v -> v < w -> 2 ^ (j + 1) * q = v + 1 ->
  (forall f, K - j < Z.of_nat f -> parent_clamp f w (node (j + 1) (q / 2)) = Ok v) ->
  exists j' q', in_tree K j' q' /\ j' <= j /\ v < node j' q' < w /\
    right_clamp fuel w (node j q) = Ok (node j' q') /\
    forall f, K - j' < Z.of_nat f -> parent_clamp f w (node (j' + 1) (q' / 2)) = Ok v.
Proof.
  intros Hf. revert j q. induction fuel as [|fuel IH]; intros j q Hi Hj Hv Hvw Hq Hup.
  { destruct Hi. lia. }
  cbn [right_clamp]. rewrite Z.geb_leb. destruct (Z.leb_spec w (node j q)).
  - destruct (decide (j = 0)) as [->|].
    { unfold node in H. destruct Hf as (? & ? & Hw). destruct Hw, Hv. lia. }
    assert (0 <= j - 1) by (destruct Hi; lia).
    replace j with (j - 1 + 1) in Hi by lia.
    pose proof (left_in_tree _ _ _ _ Hf Hi ltac:(lia)) as El.
    replace (j - 1 + 1) with j in El by lia. rewrite El.
    destruct (IH (j - 1) (2 * q)) as (j' & q' & ? & ? & ? & ? & ?); [|lia|done|done| | |].
    + by apply in_tree_left; [|lia].
    + replace (j - 1 + 1) with j by lia. rewrite <- Hq, pow2_S by lia. lia.
    + intros f Hff. replace (j - 1 + 1) with j in * by lia.
      rewrite (Z.mul_comm 2 q), Z.div_mul by lia.
      destruct f as [|f]; [destruct Hi; lia|]. cbn [parent_clamp]. rewrite Z.geb_leb.
      destruct (Z.leb_spec w (node j q)); [|lia].
      assert (j < K).
      { destruct (decide (j = K)) as [->|]; [|destruct Hi; lia].
        rewrite (in_tree_top _ _ Hi) in *. unfold fits in Hf. lia. }
      rewrite (parentStep_in_tree _ _ _ _ Hf) by done. apply Hup. lia.
    + exists j', q'. split_and!; [done|lia|lia|lia|done|done].
  - exists j, q. split_and!; [done|lia| |lia|done|done].
    unfold node. rewrite pow2_S in Hq by (destruct Hi; lia).
    pose proof (Z.pow_pos_nonneg 2 j ltac:(lia) ltac:(destruct Hi; lia)). lia.
Qed.

(** Climbing from [x] along left children only, the node [x] is where the
    descent of [right] from the last node climbed ends. *)
Lemma climb_spec fuel K w j q x :
  fits K w -> in_tree K j q -> j < K -> 0 <= x < w -> K - j < Z.of_nat fuel -> 2 ^ (j + 1) * q <= x ->
  (node j q = x \/ w <= node j q) ->
  (forall f, j < Z.of_nat f -> right_clamp f w (node j q) = Ok x) ->
  exists k' m', in_tree K (k' + 1) m' /\ 0 <= k' /\ node (k' + 1) m' < w /\
    parent_clamp fuel w (node (j + 1) (q / 2)) = Ok (node (k' + 1) m') /\
    (left (node (k' + 1) m') = Ok x \/ right_clamp 33 w (node k' (2 * m' + 1)) = Ok x).
Proof.
  intros Hf. revert j q. induction fuel as [|fuel IH]; intros j q Hi Hj Hx Hfuel Hlow Hor Hr.
  { destruct Hi. lia. }
  assert (Hi0 := Hi). destruct Hi as [Hj0 [Hq0 Hq]].
  pose proof (in_tree_up _ _ _ Hi0 Hj) as Hup. pose proof (Z.pow_pos_nonneg 2 j ltac:(lia) ltac:(lia)).
  cbn [parent_clamp]. rewrite Z.geb_leb.
  destruct (Z.Even_or_Odd q) as [[h ->]|[h ->]].
  - rewrite (Z.mul_comm 2 h), Z.div_mul in * by lia. rewrite (Z.mul_comm h 2) in *.
    destruct (Z.leb_spec w (node (j + 1) h)).
    + destruct (decide (j + 1 = K)) as [<-|].
      { rewrite (in_tree_top _ _ Hup) in *. unfold fits in Hf. lia. }
      rewrite (parentStep_in_tree _ _ _ _ Hf) by (done || lia).
      apply IH; [done|lia|done|lia| |lia|].
      * replace (j + 1 + 1) with (Z.succ (j + 1)) by lia. rewrite Z.pow_succ_r by lia. lia.
      * intros f Hff. destruct f as [|f]; [lia|]. cbn [right_clamp]. rewrite Z.geb_leb.
        destruct (Z.leb_spec w (node (j + 1) h)); [|lia].
        rewrite (left_in_tree _ _ _ _ Hf Hup) by lia. apply Hr. lia.
    + exists j, h. split_and!; [done|lia|done|done|]. left.
      rewrite (left_in_tree _ _ _ _ Hf Hup) by lia.
      destruct Hor as [->|Hge]; [done|]. exfalso. revert Hge H0. unfold node.
      rewrite pow2_S by lia. lia.
  - replace ((2 * h + 1) / 2) with h in * by (Z.div_mod_to_equations; lia).
    destruct (Z.leb_spec w (node (j + 1) h)).
    + exfalso. revert H0 Hlow. unfold node. rewrite pow2_S by lia. lia.
    + exists j, h. split_and!; [done|lia|done|done|]. right. apply Hr. unfold fits in Hf. lia.
Qed.

(** Every non-root node of the tree is the left or the right child of its
    parent. *)
Lemma child_of_parent n x :
  1 <= n <= 2 ^ 30 -> 0 <= x < 2 * n - 1 -> root n <> Ok x ->
  exists k m, in_tree (height n) (k + 1) m /\ 0 <= k /\ node (k + 1) m < 2 * n - 1 /\
    parent x n = Ok (node (k + 1) m) /\
    (left (node (k + 1) m) = Ok x \/ right (node (k + 1) m) (Some n) = Ok x).
Proof.
  intros Hn Hx Hr. pose proof (fits_height n Hn) as Hf.
  destruct (node_in_tree _ _ _ Hf Hx) as (k & m & Hi & ->).
  assert (k < height n).
  { destruct (decide (k = height n)) as [->|]; [|destruct Hi; lia].
    rewrite (in_tree_top _ _ Hi), root_node in Hr by done. done. }
  destruct (parent_spec n k m Hn Hi H) as (k' & m' & ? & Hi' & ? & E & E' & _).
  assert (Hi0 := Hi). destruct Hi as [? [? ?]].
  destruct (climb_spec 33 _ _ k m (node k m) Hf Hi0) as (k2 & m2 & Hi2 & ? & ? & E2 & Hc);
    [done|done| | |by left| |].
  - unfold fits in Hf. lia.
  - unfold node. rewrite pow2_S by lia. pose proof (Z.pow_pos_nonneg 2 k ltac:(lia) ltac:(lia)). lia.
  - intros f Hff. destruct f as [|f]; [lia|]. cbn [right_clamp]. rewrite Z.geb_leb.
    destruct (Z.leb_spec (2 * n - 1) (node k m)); [lia|done].
  - exists k2, m2. rewrite E. rewrite E' in E2. split_and!; [done..| |].
    + congruence.
    + destruct Hc as [?|Hc]; [by left|right]. unfold right.
      rewrite (in_tree_level _ _ _ _ Hf Hi2).
      destruct (Z.eqb_spec (k2 + 1) 0); [lia|]. replace (k2 + 1 - 1) with k2 by lia.
      pose proof (in_tree_bound _ _ _ Hi2). pose proof (pow2_height (height n)).
      rewrite right_node, nodeWidth_eq by (destruct Hi2; unfold fits in Hf; lia). done.
Qed.

(** The children of an internal node are in the tree, on its two sides, and
    have it as their parent. *)
Lemma children_of_node n k m :
  1 <= n <= 2 ^ 30 -> in_tree (height n) (k + 1) m -> 0 <= k -> node (k + 1) m < 2 * n - 1 ->
  exists l r, left (node (k + 1) m) = Ok l /\ right (node (k + 1) m) (Some n) = Ok r /\
    0 <= l < node (k + 1) m /\ node (k + 1) m < r < 2 * n - 1 /\
    parent l n = Ok (node (k + 1) m) /\ parent r n = Ok (node (k + 1) m).
Proof.
  intros Hn Hi Hk Hlt. pose proof (fits_height n Hn) as Hf.
  pose proof (in_tree_left _ _ _ Hi Hk) as Hl. pose proof (in_tree_right _ _ _ Hi Hk) as Hr.
  pose proof (in_tree_bound _ _ _ Hi). pose proof (pow2_height (height n)).
  pose proof (Z.pow_pos_nonneg 2 k ltac:(lia) ltac:(lia)).
  assert (Hm : 0 <= m) by (destruct Hi; lia).
  assert (Hpar : forall j q, in_tree (height n) j q -> j <= k ->
    parent_clamp 33 (2 * n - 1) (node (j + 1) (q / 2)) = Ok (node (k + 1) m) ->
    parent (node j q) n = Ok (node (k + 1) m)).
  { intros j q Hjq ? E. destruct (parent_spec n j q Hn Hjq) as (? & ? & _ & _ & _ & E1 & E2 & _);
      [destruct Hi; lia|]. congruence. }
  destruct (right_clamp_spec 33 _ _ k (2 * m + 1) (node (k + 1) m) Hf Hr)
    as (j & q & Hjq & ? & ? & Er & Hup); [| |done| | |].
  - unfold fits in Hf. destruct Hi. lia.
  - exists (2 ^ k * (2 * m + 1) - 1). unfold node. rewrite pow2_S by lia. lia.
  - unfold node. lia.
  - intros f Hff. replace ((2 * m + 1) / 2) with m by (Z.div_mod_to_equations; lia).
    destruct f as [|f]; [destruct Hi; lia|]. cbn [parent_clamp]. rewrite Z.geb_leb.
    destruct (Z.leb_spec (2 * n - 1) (node (k + 1) m)); [lia|done].
  - exists (node k (2 * m)), (node j q). split_and!; try lia.
    + by apply (left_in_tree _ _ _ _ Hf).
    + unfold right. rewrite (in_tree_level _ _ _ _ Hf Hi).
      destruct (Z.eqb_spec (k + 1) 0); [lia|]. replace (k + 1 - 1) with k by lia.
      rewrite right_node, nodeWidth_eq by (unfold fits in Hf; lia). done.
    + pose proof (in_tree_bound _ _ _ Hl). lia.
    + unfold node. rewrite pow2_S by lia. lia.
    + apply Hpar; [done|lia|]. rewrite (Z.mul_comm 2 m), Z.div_mul by lia.
      cbn [parent_clamp]. rewrite Z.geb_leb.
      destruct (Z.leb_spec (2 * n - 1) (node (k + 1) m)); [lia|done].
    + apply Hpar; [done|lia|]. apply Hup. unfold fits in Hf. destruct Hjq. lia.
Qed.

(** ** Paths *)

(** The chain of parents from a node to the root. *)
Inductive path_up (n : Z) : Z -> list Z -> Prop :=
| path_root x : root n = Ok x -> path_up n x []
| path_step x p ps : parent x n = Ok p -> path_up n p ps -> path_up n x (p :: ps).

Lemma directPath_loop_spec n fuel k m acc :
  1 <= n <= 2 ^ 30 -> in_tree (height n) k m -> node k m < 2 * n - 1 ->
  height n - k < Z.of_nat fuel ->
  let ps := List.filter (fun v => v <? 2 * n - 1) (ancestors_from (Z.to_nat (height n - k)) k m) in
  directPath_loop fuel (node (height n) 0) n (node k m) acc = Ok (acc ++ ps) /\
  path_up n (node k m) ps.
Proof.
  intros Hn. pose proof (fits_height n Hn) as Hf. revert k m acc.
  induction fuel as [|fuel IH]; intros k m acc Hi Hlt Hfuel; [destruct Hi; lia|].
  cbn [directPath_loop]. destruct (Z.eqb_spec (node k m) (node (height n) 0)) as [E|Hne].
  - assert (k = height n) as ->.
    { apply (in_tree_inj _ _ _ _ _ _ Hf Hi) in E; [done|].
      split; [unfold fits in Hf; lia|]. rewrite Z.sub_diag. lia. }
    rewrite Z.sub_diag. simpl. rewrite app_nil_r. split; [done|].
    constructor. by rewrite root_node, E.
  - assert (k < height n).
    { destruct (decide (k = height n)) as [->|]; [|destruct Hi; lia].
      by rewrite (in_tree_top _ _ Hi) in Hne. }
    destruct (parent_spec n k m Hn Hi H) as (k' & m' & ? & Hi' & ? & E & _ & Ef).
    simpl. rewrite E, Ef.
    destruct (IH k' m' (acc ++ [node k' m']) Hi') as [E1 E2]; [done|lia|].
    split; [rewrite E1; by rewrite <- app_assoc|]. by econstructor.
Qed.

Lemma directPath_path_up n p :
  2 <= n <= 2 ^ 30 -> 0 <= p < n ->
  directPath (2 * p) n = Ok (directPath_ref (2 * p) n) /\ path_up n (2 * p) (directPath_ref (2 * p) n).
Proof.
  intros Hn Hp. pose proof (fits_height n ltac:(lia)) as Hf.
  unfold directPath. destruct (Z.leb_spec n 1); [lia|]. rewrite root_node by lia.
  assert (Hi : in_tree (height n) 0 p).
  { apply in_tree_intro; [lia..| |]; unfold fits, node in *; lia. }
  destruct (directPath_loop_spec n 33 0 p [] ltac:(lia) Hi) as [E1 E2].
  - unfold node. lia.
  - unfold fits in Hf. lia.
  - replace (node 0 p) with (2 * p) in * by (unfold node; lia).
    unfold directPath_ref. rewrite (Z.mul_comm 2 p), Z.div_mul, (Z.mul_comm p 2) by lia.
    rewrite !Z.sub_0_r in E1, E2. done.
Qed.

Lemma directPath_ref_ne n p : 2 <= n <= 2 ^ 30 -> 0 <= p < n -> directPath_ref (2 * p) n <> [].
Proof.
  intros Hn Hp Ed. destruct (directPath_path_up n p Hn Hp) as [_ Hup].
  pose proof (height_bounds n ltac:(lia)) as [Hh ?].
  rewrite Ed in Hup. inversion Hup as [x Er|]; subst. rewrite root_node in Er by lia. injection Er as Er.
  assert (Hpos : 0 < height n).
  { destruct (decide (height n = 0)) as [E0|]; [|lia]. rewrite E0 in *. lia. }
  unfold node in Er. replace (height n) with ((height n - 1) + 1) in Er by lia.
  rewrite pow2_S in Er by lia. lia.
Qed.

Lemma path_up_last n x ps : path_up n x ps -> forall d, root n = Ok d -> List.last (x :: ps) 0 = d.
Proof.
  induction 1 as [x E|x p ps E Hp IH]; intros d Ed; [simpl; congruence|].
  rewrite <- (IH _ Ed). done.
Qed.

Lemma parent_not_root n x p : parent x n = Ok p -> root n <> Ok x.
Proof. intros E Er. unfold parent in E. rewrite Er, Z.eqb_refl in E. done. Qed.

(** The sibling relation swaps the two children of a node. *)
Lemma sibling_spec n x :
  1 <= n <= 2 ^ 30 -> 0 <= x < 2 * n - 1 -> root n <> Ok x ->
  exists p s, parent x n = Ok p /\ 0 <= p < 2 * n - 1 /\ sibling x n = Ok s /\
    0 <= s < 2 * n - 1 /\ s <> x /\ parent s n = Ok p /\ sibling s n = Ok x.
Proof.
  intros Hn Hx Hr. destruct (child_of_parent n x Hn Hx Hr) as (k & m & Hi & Hk & Hlt & Ep & Hc).
  destruct (children_of_node n k m Hn Hi Hk Hlt) as (l & r & El & Er & ? & ? & Epl & Epr).
  pose proof (in_tree_bound _ _ _ Hi).
  unfold sibling. rewrite Ep, El.
  destruct Hc as [Hc|Hc].
  - rewrite El in Hc. injection Hc as ->. rewrite Z.eqb_refl.
    exists (node (k + 1) m), r. rewrite Epr, Er, El. split_and!; try lia; try done.
    destruct (Z.eqb_spec x r); [lia|done].
  - rewrite Er in Hc. injection Hc as ->. destruct (Z.eqb_spec l x); [lia|].
    exists (node (k + 1) m), l. rewrite Epl, El, Z.eqb_refl. split_and!; try lia; try done.
Qed.

Lemma parent_in_range n x p :
  1 <= n <= 2 ^ 30 -> 0 <= x < 2 * n - 1 -> parent x n = Ok p -> 0 <= p < 2 * n - 1.
Proof.
  intros Hn Hx E. destruct (sibling_spec n x Hn Hx (parent_not_root _ _ _ E)) as (p' & _ & E' & ? & _).
  rewrite E in E'. injection E' as ->. done.
Qed.

Lemma map_sibling_spec n x ps :
  1 <= n <= 2 ^ 30 -> 0 <= x < 2 * n - 1 -> path_up n x ps -> ps <> [] ->
  exists cs, map_sibling n (x :: all_but_last ps) = Ok cs /\ length cs = length ps /\
    forall i c d, (x :: ps) !! i = Some c -> ps !! i = Some d ->
      exists s, cs !! i = Some s /\ sibling c n = Ok s /\ parent c n = Ok d /\
        parent s n = Ok d /\ s <> c /\ 0 <= s < 2 * n - 1.
Proof.
  intros Hn. revert x. induction ps as [|p ps IH]; intros x Hx Hp Hne; [done|].
  inversion Hp as [|? ? ? Ep Hp']; subst.
  destruct (sibling_spec n x Hn Hx (parent_not_root _ _ _ Ep)) as (p' & s & Ep' & Hp0 & Es & ? & ? & Eps & _).
  rewrite Ep in Ep'. injection Ep' as <-.
  destruct ps as [|p2 ps].
  - exists [s]. simpl. rewrite Es. split_and!; [done|done|].
    intros [|i] c d E1 E2; simplify_eq/=. eauto 10.
  - destruct (IH p Hp0 Hp' ltac:(done)) as (cs & E & El & Hcs).
    exists (s :: cs). simpl. rewrite Es.
    change (all_but_last (p :: p2 :: ps)) with (p :: all_but_last (p2 :: ps)).
    replace (p :: all_but_last (p2 :: ps)) with (p :: take (length ps) (p2 :: ps)) in *.
    2: { unfold all_but_last. simpl. by rewrite Nat.sub_0_r. }
    cbn [map_sibling] in E |- *. rewrite E. split_and!; [done|simpl in *; lia|].
    intros [|i] c d E1 E2; simplify_eq/=; [eauto 10|]. by apply Hcs.
Qed.

(** ** Theorems *)

(** [level] returns on a non-negative safe integer exactly when its low
    32 bits are not all ones; on the others the shift loop, whose shift count
    wraps modulo 32, never ends, however long it runs. *)
Theorem level_terminates_iff index :
  0 <= index <= MAX_SAFE_INTEGER ->
  ((exists k, level index = Ok k) <-> index mod 2 ^ 32 <> 2 ^ 32 - 1) /\
  (index mod 2 ^ 32 = 2 ^ 32 - 1 -> forall fuel, level_loop fuel index 0 = Err OutOfFuel).
Proof.
  intros Hr. assert (Hm : to_int32 index = -1 <-> index mod 2 ^ 32 = 2 ^ 32 - 1).
  { unfold to_int32. pose proof (Z.mod_pos_bound index (2 ^ 32) ltac:(lia)).
    destruct (Z.ltb_spec (index mod 2 ^ 32) (2 ^ 31)); lia. }
  rewrite level_even by done. split; [|intros ?%Hm fuel; by apply level_loop_diverges].
  rewrite <- Hm. split.
  - intros [k E] H1. rewrite (level_loop_diverges 33 index 0) in E by (done || lia).
    destruct (Z.eqb_spec (js_and index 1) 0) as [E0|]; [|done].
    unfold js_and in E0. rewrite H1 in E0. done.
  - intros [i Hi]%int32_zero_bit. destruct (js_and index 1 =? 0); [by exists 0|].
    destruct (level_loop_stops 31 index 0) as [k E]; [lia|done|by exists i|].
    exists k. remember 31%nat as f eqn:Ef.
    assert (Hmono : forall g idx j v, level_loop g idx j = Ok v -> level_loop (S g) idx j = Ok v).
    { clear. induction g as [|g IH]; intros idx j v; [done|]. intros E.
      cbn [level_loop] in E. remember (S g) as g'. cbn [level_loop].
      destruct (_ =? 1); [|done]. subst g'. by apply IH. }
    by apply Hmono.
Qed.

Lemma level_terminates_iff_witness :
  ((exists k, level 7 = Ok k) <-> 7 mod 2 ^ 32 <> 2 ^ 32 - 1) /\
  (forall fuel, level_loop fuel (2 ^ 32 - 1) 0 = Err OutOfFuel).
Proof.
  split.
  - apply (level_terminates_iff 7). unfold MAX_SAFE_INTEGER. lia.
  - apply (level_terminates_iff (2 ^ 32 - 1)); [unfold MAX_SAFE_INTEGER; lia|reflexivity].
Defined.

(** In a tree of [n] leaves every internal node has both children inside
    the tree, the left one below and the right one above its index, and
    [parent] inverts [left] and the clamped [right]. *)
Theorem children_parent n v :
  1 <= n <= 2 ^ 30 -> 0 <= v < 2 * n - 1 -> isInternal v = true ->
  exists l r, left v = Ok l /\ right v (Some n) = Ok r /\
    0 <= l < v /\ v < r < 2 * n - 1 /\ parent l n = Ok v /\ parent r n = Ok v.
Proof.
  intros Hn Hv Hint. pose proof (fits_height n Hn) as Hf.
  destruct (node_in_tree _ _ _ Hf Hv) as (k & m & Hi & ->).
  pose proof (in_tree_bound _ _ _ Hi). pose proof (pow2_height (height n)).
  assert (0 < k).
  { destruct (decide (k = 0)) as [->|]; [|destruct Hi; lia].
    unfold isInternal, js_and in Hint. rewrite !to_int32_small in Hint by (unfold fits in Hf; lia).
    change 1 with (Z.ones 1) in Hint at 1. rewrite Z.land_ones in Hint by lia.
    unfold node in Hint. apply Z.eqb_eq in Hint. Z.div_mod_to_equations. lia. }
  replace k with (k - 1 + 1) in * by lia. apply (children_of_node n (k - 1) m Hn Hi); lia.
Qed.

Lemma children_parent_witness :
  exists l r, left 7 = Ok l /\ right 7 (Some 6) = Ok r /\
    0 <= l < 7 /\ 7 < r < 11 /\ parent l 6 = Ok 7 /\ parent r 6 = Ok 7.
Proof. apply (children_parent 6 7); [lia|lia|reflexivity]. Defined.

(** [sibling] is an involution without fixed points on the non-root nodes
    of a tree, and siblings have the same parent. *)
Theorem sibling_involutive n x :
  1 <= n <= 2 ^ 30 -> 0 <= x < 2 * n - 1 -> root n <> Ok x ->
  exists s, sibling x n = Ok s /\ 0 <= s < 2 * n - 1 /\ s <> x /\
    parent s n = parent x n /\ sibling s n = Ok x.
Proof.
  intros Hn Hx Hr. destruct (sibling_spec n x Hn Hx Hr) as (p & s & E & ? & ? & ? & ? & ? & ?).
  exists s. rewrite E. split_and!; done || lia.
Qed.

Lemma sibling_involutive_witness :
  exists s, sibling 8 5 = Ok s /\ 0 <= s < 9 /\ s <> 8 /\ parent s 5 = parent 8 5 /\ sibling s 5 = Ok 8.
Proof. apply (sibling_involutive 5 8); [lia|lia|discriminate]. Defined.

(** [directPath] returns, for every leaf of a tree of at most [2^30]
    leaves, the ancestors of the leaf in the complete tree that the tree is
    wide enough to hold, and its last element is the root. *)
Theorem directPath_correct n p :
  2 <= n <= 2 ^ 30 -> 0 <= p < n ->
  directPath (2 * p) n = Ok (directPath_ref (2 * p) n) /\
  root n = Ok (List.last (directPath_ref (2 * p) n) 0).
Proof.
  intros Hn Hp. destruct (directPath_path_up n p Hn Hp) as [E Hup]. split; [done|].
  pose proof (height_bounds n ltac:(lia)) as [Hh ?].
  rewrite root_node by lia. f_equal.
  pose proof (path_up_last _ _ _ Hup _ (root_node n ltac:(lia))) as Hl.
  pose proof (directPath_ref_ne n p Hn Hp).
  destruct (directPath_ref (2 * p) n) as [|d ds]; [done|by rewrite <- Hl].
Qed.

Lemma directPath_correct_witness :
  directPath (2 * 4) 6 = Ok [9; 7] /\ root 6 = Ok 7.
Proof. exact (directPath_correct 6 4 ltac:(lia) ltac:(lia)). Defined.

(** [copath] has one entry per direct-path node: the other child of that
    node than the one the path passes through, which is the subtree that a
    path update encrypts the node's private key to. *)
Theorem copath_correct n p :
  2 <= n <= 2 ^ 30 -> 0 <= p < n ->
  exists dp cp, directPath (2 * p) n = Ok dp /\ copath (2 * p) n = Ok cp /\
    length cp = length dp /\
    forall i c d, (2 * p :: dp) !! i = Some c -> dp !! i = Some d ->
      exists s, cp !! i = Some s /\ parent c n = Ok d /\ parent s n = Ok d /\ s <> c /\ 0 <= s < 2 * n - 1.
Proof.
  intros Hn Hp. destruct (directPath_path_up n p Hn Hp) as [E Hup].
  destruct (map_sibling_spec n (2 * p) (directPath_ref (2 * p) n)) as (cp & Ec & El & Hc); [lia|lia|done| |].
  - by apply directPath_ref_ne.
  - exists (directPath_ref (2 * p) n), cp. unfold copath. rewrite E. split_and!; [done..|].
    intros i c d E1 E2. destruct (Hc i c d E1 E2) as (s & ? & ? & ? & ? & ? & ?). eauto 10.
Qed.

Lemma copath_correct_witness :
  exists dp cp, directPath (2 * 4) 6 = Ok dp /\ copath (2 * 4) 6 = Ok cp /\
    length cp = length dp /\
    forall i c d, (2 * 4 :: dp) !! i = Some c -> dp !! i = Some d ->
      exists s, cp !! i = Some s /\ parent c 6 = Ok d /\ parent s 6 = Ok d /\ s <> c /\ 0 <= s < 11.
Proof. exact (copath_correct 6 4 ltac:(lia) ltac:(lia)). Defined.

End TreeMath.
