(* ===== verification/TipsHash.v ===== *)
(** * Tip-set hashes

    Models [packages/collabswarm/src/tips-hash.ts]: the canonical encoding of a
    set of CIDs that peers hash and vote on, and its lowercase-hex rendering.
    SHA-256 comes from WebCrypto, so it is a parameter; what the theorems show
    of the hash is what the canonical encoding guarantees, and where two
    different tip sets could only agree through a hash collision the collision
    is exhibited. A character stands for one UTF-16 code unit below 256, which
    covers the base32/base58 text of a CID. *)
From stdpp Require Import base numbers list strings sorting.
From Stdlib Require Import ZArith Lia Ascii.
From S2P Require Import Prelude.

Open Scope nat_scope.

Module TipsHash.

(** ** Definitions *)

Definition TIPS_HASH_LENGTH : Z := 32.

(** The default order of [Array.prototype.sort] on strings. *)
Definition string_le (a b : string) : Prop := String.leb a b = true.
#[export] Instance string_le_dec : RelDecision string_le.
Proof. intros a b. unfold string_le. apply _. Defined.

Definition newline : ascii := ascii_of_nat 10.

(** [sorted.join('\n')] *)
Fixpoint join_newline (l : list string) : string :=
  match l with
  | [] => String.EmptyString
  | [s] => s
  | s :: l' => String.append s (String.String newline (join_newline l'))
  end.

(** [TextEncoder.encode] *)
Definition utf8_char (c : ascii) : bytes :=
  let n := Z.of_N (N_of_ascii c) in
  if (n <? 128)%Z then [byte_of_Z n]
  else [byte_of_Z (Z.lor 192 (Z.shiftr n 6)); byte_of_Z (Z.lor 128 (Z.land n 63))].

Fixpoint utf8_encode (s : string) : bytes :=
  match s with
  | String.EmptyString => []
  | String.String c s' => utf8_char c ++ utf8_encode s'
  end.

(** The text that is hashed. *)
Definition canonicalTips (hashes : list string) : string :=
  join_newline (merge_sort string_le hashes).

Section Hash.
  Context (sha256 : bytes -> bytes).

Definition tipsHash (hashes : list string) : bytes :=
  sha256 (utf8_encode (canonicalTips hashes)).
End Hash.

Definition hex_digit (n : Z) : ascii :=
  ascii_of_N (Z.to_N (if (n <? 10)%Z then 48 + n else 87 + n)).

(** [b.toString(16)] of a byte *)
Definition toString16 (n : Z) : string :=
  if (n <? 16)%Z then String.String (hex_digit n) String.EmptyString
  else String.String (hex_digit (n / 16)) (String.String (hex_digit (n mod 16)) String.EmptyString).

(** [s.padStart(2, '0')] *)
Definition padStart2 (s : string) : string :=
  match String.length s with
  | 0 => "00"
  | 1 => String.append "0" s
  | _ => s
  end.

(** [hash[i].toString(16).padStart(2, '0')] *)
Definition byte_hex (b : byte) : string := padStart2 (toString16 (byte_to_Z b)).

(** [out += ...] for each byte *)
Definition tipsHashToHex (hash : bytes) : string :=
  foldl (fun out b => String.append out (byte_hex b)) String.EmptyString hash.

#[local] Arguments String.append : simpl nomatch.

(** ** The string order *)

Lemma ascii_compare_N a b : Ascii.compare a b = N.compare (N_of_ascii a) (N_of_ascii b).
Proof. done. Qed.

#[export] Instance string_le_trans : Transitive string_le.
Proof.
  unfold string_le, String.leb. intros a. induction a as [|x a IH]; intros [|y b] [|z c]; simpl; try done.
  rewrite !ascii_compare_N.
  destruct (N.compare_spec (N_of_ascii x) (N_of_ascii y)) as [Exy|Lxy|Gxy],
           (N.compare_spec (N_of_ascii y) (N_of_ascii z)) as [Eyz|Lyz|Gyz]; try done; intros H1 H2;
  destruct (N.compare_spec (N_of_ascii x) (N_of_ascii z)); try lia; try done. by eapply IH.
Qed.

#[export] Instance string_le_total : Total string_le.
Proof. intros a b. destruct (String.leb_total a b); [by left|by right]. Qed.

#[export] Instance string_le_antisymm : AntiSymm (=) string_le.
Proof. intros a b. apply String.leb_antisym. Qed.

(** ** Injectivity of the encodings *)

Lemma utf8_char_inj c c' k k' : utf8_char c ++ k = utf8_char c' ++ k' -> c = c' /\ k = k'.
Proof.
  assert (Hinj : forall x y, utf8_char x = utf8_char y -> x = y).
  { set (dec := fun l : bytes => match l with
      | [b] => ascii_of_N (Z.to_N (byte_to_Z b))
      | [b0; b1] => ascii_of_N (Z.to_N (Z.lor (Z.shiftl (Z.land (byte_to_Z b0) 31) 6) (Z.land (byte_to_Z b1) 63)))
      | _ => zero end).
    assert (Hdec : forall x, dec (utf8_char x) = x)
      by (intros [[] [] [] [] [] [] [] []]; vm_compute; reflexivity).
    intros x y E. by rewrite <- (Hdec x), <- (Hdec y), E. }
  assert (Hhd : forall x y kx ky, utf8_char x ++ kx = utf8_char y ++ ky ->
            length (utf8_char x) = length (utf8_char y)).
  { intros x y kx ky E. unfold utf8_char in *.
    pose proof (N_ascii_bounded x) as Bx. pose proof (N_ascii_bounded y) as By.
    assert (Hlo : forall n, (0 <= n < 128)%Z -> byte_to_Z (byte_of_Z n) = n).
    { intros. rewrite byte_to_of_Z, Z.mod_small by lia. done. }
    assert (Hhi : forall n, (128 <= n < 256)%Z -> (128 <= byte_to_Z (byte_of_Z (Z.lor 192 (Z.shiftr n 6))))%Z).
    { intros n Hn. rewrite byte_to_of_Z.
      assert (Hs : (Z.shiftr n 6 = 2 \/ Z.shiftr n 6 = 3)%Z).
      { rewrite Z.shiftr_div_pow2 by lia. change (2 ^ 6)%Z with 64%Z. Z.div_mod_to_equations. lia. }
      by destruct Hs as [-> | ->]. }
    destruct (Z.ltb_spec (Z.of_N (N_of_ascii x)) 128), (Z.ltb_spec (Z.of_N (N_of_ascii y)) 128);
      try done; exfalso; simpl in E; injection E as E _;
      apply (f_equal byte_to_Z) in E.
    - rewrite Hlo in E by lia. pose proof (Hhi (Z.of_N (N_of_ascii y)) ltac:(lia)). lia.
    - rewrite (Hlo (Z.of_N (N_of_ascii y))) in E by lia.
      pose proof (Hhi (Z.of_N (N_of_ascii x)) ltac:(lia)). lia. }
  intros E. apply app_inj_length in E as [E1 E2]; [|by eapply Hhd]. split; [by apply Hinj|done].
Qed.

#[export] Instance utf8_encode_inj : Inj (=) (=) utf8_encode.
Proof.
  assert (Hne : forall c k, utf8_char c ++ k <> []).
  { intros c k. unfold utf8_char. by destruct (_ <? 128)%Z. }
  intros s. induction s as [|c s IH]; intros [|c' s'] E; simpl in E; [done| | |].
  - by symmetry in E; apply Hne in E.
  - by apply Hne in E.
  - apply utf8_char_inj in E as [-> E]. f_equal. by apply IH.
Qed.

(** A CID, as far as the encoding is concerned: not empty, no line break. *)
Fixpoint no_newline (s : string) : bool :=
  match s with
  | String.EmptyString => true
  | String.String c s' => negb (Ascii.eqb c newline) && no_newline s'
  end.

Definition cid_like (s : string) : Prop := s <> String.EmptyString /\ no_newline s = true.

Lemma append_newline_inj s s' k k' :
  no_newline s = true -> no_newline s' = true ->
  String.append s (String.String newline k) = String.append s' (String.String newline k') ->
  s = s' /\ k = k'.
Proof.
  revert s'. induction s as [|c s IH]; intros [|c' s']; simpl.
  - by intros _ _ [= ->].
  - intros _ Hn [= <- _]. done.
  - intros Hn _ [= -> _]. done.
  - intros Hn Hn' [= -> E]. apply andb_prop in Hn as [_ Hn], Hn' as [_ Hn'].
    destruct (IH _ Hn Hn' E) as [-> ->]. done.
Qed.

Lemma append_newline_ne s k t :
  no_newline t = true -> String.append s (String.String newline k) <> t.
Proof.
  revert t. induction s as [|c s IH]; intros [|c' t] Hn; simpl; try done.
  - intros [= <- _]. simpl in Hn. done.
  - intros [= _ E]. apply andb_prop in Hn as [_ Hn]. by apply (IH t).
Qed.

Lemma join_newline_inj (a b : list string) :
  Forall cid_like a -> Forall cid_like b -> join_newline a = join_newline b -> a = b.
Proof.
  intros Ha. revert b. induction Ha as [|x a [Hx Hxn] Ha IH]; intros b Hb E.
  - destruct b as [|y [|z b]]; [done| |]; inversion Hb as [|? ? [Hy _]]; subst; simpl in E.
    + by rewrite <- E in Hy.
    + by destruct y.
  - destruct b as [|y b]; [destruct a; simpl in E; [done|by destruct x]|].
    apply Forall_cons in Hb as [[Hy Hyn] Hb].
    destruct a as [|x2 a], b as [|y2 b]; simpl in E.
    + by rewrite E.
    + symmetry in E. by apply append_newline_ne in E.
    + by apply append_newline_ne in E.
    + apply append_newline_inj in E as [-> E]; [|done..]. f_equal. by apply IH.
Qed.

Lemma Forall_merge_sort (P : string -> Prop) l : Forall P l -> Forall P (merge_sort string_le l).
Proof. intros. by rewrite merge_sort_Permutation. Qed.

(** ** Hexadecimal text *)

Lemma byte_hex_length b : String.length (byte_hex b) = 2.
Proof. by destruct b. Qed.

Lemma append_nil_r s : String.append s String.EmptyString = s.
Proof. induction s as [|c s IH]; simpl; [done|]. by rewrite IH. Qed.

Lemma append_assoc s t u : String.append (String.append s t) u = String.append s (String.append t u).
Proof. induction s as [|c s IH]; simpl; [done|]. by rewrite IH. Qed.

Lemma length_append s t : String.length (String.append s t) = String.length s + String.length t.
Proof. induction s as [|c s IH]; simpl; [done|]. by rewrite IH. Qed.

Lemma tipsHashToHex_acc l acc :
  foldl (fun out b => String.append out (byte_hex b)) acc l = String.append acc (tipsHashToHex l).
Proof.
  unfold tipsHashToHex. revert acc. induction l as [|b l IH]; intros acc; simpl.
  - by rewrite append_nil_r.
  - by rewrite IH, (IH (byte_hex b)), append_assoc.
Qed.

Lemma tipsHashToHex_cons b l : tipsHashToHex (b :: l) = String.append (byte_hex b) (tipsHashToHex l).
Proof. unfold tipsHashToHex at 1. simpl. by rewrite (tipsHashToHex_acc l (byte_hex b)). Qed.

Lemma tipsHashToHex_length l : String.length (tipsHashToHex l) = 2 * length l.
Proof.
  induction l as [|b l IH]; [done|]. rewrite tipsHashToHex_cons, length_append, byte_hex_length, IH.
  simpl. lia.
Qed.

Lemma append_inj_length s s' t t' :
  String.length s = String.length s' -> String.append s t = String.append s' t' -> s = s' /\ t = t'.
Proof.
  revert s'. induction s as [|c s IH]; intros [|c' s'] E; simpl in *; try done.
  intros [= -> E']. destruct (IH s' ltac:(lia) E') as [-> ->]. done.
Qed.

Lemma byte_hex_inj b b' : byte_hex b = byte_hex b' -> b = b'.
Proof.
  set (val := fun c : ascii => let n := Z.of_N (N_of_ascii c) in (if n <? 58 then n - 48 else n - 87)%Z).
  set (dec := fun s : string => match s with
    | String.String x (String.String y String.EmptyString) => byte_of_Z (16 * val x + val y)
    | _ => Init.Byte.x00 end).
  assert (Hdec : forall x, dec (byte_hex x) = x) by (intros []; vm_compute; reflexivity).
  intros E. by rewrite <- (Hdec b), <- (Hdec b'), E.
Qed.

(** Hex text identifies the bytes, so buckets keyed by it are the byte-equal
    groups. *)
#[export] Instance tipsHashToHex_inj : Inj (=) (=) tipsHashToHex.
Proof.
  intros l. induction l as [|b l IH]; intros [|b' l'] E.
  - done.
  - apply (f_equal String.length) in E. rewrite !tipsHashToHex_length in E. simpl in E. lia.
  - apply (f_equal String.length) in E. rewrite !tipsHashToHex_length in E. simpl in E. lia.
  - rewrite !tipsHashToHex_cons in E.
    apply append_inj_length in E as [->%byte_hex_inj E]; [|by rewrite !byte_hex_length].
    f_equal. by apply IH.
Qed.

(** ** Theorems *)

(** Two sets of CIDs have the same canonical encoding exactly when they are
    the same set, whatever order the CIDs are listed in. *)
Theorem canonicalTips_iff (a b : list string) :
  Forall cid_like a -> Forall cid_like b ->
  (utf8_encode (canonicalTips a) = utf8_encode (canonicalTips b) <-> a ≡ₚ b).
Proof.
  intros Ha Hb. unfold canonicalTips. rewrite <- (merge_sort_perm string_le). split; [|by intros ->].
  intros E%(inj utf8_encode). apply join_newline_inj in E; [done|by apply Forall_merge_sort..].
Qed.

Lemma canonicalTips_iff_witness :
  utf8_encode (canonicalTips ["bafyB"%string; "bafyA"%string]) =
  utf8_encode (canonicalTips ["bafyA"%string; "bafyB"%string]) <->
  ["bafyB"%string; "bafyA"%string] ≡ₚ ["bafyA"%string; "bafyB"%string].
Proof.
  apply canonicalTips_iff; repeat constructor; try discriminate.
Defined.

(** Peers holding the same tip set compute the same hash in whatever order
    they hold it; peers whose hashes agree hold the same tip set or have found
    two different texts with the same SHA-256 digest. *)
Theorem tipsHash_agree (sha256 : bytes -> bytes) (a b : list string) :
  Forall cid_like a -> Forall cid_like b ->
  (a ≡ₚ b -> tipsHash sha256 a = tipsHash sha256 b) /\
  (tipsHash sha256 a = tipsHash sha256 b ->
   a ≡ₚ b \/
   (utf8_encode (canonicalTips a) <> utf8_encode (canonicalTips b) /\
    sha256 (utf8_encode (canonicalTips a)) = sha256 (utf8_encode (canonicalTips b)))).
Proof.
  intros Ha Hb. unfold tipsHash, canonicalTips. split; [by intros ->%(merge_sort_perm string_le)|].
  intros E. destruct (decide (a ≡ₚ b)) as [|Hne]; [by left|right]. split; [|done].
  intros E'%(inj utf8_encode). apply join_newline_inj in E'; [|by apply Forall_merge_sort..].
  by apply Hne, (merge_sort_perm string_le).
Qed.

Lemma tipsHash_agree_witness :
  tipsHash (take 32) ["bafyB"%string; "bafyA"%string] = tipsHash (take 32) ["bafyA"%string; "bafyB"%string].
Proof.
  apply (tipsHash_agree (take 32)); [repeat constructor; discriminate..|].
  apply Permutation_swap.
Defined.

End TipsHash.
