(* ===== verification/LoadQuorum.v ===== *)
(** * The initial-load quorum decision

    Models [packages/collabswarm/src/load-quorum.ts]: the tally of tip-hash
    votes, the clamps on the tuning knobs and their validation, peer
    deduplication and the constant-time comparison of the binding check.
    A vote is a hash, an explicit disclaim or no vote; peers are their peer
    ids. The text of error messages is not modelled, their fields are. *)
From stdpp Require Import base numbers list list_numbers strings.
From Stdlib Require Import ZArith QArith Qround Lia Ascii.
From S2P Require Import Prelude TipsHash.
Import TipsHash.

Open Scope Z_scope.

Module LoadQuorum.

(** ** Definitions *)

(** [hash: Uint8Array | 'unknown-doc' | null] *)
Inductive vote : Type :=
| TipHash (h : bytes)
| UnknownDoc
| NoVote.

Record PeerTipAdvertisement : Type := Adv { peerId : string; hash : vote }.

Definition UNKNOWN_DOC_TALLY_KEY : string := "unknown-doc".

Inductive QuorumKind : Type := KindTipHash | KindNewDoc.

Inductive FailReason : Type := InsufficientResponses | NoMajority | NoPeersQueried.

Inductive LoadQuorumDecision : Type :=
| QuorumOk (kind : QuorumKind) (winningHashHex : string) (agreeingPeerIds : list string)
    (respondingCount : Z) (effectiveQ : num)
| QuorumFail (reason : FailReason) (respondingCount : Z) (effectiveQ : num)
    (agreement : list (string * Z)).

(** The tally: buckets of peer ids by key, and the number of votes. *)
Record tally : Type := Tally { buckets : list (string * list string); responding : Z }.

Definition voteKey (v : vote) : option string :=
  match v with
  | NoVote => None
  | UnknownDoc => Some UNKNOWN_DOC_TALLY_KEY
  | TipHash h => Some (tipsHashToHex h)
  end.

(** One turn of the loop over [advertisements]. *)
Definition tally_step (t : tally) (adv : PeerTipAdvertisement) : tally :=
  match voteKey (hash adv) with
  | None => t
  | Some key =>
      let bucket := match map_get key (buckets t) with Some b => b | None => [] end in
      Tally (map_set key (bucket ++ [peerId adv]) (buckets t)) (responding t + 1)
  end.

Definition tally_votes (advertisements : list PeerTipAdvertisement) : tally :=
  foldl tally_step (Tally [] 0) advertisements.

(** The largest bucket; the earlier one wins a tie. *)
Definition best_step (best : option string * list string) (b : string * list string)
    : option string * list string :=
  if (length (snd best) <? length (snd b))%nat then (Some (fst b), snd b) else best.

Definition best_bucket (bs : list (string * list string)) : option string * list string :=
  foldl best_step (None, []) bs.

Definition isTipKey (key : string) : bool := negb (String.eqb key UNKNOWN_DOC_TALLY_KEY).

Definition eligibleBuckets (agreement : list (string * list string)) : list (string * list string) :=
  let hasTipHashVote := existsb isTipKey (agreement.*1) in
  if hasTipHashVote then List.filter (fun b => isTipKey (fst b)) agreement else agreement.

Definition decideLoadQuorum (advertisements : list PeerTipAdvertisement) (q : num)
    : result LoadQuorumDecision :=
  if negb (num_is_integer q) || num_lt q 1
  then throw "decideLoadQuorum: q must be a positive integer"
  else if (length advertisements =? 0)%nat
  then Ok (QuorumFail NoPeersQueried 0 q [])
  else
    let t := tally_votes advertisements in
    if responding t =? 0
    then Ok (QuorumFail InsufficientResponses (responding t) q [])
    else
      let '(bestKey, bestPeers) := best_bucket (eligibleBuckets (buckets t)) in
      let failed :=
        let summary := foldl (fun m b => map_set (fst b) (Z.of_nat (length (snd b))) m) [] (buckets t) in
        let reason := if num_lt (responding t) q then InsufficientResponses else NoMajority in
        Ok (QuorumFail reason (responding t) q summary) in
      match bestKey with
      | None => failed
      | Some key =>
          if num_lt (Z.of_nat (length bestPeers)) q then failed
          else Ok (QuorumOk (if isTipKey key then KindTipHash else KindNewDoc) key bestPeers
                     (responding t) q)
      end.

Definition defaultQuorumQ (k : Z) : Z :=
  if k <=? 0 then 0 else k / 2 + 1.

(** [dedupePeersByPeerId]: the state is [seen] and [out]. *)
Section Dedupe.
  Context {T : Type} (peerIdOf : T -> string).

Definition dedupe_step (st : list string * list T) (peer : T) : list string * list T :=
  let id := peerIdOf peer in
  if set_has id (fst st) then st else (set_add id (fst st), snd st ++ [peer]).

Definition dedupePeersByPeerId (peers : list T) : list T :=
  snd (foldl dedupe_step ([], []) peers).
End Dedupe.

Fixpoint charCodes (s : string) : list Z :=
  match s with
  | String.EmptyString => []
  | String.String c s' => Z.of_N (N_of_ascii c) :: charCodes s'
  end.

Definition charCodeOr0 (s : list Z) (i : nat) : Z := default 0 (s !! i).

Definition constantTimeHexEquals (a b : string) : bool :=
  let ca := charCodes a in let cb := charCodes b in
  let diff := js_xor (Z.of_nat (length ca)) (Z.of_nat (length cb)) in
  foldl (fun d i => js_or d (js_xor (charCodeOr0 ca i) (charCodeOr0 cb i)))
    diff (seq 0 (Nat.max (length ca) (length cb))) =? 0.

Definition effectiveK (configuredK : num) (knownPeersCount : Z) : Z :=
  match configuredK with
  | Fin k =>
      if num_le (Fin k) 0 then 0
      else if knownPeersCount <=? 0 then 0
      else Qfloor (if Qle_bool k (inject_Z knownPeersCount) then k else inject_Z knownPeersCount)
  | _ => 0
  end.

Definition effectiveQ (configuredQ : num) (k : Z) : Z :=
  if k <=? 0 then 0 else
  match configuredQ with
  | Fin cq =>
      if num_lt (Fin cq) 1 then 1
      else if num_lt k (Fin cq) then k
      else Qfloor cq
  | _ => defaultQuorumQ k
  end.

Definition LOAD_QUORUM_TIMEOUT_MS_MAX : Z := 5 * 60 * 1000.

Inductive LoadQuorumFailedReason : Type :=
| Failed (r : FailReason)
| InvalidConfig
| BindCheckFailedAllAgreeingPeers
| AgreeingPeersUnreachable.

(** The structured content of the ['invalid-config'] detail text. *)
Record config_detail : Type := Detail { knob : string; knobMax : option Z; knobValue : num }.

Record LoadQuorumFailedError : Type := QuorumError {
  documentPath : string;
  reason : LoadQuorumFailedReason;
  respondingCount : Z;
  requiredQ : num;
  agreement : list (string * Z);
  agreeingPeerBindFailures : list (string * string);
  detail : option config_detail }.

Definition invalidConfig (path : string) (d : option config_detail) : LoadQuorumFailedError :=
  QuorumError path InvalidConfig 0 0 [] [] d.

Definition checkPositiveInt (name : string) (value : option num) : option LoadQuorumFailedError :=
  match value with
  | None => None
  | Some v =>
      if negb (num_is_integer v) || num_lt v 1
      then Some (invalidConfig "<config>" (Some (Detail name None v)))
      else None
  end.

Definition checkBoundedPositiveInt (name : string) (value : option num) (max : Z)
    : option LoadQuorumFailedError :=
  match value with
  | None => None
  | Some v =>
      if negb (num_is_integer v) || num_lt v 1 || num_lt max v
      then Some (invalidConfig "<config>" (Some (Detail name (Some max) v)))
      else None
  end.

(** [None] when the three checks pass, otherwise the first error thrown. *)
Definition validateLoadQuorumConfig (loadQuorumK loadQuorumQ loadQuorumTimeoutMs : option num)
    : option LoadQuorumFailedError :=
  match checkPositiveInt "loadQuorumK" loadQuorumK with
  | Some e => Some e
  | None =>
      match checkPositiveInt "loadQuorumQ" loadQuorumQ with
      | Some e => Some e
      | None =>
          checkBoundedPositiveInt "loadQuorumTimeoutMs" loadQuorumTimeoutMs LOAD_QUORUM_TIMEOUT_MS_MAX
      end
  end.

(** ** What the votes say *)

(** The peers that voted for [key], in the order they were queried. *)
Definition voters (key : string) (advs : list PeerTipAdvertisement) : list string :=
  peerId <$> List.filter (fun a => bool_decide (voteKey (hash a) = Some key)) advs.

(** The number of peers that voted at all. *)
Definition responders (advs : list PeerTipAdvertisement) : Z :=
  Z.of_nat (length (List.filter (fun a => bool_decide (is_Some (voteKey (hash a)))) advs)).

Definition is_tip_vote (a : PeerTipAdvertisement) : bool :=
  match hash a with TipHash _ => true | _ => false end.

(** A bucket that may win: any, unless some peer voted a tip hash, in which
    case the disclaim bucket is out. *)
Definition eligible (advs : list PeerTipAdvertisement) (key : string) : bool :=
  implb (existsb is_tip_vote advs) (isTipKey key).

Lemma hex_is_tip_key h : isTipKey (tipsHashToHex h) = true.
Proof.
  unfold isTipKey. apply negb_true_iff, String.eqb_neq. intros E.
  apply (f_equal String.length) in E. rewrite tipsHashToHex_length in E. simpl in E. lia.
Qed.

Lemma voteKey_tip a key :
  voteKey (hash a) = Some key -> is_tip_vote a = isTipKey key.
Proof.
  unfold is_tip_vote. destruct (hash a) as [h| |]; simpl; intros; simplify_eq; [|done].
  by rewrite hex_is_tip_key.
Qed.

Lemma voters_snoc key advs a :
  voters key (advs ++ [a]) =
  voters key advs ++ (if bool_decide (voteKey (hash a) = Some key) then [peerId a] else []).
Proof.
  unfold voters. rewrite List.filter_app, fmap_app. simpl.
  by destruct (bool_decide _).
Qed.

Lemma responders_snoc advs a :
  responders (advs ++ [a]) =
  responders advs + (if bool_decide (is_Some (voteKey (hash a))) then 1 else 0).
Proof.
  unfold responders. rewrite List.filter_app, length_app. simpl.
  destruct (bool_decide _); simpl; lia.
Qed.

Lemma voters_le_responders key advs : Z.of_nat (length (voters key advs)) <= responders advs.
Proof.
  induction advs as [|a advs IH] using rev_ind; [done|].
  rewrite voters_snoc, responders_snoc, length_app.
  case_bool_decide as E; [rewrite bool_decide_true by (rewrite E; eauto); simpl; lia|].
  case_bool_decide; simpl; lia.
Qed.

(** The tally's buckets are exactly the groups of voters. *)
Lemma tally_spec advs :
  responding (tally_votes advs) = responders advs /\
  NoDup (buckets (tally_votes advs)).*1 /\
  forall key, map_get key (buckets (tally_votes advs)) =
    match voters key advs with [] => None | vs => Some vs end.
Proof.
  induction advs as [|a advs (IHr & IHn & IHb)] using rev_ind.
  { split_and!; [done|constructor|done]. }
  unfold tally_votes in *. rewrite foldl_snoc, responders_snoc.
  remember (foldl tally_step (Tally [] 0) advs) as t. unfold tally_step.
  destruct (voteKey (hash a)) as [key0|] eqn:Ek; cbn [responding buckets].
  - rewrite bool_decide_true by eauto. split_and!; [lia|by apply NoDup_map_set|].
    intros key. rewrite map_get_set, voters_snoc, Ek. destruct (decide (key = key0)) as [->|Hne].
    + rewrite bool_decide_true by done. rewrite IHb.
      destruct (voters key0 advs) eqn:Ev; simpl; done.
    + rewrite bool_decide_false by congruence. by rewrite app_nil_r.
  - rewrite bool_decide_false by (by intros [? ?]). split_and!; [lia|done|].
    intros key. rewrite voters_snoc, Ek. rewrite bool_decide_false by done. by rewrite app_nil_r.
Qed.

Lemma bucket_iff advs key vs :
  (key, vs) ∈ buckets (tally_votes advs) <-> vs = voters key advs /\ vs <> [].
Proof.
  destruct (tally_spec advs) as (_ & Hn & Hb). split.
  - intros Hin%elem_of_map_get; [|done]. rewrite Hb in Hin.
    by destruct (voters key advs); simplify_eq.
  - intros [-> Hne]. apply map_get_elem_of. rewrite Hb. by destruct (voters key advs).
Qed.

Lemma voters_ne key advs :
  voters key advs <> [] <-> exists a, a ∈ advs /\ voteKey (hash a) = Some key.
Proof.
  unfold voters. split.
  - intros Hne. destruct (List.filter _ advs) as [|a l] eqn:E; [done|].
    assert (Hin : List.In a (List.filter (fun a => bool_decide (voteKey (hash a) = Some key)) advs)).
    { rewrite E. by left. }
    apply List.filter_In in Hin as [Hin Hb%bool_decide_eq_true]. exists a. by rewrite list_elem_of_In.
  - intros (a & Hin & Hk) E. apply fmap_nil_inv in E.
    assert (Hf : List.In a (List.filter (fun a => bool_decide (voteKey (hash a) = Some key)) advs)).
    { apply List.filter_In. rewrite <- list_elem_of_In. by rewrite bool_decide_true. }
    by rewrite E in Hf.
Qed.

Lemma has_tip_bucket advs :
  existsb isTipKey ((buckets (tally_votes advs)).*1) = existsb is_tip_vote advs.
Proof.
  apply eq_iff_eq_true. rewrite !List.existsb_exists. split.
  - intros (key & Hin%list_elem_of_In & Ht). apply list_elem_of_fmap in Hin as ([k vs] & -> & Hin).
    apply bucket_iff in Hin as [-> Hne]. apply voters_ne in Hne as (a & Ha & Hk).
    exists a. split; [by apply list_elem_of_In|]. by rewrite (voteKey_tip _ _ Hk).
  - intros (a & Ha%list_elem_of_In & Ht). destruct (voteKey (hash a)) as [key|] eqn:Ek.
    2: { unfold is_tip_vote in Ht. by destruct (hash a). }
    exists key. rewrite <- (voteKey_tip _ _ Ek). split; [|done].
    apply list_elem_of_In, list_elem_of_fmap. exists (key, voters key advs). split; [done|].
    apply bucket_iff. split; [done|]. apply voters_ne. eauto.
Qed.

Lemma eligible_bucket_iff advs key vs :
  (key, vs) ∈ eligibleBuckets (buckets (tally_votes advs)) <->
  vs = voters key advs /\ vs <> [] /\ eligible advs key = true.
Proof.
  unfold eligibleBuckets, eligible. rewrite has_tip_bucket.
  destruct (existsb is_tip_vote advs); simpl.
  - rewrite list_elem_of_In, List.filter_In, <- list_elem_of_In, bucket_iff. simpl. tauto.
  - rewrite bucket_iff. tauto.
Qed.

Lemma best_bucket_from bs best :
  let r := foldl best_step best bs in
  (r = best \/ exists k, r.1 = Some k /\ (k, r.2) ∈ bs) /\
  (length best.2 <= length r.2)%nat /\ forall k vs, (k, vs) ∈ bs -> (length vs <= length r.2)%nat.
Proof.
  revert best. induction bs as [|[k0 vs0] bs IH]; intros best; simpl.
  { split_and!; [by left|lia|]. by intros ? ? ?%elem_of_nil. }
  destruct (IH (best_step best (k0, vs0))) as (Hor & Hle & Hall).
  set (r := foldl best_step (best_step best (k0, vs0)) bs) in *.
  assert (Hb : best_step best (k0, vs0) = best /\ (length vs0 <= length best.2)%nat \/
    best_step best (k0, vs0) = (Some k0, vs0) /\ (length best.2 < length vs0)%nat).
  { unfold best_step. simpl. destruct (Nat.ltb_spec (length best.2) (length vs0)); [right|left]; split; done || lia. }
  split_and!.
  - destruct Hor as [->|(k & ? & ?)].
    + destruct Hb as [[-> _]|[-> _]]; [by left|]. right. exists k0. split; [done|]. by left.
    + right. exists k. split; [done|]. by right.
  - destruct Hb as [[Eb ?]|[Eb ?]]; rewrite Eb in Hle; simpl in Hle; lia.
  - intros k vs [E|Hin]%elem_of_cons; [|by apply Hall in Hin].
    simplify_eq. destruct Hb as [[Eb ?]|[Eb ?]]; rewrite Eb in Hle; simpl in Hle; lia.
Qed.

(** The entry of a key in the vote-count snapshot. *)
Definition vote_count (key : string) (advs : list PeerTipAdvertisement) : option Z :=
  match voters key advs with [] => None | vs => Some (Z.of_nat (length vs)) end.

Lemma summary_spec advs key :
  map_get key (foldl (fun m b => map_set (fst b) (Z.of_nat (length (snd b))) m) [] (buckets (tally_votes advs)))
  = vote_count key advs.
Proof.
  destruct (tally_spec advs) as (_ & Hn & Hb). unfold vote_count.
  transitivity ((fun vs => Z.of_nat (length vs)) <$> map_get key (buckets (tally_votes advs))).
  2: { rewrite Hb. by destruct (voters key advs). }
  clear Hb. induction (buckets (tally_votes advs)) as [|[k vs] l IH] using rev_ind; [done|].
  rewrite foldl_snoc, map_get_set. simpl. rewrite fmap_app in Hn. apply NoDup_app in Hn as (Hn & Hnin & _).
  assert (Hk : k ∉ l.*1) by (intros ?; by eapply Hnin; [|left]).
  rewrite <- (map_set_notin k vs l) by done. rewrite map_get_set. case_decide; [done|by apply IH].
Qed.

(** The two outcomes of a round with at least one query and a positive
    integral threshold. *)
Lemma decide_cases advs (q : Z) :
  1 <= q -> advs <> [] ->
  (exists key, decideLoadQuorum advs q =
      Ok (QuorumOk (if isTipKey key then KindTipHash else KindNewDoc) key (voters key advs) (responders advs) q) /\
    eligible advs key = true /\ voters key advs <> [] /\ q <= Z.of_nat (length (voters key advs)) /\
    forall key', eligible advs key' = true -> (length (voters key' advs) <= length (voters key advs))%nat) \/
  (exists agr, decideLoadQuorum advs q =
      Ok (QuorumFail (if responders advs <? q then InsufficientResponses else NoMajority) (responders advs) q agr) /\
    (forall key', map_get key' agr = vote_count key' advs) /\
    forall key', eligible advs key' = true -> Z.of_nat (length (voters key' advs)) < q).
Proof.
  intros Hq Hne. unfold decideLoadQuorum. rewrite num_is_integer_Z, num_lt_Z.
  change (negb true) with false. destruct (Z.ltb_spec q 1); [lia|]. cbn [orb].
  destruct advs as [|a0 advs0]; [done|]. set (advs := a0 :: advs0) in *.
  change (length advs =? 0)%nat with false. cbn iota.
  destruct (tally_spec advs) as (Hr & _ & _). rewrite Hr.
  destruct (Z.eqb_spec (responders advs) 0) as [E0|].
  { right. exists []. rewrite E0. destruct (Z.ltb_spec 0 q); [|lia]. split_and!; [done| |].
    { intros key'. pose proof (voters_le_responders key' advs). unfold vote_count.
      destruct (voters key' advs); simpl in *; [done|lia]. }
    intros key' _. pose proof (voters_le_responders key' advs). lia. }
  pose proof (best_bucket_from (eligibleBuckets (buckets (tally_votes advs))) (None, [])) as Hbest.
  fold (best_bucket (eligibleBuckets (buckets (tally_votes advs)))) in Hbest.
  destruct (best_bucket _) as [bk bps]. simpl in Hbest. destruct Hbest as (Hor & _ & Hall).
  assert (Hmax : forall key', eligible advs key' = true -> (length (voters key' advs) <= length bps)%nat).
  { intros key' He. destruct (decide (voters key' advs = [])) as [->|Hv]; [simpl; lia|].
    apply (Hall key'). by apply eligible_bucket_iff. }
  rewrite !num_lt_Z. destruct Hor as [[= -> ->]|(k & -> & Hin)].
  - right. eexists. split_and!; [done|apply summary_spec|]. intros key' He. apply Hmax in He. simpl in He. lia.
  - apply eligible_bucket_iff in Hin as (-> & Hv & He).
    destruct (Z.ltb_spec (Z.of_nat (length (voters k advs))) q).
    + right. eexists. split_and!; [done|apply summary_spec|]. intros key' He'. apply Hmax in He'. lia.
    + left. exists k. split_and!; done || lia.
Qed.

(** ** Counting votes *)

Lemma voters_perm key advs advs' : advs ≡ₚ advs' -> voters key advs ≡ₚ voters key advs'.
Proof.
  intros Hp. unfold voters. apply fmap_Permutation.
  induction Hp; simpl; repeat case_match; eauto using Permutation.
Qed.

Lemma responders_perm advs advs' : advs ≡ₚ advs' -> responders advs = responders advs'.
Proof.
  intros Hp. unfold responders. apply f_equal, Permutation_length.
  induction Hp; simpl; repeat case_match; eauto using Permutation.
Qed.

Lemma eligible_perm advs advs' key : advs ≡ₚ advs' -> eligible advs key = eligible advs' key.
Proof.
  intros Hp. unfold eligible. f_equal. apply eq_iff_eq_true. rewrite !List.existsb_exists.
  split; intros (a & Ha & ?); exists a; (split; [|done]); rewrite <- list_elem_of_In in *.
  - by rewrite <- Hp.
  - by rewrite Hp.
Qed.

Lemma voters_disjoint key key' advs :
  key <> key' -> (length (voters key advs) + length (voters key' advs) <= length advs)%nat.
Proof.
  intros Hne. unfold voters. rewrite !length_fmap. induction advs as [|a advs IH]; simpl; [done|].
  repeat case_bool_decide; simpl; try lia. congruence.
Qed.

(** Votes for a tip hash other than [h]. *)
Definition dissenting (h : bytes) (advs : list PeerTipAdvertisement) : list PeerTipAdvertisement :=
  List.filter (fun a => match hash a with TipHash h' => bool_decide (h' <> h) | _ => false end) advs.

Lemma voters_dissenting h h' advs :
  h' <> h -> (length (voters (tipsHashToHex h') advs) <= length (dissenting h advs))%nat.
Proof.
  intros Hne. unfold voters, dissenting. rewrite length_fmap.
  induction advs as [|a advs IH]; simpl; [done|].
  destruct (hash a) as [h0| |]; cbn [voteKey]; [|rewrite bool_decide_false; [done|]|done].
  - case_bool_decide as E; case_bool_decide as E'; simpl; try lia.
    apply (inj Some), (inj tipsHashToHex) in E as ->. by destruct E'.
  - intros [= E]. pose proof (hex_is_tip_key h') as Ht. by rewrite <- E in Ht.
Qed.

(** ** Theorems *)

(** When the decision is positive, the cohort it names is exactly the peers
    that voted for the winning key, there are at least [q] of them, no bucket
    that could have won is larger, and the round is a new-document round only
    if no peer reported a tip hash. *)
Theorem quorum_ok_sound advs (q : Z) kind key peers rc eq :
  1 <= q -> decideLoadQuorum advs q = Ok (QuorumOk kind key peers rc eq) ->
  peers = voters key advs /\ q <= Z.of_nat (length peers) /\ rc = responders advs /\ eq = num_of_Z q /\
  (kind = KindNewDoc <-> key = UNKNOWN_DOC_TALLY_KEY) /\
  (kind = KindNewDoc -> Forall (fun a => is_tip_vote a = false) advs) /\
  forall key', eligible advs key' = true -> (length (voters key' advs) <= length peers)%nat.
Proof.
  intros Hq E. destruct (decide (advs = [])) as [->|Hne].
  { unfold decideLoadQuorum in E. by repeat case_match. }
  destruct (decide_cases advs q Hq Hne) as [(k & E' & He & Hv & Hlen & Hmax)|(agr & E' & _)];
    rewrite E' in E; [|done]. injection E as <- <- <- <- <-.
  assert (Hk : isTipKey k = false <-> k = UNKNOWN_DOC_TALLY_KEY).
  { unfold isTipKey. rewrite negb_false_iff. apply String.eqb_eq. }
  split_and!; [done..| | |done].
  - rewrite <- Hk. by destruct (isTipKey k).
  - destruct (isTipKey k) eqn:Et; [done|]. intros _. unfold eligible in He. rewrite Et in He.
    rewrite Forall_forall. intros a Ha. destruct (existsb is_tip_vote advs) eqn:Ex; [done|].
    apply not_true_iff_false. intros Hat. apply not_true_iff_false in Ex. apply Ex.
    apply List.existsb_exists. exists a. by rewrite <- list_elem_of_In.
Qed.

Definition sample_advs : list PeerTipAdvertisement :=
  [Adv "p1" (TipHash [Init.Byte.x01]); Adv "p2" UnknownDoc;
   Adv "p3" (TipHash [Init.Byte.x01]); Adv "p4" NoVote].

Lemma quorum_ok_sound_witness :
  ["p1"%string; "p3"%string] = voters "01" sample_advs /\ 2 <= 2 /\ 3 = responders sample_advs /\
  num_of_Z 2 = num_of_Z 2 /\ (KindTipHash = KindNewDoc <-> "01"%string = UNKNOWN_DOC_TALLY_KEY) /\
  (KindTipHash = KindNewDoc -> Forall (fun a => is_tip_vote a = false) sample_advs) /\
  forall key', eligible sample_advs key' = true -> (length (voters key' sample_advs) <= 2)%nat.
Proof. apply (quorum_ok_sound sample_advs 2 KindTipHash "01" ["p1"%string; "p3"%string] 3 2); [lia|reflexivity]. Defined.

(** The gate opens exactly when some bucket that may win has [q] votes: it
    neither blocks a reached quorum nor opens without one. *)
Theorem quorum_ok_iff advs (q : Z) :
  1 <= q ->
  (exists kind key peers rc eq, decideLoadQuorum advs q = Ok (QuorumOk kind key peers rc eq)) <->
  (exists key, eligible advs key = true /\ q <= Z.of_nat (length (voters key advs))).
Proof.
  intros Hq. destruct (decide (advs = [])) as [->|Hne].
  { split.
    - intros (? & ? & ? & ? & ? & E). unfold decideLoadQuorum in E. by repeat case_match.
    - intros (key & _ & Hl). unfold voters in Hl. simpl in Hl. lia. }
  destruct (decide_cases advs q Hq Hne) as [(k & E' & He & Hv & Hlen & Hmax)|(agr & E' & _ & Hall)].
  - split; [intros _; eauto|intros _; eauto 10].
  - split; [intros (? & ? & ? & ? & ? & E); congruence|].
    intros (key & He & Hl). pose proof (Hall key He). lia.
Qed.

Lemma quorum_ok_iff_witness :
  exists kind key peers rc eq, decideLoadQuorum sample_advs 2 = Ok (QuorumOk kind key peers rc eq).
Proof. apply (quorum_ok_iff sample_advs 2); [lia|]. exists "01"%string. split; [reflexivity|vm_compute; discriminate]. Defined.

(** Byzantine safety: as long as fewer than [q] of the queried peers report
    a tip hash other than the honest one and some peer reports a tip hash, a
    round that passes passes on the honest hash; disclaiming peers cannot turn
    it into a new document however many they are. *)
Theorem quorum_byzantine_safe advs (q : Z) h kind key peers rc eq :
  1 <= q -> existsb is_tip_vote advs = true -> Z.of_nat (length (dissenting h advs)) < q ->
  decideLoadQuorum advs q = Ok (QuorumOk kind key peers rc eq) ->
  kind = KindTipHash /\ key = tipsHashToHex h.
Proof.
  intros Hq Ht Hd E. destruct (decide (advs = [])) as [->|Hne]; [done|].
  destruct (decide_cases advs q Hq Hne) as [(k & E' & He & Hv & Hlen & _)|(agr & E' & _)];
    rewrite E' in E; [|done]. injection E as <- <- <- <- <-.
  unfold eligible in He. rewrite Ht in He. simpl in He. rewrite He. split; [done|].
  apply voters_ne in Hv as (a & Ha & Hk). pose proof (voteKey_tip _ _ Hk) as Hat. rewrite He in Hat.
  unfold is_tip_vote in Hat. destruct (hash a) as [h'| |]; try done. simpl in Hk.
  injection Hk as <-. f_equal. destruct (decide (h' = h)); [done|].
  pose proof (voters_dissenting h h' advs ltac:(done)). lia.
Qed.

Lemma quorum_byzantine_safe_witness : KindTipHash = KindTipHash /\ "01"%string = tipsHashToHex [Init.Byte.x01].
Proof.
  apply (quorum_byzantine_safe (Adv "evil" (TipHash [Init.Byte.xff]) :: sample_advs) 2 [Init.Byte.x01]
           KindTipHash "01" ["p1"%string; "p3"%string] 4 2); [lia|reflexivity|reflexivity|reflexivity].
Defined.

(** With a strict-majority threshold the decision does not depend on the
    order in which the peers were listed: another order gives the same kind,
    the same winning hash and the same cohort. *)
Theorem quorum_order_independent advs advs' (q : Z) kind key peers rc eq :
  1 <= q -> Z.of_nat (length advs) < 2 * q -> advs ≡ₚ advs' ->
  decideLoadQuorum advs q = Ok (QuorumOk kind key peers rc eq) ->
  exists peers', decideLoadQuorum advs' q = Ok (QuorumOk kind key peers' rc eq) /\ peers ≡ₚ peers'.
Proof.
  intros Hq Hmaj Hp E. destruct (decide (advs = [])) as [->|Hne].
  { unfold decideLoadQuorum in E. by repeat case_match. }
  assert (Hne' : advs' <> []).
  { intros ->. by apply Permutation_nil_r in Hp. }
  destruct (decide_cases advs q Hq Hne) as [(k & E1 & He & Hv & Hlen & _)|(agr & E1 & _)];
    rewrite E1 in E; [|done]. injection E as <- <- <- <- <-.
  pose proof (voters_perm k _ _ Hp) as Hvp.
  destruct (decide_cases advs' q Hq Hne') as [(k' & E2 & He' & Hv' & Hlen' & _)|(agr & E2 & _ & Hall)].
  - assert (k' = k) as ->.
    { destruct (decide (k' = k)); [done|]. pose proof (voters_disjoint k' k advs' ltac:(done)).
      apply Permutation_length in Hvp, Hp. lia. }
    exists (voters k advs'). by rewrite E2, (responders_perm _ _ Hp).
  - exfalso. rewrite (eligible_perm _ _ _ Hp) in He. specialize (Hall k He).
    apply Permutation_length in Hvp. lia.
Qed.

Lemma quorum_order_independent_witness :
  exists peers', decideLoadQuorum [Adv "b" (TipHash []); Adv "a" (TipHash []); Adv "c" NoVote] 2 =
    Ok (QuorumOk KindTipHash "" peers' 2 2) /\ ["a"%string; "b"%string] ≡ₚ peers'.
Proof.
  apply (quorum_order_independent [Adv "a" (TipHash []); Adv "b" (TipHash []); Adv "c" NoVote]);
    [lia|reflexivity|apply Permutation_swap|reflexivity].
Defined.

(** A negative decision names the reason that holds: nobody was queried,
    fewer than [q] peers voted, or enough voted and every bucket that may win is
    below [q]; its snapshot counts the votes of each bucket. *)
Theorem quorum_fail_reason advs (q : Z) r rc eq agr :
  1 <= q -> decideLoadQuorum advs q = Ok (QuorumFail r rc eq agr) ->
  rc = responders advs /\ eq = num_of_Z q /\ (forall key, map_get key agr = vote_count key advs) /\
  (forall key, eligible advs key = true -> Z.of_nat (length (voters key advs)) < q) /\
  match r with
  | NoPeersQueried => advs = []
  | InsufficientResponses => advs <> [] /\ responders advs < q
  | NoMajority => q <= responders advs
  end.
Proof.
  intros Hq E. destruct (decide (advs = [])) as [->|Hne].
  { unfold decideLoadQuorum in E. rewrite num_is_integer_Z, num_lt_Z in E.
    destruct (Z.ltb_spec q 1); [lia|]. simpl in E. injection E as <- <- <- <-.
    split_and!; try done. intros key _. unfold voters. simpl. lia. }
  destruct (decide_cases advs q Hq Hne) as [(k & E' & _)|(agr' & E' & Hs & Hall)];
    rewrite E' in E; [done|]. injection E as <- <- <- <-.
  split_and!; [done..|]. destruct (Z.ltb_spec (responders advs) q); done.
Qed.

Lemma quorum_fail_reason_witness :
  3 = responders sample_advs /\ num_of_Z 3 = num_of_Z 3 /\
  (forall key, map_get key [("01"%string, 2); ("unknown-doc"%string, 1)] = vote_count key sample_advs) /\
  (forall key, eligible sample_advs key = true -> Z.of_nat (length (voters key sample_advs)) < 3) /\
  3 <= responders sample_advs.
Proof. apply (quorum_fail_reason sample_advs 3 NoMajority); [lia|reflexivity]. Defined.

(** ** Deduplication *)

Section DedupeFacts.
  Context {T : Type} (peerIdOf : T -> string).

Lemma dedupe_invariant peers :
  let st := foldl (dedupe_step peerIdOf) ([], []) peers in
  st.1 = peerIdOf <$> st.2 /\ NoDup st.1 /\ sublist st.2 peers /\
  (forall p, p ∈ peers -> peerIdOf p ∈ st.1) /\
  (forall pre p post, peers = pre ++ p :: post -> peerIdOf p ∉ peerIdOf <$> pre -> p ∈ st.2).
Proof.
  induction peers as [|x peers IH] using rev_ind; simpl.
  { split_and!; try done; [constructor|by intros ? ?%elem_of_nil|]. by intros [|??] ??. }
  rewrite foldl_snoc. destruct (foldl _ _ peers) as [seen out]. simpl in IH.
  destruct IH as (-> & Hnd & Hsub & Hcov & Hfirst). unfold dedupe_step, set_has. simpl.
  case_bool_decide as Hin; simpl.
  - split_and!; [done|done|by apply sublist_inserts_r| |].
    + intros p [?| ->%list_elem_of_singleton]%elem_of_app; auto.
    + intros pre p post E Hnew. destruct post as [|y post _] using rev_ind.
      * apply app_inj_tail in E as [-> ->]. destruct Hnew.
        apply list_elem_of_fmap in Hin as (z & -> & Hz). apply list_elem_of_fmap_2.
        by eapply elem_of_sublist.
      * rewrite app_comm_cons, app_assoc in E. apply app_inj_tail in E as [-> _]. eauto.
  - rewrite set_add_notin, fmap_app by done. split_and!; [done| | | |].
    + apply NoDup_app. split_and!; [done| |apply NoDup_singleton].
      by intros ? ? ->%list_elem_of_singleton.
    + by apply sublist_app.
    + intros p [?| ->%list_elem_of_singleton]%elem_of_app; apply elem_of_app; [left; auto|right; by left].
    + intros pre p post E Hnew. apply elem_of_app. destruct post as [|y post _] using rev_ind.
      * apply app_inj_tail in E as [-> ->]. right. by left.
      * rewrite app_comm_cons, app_assoc in E. apply app_inj_tail in E as [-> _]. left. eauto.
Qed.

(** After deduplication no peer id occurs twice, every id is still there,
    the order is kept, and the entry that is kept for an id is the first one:
    a peer with several connections has one vote. *)
Theorem dedupe_correct peers :
  NoDup (peerIdOf <$> dedupePeersByPeerId peerIdOf peers) /\
  sublist (dedupePeersByPeerId peerIdOf peers) peers /\
  (forall p, p ∈ peers -> peerIdOf p ∈ peerIdOf <$> dedupePeersByPeerId peerIdOf peers) /\
  (forall pre p post, peers = pre ++ p :: post -> peerIdOf p ∉ peerIdOf <$> pre ->
     p ∈ dedupePeersByPeerId peerIdOf peers).
Proof.
  destruct (dedupe_invariant peers) as (E & ? & ? & ? & ?). unfold dedupePeersByPeerId.
  rewrite <- E. done.
Qed.
End DedupeFacts.

(** ** The binding check's comparison *)

#[export] Instance charCodes_inj : Inj (=) (=) charCodes.
Proof.
  intros a. induction a as [|c a IH]; intros [|d b]; simpl; try done.
  intros [= E1 E2]. f_equal; [|by apply IH].
  rewrite <- (ascii_N_embedding c), <- (ascii_N_embedding d). f_equal. lia.
Qed.

Lemma charCodes_range s x : x ∈ charCodes s -> 0 <= x < 256.
Proof.
  induction s as [|c s IH]; simpl; [by intros ?%elem_of_nil|].
  intros [->|?]%elem_of_cons; [|auto]. pose proof (N_ascii_bounded c). lia.
Qed.

Lemma charCodeOr0_range s i : 0 <= charCodeOr0 (charCodes s) i < 256.
Proof.
  unfold charCodeOr0. destruct (_ !! i) eqn:E; simpl; [|lia].
  by eapply charCodes_range, list_elem_of_lookup_2.
Qed.

(** The constant-time comparison of the hash-binding check returns [true]
    exactly for equal strings, whatever their lengths. *)
Theorem constantTimeHexEquals_iff a b :
  Z.of_nat (length (charCodes a)) < 2 ^ 31 -> Z.of_nat (length (charCodes b)) < 2 ^ 31 ->
  constantTimeHexEquals a b = true <-> a = b.
Proof.
  intros Ha Hb. unfold constantTimeHexEquals. rewrite Z.eqb_eq, foldl_diff by apply js_xor_range.
  rewrite js_xor_eq_0, !to_int32_small by lia. split; [|intros ->; split; [done|by apply Forall_true]].
  intros [El Hall]. apply (inj charCodes), list_eq_same_length with (length (charCodes a)); [lia..|].
  intros i x y Hi Hx Hy. rewrite Forall_forall in Hall. specialize (Hall i).
  pose proof (charCodeOr0_range a i). pose proof (charCodeOr0_range b i).
  rewrite !to_int32_small in Hall by lia. unfold charCodeOr0 in Hall. rewrite Hx, Hy in Hall.
  apply Hall. apply elem_of_seq. lia.
Qed.

Lemma constantTimeHexEquals_iff_witness : constantTimeHexEquals "0af" "0af" = true <-> "0af"%string = "0af"%string.
Proof. apply constantTimeHexEquals_iff; reflexivity. Defined.

(** ** The tuning knobs *)

Lemma effectiveK_int (k n : Z) : 1 <= k -> 0 <= n -> effectiveK k n = Z.min k n.
Proof.
  intros Hk Hn. unfold effectiveK. unfold num_of_Z at 1. cbn iota beta.
  change (Fin (inject_Z k)) with (num_of_Z k). rewrite num_le_Z.
  destruct (Z.leb_spec k 0); [lia|]. destruct (Z.leb_spec n 0); [lia|].
  destruct (Qle_bool _ _) eqn:E; rewrite Qfloor_Z.
  - apply Qle_bool_iff in E. rewrite <- Zle_Qle in E. lia.
  - apply not_true_iff_false in E. rewrite Qle_bool_iff, <- Zle_Qle in E. lia.
Qed.

Lemma effectiveK_range (k : num) n : 0 <= effectiveK k n <= Z.max 0 n.
Proof.
  unfold effectiveK. destruct k as [k| | |]; try lia.
  destruct (num_le _ _) eqn:E; [lia|]. destruct (Z.leb_spec n 0); [lia|].
  unfold num_le, num_of_Z in E. apply not_true_iff_false in E. rewrite Qle_bool_iff in E.
  apply Qnot_le_lt in E. destruct (Qle_bool k _) eqn:E'.
  - apply Qle_bool_iff in E'. split.
    + rewrite <- (Qfloor_Z 0). by apply Qfloor_resp_le, Qlt_le_weak.
    + etransitivity; [apply (Qfloor_resp_le _ _ E')|]. rewrite Qfloor_Z. lia.
  - rewrite Qfloor_Z. lia.
Qed.

Lemma defaultQuorumQ_range k : 1 <= k -> 1 <= defaultQuorumQ k <= k.
Proof.
  intros. unfold defaultQuorumQ. destruct (Z.leb_spec k 0); [lia|].
  Z.div_mod_to_equations. lia.
Qed.

Lemma effectiveQ_range (cq : num) k : 1 <= k -> 1 <= effectiveQ cq k <= k.
Proof.
  intros. unfold effectiveQ. destruct (Z.leb_spec k 0); [lia|].
  destruct cq as [q| | |]; try by apply defaultQuorumQ_range.
  destruct (num_lt (Fin q) 1) eqn:E1; [lia|]. destruct (num_lt k (Fin q)) eqn:E2; [lia|].
  unfold num_lt, num_of_Z in *. apply negb_false_iff in E1, E2. rewrite Qle_bool_iff in E1, E2.
  apply Qfloor_resp_le in E1, E2. by rewrite Qfloor_Z in E1, E2.
Qed.

(** The effective cohort size never exceeds the number of known peers, and
    the effective threshold of a non-empty cohort is between one and the cohort
    size, for every configured number: fractions, negatives, [NaN] and the
    infinities included. A misconfigured threshold neither bypasses the gate
    nor makes it unreachable. *)
Theorem effective_bounds (ck cq : num) (n : Z) :
  let k := effectiveK ck n in
  0 <= k <= Z.max 0 n /\
  (1 <= k -> 1 <= effectiveQ cq k <= k) /\
  (k = 0 -> effectiveQ cq k = 0).
Proof.
  intros k. split_and!; [apply effectiveK_range|apply effectiveK_range|apply effectiveQ_range|].
  intros ->. done.
Qed.

(** The default threshold is a strict majority, and the smallest one: it
    tolerates [(k - 1) / 2] peers that do not vote. *)
Theorem defaultQuorumQ_majority k :
  1 <= k -> k < 2 * defaultQuorumQ k /\ 2 * (defaultQuorumQ k - 1) <= k /\
  k - defaultQuorumQ k = (k - 1) / 2.
Proof.
  intros. unfold defaultQuorumQ. destruct (Z.leb_spec k 0); [lia|].
  Z.div_mod_to_equations. lia.
Qed.

Lemma defaultQuorumQ_majority_witness :
  7 < 2 * defaultQuorumQ 7 /\ 2 * (defaultQuorumQ 7 - 1) <= 7 /\ 7 - defaultQuorumQ 7 = (7 - 1) / 2.
Proof. apply defaultQuorumQ_majority. lia. Defined.

(** A knob the validator lets through: absent, or an integer of at least one
    and at most [max]. *)
Definition knob_ok (max : option Z) (value : option num) : Prop :=
  match value with
  | None => True
  | Some (Fin q) =>
      exists z, (q == inject_Z z)%Q /\ 1 <= z /\ match max with Some m => z <= m | None => True end
  | Some _ => False
  end.

Lemma num_integer_spec q :
  num_is_integer (Fin q) = true <-> exists z, (q == inject_Z z)%Q.
Proof.
  unfold num_is_integer. rewrite Qeq_bool_iff. split; [eauto|].
  intros [z E]. by rewrite E at 1; rewrite (Qfloor_comp _ _ E), Qfloor_Z.
Qed.

Lemma num_lt_comp q q' z : (q == q')%Q -> num_lt (Fin q) (num_of_Z z) = num_lt (Fin q') (num_of_Z z).
Proof. intros E. unfold num_lt, num_of_Z. by rewrite E. Qed.

Lemma num_lt_comp_r q q' z : (q == q')%Q -> num_lt (num_of_Z z) (Fin q) = num_lt (num_of_Z z) (Fin q').
Proof. intros E. unfold num_lt, num_of_Z. by rewrite E. Qed.

Lemma check_bad_iff v max :
  negb (num_is_integer v) || num_lt v 1 || match max with Some m => num_lt (num_of_Z m) v | None => false end = false
  <-> knob_ok max (Some v).
Proof.
  destruct v as [q| | |]; try by destruct max.
  rewrite !orb_false_iff, negb_false_iff, num_integer_spec. split.
  - intros [[[z E] H1] H2]. exists z. rewrite (num_lt_comp _ _ 1 E) in H1. split; [done|].
    fold (num_of_Z z) in H1. rewrite num_lt_Z in H1. split; [lia|]. destruct max as [m|]; [|done].
    rewrite (num_lt_comp_r _ _ m E) in H2. fold (num_of_Z z) in H2. rewrite num_lt_Z in H2. lia.
  - intros (z & E & H1 & H2). split; [split; [eauto|]|].
    + rewrite (num_lt_comp _ _ 1 E). fold (num_of_Z z). rewrite num_lt_Z. lia.
    + destruct max as [m|]; [|done]. rewrite (num_lt_comp_r _ _ m E). fold (num_of_Z z). rewrite num_lt_Z. lia.
Qed.

Lemma checkPositiveInt_ok name v : checkPositiveInt name v = None <-> knob_ok None v.
Proof.
  destruct v as [v|]; [|done]. rewrite <- check_bad_iff, orb_false_r. unfold checkPositiveInt.
  by destruct (_ || _).
Qed.

Lemma checkBounded_ok name v m : checkBoundedPositiveInt name v m = None <-> knob_ok (Some m) v.
Proof.
  destruct v as [v|]; [|done]. rewrite <- check_bad_iff. unfold checkBoundedPositiveInt.
  by destruct (_ || _).
Qed.

Lemma validate_spec ck cq ct :
  (validateLoadQuorumConfig ck cq ct = None <->
     knob_ok None ck /\ knob_ok None cq /\ knob_ok (Some LOAD_QUORUM_TIMEOUT_MS_MAX) ct) /\
  forall e, validateLoadQuorumConfig ck cq ct = Some e ->
    reason e = InvalidConfig /\ exists d, detail e = Some d.
Proof.
  unfold validateLoadQuorumConfig.
  rewrite <- (checkPositiveInt_ok "loadQuorumK"), <- (checkPositiveInt_ok "loadQuorumQ"),
    <- (checkBounded_ok "loadQuorumTimeoutMs").
  split.
  - destruct (checkPositiveInt "loadQuorumK" ck); [naive_solver|].
    destruct (checkPositiveInt "loadQuorumQ" cq); naive_solver.
  - unfold checkPositiveInt, checkBoundedPositiveInt, invalidConfig.
    intros e. repeat case_match; naive_solver.
Qed.

(** Startup validation accepts exactly the configurations whose knobs are
    absent or positive integers, the timeout no longer than five minutes; every
    other one is rejected with an ['invalid-config'] error. *)
Theorem validate_config_iff ck cq ct :
  (validateLoadQuorumConfig ck cq ct = None <->
     knob_ok None ck /\ knob_ok None cq /\ knob_ok (Some LOAD_QUORUM_TIMEOUT_MS_MAX) ct) /\
  forall e, validateLoadQuorumConfig ck cq ct = Some e ->
    reason e = InvalidConfig /\ exists d, detail e = Some d.
Proof. apply validate_spec. Qed.
End LoadQuorum.
