(* ===== verification/QuorumOrchestrator.v ===== *)
(** * The initial-load quorum round

    Models [packages/collabswarm/src/load-quorum-orchestrator.ts]. The probe
    callback is a parameter: for each peer it rejects ([None]) or resolves to a
    vote. The probes run concurrently in the source and their results are
    collected in the order of the peers, so a round is a function of the votes.
    Log lines are not modelled. *)
From stdpp Require Import base numbers list list_numbers strings.
From Stdlib Require Import ZArith QArith Qround Lia.
From S2P Require Import Prelude TipsHash LoadQuorum.
Import TipsHash LoadQuorum.

Open Scope Z_scope.

Module QuorumOrchestrator.

(** ** Definitions *)

Record LoadQuorumOrchestratorConfig : Type := Config {
  cfg_enabled : option bool;
  cfg_k : option num;
  cfg_q : option num;
  cfg_timeoutMs : option num;
  cfg_allowSinglePeer : option bool }.

Inductive LoadQuorumOrchestratorResult (T : Type) : Type :=
| Skipped
| NewDoc
| Narrowed (narrowedPeers : list T) (winningHashHex : string).
Arguments Skipped {T}.
Arguments NewDoc {T}.
Arguments Narrowed {T} _ _.

(** The round returns, throws a [LoadQuorumFailedError], or throws anything
    else. *)
Inductive outcome (T : Type) : Type :=
| Returned (r : LoadQuorumOrchestratorResult T)
| QuorumFailed (e : LoadQuorumFailedError)
| OtherError (e : exn).
Arguments Returned {T} _.
Arguments QuorumFailed {T} _.
Arguments OtherError {T} _.

Section Round.
  Context {T : Type} (peerIdOf : T -> string) (probeFn : T -> option vote).

(** The body of the [try]/[catch] around a probe. *)
Definition probe_contained (peer : T) : vote := default NoVote (probeFn peer).

Definition advertise (peer : T) : PeerTipAdvertisement :=
  Adv (peerIdOf peer) (probe_contained peer).

(** The K-of-Q path, after the knobs are settled. *)
Definition quorum_round (peers : list T) (path : string) (k q : Z) : outcome T :=
  let advertisements := advertise <$> take (Z.to_nat k) peers in
  match decideLoadQuorum advertisements q with
  | Err e => OtherError e
  | Ok (QuorumFail r rc eq agr) => QuorumFailed (QuorumError path (Failed r) rc eq agr [] None)
  | Ok (QuorumOk KindNewDoc _ _ _ _) => Returned NewDoc
  | Ok (QuorumOk KindTipHash key agreeing rc eq) =>
      let agreeingSet := set_of_list agreeing in
      let narrowed := List.filter (fun p => set_has (peerIdOf p) agreeingSet) peers in
      if (length narrowed =? 0)%nat
      then QuorumFailed (QuorumError path (Failed NoMajority) rc eq
             [(key, Z.of_nat (length agreeing))] [] None)
      else Returned (Narrowed narrowed key)
  end.

(** [peers] is not empty here: the effective cohort size is one. *)
Definition single_peer (peers : list T) (path : string) : outcome T :=
  match peers with
  | [] => OtherError (Throw "peers[0] is undefined")
  | probedPeer :: _ =>
      match probe_contained probedPeer with
      | NoVote => QuorumFailed (QuorumError path (Failed InsufficientResponses) 0 1 [] [] None)
      | UnknownDoc => Returned NewDoc
      | TipHash h => Returned (Narrowed [probedPeer] (tipsHashToHex h))
      end
  end.

Definition runLoadQuorum (peers : list T) (path : string)
    (config : option LoadQuorumOrchestratorConfig) : outcome T :=
  if negb (default true (config ≫= cfg_enabled)) then Returned Skipped
  else
    match validateLoadQuorumConfig (config ≫= cfg_k) (config ≫= cfg_q) (config ≫= cfg_timeoutMs) with
    | Some err => QuorumFailed (invalidConfig path (detail err))
    | None =>
        let configuredK := default (num_of_Z 3) (config ≫= cfg_k) in
        let allowSinglePeer := default false (config ≫= cfg_allowSinglePeer) in
        let k := effectiveK configuredK (Z.of_nat (length peers)) in
        let configuredQ := default (num_of_Z (defaultQuorumQ k)) (config ≫= cfg_q) in
        let q := effectiveQ configuredQ k in
        if k =? 0 then Returned Skipped
        else if (k =? 1) && negb allowSinglePeer
        then QuorumFailed (QuorumError path (Failed InsufficientResponses) 0 2 [] [] None)
        else if (k =? 1) && allowSinglePeer then single_peer peers path
        else quorum_round peers path k q
    end.

(** ** The agreed cohort *)

Lemma effectiveK_valid ck (n : Z) :
  knob_ok None ck -> 1 <= n -> 1 <= effectiveK (default (num_of_Z 3) ck) n <= n.
Proof.
  intros Hok Hn. pose proof (effectiveK_range (default (num_of_Z 3) ck) n).
  split; [|lia]. destruct ck as [[q| | |]|]; unfold id in *; cbn [from_option knob_ok] in *; try done.
  2: { rewrite effectiveK_int by lia. lia. }
  destruct Hok as (z & E & Hz & _). unfold effectiveK.
  destruct (num_le (Fin q) (num_of_Z 0)) eqn:E0.
  { unfold num_le, num_of_Z in E0. apply Qle_bool_iff in E0. rewrite E, <- Zle_Qle in E0. lia. }
  destruct (Z.leb_spec n 0); [lia|]. destruct (Qle_bool _ _).
  - rewrite (Qfloor_comp _ _ E), Qfloor_Z. lia.
  - rewrite Qfloor_Z. lia.
Qed.

Lemma elem_of_voters_advertise key ps id :
  id ∈ voters key (advertise <$> ps) <->
  exists p, p ∈ ps /\ peerIdOf p = id /\ voteKey (probe_contained p) = Some key.
Proof.
  unfold voters. rewrite list_elem_of_fmap. split.
  - intros (a & -> & Ha). apply list_elem_of_In, List.filter_In in Ha as [Ha Hk].
    apply list_elem_of_In, list_elem_of_fmap in Ha as (p & -> & Hp).
    apply bool_decide_eq_true in Hk. exists p. done.
  - intros (p & Hp & <- & Hk). exists (advertise p). split; [done|].
    apply list_elem_of_In, List.filter_In. rewrite <- list_elem_of_In. split; [by apply list_elem_of_fmap_2|].
    by apply bool_decide_eq_true.
Qed.

(** What a round on the K-of-Q path does, when its threshold is at least one
    and it probes at least one peer: the error raised for an empty narrowed
    cohort and any other error are impossible. *)
Lemma quorum_round_cases peers path (k q : Z) :
  1 <= q -> 1 <= k -> peers <> [] ->
  let probed := take (Z.to_nat k) peers in
  let advs := advertise <$> probed in
  (exists key, quorum_round peers path k q =
      Returned (Narrowed (List.filter (fun p => bool_decide (peerIdOf p ∈ voters key advs)) peers) key) /\
    isTipKey key = true /\ q <= Z.of_nat (length (voters key advs)) /\
    exists p, p ∈ probed /\ voteKey (probe_contained p) = Some key) \/
  (quorum_round peers path k q = Returned NewDoc /\
    q <= Z.of_nat (length (voters UNKNOWN_DOC_TALLY_KEY advs)) /\
    Forall (fun a => is_tip_vote a = false) advs) \/
  (exists r agr, quorum_round peers path k q =
      QuorumFailed (QuorumError path (Failed r) (responders advs) q agr [] None) /\
    forall key, eligible advs key = true -> Z.of_nat (length (voters key advs)) < q).
Proof.
  intros Hq Hk Hne probed advs. assert (Hadv : advs <> []).
  { subst advs probed. destruct peers; [done|]. destruct (Z.to_nat k) eqn:?; [lia|done]. }
  unfold quorum_round. fold probed. fold advs.
  destruct (decide_cases advs q Hq Hadv) as [(key & -> & He & Hv & Hlen & _)|(agr & -> & _ & Hall)].
  2: { right; right. eauto. }
  destruct (isTipKey key) eqn:Et.
  - left. exists key. apply voters_ne in Hv as (a & Ha & Hka).
    apply list_elem_of_fmap in Ha as (p & -> & Hp).
    set (f := fun p => set_has _ _). assert (Hf : forall p, f p = bool_decide (peerIdOf p ∈ voters key advs)).
    { intros p'. unfold f, set_has. apply bool_decide_ext, elem_of_set_of_list. }
    rewrite (List.filter_ext _ _ Hf). destruct (Nat.eqb_spec (length (List.filter (λ p, bool_decide (peerIdOf p ∈ voters key advs)) peers)) 0) as [E|]; [|by eauto 10].
    exfalso. apply nil_length_inv in E.
    assert (Hin : List.In p (List.filter (λ p, bool_decide (peerIdOf p ∈ voters key advs)) peers)).
    { apply List.filter_In. rewrite <- list_elem_of_In. split.
      - by eapply elem_of_sublist, sublist_take.
      - apply bool_decide_eq_true, elem_of_voters_advertise. eauto. }
    by rewrite E in Hin.
  - right; left. unfold isTipKey in Et. apply negb_false_iff, String.eqb_eq in Et as ->.
    split_and!; [done|done|]. apply Forall_forall. intros a Ha. apply not_true_iff_false. intros Hat.
    unfold eligible in He. cut (existsb is_tip_vote advs = true); [intros Hx; by rewrite Hx in He|].
    apply List.existsb_exists. exists a. by rewrite <- list_elem_of_In.
Qed.

(** ** The settled knobs of a round *)

Definition config_ok (config : option LoadQuorumOrchestratorConfig) : Prop :=
  knob_ok None (config ≫= cfg_k) /\ knob_ok None (config ≫= cfg_q) /\
  knob_ok (Some LOAD_QUORUM_TIMEOUT_MS_MAX) (config ≫= cfg_timeoutMs).

Definition enabled (config : option LoadQuorumOrchestratorConfig) : bool :=
  default true (config ≫= cfg_enabled).

Definition cohort_size (peers : list T) (config : option LoadQuorumOrchestratorConfig) : Z :=
  effectiveK (default (num_of_Z 3) (config ≫= cfg_k)) (Z.of_nat (length peers)).

Definition threshold (peers : list T) (config : option LoadQuorumOrchestratorConfig) : Z :=
  let k := cohort_size peers config in
  effectiveQ (default (num_of_Z (defaultQuorumQ k)) (config ≫= cfg_q)) k.

Definition probed (peers : list T) (config : option LoadQuorumOrchestratorConfig) : list T :=
  take (Z.to_nat (cohort_size peers config)) peers.

Definition single_allowed (config : option LoadQuorumOrchestratorConfig) : bool :=
  default false (config ≫= cfg_allowSinglePeer).

Lemma cohort_range peers config :
  config_ok config -> peers <> [] -> 1 <= cohort_size peers config <= Z.of_nat (length peers).
Proof.
  intros (Hk & _) Hne. apply effectiveK_valid; [done|]. destruct peers; [done|simpl; lia].
Qed.

Lemma threshold_range peers config :
  config_ok config -> peers <> [] -> 1 <= threshold peers config <= cohort_size peers config.
Proof. intros. apply effectiveQ_range. by apply cohort_range. Qed.

(** A valid, enabled round over a non-empty peer list, by cohort size. *)
Lemma run_unfold peers path config :
  enabled config = true -> config_ok config -> peers <> [] ->
  runLoadQuorum peers path config =
  if cohort_size peers config =? 1 then
    if single_allowed config then single_peer peers path
    else QuorumFailed (QuorumError path (Failed InsufficientResponses) 0 2 [] [] None)
  else quorum_round peers path (cohort_size peers config) (threshold peers config).
Proof.
  intros Hen Hok Hne. unfold runLoadQuorum. unfold enabled in Hen. rewrite Hen. cbn [negb].
  destruct (validate_spec (config ≫= cfg_k) (config ≫= cfg_q) (config ≫= cfg_timeoutMs)) as [Hv _].
  rewrite (proj2 Hv Hok). fold (cohort_size peers config). fold (threshold peers config).
  fold (single_allowed config). pose proof (cohort_range peers config Hok Hne).
  destruct (Z.eqb_spec (cohort_size peers config) 0); [lia|].
  by destruct (cohort_size peers config =? 1), (single_allowed config).
Qed.

Lemma run_invalid peers path config :
  enabled config = true -> ~ config_ok config ->
  exists d, runLoadQuorum peers path config = QuorumFailed (invalidConfig path (Some d)).
Proof.
  intros Hen Hok. unfold runLoadQuorum. unfold enabled in Hen. rewrite Hen. cbn [negb].
  destruct (validate_spec (config ≫= cfg_k) (config ≫= cfg_q) (config ≫= cfg_timeoutMs)) as [Hv He].
  destruct (validateLoadQuorumConfig _ _ _) as [e|].
  - destruct (He e eq_refl) as (_ & d & ->). eauto.
  - exfalso. by apply Hok, Hv.
Qed.

Lemma run_no_peers path config :
  enabled config = true -> config_ok config -> runLoadQuorum [] path config = Returned Skipped.
Proof.
  intros Hen Hok. unfold runLoadQuorum. unfold enabled in Hen. rewrite Hen. cbn [negb].
  destruct (validate_spec (config ≫= cfg_k) (config ≫= cfg_q) (config ≫= cfg_timeoutMs)) as [Hv _].
  rewrite (proj2 Hv Hok). pose proof (effectiveK_range (default (num_of_Z 3) (config ≫= cfg_k)) 0).
  cbn [length]. change (Z.of_nat 0) with 0. destruct (Z.eqb_spec (effectiveK (default (num_of_Z 3) (config ≫= cfg_k)) 0) 0); [done|lia].
Qed.

(** ** What a round promises

    The outcomes of a round, each with the circumstances it is allowed in. *)
Inductive round_spec (peers : list T) (path : string) (config : option LoadQuorumOrchestratorConfig)
    : outcome T -> Prop :=
| SpecDisabled : enabled config = false -> round_spec peers path config (Returned Skipped)
| SpecInvalid d : enabled config = true -> ~ config_ok config ->
    round_spec peers path config (QuorumFailed (invalidConfig path (Some d)))
| SpecNobody : enabled config = true -> config_ok config -> peers = [] ->
    round_spec peers path config (Returned Skipped)
| SpecRefused : enabled config = true -> config_ok config -> peers <> [] ->
    cohort_size peers config = 1 -> single_allowed config = false ->
    round_spec peers path config
      (QuorumFailed (QuorumError path (Failed InsufficientResponses) 0 2 [] [] None))
| SpecSingle p rest : enabled config = true -> config_ok config -> peers = p :: rest ->
    cohort_size peers config = 1 -> single_allowed config = true ->
    round_spec peers path config
      match probe_contained p with
      | NoVote => QuorumFailed (QuorumError path (Failed InsufficientResponses) 0 1 [] [] None)
      | UnknownDoc => Returned NewDoc
      | TipHash h => Returned (Narrowed [p] (tipsHashToHex h))
      end
| SpecAgreed h : enabled config = true -> config_ok config -> 1 < cohort_size peers config ->
    threshold peers config <= Z.of_nat (length (voters (tipsHashToHex h) (advertise <$> probed peers config))) ->
    (exists p, p ∈ probed peers config /\ probe_contained p = TipHash h) ->
    round_spec peers path config
      (Returned (Narrowed (List.filter (fun p => bool_decide
         (peerIdOf p ∈ voters (tipsHashToHex h) (advertise <$> probed peers config))) peers) (tipsHashToHex h)))
| SpecDisclaimed : enabled config = true -> config_ok config -> 1 < cohort_size peers config ->
    threshold peers config <= Z.of_nat (length (voters UNKNOWN_DOC_TALLY_KEY (advertise <$> probed peers config))) ->
    Forall (fun p => forall h, probe_contained p <> TipHash h) (probed peers config) ->
    round_spec peers path config (Returned NewDoc)
| SpecNoQuorum r agr : enabled config = true -> config_ok config -> 1 < cohort_size peers config ->
    (forall key, eligible (advertise <$> probed peers config) key = true ->
       Z.of_nat (length (voters key (advertise <$> probed peers config))) < threshold peers config) ->
    round_spec peers path config
      (QuorumFailed (QuorumError path (Failed r) (responders (advertise <$> probed peers config))
         (threshold peers config) agr [] None)).

Lemma cohort_nonempty peers config : 1 <= cohort_size peers config -> peers <> [].
Proof.
  intros Hk ->. unfold cohort_size in Hk. cbn [length] in Hk.
  pose proof (effectiveK_range (default (num_of_Z 3) (config ≫= cfg_k)) (Z.of_nat 0)). lia.
Qed.

Lemma tip_key_vote p key :
  voteKey (probe_contained p) = Some key -> isTipKey key = true ->
  exists h, key = tipsHashToHex h /\ probe_contained p = TipHash h.
Proof. destruct (probe_contained p) as [h| |]; simpl; intros; simplify_eq; eauto. Qed.

Lemma run_meets_spec peers path config : round_spec peers path config (runLoadQuorum peers path config).
Proof.
  destruct (enabled config) eqn:Hen.
  2: { replace (runLoadQuorum peers path config) with (@Returned T Skipped); [by constructor|].
       unfold runLoadQuorum. unfold enabled in Hen. by rewrite Hen. }
  destruct (validate_spec (config ≫= cfg_k) (config ≫= cfg_q) (config ≫= cfg_timeoutMs)) as [Hv _].
  destruct (validateLoadQuorumConfig _ _ _) as [e|].
  { assert (Hno : ~ config_ok config) by (intros Hok; by apply Hv in Hok).
    destruct (run_invalid peers path config Hen Hno) as [d ->]. by constructor. }
  assert (Hok : config_ok config) by by apply Hv. clear Hv.
  destruct (decide (length peers = 0)%nat) as [->%nil_length_inv|Hl].
  { rewrite run_no_peers by done. by constructor. }
  assert (Hne : peers <> []) by by intros ->. rewrite run_unfold by done.
  pose proof (cohort_range peers config Hok Hne). pose proof (threshold_range peers config Hok Hne).
  destruct (Z.eqb_spec (cohort_size peers config) 1) as [E1|].
  - destruct (single_allowed config) eqn:Es; [|by constructor].
    destruct peers as [|p rest]; [done|]. by apply (SpecSingle _ _ _ p rest).
  - destruct (quorum_round_cases peers path (cohort_size peers config) (threshold peers config))
      as [(key & -> & Ht & Hlen & p & Hp & Hk)|[(-> & Hlen & Hall)|(r & agr & -> & Hall)]]; try done || lia.
    + destruct (tip_key_vote p key Hk Ht) as (h & -> & Hh). apply SpecAgreed; eauto; lia.
    + apply SpecDisclaimed; try done; [lia|]. rewrite Forall_fmap in Hall. revert Hall.
      apply List.Forall_impl. intros p Hp h Hh. unfold compose, is_tip_vote, advertise in Hp.
      simpl in Hp. by rewrite Hh in Hp.
    + apply SpecNoQuorum; try done. lia.
Qed.

(** Peers whose ids are distinct: being in the cohort by id is being in it. *)
Lemma cohort_member_voted peers ps key p :
  NoDup (peerIdOf <$> peers) -> ps `sublist_of` peers -> p ∈ peers ->
  peerIdOf p ∈ voters key (advertise <$> ps) -> p ∈ ps /\ voteKey (probe_contained p) = Some key.
Proof.
  intros Hnd Hsub Hp (p' & Hp' & Hid & Hk)%elem_of_voters_advertise.
  assert (p' ∈ peers) as Hin by by eapply elem_of_sublist.
  cut (p' = p); [by intros ->|]. revert Hid. by apply (NoDup_fmap_elem peers peerIdOf).
Qed.

(** ** Theorems *)

(** The error contract: a round returns or fails with a
    [LoadQuorumFailedError] that names the document; no probe rejection, no
    configuration and no vote pattern lets another exception escape. *)
Theorem run_error_contract peers path config :
  match runLoadQuorum peers path config with
  | Returned _ => True
  | QuorumFailed e => documentPath e = path
  | OtherError _ => False
  end.
Proof. destruct (run_meets_spec peers path config); try done. by destruct (probe_contained p). Qed.

(** The gate is skipped only when it is disabled, or when it is validly
    configured and there is nobody to ask. In particular an invalid knob
    always raises ['invalid-config'] and never degrades to an unprotected
    load. *)
Theorem run_skipped_iff peers path config :
  runLoadQuorum peers path config = Returned Skipped <->
  enabled config = false \/ (config_ok config /\ peers = []).
Proof.
  destruct (run_meets_spec peers path config);
    try (pose proof (cohort_nonempty peers config ltac:(lia))); split; try (by auto);
    try (intros [?|[? ?]]; congruence).
  by destruct (probe_contained p).
Qed.

(** A round that returns a cohort enforced the quorum. The peers' ids being
    distinct (see [dedupePeersByPeerId]), the cohort is not empty, lists peers
    in the order they were given, contains only peers that were probed and
    answered the winning hash, and has at least [threshold] of them; a lone
    peer is accepted only with the explicit opt-in. *)
Theorem run_narrowed_sound peers path config ps key :
  NoDup (peerIdOf <$> peers) ->
  runLoadQuorum peers path config = Returned (Narrowed ps key) ->
  ps <> [] /\ ps `sublist_of` peers /\
  Forall (fun p => p ∈ probed peers config /\ exists h, probe_contained p = TipHash h /\ tipsHashToHex h = key) ps /\
  threshold peers config <= Z.of_nat (length ps) /\
  (length ps = 1%nat -> cohort_size peers config = 1 -> single_allowed config = true).
Proof.
  intros Hnd E. pose proof (run_meets_spec peers path config) as Hs. rewrite E in Hs.
  inversion Hs as [| | | |p rest Hen Hok Hpr Hk Hsa Heq|h Hen Hok Hk Hq (p & Hp & Hv) Heq| |]; subst.
  - destruct (probe_contained p) as [h| |] eqn:Ep; simplify_eq.
    pose proof (threshold_range (p :: rest) config Hok ltac:(done)).
    split_and!; [done|by constructor; apply sublist_nil_l| |simpl length; lia|done].
    apply Forall_singleton. unfold probed. rewrite Hk. change (Z.to_nat 1) with 1%nat.
    split; [by left|eauto].
  - set (ps := List.filter _ _) in *.
    assert (Hmem : forall x, x ∈ ps <-> x ∈ probed peers config /\ probe_contained x = TipHash h).
    { intros x. unfold ps. rewrite list_elem_of_In, List.filter_In, <- list_elem_of_In, bool_decide_eq_true.
      assert (Hsub : probed peers config `sublist_of` peers) by apply sublist_take. split.
      - intros [Hx Hv']. destruct (cohort_member_voted peers _ _ x Hnd Hsub Hx Hv') as [Hin Hkx].
        split; [done|]. destruct (tip_key_vote x _ Hkx (hex_is_tip_key h)) as (h' & Eh & ->).
        by apply (inj tipsHashToHex) in Eh as ->.
      - intros [Hx Hvx]. split; [by eapply elem_of_sublist|]. apply elem_of_voters_advertise.
        exists x. by rewrite Hvx. }
    split_and!; [|apply list_filter_sublist| | |lia].
    + intros Enil. apply (not_elem_of_nil p). rewrite <- Enil. by apply Hmem.
    + apply Forall_forall. intros x [? ?]%Hmem. eauto.
    + etransitivity; [exact Hq|]. apply inj_le. rewrite <- (length_fmap peerIdOf ps).
      apply submseteq_length, NoDup_submseteq.
      * unfold voters. eapply sublist_NoDup; [exact Hnd|].
        etransitivity; [apply fmap_sublist, list_filter_sublist|]. rewrite <- list_fmap_compose.
        apply fmap_sublist, sublist_take.
      * intros id (x & Hx & <- & Hkx)%elem_of_voters_advertise.
        apply list_elem_of_fmap_2, Hmem. split; [done|].
        destruct (tip_key_vote x _ Hkx (hex_is_tip_key h)) as (h' & Eh & ->).
        by apply (inj tipsHashToHex) in Eh as ->.
Qed.

(** C2. Byzantine safety of the whole round: if fewer than [threshold] of the
    probed peers answer a tip hash other than the honest one and at least one
    probed peer answers the honest one, then the round either fails, or returns
    a cohort of peers that all answered the honest hash. It never reports the
    document as new, however many peers disclaim it or reject the probe. *)
Theorem run_byzantine_safe peers path config h :
  NoDup (peerIdOf <$> peers) -> enabled config = true -> 1 < cohort_size peers config ->
  (exists p, p ∈ probed peers config /\ probe_contained p = TipHash h) ->
  Z.of_nat (length (dissenting h (advertise <$> probed peers config))) < threshold peers config ->
  match runLoadQuorum peers path config with
  | Returned (Narrowed ps key) => key = tipsHashToHex h /\ Forall (fun p => probe_contained p = TipHash h) ps
  | Returned _ => False
  | QuorumFailed _ => True
  | OtherError _ => False
  end.
Proof.
  intros Hnd Hen Hk (p0 & Hp0 & Hh0) Hd.
  destruct (run_meets_spec peers path config) as [| |? ? Hnil| | |h' _ Hok _ Hq (p & Hp & Hv)|? ? ? ? Hall|]; try done; try congruence.
  - by destruct (cohort_nonempty peers config ltac:(lia)).
  - lia.
  - assert (h' = h) as ->.
    { destruct (decide (h' = h)); [done|].
      pose proof (voters_dissenting h h' (advertise <$> probed peers config) ltac:(done)). lia. }
    split; [done|]. apply Forall_forall. intros x Hx.
    apply list_elem_of_In, List.filter_In in Hx as [Hx Hb]. apply list_elem_of_In in Hx.
    apply bool_decide_eq_true in Hb.
    destruct (cohort_member_voted peers (probed peers config) _ x Hnd ltac:(apply sublist_take) Hx Hb) as [_ Hkx].
    destruct (tip_key_vote x _ Hkx (hex_is_tip_key h)) as (h' & Eh & ->).
    by apply (inj tipsHashToHex) in Eh as ->.
  - rewrite Forall_forall in Hall. by destruct (Hall p0 Hp0 h).
Qed.

(** The single-peer policy: when the cohort is one peer, then without the
    opt-in the round refuses before any vote counts and reports that two
    agreeing peers are required; with it, the outcome is that peer's answer,
    and the load is narrowed to the peer that was asked. *)
Theorem run_single_peer peers path config p rest :
  peers = p :: rest -> enabled config = true -> config_ok config -> cohort_size peers config = 1 ->
  runLoadQuorum peers path config =
  if single_allowed config then
    match probe_contained p with
    | TipHash h => Returned (Narrowed [p] (tipsHashToHex h))
    | UnknownDoc => Returned NewDoc
    | NoVote => QuorumFailed (QuorumError path (Failed InsufficientResponses) 0 1 [] [] None)
    end
  else QuorumFailed (QuorumError path (Failed InsufficientResponses) 0 2 [] [] None).
Proof. intros -> Hen Hok Hk. rewrite run_unfold, Hk by done. done. Qed.
End Round.

(** ** Witnesses: four peers, of which one lies, one rejects the probe. *)

Definition demo_probe (p : string) : option vote :=
  if String.eqb p "liar" then Some (TipHash [Init.Byte.xff])
  else if String.eqb p "down" then None else Some (TipHash [Init.Byte.x01]).

Definition demo_peers : list string := ["liar"; "a"; "down"; "b"]%string.

Definition demo_config : option LoadQuorumOrchestratorConfig :=
  Some (Config None (Some (num_of_Z 4)) (Some (num_of_Z 2)) None None).

Lemma run_narrowed_sound_witness :
  ["a"; "b"]%string <> [] /\ ["a"; "b"]%string `sublist_of` demo_peers /\
  Forall (fun p => p ∈ probed demo_peers demo_config /\
    exists h, probe_contained demo_probe p = TipHash h /\ tipsHashToHex h = "01"%string) ["a"; "b"]%string /\
  threshold demo_peers demo_config <= 2 /\
  (2%nat = 1%nat -> cohort_size demo_peers demo_config = 1 -> single_allowed demo_config = true).
Proof.
  apply (run_narrowed_sound id demo_probe demo_peers "/doc" demo_config ["a"; "b"]%string "01").
  - by apply (bool_decide_unpack _).
  - vm_compute. reflexivity.
Defined.

Lemma run_byzantine_safe_witness :
  match runLoadQuorum id demo_probe demo_peers "/doc" demo_config with
  | Returned (Narrowed ps key) =>
      key = tipsHashToHex [Init.Byte.x01] /\ Forall (fun p => probe_contained demo_probe p = TipHash [Init.Byte.x01]) ps
  | Returned _ => False
  | QuorumFailed _ => True
  | OtherError _ => False
  end.
Proof.
  apply run_byzantine_safe.
  - by apply (bool_decide_unpack _).
  - reflexivity.
  - vm_compute. reflexivity.
  - exists "a"%string. split; [by apply (bool_decide_unpack _)|reflexivity].
  - vm_compute. reflexivity.
Defined.

Lemma run_single_peer_witness :
  runLoadQuorum id demo_probe ["a"%string] "/doc" None =
  QuorumFailed (QuorumError "/doc" (Failed InsufficientResponses) 0 2 [] [] None).
Proof.
  apply (run_single_peer id demo_probe ["a"%string] "/doc" None "a" []); [done|done|by repeat split|].
  vm_compute. reflexivity.
Defined.
End QuorumOrchestrator.
