(* ===== verification/ChangeTree.v ===== *)
(** * The change tree of a sync message

    Models [packages/collabswarm/src/crdt-change-node.ts],
    [merkle-cross-links.ts] and [blockstore-gc.ts]: the Merkle-CRDT tree a
    message carries, the walks that merge it, extract its frontier, search it
    and list it, the recent-tip list used for cross-links, and the choice of
    blocks that compaction may delete.

    A tree comes out of a deserializer, so it is finite; its [children] objects
    are association lists in key order. CIDs are strings and are never
    integer-like, so the order of [Object.entries] is the insertion order. *)
From stdpp Require Import base numbers list list_numbers strings.
From Stdlib Require Import ZArith Lia.
From S2P Require Import Prelude.

Module ChangeTree.

(** ** Data *)

Inductive CRDTChangeNodeKind : Type := DocumentNode | WriterNode | ReaderNode.

#[export] Instance kind_eq_dec : EqDecision CRDTChangeNodeKind.
Proof. solve_decision. Defined.

(** [children?: { [hash]: node } | false] *)
Inductive children_of (A : Type) : Type :=
| NoChildren
| DeferredChildren
| Children (l : list (string * A)).
Arguments NoChildren {A}.
Arguments DeferredChildren {A}.
Arguments Children {A} _.

Inductive CRDTChangeNode (C : Type) : Type :=
| Node (keyID : option string) (kind : CRDTChangeNodeKind) (change : option C)
    (children : children_of (CRDTChangeNode C)).
Arguments Node {C} _ _ _ _.

Definition node_kind {C} (n : CRDTChangeNode C) : CRDTChangeNodeKind :=
  let 'Node _ kd _ _ := n in kd.
Definition node_change {C} (n : CRDTChangeNode C) : option C :=
  let 'Node _ _ c _ := n in c.
Definition node_children {C} (n : CRDTChangeNode C) : children_of (CRDTChangeNode C) :=
  let 'Node _ _ _ ch := n in ch.

Definition MAX_RECENT_TIPS : Z := 4.
Definition MAX_CROSS_LINKS : Z := 3.

Record RecentTip : Type := Tip { tip_cid : string; tip_kind : CRDTChangeNodeKind }.

(** ** Cross-links and recent tips *)

(** The loop of [selectCrossLinks], over the tips from newest to oldest; the
    state is [out] and [seen]. *)
Fixpoint selectCrossLinks_loop (tips : list RecentTip) (primaryParentId : option string)
    (newCid : string) (maxCrossLinks : Z) (out : list RecentTip) (seen : list string) : list RecentTip :=
  match tips with
  | [] => out
  | tip :: tips' =>
      if (maxCrossLinks <=? Z.of_nat (length out))%Z then out
      else if bool_decide (Some (tip_cid tip) = primaryParentId)
      then selectCrossLinks_loop tips' primaryParentId newCid maxCrossLinks out seen
      else if bool_decide (tip_cid tip = newCid)
      then selectCrossLinks_loop tips' primaryParentId newCid maxCrossLinks out seen
      else if set_has (tip_cid tip) seen
      then selectCrossLinks_loop tips' primaryParentId newCid maxCrossLinks out seen
      else selectCrossLinks_loop tips' primaryParentId newCid maxCrossLinks
             (out ++ [tip]) (set_add (tip_cid tip) seen)
  end.

Definition selectCrossLinks (recentTips : list RecentTip) (primaryParentId : option string)
    (newCid : string) (maxCrossLinks : Z) : list RecentTip :=
  selectCrossLinks_loop (rev recentTips) primaryParentId newCid maxCrossLinks [] [].

(** [splice(findIndex(...), 1)] *)
Fixpoint remove_first_tip (cid : string) (tips : list RecentTip) : list RecentTip :=
  match tips with
  | [] => []
  | t :: tips' => if bool_decide (tip_cid t = cid) then tips' else t :: remove_first_tip cid tips'
  end.

(** [while (recentTips.length > cap) recentTips.shift()] *)
Fixpoint shift_while (cap : Z) (tips : list RecentTip) : list RecentTip :=
  match tips with
  | [] => []
  | t :: tips' => if (cap <? Z.of_nat (length (t :: tips')))%Z then shift_while cap tips' else t :: tips'
  end.

Definition trackTipInList (recentTips : list RecentTip) (entry : RecentTip) (maxRecentTips : Z)
    : list RecentTip :=
  if String.eqb (tip_cid entry) "" then recentTips
  else
    let cap := Z.max 0 maxRecentTips in
    if (cap =? 0)%Z then []
    else shift_while cap (remove_first_tip (tip_cid entry) recentTips ++ [entry]).

(** ** Walks *)

Section Walks.
  Context {C : Type}.

Abbreviation node := (CRDTChangeNode C).

(** [MergedSyncEntry] *)
Definition MergedSyncEntry : Type := (string * CRDTChangeNodeKind * option C)%type.

Record merge_state : Type := MergeState {
  byCid : list (string * MergedSyncEntry);
  walked : list string }.

Definition record_entry (m : list (string * MergedSyncEntry)) (id : string) (n : node)
    : list (string * MergedSyncEntry) :=
  match map_get id m with
  | Some (_, _, c) =>
      match c, node_change n with
      | None, Some _ => map_set id (id, node_kind n, node_change n) m
      | _, _ => m
      end
  | None => map_set id (id, node_kind n, node_change n) m
  end.

Section Merge.
  Context (localRootId : option string) (localHashes : list string).

Definition is_local (id : string) : bool :=
  bool_decide (Some id = localRootId) || set_has id localHashes.

Fixpoint merge_walk (nodeId : option string) (n : node) (st : merge_state) : result merge_state :=
  match nodeId with
  | None => Ok st
  | Some id =>
      if is_local id then Ok st
      else
        let byCid' := record_entry (byCid st) id n in
        if set_has id (walked st) then Ok (MergeState byCid' (walked st))
        else
          match n with
          | Node _ _ _ NoChildren => Ok (MergeState byCid' (walked st))
          | Node _ _ _ DeferredChildren => throw "IPLD dereferencing is not supported yet!"
          | Node _ _ _ (Children l) =>
              (fix go (l : list (string * node)) (st : merge_state) : result merge_state :=
                 match l with
                 | [] => Ok st
                 | (childId, childNode) :: l' =>
                     let? st' := merge_walk (Some childId) childNode st in go l' st'
                 end) l (MergeState byCid' (set_add id (walked st)))
          end
  end.

Definition mergeRemoteSyncTree (remoteRootId : option string) (remoteRoot : node)
    : result (list MergedSyncEntry) :=
  let? st := merge_walk remoteRootId remoteRoot (MergeState [] []) in
  Ok ((byCid st).*2).
End Merge.

(** [collectReferencedAncestors]; the state is [visited] and [out]. *)
Fixpoint ancestors_walk (nodeId : option string) (n : node) (st : list string * list string)
    : list string * list string :=
  let enter (st : list string * list string) :=
    match n with
    | Node _ _ _ (Children l) =>
        (fix go (l : list (string * node)) (st : list string * list string) :=
           match l with
           | [] => st
           | (childId, childNode) :: l' =>
               go l' (ancestors_walk (Some childId) childNode (fst st, set_add childId (snd st)))
           end) l st
    | _ => st
    end in
  match nodeId with
  | None => enter st
  | Some id => if set_has id (fst st) then st else enter (set_add id (fst st), snd st)
  end.

Definition collectReferencedAncestors (rootId : option string) (root : node) (out : list string)
    : list string :=
  snd (ancestors_walk rootId root ([], out)).

(** [computeServedFrontier]. *)
Record frontier_state : Type := FrontierState {
  cids : list string;
  referenced : list string;
  visited : list string }.

Fixpoint frontier_walk (nodeId : option string) (n : node) (st : frontier_state) : frontier_state :=
  let enter (st : frontier_state) :=
    match n with
    | Node _ _ _ (Children l) =>
        (fix go (l : list (string * node)) (st : frontier_state) : frontier_state :=
           match l with
           | [] => st
           | (childId, childNode) :: l' =>
               go l' (frontier_walk (Some childId) childNode
                        (FrontierState (set_add childId (cids st)) (set_add childId (referenced st)) (visited st)))
           end) l st
    | _ => st
    end in
  match nodeId with
  | None => enter st
  | Some id =>
      if set_has id (visited st) then st
      else enter (FrontierState (set_add id (cids st)) (referenced st) (set_add id (visited st)))
  end.

Definition computeServedFrontier (changeId : option string) (changes : option node)
    (snapshotBoundaryCid : option string) : list string :=
  let st := match changes with
            | Some n => frontier_walk changeId n (FrontierState [] [] [])
            | None => FrontierState [] [] []
            end in
  let all := match snapshotBoundaryCid with
             | Some b => if String.eqb b "" then cids st else set_add b (cids st)
             | None => cids st
             end in
  List.filter (fun cid => negb (set_has cid (referenced st))) all.

(** [treeContainsCid]: the walk returns its answer with [visited]. *)
Fixpoint contains_walk (targetCid : string) (nodeId : option string) (n : node) (vis : list string)
    : bool * list string :=
  let enter (vis : list string) :=
    match n with
    | Node _ _ _ (Children l) =>
        (fix go (l : list (string * node)) (vis : list string) : bool * list string :=
           match l with
           | [] => (false, vis)
           | (childId, childNode) :: l' =>
               if bool_decide (childId = targetCid) then (true, vis)
               else
                 let '(found, vis') := contains_walk targetCid (Some childId) childNode vis in
                 if found then (true, vis') else go l' vis'
           end) l vis
    | _ => (false, vis)
    end in
  match nodeId with
  | None => enter vis
  | Some id => if set_has id vis then (false, vis) else enter (set_add id vis)
  end.

Definition treeContainsCid (rootId : option string) (root : option node) (targetCid : option string) : bool :=
  match targetCid with
  | None => false
  | Some target =>
      if String.eqb target "" then false
      else
        match root with
        | None => false
        | Some r =>
            if bool_decide (rootId = Some target) then true else fst (contains_walk target rootId r [])
        end
  end.

(** [collectAllCidsInTree]; the state is [cids] and [visited]. *)
Fixpoint all_cids_walk (nodeId : option string) (n : node) (st : list string * list string)
    : list string * list string :=
  let enter (st : list string * list string) :=
    match n with
    | Node _ _ _ (Children l) =>
        (fix go (l : list (string * node)) (st : list string * list string) :=
           match l with
           | [] => st
           | (childId, childNode) :: l' =>
               go l' (all_cids_walk (Some childId) childNode (set_add childId (fst st), snd st))
           end) l st
    | _ => st
    end in
  match nodeId with
  | None => enter st
  | Some id => if set_has id (snd st) then st else enter (set_add id (fst st), set_add id (snd st))
  end.

Definition collectAllCidsInTree (rootId : option string) (root : option node) : list string :=
  match root with
  | None =>
      match rootId with Some id => if String.eqb id "" then [] else [id] | None => [] end
  | Some r => fst (all_cids_walk rootId r ([], []))
  end.

Fixpoint stripInlineChanges (n : node) : node :=
  match n with
  | Node k kd _ (Children l) =>
      Node k kd None (Children ((fix go (l : list (string * node)) :=
        match l with
        | [] => []
        | (childId, child) :: l' => (childId, stripInlineChanges child) :: go l'
        end) l))
  | Node k kd _ ch => Node k kd None ch
  end.

(** ** Garbage collection *)

(** The breadth-first loop of [collectTreeCIDs]; one unit of fuel per dequeued
    node, and [tree_size] of them are enough. *)
Fixpoint collect_loop (fuel : nat) (queue : list node) (acc : list string) : result (list string) :=
  match queue with
  | [] => Ok acc
  | current :: queue' =>
      match fuel with
      | O => Err OutOfFuel
      | S fuel' =>
          match node_children current with
          | Children l => collect_loop fuel' (queue' ++ l.*2) (foldl (flip set_add) acc (l.*1))
          | _ => collect_loop fuel' queue' acc
          end
      end
  end.

Fixpoint tree_size (n : node) : nat :=
  match n with
  | Node _ _ _ (Children l) =>
      S ((fix go (l : list (string * node)) : nat :=
            match l with [] => 0 | (_, c) :: l' => tree_size c + go l' end) l)
  | _ => 1
  end.

Definition collectTreeCIDs (rootCID : string) (root : node) : result (list string) :=
  collect_loop (tree_size root) [root] [rootCID].

Definition filterDeletableCIDs (candidates : list string) (retainedRootCID : option string)
    (retainedRoot : option node) (protectedCIDs : list string) : result (list string) :=
  let? reachable :=
    match retainedRootCID, retainedRoot with
    | Some cid, Some r => if String.eqb cid "" then Ok [] else collectTreeCIDs cid r
    | _, _ => Ok []
    end in
  let protectedSet := set_of_list protectedCIDs in
  Ok (foldl (fun out cid =>
         if set_has cid reachable then out
         else if set_has cid protectedSet then out
         else set_add cid out) [] candidates).
End Walks.

(** ** Loading a historical block *)

(** What a [catch] clause sees: an object with the two fields the code looks
    at, or anything else. *)
Inductive caught : Type :=
| CaughtObject (code name : option string)
| CaughtOther.

Definition isBlockNotFoundError (err : caught) : bool :=
  match err with
  | CaughtOther => false
  | CaughtObject code name =>
      if bool_decide (code = Some "ERR_NOT_FOUND"%string) then true
      else bool_decide (name = Some "NotFoundError"%string)
  end.

Inductive load_outcome (A : Type) : Type :=
| Loaded (a : A)
| Unknown
| Missing
| InvalidCid
| Rethrown (err : caught).
Arguments Loaded {A} _.
Arguments Unknown {A}.
Arguments Missing {A}.
Arguments InvalidCid {A}.
Arguments Rethrown {A} _.

(** [Unknown] and [Missing] both return [undefined]; [onMissing] is called for
    [Missing] only. *)
Definition loadChangeBlock {P A : Type} (cid : string) (knownHashes : list string)
    (parseCID : string -> option P) (fetch : P -> A + caught) : load_outcome A :=
  if negb (set_has cid knownHashes) then Unknown
  else
    match parseCID cid with
    | None => InvalidCid
    | Some p =>
        match fetch p with
        | inl a => Loaded a
        | inr err => if isBlockNotFoundError err then Missing else Rethrown err
        end
    end.

(** ** Occurrences

    [occ rid r id n]: the node [n] occurs in the tree [r] under the id [id];
    [rid] is the id of the root. *)
Section Theory.
  Context {C : Type}.

Abbreviation node := (CRDTChangeNode C).

Lemma node_ind' (P : node -> Prop) :
  (forall k kd c ch,
     match ch with Children l => Forall (fun p => P (snd p)) l | _ => True end -> P (Node k kd c ch)) ->
  forall n, P n.
Proof.
  intros H. fix IH 1. intros [k kd c [| |l]]; apply H; [exact I..|].
  induction l as [|[s n] l IHl]; constructor; [apply IH|exact IHl].
Qed.

Inductive occ (rid : option string) (r : node) : option string -> node -> Prop :=
| occ_root : occ rid r rid r
| occ_child id n l c m :
    occ rid r id n -> node_children n = Children l -> (c, m) ∈ l -> occ rid r (Some c) m.

Lemma occ_trans rid r id n id' n' :
  occ rid r id n -> occ id n id' n' -> occ rid r id' n'.
Proof. intros H1 H2. induction H2; [done|]. by eapply occ_child. Qed.

(** Content addressing, as far as a walk relies on it: two occurrences of a CID
    that both carry children carry the same ones. *)
Definition inline_coherent (rid : option string) (r : node) : Prop :=
  forall c n1 n2 l1 l2, occ rid r (Some c) n1 -> occ rid r (Some c) n2 ->
    node_children n1 = Children l1 -> node_children n2 = Children l2 -> l1 = l2.

(** The stronger form, under which a CID is not a bare reference in one place
    and carries children in another. *)
Definition coherent (rid : option string) (r : node) : Prop :=
  forall c n1 n2, occ rid r (Some c) n1 -> occ rid r (Some c) n2 -> node_children n1 = node_children n2.

(** ** Merging *)

Section MergeFacts.
  Context (localRootId : option string) (localHashes : list string).

Abbreviation local := (is_local localRootId localHashes).
Abbreviation mwalk := (merge_walk localRootId localHashes).

Fixpoint merge_list (l : list (string * node)) (st : merge_state) : result merge_state :=
  match l with
  | [] => Ok st
  | (childId, childNode) :: l' =>
      let? st' := mwalk (Some childId) childNode st in merge_list l' st'
  end.

Lemma merge_walk_eq id n st :
  mwalk (Some id) n st =
  if local id then Ok st else
  let m := record_entry (byCid st) id n in
  if set_has id (walked st) then Ok (MergeState m (walked st)) else
  match node_children n with
  | NoChildren => Ok (MergeState m (walked st))
  | DeferredChildren => throw "IPLD dereferencing is not supported yet!"
  | Children l => merge_list l (MergeState m (set_add id (walked st)))
  end.
Proof. by destruct n as [? ? ? []]. Qed.

(** Occurrences the merge looks at: below no locally known CID. *)
Inductive live (rid : string) (r : node) : string -> node -> Prop :=
| live_root : local rid = false -> live rid r rid r
| live_child id n l c m :
    live rid r id n -> node_children n = Children l -> (c, m) ∈ l -> local c = false ->
    live rid r c m.

Lemma live_occ rid r c n : live rid r c n -> occ (Some rid) r (Some c) n /\ local c = false.
Proof.
  induction 1 as [|id n l c m Hl [IH _] Hch Hin Hc]; [split; [constructor|done]|].
  split; [by eapply occ_child|done].
Qed.

(** The result of a merge so far, as a function of what was seen. *)
Definition has_entry (st : merge_state (C:=C)) (c : string) (n : node) : Prop :=
  exists kd ch, map_get c (byCid st) = Some (c, kd, ch) /\ (is_Some (node_change n) -> is_Some ch).

Definition covered (st : merge_state) (c : string) (n : node) : Prop :=
  local c = true \/
  (has_entry st c n /\ forall l, node_children n = Children l -> c ∈ walked st).

(** [ext st st']: entries are only added or upgraded from deferred to inline. *)
Definition ext (st st' : merge_state (C:=C)) : Prop :=
  (forall c kd ch, map_get c (byCid st) = Some (c, kd, ch) ->
     exists kd' ch', map_get c (byCid st') = Some (c, kd', ch') /\ (is_Some ch -> ch' = ch)) /\
  walked st ⊆ walked st'.

Lemma ext_refl st : ext st st.
Proof. split; [eauto 10|done]. Qed.

Lemma ext_trans st1 st2 st3 : ext st1 st2 -> ext st2 st3 -> ext st1 st3.
Proof.
  intros [H1 W1] [H2 W2]. split; [|by etransitivity].
  intros c kd ch E. destruct (H1 _ _ _ E) as (kd2 & ch2 & E2 & I2).
  destruct (H2 _ _ _ E2) as (kd3 & ch3 & E3 & I3). exists kd3, ch3. split; [done|].
  intros Hs. pose proof (I2 Hs) as ->. by apply I3.
Qed.

Lemma covered_mono st st' c n : ext st st' -> covered st c n -> covered st' c n.
Proof.
  intros [He Hw] [?|[(kd & ch & E & Hch) Hl]]; [by left|right]. split; [|by eauto].
  destruct (He _ _ _ E) as (kd' & ch' & E' & I'). exists kd', ch'. split; [done|].
  intros Hs. pose proof (Hch Hs) as Hsc. by rewrite (I' Hsc).
Qed.

Lemma record_entry_spec (m : list (string * MergedSyncEntry)) id n w w' :
  (forall c e, map_get c m = Some e -> e.1.1 = c) -> w ⊆ w' ->
  let st' := MergeState (record_entry m id n) w' in
  ext (MergeState m w) st' /\ has_entry st' id n.
Proof.
  intros Hm Hw st'. unfold record_entry in *. split.
  - split; [|done]. intros c kd ch E. unfold st'. simpl in *.
    destruct (map_get id m) as [[[x kd0] ch0]|] eqn:Ei.
    + destruct ch0 as [ch0|]; [by exists kd, ch|]. destruct (node_change n) eqn:En; [|by exists kd, ch].
      rewrite map_get_set. case_decide; [|by exists kd, ch]. subst. rewrite E in Ei. simplify_eq.
      eexists _, _. split; [done|]. by intros [? ?].
    + rewrite map_get_set. case_decide; [|by exists kd, ch]. subst. congruence.
  - unfold has_entry, st'. simpl. destruct (map_get id m) as [[[x kd0] ch0]|] eqn:Ei.
    + pose proof (Hm _ _ Ei) as Ex. simpl in Ex. subst x. destruct ch0 as [ch0|]; [by exists kd0, (Some ch0)|].
      destruct (node_change n) eqn:En.
      * rewrite map_get_set_eq. by eauto 10.
      * eexists _, _. split; [done|]. by intros [? ?].
    + rewrite map_get_set_eq. by eauto 10.
Qed.

(** The invariant of a walk over the tree [r]. *)
Section Invariant.
  Context (rid : string) (r : node).

Definition merge_inv (st : merge_state) : Prop :=
  NoDup ((byCid st).*1) /\
  forall c e, map_get c (byCid st) = Some e ->
    exists n, live rid r c n /\ e = (c, node_kind n, node_change n).

Lemma merge_inv_keys st c e : merge_inv st -> map_get c (byCid st) = Some e -> e.1.1 = c.
Proof. intros [_ H] E. by destruct (H _ _ E) as (n & _ & ->). Qed.

Lemma record_entry_inv m w w' id n :
  merge_inv (MergeState m w) -> live rid r id n -> merge_inv (MergeState (record_entry m id n) w').
Proof.
  intros [Hn He] Hl. unfold record_entry. simpl in *.
  assert (Hset : merge_inv (MergeState (map_set id (id, node_kind n, node_change n) m) w')).
  { split; simpl; [by apply NoDup_map_set|]. intros c e. rewrite map_get_set.
    case_decide; [|apply He]. intros [= <-]. subst. eauto. }
  assert (Hm : merge_inv (MergeState m w')) by done.
  repeat case_match; done.
Qed.

(** What was walked between two states has all its children covered. *)
Definition new_closed (st st' : merge_state (C:=C)) : Prop :=
  forall c, c ∈ walked st' -> c ∉ walked st ->
    exists n l, live rid r c n /\ node_children n = Children l /\ Forall (fun p => covered st' (fst p) (snd p)) l.

Lemma new_closed_trans st1 st2 st3 :
  ext st2 st3 -> new_closed st1 st2 -> new_closed st2 st3 -> new_closed st1 st3.
Proof.
  intros He H1 H2 c Hc Hn. destruct (decide (c ∈ walked st2)) as [Hin|]; [|by apply H2].
  destruct (H1 c Hin Hn) as (n & l & ? & ? & Hall). exists n, l. split_and!; [done..|].
  apply (Forall_impl _ _ _ Hall). intros p. by apply covered_mono.
Qed.

Definition walk_ok (st st' : merge_state) : Prop := ext st st' /\ new_closed st st' /\ merge_inv st'.

Lemma merge_list_ok l id m st st' :
  live rid r id m -> node_children m = Children l ->
  Forall (fun p => forall id st st', (local id = false -> live rid r id (snd p)) -> merge_inv st ->
    mwalk (Some id) (snd p) st = Ok st' -> walk_ok st st' /\ covered st' id (snd p)) l ->
  merge_inv st -> merge_list l st = Ok st' ->
  walk_ok st st' /\ Forall (fun p => covered st' (fst p) (snd p)) l.
Proof.
  intros Hm Hch. assert (Hsub : forall p, p ∈ l -> local (fst p) = false -> live rid r (fst p) (snd p)).
  { intros [c x] Hin Hloc. by eapply live_child. }
  clear Hch. revert st. induction l as [|[c x] l IH]; intros st HP Hi E; simpl in E.
  { simplify_eq. split; [|constructor]. split_and!; [apply ext_refl|by intros ???|done]. }
  destruct (mwalk (Some c) x st) as [st1|] eqn:E1; [|done].
  apply Forall_cons in HP as [Hc HP].
  destruct (Hc c st st1) as [(He1 & Hn1 & Hi1) Hcov]; [apply (Hsub (c, x)); by left|done|done|].
  destruct (IH ltac:(intros; apply Hsub; [by right|done]) st1 HP Hi1 E) as [(He2 & Hn2 & Hi2) Hall].
  split; [split_and!|].
  - by eapply ext_trans.
  - by eapply new_closed_trans.
  - done.
  - constructor; [by eapply covered_mono|done].
Qed.

Lemma merge_walk_ok n : forall id st st',
  (local id = false -> live rid r id n) -> merge_inv st -> mwalk (Some id) n st = Ok st' ->
  walk_ok st st' /\ covered st' id n.
Proof.
  induction n as [k kd ch chs IH] using node_ind'. intros id st st' Hlive Hi.
  rewrite merge_walk_eq. destruct (local id) eqn:Hloc.
  { intros [= <-]. split; [split_and!; [apply ext_refl|by intros ???|done]|by left]. }
  specialize (Hlive eq_refl). set (n := Node k kd ch chs) in *. destruct st as [m w]. simpl.
  assert (Hrec : forall w', w ⊆ w' -> ext (MergeState m w) (MergeState (record_entry m id n) w') /\
    has_entry (MergeState (record_entry m id n) w') id n).
  { intros w' Hw. apply record_entry_spec; [|done]. intros c e. apply (merge_inv_keys (MergeState m w)); done. }
  assert (Hinv : forall w', merge_inv (MergeState (record_entry m id n) w')) by (intros; by eapply record_entry_inv).
  destruct (set_has id w) eqn:Hw.
  { intros [= <-]. destruct (Hrec w ltac:(done)) as [? ?]. split; [split_and!; [done|by intros ???|done]|].
    right. split; [done|]. intros l _. by apply set_has_spec. }
  destruct chs as [| |l]; simpl.
  - intros [= <-]. destruct (Hrec w ltac:(done)) as [? ?]. split; [split_and!; [done|by intros ???|done]|].
    right. by split.
  - done.
  - intros E. destruct (Hrec (set_add id w)) as [He Hh]; [intros x ?; apply elem_of_set_add; by right|].
    destruct (merge_list_ok l id n _ st' Hlive eq_refl IH (Hinv _) E) as [(He2 & Hn2 & Hi2) Hall].
    split; [split_and!|].
    + by eapply ext_trans.
    + intros c Hc Hnot. destruct (decide (c = id)) as [->|Hne]; [by exists n, l|].
      apply Hn2; [done|]. simpl. rewrite elem_of_set_add. naive_solver.
    + done.
    + apply (covered_mono _ _ _ _ He2). right. split; [done|]. intros ? _. simpl.
      apply elem_of_set_add. by left.
Qed.

(** What a finished merge has: it knows all that is live. *)
Lemma merge_complete st :
  inline_coherent (Some rid) r -> mwalk (Some rid) r (MergeState [] []) = Ok st ->
  merge_inv st /\ forall c n, live rid r c n -> has_entry st c n.
Proof.
  intros Hcoh E. destruct (merge_walk_ok r rid (MergeState [] []) st) as [(_ & Hcl & Hi) Hcov]; [..|done|].
  { by constructor. }
  { split; [constructor|done]. }
  split; [done|]. cut (forall c n, live rid r c n -> covered st c n).
  { intros Hall c n Hl. destruct (Hall c n Hl) as [Hloc|[? _]]; [|done].
    apply live_occ in Hl as [_ ?]. congruence. }
  intros c n Hl. induction Hl as [|id n l c m Hl IH Hch Hin Hloc]; [done|].
  destruct IH as [Hid|[_ Hw]]; [apply live_occ in Hl as [_ ?]; congruence|].
  destruct (Hcl id) as (n0 & l0 & Hl0 & Hch0 & Hall); [by eapply Hw|by apply not_elem_of_nil|].
  assert (l0 = l) as -> by exact (Hcoh id n0 n l0 l (proj1 (live_occ _ _ _ _ Hl0)) (proj1 (live_occ _ _ _ _ Hl)) Hch0 Hch).
  rewrite Forall_forall in Hall. by apply (Hall (c, m)).
Qed.

(** Nothing but a deferred sentinel makes the walk throw. *)
Lemma merge_walk_total n : forall id st,
  (local id = false -> live rid r id n) ->
  (forall c m, live rid r c m -> node_children m <> DeferredChildren) ->
  exists st', mwalk (Some id) n st = Ok st'.
Proof.
  induction n as [k kd ch chs IH] using node_ind'. intros id st Hlive Hno.
  rewrite merge_walk_eq. destruct (local id) eqn:Hloc; [by eauto|]. specialize (Hlive eq_refl).
  simpl. destruct (set_has _ _); [by eauto|]. destruct chs as [| |l]; [by eauto| |].
  { by destruct (Hno id _ Hlive). }
  assert (Hsub : forall p, p ∈ l -> local (fst p) = false -> live rid r (fst p) (snd p)).
  { intros [c x] Hin ?. by eapply live_child. }
  clear Hlive. generalize (MergeState (record_entry (byCid st) id (Node k kd ch (Children l))) (set_add id (walked st))).
  induction l as [|[c x] l IHl]; intros s; simpl; [by eauto|]. apply Forall_cons in IH as [Hx IH].
  simpl in Hx. destruct (Hx c s) as [s' ->]; [apply (Hsub (c, x)); by left|done|]. simpl.
  apply IHl; [done|]. intros p Hp. apply Hsub. by right.
Qed.
End Invariant.

(** ** Theorems on merging *)

Lemma merge_entries_sound rid r entries :
  mergeRemoteSyncTree localRootId localHashes (Some rid) r = Ok entries ->
  NoDup (map (fun e : MergedSyncEntry => e.1.1) entries) /\
  forall c kd ch, (c, kd, ch) ∈ entries ->
    Some c <> localRootId /\ c ∉ localHashes /\
    exists n, occ (Some rid) r (Some c) n /\ kd = node_kind n /\ ch = node_change n.
Proof.
  unfold mergeRemoteSyncTree. destruct (mwalk _ _ _) as [st|] eqn:E; [|done]. intros [= <-].
  destruct (merge_walk_ok rid r r rid (MergeState [] []) st) as [(_ & _ & Hi) _]; [..|done|].
  { by constructor. }
  { split; [constructor|done]. }
  destruct Hi as [Hn He]. split.
  - replace (map _ _) with ((byCid st).*1); [done|]. rewrite <- list_fmap_compose.
    apply list_fmap_ext. intros i [c e] Hin. simpl.
    apply list_elem_of_lookup_2, (elem_of_map_get _ _ _ Hn) in Hin. by destruct (He _ _ Hin) as (? & _ & ->).
  - intros c kd ch Hin. apply list_elem_of_fmap in Hin as ([c' e] & Ee & Hin). simpl in Ee. subst e.
    apply (elem_of_map_get _ _ _ Hn) in Hin. destruct (He _ _ Hin) as (n & Hl & [= -> -> ->]).
    apply live_occ in Hl as [Ho Hloc]. unfold is_local in Hloc. apply orb_false_iff in Hloc as [H1 H2].
    apply bool_decide_eq_false in H1, H2. eauto 10.
Qed.

(** Whatever a peer sends, the entries of a merge are sound: no CID occurs
    twice, none is already applied locally, and each one's kind and payload are
    those of a node of the served tree. *)
Theorem merge_sound rid r entries :
  mergeRemoteSyncTree localRootId localHashes (Some rid) r = Ok entries ->
  NoDup (map (fun e : MergedSyncEntry => e.1.1) entries) /\
  forall c kd ch, (c, kd, ch) ∈ entries ->
    Some c <> localRootId /\ c ∉ localHashes /\
    exists n, occ (Some rid) r (Some c) n /\ kd = node_kind n /\ ch = node_change n.
Proof. apply merge_entries_sound. Qed.

Lemma merge_entries_cover rid r entries c n :
  inline_coherent (Some rid) r -> mergeRemoteSyncTree localRootId localHashes (Some rid) r = Ok entries ->
  live rid r c n ->
  exists kd ch, (c, kd, ch) ∈ entries /\ (is_Some (node_change n) -> is_Some ch).
Proof.
  intros Hcoh. unfold mergeRemoteSyncTree. destruct (mwalk _ _ _) as [st|] eqn:E; [|done]. intros [= <-] Hl.
  destruct (merge_complete rid r st Hcoh E) as [_ Hall]. destruct (Hall c n Hl) as (kd & ch & Hg & Hs).
  exists kd, ch. split; [|done]. apply list_elem_of_fmap. exists (c, (c, kd, ch)). split; [done|].
  by apply map_get_elem_of.
Qed.

(** C4. Nothing is dropped: in a content-addressed tree every node that is not
    below a locally known CID has its entry, whether it was met first as a bare
    cross-link or inline, and the entry carries the payload as soon as one
    occurrence of the CID does. *)
Theorem merge_covers rid r entries c n :
  inline_coherent (Some rid) r -> mergeRemoteSyncTree localRootId localHashes (Some rid) r = Ok entries ->
  live rid r c n ->
  exists kd ch, (c, kd, ch) ∈ entries /\ (is_Some (node_change n) -> is_Some ch).
Proof. apply merge_entries_cover. Qed.

(** A merge returns unless a deferred-children sentinel is met outside the
    locally known part: that is the one error it has, and the walk always
    terminates. *)
Theorem merge_total rid r :
  (forall c m, live rid r c m -> node_children m <> DeferredChildren) ->
  exists entries, mergeRemoteSyncTree localRootId localHashes (Some rid) r = Ok entries.
Proof.
  intros Hno. unfold mergeRemoteSyncTree.
  destruct (merge_walk_total rid r r rid (MergeState [] [])) as [st ->]; [by constructor|done|]. eauto.
Qed.
End MergeFacts.

(** ** The walk behind the frontier *)

Fixpoint frontier_list (l : list (string * node)) (st : frontier_state) : frontier_state :=
  match l with
  | [] => st
  | (childId, childNode) :: l' =>
      frontier_list l' (frontier_walk (Some childId) childNode
        (FrontierState (set_add childId (cids st)) (set_add childId (referenced st)) (visited st)))
  end.

Definition frontier_enter (n : node) (st : frontier_state) : frontier_state :=
  match node_children n with Children l => frontier_list l st | _ => st end.

Lemma frontier_walk_eq nodeId n st :
  frontier_walk nodeId n st =
  match nodeId with
  | None => frontier_enter n st
  | Some id =>
      if set_has id (visited st) then st
      else frontier_enter n (FrontierState (set_add id (cids st)) (referenced st) (set_add id (visited st)))
  end.
Proof. unfold frontier_enter. by destruct nodeId, n as [? ? ? []]. Qed.

Section FrontierFacts.
  Context (rid : option string) (r : node).

(** Some node of the tree names [c] as a parent or a cross-link. *)
Definition child_key (c : string) : Prop :=
  exists id n l m, occ rid r id n /\ node_children n = Children l /\ (c, m) ∈ l.

Record fext (st st' : frontier_state) : Prop := {
  fext_cids : cids st ⊆ cids st';
  fext_ref : referenced st ⊆ referenced st';
  fext_vis : visited st ⊆ visited st' }.

Lemma fext_refl st : fext st st.
Proof. by split. Qed.

Lemma fext_trans st1 st2 st3 : fext st1 st2 -> fext st2 st3 -> fext st1 st3.
Proof. intros [] []. split; by etransitivity. Qed.

Definition seen_child (st : frontier_state) (c : string) : Prop :=
  c ∈ cids st /\ c ∈ referenced st /\ c ∈ visited st.

Lemma seen_child_mono st st' c : fext st st' -> seen_child st c -> seen_child st' c.
Proof. intros [H1 H2 H3] (? & ? & ?). split_and!; auto. Qed.

Definition children_seen (st : frontier_state) (n : node) : Prop :=
  forall l c m, node_children n = Children l -> (c, m) ∈ l -> seen_child st c.

Lemma children_seen_mono st st' n : fext st st' -> children_seen st n -> children_seen st' n.
Proof. intros He H l c m Hch Hin. eapply seen_child_mono; [done|]. by eapply H. Qed.

(** Soundness of the sets; [base] is the content of [referenced] at the start. *)
Section Base.
  Context (base : list string).

Record frontier_inv (st : frontier_state) : Prop := {
  finv_nodup : NoDup (cids st);
  finv_cids : forall c, c ∈ cids st -> exists n, occ rid r (Some c) n;
  finv_ref : forall c, c ∈ referenced st -> c ∈ base \/ child_key c;
  finv_unref : forall c, c ∈ cids st -> c ∉ referenced st -> rid = Some c }.

Definition fclosed (st st' : frontier_state) : Prop :=
  forall c, c ∈ visited st' -> c ∉ visited st -> exists n, occ rid r (Some c) n /\ children_seen st' n.

Definition fwalk_ok (st st' : frontier_state) : Prop := fext st st' /\ fclosed st st' /\ frontier_inv st'.

Lemma fwalk_ok_refl st : frontier_inv st -> fwalk_ok st st.
Proof. intros. split_and!; [apply fext_refl|by intros ???|done]. Qed.

Lemma fwalk_ok_trans st1 st2 st3 : fwalk_ok st1 st2 -> fwalk_ok st2 st3 -> fwalk_ok st1 st3.
Proof.
  intros (He1 & Hc1 & Hi1) (He2 & Hc2 & Hi2). split_and!; [by eapply fext_trans| |done].
  intros c Hc Hn. destruct (decide (c ∈ visited st2)) as [Hin|]; [|by apply Hc2].
  destruct (Hc1 c Hin Hn) as (n & ? & ?). exists n. split; [done|]. by eapply children_seen_mono.
Qed.

Lemma child_step st id n l c m :
  occ rid r id n -> node_children n = Children l -> (c, m) ∈ l -> frontier_inv st ->
  fwalk_ok st (FrontierState (set_add c (cids st)) (set_add c (referenced st)) (visited st)).
Proof.
  intros Ho Hch Hin [Hn Hcid Href Hun]. split_and!.
  - split; simpl; [| |done]; intros x ?; apply elem_of_set_add; by right.
  - by intros ???.
  - split; simpl.
    + by apply NoDup_set_add.
    + intros x [->|?]%elem_of_set_add; [|by auto]. exists m. by eapply occ_child.
    + intros x [->|?]%elem_of_set_add; [|by auto]. right. by exists id, n, l, m.
    + intros x Hx. rewrite elem_of_set_add. intros Hnx. apply elem_of_set_add in Hx as [->|?]; [|apply Hun]; naive_solver.
Qed.

(** The walk of one node with its list of children; the walk below a child is
    the induction hypothesis. *)
Definition walk_spec (n : node) : Prop := forall id st,
  occ rid r (Some id) n -> (id ∈ cids st \/ rid = Some id) -> frontier_inv st ->
  fwalk_ok st (frontier_walk (Some id) n st) /\ id ∈ visited (frontier_walk (Some id) n st).

Lemma frontier_list_ok l id n st :
  occ rid r id n -> node_children n = Children l -> Forall (fun p => walk_spec (snd p)) l -> frontier_inv st ->
  fwalk_ok st (frontier_list l st) /\ forall c m, (c, m) ∈ l -> seen_child (frontier_list l st) c.
Proof.
  intros Ho Hch. assert (Hsub : forall p, p ∈ l -> p ∈ l) by done. revert Hsub.
  generalize l at 1 3 4 5 6 as l'. intros l' Hsub HP. revert st.
  induction l' as [|[c m] l' IH]; intros st Hi; simpl.
  { split; [by apply fwalk_ok_refl|]. by intros ? ? ?%elem_of_nil. }
  apply Forall_cons in HP as [Hc HP]. simpl in Hc.
  assert (Hin : (c, m) ∈ l) by (apply Hsub; by left).
  pose proof (child_step st id n l c m Ho Hch Hin Hi) as H1.
  set (st1 := FrontierState _ _ _) in *. destruct (Hc c st1) as [H2 Hv].
  { by eapply occ_child. } { left. apply elem_of_set_add. by left. } { apply H1. }
  set (st2 := frontier_walk (Some c) m st1) in *.
  destruct (IH ltac:(intros; apply Hsub; by right) HP st2) as [H3 Hall]; [apply H2|].
  split; [by eapply fwalk_ok_trans; [|eapply fwalk_ok_trans]|].
  intros c' m' [[= -> ->]|Hin']%elem_of_cons; [|by eauto].
  apply (seen_child_mono st2); [apply H3|]. destruct H2 as ([H2a H2b _] & _).
  split_and!; [apply H2a|apply H2b|done]; apply elem_of_set_add; by left.
Qed.

Lemma frontier_enter_ok id n st :
  occ rid r id n -> match node_children n with Children l => Forall (fun p => walk_spec (snd p)) l | _ => True end ->
  frontier_inv st -> fwalk_ok st (frontier_enter n st) /\ children_seen (frontier_enter n st) n.
Proof.
  intros Ho HP Hi. unfold frontier_enter, children_seen. destruct (node_children n) as [| |l] eqn:E.
  - split; [by apply fwalk_ok_refl|done].
  - split; [by apply fwalk_ok_refl|done].
  - destruct (frontier_list_ok l id n st Ho E HP Hi) as [? Hall]. split; [done|].
    intros l' c m [= <-] Hin. by eapply Hall.
Qed.

Lemma frontier_walk_ok n : walk_spec n.
Proof.
  induction n as [k kd ch chs IH] using node_ind'. intros id st Ho Hid Hi.
  rewrite frontier_walk_eq. set (n := Node k kd ch chs) in *.
  destruct (set_has id (visited st)) eqn:Hv.
  { split; [by apply fwalk_ok_refl|by apply set_has_spec]. }
  set (st1 := FrontierState _ _ _).
  assert (Hi1 : frontier_inv st1).
  { destruct Hi as [Hn Hcid Href Hun]. split; simpl; [by apply NoDup_set_add| |done|].
    - intros x [->|?]%elem_of_set_add; by eauto.
    - intros x [->|?]%elem_of_set_add ?; [|by auto]. destruct Hid; auto. }
  destruct (frontier_enter_ok (Some id) n st1 Ho IH Hi1) as [(He & Hcl & Hi2) Hch].
  assert (Hin : id ∈ visited st1) by (apply elem_of_set_add; by left).
  split; [|by apply He]. split_and!; [| |done].
  - eapply fext_trans; [|exact He]. split; simpl; [| done|]; intros x ?; apply elem_of_set_add; by right.
  - intros c Hc Hn. destruct (decide (c = id)) as [->|]; [by exists n|].
    apply Hcl; [done|]. simpl. rewrite elem_of_set_add. naive_solver.
Qed.

Lemma children_walk_spec n :
  match node_children n with Children l => Forall (fun p => walk_spec (snd p)) l | _ => True end.
Proof. destruct (node_children n); [done..|]. apply Forall_true. intros. apply frontier_walk_ok. Qed.

(** The walk of the whole tree, from a state whose [visited] is empty. *)
Lemma frontier_root_ok st0 :
  frontier_inv st0 -> visited st0 = [] ->
  let st := frontier_walk rid r st0 in
  fwalk_ok st0 st /\ (rid = None -> children_seen st r) /\
  forall c, rid = Some c -> c ∈ visited st /\ c ∈ cids st.
Proof.
  intros Hi Hv0 st. assert (Hroot : occ rid r rid r) by constructor. unfold st.
  destruct rid as [c|] eqn:Er; rewrite <- Er in Hroot.
  - destruct (frontier_walk_ok r c st0) as [Hw Hc]; [congruence|by right|done|].
    split_and!; [done..|]. intros ? [= <-]. split; [done|]. rewrite frontier_walk_eq, Hv0.
    destruct (frontier_enter_ok (Some c) r (FrontierState (set_add c (cids st0)) (referenced st0) (set_add c [])))
      as [(He & _) _]; [congruence|apply children_walk_spec| |].
    + destruct Hi as [Hn Hcid Href Hun]. split; simpl; [by apply NoDup_set_add| |done|].
      * intros x [->|?]%elem_of_set_add; [|by auto]. exists r. congruence.
      * intros x [->|?]%elem_of_set_add ?; by auto.
    + change (set_has c []) with false. cbn iota. apply He, elem_of_set_add. by left.
  - rewrite frontier_walk_eq. rewrite Er in Hroot.
    destruct (frontier_enter_ok None r st0) as [Hw Hc]; [congruence|apply children_walk_spec|done|by split_and!].
Qed.

Lemma frontier_total st0 :
  frontier_inv st0 -> visited st0 = [] -> coherent rid r ->
  forall c, child_key c -> seen_child (frontier_walk rid r st0) c.
Proof.
  intros Hi Hv0 Hcoh. destruct (frontier_root_ok st0 Hi Hv0) as (Hw & Hroot & Hid).
  set (st := frontier_walk rid r st0) in *.
  assert (Hclose : forall c n, occ rid r (Some c) n -> c ∈ visited st -> children_seen st n).
  { intros c n Ho Hc. destruct Hw as (_ & Hcl & _). destruct (Hcl c Hc) as (n0 & Ho0 & Hs).
    { rewrite Hv0. apply not_elem_of_nil. }
    intros l x m Hch. apply (Hs l x m). by rewrite (Hcoh c n0 n Ho0 Ho). }
  assert (Hall : forall id n, occ rid r id n -> children_seen st n).
  { intros id n Ho. induction Ho as [|id n l c m Ho IH Hch Hin].
    - destruct rid as [c|] eqn:Er; [|by apply Hroot].
      apply (Hclose c); [rewrite <- Er; constructor|by apply Hid].
    - apply (Hclose c); [by eapply occ_child|]. by eapply IH. }
  intros c (id & n & l & m & Ho & Hch & Hin). by eapply (Hall id n Ho).
Qed.
End Base.
End FrontierFacts.

(** ** The other walks follow the same path *)

(** The three sets of the frontier walk, as the other walks keep them. *)
Definition anc_of (st : frontier_state) : list string * list string := (visited st, referenced st).
Definition all_of (st : frontier_state) : list string * list string := (cids st, visited st).

Lemma ancestors_sim (n : node) : forall id st,
  ancestors_walk id n (anc_of st) = anc_of (frontier_walk id n st).
Proof.
  induction n as [k kd ch [| |l] IH] using node_ind'; intros id st; [destruct id; simpl; try case_match; done..|].
  assert (Hgo : forall st, (fix go (l : list (string * node)) (st : list string * list string) :=
      match l with
      | [] => st
      | (childId, childNode) :: l' =>
          go l' (ancestors_walk (Some childId) childNode (fst st, set_add childId (snd st)))
      end) l (anc_of st) = anc_of (frontier_list l st)).
  { clear st. induction IH as [|[c m] l Hc _ IHl]; intros st; [done|]. simpl. rewrite <- IHl. f_equal.
    rewrite <- Hc. done. }
  rewrite frontier_walk_eq. destruct id as [id|]; simpl; [|apply Hgo].
  case_match; [done|]. apply (Hgo (FrontierState _ _ _)).
Qed.

Lemma all_cids_sim (n : node) : forall id st,
  all_cids_walk id n (all_of st) = all_of (frontier_walk id n st).
Proof.
  induction n as [k kd ch [| |l] IH] using node_ind'; intros id st; [destruct id; simpl; try case_match; done..|].
  assert (Hgo : forall st, (fix go (l : list (string * node)) (st : list string * list string) :=
      match l with
      | [] => st
      | (childId, childNode) :: l' =>
          go l' (all_cids_walk (Some childId) childNode (set_add childId (fst st), snd st))
      end) l (all_of st) = all_of (frontier_list l st)).
  { clear st. induction IH as [|[c m] l Hc _ IHl]; intros st; [done|]. simpl. rewrite <- IHl. f_equal.
    rewrite <- Hc. done. }
  rewrite frontier_walk_eq. destruct id as [id|]; simpl; [|apply Hgo].
  case_match; [done|]. apply (Hgo (FrontierState _ _ _)).
Qed.

(** References are only added, so an early exit agrees with the full walk. *)
Lemma frontier_ref_mono (n : node) : forall id st, referenced st ⊆ referenced (frontier_walk id n st).
Proof.
  induction n as [k kd ch [| |l] IH] using node_ind'; intros id st; [destruct id; simpl; try case_match; done..|].
  assert (Hgo : forall st, referenced st ⊆ referenced (frontier_list l st)).
  { clear st. induction IH as [|[c m] l Hc _ IHl]; intros st; [done|]. simpl.
    etransitivity; [|apply IHl]. etransitivity; [|apply Hc]. simpl. intros x ?. apply elem_of_set_add. by right. }
  rewrite frontier_walk_eq. destruct id as [id|]; simpl; [|apply Hgo].
  case_match; [done|]. apply (Hgo (FrontierState _ _ _)).
Qed.

Lemma frontier_list_ref_mono (l : list (string * node)) : forall st, referenced st ⊆ referenced (frontier_list l st).
Proof.
  induction l as [|[c m] l IH]; intros st; [done|]. simpl. etransitivity; [|apply IH].
  etransitivity; [|apply frontier_ref_mono]. simpl. intros x ?. apply elem_of_set_add. by right.
Qed.

Definition contains_agrees (target : string) (st' : frontier_state) (res : bool * list string) : Prop :=
  if decide (target ∈ referenced st') then fst res = true else res = (false, visited st').

Lemma contains_sim target (n : node) : forall id st, target ∉ referenced st ->
  contains_agrees target (frontier_walk id n st) (contains_walk target id n (visited st)).
Proof.
  assert (Hstop : forall st, target ∉ referenced st -> contains_agrees target st (false, visited st)).
  { intros st Hn. unfold contains_agrees. by case_decide. }
  induction n as [k kd ch [| |l] IH] using node_ind'; intros id st Hn.
  1,2: destruct id; simpl; [case_match|]; by apply (Hstop (FrontierState _ _ _)) || by apply Hstop.
  assert (Hgo : forall st, target ∉ referenced st -> contains_agrees target (frontier_list l st)
    ((fix go (l : list (string * node)) (vis : list string) : bool * list string :=
           match l with
           | [] => (false, vis)
           | (childId, childNode) :: l' =>
               if bool_decide (childId = target) then (true, vis)
               else
                 let '(found, vis') := contains_walk target (Some childId) childNode vis in
                 if found then (true, vis') else go l' vis'
           end) l (visited st))).
  { clear st Hn. induction IH as [|[c m] l Hc _ IHl]; intros st Hn; [by apply Hstop|]. simpl.
    set (st1 := FrontierState _ _ _). case_bool_decide as E.
    - unfold contains_agrees. rewrite decide_True; [done|]. apply frontier_list_ref_mono, frontier_ref_mono.
      subst. apply elem_of_set_add. by left.
    - specialize (Hc (Some c) st1). unfold contains_agrees in Hc. simpl in Hc.
      destruct (contains_walk target (Some c) m (visited st)) as [found vis'].
      assert (Hn1 : target ∉ set_add c (referenced st)) by (rewrite elem_of_set_add; naive_solver).
      specialize (Hc Hn1). case_decide as Hd; simpl in Hc.
      + subst found. unfold contains_agrees. rewrite decide_True; [done|]. by apply frontier_list_ref_mono.
      + injection Hc as -> ->. by apply IHl. }
  rewrite frontier_walk_eq. destruct id as [id|]; simpl; [|by apply Hgo].
  case_match; [by apply Hstop|]. by apply (Hgo (FrontierState _ _ _)).
Qed.

(** ** Theorems on the frontier and the listings *)

Lemma start_inv rid (r : node) base : frontier_inv rid r base (FrontierState [] base []).
Proof. split; simpl; [constructor|..]; [by intros ? ?%elem_of_nil|by auto|by intros ? ?%elem_of_nil]. Qed.

Lemma frontier_ref_iff rid (r : node) base c : coherent rid r ->
  c ∈ referenced (frontier_walk rid r (FrontierState [] base [])) <-> c ∈ base \/ child_key rid r c.
Proof.
  intros Hcoh. destruct (frontier_root_ok rid r base _ (start_inv rid r base) eq_refl) as ((He & _ & Hi) & _). split.
  - apply (finv_ref _ _ _ _ Hi).
  - intros [Hc|Hc]; [by apply He|]. by apply (frontier_total rid r base _ (start_inv rid r base) eq_refl Hcoh c Hc).
Qed.

Lemma occ_inv rid (r : node) c n : occ rid r (Some c) n -> rid = Some c \/ child_key rid r c.
Proof.
  intros Ho. inversion Ho; subst; [by left|right]. by eexists _, _, _, _.
Qed.

Lemma frontier_cids_iff rid (r : node) c : coherent rid r ->
  c ∈ cids (frontier_walk rid r (FrontierState [] [] [])) <-> exists n, occ rid r (Some c) n.
Proof.
  intros Hcoh. destruct (frontier_root_ok rid r [] _ (start_inv rid r []) eq_refl) as ((_ & _ & Hi) & _ & Hid). split.
  - apply (finv_cids _ _ _ _ Hi).
  - intros [n Ho]. destruct (occ_inv rid r c n Ho) as [->|Hc]; [by apply Hid|].
    by apply (frontier_total rid r [] _ (start_inv rid r []) eq_refl Hcoh c Hc).
Qed.

(** The served frontier is what the binding check needs it to be: in a
    content-addressed tree it is the served root and the snapshot boundary,
    each unless some node of the tree references it, and nothing else. *)
Theorem served_frontier_exact changeId (changes : node) boundary c :
  coherent changeId changes ->
  c ∈ computeServedFrontier changeId (Some changes) boundary <->
  (changeId = Some c \/ (boundary = Some c /\ c <> ""%string)) /\ ~ child_key changeId changes c.
Proof.
  intros Hcoh. unfold computeServedFrontier. rewrite list_elem_of_In, List.filter_In, <- list_elem_of_In.
  unfold set_has. rewrite negb_true_iff, bool_decide_eq_false, frontier_ref_iff, elem_of_nil by done.
  assert (Hmem : c ∈ cids (frontier_walk changeId changes (FrontierState [] [] [])) <->
    changeId = Some c \/ child_key changeId changes c).
  { rewrite frontier_cids_iff by done. split; [intros [n Ho]; by eapply occ_inv|].
    intros [->|(id & n & l & m & ? & ? & ?)]; [exists changes; constructor|exists m; by eapply occ_child]. }
  destruct boundary as [b|]; [|naive_solver]. destruct (String.eqb_spec b "") as [->|Hb].
  - rewrite Hmem. naive_solver.
  - rewrite elem_of_set_add, Hmem. naive_solver.
Qed.

(** Without any assumption on the served tree, the frontier a peer can make
    the loader compute has no element other than the root it served and the
    boundary it named, and no repetition. *)
Theorem served_frontier_bounded changeId (changes : option node) boundary :
  NoDup (computeServedFrontier changeId changes boundary) /\
  forall c, c ∈ computeServedFrontier changeId changes boundary ->
    (is_Some changes /\ changeId = Some c) \/ (boundary = Some c /\ c <> ""%string).
Proof.
  unfold computeServedFrontier.
  assert (Hst : forall st, NoDup (cids st) ->
    (forall c, c ∈ cids st -> c ∉ referenced st -> is_Some changes /\ changeId = Some c) ->
    let all := match boundary with
      | Some b => if String.eqb b "" then cids st else set_add b (cids st) | None => cids st end in
    NoDup (List.filter (fun cid => negb (set_has cid (referenced st))) all) /\
    forall c, c ∈ List.filter (fun cid => negb (set_has cid (referenced st))) all ->
      (is_Some changes /\ changeId = Some c) \/ (boundary = Some c /\ c <> ""%string)).
  { intros st Hn Hun all. split.
    - eapply sublist_NoDup; [|apply list_filter_sublist]. subst all.
      destruct boundary; [case_match|]; auto with swarm.
    - intros c Hc. apply list_elem_of_In, List.filter_In in Hc as [Hin Hr]. apply list_elem_of_In in Hin.
      apply negb_true_iff, bool_decide_eq_false in Hr. subst all.
      destruct boundary as [b|]; [|by auto]. destruct (String.eqb_spec b ""); [by auto|].
      apply elem_of_set_add in Hin as [->|?]; auto. }
  apply Hst; destruct changes as [r|]; simpl; [|constructor| |by intros ? ?%elem_of_nil];
    destruct (frontier_root_ok changeId r [] _ (start_inv changeId r []) eq_refl) as ((_ & _ & Hi) & _).
  - apply (finv_nodup _ _ _ _ Hi).
  - intros c Hc Hr. split; [done|]. by apply (finv_unref _ _ _ _ Hi).
Qed.

(** The set of referenced ancestors grows by exactly the CIDs some node of
    the tree references. *)
Theorem referenced_ancestors_exact rid (r : node) out c :
  coherent rid r -> c ∈ collectReferencedAncestors rid r out <-> c ∈ out \/ child_key rid r c.
Proof.
  intros Hcoh. unfold collectReferencedAncestors.
  change ([], out) with (anc_of (FrontierState [] out [])). rewrite ancestors_sim. by apply frontier_ref_iff.
Qed.

(** Listing a tree gives each of its CIDs once, and the search for a
    non-empty CID succeeds exactly when the CID occurs. *)
Theorem tree_listing_exact rid (r : node) :
  coherent rid r ->
  NoDup (collectAllCidsInTree rid (Some r)) /\
  (forall c, c ∈ collectAllCidsInTree rid (Some r) <-> exists n, occ rid r (Some c) n) /\
  (forall c, c <> ""%string ->
     treeContainsCid rid (Some r) (Some c) = true <-> c ∈ collectAllCidsInTree rid (Some r)).
Proof.
  intros Hcoh. unfold collectAllCidsInTree.
  change (@nil string, @nil string) with (all_of (FrontierState [] [] [])). rewrite all_cids_sim. simpl.
  destruct (frontier_root_ok rid r [] _ (start_inv rid r []) eq_refl) as ((_ & _ & Hi) & _).
  split_and!; [apply (finv_nodup _ _ _ _ Hi)|intros; by apply frontier_cids_iff|].
  intros c Hne. unfold treeContainsCid. destruct (String.eqb_spec c "") as [|_]; [done|].
  rewrite frontier_cids_iff by done. case_bool_decide as E.
  { split; [|done]. intros _. exists r. rewrite E. constructor. }
  pose proof (contains_sim c r rid (FrontierState [] [] []) ltac:(apply not_elem_of_nil)) as Hs.
  unfold contains_agrees in Hs. simpl in Hs. destruct (contains_walk c rid r []) as [b v].
  assert (Hocc : (exists n, occ rid r (Some c) n) <-> child_key rid r c).
  { split; [intros [n Ho]; by destruct (occ_inv _ _ _ _ Ho)|].
    intros (? & ? & ? & m & ? & ? & ?). exists m. by eapply occ_child. }
  rewrite Hocc. pose proof (frontier_ref_iff rid r [] c Hcoh) as Hr. rewrite elem_of_nil in Hr.
  case_decide; simpl in *; [subst; naive_solver|]. injection Hs as -> ->. naive_solver.
Qed.

(** ** Stripping *)

Lemma strip_children (n : node) :
  node_children (stripInlineChanges n) =
  match node_children n with
  | Children l => Children (prod_map id stripInlineChanges <$> l)
  | ch => ch
  end.
Proof.
  destruct n as [k kd c [| |l]]; simpl; [done..|]. f_equal.
  induction l as [|[x m] l IH]; simpl; [done|]. by rewrite IH.
Qed.

Lemma strip_occ rid (r : node) id n' :
  occ rid (stripInlineChanges r) id n' <-> exists n, occ rid r id n /\ n' = stripInlineChanges n.
Proof.
  split.
  - intros Ho. induction Ho as [|id n' l c m Ho (n & Hn & ->) Hch Hin]; [exists r; by split; [constructor|]|].
    rewrite strip_children in Hch. destruct (node_children n) as [| |l0] eqn:E; try done. injection Hch as <-.
    apply list_elem_of_fmap in Hin as ([c0 m0] & [= -> ->] & Hin). exists m0. split; [by eapply occ_child|done].
  - intros (n & Ho & ->). induction Ho as [|id n l c m Ho IH Hch Hin]; [constructor|].
    eapply (occ_child _ _ id (stripInlineChanges n)); [done|by rewrite strip_children, Hch|].
    by apply (list_elem_of_fmap_2 (prod_map Datatypes.id stripInlineChanges) l (c, m)).
Qed.

Lemma strip_frontier_walk (n : node) : forall id st,
  frontier_walk id (stripInlineChanges n) st = frontier_walk id n st.
Proof.
  induction n as [k kd ch chs IH] using node_ind'. intros id st. rewrite !frontier_walk_eq.
  assert (Henter : forall st, frontier_enter (stripInlineChanges (Node k kd ch chs)) st =
    frontier_enter (Node k kd ch chs) st).
  { intros st0. unfold frontier_enter. rewrite strip_children. simpl. destruct chs as [| |l]; [done..|].
    revert st0. induction IH as [|[c m] l Hc _ IHl]; intros st0; [done|]. simpl in *. by rewrite Hc, IHl. }
  destruct id; by rewrite Henter.
Qed.

(** Stripping a served tree removes every inline payload and nothing else:
    the same nodes occur under the same CIDs, none of them with a payload, and
    the frontier the binding check hashes is unchanged. *)
Theorem strip_correct rid (r : node) boundary :
  (forall id n, occ rid (stripInlineChanges r) id n -> node_change n = None) /\
  (forall id, (exists n, occ rid (stripInlineChanges r) id n) <-> (exists n, occ rid r id n)) /\
  computeServedFrontier rid (Some (stripInlineChanges r)) boundary = computeServedFrontier rid (Some r) boundary.
Proof.
  split_and!.
  - intros id n (n0 & _ & ->)%strip_occ. by destruct n0 as [? ? ? []].
  - intros id. split; [intros (? & (n & ? & _)%strip_occ); eauto|].
    intros (n & Ho). exists (stripInlineChanges n). apply strip_occ. eauto.
  - unfold computeServedFrontier. by rewrite strip_frontier_walk.
Qed.

(** ** Garbage collection *)

Lemma tree_size_children (n : node) l :
  node_children n = Children l -> tree_size n = S (sum_list (tree_size <$> l.*2)).
Proof.
  destruct n as [k kd c chs]. simpl. intros ->. f_equal. induction l as [|[x m] l IH]; csimpl; [done|]. by rewrite IH.
Qed.

Lemma tree_size_pos (n : node) : (1 <= tree_size n)%nat.
Proof. destruct n as [? ? ? []]; simpl; lia. Qed.

Lemma child_key_none (n : node) c rid : child_key rid n c <-> child_key None n c.
Proof.
  assert (Hgen : forall r1 r2 : option string, child_key r1 n c -> child_key r2 n c).
  { intros r1 r2 (id & m & l & x & Ho & Hch & Hin).
    assert (Ho' : exists id', occ r2 n id' m).
    { clear Hch Hin. induction Ho as [|id m l' c' x' Ho [id' IH] Hch Hin]; [exists r2; constructor|].
      exists (Some c'). by eapply occ_child. }
    destruct Ho' as [id' ?]. by exists id', m, l, x. }
  split; apply Hgen.
Qed.

Lemma child_key_step (n : node) l c :
  node_children n = Children l ->
  child_key None n c <-> c ∈ l.*1 \/ exists m, m ∈ l.*2 /\ child_key None m c.
Proof.
  intros Hl. split.
  - intros (id & m & l' & x & Ho & Hch & Hin).
    assert (Hd : m = n \/ exists y, y ∈ l.*2 /\ exists id', occ None y id' m).
    { clear Hch Hin. induction Ho as [|id m l0 c0 x0 Ho IH Hch Hin]; [by left|right].
      destruct IH as [->|(y & Hy & id' & IH)].
      - exists x0. split; [|exists None; constructor]. rewrite Hl in Hch. injection Hch as <-.
        apply list_elem_of_fmap. by exists (c0, x0).
      - exists y. split; [done|]. exists (Some c0). by eapply occ_child. }
    destruct Hd as [->|(y & Hy & id' & Ho')].
    + left. rewrite Hl in Hch. injection Hch as <-. apply list_elem_of_fmap. by exists (c, x).
    + right. exists y. split; [done|]. by exists id', m, l', x.
  - intros [Hc|(m & Hm & id & m' & l' & x & Ho & Hch & Hin)].
    + apply list_elem_of_fmap in Hc as ([c' m] & -> & Hin). exists None, n, l, m. split; [constructor|done].
    + apply list_elem_of_fmap in Hm as ([c' y] & -> & Hy). simpl in *.
      assert (Ho' : exists id', occ None n id' m').
      { clear Hch Hin. induction Ho as [|id m l0 c0 x0 Ho [id' IH] Hch Hin].
        - exists (Some c'). eapply occ_child; [constructor|done..].
        - exists (Some c0). by eapply occ_child. }
      destruct Ho' as [id' ?]. by exists id', m', l', x.
Qed.

Lemma child_key_leaf (n : node) c :
  (forall l, node_children n <> Children l) -> ~ child_key None n c.
Proof.
  intros Hn (id & m & l & x & Ho & Hch & Hin). assert (m = n) as ->; [|by eapply Hn].
  clear Hch Hin. induction Ho as [|id m l0 c0 x0 Ho IH Hch Hin]; [done|]. subst. by destruct (Hn l0).
Qed.

Lemma collect_loop_ok fuel : forall (queue : list node) acc,
  (sum_list (tree_size <$> queue) <= fuel)%nat -> NoDup acc ->
  exists out, collect_loop fuel queue acc = Ok out /\ NoDup out /\
    forall c, c ∈ out <-> c ∈ acc \/ exists n, n ∈ queue /\ child_key None n c.
Proof.
  induction fuel as [|fuel IH]; intros [|n queue] acc Hf Hnd.
  1,3: exists acc; split_and!; [done..|]; setoid_rewrite elem_of_nil; naive_solver.
  { csimpl in Hf. pose proof (tree_size_pos n). lia. }
  csimpl in Hf. pose proof (tree_size_pos n). simpl. destruct (node_children n) as [| |l] eqn:E.
  1,2: destruct (IH queue acc) as (out & -> & ? & Hout); [lia|done|]; exists out; split_and!; [done..|];
    intros c; rewrite Hout; setoid_rewrite elem_of_cons;
    pose proof (child_key_leaf n c ltac:(intros; congruence)); naive_solver.
  pose proof (tree_size_children n l E) as Hsz.
  destruct (IH (queue ++ l.*2) (foldl (flip set_add) acc (l.*1))) as (out & -> & ? & Hout).
  { rewrite fmap_app, sum_list_with_app. lia. }
  { by apply NoDup_foldl_set_add. }
  exists out. split_and!; [done..|]. intros c. rewrite Hout, elem_of_foldl_set_add.
  setoid_rewrite elem_of_cons. setoid_rewrite elem_of_app. pose proof (child_key_step n l c E). naive_solver.
Qed.

Lemma deletable_fold (candidates reach prot out : list string) :
  NoDup out ->
  let res := foldl (fun out cid => if set_has cid reach then out
         else if set_has cid prot then out else set_add cid out) out candidates in
  NoDup res /\ forall c, c ∈ res <-> c ∈ out \/ (c ∈ candidates /\ c ∉ reach /\ c ∉ prot).
Proof.
  revert out. induction candidates as [|x cs IH]; intros out Hn; simpl.
  { split; [done|]. setoid_rewrite elem_of_nil. naive_solver. }
  unfold set_has. setoid_rewrite elem_of_cons. repeat case_bool_decide.
  1,2: destruct (IH out Hn) as [? Hres]; split; [done|]; intros c; rewrite Hres; naive_solver.
  destruct (IH (set_add x out)) as [? Hres]; [auto with swarm|]. split; [done|].
  intros c. rewrite Hres, elem_of_set_add. naive_solver.
Qed.

Lemma deletable_spec candidates rootCid (root : option node) protected :
  exists out, filterDeletableCIDs candidates rootCid root protected = Ok out /\ NoDup out /\
    forall c, c ∈ out <->
      c ∈ candidates /\ c ∉ protected /\
      ~ (exists rc r, rootCid = Some rc /\ rc <> ""%string /\ root = Some r /\
           exists n, occ (Some rc) r (Some c) n).
Proof.
  assert (Hreach : exists reach,
    match rootCid, root with
    | Some cid, Some r => if String.eqb cid "" then Ok [] else collectTreeCIDs cid r
    | _, _ => Ok []
    end = Ok reach /\
    forall c, c ∈ reach <-> exists rc r, rootCid = Some rc /\ rc <> ""%string /\ root = Some r /\
      exists n, occ (Some rc) r (Some c) n).
  { assert (Hnone : forall c : string, c ∈ [] <-> False) by (intros; apply elem_of_nil).
    destruct rootCid as [rc|], root as [r|]; try (exists []; split; [done|]; naive_solver).
    destruct (String.eqb_spec rc ""); [exists []; split; [done|]; naive_solver|]. unfold collectTreeCIDs.
    destruct (collect_loop_ok (tree_size r) [r] [rc]) as (out & -> & _ & Hout); [csimpl; lia|apply NoDup_singleton|].
    exists out. split; [done|]. intros c. rewrite Hout. setoid_rewrite list_elem_of_singleton. split.
    - intros [->|(? & -> & Hk)]; exists rc, r; (split_and!; [done..|]); [exists r; constructor|].
      apply (child_key_none r c (Some rc)) in Hk as (? & ? & ? & m & ? & ? & ?). exists m. by eapply occ_child.
    - intros (? & ? & [= <-] & _ & [= <-] & m & Ho). destruct (occ_inv _ _ _ _ Ho) as [[= ->]|Hk]; [by left|right].
      exists r. split; [done|]. by apply (child_key_none r c (Some rc)). }
  destruct Hreach as (reach & E & Hr). unfold filterDeletableCIDs. rewrite E.
  destruct (deletable_fold candidates reach (set_of_list protected) [] (NoDup_nil_2)) as [Hn Hres].
  eexists. split_and!; [done|done|]. intros c. rewrite Hres, elem_of_nil, elem_of_set_of_list, Hr. naive_solver.
Qed.

(** Compaction never deletes a block that is still needed and deletes all
    others: the loop terminates, and a candidate is deletable exactly when it
    is neither in the retained tree nor protected. *)
Theorem deletable_exact candidates rootCid (root : option node) protected :
  exists out, filterDeletableCIDs candidates rootCid root protected = Ok out /\ NoDup out /\
    forall c, c ∈ out <->
      c ∈ candidates /\ c ∉ protected /\
      ~ (exists rc r, rootCid = Some rc /\ rc <> ""%string /\ root = Some r /\
           exists n, occ (Some rc) r (Some c) n).
Proof. apply deletable_spec. Qed.
End Theory.

(** ** Recent tips and cross-links *)

Section CrossLinks.
  Context (parent : option string) (newCid : string) (cap : Z).

(** A tip that may be cross-linked. *)
Definition linkable (t : RecentTip) : Prop := Some (tip_cid t) <> parent /\ tip_cid t <> newCid.

Lemma select_loop_ok tips out :
  let res := selectCrossLinks_loop tips parent newCid cap out (tip_cid <$> out) in
  NoDup (tip_cid <$> out) -> (Z.of_nat (length out) <= Z.max 0 cap)%Z -> Forall linkable out ->
  exists new, res = out ++ new /\ new `sublist_of` tips /\ NoDup (tip_cid <$> res) /\ Forall linkable res /\
    (Z.of_nat (length res) <= Z.max 0 cap)%Z /\
    ((Z.of_nat (length res) < cap)%Z -> forall t, t ∈ tips -> linkable t -> tip_cid t ∈ tip_cid <$> res).
Proof.
  revert out. induction tips as [|t tips IH]; intros out; simpl; intros Hn Hl Hf.
  { exists []. rewrite app_nil_r. split_and!; [done..|]. by intros _ ? ?%elem_of_nil. }
  destruct (Z.leb_spec cap (Z.of_nat (length out))).
  { exists []. rewrite app_nil_r. split_and!; [done|apply sublist_nil_l|done..|]. lia. }
  assert (Hskip : (linkable t -> tip_cid t ∈ tip_cid <$> out) ->
    exists new, selectCrossLinks_loop tips parent newCid cap out (tip_cid <$> out) = out ++ new /\
      new `sublist_of` t :: tips /\
      NoDup (tip_cid <$> selectCrossLinks_loop tips parent newCid cap out (tip_cid <$> out)) /\
      Forall linkable (selectCrossLinks_loop tips parent newCid cap out (tip_cid <$> out)) /\
      (Z.of_nat (length (selectCrossLinks_loop tips parent newCid cap out (tip_cid <$> out))) <= Z.max 0 cap)%Z /\
      ((Z.of_nat (length (selectCrossLinks_loop tips parent newCid cap out (tip_cid <$> out))) < cap)%Z ->
       forall t', t' ∈ t :: tips -> linkable t' ->
         tip_cid t' ∈ tip_cid <$> selectCrossLinks_loop tips parent newCid cap out (tip_cid <$> out))).
  { intros Ht. destruct (IH out Hn Hl Hf) as (new & E & Hs & ? & ? & ? & Hc). exists new.
    split_and!; [done|by constructor|done..|]. intros Hlt t' [->|Hin]%elem_of_cons Hlk; [|by apply Hc].
    rewrite E, fmap_app, elem_of_app. left. by apply Ht. }
  case_bool_decide; [by apply Hskip; intros [? _]|]. case_bool_decide; [by apply Hskip; intros [_ ?]|].
  unfold set_has. case_bool_decide as Hseen; [by apply Hskip|]. clear Hskip.
  rewrite set_add_notin by done.
  replace ((tip_cid <$> out) ++ [tip_cid t]) with (tip_cid <$> out ++ [t]) by by rewrite fmap_app.
  destruct (IH (out ++ [t])) as (new & E & Hs & ? & ? & ? & Hc).
  { rewrite fmap_app. apply NoDup_app. split_and!; [done| |apply NoDup_singleton].
    by intros ? ? ->%list_elem_of_singleton. }
  { rewrite length_app. simpl. lia. }
  { apply Forall_app. split; [done|]. by apply Forall_singleton. }
  exists (t :: new). rewrite E in *. rewrite <- app_assoc in *. split_and!; try done; [by constructor|].
  intros Hlt t' [->|Hin]%elem_of_cons Hlk; [|by apply Hc].
  rewrite fmap_app, elem_of_app. right. csimpl. by left.
Qed.

(** The cross-links of a new change are recent tips, newest first, at most
    [cap] of them, without repetition and never the new change or its primary
    parent; when fewer than [cap] are chosen every tip that may be linked was. *)
Theorem cross_links_correct tips :
  let res := selectCrossLinks tips parent newCid cap in
  res `sublist_of` rev tips /\ NoDup (tip_cid <$> res) /\ Forall linkable res /\
  (Z.of_nat (length res) <= Z.max 0 cap)%Z /\
  ((Z.of_nat (length res) < cap)%Z -> forall t, t ∈ tips -> linkable t -> tip_cid t ∈ tip_cid <$> res).
Proof.
  unfold selectCrossLinks.
  destruct (select_loop_ok (rev tips) []) as (new & E & Hs & Hn & Hf & Hl & Hc); [constructor|simpl; lia|constructor|].
  simpl in *. rewrite E in *. split_and!; try done.
  intros Hlt t Hin. apply Hc; [done|]. rewrite list_elem_of_In, <- in_rev, <- list_elem_of_In. done.
Qed.
End CrossLinks.

Lemma remove_first_filter cid tips :
  NoDup (tip_cid <$> tips) ->
  remove_first_tip cid tips = List.filter (fun t => negb (bool_decide (tip_cid t = cid))) tips.
Proof.
  induction tips as [|t tips IH]; csimpl; [done|]. intros [Hn Hd]%NoDup_cons.
  case_bool_decide as E; simpl; [|by rewrite IH]. subst cid. clear IH Hd.
  induction tips as [|t' tips IH]; csimpl in *; [done|]. apply not_elem_of_cons in Hn as [Hne Hn].
  rewrite bool_decide_false by congruence. simpl. f_equal. by apply IH.
Qed.

Lemma shift_while_drop cap tips :
  (0 <= cap)%Z -> shift_while cap tips = drop (length tips - Z.to_nat cap) tips.
Proof.
  intros Hc. induction tips as [|t tips IH]; [done|]. cbn [shift_while].
  destruct (Z.ltb_spec cap (Z.of_nat (length (t :: tips)))) as [Hlt|Hge].
  - rewrite IH. simpl length in *. replace (S (length tips) - Z.to_nat cap) with (S (length tips - Z.to_nat cap)) by lia. done.
  - simpl length in *. replace (S (length tips) - Z.to_nat cap) with 0 by lia. done.
Qed.

(** Tracking a tip keeps the recent-tip list duplicate-free and within its
    cap, puts the tip last, keeps the order of the others and evicts only the
    oldest, and only when the list is full. *)
Theorem track_tip_correct tips e cap :
  NoDup (tip_cid <$> tips) -> tip_cid e <> ""%string -> (1 <= cap)%Z ->
  let res := trackTipInList tips e cap in
  let kept := List.filter (fun t => negb (bool_decide (tip_cid t = tip_cid e))) tips in
  NoDup (tip_cid <$> res) /\ (Z.of_nat (length res) <= cap)%Z /\ last res = Some e /\
  res `suffix_of` kept ++ [e] /\ ((Z.of_nat (length res) < cap)%Z -> res = kept ++ [e]).
Proof.
  intros Hn Hne Hcap res kept.
  assert (Hres : res = drop (length (kept ++ [e]) - Z.to_nat cap) (kept ++ [e])).
  { unfold res, trackTipInList. destruct (String.eqb_spec (tip_cid e) ""); [done|].
    rewrite Z.max_r by lia. destruct (Z.eqb_spec cap 0); [lia|].
    rewrite shift_while_drop by lia. by rewrite remove_first_filter. }
  assert (Hnd : NoDup (tip_cid <$> kept ++ [e])).
  { rewrite fmap_app. apply NoDup_app. split_and!; [| |apply NoDup_singleton].
    - eapply sublist_NoDup; [exact Hn|]. apply fmap_sublist, list_filter_sublist.
    - intros x Hx ->%list_elem_of_singleton. apply list_elem_of_fmap in Hx as (t & E & Ht).
      apply list_elem_of_In, List.filter_In in Ht as [_ Hb]. by rewrite bool_decide_true in Hb. }
  assert (Hlen : length res = Nat.min (Z.to_nat cap) (length (kept ++ [e]))) by (rewrite Hres, length_drop; lia).
  split_and!.
  - rewrite Hres, fmap_drop. eapply sublist_NoDup; [exact Hnd|]. apply sublist_drop.
  - lia.
  - rewrite Hres, drop_app_le by (rewrite length_app; simpl; lia). apply last_snoc.
  - rewrite Hres. exists (take (length (kept ++ [e]) - Z.to_nat cap) (kept ++ [e])). by rewrite take_drop.
  - intros Hlt. rewrite Hres. replace (length (kept ++ [e]) - Z.to_nat cap) with 0 by lia. done.
Qed.

Lemma track_tip_correct_witness :
  let res := trackTipInList [Tip "a" DocumentNode; Tip "b" WriterNode] (Tip "a" DocumentNode) 4 in
  let kept := List.filter (fun t => negb (bool_decide (tip_cid t = "a"%string)))
                [Tip "a" DocumentNode; Tip "b" WriterNode] in
  NoDup (tip_cid <$> res) /\ (Z.of_nat (length res) <= 4)%Z /\ last res = Some (Tip "a" DocumentNode) /\
  res `suffix_of` kept ++ [Tip "a" DocumentNode] /\
  ((Z.of_nat (length res) < 4)%Z -> res = kept ++ [Tip "a" DocumentNode]).
Proof.
  apply (track_tip_correct [Tip "a" DocumentNode; Tip "b" WriterNode] (Tip "a" DocumentNode) 4); [|done|lia].
  by apply (bool_decide_unpack _).
Defined.

(** ** Loading a block *)

(** The store is consulted only for known, well-formed CIDs; an absent block is
    reported as such and every other failure is passed on. *)
Theorem load_change_block_spec {P A} cid known (parse : string -> option P) (fetch : P -> A + caught) a :
  loadChangeBlock cid known parse fetch = Loaded a <->
  cid ∈ known /\ exists p, parse cid = Some p /\ fetch p = inl a.
Proof.
  unfold loadChangeBlock, set_has. case_bool_decide; simpl; [|naive_solver].
  destruct (parse cid) as [p|]; [|naive_solver].
  destruct (fetch p) as [a'|err] eqn:E.
  - split; [intros [= <-]; eauto 10|]. intros (_ & p' & [= <-] & E'). congruence.
  - split; [by destruct (isBlockNotFoundError err)|]. intros (_ & p' & [= <-] & E'). congruence.
Qed.

(** ** Concrete trees *)

(** All occurrences, as a list. *)
Fixpoint occurrences {C} (id : option string) (n : CRDTChangeNode C) : list (option string * CRDTChangeNode C) :=
  (id, n) ::
  match n with
  | Node _ _ _ (Children l) =>
      (fix go (l : list (string * CRDTChangeNode C)) :=
         match l with [] => [] | (c, m) :: l' => occurrences (Some c) m ++ go l' end) l
  | _ => []
  end.

Lemma occurrences_children {C} id (n : CRDTChangeNode C) l c m :
  node_children n = Children l -> (c, m) ∈ l -> forall x, x ∈ occurrences (Some c) m -> x ∈ occurrences id n.
Proof.
  destruct n as [k kd ch chs]. simpl. intros -> Hin x Hx. right.
  induction l as [|[c0 m0] l IH]; [by apply elem_of_nil in Hin|].
  apply elem_of_app. apply elem_of_cons in Hin as [[= <- <-]|Hin]; [by left|right; auto].
Qed.

Lemma occ_occurrences {C} rid (r : CRDTChangeNode C) id n : occ rid r id n -> (id, n) ∈ occurrences rid r.
Proof.
  assert (Hself : forall id (n : CRDTChangeNode C), (id, n) ∈ occurrences id n).
  { intros ? [? ? ? ?]. by left. }
  assert (Hstep : forall (r : CRDTChangeNode C) rid id n l c m, (id, n) ∈ occurrences rid r ->
    node_children n = Children l -> (c, m) ∈ l -> (Some c, m) ∈ occurrences rid r).
  { clear rid r id n. intros r. induction r as [k kd ch chs IH] using node_ind'.
    intros rid id n l c m Hin Hch Hl. cbn [occurrences] in Hin.
    apply elem_of_cons in Hin as [[= -> ->]|Hin].
    { by eapply occurrences_children. }
    destruct chs as [| |cl]; [by apply elem_of_nil in Hin..|]. cbn [occurrences]. right.
    induction IH as [|[c0 m0] cl H0 _ IHl]; [by apply elem_of_nil in Hin|].
    apply elem_of_app in Hin as [Hin|Hin]; apply elem_of_app; [left|right; by apply IHl].
    by eapply H0. }
  intros Ho. induction Ho; [apply Hself|]. by eapply Hstep.
Qed.

Lemma coherent_check {C} rid (r : CRDTChangeNode C) :
  Forall (fun p => Forall (fun q => fst p = fst q -> is_Some (fst p) ->
    node_children (snd p) = node_children (snd q)) (occurrences rid r)) (occurrences rid r) ->
  coherent rid r /\ inline_coherent rid r.
Proof.
  rewrite Forall_forall. intros H. assert (Hc : coherent rid r).
  { intros c n1 n2 H1%occ_occurrences H2%occ_occurrences. specialize (H _ H1). rewrite Forall_forall in H.
    apply (H _ H2); [done|by eexists]. }
  split; [done|]. intros c n1 n2 l1 l2 H1 H2 E1 E2. pose proof (Hc c n1 n2 H1 H2). congruence.
Qed.

Lemma inline_check {C} rid (r : CRDTChangeNode C) :
  Forall (fun p => Forall (fun q => fst p = fst q -> forall l1 l2, node_children (snd p) = Children l1 ->
    node_children (snd q) = Children l2 -> l1 = l2) (occurrences rid r)) (occurrences rid r) ->
  inline_coherent rid r.
Proof.
  rewrite Forall_forall. intros H c n1 n2 l1 l2 H1%occ_occurrences H2%occ_occurrences.
  specialize (H _ H1). rewrite Forall_forall in H. by apply (H _ H2).
Qed.

Definition leaf (c : option nat) : CRDTChangeNode nat := Node None DocumentNode c NoChildren.
Definition inner (c : nat) (l : list (string * CRDTChangeNode nat)) : CRDTChangeNode nat :=
  Node None DocumentNode (Some c) (Children l).

(** A head with its primary parent inline and a cross-link to the grandparent,
    which is also inline below the parent. *)
Definition demo_tree : CRDTChangeNode nat :=
  inner 3 [("p"%string, inner 2 [("g"%string, leaf (Some 1))]); ("g"%string, leaf None)].

Lemma demo_coherent : coherent (Some "h"%string) demo_tree /\ inline_coherent (Some "h"%string) demo_tree.
Proof. apply coherent_check. vm_compute. repeat constructor; intros; congruence. Qed.

Lemma merge_sound_witness :
  let entries := [("h"%string, DocumentNode, Some 3); ("p"%string, DocumentNode, Some 2); ("g"%string, DocumentNode, Some 1)] in
  NoDup (map (fun e : MergedSyncEntry => e.1.1) entries) /\
  forall c kd ch, (c, kd, ch) ∈ entries ->
    Some c <> Some "x"%string /\ c ∉ ["y"%string] /\
    exists n, occ (Some "h"%string) demo_tree (Some c) n /\ kd = node_kind n /\ ch = node_change n.
Proof. apply (merge_sound (Some "x"%string) ["y"%string] "h" demo_tree). vm_compute. reflexivity. Defined.

Lemma merge_covers_witness :
  exists kd ch, ("p"%string, kd, ch) ∈ [("h"%string, DocumentNode, Some 3); ("p"%string, DocumentNode, Some 2);
    ("g"%string, DocumentNode, Some 1)] /\ (is_Some (Some 2) -> is_Some ch).
Proof.
  apply (merge_covers None [] "h" demo_tree _ "p" (inner 2 [("g"%string, leaf (Some 1))])).
  - apply demo_coherent.
  - vm_compute. reflexivity.
  - eapply (live_child _ _ _ _ "h" demo_tree); [constructor; reflexivity|reflexivity|by left|reflexivity].
Defined.

Lemma merge_total_witness : exists entries, mergeRemoteSyncTree None [] (Some "g"%string) (leaf (Some 1)) = Ok entries.
Proof.
  apply merge_total. intros c m Hl E. apply live_occ in Hl as [Ho _]. apply occ_occurrences in Ho.
  apply list_elem_of_singleton in Ho. injection Ho as -> ->. discriminate E.
Defined.

Lemma served_frontier_exact_witness :
  "b"%string ∈ computeServedFrontier (Some "h"%string) (Some demo_tree) (Some "b"%string) <->
  (Some "h"%string = Some "b"%string \/ (Some "b"%string = Some "b"%string /\ "b"%string <> ""%string)) /\
  ~ child_key (Some "h"%string) demo_tree "b".
Proof. apply served_frontier_exact. apply demo_coherent. Defined.

Lemma referenced_ancestors_exact_witness :
  "g"%string ∈ collectReferencedAncestors (Some "h"%string) demo_tree ["z"%string] <->
  "g"%string ∈ ["z"%string] \/ child_key (Some "h"%string) demo_tree "g".
Proof. apply referenced_ancestors_exact. apply demo_coherent. Defined.

Lemma tree_listing_exact_witness :
  NoDup (collectAllCidsInTree (Some "h"%string) (Some demo_tree)) /\
  (forall c, c ∈ collectAllCidsInTree (Some "h"%string) (Some demo_tree) <->
     exists n, occ (Some "h"%string) demo_tree (Some c) n) /\
  (forall c, c <> ""%string ->
     treeContainsCid (Some "h"%string) (Some demo_tree) (Some c) = true <->
     c ∈ collectAllCidsInTree (Some "h"%string) (Some demo_tree)).
Proof. apply tree_listing_exact. apply demo_coherent. Defined.

(** The same history with the cross-link listed first: every CID names one
    node, but one mention of [g'] is bare and the other has children. *)
Definition shadow_tree : CRDTChangeNode nat :=
  inner 3 [("g"%string, leaf None);
           ("p"%string, inner 2 [("g"%string, inner 1 [("r"%string, leaf (Some 0))])])].

(** A CID met first as a bare cross-link hides what is inline below its
    later occurrence from the search, the listing and the frontier, although
    the merge does visit it: [r] is in the tree, and the three walks miss it.
    The served boundary [r] then counts as a head although a node references
    it. *)
Theorem cross_link_shadows :
  inline_coherent (Some "h"%string) shadow_tree /\
  (exists n, occ (Some "h"%string) shadow_tree (Some "r"%string) n) /\
  child_key (Some "h"%string) shadow_tree "r" /\
  treeContainsCid (Some "h"%string) (Some shadow_tree) (Some "r"%string) = false /\
  "r"%string ∉ collectAllCidsInTree (Some "h"%string) (Some shadow_tree) /\
  "r"%string ∈ computeServedFrontier (Some "h"%string) (Some shadow_tree) (Some "r"%string) /\
  exists entries, mergeRemoteSyncTree None [] (Some "h"%string) shadow_tree = Ok entries /\
    ("r"%string, DocumentNode, Some 0) ∈ entries.
Proof.
  assert (Hg : occ (Some "h"%string) shadow_tree (Some "g"%string) (inner 1 [("r"%string, leaf (Some 0))])).
  { eapply occ_child; [eapply occ_child; [constructor|reflexivity|by right; left]|reflexivity|by left]. }
  split_and!.
  - apply inline_check. vm_compute. repeat constructor; intros; congruence.
  - eexists. eapply occ_child; [exact Hg|reflexivity|by left].
  - eexists _, _, _, _. split_and!; [exact Hg|reflexivity|by left].
  - reflexivity.
  - by apply (bool_decide_unpack _).
  - by apply (bool_decide_unpack _).
  - eexists. split; [vm_compute; reflexivity|]. by apply (bool_decide_unpack _).
Qed.
End ChangeTree.
