(* ===== verification/AclChain.v ===== *)
(** * The hash-linked log of ACL changes

    Models [packages/collabswarm/src/acl-chain.ts]. The parameters are the
    collaborators the class is given: the key and change serializers, the
    signature scheme, SHA-256 and the ACL adapter; each may throw ([None]).
    An entry from the network is a [RawEntry], whose fields may have the wrong
    type; [validateEntryShape] turns it into an [ACLEntry] or names the fault.
    Messages of failed verifications are not modelled. *)
From stdpp Require Import base numbers list list_numbers strings.
From Stdlib Require Import ZArith QArith Qround Lia.
From S2P Require Import Prelude.

Open Scope Z_scope.

Module AclChain.

(** ** Byte comparison *)

Definition byte_or_0 (b : bytes) (i : nat) : Z := match b !! i with Some x => byte_to_Z x | None => 0 end.

Definition bytesEqual (a b : bytes) : bool :=
  if negb (length a =? length b)%nat then false
  else foldl (fun diff i => js_or diff (js_xor (byte_or_0 a i) (byte_or_0 b i))) 0 (seq 0 (length a)) =? 0.

Definition MAX_PARENT_HASH_BYTES : Z := 64.
Definition MAX_SIGNER_KEY_BYTES : Z := 256.
Definition MAX_CHANGE_BYTES : Z := Z.shiftl 1 20.

Definition blen (b : bytes) : Z := Z.of_nat (length b).

(** ** Entries *)

Section Entries.
  Context {Change : Type}.

Record ACLEntry : Type := Entry {
  sequenceNumber : Z;
  timestamp : Z;
  parentHash : option bytes;
  change : Change;
  signerKeyId : bytes;
  signature : bytes }.

(** Runtime data: a number field may hold something else ([None]), a byte field
    something that is not a [Uint8Array] ([None]); [parentHash] may also be
    [undefined] (the outer [None]). *)
Inductive RawEntry : Type :=
| NotAnObject
| Raw (sequenceNumber timestamp : option num) (parentHash : option (option bytes))
    (change : Change) (signerKeyId signature : option bytes).

(** [Number.isInteger(x) && 0 <= x <= max] *)
Definition int_in_range (x : option num) (max : Z) : option Z :=
  match x with
  | Some (Fin q) =>
      if num_is_integer (Fin q) && num_le 0 (Fin q) && num_le (Fin q) max then Some (Qfloor q) else None
  | _ => None
  end.

Definition bytes_in_range (b : bytes) (max : Z) : bool := negb (blen b =? 0) && (blen b <=? max).

Definition validateEntryShape (raw : RawEntry) : ACLEntry + string :=
  match raw with
  | NotAnObject => inr "entry is not an object"%string
  | Raw seq ts parent ch signer sig =>
      match int_in_range seq (2 ^ 32 - 1) with
      | None => inr "sequenceNumber is not an unsigned 32-bit integer"%string
      | Some seqNo =>
          match int_in_range ts MAX_SAFE_INTEGER with
          | None => inr "timestamp is not a non-negative safe integer"%string
          | Some time =>
              match signer with
              | None => inr "signerKeyId is not a Uint8Array"%string
              | Some signerKey =>
                  if negb (bytes_in_range signerKey MAX_SIGNER_KEY_BYTES)
                  then inr "signerKeyId has an implausible length"%string else
                  match sig with
                  | None => inr "signature is not a Uint8Array"%string
                  | Some sigBytes =>
                      if negb (bytes_in_range sigBytes 1024)
                      then inr "signature has an implausible length"%string else
                      match parent with
                      | None => inl (Entry seqNo time None ch signerKey sigBytes)
                      | Some None => inr "parentHash is not a Uint8Array"%string
                      | Some (Some p) =>
                          if negb (bytes_in_range p MAX_PARENT_HASH_BYTES)
                          then inr "parentHash has an implausible length"%string
                          else inl (Entry seqNo time (Some p) ch signerKey sigBytes)
                      end
                  end
              end
          end
      end
  end.

(** The object a peer receives for a well-formed entry. *)
Definition raw_of (e : ACLEntry) : RawEntry :=
  Raw (Some (num_of_Z (sequenceNumber e))) (Some (num_of_Z (timestamp e))) (Some <$> parentHash e)
    (change e) (Some (signerKeyId e)) (Some (signature e)).

Definition canonicalEntryPayloadFromBytes (e : ACLEntry) (changeBytes : bytes) : bytes :=
  let parent := default [] (parentHash e) in
  let signerKey := signerKeyId e in
  let ts := timestamp e in
  let tsHi := ts / 0x100000000 in
  let tsLo := to_uint32 ts in
  be32 (to_uint32 (sequenceNumber e)) ++ be32 tsHi ++ be32 tsLo ++
  be32 (to_uint32 (blen parent)) ++ parent ++
  be32 (to_uint32 (blen signerKey)) ++ signerKey ++
  be32 (to_uint32 (blen changeBytes)) ++ changeBytes.

End Entries.
Arguments ACLEntry : clear implicits.
Arguments RawEntry : clear implicits.

(** What [serializeChange] did. *)
Inductive serialized : Type :=
| SerThrew
| SerNotBytes
| SerBytes (b : bytes).

Inductive ACLChainVerifyError : Type :=
| BadSignature
| UnauthorizedSigner
| ParentHashMismatch
| SequenceOutOfOrder
| UnknownSignerKey
| MalformedEntry.

#[export] Instance verify_error_eq_dec : EqDecision ACLChainVerifyError.
Proof. solve_decision. Defined.

Inductive ACLChainVerifyResult : Type :=
| VerifyOk
| VerifyFail (reason : ACLChainVerifyError) (index : Z).

(** ** The chain *)

Section Chain.
  Context {Change PublicKey PrivateKey AclState : Type}.
  (** [ACLChainConfig]: each collaborator may throw. *)
  Context (serializeKey : PublicKey -> option bytes)
    (serializeChange : Change -> serialized)
    (as_bytes : Change -> option bytes)
    (sha256 : bytes -> bytes)
    (verify : bytes -> PublicKey -> bytes -> option bool)
    (sign : bytes -> PrivateKey -> option bytes)
    (emptyState : option AclState)
    (applyChange : AclState -> Change -> option AclState)
    (isWriter : AclState -> PublicKey -> option bool)
    (genesisAuthorizedKeys : list PublicKey).

Record ACLChain : Type := Chain {
  entries : list (ACLEntry Change);
  entryHashes : list bytes;
  state : option AclState }.

Definition emptyChain : ACLChain := Chain [] [] None.

Definition chain_length (c : ACLChain) : Z := Z.of_nat (length (entries c)).

Definition headHash (c : ACLChain) : option bytes := last (entryHashes c).

(** The loop of [_isInBootstrapSet]; [None] when a serializer throws. *)
Fixpoint bootstrap_loop (candidateBytes : bytes) (allowed : list PublicKey) : option bool :=
  match allowed with
  | [] => Some false
  | k :: allowed' =>
      match serializeKey k with
      | None => None
      | Some allowedBytes =>
          if bytesEqual candidateBytes allowedBytes then Some true
          else bootstrap_loop candidateBytes allowed'
      end
  end.

Definition isInBootstrapSet (candidate : PublicKey) : option bool :=
  match serializeKey candidate with
  | None => None
  | Some candidateBytes => bootstrap_loop candidateBytes genesisAuthorizedKeys
  end.

(** Step 3 of the ingestion. *)
Definition parent_matches (c : ACLChain) (e : ACLEntry Change) : bool :=
  match headHash c, parentHash e with
  | None, None => true
  | None, Some _ => false
  | Some _, None => false
  | Some head, Some p => bytesEqual head p
  end.

(** Step 4: the payload bytes, when every size gate passes. *)
Definition encode_bounded (e : ACLEntry Change) : option bytes :=
  let too_big := match as_bytes (change e) with Some b => MAX_CHANGE_BYTES <? blen b | None => false end in
  if too_big then None
  else
    match serializeChange (change e) with
    | SerBytes changeBytes =>
        if MAX_CHANGE_BYTES <? blen changeBytes then None
        else
          let payloadBytes := canonicalEntryPayloadFromBytes e changeBytes in
          if MAX_CHANGE_BYTES + 1024 <? blen payloadBytes then None else Some payloadBytes
    | _ => None
    end.

(** Step 6. *)
Definition authorized (c : ACLChain) (priorState : AclState) (signer : PublicKey) : option bool :=
  if (length (entries c) =? 0)%nat then isInBootstrapSet signer else isWriter priorState signer.

Definition ingestEntryInternal (c : ACLChain) (raw : RawEntry Change) (signerPublicKey : PublicKey)
    : ACLChainVerifyResult * ACLChain :=
  let index := chain_length c in
  let fail r := (VerifyFail r index, c) in
  match validateEntryShape raw with
  | inr _ => fail MalformedEntry
  | inl e =>
      match serializeKey signerPublicKey with
      | None => fail MalformedEntry
      | Some actual =>
          if negb (bytesEqual (signerKeyId e) actual) then fail UnknownSignerKey
          else if negb (sequenceNumber e =? index) then fail SequenceOutOfOrder
          else if negb (parent_matches c e) then fail ParentHashMismatch
          else
            match encode_bounded e with
            | None => fail MalformedEntry
            | Some payloadBytes =>
                let entryHash := sha256 payloadBytes in
                match verify payloadBytes signerPublicKey (signature e) with
                | None | Some false => fail BadSignature
                | Some true =>
                    match (match state c with Some s => Some s | None => emptyState end) with
                    | None => fail MalformedEntry
                    | Some priorState =>
                        match authorized c priorState signerPublicKey with
                        | None => fail MalformedEntry
                        | Some false => fail UnauthorizedSigner
                        | Some true =>
                            match applyChange priorState (change e) with
                            | None => fail MalformedEntry
                            | Some newState =>
                                (VerifyOk, Chain (entries c ++ [e]) (entryHashes c ++ [entryHash]) (Some newState))
                            end
                        end
                    end
                end
            end
      end
  end.

(** [ingestEntry] and [authorAndAppend] run as tasks of the mutation queue: the
    next one starts on the chain the previous one left. *)
Definition ingestEntry (c : ACLChain) (raw : RawEntry Change) (signer : PublicKey)
    : ACLChainVerifyResult * ACLChain := ingestEntryInternal c raw signer.

(** [None] when the promise rejects. The timestamp is an integer. *)
Definition authorAndAppend (c : ACLChain) (ch : Change) (pub : PublicKey) (priv : PrivateKey) (time : Z)
    : option (ACLEntry Change) * ACLChain :=
  match serializeKey pub with
  | None => (None, c)
  | Some signerKey =>
      match serializeChange ch with
      | SerBytes changeBytes =>
          let unsigned := Entry (chain_length c) time (headHash c) ch signerKey [] in
          let encoded := canonicalEntryPayloadFromBytes unsigned changeBytes in
          match sign encoded priv with
          | None => (None, c)
          | Some sig =>
              let entry := Entry (chain_length c) time (headHash c) ch signerKey sig in
              match ingestEntryInternal c (raw_of entry) pub with
              | (VerifyOk, c') => (Some entry, c')
              | (VerifyFail _ _, c') => (None, c')
              end
          end
      | _ => (None, c)
      end
  end.

(** The loop of [replay]; [resolveKey] may throw or know no key ([None]). *)
Fixpoint replay_loop (i : Z) (raws : list (RawEntry Change)) (resolveKey : bytes -> option PublicKey)
    (c : ACLChain) : ACLChainVerifyResult * ACLChain :=
  match raws with
  | [] => (VerifyOk, c)
  | raw :: raws' =>
      match validateEntryShape raw with
      | inr _ => (VerifyFail MalformedEntry i, c)
      | inl e =>
          match resolveKey (signerKeyId e) with
          | None => (VerifyFail UnknownSignerKey i, c)
          | Some signerKey =>
              match ingestEntryInternal c raw signerKey with
              | (VerifyOk, c') => replay_loop (i + 1) raws' resolveKey c'
              | (VerifyFail r idx, c') => (VerifyFail r idx, c')
              end
          end
      end
  end.

Definition replay (c : ACLChain) (raws : list (RawEntry Change)) (resolveKey : bytes -> option PublicKey)
    : ACLChainVerifyResult * ACLChain :=
  replay_loop 0 raws resolveKey emptyChain.

(** The mutation queue: the tasks run one after the other, whatever the outcome
    of the earlier ones. *)
Inductive task : Type :=
| TIngest (raw : RawEntry Change) (signer : PublicKey)
| TAuthor (ch : Change) (pub : PublicKey) (priv : PrivateKey) (time : Z)
| TReplay (raws : list (RawEntry Change)) (resolveKey : bytes -> option PublicKey).

Definition run_task (c : ACLChain) (t : task) : ACLChain :=
  match t with
  | TIngest raw signer => snd (ingestEntry c raw signer)
  | TAuthor ch pub priv time => snd (authorAndAppend c ch pub priv time)
  | TReplay raws resolveKey => snd (replay c raws resolveKey)
  end.

Definition run_queue (c : ACLChain) (ts : list task) : ACLChain := foldl run_task c ts.

(** ** What an append means

    [append c e signer c'] is the promise of the chain: the entry continues the
    head, is signed by [signer] over its canonical payload, [signer] had the
    authority in the state before it, and the state advances by its change. *)
Record append (c : ACLChain) (e : ACLEntry Change) (signer : PublicKey) (c' : ACLChain) : Prop := {
  app_signer : serializeKey signer = Some (signerKeyId e);
  app_seq : sequenceNumber e = chain_length c;
  app_parent : parentHash e = headHash c;
  app_effect : exists payload prior new,
    encode_bounded e = Some payload /\ verify payload signer (signature e) = Some true /\
    (match state c with Some s => Some s | None => emptyState end) = Some prior /\
    authorized c prior signer = Some true /\ applyChange prior (change e) = Some new /\
    c' = Chain (entries c ++ [e]) (entryHashes c ++ [sha256 payload]) (Some new) }.
End Chain.

(** ** Bytes *)

Lemma bytesEqual_spec a b : bytesEqual a b = true <-> a = b.
Proof.
  unfold bytesEqual. destruct (Nat.eqb_spec (length a) (length b)) as [El|Hne]; cbn [negb].
  2: { split; [done|]. intros ->. done. }
  rewrite Z.eqb_eq, foldl_diff by lia. split.
  - intros [_ Hall]. apply list_eq_same_length with (length a); [done..|].
    intros i x y Hi Hx Hy. rewrite Forall_forall in Hall.
    specialize (Hall i ltac:(apply elem_of_seq; lia)). unfold byte_or_0 in Hall. rewrite Hx, Hy in Hall.
    pose proof (byte_to_Z_range x). pose proof (byte_to_Z_range y).
    rewrite !to_int32_small in Hall by lia. by apply (inj byte_to_Z).
  - intros ->. split; [done|]. by apply Forall_true.
Qed.

Lemma int_in_range_Z z max : 0 <= z <= max -> int_in_range (Some (num_of_Z z)) max = Some z.
Proof.
  intros. unfold int_in_range, num_of_Z at 1. fold (num_of_Z z). cbn iota beta.
  change (Fin (inject_Z z)) with (num_of_Z z). rewrite num_is_integer_Z, !num_le_Z, Qfloor_Z.
  destruct (Z.leb_spec 0 z), (Z.leb_spec z max); simpl; done || lia.
Qed.

Lemma int_in_range_bound x max z : int_in_range x max = Some z -> 0 <= z <= max.
Proof.
  destruct x as [[q| | |]|]; try done. unfold int_in_range.
  destruct (num_is_integer (Fin q)); [|done]. unfold num_le, num_of_Z. simpl.
  destruct (Qle_bool (inject_Z 0) q) eqn:E1; [|done]. destruct (Qle_bool q (inject_Z max)) eqn:E2; [|done].
  intros [= <-]. apply Qle_bool_iff in E1, E2. apply Qfloor_resp_le in E1, E2. by rewrite !Qfloor_Z in *.
Qed.

(** The entries that have a plausible shape. *)
Definition well_shaped {Change} (e : ACLEntry Change) : Prop :=
  0 <= sequenceNumber e <= 2 ^ 32 - 1 /\ 0 <= timestamp e <= MAX_SAFE_INTEGER /\
  bytes_in_range (signerKeyId e) MAX_SIGNER_KEY_BYTES = true /\
  bytes_in_range (signature e) 1024 = true /\
  match parentHash e with None => True | Some p => bytes_in_range p MAX_PARENT_HASH_BYTES = true end.

Lemma shape_ok {Change} (raw : RawEntry Change) e : validateEntryShape raw = inl e -> well_shaped e.
Proof.
  destruct raw as [|seq ts parent ch signer sig]; [done|]. unfold validateEntryShape.
  destruct (int_in_range seq _) eqn:E1; [|done]. destruct (int_in_range ts _) eqn:E2; [|done].
  apply int_in_range_bound in E1, E2. destruct signer as [sk|]; [|done].
  destruct (bytes_in_range sk _) eqn:E3; [|done]. destruct sig as [sg|]; [|done]. cbn [negb].
  destruct (bytes_in_range sg _) eqn:E4; [|done]. cbn [negb]. destruct parent as [[p|]|]; [|done|].
  - destruct (bytes_in_range p _) eqn:E5; [|done]. intros [= <-]. unfold well_shaped. simpl. auto.
  - intros [= <-]. unfold well_shaped. simpl. auto.
Qed.

Lemma shape_raw_of {Change} (e : ACLEntry Change) : well_shaped e -> validateEntryShape (raw_of e) = inl e.
Proof.
  intros (H1 & H2 & H3 & H4 & H5). unfold raw_of, validateEntryShape.
  rewrite !int_in_range_Z by done. rewrite H3, H4. cbn [negb]. destruct e as [sq ts [p|] ch sk sg]; simpl in *; [|done].
  by rewrite H5.
Qed.

(** ** The canonical payload *)

Lemma be32_app_inj x y (k l : bytes) :
  0 <= x < 2 ^ 32 -> 0 <= y < 2 ^ 32 -> be32 x ++ k = be32 y ++ l -> x = y /\ k = l.
Proof.
  intros Hx Hy E. apply app_inj_length in E as [E ->]; [|done]. by apply be32_inj in E.
Qed.

Lemma to_uint32_range z : 0 <= to_uint32 z < 2 ^ 32.
Proof. apply Z.mod_pos_bound. lia. Qed.

Lemma field_inj (a b k l : bytes) :
  blen a < 2 ^ 32 -> blen b < 2 ^ 32 ->
  be32 (to_uint32 (blen a)) ++ a ++ k = be32 (to_uint32 (blen b)) ++ b ++ l -> a = b /\ k = l.
Proof.
  intros Ha Hb E. apply be32_app_inj in E as [El E]; [|apply to_uint32_range..].
  unfold to_uint32, blen in *. rewrite !Z.mod_small in El by lia. apply app_inj_length in E; [done|lia].
Qed.

Lemma range_blen b max : bytes_in_range b max = true -> 0 < blen b <= max.
Proof.
  unfold bytes_in_range, blen. intros [H1 H2]%andb_true_iff. apply Z.leb_le in H2.
  apply negb_true_iff, Z.eqb_neq in H1. lia.
Qed.

Lemma parent_or_empty_inj (p q : option bytes) :
  match p with None => True | Some p => bytes_in_range p MAX_PARENT_HASH_BYTES = true end ->
  match q with None => True | Some q => bytes_in_range q MAX_PARENT_HASH_BYTES = true end ->
  default [] p = default [] q -> p = q.
Proof.
  destruct p as [p|], q as [q|]; simpl; intros Hp Hq; [by intros -> | intros -> | intros <- | done].
  - apply range_blen in Hp. unfold blen in Hp. simpl in Hp. lia.
  - apply range_blen in Hq. unfold blen in Hq. simpl in Hq. lia.
Qed.

Lemma payload_injective {Change} (e f : ACLEntry Change) (cb db : bytes) :
  well_shaped e -> well_shaped f -> blen cb < 2 ^ 32 -> blen db < 2 ^ 32 ->
  canonicalEntryPayloadFromBytes e cb = canonicalEntryPayloadFromBytes f db ->
  sequenceNumber e = sequenceNumber f /\ timestamp e = timestamp f /\ parentHash e = parentHash f /\
  signerKeyId e = signerKeyId f /\ cb = db.
Proof.
  intros (Hs & Ht & Hk & _ & Hp) (Hs' & Ht' & Hk' & _ & Hp') Hc Hd. unfold canonicalEntryPayloadFromBytes.
  intros E. apply be32_app_inj in E as [E1 E]; [|apply to_uint32_range..].
  unfold MAX_SAFE_INTEGER in *.
  assert (Hhi : forall t, 0 <= t <= 2 ^ 53 - 1 -> 0 <= t / 0x100000000 < 2 ^ 32).
  { intros t Hr. Z.div_mod_to_equations. lia. }
  apply be32_app_inj in E as [E2 E]; [|by apply Hhi..].
  apply be32_app_inj in E as [E3 E]; [|apply to_uint32_range..].
  assert (Hpl : forall p : option bytes,
    match p with None => True | Some p => bytes_in_range p MAX_PARENT_HASH_BYTES = true end ->
    blen (default [] p) < 2 ^ 32).
  { intros [p|] Hr; [|done]. apply range_blen in Hr. unfold MAX_PARENT_HASH_BYTES in Hr. simpl. lia. }
  apply field_inj in E as [E4 E]; [|by apply Hpl..].
  apply range_blen in Hk, Hk'. unfold MAX_SIGNER_KEY_BYTES in *. apply field_inj in E as [E5 E]; [|lia..].
  rewrite <- (app_nil_r cb), <- (app_nil_r db) in E. rewrite !app_nil_r in E.
  apply be32_app_inj in E as [_ E]; [|apply to_uint32_range..].
  unfold to_uint32 in *. rewrite !Z.mod_small in E1 by lia. split_and!; [done| |by apply parent_or_empty_inj|done|done].
  clear -E2 E3 Ht Ht'. change 0x100000000 with (2 ^ 32) in E2.
  pose proof (Z.div_mod (timestamp e) (2 ^ 32)). pose proof (Z.div_mod (timestamp f) (2 ^ 32)). lia.
Qed.

(** ** Ingestion *)

Section ChainFacts.
  Context {Change PublicKey PrivateKey AclState : Type}
    (serializeKey : PublicKey -> option bytes) (serializeChange : Change -> serialized)
    (as_bytes : Change -> option bytes) (sha256 : bytes -> bytes)
    (verify : bytes -> PublicKey -> bytes -> option bool) (sign : bytes -> PrivateKey -> option bytes)
    (emptyState : option AclState) (applyChange : AclState -> Change -> option AclState)
    (isWriter : AclState -> PublicKey -> option bool) (genesisAuthorizedKeys : list PublicKey).

Abbreviation chain := (@ACLChain Change AclState).
Abbreviation ingest := (ingestEntryInternal serializeKey serializeChange as_bytes sha256 verify
  emptyState applyChange isWriter genesisAuthorizedKeys).
Abbreviation author := (authorAndAppend serializeKey serializeChange as_bytes sha256 verify sign
  emptyState applyChange isWriter genesisAuthorizedKeys).
Abbreviation replay_from := (replay_loop serializeKey serializeChange as_bytes sha256 verify
  emptyState applyChange isWriter genesisAuthorizedKeys).
Abbreviation appends := (append serializeKey serializeChange as_bytes sha256 verify
  emptyState applyChange isWriter genesisAuthorizedKeys).
Abbreviation run_all := (run_queue serializeKey serializeChange as_bytes sha256 verify sign
  emptyState applyChange isWriter genesisAuthorizedKeys).

Lemma parent_matches_spec (c : chain) e : parent_matches c e = true <-> parentHash e = headHash c.
Proof.
  clear sign. unfold parent_matches. destruct (headHash c) as [h|], (parentHash e) as [p|]; try naive_solver.
  rewrite bytesEqual_spec. naive_solver.
Qed.

Lemma ingest_spec (c : chain) raw signer :
  match ingest c raw signer with
  | (VerifyOk, c') => exists e, validateEntryShape raw = inl e /\ appends c e signer c'
  | (VerifyFail _ i, c') => c' = c /\ i = chain_length c /\
      forall e c'', validateEntryShape raw = inl e -> ~ appends c e signer c''
  end.
Proof.
  unfold ingestEntryInternal. destruct (validateEntryShape raw) as [e|] eqn:Es; [|naive_solver].
  assert (Hfail : (forall c'', ~ appends c e signer c'') -> c = c /\ chain_length c = chain_length c /\
    forall e' c'', (inl e : ACLEntry Change + string) = inl e' -> ~ appends c e' signer c'').
  { intros Hno. split_and!; [done..|]. intros e' c'' [= <-]. apply Hno. }
  destruct (serializeKey signer) as [k|] eqn:Ek.
  2: { refine (Hfail _). intros c'' [H1 _ _ _]. congruence. }
  destruct (bytesEqual (signerKeyId e) k) eqn:Eb; cbn [negb].
  2: { refine (Hfail _). intros c'' [H1 _ _ _]. rewrite Ek in H1. injection H1 as ->.
       by rewrite (proj2 (bytesEqual_spec _ _) eq_refl) in Eb. }
  apply bytesEqual_spec in Eb. destruct (Z.eqb_spec (sequenceNumber e) (chain_length c)) as [Eq|Hne]; cbn [negb].
  2: { refine (Hfail _). by intros c'' [_ H1 _ _]. }
  destruct (parent_matches c e) eqn:Ep; cbn [negb].
  2: { refine (Hfail _). intros c'' [_ _ H1 _]. apply parent_matches_spec in H1. congruence. }
  apply parent_matches_spec in Ep.
  destruct (encode_bounded _ _ e) as [pl|] eqn:El.
  2: { refine (Hfail _). intros c'' [_ _ _ (? & ? & ? & ? & _)]. congruence. }
  destruct (verify pl signer (signature e)) as [[]|] eqn:Ev.
  2,3: refine (Hfail _); intros c'' [_ _ _ (? & ? & ? & ? & ? & _)]; congruence.
  set (pst := match state c with Some s => Some s | None => emptyState end). destruct pst as [pr|] eqn:Epr.
  2: { refine (Hfail _). intros c'' [_ _ _ (? & ? & ? & _ & _ & H1 & _)]. unfold pst in Epr. congruence. }
  destruct (authorized _ _ _ c pr signer) as [[]|] eqn:Ea.
  2,3: refine (Hfail _); intros c'' [_ _ _ (? & ? & ? & _ & _ & H1 & H2 & _)]; unfold pst in Epr; congruence.
  destruct (applyChange pr (change e)) as [nw|] eqn:En.
  2: { refine (Hfail _). intros c'' [_ _ _ (? & ? & ? & _ & _ & H1 & _ & H2 & _)]. unfold pst in Epr. congruence. }
  exists e. split; [done|]. split; [by subst k|done|done|]. exists pl, pr, nw. by split_and!.
Qed.

(** Chains built by appends. *)
Inductive valid : chain -> Prop :=
| valid_empty : valid emptyChain
| valid_append c e signer c' : valid c -> well_shaped e -> appends c e signer c' -> valid c'.

Lemma valid_lengths c : valid c -> length (entryHashes c) = length (entries c).
Proof.
  induction 1 as [|c e signer c' Hv IH He [_ _ _ (pl & pr & nw & _ & _ & _ & _ & _ & ->)]]; [done|].
  simpl. rewrite !length_app. simpl. lia.
Qed.

Lemma ingest_valid c raw signer : valid c -> valid (snd (ingest c raw signer)).
Proof.
  intros Hv. pose proof (ingest_spec c raw signer) as Hs.
  destruct (ingest c raw signer) as [[|r i] c']; simpl.
  - destruct Hs as (e & He & Ha). eapply valid_append; [done|by eapply shape_ok|done].
  - by destruct Hs as (-> & _).
Qed.

Lemma replay_valid raws resolve : forall i c, valid c -> valid (snd (replay_from i raws resolve c)).
Proof.
  induction raws as [|raw raws IH]; intros i c Hv; simpl; [done|].
  destruct (validateEntryShape raw) as [e|]; [|done]. destruct (resolve _) as [k|]; [|done].
  pose proof (ingest_valid c raw k Hv). destruct (ingest c raw k) as [[|] c']; simpl in *; auto.
Qed.

Lemma author_cases c ch pub priv time :
  author c ch pub priv time = (None, c) \/
  exists e, fst (author c ch pub priv time) = Some e /\
    ingest c (raw_of e) pub = (VerifyOk, snd (author c ch pub priv time)) /\
    timestamp e = time /\ change e = ch /\ sequenceNumber e = chain_length c /\ parentHash e = headHash c.
Proof.
  unfold authorAndAppend. destruct (serializeKey pub) as [k|]; [|by left].
  destruct (serializeChange ch) as [| |cb]; [by left..|]. destruct (sign _ priv) as [sig|]; [|by left].
  set (e := Entry _ _ _ _ _ sig). pose proof (ingest_spec c (raw_of e) pub) as Hs.
  destruct (ingest c (raw_of e) pub) as [[|r i] c'] eqn:E.
  - right. by exists e.
  - left. by destruct Hs as (-> & _).
Qed.

Lemma run_queue_valid ts : forall c, valid c -> valid (run_all c ts).
Proof.
  induction ts as [|t ts IH]; intros c Hv; [done|]. apply IH. destruct t as [raw signer|ch pub priv time|raws resolve]; simpl.
  - by apply ingest_valid.
  - destruct (author_cases c ch pub priv time) as [->|(e & _ & E & _)]; [done|].
    pose proof (ingest_valid c (raw_of e) pub Hv) as H. by rewrite E in H.
  - apply replay_valid. constructor.
Qed.

Lemma append_entries c e signer c' : appends c e signer c' ->
  entries c' = entries c ++ [e] /\ exists payload, encode_bounded serializeChange as_bytes e = Some payload /\
    entryHashes c' = entryHashes c ++ [sha256 payload].
Proof. intros [_ _ _ (pl & pr & nw & ? & _ & _ & _ & _ & ->)]. eauto. Qed.

(** Every position of a valid chain. *)
Lemma valid_entry c i e : valid c -> entries c !! i = Some e ->
  well_shaped e /\ sequenceNumber e = Z.of_nat i /\
  parentHash e = match i with O => None | S j => entryHashes c !! j end /\
  (exists payload, encode_bounded serializeChange as_bytes e = Some payload /\
     entryHashes c !! i = Some (sha256 payload)) /\
  exists ci signer ci', valid ci /\ entries ci = take i (entries c) /\ appends ci e signer ci'.
Proof.
  intros Hv. revert i e. induction Hv as [|c e0 signer c' Hv IH He0 Ha]; intros i e Hi; [done|].
  pose proof (valid_lengths c Hv) as Hlen. destruct (append_entries _ _ _ _ Ha) as (Ee & pl & Epl & Eh).
  rewrite Ee in *. apply lookup_app_Some in Hi as [Hi|[Hge Hi]].
  - assert (Hlt : (i < length (entries c))%nat) by by eapply lookup_lt_Some.
    destruct (IH i e Hi) as (Hws & Hseq & Hpar & (pl' & Hpl' & Hh') & ci & k & ci' & Hvi & Eci & Hai).
    split_and!; [done|done| | |].
    + rewrite Hpar. destruct i as [|j]; [done|]. by rewrite Eh, lookup_app_l by lia.
    + exists pl'. split; [done|]. rewrite Eh. by apply lookup_app_l_Some.
    + exists ci, k, ci'. split_and!; [done| |done]. by rewrite take_app_le by lia.
  - apply list_lookup_singleton_Some in Hi as [Hz <-]. assert (i = length (entries c)) as -> by lia.
    pose proof (app_seq _ _ _ _ _ _ _ _ _ _ _ _ _ Ha) as Hseq. pose proof (app_parent _ _ _ _ _ _ _ _ _ _ _ _ _ Ha) as Hpar.
    split_and!; [done|done| | |].
    + rewrite Hpar. unfold headHash. rewrite last_lookup, Hlen. destruct (length (entries c)) eqn:El; simpl.
      * by rewrite (nil_length_inv (entryHashes c)) by lia.
      * by rewrite Eh, lookup_app_l by lia.
    + exists pl. split; [done|]. rewrite Eh, lookup_app_r, Hlen, Nat.sub_diag by lia. done.
    + exists c, signer, c'. split_and!; [done| |done]. by rewrite take_app_length.
Qed.

Lemma append_functional c e signer c1 c2 : appends c e signer c1 -> appends c e signer c2 -> c1 = c2.
Proof.
  intros [_ _ _ (p1 & s1 & n1 & ? & ? & ? & ? & ? & ->)] [_ _ _ (p2 & s2 & n2 & ? & ? & ? & ? & ? & ->)].
  congruence.
Qed.

Lemma ingest_complete c e signer c' :
  well_shaped e -> appends c e signer c' -> ingest c (raw_of e) signer = (VerifyOk, c').
Proof.
  intros Hw Ha. pose proof (ingest_spec c (raw_of e) signer) as Hs. rewrite (shape_raw_of e Hw) in Hs.
  destruct (ingest c (raw_of e) signer) as [[|r i] c''].
  - destruct Hs as (e' & [= <-] & Ha'). f_equal. by eapply append_functional.
  - destruct Hs as (_ & _ & Hno). by destruct (Hno e c' eq_refl).
Qed.

(** ** Theorems *)

(** C1. Ingestion implements the append contract exactly. An entry is accepted
    if and only if it has a valid shape and continues the chain: it names the
    supplied key, the next sequence number and the current head, it is signed
    by that key over its canonical bytes, the key was authorized in the state
    before the entry, and the change applies. A rejected entry leaves the chain
    as it was and reports the position it was checked at. *)
Theorem ingest_refines_append c raw signer c' :
  (ingestEntry serializeKey serializeChange as_bytes sha256 verify emptyState applyChange isWriter
     genesisAuthorizedKeys c raw signer = (VerifyOk, c') <->
   exists e, validateEntryShape raw = inl e /\ appends c e signer c') /\
  (forall r i, ingestEntry serializeKey serializeChange as_bytes sha256 verify emptyState applyChange isWriter
     genesisAuthorizedKeys c raw signer = (VerifyFail r i, c') -> c' = c /\ i = chain_length c).
Proof.
  unfold ingestEntry. pose proof (ingest_spec c raw signer) as Hs. split.
  - split.
    + intros E. by rewrite E in Hs.
    + intros (e & He & Ha). destruct (ingest c raw signer) as [[|r i] c''].
      * destruct Hs as (e' & He' & Ha'). f_equal. rewrite He in He'. injection He' as <-. by eapply append_functional.
      * destruct Hs as (_ & _ & Hno). by destruct (Hno e c' He).
  - intros r i E. rewrite E in Hs. by destruct Hs as (-> & -> & _).
Qed.

(** C16. However ingestions, authored entries and replays are queued, and
    whatever the network supplies, the chain stays an unbroken chain of trust:
    the entry at position [i] has sequence number [i] and the hash of its
    predecessor as parent, the stored hash is the hash of its canonical bytes,
    and its signer was authorized by the state the first [i] entries produced. *)
Theorem queue_keeps_chain ts i e :
  let c := run_all emptyChain ts in
  entries c !! i = Some e ->
  sequenceNumber e = Z.of_nat i /\
  parentHash e = match i with O => None | S j => entryHashes c !! j end /\
  (exists payload, encode_bounded serializeChange as_bytes e = Some payload /\
     entryHashes c !! i = Some (sha256 payload)) /\
  exists ci signer ci', valid ci /\ entries ci = take i (entries c) /\ appends ci e signer ci'.
Proof.
  intros c Hi. assert (Hv : valid c) by (apply run_queue_valid; constructor).
  destruct (valid_entry c i e Hv Hi) as (_ & ? & ? & ? & ?). done.
Qed.

(** An authored entry is accepted by every peer that holds the same chain,
    with the same result. *)
Theorem author_then_ingest c ch pub priv time e c' :
  author c ch pub priv time = (Some e, c') -> ingest c (raw_of e) pub = (VerifyOk, c').
Proof.
  intros E. destruct (author_cases c ch pub priv time) as [E'|(e' & E1 & E2 & _)]; [congruence|].
  rewrite E in *. simpl in *. by injection E1 as <-.
Qed.

Lemma replay_app raws1 raws2 resolve : forall i c,
  replay_from i (raws1 ++ raws2) resolve c =
  match replay_from i raws1 resolve c with
  | (VerifyOk, c') => replay_from (i + Z.of_nat (length raws1)) raws2 resolve c'
  | failed => failed
  end.
Proof.
  induction raws1 as [|raw raws1 IH]; intros i c; simpl; [by rewrite Z.add_0_r|].
  destruct (validateEntryShape raw) as [e|]; [|done]. destruct (resolve _) as [k|]; [|done].
  destruct (ingest c raw k) as [[|r j] c']; [|done]. rewrite IH.
  replace (i + 1 + Z.of_nat (length raws1)) with (i + Z.of_nat (S (length raws1))) by lia. done.
Qed.

(** C40. Replaying the entries of a chain from scratch reproduces it, hashes and
    state included, when the key lookup inverts the key serializer. *)
Theorem replay_reproduces c c0 resolve :
  (forall k kid, serializeKey k = Some kid -> resolve kid = Some k) -> valid c ->
  replay serializeKey serializeChange as_bytes sha256 verify emptyState applyChange isWriter
    genesisAuthorizedKeys c0 (raw_of <$> entries c) resolve = (VerifyOk, c).
Proof.
  intros Hres Hv. unfold replay. induction Hv as [|c e signer c' Hv IH Hw Ha]; [done|].
  destruct (append_entries _ _ _ _ Ha) as (-> & _). rewrite fmap_app, replay_app, IH. cbn [fmap list_fmap replay_loop].
  rewrite (shape_raw_of e Hw).
  rewrite (Hres signer) by apply (app_signer _ _ _ _ _ _ _ _ _ _ _ _ _ Ha).
  by rewrite (ingest_complete c e signer c' Hw Ha).
Qed.

(** Two entries with the same signed content. *)
Definition same_content (e f : ACLEntry Change) : Prop :=
  sequenceNumber e = sequenceNumber f /\ timestamp e = timestamp f /\ parentHash e = parentHash f /\
  signerKeyId e = signerKeyId f /\ serializeChange (change e) = serializeChange (change f).

(** Two different signed payloads, one of each chain, with the same hash. *)
Definition collision (c c' : chain) : Prop :=
  exists e f x y, e ∈ entries c /\ f ∈ entries c' /\
    encode_bounded serializeChange as_bytes e = Some x /\ encode_bounded serializeChange as_bytes f = Some y /\
    x <> y /\ sha256 x = sha256 y.

Lemma encode_inv (e : ACLEntry Change) x : encode_bounded serializeChange as_bytes e = Some x ->
  exists cb, serializeChange (change e) = SerBytes cb /\ blen cb <= MAX_CHANGE_BYTES /\
    x = canonicalEntryPayloadFromBytes e cb.
Proof.
  unfold encode_bounded. destruct (match as_bytes _ with Some _ => _ | None => _ end); [done|].
  destruct (serializeChange (change e)) as [| |cb]; [done..|].
  destruct (Z.ltb_spec MAX_CHANGE_BYTES (blen cb)); [done|]. destruct (_ <? _); [done|].
  intros [= <-]. eauto.
Qed.

Lemma hash_determines_prefix c c' h : valid c -> valid c' -> forall i i',
  entryHashes c !! i = Some h -> entryHashes c' !! i' = Some h ->
  collision c c' \/
  (i = i' /\ forall j, (j <= i)%nat -> exists e f, entries c !! j = Some e /\ entries c' !! j = Some f /\ same_content e f).
Proof.
  intros Hv Hv' i. revert h. induction i as [i IH] using lt_wf_ind. intros h i' Hi Hi'.
  assert (He : exists e, entries c !! i = Some e).
  { apply lookup_lt_is_Some. rewrite <- (valid_lengths c Hv). by eapply lookup_lt_Some. }
  assert (Hf : exists f, entries c' !! i' = Some f).
  { apply lookup_lt_is_Some. rewrite <- (valid_lengths c' Hv'). by eapply lookup_lt_Some. }
  destruct He as [e He], Hf as [f Hf].
  destruct (valid_entry c i e Hv He) as (Hw & Hs & Hp & (x & Hx & Hhx) & _).
  destruct (valid_entry c' i' f Hv' Hf) as (Hw' & Hs' & Hp' & (y & Hy & Hhy) & _).
  destruct (decide (x = y)) as [<-|Hne].
  2: { left. exists e, f, x, y. split_and!; [by eapply list_elem_of_lookup_2..|done|done|done|congruence]. }
  destruct (encode_inv e x Hx) as (cb & Hcb & Hlb & Ex). destruct (encode_inv f x Hy) as (db & Hdb & Hld & Ey).
  unfold MAX_CHANGE_BYTES in *. change (Z.shiftl 1 20) with 1048576 in *.
  destruct (payload_injective e f cb db Hw Hw') as (E1 & E2 & E3 & E4 & ->); [lia|lia|congruence|].
  assert (i = i') as <- by lia.
  assert (Hsame : same_content e f) by (split_and!; congruence).
  destruct i as [|j].
  { right. split; [done|]. intros j Hj. assert (j = O) as -> by lia. eauto. }
  assert (Hj : is_Some (entryHashes c !! j)) by (apply lookup_lt_is_Some; apply lookup_lt_Some in Hi; lia).
  destruct Hj as [hj Hj].
  destruct (IH j ltac:(lia) hj j Hj) as [?|[_ Hall]]; [congruence|by left|right].
  split; [done|]. intros j' Hj'. destruct (decide (j' = S j)) as [->|]; [eauto|]. apply Hall. lia.
Qed.

(** The head hash commits to the whole history: two chains with the same
    head have the same length and, entry by entry, the same signed content,
    unless two of their payloads are a collision of the hash function. *)
Theorem head_commits_history c c' h :
  valid c -> valid c' -> headHash c = Some h -> headHash c' = Some h ->
  collision c c' \/ Forall2 same_content (entries c) (entries c').
Proof.
  intros Hv Hv' Hh Hh'. unfold headHash in *. rewrite last_lookup in Hh, Hh'.
  destruct (hash_determines_prefix c c' h Hv Hv' _ _ Hh Hh') as [?|[Hi Hall]]; [by left|right].
  pose proof (lookup_lt_Some _ _ _ Hh). pose proof (lookup_lt_Some _ _ _ Hh').
  rewrite (valid_lengths c Hv), (valid_lengths c' Hv') in *.
  apply Forall2_same_length_lookup. split; [lia|]. intros j e f He Hf.
  destruct (Hall j) as (e' & f' & He' & Hf' & Hs); [apply lookup_lt_Some in He; lia|].
  rewrite He in He'. rewrite Hf in Hf'. by injection He' as <-; injection Hf' as <-.
Qed.

(** No entry is accepted twice: whoever supplies it, an entry that is in
    the chain is rejected when it arrives again. *)
Theorem ingest_rejects_replay c e signer :
  valid c -> e ∈ entries c -> exists r i, ingest c (raw_of e) signer = (VerifyFail r i, c).
Proof.
  intros Hv [i Hi]%list_elem_of_lookup_1. destruct (valid_entry c i e Hv Hi) as (Hw & Hseq & _).
  pose proof (ingest_spec c (raw_of e) signer) as Hs. rewrite (shape_raw_of e Hw) in Hs.
  destruct (ingest c (raw_of e) signer) as [[|r j] c'].
  - destruct Hs as (e' & [= <-] & Ha). pose proof (app_seq _ _ _ _ _ _ _ _ _ _ _ _ _ Ha) as Hlen.
    unfold chain_length in Hlen. apply lookup_lt_Some in Hi. lia.
  - destruct Hs as (-> & _). eauto.
Qed.
End ChainFacts.

(** ** Witnesses: keys and changes are bytes, a change grants a key. *)

Section Demo.
Definition demo_key (k : byte) : option bytes := Some [k].
Definition demo_change (c : byte) : serialized := SerBytes [c].
Definition demo_hash (b : bytes) : bytes := [byte_of_Z (foldl (fun h x => h * 31 + byte_to_Z x) 7 b)].
Definition demo_sign (b : bytes) (k : byte) : option bytes := Some (k :: demo_hash b).
Definition demo_verify (b : bytes) (k : byte) (sig : bytes) : option bool :=
  Some (bool_decide (sig = k :: demo_hash b)).
Definition demo_apply (s : list byte) (c : byte) : option (list byte) := Some (c :: s).
Definition demo_writer (s : list byte) (k : byte) : option bool := Some (bool_decide (k ∈ s)).
Definition demo_no_bytes (c : byte) : option bytes := None.
Definition demo_resolve (kid : bytes) : option byte := match kid with [k] => Some k | _ => None end.

Abbreviation k1 := Init.Byte.x01.
Abbreviation k2 := Init.Byte.x02.
Abbreviation k3 := Init.Byte.x03.

Definition demo_author (c : ACLChain) (ch pub : byte) :=
  authorAndAppend demo_key demo_change demo_no_bytes demo_hash demo_verify demo_sign (Some []) demo_apply
    demo_writer [k1] c ch pub pub 5.
Definition demo_ingest (c : ACLChain) (raw : RawEntry byte) (pub : byte) :=
  ingestEntry demo_key demo_change demo_no_bytes demo_hash demo_verify (Some []) demo_apply demo_writer [k1] c raw pub.
Definition demo_valid := valid demo_key demo_change demo_no_bytes demo_hash demo_verify (Some []) demo_apply
  demo_writer [k1].

(** Key 1 is a founder and grants key 2, which grants key 3. *)
Definition demo_c1 : ACLChain := snd (demo_author emptyChain k2 k1).
Definition demo_c2 : ACLChain := snd (demo_author demo_c1 k3 k2).
Definition demo_e1 : ACLEntry byte := Entry 0 5 None k2 [k1] (k1 :: demo_hash
  (canonicalEntryPayloadFromBytes (Entry 0 5 None k2 [k1] []) [k2])).

Lemma demo_c2_valid : demo_valid demo_c2.
Proof.
  change demo_c2 with (run_queue demo_key demo_change demo_no_bytes demo_hash demo_verify demo_sign (Some [])
    demo_apply demo_writer [k1] emptyChain [TAuthor k2 k1 k1 5; TAuthor k3 k2 k2 5]).
  apply run_queue_valid. constructor.
Qed.

Lemma author_then_ingest_witness : demo_ingest emptyChain (raw_of demo_e1) k1 = (VerifyOk, demo_c1).
Proof.
  apply (author_then_ingest demo_key demo_change demo_no_bytes demo_hash demo_verify demo_sign (Some []) demo_apply
    demo_writer [k1] emptyChain k2 k1 k1 5 demo_e1 demo_c1).
  vm_compute. reflexivity.
Defined.

Lemma queue_keeps_chain_witness :
  let c := run_queue demo_key demo_change demo_no_bytes demo_hash demo_verify demo_sign (Some [])
    demo_apply demo_writer [k1] emptyChain [TAuthor k2 k1 k1 5] in
  sequenceNumber demo_e1 = Z.of_nat 0 /\ parentHash demo_e1 = None /\
  (exists payload, encode_bounded demo_change demo_no_bytes demo_e1 = Some payload /\
     entryHashes c !! 0%nat = Some (demo_hash payload)) /\
  exists ci signer ci', demo_valid ci /\ entries ci = take 0 (entries c) /\
    append demo_key demo_change demo_no_bytes demo_hash demo_verify (Some []) demo_apply demo_writer [k1] ci demo_e1 signer ci'.
Proof.
  apply (queue_keeps_chain demo_key demo_change demo_no_bytes demo_hash demo_verify demo_sign (Some []) demo_apply
    demo_writer [k1] [TAuthor k2 k1 k1 5] 0 demo_e1).
  vm_compute. reflexivity.
Defined.

Lemma replay_reproduces_witness :
  length (entries demo_c2) = 2%nat /\
  replay demo_key demo_change demo_no_bytes demo_hash demo_verify (Some []) demo_apply demo_writer [k1]
    demo_c1 (raw_of <$> entries demo_c2) demo_resolve = (VerifyOk, demo_c2).
Proof.
  split; [reflexivity|].
  apply (replay_reproduces demo_key demo_change demo_no_bytes demo_hash demo_verify (Some []) demo_apply
    demo_writer [k1] demo_c2 demo_c1 demo_resolve).
  - intros k kid E. unfold demo_key in E. injection E as <-. reflexivity.
  - exact demo_c2_valid.
Defined.

Lemma head_commits_history_witness :
  collision demo_change demo_no_bytes demo_hash demo_c2 demo_c2 \/
  Forall2 (same_content demo_change) (entries demo_c2) (entries demo_c2).
Proof.
  apply (head_commits_history demo_key demo_change demo_no_bytes demo_hash demo_verify (Some []) demo_apply
    demo_writer [k1] demo_c2 demo_c2 (default [] (headHash demo_c2))).
  - exact demo_c2_valid.
  - exact demo_c2_valid.
  - vm_compute. reflexivity.
  - vm_compute. reflexivity.
Defined.

Lemma ingest_rejects_replay_witness : exists r i, demo_ingest demo_c2 (raw_of demo_e1) k1 = (VerifyFail r i, demo_c2).
Proof.
  apply (ingest_rejects_replay demo_key demo_change demo_no_bytes demo_hash demo_verify (Some []) demo_apply
    demo_writer [k1] demo_c2 demo_e1 k1).
  - exact demo_c2_valid.
  - apply list_elem_of_lookup_2 with 0%nat. vm_compute. reflexivity.
Defined.
End Demo.
End AclChain.
