(* ===== verification/Ecies.v ===== *)
(** * The sealed box used for tree keys and welcomes

    Models [packages/collabswarm/src/ecies.ts]. WebCrypto's ECDH, HKDF and
    AES-GCM are the fields of [EciesPrims]; its laws are what those primitives
    document. The random inputs of a seal are an argument. [SealedBox] is what
    the rest of the code relies on, and the functions of this file implement
    it. *)
From stdpp Require Import base numbers list list_numbers strings.
From Stdlib Require Import ZArith Lia.
From S2P Require Import Prelude.

(** What a sealed box promises to its users: opening undoes sealing for the
    holder of the private key. *)
Class SealedBox (PubKey PrivKey Rand : Type) := {
  pub_of : PrivKey → PubKey;
  seal : Rand → bytes → PubKey → bytes;
  open_box : bytes → PrivKey → result bytes;
  open_seal : ∀ r m k, open_box (seal r m (pub_of k)) k = Ok m }.

Module Ecies.

Class EciesPrims (PubKey PrivKey AesKey : Type) := {
  public_key : PrivKey → PubKey;
  deriveBits : PubKey → PrivKey → bytes;
  hkdf_aes : bytes → bytes → bytes → AesKey;
  aes_gcm_encrypt : AesKey → bytes → bytes → bytes;
  aes_gcm_decrypt : AesKey → bytes → bytes → option bytes;
  export_raw : PubKey → bytes;
  import_raw : bytes → option PubKey;
  ecdh_commutes : ∀ a b, deriveBits (public_key a) b = deriveBits (public_key b) a;
  gcm_decrypts : ∀ key nonce m, aes_gcm_decrypt key nonce (aes_gcm_encrypt key nonce m) = Some m;
  gcm_length : ∀ key nonce m, length (aes_gcm_encrypt key nonce m) = (length m + 16)%nat;
  import_export : ∀ p, import_raw (export_raw p) = Some p;
  export_length : ∀ p, length (export_raw p) = 65%nat }.

Definition AES_NONCE_LENGTH : nat := 12.
Definition HKDF_SALT_LENGTH : nat := 32.
Definition ECIES_P256_PUBLIC_KEY_LENGTH : nat := 65.

(** [new TextEncoder().encode('beekem-ecies')] *)
Definition hkdfInfo : bytes :=
  byte_of_Z <$> [98; 101; 101; 107; 101; 109; 45; 101; 99; 105; 101; 115]%Z.

Section Ecies.
  Context {PubKey PrivKey AesKey : Type} `{EciesPrims PubKey PrivKey AesKey}.

(** The ephemeral key, the salt and the nonce of one seal. *)
Record seal_random : Type := SealRandom {
  ephemeral : PrivKey;
  salt : bytes;
  nonce : bytes;
  salt_length : length salt = HKDF_SALT_LENGTH;
  nonce_length : length nonce = AES_NONCE_LENGTH }.

Definition eciesSeal (rnd : seal_random) (plaintext : bytes) (recipientPublicKey : PubKey) : bytes :=
  let sharedBits := deriveBits recipientPublicKey (ephemeral rnd) in
  let aesKey := hkdf_aes sharedBits (salt rnd) hkdfInfo in
  let ciphertext := aes_gcm_encrypt aesKey (nonce rnd) plaintext in
  let ephemeralPub := export_raw (public_key (ephemeral rnd)) in
  salt rnd ++ ephemeralPub ++ nonce rnd ++ ciphertext.

Definition eciesOpen (sealed : bytes) (recipientPrivateKey : PrivKey) : result bytes :=
  let minLength := HKDF_SALT_LENGTH + ECIES_P256_PUBLIC_KEY_LENGTH + AES_NONCE_LENGTH + 16 in
  if (length sealed <? minLength)%nat then throw "eciesOpen: sealed payload truncated"
  else
    let saltPart := take HKDF_SALT_LENGTH sealed in
    let pos1 := HKDF_SALT_LENGTH in
    let ephemeralPubBytes := take ECIES_P256_PUBLIC_KEY_LENGTH (drop pos1 sealed) in
    let pos2 := pos1 + ECIES_P256_PUBLIC_KEY_LENGTH in
    let noncePart := take AES_NONCE_LENGTH (drop pos2 sealed) in
    let pos3 := pos2 + AES_NONCE_LENGTH in
    let ciphertext := drop pos3 sealed in
    let? ephemeralPublicKey := or_throw "importKey failed" (import_raw ephemeralPubBytes) in
    let sharedBits := deriveBits ephemeralPublicKey recipientPrivateKey in
    let aesKey := hkdf_aes sharedBits saltPart hkdfInfo in
    or_throw "decrypt failed" (aes_gcm_decrypt aesKey noncePart ciphertext).

Definition importEciesPublicKey (raw : bytes) : result PubKey :=
  if negb (length raw =? ECIES_P256_PUBLIC_KEY_LENGTH)%nat
  then throw "importEciesPublicKey: raw key must be 65 bytes"
  else or_throw "importKey failed" (import_raw raw).

(** The sealed bytes split into their four segments. *)
Lemma seal_segments rnd m p :
  let s := eciesSeal rnd m p in
  take HKDF_SALT_LENGTH s = salt rnd ∧
  take ECIES_P256_PUBLIC_KEY_LENGTH (drop HKDF_SALT_LENGTH s) = export_raw (public_key (ephemeral rnd)) ∧
  take AES_NONCE_LENGTH (drop (HKDF_SALT_LENGTH + ECIES_P256_PUBLIC_KEY_LENGTH) s) = nonce rnd ∧
  drop (HKDF_SALT_LENGTH + ECIES_P256_PUBLIC_KEY_LENGTH + AES_NONCE_LENGTH) s =
    aes_gcm_encrypt (hkdf_aes (deriveBits p (ephemeral rnd)) (salt rnd) hkdfInfo) (nonce rnd) m.
Proof.
  intros s. unfold s, eciesSeal. pose proof (salt_length rnd) as Hs. pose proof (nonce_length rnd) as Hn.
  pose proof (export_length (public_key (ephemeral rnd))) as He.
  change ECIES_P256_PUBLIC_KEY_LENGTH with 65 in *. split_and!.
  - by rewrite take_app_length'.
  - rewrite drop_app_length' by done. by rewrite take_app_length'.
  - rewrite <- drop_drop, drop_app_length' by done. rewrite drop_app_length' by done. by rewrite take_app_length'.
  - rewrite <- !drop_drop, drop_app_length' by done. rewrite drop_app_length' by done. by rewrite drop_app_length'.
Qed.

Lemma seal_length rnd m p : length (eciesSeal rnd m p) = (length m + 125)%nat.
Proof.
  unfold eciesSeal. rewrite !length_app, gcm_length, export_length, salt_length, nonce_length.
  unfold HKDF_SALT_LENGTH, AES_NONCE_LENGTH. lia.
Qed.

Lemma eciesOpen_seal rnd m k : eciesOpen (eciesSeal rnd m (public_key k)) k = Ok m.
Proof.
  destruct (seal_segments rnd m (public_key k)) as (E1 & E2 & E3 & E4). unfold eciesOpen.
  rewrite E1, E2, E3, E4, seal_length, import_export.
  destruct (Nat.ltb_spec (length m + 125) (HKDF_SALT_LENGTH + ECIES_P256_PUBLIC_KEY_LENGTH + AES_NONCE_LENGTH + 16)) as [Hlt|_].
  { unfold HKDF_SALT_LENGTH, ECIES_P256_PUBLIC_KEY_LENGTH, AES_NONCE_LENGTH in Hlt. lia. }
  cbn [or_throw]. rewrite ecdh_commutes. by rewrite gcm_decrypts.
Qed.

(** ECIES is a sealed box. *)
#[export] Instance ecies_box : SealedBox PubKey PrivKey seal_random :=
  {| pub_of := public_key; seal := eciesSeal; open_box := eciesOpen; open_seal := eciesOpen_seal |}.

(** A sealed payload opens, with the recipient's private key, to the bytes
    that were sealed; its length is the plaintext's plus the fixed overhead of
    125 bytes; and anything shorter than that overhead is refused before any
    cryptography runs. *)
Theorem ecies_roundtrip rnd m k :
  eciesOpen (eciesSeal rnd m (public_key k)) k = Ok m ∧
  length (eciesSeal rnd m (public_key k)) = (length m + 125)%nat ∧
  ∀ sealed, (length sealed < 125)%nat → eciesOpen sealed k = throw "eciesOpen: sealed payload truncated".
Proof.
  split_and!; [apply eciesOpen_seal|apply seal_length|]. intros sealed Hl. unfold eciesOpen.
  destruct (Nat.ltb_spec (length sealed) (HKDF_SALT_LENGTH + ECIES_P256_PUBLIC_KEY_LENGTH + AES_NONCE_LENGTH + 16)) as [_|Hge]; [done|].
  unfold HKDF_SALT_LENGTH, ECIES_P256_PUBLIC_KEY_LENGTH, AES_NONCE_LENGTH in Hge. lia.
Qed.
End Ecies.
Arguments seal_random : clear implicits.

(** ** A toy instance: keys are bytes, encryption appends a zero tag. *)

Definition toy_tag : bytes := replicate 16 Init.Byte.x00.

Definition toy_decrypt (key : bytes) (nonce ct : bytes) : option bytes :=
  if (length ct <? 16)%nat then None else Some (take (length ct - 16) ct).

Definition toy_import (raw : bytes) : option byte :=
  match raw with b :: _ => Some b | [] => None end.

#[export] Instance toy_prims : EciesPrims byte byte bytes.
Proof.
  refine {| public_key := id; deriveBits := λ p k, be32 (byte_to_Z p * byte_to_Z k);
    hkdf_aes := λ shared salt info, shared ++ salt ++ info;
    aes_gcm_encrypt := λ key nonce m, m ++ toy_tag; aes_gcm_decrypt := toy_decrypt;
    export_raw := λ p, p :: replicate 64 Init.Byte.x00; import_raw := toy_import |}.
  - intros a b. by rewrite Z.mul_comm.
  - intros key nonce m. unfold toy_decrypt. rewrite length_app. change (length toy_tag) with 16.
    destruct (Nat.ltb_spec (length m + 16) 16); [lia|]. replace (length m + 16 - 16) with (length m) by lia.
    by rewrite take_app_length.
  - intros. by rewrite length_app.
  - done.
  - done.
Defined.

Definition toy_random : seal_random byte :=
  SealRandom Init.Byte.x07 (replicate 32 Init.Byte.x01) (replicate 12 Init.Byte.x02) eq_refl eq_refl.

Lemma ecies_roundtrip_witness :
  eciesOpen (eciesSeal toy_random [Init.Byte.x2a] (public_key Init.Byte.x05)) Init.Byte.x05 = Ok [Init.Byte.x2a] ∧
  length (eciesSeal toy_random [Init.Byte.x2a] (public_key Init.Byte.x05)) = 126%nat ∧
  ∀ sealed, (length sealed < 125)%nat →
    eciesOpen sealed Init.Byte.x05 = throw "eciesOpen: sealed payload truncated".
Proof. apply (ecies_roundtrip (PubKey:=byte) (AesKey:=bytes) toy_random [Init.Byte.x2a] Init.Byte.x05). Defined.
End Ecies.
