(* ===== verification/BeeKem.v ===== *)
(** * BeeKEM, the group key agreement

    Models [packages/collabswarm/src/beekem/beekem.ts] and [types.ts]. The
    fields of the class are a record; a method is an effect on it, so what a
    method assigned before it throws stays assigned. The [n]-th key pair and
    the [n]-th random input of a seal are functions of a counter in the state.
    Sealing is the [SealedBox] that ECIES implements; [TreeKeys] holds what
    else of WebCrypto the class uses, with the two round trips it relies on. *)
From stdpp Require Import base numbers list list_numbers strings sorting.
From Stdlib Require Import ZArith Lia.
From S2P Require Import Prelude TreeMath Ecies.
Import TreeMath.

Open Scope Z_scope.

Module BeeKem.

(** ** Data *)

Inductive node_type : Type := LeafType | InternalType.

Record PathNodeUpdate : Type := PathNode {
  pn_nodeIndex : Z;
  pn_publicKey : bytes;
  pn_encryptedPrivateKey : bytes }.

Record PathUpdate : Type := MkPathUpdate {
  senderLeafIndex : Z;
  senderLeafPublicKey : bytes;
  pu_nodes : list PathNodeUpdate }.

Record WelcomeNodePublicKey : Type := WelcomeNode {
  wn_nodeIndex : Z;
  wn_publicKey : option bytes }.

Record BeeKEMWelcome : Type := MkWelcome {
  leafIndex : Z;
  pathKeys : list PathNodeUpdate;
  treeNodePublicKeys : list WelcomeNodePublicKey;
  treeHash : bytes }.

(** The rest of WebCrypto: key generation, import and export, SHA-256. *)
Class TreeKeys (PubKey PrivKey Rand : Type) := {
  generated : nat → PrivKey;
  seal_rand : nat → Rand;
  export_pub : PubKey → bytes;
  import_pub : bytes → option PubKey;
  export_priv : PrivKey → bytes;
  import_priv : bytes → option PrivKey;
  sha256_of : bytes → bytes;
  import_export_pub : ∀ p, import_pub (export_pub p) = Some p;
  import_export_priv : ∀ k, import_priv (export_priv k) = Some k }.

Section BeeKem.
  Context {PubKey PrivKey Rand : Type} `{Box : SealedBox PubKey PrivKey Rand}
    `{Keys : TreeKeys PubKey PrivKey Rand}.

(** [LeafNode | InternalNode]; [publicKey: null] is [None]. *)
Record TreeNode : Type := MkNode {
  ntype : node_type;
  nindex : Z;
  publicKey : option PubKey;
  privateKey : option PrivKey }.

Record BeeKEM : Type := MkBeeKEM {
  nodes : list (Z * TreeNode);
  numLeaves : Z;
  myLeafIndex : Z;
  rng : nat }.

Definition set_node (i : Z) (nd : TreeNode) (s : BeeKEM) : BeeKEM :=
  MkBeeKEM (map_set i nd (nodes s)) (numLeaves s) (myLeafIndex s) (rng s).

Definition tick (s : BeeKEM) : BeeKEM :=
  MkBeeKEM (nodes s) (numLeaves s) (myLeafIndex s) (S (rng s)).

(** A new [BeeKEM]. *)
Definition newBeeKEM (seed : nat) : BeeKEM := MkBeeKEM [] 0 (-1) seed.

(** [crypto.subtle.generateKey(ECDH_ALGO, true, ['deriveBits'])] *)
Definition generateKey : eff BeeKEM PrivKey :=
  let! s := get in let! _ := modify tick in ret (generated (rng s)).

(** [nodes.get(i)?.publicKey] and [nodes.get(i)?.privateKey] *)
Definition pub_at (s : BeeKEM) (i : Z) : option PubKey := map_get i (nodes s) ≫= publicKey.
Definition priv_at (s : BeeKEM) (i : Z) : option PrivKey := map_get i (nodes s) ≫= privateKey.

(** ** Private helpers *)

Definition encryptNodeKey (keyToEncrypt : PrivKey) (recipientPublicKey : PubKey) : eff BeeKEM bytes :=
  let! s := get in
  let! _ := modify tick in
  ret (seal (seal_rand (rng s)) (export_priv keyToEncrypt) recipientPublicKey).

Definition decryptNodeKey (encryptedData : bytes) (recipientPrivateKey : PrivKey) : result PrivKey :=
  let? plaintext := open_box encryptedData recipientPrivateKey in
  or_throw "importKey failed" (import_priv plaintext).

(** The recursion goes down one level at a time and an index has a level below
    32, so 33 units of fuel are enough (see [resolve_total]). *)
Fixpoint resolvePublicKey (fuel : nat) (s : BeeKEM) (nodeIndex : Z) : result (option PubKey) :=
  match fuel with
  | O => Err OutOfFuel
  | S fuel' =>
      match pub_at s nodeIndex with
      | Some k => Ok (Some k)
      | None =>
          if isInternal nodeIndex then
            let? leftChild := left nodeIndex in
            let? rightChild := right nodeIndex (Some (numLeaves s)) in
            let? leftKey := resolvePublicKey fuel' s leftChild in
            match leftKey with
            | Some k => Ok (Some k)
            | None =>
                let? rightKey := resolvePublicKey fuel' s rightChild in
                match rightKey with
                | Some k => Ok (Some k)
                | None => Ok None
                end
            end
          else Ok None
      end
  end.

Fixpoint resolveSubtreeKey (fuel : nat) (s : BeeKEM) (nodeIndex : Z) : result (option PrivKey) :=
  match fuel with
  | O => Err OutOfFuel
  | S fuel' =>
      match priv_at s nodeIndex with
      | Some k => Ok (Some k)
      | None =>
          if isInternal nodeIndex then
            let? leftChild := left nodeIndex in
            let? rightChild := right nodeIndex (Some (numLeaves s)) in
            let? leftKey := resolveSubtreeKey fuel' s leftChild in
            match leftKey with
            | Some k => Ok (Some k)
            | None =>
                let? rightKey := resolveSubtreeKey fuel' s rightChild in
                match rightKey with
                | Some k => Ok (Some k)
                | None => Ok None
                end
            end
          else Ok None
      end
  end.

Definition isInSubtree (leaf subtreeRoot : Z) : result bool :=
  if subtreeRoot =? leaf then Ok true
  else if isLeaf subtreeRoot then Ok false
  else
    let? k := level subtreeRoot in
    let halfSpan := js_shl 1 k in
    let lo := subtreeRoot - halfSpan + 1 in
    let hi := subtreeRoot + halfSpan - 1 in
    Ok ((lo <=? leaf) && (leaf <=? hi)).

Definition findChildOnOurSide (s : BeeKEM) (nodeIndex : Z) : result (option Z) :=
  if isLeaf nodeIndex then Ok None
  else
    let? leftChild := left nodeIndex in
    let? rightChild := right nodeIndex (Some (numLeaves s)) in
    let? inLeft := isInSubtree (myLeafIndex s) leftChild in
    if inLeft then Ok (Some leftChild)
    else
      let? inRight := isInSubtree (myLeafIndex s) rightChild in
      if inRight then Ok (Some rightChild) else Ok None.

(** One part of the tree hash: the index and the key of a non-blank node. *)
Definition hash_part (ns : list (Z * TreeNode)) (i : Z) : bytes :=
  match map_get i ns ≫= publicKey with
  | Some p => be32 i ++ export_pub p
  | None => []
  end.

Definition computeTreeHash (s : BeeKEM) : bytes :=
  let sortedIndices := merge_sort Z.le ((nodes s).*1) in
  sha256_of (concat (hash_part (nodes s) <$> sortedIndices)).

Definition getRootSecret (s : BeeKEM) : result bytes :=
  if numLeaves s <=? 0 then throw "Tree is empty"
  else if numLeaves s =? 1 then
    match priv_at s 0 with
    | None => throw "No private key available for root secret derivation"
    | Some k => Ok (sha256_of (export_priv k))
    end
  else
    let? rootIndex := root (numLeaves s) in
    match priv_at s rootIndex with
    | None => throw "Root secret not available: no private key at root node"
    | Some k => Ok (sha256_of (export_priv k))
    end.

(** The body of the loop of [_updatePath]: a fresh key pair for [nodeIndex],
    sealed to the sibling subtree. *)
Definition updatePath_step (pathNodes : list PathNodeUpdate) (step : Z * Z)
    : eff BeeKEM (list PathNodeUpdate) :=
  let nodeIndex := fst step in
  let siblingIndex := snd step in
  let! nodeKey := generateKey in
  let! s := get in
  let! siblingPublicKey := lift (resolvePublicKey 33 s siblingIndex) in
  let! encrypted :=
    match siblingPublicKey with
    | Some p => encryptNodeKey nodeKey p
    | None => ret []
    end in
  let! _ := modify (set_node nodeIndex
              (MkNode InternalType nodeIndex (Some (pub_of nodeKey)) (Some nodeKey))) in
  ret (pathNodes ++ [PathNode nodeIndex (export_pub (pub_of nodeKey)) encrypted]).

Definition updatePath : eff BeeKEM (PathUpdate * bytes) :=
  let! s := get in
  match pub_at s (myLeafIndex s) with
  | None => lift (throw "Cannot update path: no public key at our leaf")
  | Some myPub =>
      let senderKey := export_pub myPub in
      if numLeaves s =? 1 then
        let! rootSecret := lift (getRootSecret s) in
        ret (MkPathUpdate (myLeafIndex s) senderKey [], rootSecret)
      else
        let! dp := lift (directPath (myLeafIndex s) (numLeaves s)) in
        let! cp := lift (copath (myLeafIndex s) (numLeaves s)) in
        let! pathNodes := for_each updatePath_step [] (zip dp cp) in
        let! s' := get in
        let! rootSecret := lift (getRootSecret s') in
        ret (MkPathUpdate (myLeafIndex s) senderKey pathNodes, rootSecret)
  end.

(** The body of the loop of [_buildWelcome]; the accumulator is [pathKeys] and
    [encryptionKey]. *)
Definition buildWelcome_step (acc : list PathNodeUpdate * PubKey) (nodeIndex : Z)
    : eff BeeKEM (list PathNodeUpdate * PubKey) :=
  let! s := get in
  match pub_at s nodeIndex, priv_at s nodeIndex with
  | Some nodePub, Some nodePriv =>
      let! encrypted := encryptNodeKey nodePriv (snd acc) in
      ret (fst acc ++ [PathNode nodeIndex (export_pub nodePub) encrypted], nodePub)
  | _, _ => lift (throw "Cannot build welcome: missing key at node")
  end.

Definition buildWelcome (newLeafIndex : Z) (newMemberPublicKey : PubKey) : eff BeeKEM BeeKEMWelcome :=
  let! s := get in
  let! dp := lift (directPath newLeafIndex (numLeaves s)) in
  let! acc := for_each buildWelcome_step ([], newMemberPublicKey) dp in
  let! s' := get in
  let others := List.filter (fun e : Z * TreeNode => negb (fst e =? newLeafIndex) && negb (set_has (fst e) dp)) (nodes s') in
  let treeNodes := (fun e : Z * TreeNode => WelcomeNode (fst e) (export_pub <$> publicKey (snd e))) <$> others in
  ret (MkWelcome newLeafIndex (fst acc) treeNodes (computeTreeHash s')).

(** ** Operations *)

Definition initialize (priv : PrivKey) (pub : PubKey) : eff BeeKEM unit :=
  modify (fun s => MkBeeKEM [(0, MkNode LeafType 0 (Some pub) (Some priv))] 1 0 (rng s)).

Definition addMember (memberPublicKey : PubKey) : eff BeeKEM (PathUpdate * BeeKEMWelcome * bytes) :=
  let! s := get in
  let newLeafIndex := leafToNodeIndex (numLeaves s) in
  let! _ := modify (fun s => MkBeeKEM (nodes s) (numLeaves s + 1) (myLeafIndex s) (rng s)) in
  let! _ := modify (set_node newLeafIndex (MkNode LeafType newLeafIndex (Some memberPublicKey) None)) in
  let! up := updatePath in
  let! welcome := buildWelcome newLeafIndex memberPublicKey in
  ret (fst up, welcome, snd up).

(** A fresh key pair for our own leaf. *)
Definition renewLeaf : eff BeeKEM unit :=
  let! newKey := generateKey in
  let! s := get in
  modify (set_node (myLeafIndex s) (MkNode LeafType (myLeafIndex s) (Some (pub_of newKey)) (Some newKey))).

Definition removeMember (memberLeafIndex : Z) : eff BeeKEM (PathUpdate * bytes) :=
  let! _ := modify (set_node memberLeafIndex (MkNode LeafType memberLeafIndex None None)) in
  let! s := get in
  let! removedPath := lift (directPath memberLeafIndex (numLeaves s)) in
  let! _ := for_each (fun _ nodeIndex =>
              modify (set_node nodeIndex (MkNode InternalType nodeIndex None None))) tt removedPath in
  let! _ := renewLeaf in
  updatePath.

Definition update : eff BeeKEM (PathUpdate * bytes) :=
  let! _ := renewLeaf in updatePath.

(** The search loop of [processPathUpdate]: the first update node on our direct
    path, with its position. *)
Fixpoint find_intersection (i : nat) (pns : list PathNodeUpdate) (myDirectPath : list Z)
    : option (nat * PathNodeUpdate) :=
  match pns with
  | [] => None
  | pn :: pns' =>
      if bool_decide (pn_nodeIndex pn ∈ myDirectPath) then Some (i, pn)
      else find_intersection (S i) pns' myDirectPath
  end.

(** The private key of the intersection node, if we hold a key below it. *)
Definition decrypt_intersection (s : BeeKEM) (pn : PathNodeUpdate) : result (option PrivKey) :=
  let? childOnOurSide := findChildOnOurSide s (pn_nodeIndex pn) in
  match childOnOurSide with
  | None => Ok None
  | Some child =>
      match priv_at s child with
      | Some k => let? key := decryptNodeKey (pn_encryptedPrivateKey pn) k in Ok (Some key)
      | None =>
          let? resolved := resolveSubtreeKey 33 s child in
          match resolved with
          | Some k => let? key := decryptNodeKey (pn_encryptedPrivateKey pn) k in Ok (Some key)
          | None => Ok None
          end
      end
  end.

(** The body of the loop above the intersection. *)
Definition install_above (_ : unit) (pn : PathNodeUpdate) : eff BeeKEM unit :=
  let! pubKey := lift (or_throw "importKey failed" (import_pub (pn_publicKey pn))) in
  let! s := get in
  let! childOnOurSide := lift (findChildOnOurSide s (pn_nodeIndex pn)) in
  let! privKey :=
    match childOnOurSide ≫= priv_at s with
    | Some k => let! key := lift (decryptNodeKey (pn_encryptedPrivateKey pn) k) in ret (Some key)
    | None => ret None
    end in
  modify (set_node (pn_nodeIndex pn) (MkNode InternalType (pn_nodeIndex pn) (Some pubKey) privKey)).

(** The body of the loop below the intersection. *)
Definition install_below (_ : unit) (pn : PathNodeUpdate) : eff BeeKEM unit :=
  let! pubKey := lift (or_throw "importKey failed" (import_pub (pn_publicKey pn))) in
  modify (set_node (pn_nodeIndex pn) (MkNode InternalType (pn_nodeIndex pn) (Some pubKey) None)).

Definition processPathUpdate (upd : PathUpdate) : eff BeeKEM bytes :=
  let! senderPub := lift (or_throw "importKey failed" (import_pub (senderLeafPublicKey upd))) in
  let! _ := modify (set_node (senderLeafIndex upd)
              (MkNode LeafType (senderLeafIndex upd) (Some senderPub) None)) in
  let! s := get in
  let! _ := lift (copath (myLeafIndex s) (numLeaves s)) in
  let! myDirectPath := lift (directPath (myLeafIndex s) (numLeaves s)) in
  match find_intersection 0 (pu_nodes upd) myDirectPath with
  | None => lift (throw "Cannot process path update: no intersection found with our path")
  | Some (idx, pn) =>
      let! decrypted := lift (decrypt_intersection s pn) in
      match decrypted with
      | None => lift (throw "Cannot process path update: no intersection found with our path")
      | Some key =>
          let! pubKey := lift (or_throw "importKey failed" (import_pub (pn_publicKey pn))) in
          let! _ := modify (set_node (pn_nodeIndex pn)
                      (MkNode InternalType (pn_nodeIndex pn) (Some pubKey) (Some key))) in
          let! _ := for_each install_above tt (drop (S idx) (pu_nodes upd)) in
          let! _ := for_each install_below tt (take idx (pu_nodes upd)) in
          let! s' := get in
          lift (getRootSecret s')
      end
  end.

(** [numLeaves] implied by the welcome. *)
Fixpoint max_from_path (pks : list PathNodeUpdate) (acc : Z) : result Z :=
  match pks with
  | [] => Ok acc
  | pk :: pks' =>
      let? leafPos := nodeToLeafIndex (if Z.rem (pn_nodeIndex pk) 2 =? 0 then pn_nodeIndex pk else pn_nodeIndex pk + 1) in
      let implied := leafPos + 1 in
      max_from_path pks' (if acc <? implied then implied else acc)
  end.

(** The body of the loop over [welcome.pathKeys]; the accumulator is
    [currentPrivateKey]. *)
Definition welcome_path_step (currentPrivateKey : PrivKey) (pk : PathNodeUpdate) : eff BeeKEM PrivKey :=
  let! nodePub := lift (or_throw "importKey failed" (import_pub (pn_publicKey pk))) in
  let! nodePriv := lift (decryptNodeKey (pn_encryptedPrivateKey pk) currentPrivateKey) in
  let! _ := modify (set_node (pn_nodeIndex pk)
              (MkNode InternalType (pn_nodeIndex pk) (Some nodePub) (Some nodePriv))) in
  ret nodePriv.

(** The body of the loop over [welcome.treeNodePublicKeys]. *)
Definition welcome_tree_step (_ : unit) (e : WelcomeNodePublicKey) : eff BeeKEM unit :=
  let ty := if isLeaf (wn_nodeIndex e) then LeafType else InternalType in
  match wn_publicKey e with
  | Some raw =>
      let! pubKey := lift (or_throw "importKey failed" (import_pub raw)) in
      modify (set_node (wn_nodeIndex e) (MkNode ty (wn_nodeIndex e) (Some pubKey) None))
  | None => modify (set_node (wn_nodeIndex e) (MkNode ty (wn_nodeIndex e) None None))
  end.

Definition processWelcome (w : BeeKEMWelcome) (priv : PrivKey) (pub : PubKey) : eff BeeKEM bytes :=
  let! _ := modify (fun s => MkBeeKEM (nodes s) (numLeaves s) (leafIndex w) (rng s)) in
  let! leafPos := lift (nodeToLeafIndex (leafIndex w)) in
  let! maxFromPath := lift (max_from_path (pathKeys w) (leafPos + 1)) in
  let! _ := modify (fun s => MkBeeKEM (nodes s) (Z.max (numLeaves s) maxFromPath) (myLeafIndex s) (rng s)) in
  let! _ := modify (set_node (leafIndex w) (MkNode LeafType (leafIndex w) (Some pub) (Some priv))) in
  let! _ := for_each welcome_path_step priv (pathKeys w) in
  let! _ := for_each welcome_tree_step tt (treeNodePublicKeys w) in
  let! s := get in
  if bool_decide (computeTreeHash s = treeHash w) then lift (getRootSecret s)
  else lift (throw "Welcome tree hash mismatch: reconstructed tree does not match sender state").

(** [findLeafByPublicKey] on raw bytes, the loop over the leaf positions. *)
Fixpoint find_leaf_loop (ns : list (Z * TreeNode)) (target : bytes) (positions : list Z) : option Z :=
  match positions with
  | [] => None
  | pos :: positions' =>
      let nodeIndex := leafToNodeIndex pos in
      match map_get nodeIndex ns with
      | Some (MkNode LeafType _ (Some p) _) =>
          if bool_decide (export_pub p = target) then Some nodeIndex
          else find_leaf_loop ns target positions'
      | _ => find_leaf_loop ns target positions'
      end
  end.

Definition findLeafByPublicKey (s : BeeKEM) (target : bytes) : option Z :=
  find_leaf_loop (nodes s) target (seqZ 0 (numLeaves s)).

(** [compact] *)
Definition blankedLeaves (s : BeeKEM) : list Z :=
  List.filter (fun i => match pub_at s i with None => true | Some _ => false end)
    (leafToNodeIndex <$> seqZ 0 (numLeaves s)).

Definition compact_step (_ : unit) (leaf : Z) : eff BeeKEM unit :=
  let! s := get in
  if numLeaves s <=? 1 then ret tt
  else
    let! path := lift (directPath leaf (numLeaves s)) in
    if forallb (fun i => match pub_at s i with None => true | Some _ => false end) path
    then modify (fun s => MkBeeKEM (foldl (fun m i => map_delete i m) (map_delete leaf (nodes s)) path)
                            (numLeaves s) (myLeafIndex s) (rng s))
    else ret tt.

Definition compact : eff BeeKEM unit :=
  let! s := get in for_each compact_step tt (blankedLeaves s).
End BeeKem.
End BeeKem.
