(* ===== verification/BeeKemGeometry.v ===== *)
(** * Which side of the tree our leaf is on

    The interval test of BeeKEM's [_isInSubtree] and the choice of the child in
    [_findChildOnOurSide], related to the direct paths of the tree math. *)
From stdpp Require Import base numbers list list_numbers strings.
From Stdlib Require Import ZArith Lia.
From S2P Require Import Prelude TreeMath Ecies BeeKem.
Import TreeMath BeeKem.

Open Scope Z_scope.

Module BeeKemGeometry.

(** The node [v] has the leaf at position [p] below it. *)
Definition covers (v p : Z) : Prop :=
  exists k, 0 <= k <= 30 /\ v = node k (p / 2 ^ k).

Lemma node_parity k m : 0 <= k -> 0 <= m -> node k m < 2 ^ 31 - 1 -> isLeaf (node k m) = (k =? 0).
Proof.
  intros Hk Hm Hlt. unfold isLeaf, js_and. pose proof (node_nonneg k m Hk Hm).
  rewrite !to_int32_small by lia. change 1 with (Z.ones 1). rewrite Z.land_ones by lia.
  destruct (Z.eqb_spec k 0) as [->|Hne].
  - apply Z.eqb_eq. unfold node. Z.div_mod_to_equations. lia.
  - apply Z.eqb_neq. unfold node. replace k with (k - 1 + 1) by lia. rewrite pow2_S by lia.
    pose proof (Z.pow_pos_nonneg 2 (k - 1)). Z.div_mod_to_equations. lia.
Qed.

Lemma isInternal_isLeaf v : isInternal v = negb (isLeaf v).
Proof.
  unfold isInternal, isLeaf, js_and. change (to_int32 1) with (Z.ones 1). rewrite Z.land_ones by lia.
  pose proof (Z.mod_pos_bound (to_int32 v) (2 ^ 1) ltac:(lia)).
  destruct (Z.eqb_spec (to_int32 v mod 2 ^ 1) 1), (Z.eqb_spec (to_int32 v mod 2 ^ 1) 0); simpl; lia || done.
Qed.

(** The interval test is the division test. *)
Lemma isInSubtree_node p k m :
  0 <= p -> 0 <= k <= 30 -> 0 <= m -> node k m < 2 ^ 31 - 1 ->
  isInSubtree (2 * p) (node k m) = Ok (bool_decide (p / 2 ^ k = m)).
Proof.
  intros Hp Hk Hm Hlt. unfold isInSubtree. rewrite node_parity by lia.
  pose proof (Z.pow_pos_nonneg 2 k ltac:(lia) ltac:(lia)) as Hpos.
  pose proof (Z.div_mod p (2 ^ k) ltac:(lia)) as Hdm. pose proof (Z.mod_pos_bound p (2 ^ k) ltac:(lia)) as Hmod.
  destruct (Z.eqb_spec (node k m) (2 * p)) as [E|Hne].
  { assert (Hk0 : k = 0).
    { destruct (decide (k = 0)); [done|]. unfold node in E. replace k with (k - 1 + 1) in E by lia.
      rewrite pow2_S in E by lia. lia. }
    subst k. unfold node in E. rewrite Z.pow_0_r, Z.div_1_r in *. by rewrite bool_decide_true by lia. }
  destruct (Z.eqb_spec k 0) as [->|Hk0].
  { unfold node in Hne. rewrite Z.pow_0_r, Z.div_1_r in *. by rewrite bool_decide_false by lia. }
  rewrite level_node by lia. rewrite js_shl_1 by lia. f_equal. apply eq_iff_eq_true.
  rewrite andb_true_iff, !Z.leb_le, bool_decide_eq_true. unfold node.
  set (a := 2 ^ k) in *. set (d := p / a) in *. split.
  - intros [H1 H2]. assert (a * m <= p < a * (m + 1)) as [? ?] by lia.
    assert (d < m + 1) by (apply Z.mul_lt_mono_pos_l with a; lia).
    assert (m < d + 1) by (apply Z.mul_lt_mono_pos_l with a; lia). lia.
  - intros <-. lia.
Qed.

(** Every node of a direct path covers the leaf it starts from. *)
Lemma ancestors_cover p count k v :
  0 <= p -> 0 <= k -> v ∈ ancestors_from count k (p / 2 ^ k) ->
  exists j, k < j <= k + Z.of_nat count /\ v = node j (p / 2 ^ j).
Proof.
  intros Hp. revert k. induction count as [|count IH]; intros k Hk; simpl; [by intros ?%elem_of_nil|].
  assert (Ediv : p / 2 ^ k / 2 = p / 2 ^ (k + 1)).
  { rewrite pow2_S, (Z.mul_comm 2), Z.div_div by lia. done. }
  rewrite Ediv. intros [->|Hin]%elem_of_cons; [exists (k + 1); split; [lia|done]|].
  destruct (IH (k + 1) ltac:(lia) Hin) as (j & ? & ->). exists j. split; [lia|done].
Qed.

Lemma directPath_covers n p v :
  2 <= n <= 2 ^ 30 -> 0 <= p < n -> v ∈ directPath_ref (2 * p) n ->
  covers v p /\ v < 2 * n - 1 /\ exists j, 1 <= j <= 30 /\ v = node j (p / 2 ^ j).
Proof.
  intros Hn Hp Hin. unfold directPath_ref in Hin.
  apply list_elem_of_In, List.filter_In in Hin as [Hin Hlt%Z.ltb_lt]. apply list_elem_of_In in Hin.
  rewrite (Z.mul_comm 2 p), Z.div_mul in Hin by lia.
  replace p with (p / 2 ^ 0) in Hin by (rewrite Z.pow_0_r, Z.div_1_r; done).
  destruct (ancestors_cover p _ 0 v ltac:(lia) ltac:(lia) Hin) as (j & Hj & ->).
  pose proof (height_bounds n ltac:(lia)) as [? ?]. pose proof (fits_height n ltac:(lia)) as Hf.
  unfold fits in Hf. rewrite Z2Nat.id in Hj by lia.
  split_and!; [|done|]; exists j; split; done || lia.
Qed.

(** Two ancestors of one leaf: the lower one is on the side of the leaf. *)
Lemma covers_side p j k :
  0 <= p -> 0 <= j <= k ->
  (p / 2 ^ k = 2 * (p / 2 ^ (k + 1)) -> node j (p / 2 ^ j) < node (k + 1) (p / 2 ^ (k + 1))) /\
  (p / 2 ^ k <> 2 * (p / 2 ^ (k + 1)) -> node (k + 1) (p / 2 ^ (k + 1)) < node j (p / 2 ^ j)).
Proof.
  intros Hp Hjk. set (m := p / 2 ^ (k + 1)). set (q := p / 2 ^ j).
  assert (Hq : p / 2 ^ k = q / 2 ^ (k - j)).
  { unfold q. rewrite Z.div_div, <- Z.pow_add_r by lia. do 2 f_equal. lia. }
  assert (Hm : m = p / 2 ^ k / 2).
  { unfold m. rewrite pow2_S, (Z.mul_comm 2), Z.div_div by lia. done. }
  assert (Hpow : 2 ^ (k + 1) = 2 ^ j * (2 * 2 ^ (k - j))).
  { rewrite pow2_S by lia. replace k with (j + (k - j)) at 1 by lia. rewrite Z.pow_add_r by lia. lia. }
  unfold node. rewrite Hpow.
  pose proof (Z.pow_pos_nonneg 2 j ltac:(lia) ltac:(lia)). pose proof (Z.pow_pos_nonneg 2 (k - j) ltac:(lia) ltac:(lia)).
  set (a := 2 ^ j) in *. set (b := 2 ^ (k - j)) in *. pose proof (Z.div_mod q b ltac:(lia)). pose proof (Z.mod_pos_bound q b ltac:(lia)).
  pose proof (Z.div_mod (p / 2 ^ k) 2 ltac:(lia)). pose proof (Z.mod_pos_bound (p / 2 ^ k) 2 ltac:(lia)).
  split; intros E.
  - assert (q < b * (2 * m + 1)) by nia. nia.
  - assert (b * (2 * m + 1) <= q) by nia. nia.
Qed.

Lemma node_inj j a k b :
  0 <= j <= 30 -> 0 <= a -> 0 <= k <= 30 -> 0 <= b -> node j a < 2 ^ 31 - 1 -> node j a = node k b ->
  j = k /\ a = b.
Proof.
  intros Hj Ha Hk Hb Hlt E. pose proof (level_node j a ltac:(lia) Ha Hlt) as L1.
  pose proof (level_node k b ltac:(lia) Hb ltac:(lia)) as L2. assert (j = k) as -> by congruence.
  split; [done|]. unfold node in E. pose proof (Z.pow_pos_nonneg 2 k ltac:(lia) ltac:(lia)). nia.
Qed.

Section Child.
  Context {PubKey PrivKey : Type}.

Lemma path_up_parent n x ps i c d :
  path_up n x ps -> (x :: ps) !! i = Some c -> ps !! i = Some d -> parent c n = Ok d.
Proof.
  intros Hup. revert i. induction Hup as [|x q ps E Hup IH]; intros i Hc Hd; [done|].
  destruct i as [|i]; simplify_eq/=; [done|]. by apply (IH i).
Qed.

Lemma path_parent n p i c d :
  2 <= n <= 2 ^ 30 -> 0 <= p < n ->
  (2 * p :: directPath_ref (2 * p) n) !! i = Some c -> directPath_ref (2 * p) n !! i = Some d ->
  parent c n = Ok d /\ 0 <= c < 2 * n - 1 /\ exists j, 0 <= j <= 30 /\ c = node j (p / 2 ^ j).
Proof.
  intros Hn Hp Hc Hd. destruct (directPath_path_up n p Hn Hp) as [_ Hup].
  split; [by eapply path_up_parent|]. destruct i as [|i]; simpl in Hc.
  - injection Hc as <-. split; [lia|]. exists 0. split; [lia|]. rewrite Z.pow_0_r, Z.div_1_r. unfold node. lia.
  - apply list_elem_of_lookup_2 in Hc.
    destruct (directPath_covers n p c Hn Hp Hc) as (_ & ? & j & Hj & ->).
    pose proof (node_nonneg j (p / 2 ^ j) ltac:(lia) ltac:(apply Z.div_pos; lia)).
    split; [lia|]. exists j. split; [lia|done].
Qed.

(** The child of a node of our direct path that is on our side is the element
    of the path before it. *)
Lemma findChild_on_path (s : @BeeKEM PubKey PrivKey) n p i c d :
  2 <= n <= 2 ^ 30 -> 0 <= p < n -> myLeafIndex s = 2 * p -> numLeaves s = n ->
  (2 * p :: directPath_ref (2 * p) n) !! i = Some c -> directPath_ref (2 * p) n !! i = Some d ->
  findChildOnOurSide s d = Ok (Some c).
Proof.
  intros Hn Hp Hmy Hnl Hc Hd. pose proof (fits_height n ltac:(lia)) as Hf.
  destruct (path_parent n p i c d Hn Hp Hc Hd) as (Hpar & Hcr & j & Hj & Ec).
  destruct (directPath_covers n p d Hn Hp (list_elem_of_lookup_2 _ _ _ Hd)) as (_ & Hdr & J & HJ & Ed).
  destruct (child_of_parent n c ltac:(lia) Hcr (parent_not_root _ _ _ Hpar)) as (k & m & Hi & Hk & Hlt & Ep & Hside).
  destruct (children_of_node n k m ltac:(lia) Hi Hk Hlt) as (l & r & El & Er & Hl & Hr & _ & _).
  rewrite Hpar in Ep. injection Ep as Edk.
  assert (Hm : 0 <= m) by (destruct Hi; lia). assert (HkK : k + 1 <= 30) by (destruct Hi; unfold fits in Hf; lia).
  assert (Hbig : 2 * n - 1 <= 2 ^ 31 - 1) by lia.
  assert (Hpj : forall x, 0 <= p / 2 ^ x) by (intros; destruct (decide (0 <= x)); [apply Z.div_pos; lia|rewrite Z.pow_neg_r, Z.div_0_r by lia; lia]).
  destruct (node_inj J (p / 2 ^ J) (k + 1) m) as [-> Em]; [lia|apply Hpj|lia|lia|lia|congruence|].
  assert (Hjk : j <= k).
  { destruct (decide (j <= k)); [done|]. assert (Hij : in_tree (height n) j (p / 2 ^ j)).
    { apply in_tree_intro; [lia|apply Hpj|unfold fits in Hf; lia|]. unfold fits in Hf. lia. }
    assert (j < height n).
    { destruct (decide (j < height n)); [done|]. assert (j = height n) as -> by (destruct Hij; lia).
      rewrite (in_tree_top _ _ Hij) in Ec. apply parent_not_root in Hpar. rewrite root_node in Hpar by lia. congruence. }
    destruct (parent_spec n j (p / 2 ^ j) ltac:(lia) Hij) as (k' & m' & Hk' & Hi' & Hlt' & E' & _); [done|].
    rewrite <- Ec, Hpar in E'. injection E' as E'.
    destruct (node_inj (k + 1) m k' m'); [lia|lia|destruct Hi'; unfold fits in Hf; lia|destruct Hi'; lia|lia|congruence|lia]. }
  rewrite (left_in_tree _ _ _ _ Hf Hi Hk) in El. injection El as <-.
  destruct (covers_side p j k ltac:(lia) ltac:(lia)) as [Hleft Hright]. rewrite Em in Hleft, Hright.
  unfold findChildOnOurSide. rewrite Hmy, Hnl, Ed, node_parity by (try apply Hpj; lia).
  destruct (Z.eqb_spec (k + 1) 0); [lia|]. rewrite Em, (left_in_tree _ _ _ _ Hf Hi Hk), Er.
  rewrite isInSubtree_node by lia. case_bool_decide as Hcase.
  - destruct Hside as [Hs|Hs]; [rewrite (left_in_tree _ _ _ _ Hf Hi Hk) in Hs; congruence|].
    rewrite Er in Hs. injection Hs as ->. specialize (Hleft Hcase). lia.
  - destruct Hside as [Hs|Hs].
    + rewrite (left_in_tree _ _ _ _ Hf Hi Hk) in Hs. injection Hs as Hs. specialize (Hright Hcase). lia.
    + rewrite Er in Hs. injection Hs as ->. rewrite Ec. rewrite isInSubtree_node by (try apply Hpj; lia).
      by rewrite bool_decide_true.
Qed.

Lemma ancestors_complete p count k j :
  0 <= p -> 0 <= k < j -> j <= k + Z.of_nat count -> node j (p / 2 ^ j) ∈ ancestors_from count k (p / 2 ^ k).
Proof.
  intros Hp. revert k. induction count as [|count IH]; intros k Hk Hj; [lia|]. cbn [ancestors_from].
  assert (Ediv : p / 2 ^ k / 2 = p / 2 ^ (k + 1)).
  { rewrite pow2_S, (Z.mul_comm 2), Z.div_div by lia. done. }
  rewrite Ediv. destruct (decide (j = k + 1)) as [->|]; [by left|right]. apply IH; lia.
Qed.

(** The interval test agrees with the tree: our leaf is in the subtree of a
    node exactly when the node is the leaf or lies on the leaf's direct path,
    and the child found on our side of a direct-path node is the path's
    preceding element. *)
Theorem own_side_correct (s : @BeeKEM PubKey PrivKey) n p v :
  2 <= n <= 2 ^ 30 -> 0 <= p < n -> 0 <= v < 2 * n - 1 -> myLeafIndex s = 2 * p -> numLeaves s = n ->
  exists dp, directPath (2 * p) n = Ok dp /\
  (isInSubtree (2 * p) v = Ok true <-> v = 2 * p \/ v ∈ dp) /\
  (forall i c, (2 * p :: dp) !! i = Some c -> dp !! i = Some v -> findChildOnOurSide s v = Ok (Some c)).
Proof.
  intros Hn Hp Hv Hmy Hnl. pose proof (fits_height n ltac:(lia)) as Hf.
  exists (directPath_ref (2 * p) n). split_and!; [by apply directPath_path_up| |].
  2: { intros i c Hc Hd. by eapply findChild_on_path. }
  destruct (node_in_tree _ _ _ Hf Hv) as (k & m & Hi & ->).
  assert (Hk : 0 <= k <= 30) by (destruct Hi; unfold fits in Hf; lia). assert (Hm : 0 <= m) by (destruct Hi; lia).
  rewrite isInSubtree_node by (unfold fits in Hf; lia).
  assert (Hcong : forall b : bool, Ok b = Ok true <-> b = true) by (intros; split; congruence).
  rewrite Hcong, bool_decide_eq_true. split.
  - intros Hdiv. destruct (decide (k = 0)) as [->|]; [left|right].
    + rewrite Z.pow_0_r, Z.div_1_r in Hdiv. unfold node. lia.
    + unfold directPath_ref. apply list_elem_of_In, List.filter_In. rewrite <- list_elem_of_In. split; [|apply Z.ltb_lt; lia].
      rewrite (Z.mul_comm 2 p), Z.div_mul by lia. rewrite <- Hdiv.
      replace (ancestors_from _ 0 p) with (ancestors_from (Z.to_nat (height n)) 0 (p / 2 ^ 0))
        by (rewrite Z.pow_0_r, Z.div_1_r; done).
      apply ancestors_complete; [lia|lia|]. destruct Hi. lia.
  - intros [E|Hin].
    + destruct (node_inj k m 0 p) as [-> ->]; [lia|lia|lia|lia|lia|rewrite E; unfold node; lia|].
      by rewrite Z.pow_0_r, Z.div_1_r.
    + destruct (directPath_covers n p _ Hn Hp Hin) as (_ & _ & j & Hj & E).
      destruct (node_inj k m j (p / 2 ^ j)) as [-> ->]; [lia|lia|lia|apply Z.div_pos; lia|lia|done|done].
Qed.
End Child.

Lemma own_side_correct_witness :
  exists dp, directPath (2 * 2) 3 = Ok dp /\
  (isInSubtree (2 * 2) 3 = Ok true <-> 3 = 2 * 2 \/ 3 ∈ dp) /\
  (forall i c, (2 * 2 :: dp) !! i = Some c -> dp !! i = Some 3 ->
     findChildOnOurSide (@MkBeeKEM Z Z [] 3 4 0) 3 = Ok (Some c)).
Proof. apply (own_side_correct (MkBeeKEM [] 3 4 0) 3 2 3); [lia|lia|lia|reflexivity|reflexivity]. Defined.
End BeeKemGeometry.
