(* ===== verification/BeeKemTheory.v ===== *)
(** * What BeeKEM guarantees

    Theorems on the operations of [BeeKem]: path updates are always produced
    and renew every key of the sender's path, a welcome gives the joiner the
    sender's root secret, a receiver on the other side of the root follows a
    path update, a removal leaves no old key on the removed member's path; and
    the cases in which the protocol as written does not get there. *)
From stdpp Require Import base numbers list list_numbers strings sorting.
From Stdlib Require Import ZArith Lia.
From S2P Require Import Prelude TreeMath Ecies BeeKem BeeKemGeometry.
Import TreeMath BeeKem BeeKemGeometry.

Open Scope Z_scope.

Module BeeKemTheory.

Section Theory.
  Context {PubKey PrivKey Rand : Type} `{Box : SealedBox PubKey PrivKey Rand}
    `{Keys : !TreeKeys PubKey PrivKey Rand}.

Abbreviation state := (@BeeKEM PubKey PrivKey).

(** ** Resolution *)

Lemma resolve_ext fuel (s s' : state) v :
  nodes s = nodes s' -> numLeaves s = numLeaves s' ->
  resolvePublicKey fuel s v = resolvePublicKey fuel s' v.
Proof.
  intros E1 E2. revert v. induction fuel as [|fuel IH]; intros v; [done|]. simpl.
  unfold pub_at. rewrite E1, E2. destruct (_ ≫= publicKey); [done|]. destruct (isInternal v); [|done].
  destruct (left v) as [l|]; [|done]. destruct (right v _) as [r|]; [|done]. by rewrite !IH.
Qed.

(** A child in the tree has a lower level than its parent. *)
Lemma child_level n v c k m :
  1 <= n <= 2 ^ 30 -> 0 <= c < 2 * n - 1 -> parent c n = Ok v -> v = node k m -> 0 <= k <= 30 -> 0 <= m ->
  exists j q, c = node j q /\ 0 <= j < k /\ 0 <= q.
Proof.
  intros Hn Hc Hp -> Hk Hm. pose proof (fits_height n Hn) as Hf.
  destruct (node_in_tree _ _ _ Hf Hc) as (j & q & Hi & ->). exists j, q.
  assert (j < height n).
  { destruct (decide (j = height n)) as [->|]; [|destruct Hi; lia].
    rewrite (in_tree_top _ _ Hi) in Hp. apply parent_not_root in Hp. by rewrite root_node in Hp. }
  destruct (parent_spec n j q Hn Hi H) as (k' & m' & Hlt & Hi' & Hw & E & _). rewrite Hp in E. injection E as E.
  destruct (node_inj k m k' m') as [-> ->]; [done|done|destruct Hi'; unfold fits in Hf; lia|destruct Hi'; lia| |done|].
  - rewrite E. lia.
  - destruct Hi. split; [done|lia].
Qed.

(** The nodes of the subtree of [v]. *)
Inductive desc (n : Z) : Z -> Z -> Prop :=
| desc_refl v : desc n v v
| desc_left v l w : isInternal v = true -> left v = Ok l -> desc n l w -> desc n v w
| desc_right v r w : isInternal v = true -> right v (Some n) = Ok r -> desc n r w -> desc n v w.

(** The children of an internal node, with their levels. *)
Lemma children_levels n v k m :
  1 <= n <= 2 ^ 30 -> 0 <= v < 2 * n - 1 -> v = node k m -> 0 <= k <= 30 -> 0 <= m -> isInternal v = true ->
  exists l r jl ql jr qr, left v = Ok l /\ right v (Some n) = Ok r /\ 0 <= l < 2 * n - 1 /\ 0 <= r < 2 * n - 1 /\
    l = node jl ql /\ r = node jr qr /\ 0 <= jl < k /\ 0 <= jr < k /\ 0 <= ql /\ 0 <= qr.
Proof.
  intros Hn Hv -> Hk Hm Hint. pose proof (fits_height n Hn) as Hf.
  assert (Hk1 : 1 <= k).
  { rewrite isInternal_isLeaf, node_parity in Hint by (unfold fits in Hf; lia).
    destruct (Z.eqb_spec k 0); [done|lia]. }
  replace k with (k - 1 + 1) in * by lia.
  assert (Hi : in_tree (height n) (k - 1 + 1) m).
  { apply in_tree_intro; unfold fits in Hf; lia. }
  destruct (children_of_node n (k - 1) m Hn Hi ltac:(lia) ltac:(lia)) as (l & r & El & Er & Hl & Hr & Pl & Pr).
  destruct (child_level n _ l (k - 1 + 1) m Hn ltac:(lia) Pl eq_refl ltac:(lia) Hm) as (jl & ql & -> & ? & ?).
  destruct (child_level n _ r (k - 1 + 1) m Hn ltac:(lia) Pr eq_refl ltac:(lia) Hm) as (jr & qr & -> & ? & ?).
  exists (node jl ql), (node jr qr), jl, ql, jr, qr. split_and!; done || lia.
Qed.

(** Resolution terminates, and finds a key exactly when the subtree has one. *)
Lemma resolve_spec fuel (s : state) n v k m :
  numLeaves s = n -> 1 <= n <= 2 ^ 30 -> 0 <= v < 2 * n - 1 -> v = node k m -> 0 <= k <= 30 -> 0 <= m ->
  k < Z.of_nat fuel ->
  exists o, resolvePublicKey fuel s v = Ok o /\
    match o with
    | Some p => exists w, desc n v w /\ pub_at s w = Some p
    | None => forall w, desc n v w -> pub_at s w = None
    end.
Proof.
  intros Hnl Hn. revert v k m. induction fuel as [|fuel IH]; intros v k m Hv Ev Hk Hm Hf; [lia|]. simpl.
  destruct (pub_at s v) as [p|] eqn:Ep.
  { exists (Some p). split; [done|]. exists v. split; [constructor|done]. }
  destruct (isInternal v) eqn:Hint.
  2: { exists None. split; [done|]. intros w Hw. inversion Hw; subst; congruence. }
  destruct (children_levels n v k m Hn Hv Ev Hk Hm Hint)
    as (l & r & jl & ql & jr & qr & El & Er & Hl & Hr & Enl & Enr & Hjl & Hjr & Hql & Hqr).
  rewrite Hnl, El, Er.
  destruct (IH l jl ql Hl Enl ltac:(lia) Hql ltac:(lia)) as (ol & -> & Hol).
  destruct ol as [p|].
  { exists (Some p). split; [done|]. destruct Hol as (w & Hd & Hw). exists w. split; [by eapply desc_left|done]. }
  destruct (IH r jr qr Hr Enr ltac:(lia) Hqr ltac:(lia)) as (or & -> & Hor).
  destruct or as [p|].
  { exists (Some p). split; [done|]. destruct Hor as (w & Hd & Hw). exists w. split; [by eapply desc_right|done]. }
  exists None. split; [done|]. intros w Hw.
  inversion Hw as [|? l' ? _ El' Hd|? r' ? _ Er' Hd]; subst w || clear Hw; [done|..].
  - rewrite El in El'. injection El' as <-. by apply Hol.
  - rewrite Er in Er'. injection Er' as <-. by apply Hor.
Qed.

Lemma resolve_total (s : state) n v :
  numLeaves s = n -> 1 <= n <= 2 ^ 30 -> 0 <= v < 2 * n - 1 -> exists o, resolvePublicKey 33 s v = Ok o.
Proof.
  intros Hnl Hn Hv. pose proof (fits_height n Hn) as Hf. destruct (node_in_tree _ _ _ Hf Hv) as (k & m & Hi & ->).
  destruct (resolve_spec 33 s n (node k m) k m Hnl Hn Hv eq_refl) as (o & -> & _);
    [destruct Hi; unfold fits in Hf; lia|destruct Hi; lia|destruct Hi; unfold fits in Hf; lia|eauto].
Qed.

Lemma resolve_hit fuel (s : state) v p : pub_at s v = Some p -> resolvePublicKey (S fuel) s v = Ok (Some p).
Proof. intros E. simpl. by rewrite E. Qed.

#[local] Arguments resolvePublicKey : simpl never.
#[local] Arguments resolveSubtreeKey : simpl never.
#[local] Arguments directPath : simpl never.
#[local] Arguments copath : simpl never.
#[local] Arguments findChildOnOurSide : simpl never.
#[local] Arguments getRootSecret : simpl never.

Abbreviation tnode := (@TreeNode PubKey PrivKey).

(** ** Path updates *)

(** A key pair of an internal node, and the node that holds it. *)
Definition fresh_node (d : Z) (k : PrivKey) : TreeNode := MkNode InternalType d (Some (pub_of k)) (Some k).

(** What the loop of [_updatePath] does over pairs of a path node and its
    sibling: fresh keys, each sealed to the key the sibling resolves to. *)
Inductive path_run : state -> list (Z * Z) -> list PathNodeUpdate -> state -> Prop :=
| run_nil s : path_run s [] [] s
| run_cons s d c enc r l pns s2 :
    (rng s < r)%nat ->
    (forall p, resolvePublicKey 33 s c = Ok (Some p) ->
       exists rnd, enc = seal rnd (export_priv (generated (rng s))) p) ->
    path_run (MkBeeKEM (map_set d (fresh_node d (generated (rng s))) (nodes s)) (numLeaves s) (myLeafIndex s) r)
      l pns s2 ->
    path_run s ((d, c) :: l) (PathNode d (export_pub (pub_of (generated (rng s)))) enc :: pns) s2.

Lemma updatePath_loop n l : forall s acc,
  numLeaves s = n -> 1 <= n <= 2 ^ 30 -> Forall (fun dc => 0 <= snd dc < 2 * n - 1) l ->
  exists pns s', for_each updatePath_step acc l s = (Ok (acc ++ pns), s') /\ path_run s l pns s'.
Proof.
  induction l as [|[d c] l IH]; intros s acc Hnl Hn Hl.
  { exists [], s. rewrite app_nil_r. split; [done|constructor]. }
  apply Forall_cons in Hl as [Hc Hl]. simpl in Hc.
  destruct (resolve_total (tick s) n c) as [o Eo]; [done|done|done|].
  assert (Eo' : resolvePublicKey 33 s c = Ok o) by (rewrite <- Eo; by apply resolve_ext).
  set (s1 := MkBeeKEM (map_set d (fresh_node d (generated (rng s))) (nodes s)) (numLeaves s) (myLeafIndex s)
               (match o with Some _ => S (S (rng s)) | None => S (rng s) end)).
  set (enc := match o with Some p => seal (seal_rand (S (rng s))) (export_priv (generated (rng s))) p | None => [] end).
  assert (Estep : updatePath_step acc (d, c) s =
    (Ok (acc ++ [PathNode d (export_pub (pub_of (generated (rng s)))) enc]), s1)).
  { unfold updatePath_step, generateKey, bind, get, modify, ret, lift. cbn [fst snd]. rewrite Eo. by destruct o. }
  destruct (IH s1 (acc ++ [PathNode d (export_pub (pub_of (generated (rng s)))) enc])) as (pns & s' & E & Hrun); [done|done|done|].
  exists (PathNode d (export_pub (pub_of (generated (rng s)))) enc :: pns), s'. split.
  - cbn [for_each]. unfold bind at 1. rewrite Estep, E. by rewrite <- app_assoc.
  - eapply (run_cons _ _ _ _ (rng s1)); [unfold s1; destruct o; simpl; lia| |exact Hrun].
    intros p Ep. rewrite Eo' in Ep. injection Ep as ->. unfold enc. eauto.
Qed.

Lemma path_run_frame s l pns s' : path_run s l pns s' ->
  numLeaves s' = numLeaves s /\ myLeafIndex s' = myLeafIndex s /\ (rng s <= rng s')%nat /\
  pn_nodeIndex <$> pns = l.*1 /\
  forall i, i ∉ l.*1 -> map_get i (nodes s') = map_get i (nodes s).
Proof.
  induction 1 as [s|s d c enc r l pns s2 Hr Henc Hrun (IH1 & IH2 & IH3 & IH4 & IH5)]; [done|].
  simpl in *. split_and!; [done|done|lia|by f_equal|].
  intros i [Hne Hni]%not_elem_of_cons. rewrite IH5 by done. by apply map_get_set_ne.
Qed.

Lemma path_run_fresh s l pns s' d : path_run s l pns s' -> d ∈ l.*1 ->
  exists t, (rng s <= t)%nat /\ map_get d (nodes s') = Some (fresh_node d (generated t)).
Proof.
  induction 1 as [s|s d0 c enc r l pns s2 Hr Henc Hrun IH]; csimpl; [by intros ?%elem_of_nil|].
  intros Hin. destruct (decide (d ∈ l.*1)) as [Hl|Hl].
  - destruct (IH Hl) as (t & Ht & E). simpl in Ht. exists t. split; [lia|done].
  - apply elem_of_cons in Hin as [->|]; [|done]. exists (rng s). split; [done|].
    destruct (path_run_frame _ _ _ _ Hrun) as (_ & _ & _ & _ & Hf). rewrite Hf by done. apply map_get_set_eq.
Qed.

(** The last step of a run. *)
Lemma path_run_snoc s l d c pns s' : path_run s (l ++ [(d, c)]) pns s' ->
  exists pns' s1 enc k, pns = pns' ++ [PathNode d (export_pub (pub_of k)) enc] /\ path_run s l pns' s1 /\
    map_get d (nodes s') = Some (fresh_node d k) /\
    forall p, resolvePublicKey 33 s1 c = Ok (Some p) -> exists rnd, enc = seal rnd (export_priv k) p.
Proof.
  revert s pns. induction l as [|[d0 c0] l IH]; intros s pns Hrun; simpl in Hrun.
  - inversion Hrun as [|? ? ? enc r ? pns0 ? Hr Henc Hrun']; subst. inversion Hrun'; subst.
    exists [], s, enc, (generated (rng s)). split_and!; [done|constructor|apply map_get_set_eq|done].
  - inversion Hrun as [|? ? ? enc r ? pns0 ? Hr Henc Hrun']; subst.
    destruct (IH _ _ Hrun') as (pns' & s1 & enc1 & k & -> & Hr1 & Hg & Hs).
    eexists (_ :: pns'), s1, enc1, k. split_and!; [done|by eapply run_cons|done|done].
Qed.

Lemma path_run_nodup s l pns s' : path_run s l pns s' -> NoDup (nodes s).*1 -> NoDup (nodes s').*1.
Proof. induction 1; [done|]. simpl in *. auto with swarm. Qed.

(** Our position in a tree that the operations support. *)
Record placed (s : state) (p : Z) : Prop := {
  placed_size : 1 <= numLeaves s <= 2 ^ 30;
  placed_leaf : myLeafIndex s = 2 * p;
  placed_range : 0 <= p < numLeaves s }.

(** Producing a path update never fails for a member with a key. *)
Lemma updatePath_ok s p myPub :
  placed s p -> 2 <= numLeaves s -> pub_at s (2 * p) = Some myPub ->
  exists cp pns rs s', copath (2 * p) (numLeaves s) = Ok cp /\
    length cp = length (directPath_ref (2 * p) (numLeaves s)) /\
    updatePath s = (Ok (MkPathUpdate (2 * p) (export_pub myPub) pns, rs), s') /\
    path_run s (zip (directPath_ref (2 * p) (numLeaves s)) cp) pns s' /\ getRootSecret s' = Ok rs.
Proof.
  intros [Hn Hmy Hp] Hn2 Hpub. set (n := numLeaves s) in *. set (dp := directPath_ref (2 * p) n).
  destruct (directPath_path_up n p ltac:(lia) Hp) as [Edp Hup]. fold dp in Edp, Hup.
  assert (Hne : dp <> []) by (apply directPath_ref_ne; lia).
  destruct (map_sibling_spec n (2 * p) dp) as (cp & Ecp & Hlen & Hcp); [lia|lia|done|done|].
  assert (Ecp' : copath (2 * p) n = Ok cp) by (unfold copath; by rewrite Edp).
  assert (Hrange : Forall (fun dc => 0 <= snd dc < 2 * n - 1) (zip dp cp)).
  { apply Forall_forall. intros [d c] Hin%list_elem_of_lookup_1. destruct Hin as [i Hi]. simpl.
    apply lookup_zip_with_Some in Hi as (d' & c' & [= -> ->] & Hd & Hc).
    assert (is_Some ((2 * p :: dp) !! i)) as [x Hx].
    { apply lookup_lt_is_Some. apply lookup_lt_Some in Hd. simpl. lia. }
    destruct (Hcp i x d' Hx Hd) as (s0 & Hs0 & _ & _ & _ & _ & Hr). congruence. }
  destruct (updatePath_loop n (zip dp cp) s [] eq_refl Hn Hrange) as (pns & s' & Eloop & Hrun).
  destruct (path_run_frame _ _ _ _ Hrun) as (Hnl & Hml & _).
  assert (Hroot : exists rt t, root n = Ok rt /\ map_get rt (nodes s') = Some (fresh_node rt (generated t))).
  { pose proof (path_up_last _ _ _ Hup _ (root_node n Hn)) as Hl. exists (List.last (2 * p :: dp) 0).
    assert (Hin : List.last (2 * p :: dp) 0 ∈ (zip dp cp).*1).
    { rewrite fst_zip by lia. by apply last_cons_elem. }
    destruct (path_run_fresh _ _ _ _ _ Hrun Hin) as (t & _ & E). exists t. split; [|done].
    rewrite root_node by done. by f_equal. }
  destruct Hroot as (rt & t & Ert & Hget).
  assert (Hsec : getRootSecret s' = Ok (sha256_of (export_priv (generated t)))).
  { unfold getRootSecret. rewrite Hnl. fold n. destruct (Z.leb_spec n 0); [lia|]. destruct (Z.eqb_spec n 1); [lia|].
    rewrite Ert. unfold priv_at. by rewrite Hget. }
  exists cp, pns, (sha256_of (export_priv (generated t))), s'. split_and!; [done|done| |done|done].
  unfold updatePath, bind, get, lift, ret. rewrite Hmy, Hpub. fold n. destruct (Z.eqb_spec n 1); [lia|].
  rewrite Edp, Ecp'. fold (@for_each state). rewrite Eloop. simpl. by rewrite Hsec.
Qed.

Lemma leaf_not_on_path n p q : 2 <= n <= 2 ^ 30 -> 0 <= p < n -> 0 <= q < n -> 2 * q ∉ directPath_ref (2 * p) n.
Proof.
  intros Hn Hp Hq Hin. destruct (directPath_covers n p _ Hn Hp Hin) as (_ & Hlt & j & Hj & E).
  destruct (node_inj j (p / 2 ^ j) 0 q) as [-> _]; [lia|apply Z.div_pos; lia|lia|lia|lia| |lia].
  rewrite <- E. unfold node. lia.
Qed.

Lemma renewLeaf_eq (s : state) :
  renewLeaf s = (Ok tt, set_node (myLeafIndex s)
    (MkNode LeafType (myLeafIndex s) (Some (pub_of (generated (rng s)))) (Some (generated (rng s)))) (tick s)).
Proof. done. Qed.

(** A fresh leaf key and a path update: every key from our leaf to the root is
    new, and nothing else changes. *)
Lemma renew_and_update (s : state) p :
  placed s p -> 2 <= numLeaves s ->
  exists pu rs s', bind renewLeaf (fun _ => updatePath) s = (Ok (pu, rs), s') /\
    senderLeafIndex pu = 2 * p /\ pn_nodeIndex <$> pu_nodes pu = directPath_ref (2 * p) (numLeaves s) /\
    numLeaves s' = numLeaves s /\ myLeafIndex s' = myLeafIndex s /\ getRootSecret s' = Ok rs /\
    (forall d, d ∈ 2 * p :: directPath_ref (2 * p) (numLeaves s) ->
       exists t, (rng s <= t)%nat /\ pub_at s' d = Some (pub_of (generated t)) /\ priv_at s' d = Some (generated t)) /\
    (forall d, d ∉ 2 * p :: directPath_ref (2 * p) (numLeaves s) -> map_get d (nodes s') = map_get d (nodes s)).
Proof.
  intros [Hn Hmy Hp] Hn2. unfold bind. rewrite renewLeaf_eq. set (s1 := set_node _ _ _).
  assert (Hpl : placed s1 p) by by split.
  assert (Hpub : pub_at s1 (2 * p) = Some (pub_of (generated (rng s)))).
  { unfold pub_at, s1, set_node. cbn [nodes]. by rewrite Hmy, map_get_set_eq. }
  destruct (updatePath_ok s1 p _ Hpl Hn2 Hpub) as (cp & pns & rs & s' & Ecp & Hlen & E & Hrun & Hsec).
  change (numLeaves s1) with (numLeaves s) in *. set (dp := directPath_ref (2 * p) (numLeaves s)) in *.
  destruct (path_run_frame _ _ _ _ Hrun) as (Hnl & Hml & Hr & Hidx & Hframe).
  rewrite fst_zip in * by lia.
  assert (Hnot : 2 * p ∉ dp) by (apply leaf_not_on_path; lia).
  exists (MkPathUpdate (2 * p) (export_pub (pub_of (generated (rng s)))) pns), rs, s'.
  split_and!; [done|done|done|done|done|done| |].
  - intros d [->|Hd]%elem_of_cons.
    + exists (rng s). split; [done|]. unfold pub_at, priv_at. rewrite (Hframe _ Hnot). unfold s1, set_node.
      cbn [nodes]. by rewrite Hmy, map_get_set_eq.
    + destruct (path_run_fresh _ _ _ _ d Hrun) as (t & Ht & Eg); [by rewrite fst_zip by lia|].
      exists t. unfold s1 in Ht. simpl in Ht. split; [lia|]. unfold pub_at, priv_at. by rewrite Eg.
  - intros d [Hne Hd]%not_elem_of_cons. rewrite (Hframe _ Hd). unfold s1, set_node. cbn [nodes].
    rewrite map_get_set_ne by congruence. done.
Qed.

(** A self-update always succeeds and gives post-compromise security: the
    key pair of every node from our leaf to the root is freshly generated, the
    message covers exactly the direct path, the returned secret is the new root
    secret, and no other node changes. *)
Theorem update_renews_path (s : state) p :
  placed s p -> 2 <= numLeaves s ->
  exists dp pu rs s', directPath (2 * p) (numLeaves s) = Ok dp /\ update s = (Ok (pu, rs), s') /\
    pn_nodeIndex <$> pu_nodes pu = dp /\ getRootSecret s' = Ok rs /\
    (forall d, d ∈ 2 * p :: dp -> exists t, (rng s <= t)%nat /\
       pub_at s' d = Some (pub_of (generated t)) /\ priv_at s' d = Some (generated t)) /\
    (forall d, d ∉ 2 * p :: dp -> map_get d (nodes s') = map_get d (nodes s)).
Proof.
  intros Hpl Hn2. destruct (renew_and_update s p Hpl Hn2) as (pu & rs & s' & E & _ & Hidx & _ & _ & Hsec & Hfresh & Hframe).
  exists (directPath_ref (2 * p) (numLeaves s)), pu, rs, s'. destruct Hpl as [Hn _ Hp].
  split_and!; [by apply directPath_path_up; lia|done..].
Qed.

(** ** Removal *)

Lemma blank_loop (path : list Z) : forall s : state,
  exists s', for_each (fun _ i => modify (set_node i (MkNode InternalType i None None))) tt path s = (Ok tt, s') /\
    numLeaves s' = numLeaves s /\ myLeafIndex s' = myLeafIndex s /\ rng s' = rng s /\
    (forall i, i ∈ path -> map_get i (nodes s') = Some (MkNode InternalType i None None)) /\
    (forall i, i ∉ path -> map_get i (nodes s') = map_get i (nodes s)).
Proof.
  induction path as [|x path IH]; intros s.
  { exists s. split_and!; [done..|by intros ? ?%elem_of_nil|done]. }
  destruct (IH (set_node x (MkNode InternalType x None None) s)) as (s' & E & H1 & H2 & H3 & Hin & Hout).
  exists s'. split_and!; [exact E|done..| |].
  - intros i Hi. destruct (decide (i ∈ path)); [auto|]. apply elem_of_cons in Hi as [->|]; [|done].
    rewrite Hout by done. apply map_get_set_eq.
  - intros i [Hne Hni]%not_elem_of_cons. rewrite Hout by done. by apply map_get_set_ne.
Qed.

Lemma removeMember_spec (s : state) p q :
  placed s p -> 2 <= numLeaves s -> 0 <= q < numLeaves s -> q <> p ->
  exists pu rs s' dq, directPath (2 * q) (numLeaves s) = Ok dq /\ removeMember (2 * q) s = (Ok (pu, rs), s') /\
    getRootSecret s' = Ok rs /\ pub_at s' (2 * q) = None /\ priv_at s' (2 * q) = None /\
    forall d, d ∈ dq ->
      (pub_at s' d = None /\ priv_at s' d = None) \/
      (exists t, (rng s <= t)%nat /\ pub_at s' d = Some (pub_of (generated t)) /\ priv_at s' d = Some (generated t)).
Proof.
  intros [Hn Hmy Hp] Hn2 Hq Hqp. set (n := numLeaves s) in *. set (dq := directPath_ref (2 * q) n).
  destruct (directPath_path_up n q ltac:(lia) Hq) as [Edq _]. fold dq in Edq.
  set (s0 := set_node (2 * q) (MkNode LeafType (2 * q) None None) s).
  destruct (blank_loop dq s0) as (s1 & E1 & Hn1 & Hm1 & Hr1 & Hin1 & Hout1).
  assert (Hpl : placed s1 p). { split; rewrite ?Hn1, ?Hm1; done. }
  destruct (renew_and_update s1 p Hpl) as (pu & rs & s' & E & _ & _ & Hn' & _ & Hsec & Hfresh & Hframe); [rewrite Hn1; done|].
  rewrite Hn1 in *. change (numLeaves s0) with n in *. set (dp := directPath_ref (2 * p) n) in *.
  exists pu, rs, s', dq.
  assert (Hqn : 2 * q ∉ 2 * p :: dp) by (rewrite not_elem_of_cons; split; [lia|apply leaf_not_on_path; lia]).
  assert (Hqd : 2 * q ∉ dq) by (apply leaf_not_on_path; lia).
  split_and!; [done| |done| | |].
  - unfold removeMember, bind, modify, get, lift. fold s0. change (numLeaves s0) with n. rewrite Edq.
    unfold modify in E1. rewrite E1. exact E.
  - unfold pub_at. rewrite Hframe, Hout1 by done. unfold s0, set_node. cbn [nodes]. by rewrite map_get_set_eq.
  - unfold priv_at. rewrite Hframe, Hout1 by done. unfold s0, set_node. cbn [nodes]. by rewrite map_get_set_eq.
  - intros d Hd. destruct (decide (d ∈ 2 * p :: dp)) as [Hdp|Hdp].
    + right. destruct (Hfresh d Hdp) as (t & Ht & ?). exists t. rewrite Hr1 in Ht. done.
    + left. unfold pub_at, priv_at. rewrite Hframe, Hin1 by done. done.
Qed.

(** C14. Removing a member always succeeds and revokes everything the member
    knew: the member's leaf is blank, and every node of the member's direct
    path is either blank or holds a key generated by this operation. *)
Theorem remove_revokes_path (s : state) p q :
  placed s p -> 2 <= numLeaves s -> 0 <= q < numLeaves s -> q <> p ->
  exists pu rs s' dq, directPath (2 * q) (numLeaves s) = Ok dq /\ removeMember (2 * q) s = (Ok (pu, rs), s') /\
    getRootSecret s' = Ok rs /\ pub_at s' (2 * q) = None /\ priv_at s' (2 * q) = None /\
    forall d, d ∈ dq ->
      (pub_at s' d = None /\ priv_at s' d = None) \/
      (exists t, (rng s <= t)%nat /\ pub_at s' d = Some (pub_of (generated t)) /\ priv_at s' d = Some (generated t)).
Proof. apply removeMember_spec. Qed.

(** ** Welcome *)

(** The chain of sealed path keys: the first key is sealed to [cur], each next
    one to the public key of the node before. *)
Inductive key_chain (s : state) : PubKey -> list Z -> list PathNodeUpdate -> Prop :=
| chain_nil cur : key_chain s cur [] []
| chain_cons cur i p k rnd ix pks :
    pub_at s i = Some p -> priv_at s i = Some k -> key_chain s p ix pks ->
    key_chain s cur (i :: ix) (PathNode i (export_pub p) (seal rnd (export_priv k) cur) :: pks).

Lemma key_chain_ext s s' cur ix pks : nodes s = nodes s' -> key_chain s cur ix pks -> key_chain s' cur ix pks.
Proof.
  intros E. induction 1 as [|cur i p k rnd ix pks Hp Hk Hc IH]; [constructor|].
  unfold pub_at, priv_at in *. rewrite E in Hp, Hk. by constructor.
Qed.

Lemma build_loop (ix : list Z) : forall (s : state) acc cur res s',
  for_each buildWelcome_step (acc, cur) ix s = (Ok res, s') ->
  nodes s' = nodes s /\ numLeaves s' = numLeaves s /\ myLeafIndex s' = myLeafIndex s /\
  exists pks, fst res = acc ++ pks /\ key_chain s cur ix pks.
Proof.
  induction ix as [|i ix IH]; intros s acc cur res s' E.
  { injection E as <- <-. split_and!; [done..|]. exists []. rewrite app_nil_r. split; [done|constructor]. }
  cbn [for_each] in E. unfold bind at 1 in E. unfold buildWelcome_step, bind, get in E.
  destruct (pub_at s i) as [p|] eqn:Ep; [|done]. destruct (priv_at s i) as [k|] eqn:Ek; [|done].
  cbn [encryptNodeKey bind get modify ret fst snd] in E. unfold encryptNodeKey, bind, get, modify, ret in E.
  cbn [fst snd] in E. apply IH in E as (E1 & E2 & E3 & pks & Epks & Hc). simpl in E1, E2, E3.
  split_and!; [done..|]. eexists (_ :: pks). split; [rewrite Epks; by rewrite <- app_assoc|].
  constructor; [done|done|]. by apply (key_chain_ext (tick s) s).
Qed.

(** Private keys belong to the public keys next to them. *)
Definition keys_match (s : state) : Prop :=
  forall i p k, pub_at s i = Some p -> priv_at s i = Some k -> p = pub_of k.

(** The joiner undoes the chain. *)
Lemma join_path_loop (s : state) ix : forall pks k0 (j : state),
  keys_match s -> key_chain s (pub_of k0) ix pks ->
  exists k', for_each welcome_path_step k0 pks j =
    (Ok k', MkBeeKEM (foldl (fun m i => map_set i (MkNode InternalType i (pub_at s i) (priv_at s i)) m) (nodes j) ix)
              (numLeaves j) (myLeafIndex j) (rng j)).
Proof.
  induction ix as [|i ix IH]; intros pks k0 j Hm Hc; inversion Hc as [|? ? p k rnd ? pks' Hp Hk Hc']; subst.
  { exists k0. by destruct j. }
  pose proof (Hm i p k Hp Hk) as ->.
  destruct (IH pks' k (set_node i (MkNode InternalType i (Some (pub_of k)) (Some k)) j) Hm Hc') as [k' E].
  assert (Est : welcome_path_step k0 (PathNode i (export_pub (pub_of k)) (seal rnd (export_priv k) (pub_of k0))) j =
    (Ok k, set_node i (MkNode InternalType i (Some (pub_of k)) (Some k)) j)).
  { unfold welcome_path_step, decryptNodeKey, bind, lift, modify, ret.
    cbn [pn_publicKey pn_encryptedPrivateKey pn_nodeIndex]. rewrite import_export_pub. cbn [or_throw].
    rewrite open_seal, import_export_priv. done. }
  exists k'. cbn [for_each foldl]. unfold bind at 1. rewrite Est, E, Hp, Hk. done.
Qed.

Definition public_part (e : Z * tnode) : tnode :=
  MkNode (if isLeaf (fst e) then LeafType else InternalType) (fst e) (publicKey (snd e)) None.

Lemma join_tree_loop (l : list (Z * tnode)) : forall j : state,
  for_each welcome_tree_step tt ((fun e : Z * tnode => WelcomeNode (fst e) (export_pub <$> publicKey (snd e))) <$> l) j =
  (Ok tt, MkBeeKEM (foldl (fun m e => map_set (fst e) (public_part e) m) (nodes j) l)
            (numLeaves j) (myLeafIndex j) (rng j)).
Proof.
  induction l as [|[i nd] l IH]; intros j; [by destruct j|]. csimpl.
  assert (Est : welcome_tree_step tt (WelcomeNode i (export_pub <$> publicKey nd)) j =
    (Ok tt, set_node i (public_part (i, nd)) j)).
  { unfold welcome_tree_step, public_part. cbn [wn_publicKey wn_nodeIndex fst snd].
    destruct (publicKey nd) as [p|]; simpl; [|done]. unfold bind, lift. by rewrite import_export_pub. }
  cbn [for_each]. unfold bind at 1. rewrite Est, IH. done.
Qed.

(** The tree hash depends on the public keys and their places only. *)
Lemma tree_hash_ext (s j : state) :
  (nodes s).*1 ≡ₚ (nodes j).*1 -> (forall i, pub_at s i = pub_at j i) -> computeTreeHash s = computeTreeHash j.
Proof.
  intros Hp Hpub. unfold computeTreeHash. f_equal. f_equal.
  rewrite (proj2 (merge_sort_perm Z.le _ _) Hp). apply list_fmap_ext. intros _ i _. unfold hash_part. fold (pub_at s i). fold (pub_at j i). by rewrite Hpub.
Qed.

Lemma max_from_path_small pks n acc :
  n <= 2 ^ 30 -> Forall (fun pk => 0 <= pn_nodeIndex pk < 2 * n - 1) pks -> acc <= n ->
  exists r, max_from_path pks acc = Ok r /\ acc <= r <= n.
Proof.
  intros Hn Hall. revert acc. induction Hall as [|pk pks Hpk _ IH]; intros acc Hacc; [exists acc; split; [done|lia]|].
  cbn [max_from_path]. set (x := pn_nodeIndex pk) in *.
  set (y := if Z.rem x 2 =? 0 then x else x + 1).
  assert (Hy : exists z, y = 2 * z /\ 0 <= z < n).
  { unfold y. rewrite Z.rem_mod_nonneg by lia. destruct (Z.eqb_spec (x mod 2) 0).
    - exists (x / 2). Z.div_mod_to_equations. lia.
    - exists ((x + 1) / 2). Z.div_mod_to_equations. lia. }
  destruct Hy as (z & -> & Hz). unfold nodeToLeafIndex.
  assert (El : isLeaf (2 * z) = true).
  { replace (2 * z) with (node 0 z) by (unfold node; lia). rewrite node_parity; [done|lia|lia|unfold node; lia]. }
  rewrite El. cbn [negb]. rewrite js_shr_small by lia. rewrite Z.mul_comm, Z.pow_1_r, Z.div_mul by lia.
  destruct (Z.ltb_spec acc (z + 1)).
  - destruct (IH (z + 1)) as (r & E & ?); [lia|]. exists r. split; [done|lia].
  - destruct (IH acc) as (r & E & ?); [lia|]. exists r. split; [done|lia].
Qed.

Lemma key_chain_indices (s : state) cur ix pks : key_chain s cur ix pks ->
  pn_nodeIndex <$> pks = ix /\ forall i, i ∈ ix -> is_Some (pub_at s i).
Proof.
  induction 1 as [|cur i p k rnd ix pks Hp Hk Hc [IH1 IH2]]; [split; [done|by intros ? ?%elem_of_nil]|].
  split; [csimpl; by f_equal|]. intros x [->|?]%elem_of_cons; eauto.
Qed.

Lemma pub_at_key (s : state) i : is_Some (pub_at s i) -> i ∈ (nodes s).*1.
Proof. intros [p E]. unfold pub_at in E. apply map_get_is_Some. destruct (map_get i (nodes s)); [eauto|done]. Qed.

(** The nodes a welcome lists without private keys. *)
Definition others_of (s : state) (newLeaf : Z) (dp : list Z) : list (Z * tnode) :=
  List.filter (fun e : Z * tnode => negb (fst e =? newLeaf) && negb (set_has (fst e) dp)) (nodes s).

Lemma elem_of_others (s : state) newLeaf dp e :
  e ∈ others_of s newLeaf dp <-> e ∈ nodes s /\ fst e <> newLeaf /\ fst e ∉ dp.
Proof.
  unfold others_of. rewrite list_elem_of_In, List.filter_In, <- list_elem_of_In, andb_true_iff, !negb_true_iff, Z.eqb_neq.
  unfold set_has. by rewrite bool_decide_eq_false.
Qed.

(** The joiner's nodes: its leaf, the path with private keys, the rest public. *)
Definition joined_nodes (s : state) (newLeaf : Z) (k : PrivKey) (dp : list Z) : list (Z * tnode) :=
  foldl (fun m e => map_set (fst e) (public_part e) m)
    (foldl (fun m i => map_set i (MkNode InternalType i (pub_at s i) (priv_at s i)) m)
       [(newLeaf, MkNode LeafType newLeaf (Some (pub_of k)) (Some k))] dp)
    (others_of s newLeaf dp).

Lemma joined_get (s : state) newLeaf k dp i :
  NoDup (nodes s).*1 -> pub_at s newLeaf = Some (pub_of k) -> newLeaf ∉ dp ->
  (map_get i (joined_nodes s newLeaf k dp) ≫= publicKey) = pub_at s i /\
  (i ∈ dp -> (map_get i (joined_nodes s newLeaf k dp) ≫= privateKey) = priv_at s i).
Proof.
  intros Hn Hpub Hnew. unfold joined_nodes.
  destruct (map_get_foldl_set fst public_part (others_of s newLeaf dp)
    (foldl (fun m i => map_set i (MkNode InternalType i (pub_at s i) (priv_at s i)) m)
       [(newLeaf, MkNode LeafType newLeaf (Some (pub_of k)) (Some k))] dp) i) as [[-> Hno]|(e & He & Hk & ->)].
  2: { apply elem_of_others in He as (He & Hne & Hnd). destruct e as [i' nd]. simpl in *. subst i'. split; [|done].
       unfold pub_at. by rewrite (elem_of_map_get i nd _ Hn He). }
  pose proof (map_get_foldl_set (fun i => i) (fun i => MkNode InternalType i (pub_at s i) (priv_at s i)) dp
    [(newLeaf, MkNode LeafType newLeaf (Some (pub_of k)) (Some k))] i) as Hset. cbn beta in Hset.
  destruct Hset as [[-> Hni]|(x & Hx & <- & ->)]; [|done].
  rewrite list_fmap_id in Hni. split; [|done]. simpl. case_decide as Ed; [subst; by rewrite Hpub|]. simpl.
  symmetry. unfold pub_at. destruct (map_get i (nodes s)) as [nd|] eqn:Eg; [|done]. exfalso. apply Hno.
  apply list_elem_of_fmap. exists (i, nd). split; [done|]. apply elem_of_others.
  split_and!; [by apply map_get_elem_of|done|done].
Qed.

Lemma joined_keys (s : state) newLeaf k dp :
  NoDup (nodes s).*1 -> newLeaf ∈ (nodes s).*1 -> (forall i, i ∈ dp -> i ∈ (nodes s).*1) ->
  (nodes s).*1 ≡ₚ (joined_nodes s newLeaf k dp).*1.
Proof.
  intros Hn Hnew Hdp. apply NoDup_Permutation; [done| |].
  - apply NoDup_foldl_set, (NoDup_foldl_set (fun i => i)). apply NoDup_singleton.
  - intros i. unfold joined_nodes. rewrite elem_of_foldl_set_keys, (elem_of_foldl_set_keys (fun i => i)), list_fmap_id.
    cbn [fmap list_fmap]. rewrite list_elem_of_singleton. split.
    + intros Hi. destruct (decide (i = newLeaf)); [by left; left|]. destruct (decide (i ∈ dp)); [by left; right|right].
      apply list_elem_of_fmap in Hi as ([i' nd] & -> & Hin). apply list_elem_of_fmap. exists (i', nd). split; [done|].
      by apply elem_of_others.
    + intros [[->|?]|Hi]; [done|auto|]. apply list_elem_of_fmap in Hi as (e & -> & He).
      apply elem_of_others in He as [He _]. by apply list_elem_of_fmap_2.
Qed.

(** The joiner reconstructs the sender's tree and its root secret. *)
Lemma process_built (s : state) n k pks seed :
  1 <= n -> n + 1 <= 2 ^ 30 -> numLeaves s = n + 1 -> NoDup (nodes s).*1 -> keys_match s ->
  pub_at s (2 * n) = Some (pub_of k) -> key_chain s (pub_of k) (directPath_ref (2 * n) (n + 1)) pks ->
  let dp := directPath_ref (2 * n) (n + 1) in
  let w := MkWelcome (2 * n) pks
    ((fun e : Z * tnode => WelcomeNode (fst e) (export_pub <$> publicKey (snd e))) <$> others_of s (2 * n) dp)
    (computeTreeHash s) in
  let j := MkBeeKEM (joined_nodes s (2 * n) k dp) (n + 1) (2 * n) seed in
  processWelcome w k (pub_of k) (newBeeKEM seed) = (getRootSecret s, j) /\
  (forall i, pub_at j i = pub_at s i) /\ getRootSecret j = getRootSecret s.
Proof.
  intros Hn Hn30 Hnl Hnd Hmatch Hpub Hchain dp w j.
  destruct (key_chain_indices _ _ _ _ Hchain) as [Hidx Hsome].
  assert (Hnew : 2 * n ∉ dp) by (apply leaf_not_on_path; lia).
  assert (Hpubs : forall i, pub_at j i = pub_at s i) by (intros i; by apply joined_get).
  assert (Hroot : getRootSecret j = getRootSecret s).
  { unfold getRootSecret. rewrite Hnl. change (numLeaves j) with (n + 1).
    destruct (Z.leb_spec (n + 1) 0); [lia|]. destruct (Z.eqb_spec (n + 1) 1); [lia|].
    destruct (directPath_path_up (n + 1) n ltac:(lia) ltac:(lia)) as [_ Hup].
    pose proof (path_up_last _ _ _ Hup _ (root_node (n + 1) ltac:(lia))) as Hl. rewrite root_node by lia.
    assert (Hin : node (height (n + 1)) 0 ∈ dp).
    { rewrite <- Hl. apply last_cons_elem. apply directPath_ref_ne; lia. }
    unfold priv_at at 1. change (nodes j) with (joined_nodes s (2 * n) k dp).
    destruct (joined_get s (2 * n) k dp (node (height (n + 1)) 0) Hnd Hpub Hnew) as [_ Hpriv].
    by rewrite (Hpriv Hin). }
  assert (Hhash : computeTreeHash j = computeTreeHash s).
  { symmetry. apply tree_hash_ext; [|done]. apply joined_keys; [done| |].
    - apply pub_at_key. rewrite Hpub. eauto.
    - intros i Hi. by apply pub_at_key, Hsome. }
  split_and!; [|done|done].
  assert (Eleaf : nodeToLeafIndex (2 * n) = Ok n).
  { unfold nodeToLeafIndex. replace (2 * n) with (node 0 n) at 1 by (unfold node; lia).
    rewrite node_parity by (unfold node; lia). cbn. rewrite js_shr_small by lia.
    by rewrite Z.mul_comm, Z.pow_1_r, Z.div_mul by lia. }
  destruct (max_from_path_small pks (n + 1) (n + 1)) as (mx & Emx & Hmx); [lia| |lia|].
  { apply Forall_fmap with (f := pn_nodeIndex) (P := fun x => 0 <= x < 2 * (n + 1) - 1). rewrite Hidx. apply Forall_forall.
    intros i Hi. destruct (directPath_covers (n + 1) n i ltac:(lia) ltac:(lia) Hi) as (_ & Hlt & q & Hq & ->).
    pose proof (node_nonneg q (n / 2 ^ q) ltac:(lia) ltac:(apply Z.div_pos; lia)). lia. }
  assert (mx = n + 1) as -> by lia.
  set (j0 := MkBeeKEM [(2 * n, MkNode LeafType (2 * n) (Some (pub_of k)) (Some k))] (n + 1) (2 * n) seed).
  destruct (join_path_loop s dp pks k j0 Hmatch Hchain) as [k' Epath].
  unfold processWelcome. eff_step.
  erewrite bind_ok; [|unfold lift; cbn [leafIndex w]; rewrite Eleaf; reflexivity]. cbn beta.
  erewrite bind_ok; [|unfold lift; cbn [pathKeys w]; rewrite Emx; reflexivity]. cbn beta.
  do 2 eff_step. cbn [newBeeKEM nodes numLeaves myLeafIndex rng leafIndex pathKeys treeNodePublicKeys w].
  rewrite Z.max_r by lia. change (set_node _ _ _) with j0. eff_step.
  erewrite bind_ok; [|apply join_tree_loop]. eff_step. cbn [treeHash].
  change (MkBeeKEM _ _ _ _) with j. rewrite Hhash, bool_decide_true by done. unfold lift. by rewrite Hroot.
Qed.

Lemma keys_match_set (s : state) i nd :
  keys_match s -> (forall p k, publicKey nd = Some p -> privateKey nd = Some k -> p = pub_of k) ->
  keys_match (set_node i nd s).
Proof.
  intros Hm Hnd x p k. unfold pub_at, priv_at, set_node. cbn [nodes]. rewrite map_get_set.
  case_decide; simpl; [apply Hnd|apply Hm].
Qed.

Lemma path_run_keys_match s l pns s' : path_run s l pns s' -> keys_match s -> keys_match s'.
Proof.
  induction 1 as [|s d c enc r l pns s2 Hr Henc Hrun IH]; [done|]. intros Hm. apply IH.
  apply (keys_match_set s d (fresh_node d (generated (rng s))) Hm). simpl. congruence.
Qed.

Lemma addMember_processWelcome (s : state) p k pu w rs s' seed :
  placed s p -> numLeaves s < 2 ^ 30 -> NoDup (nodes s).*1 -> keys_match s ->
  addMember (pub_of k) s = (Ok (pu, w, rs), s') ->
  exists j, processWelcome w k (pub_of k) (newBeeKEM seed) = (Ok rs, j) /\
    numLeaves j = numLeaves s' /\ myLeafIndex j = 2 * numLeaves s /\
    (forall i, pub_at j i = pub_at s' i) /\ getRootSecret s' = Ok rs /\ getRootSecret j = Ok rs.
Proof.
  intros [Hn Hmy Hp] Hn30 Hnd Hm E. set (n := numLeaves s) in *.
  unfold addMember in E. do 3 (erewrite bind_ok in E; [|reflexivity]; cbn beta in E).
  cbn [nodes numLeaves myLeafIndex rng] in E. unfold leafToNodeIndex in E. fold n in E. rewrite (Z.mul_comm n 2) in E.
  set (s1 := set_node (2 * n) _ _) in E.
  apply bind_inv in E as ([pu0 rs0] & s2 & Eup & E). apply bind_inv in E as (w0 & s3 & Ebw & E).
  injection E as <- <- <- <-.
  assert (Hpl1 : placed s1 p). { split; simpl; [lia|done|lia]. }
  assert (Hpub1 : exists myPub, pub_at s1 (2 * p) = Some myPub).
  { destruct (pub_at s1 (2 * p)) eqn:Epub; [eauto|]. exfalso. unfold updatePath in Eup.
    erewrite bind_ok in Eup; [|reflexivity]. cbn beta in Eup. change (myLeafIndex s1) with (myLeafIndex s) in Eup.
    by rewrite Hmy, Epub in Eup. }
  destruct Hpub1 as [myPub Hpub1].
  destruct (updatePath_ok s1 p myPub Hpl1 ltac:(simpl; lia) Hpub1) as (cp & pns & rs1 & s2' & Ecp & Hlen & Eup' & Hrun & Hsec).
  rewrite Eup' in Eup. injection Eup as <- <- <-. change (numLeaves s1) with (n + 1) in *.
  destruct (path_run_frame _ _ _ _ Hrun) as (Hnl2 & Hml2 & _ & _ & Hframe). rewrite fst_zip in Hframe by lia.
  assert (Hm1 : keys_match s1) by (apply (keys_match_set (MkBeeKEM (nodes s) _ _ _)); done).
  pose proof (path_run_keys_match _ _ _ _ Hrun Hm1) as Hm2.
  assert (Hnd2 : NoDup (nodes s2').*1) by (eapply path_run_nodup; [exact Hrun|simpl; auto with swarm]).
  assert (Hpubnew : pub_at s2' (2 * n) = Some (pub_of k)).
  { unfold pub_at. rewrite Hframe by (apply leaf_not_on_path; lia). simpl. by rewrite map_get_set_eq. }
  unfold buildWelcome in Ebw. erewrite bind_ok in Ebw; [|reflexivity]. cbn beta in Ebw. rewrite Hnl2 in Ebw.
  change (numLeaves s1) with (n + 1) in Ebw.
  destruct (directPath_path_up (n + 1) n ltac:(lia) ltac:(lia)) as [Edp _].
  erewrite bind_ok in Ebw; [|unfold lift; rewrite Edp; reflexivity]. cbn beta in Ebw.
  apply bind_inv in Ebw as (acc & s4 & Eloop & Ebw). apply build_loop in Eloop as (Hn4 & Hl4 & Hm4 & pks & Epks & Hchain).
  erewrite bind_ok in Ebw; [|reflexivity]. injection Ebw as <- <-. simpl in Epks. rewrite Epks.
  destruct (process_built s2' n k pks seed) as (Eproc & Hpubs & Hroot); [lia|lia|rewrite Hnl2; done|done|done|done|done|].
  assert (Hh : computeTreeHash s4 = computeTreeHash s2') by (unfold computeTreeHash; by rewrite Hn4).
  eexists. split_and!.
  - rewrite Hn4, Hh. rewrite Hsec in Eproc. exact Eproc.
  - simpl. rewrite Hl4, Hnl2. done.
  - done.
  - intros i. rewrite Hpubs. unfold pub_at. by rewrite Hn4.
  - unfold getRootSecret, priv_at in *. rewrite Hn4, Hl4. exact Hsec.
  - by rewrite Hroot.
Qed.

(** A welcome delivers the group key: whenever [addMember] returns, the new
    member that processes the welcome with its private key obtains the root
    secret the sender computed, at its leaf of a tree with the sender's size
    and the sender's public keys (so the tree-hash check passes). *)
Theorem welcome_delivers_root (s : state) p k pu w rs s' seed :
  placed s p -> numLeaves s < 2 ^ 30 -> NoDup (nodes s).*1 -> keys_match s ->
  addMember (pub_of k) s = (Ok (pu, w, rs), s') ->
  exists j, processWelcome w k (pub_of k) (newBeeKEM seed) = (Ok rs, j) /\
    numLeaves j = numLeaves s' /\ myLeafIndex j = 2 * numLeaves s /\
    (forall i, pub_at j i = pub_at s' i) /\ getRootSecret s' = Ok rs.
Proof.
  intros H1 H2 H3 H4 E. destruct (addMember_processWelcome s p k pu w rs s' seed H1 H2 H3 H4 E) as (j & ? & ? & ? & ? & ? & _). eauto 10.
Qed.

(** ** Following a path update *)

Lemma path_run_pubs s l pns s' : path_run s l pns s' -> Forall (fun pn => exists p, pn_publicKey pn = export_pub p) pns.
Proof. induction 1; constructor; eauto. Qed.

Lemma install_below_loop (pns : list PathNodeUpdate) : forall t : state,
  Forall (fun pn => exists p, pn_publicKey pn = export_pub p) pns ->
  exists t', for_each install_below tt pns t = (Ok tt, t') /\ numLeaves t' = numLeaves t /\
    forall i, i ∉ pn_nodeIndex <$> pns -> map_get i (nodes t') = map_get i (nodes t).
Proof.
  induction pns as [|pn pns IH]; intros t Hall; [by exists t|]. apply Forall_cons in Hall as [[p Hp] Hall].
  set (t1 := set_node (pn_nodeIndex pn) (MkNode InternalType (pn_nodeIndex pn) (Some p) None) t).
  destruct (IH t1 Hall) as (t' & E & Hn & Hf). exists t'.
  assert (Est : install_below tt pn t = (Ok tt, t1)).
  { unfold install_below, bind, lift. by rewrite Hp, import_export_pub. }
  split_and!; [cbn [for_each]; unfold bind at 1; by rewrite Est, E|done|].
  intros i. csimpl. intros [Hne Hni]%not_elem_of_cons. rewrite Hf by done. by apply map_get_set_ne.
Qed.

Lemma find_intersection_last (pns : list PathNodeUpdate) pn dp : forall i,
  Forall (fun x => pn_nodeIndex x ∉ dp) pns -> pn_nodeIndex pn ∈ dp ->
  find_intersection i (pns ++ [pn]) dp = Some (i + length pns, pn)%nat.
Proof.
  induction pns as [|x pns IH]; intros i Hall Hin; simpl.
  { rewrite bool_decide_true by done. by rewrite Nat.add_0_r. }
  apply Forall_cons in Hall as [Hx Hall]. rewrite bool_decide_false, IH by done. do 2 f_equal. lia.
Qed.

(** The two children of a node. *)
Lemma other_child n v x y z :
  1 <= n <= 2 ^ 30 -> 0 <= x < 2 * n - 1 -> 0 <= y < 2 * n - 1 -> 0 <= z < 2 * n - 1 ->
  parent x n = Ok v -> parent y n = Ok v -> parent z n = Ok v -> y <> x -> z <> x -> y = z.
Proof.
  intros Hn Hx Hy Hz Px Py Pz Hyx Hzx.
  assert (Hside : forall c, 0 <= c < 2 * n - 1 -> parent c n = Ok v -> left v = Ok c \/ right v (Some n) = Ok c).
  { intros c Hc Pc. destruct (child_of_parent n c Hn Hc (parent_not_root _ _ _ Pc)) as (k & m & _ & _ & _ & E & Hs).
    rewrite Pc in E. by injection E as ->. }
  destruct (Hside x Hx Px), (Hside y Hy Py), (Hside z Hz Pz); congruence.
Qed.

(** The last step of a non-empty direct path. *)
Lemma path_last_step n p :
  2 <= n <= 2 ^ 30 -> 0 <= p < n ->
  exists dp0 rt x, directPath_ref (2 * p) n = dp0 ++ [rt] /\ root n = Ok rt /\
    (2 * p :: directPath_ref (2 * p) n) !! length dp0 = Some x /\ parent x n = Ok rt /\ 0 <= x < 2 * n - 1 /\
    Forall (fun d => root n <> Ok d) dp0.
Proof.
  intros Hn Hp. destruct (directPath_path_up n p Hn Hp) as [_ Hup].
  pose proof (path_up_last _ _ _ Hup _ (root_node n ltac:(lia))) as Hl.
  pose proof (directPath_ref_ne n p Hn Hp) as Hne.
  destruct (directPath_ref (2 * p) n) as [|rt dp0 _] eqn:Edp using rev_ind; [done|].
  rewrite app_comm_cons, List.last_last in Hl. exists dp0, rt.
  assert (Hx : is_Some ((2 * p :: dp0 ++ [rt]) !! length dp0)).
  { apply lookup_lt_is_Some. simpl. rewrite length_app. simpl. lia. }
  destruct Hx as [x Hx]. exists x.
  assert (Hrt : (dp0 ++ [rt]) !! length dp0 = Some rt) by (by apply list_lookup_middle).
  destruct (path_parent n p (length dp0) x rt Hn Hp) as (Px & Hxr & _); [by rewrite Edp|by rewrite Edp|].
  split_and!; [done|rewrite root_node by lia; by rewrite Hl|done|done|lia|lia|].
  apply Forall_forall. intros d Hd. apply list_elem_of_lookup_1 in Hd as [i Hi].
  assert (Hnext : is_Some ((dp0 ++ [rt]) !! S i)).
  { apply lookup_lt_is_Some. apply lookup_lt_Some in Hi. rewrite length_app. simpl. lia. }
  destruct Hnext as [d' Hd']. eapply parent_not_root, (path_up_parent n _ _ (S i) d d' Hup); [|done].
  simpl. by apply lookup_app_l_Some.
Qed.

(** The last element of the copath: the other child of the root. *)
Lemma copath_last n p dp0 rt cp x :
  2 <= n <= 2 ^ 30 -> 0 <= p < n -> directPath_ref (2 * p) n = dp0 ++ [rt] -> copath (2 * p) n = Ok cp ->
  (2 * p :: dp0 ++ [rt]) !! length dp0 = Some x ->
  exists cp0 c', cp = cp0 ++ [c'] /\ length cp0 = length dp0 /\ parent c' n = Ok rt /\ c' <> x /\ 0 <= c' < 2 * n - 1.
Proof.
  intros Hn Hp Edp Ecp Hx. destruct (directPath_path_up n p Hn Hp) as [E Hup]. rewrite Edp in *.
  destruct (map_sibling_spec n (2 * p) (dp0 ++ [rt])) as (cp1 & Ecp1 & Hlen & Hcp); [lia|lia|done|by destruct dp0|].
  unfold copath in Ecp. rewrite E, Ecp1 in Ecp. injection Ecp as ->.
  destruct cp as [|c' cp0 _] using rev_ind; [rewrite length_app in Hlen; simpl in Hlen; lia|].
  rewrite !length_app in Hlen. simpl in Hlen. assert (Hl0 : length cp0 = length dp0) by lia.
  exists cp0, c'. destruct (Hcp (length dp0) x rt Hx) as (c & Hc & _ & _ & Pc & Hne & Hr); [by apply list_lookup_middle|].
  rewrite list_lookup_middle in Hc by done. injection Hc as <-. done.
Qed.

(** The root step of a sender's update, as a receiver sees it. *)
Lemma update_root_step (s : state) p :
  placed s p -> 2 <= numLeaves s ->
  let n := numLeaves s in
  exists dp0 rt x c' myPub pns0 enc kr rs s',
    directPath_ref (2 * p) n = dp0 ++ [rt] /\ root n = Ok rt /\
    (2 * p :: directPath_ref (2 * p) n) !! length dp0 = Some x /\ parent x n = Ok rt /\ 0 <= x < 2 * n - 1 /\
    parent c' n = Ok rt /\ c' <> x /\ 0 <= c' < 2 * n - 1 /\
    Forall (fun d => root n <> Ok d) dp0 /\
    update s = (Ok (MkPathUpdate (2 * p) (export_pub myPub) (pns0 ++ [PathNode rt (export_pub (pub_of kr)) enc]), rs), s') /\
    pn_nodeIndex <$> pns0 = dp0 /\ Forall (fun pn => exists p, pn_publicKey pn = export_pub p) pns0 /\
    rs = sha256_of (export_priv kr) /\
    forall q, c' <> 2 * p -> c' ∉ dp0 -> pub_at s c' = Some q -> exists rnd, enc = seal rnd (export_priv kr) q.
Proof.
  intros Hpl Hn2 n. destruct (path_last_step n p) as (dp0 & rt & x & Edp & Ert & Hx & Px & Hxr & Hnr);
    [destruct Hpl; lia|destruct Hpl; lia|].
  unfold update, bind. rewrite renewLeaf_eq. set (s1 := set_node _ _ _).
  assert (Hpl1 : placed s1 p) by (destruct Hpl; by split).
  destruct Hpl as [Hn Hmy Hp].
  assert (Hpub : pub_at s1 (2 * p) = Some (pub_of (generated (rng s)))).
  { unfold pub_at, s1, set_node. cbn [nodes]. by rewrite Hmy, map_get_set_eq. }
  destruct (updatePath_ok s1 p _ Hpl1 Hn2 Hpub) as (cp & pns & rs & s' & Ecp & Hlen & E & Hrun & Hsec).
  change (numLeaves s1) with n in *. rewrite Edp in *.
  destruct (copath_last n p dp0 rt cp x) as (cp0 & c' & -> & Hl0 & Pc' & Hc'x & Hc'r); [lia|lia|done|done|done|].
  rewrite zip_with_app in Hrun by (rewrite length_app in Hlen; simpl in Hlen; lia). simpl in Hrun.
  destruct (path_run_snoc _ _ _ _ _ _ Hrun) as (pns0 & s0 & enc & kr & -> & Hrun0 & Hget & Hseal).
  destruct (path_run_frame _ _ _ _ Hrun0) as (Hnl0 & _ & _ & Hidx & Hframe). rewrite fst_zip in * by lia.
  exists dp0, rt, x, c', (pub_of (generated (rng s))), pns0, enc, kr, rs, s'.
  split_and!; [done|done|done|done|lia|lia|done|done|lia|lia|done|done|done|by eapply path_run_pubs| |].
  - destruct (path_run_frame _ _ _ _ Hrun) as (Hnl & _). unfold getRootSecret in Hsec. rewrite Hnl in Hsec.
    change (numLeaves s1) with n in Hsec. destruct (Z.leb_spec n 0); [lia|]. destruct (Z.eqb_spec n 1); [lia|].
    rewrite Ert in Hsec. unfold priv_at in Hsec. rewrite Hget in Hsec. by injection Hsec as <-.
  - intros q Hne Hni Hq. apply Hseal, resolve_hit. unfold pub_at. rewrite Hframe by done.
    unfold s1, set_node. cbn [nodes]. rewrite Hmy, map_get_set_ne by done. done.
Qed.

Lemma copath_ok n p : 2 <= n <= 2 ^ 30 -> 0 <= p < n -> exists cp, copath (2 * p) n = Ok cp.
Proof.
  intros Hn Hp. destruct (directPath_path_up n p Hn Hp) as [E Hup].
  destruct (map_sibling_spec n (2 * p) (directPath_ref (2 * p) n)) as (cp & Ecp & _);
    [lia|lia|done|by apply directPath_ref_ne|]. exists cp. unfold copath. by rewrite E.
Qed.

(** How a receiver processes an update whose only node on its path is the last
    one. *)
Lemma process_root_update (t : state) q p pns0 rt pub enc kr c k :
  placed t q -> 2 <= numLeaves t -> root (numLeaves t) = Ok rt -> rt ∉ pn_nodeIndex <$> pns0 ->
  Forall (fun pn => pn_nodeIndex pn ∉ directPath_ref (2 * q) (numLeaves t)) pns0 ->
  Forall (fun pn => exists p, pn_publicKey pn = export_pub p) pns0 ->
  rt ∈ directPath_ref (2 * q) (numLeaves t) -> findChildOnOurSide t rt = Ok (Some c) ->
  c <> 2 * p -> priv_at t c = Some k -> decryptNodeKey enc k = Ok kr ->
  exists t', processPathUpdate (MkPathUpdate (2 * p) (export_pub pub)
      (pns0 ++ [PathNode rt (export_pub (pub_of kr)) enc])) t = (Ok (sha256_of (export_priv kr)), t') /\
    priv_at t' rt = Some kr.
Proof.
  intros [Hn Hmy Hq] Hn2 Ert Hrt Hout Hpubs Hin Hside Hcp Hk Hdec. set (n := numLeaves t) in *.
  set (t1 := set_node (2 * p) (MkNode LeafType (2 * p) (Some pub) None) t).
  destruct (copath_ok n q) as [cpq Ecpq]; [lia|lia|].
  destruct (directPath_path_up n q ltac:(lia) Hq) as [Edq _]. set (pn := PathNode rt (export_pub (pub_of kr)) enc).
  assert (Edecr : decrypt_intersection t1 pn = Ok (Some kr)).
  { unfold decrypt_intersection. cbn [pn_nodeIndex pn]. change (findChildOnOurSide t1 rt) with (findChildOnOurSide t rt).
    rewrite Hside. unfold priv_at, t1, set_node. cbn [nodes]. rewrite map_get_set_ne by done.
    fold (priv_at t c). rewrite Hk. cbn [pn_encryptedPrivateKey pn]. by rewrite Hdec. }
  set (t2 := set_node rt (MkNode InternalType rt (Some (pub_of kr)) (Some kr)) t1).
  destruct (install_below_loop pns0 t2 Hpubs) as (t3 & Ebelow & Hn3 & Hf3). exists t3.
  assert (Hroot : map_get rt (nodes t3) = Some (fresh_node rt kr)).
  { rewrite Hf3 by done. unfold t2, set_node. cbn [nodes]. apply map_get_set_eq. }
  split; [|unfold priv_at; by rewrite Hroot].
  unfold processPathUpdate. cbn [senderLeafPublicKey senderLeafIndex pu_nodes].
  erewrite bind_ok; [|unfold lift; rewrite import_export_pub; reflexivity]. cbn beta. eff_step. eff_step.
  change (set_node (2 * p) _ t) with t1. change (myLeafIndex t1) with (myLeafIndex t). change (numLeaves t1) with n.
  rewrite Hmy. erewrite bind_ok; [|unfold lift; rewrite Ecpq; reflexivity]. cbn beta.
  erewrite bind_ok; [|unfold lift; rewrite Edq; reflexivity]. cbn beta.
  rewrite find_intersection_last by done. rewrite Nat.add_0_l.
  erewrite bind_ok; [|unfold lift; fold pn; rewrite Edecr; reflexivity]. cbn beta iota.
  cbn [pn_publicKey pn]. erewrite bind_ok; [|unfold lift; rewrite import_export_pub; reflexivity]. cbn beta. eff_step.
  change (set_node _ _ t1) with t2.
  rewrite drop_ge by (rewrite length_app; simpl; lia). eff_step. rewrite take_app_length. eff_step. eff_step.
  unfold lift, getRootSecret. rewrite Hn3. change (numLeaves t2) with n.
  destruct (Z.leb_spec n 0); [lia|]. destruct (Z.eqb_spec n 1); [lia|]. rewrite Ert.
  unfold priv_at. by rewrite Hroot.
Qed.

(** Group key agreement across the root: when a member updates, a member in
    the other half of the tree that holds the private key of its half's node,
    with the matching public key in the updater's tree, processes the message
    and derives the updater's new root secret. *)
Theorem path_update_followed (s t : state) p q i c k rt :
  placed s p -> placed t q -> p <> q -> 2 <= numLeaves s -> numLeaves t = numLeaves s -> root (numLeaves s) = Ok rt ->
  (forall d, d ∈ directPath_ref (2 * p) (numLeaves s) -> d ∈ directPath_ref (2 * q) (numLeaves s) -> d = rt) ->
  (2 * q :: directPath_ref (2 * q) (numLeaves s)) !! i = Some c ->
  directPath_ref (2 * q) (numLeaves s) !! i = Some rt ->
  priv_at t c = Some k -> pub_at s c = Some (pub_of k) ->
  exists pu rs s' t', update s = (Ok (pu, rs), s') /\ processPathUpdate pu t = (Ok rs, t').
Proof.
  intros Hps Hpt Hpq Hn2 Hnt Ert Hshare Hc Hrt Hk Hpub.
  destruct (update_root_step s p Hps Hn2) as (dp0 & rt' & x & c' & myPub & pns0 & enc & kr & rs & s' &
    Edp & Ert' & Hx & Px & Hxr & Pc' & Hc'x & Hc'r & Hnr & Eup & Hidx & Hpubs & -> & Hseal).
  set (n := numLeaves s) in *.
  rewrite Ert in Ert'. injection Ert' as <-.
  assert (Hn : 2 <= n <= 2 ^ 30) by (destruct Hps; unfold n; lia).
  assert (Hp : 0 <= p < n) by (destruct Hps; done). assert (Hq : 0 <= q < n) by (destruct Hpt as [_ _ Hr]; by rewrite Hnt in Hr).
  destruct (path_parent n q i c rt Hn Hq Hc Hrt) as (Pc & Hcr & _).
  assert (Hnotroot : forall y, parent y n = Ok rt -> y <> rt).
  { intros y Py ->. by apply parent_not_root in Py. }
  assert (Hcp : c <> 2 * p).
  { destruct i as [|i]; simpl in Hc; [injection Hc as <-; lia|]. intros ->.
    apply list_elem_of_lookup_2 in Hc. by apply (leaf_not_on_path n q p) in Hc. }
  assert (Hcdp : c ∉ directPath_ref (2 * p) n).
  { intros Hin. destruct i as [|i]; simpl in Hc.
    - injection Hc as <-. by apply (leaf_not_on_path n p q) in Hin.
    - apply list_elem_of_lookup_2 in Hc. apply (Hnotroot c Pc). by apply Hshare. }
  assert (Hcx : c <> x).
  { intros ->. rewrite Edp in Hx. destruct dp0 as [|d0 dp0]; simpl in Hx; [congruence|].
    apply Hcdp. rewrite Edp. by apply list_elem_of_lookup_2 in Hx. }
  assert (c' = c) as -> by (apply (other_child n rt x c' c); done || lia).
  destruct (Hseal (pub_of k)) as [rnd ->]; [done|rewrite Edp in Hcdp; intros ?; apply Hcdp, elem_of_app; by left|done|].
  destruct (process_root_update t q p pns0 rt myPub (seal rnd (export_priv kr) (pub_of k)) kr c k) as (t' & Et & _);
    rewrite ?Hnt; try done.
  - rewrite Hidx. intros Hin. rewrite Forall_forall in Hnr. by apply (Hnr rt Hin).
  - apply Forall_fmap with (f := pn_nodeIndex) (P := fun d => d ∉ directPath_ref (2 * q) n). rewrite Hidx.
    apply Forall_forall. intros d Hd Hdq. rewrite Forall_forall in Hnr. apply (Hnr d Hd). rewrite Ert. f_equal. symmetry.
    apply Hshare; [|done]. rewrite Edp. apply elem_of_app. by left.
  - by apply list_elem_of_lookup_2 in Hrt.
  - apply (findChild_on_path t n q i); [done|done|by destruct Hpt|done|done|done].
  - unfold decryptNodeKey. by rewrite open_seal, import_export_priv.
  - by exists (MkPathUpdate (2 * p) (export_pub myPub) (pns0 ++ [PathNode rt (export_pub (pub_of kr)) (seal rnd (export_priv kr) (pub_of k))])),
      (sha256_of (export_priv kr)), s', t'.
Qed.

(** ** Lookup and compaction *)

(** A leaf that carries the raw key [target]. *)
Definition leaf_with (s : state) (target : bytes) (pos : Z) : Prop :=
  exists i p k, map_get (2 * pos) (nodes s) = Some (MkNode LeafType i (Some p) k) /\ export_pub p = target.

Lemma find_leaf_loop_spec (s : state) target l :
  match find_leaf_loop (nodes s) target l with
  | Some v => exists pos pre post, l = pre ++ pos :: post /\ v = 2 * pos /\ leaf_with s target pos /\
      Forall (fun x => ~ leaf_with s target x) pre
  | None => Forall (fun x => ~ leaf_with s target x) l
  end.
Proof.
  induction l as [|pos l IH]; [constructor|].
  assert (Hskip : ~ leaf_with s target pos ->
    match find_leaf_loop (nodes s) target l with
    | Some v => exists pos0 pre post, pos :: l = pre ++ pos0 :: post /\ v = 2 * pos0 /\ leaf_with s target pos0 /\
        Forall (fun x => ~ leaf_with s target x) pre
    | None => Forall (fun x => ~ leaf_with s target x) (pos :: l)
    end).
  { intros Hno. destruct (find_leaf_loop (nodes s) target l) as [v|]; [|by constructor].
    destruct IH as (pos0 & pre & post & -> & Hv & Hl & Hpre). exists pos0, (pos :: pre), post.
    split_and!; [done..|by constructor]. }
  cbn [find_leaf_loop]. unfold leafToNodeIndex. rewrite (Z.mul_comm pos 2).
  destruct (map_get (2 * pos) (nodes s)) as [[[] i [p|] k]|] eqn:Eg;
    try (apply Hskip; intros (? & ? & ? & E & _); congruence).
  case_bool_decide as Ep.
  - exists pos, [], l. split_and!; [done|done|by exists i, p, k|constructor].
  - apply Hskip. intros (? & ? & ? & E & Et). congruence.
Qed.

(** Looking a member up by its raw key returns the first leaf that carries
    the key, and nothing exactly when no leaf of the tree does: a blanked leaf
    is never found. *)
Theorem find_leaf_correct (s : state) target :
  match findLeafByPublicKey s target with
  | Some v => exists pos, v = 2 * pos /\ 0 <= pos < numLeaves s /\ leaf_with s target pos /\
      pub_at s v <> None /\ forall x, 0 <= x < pos -> ~ leaf_with s target x
  | None => forall x, 0 <= x < numLeaves s -> ~ leaf_with s target x
  end.
Proof.
  unfold findLeafByPublicKey. pose proof (find_leaf_loop_spec s target (seqZ 0 (numLeaves s))) as Hs.
  destruct (find_leaf_loop _ _ _) as [v|].
  - destruct Hs as (pos & pre & post & E & -> & Hl & Hpre).
    assert (Hpos : pos = Z.of_nat (length pre) /\ (length pre < Z.to_nat (numLeaves s))%nat).
    { assert (El : seqZ 0 (numLeaves s) !! length pre = Some pos) by (rewrite E; by apply list_lookup_middle).
      apply lookup_seqZ in El. lia. }
    exists pos. split_and!; [done|lia|lia|done| |].
    + destruct Hl as (i & p & k & Eg & _). unfold pub_at. by rewrite Eg.
    + intros x Hx. rewrite Forall_forall in Hpre. apply Hpre.
      assert (El : seqZ 0 (numLeaves s) !! Z.to_nat x = Some x) by (apply lookup_seqZ; lia).
      rewrite E, lookup_app_l in El by lia. by apply list_elem_of_lookup_2 in El.
  - intros x Hx. rewrite Forall_forall in Hs. apply Hs, elem_of_seqZ. lia.
Qed.

Lemma map_get_foldl_delete (l : list Z) (m : list (Z * tnode)) i :
  map_get i (foldl (fun m x => map_delete x m) m l) = if decide (i ∈ l) then None else map_get i m.
Proof.
  revert m. induction l as [|x l IH]; intros m; cbn [foldl]; [done|].
  rewrite IH, map_get_delete. destruct (decide (i ∈ x :: l)) as [Hin|Hin].
  - destruct (decide (i ∈ l)); [done|]. apply elem_of_cons in Hin as [->|]; [|done]. by case_decide.
  - apply not_elem_of_cons in Hin as [? ?]. destruct (decide (i ∈ l)); [done|]. by case_decide.
Qed.

Lemma compact_loop n (l : list Z) : forall s : state,
  numLeaves s = n -> n <= 2 ^ 30 ->
  Forall (fun v => pub_at s v = None /\ exists pos, v = 2 * pos /\ 0 <= pos < n) l ->
  exists s', for_each compact_step tt l s = (Ok tt, s') /\ numLeaves s' = n /\ myLeafIndex s' = myLeafIndex s /\
    forall i, pub_at s' i = pub_at s i.
Proof.
  induction l as [|v l IH]; intros s Hn Hn30 Hl; [by exists s|]. apply Forall_cons in Hl as [[Hv (pos & -> & Hpos)] Hl].
  assert (Hstep : exists s1, compact_step tt (2 * pos) s = (Ok tt, s1) /\ numLeaves s1 = n /\
    myLeafIndex s1 = myLeafIndex s /\ forall i, pub_at s1 i = pub_at s i).
  { unfold compact_step. rewrite (bind_ok get _ s s s) by done. rewrite Hn.
    destruct (Z.leb_spec n 1); [by exists s|].
    destruct (directPath_path_up n pos ltac:(lia) Hpos) as [Edp _].
    erewrite bind_ok; [|unfold lift; rewrite Edp; reflexivity]. cbn beta.
    destruct (forallb _ _) eqn:Eb; [|by exists s]. eexists. split_and!; [reflexivity|done|done|].
    rewrite forallb_forall in Eb. intros i. unfold pub_at. cbn [nodes]. rewrite map_get_foldl_delete, map_get_delete.
    case_decide as Hin.
    - apply list_elem_of_In, Eb in Hin. unfold pub_at in Hin. by destruct (_ ≫= publicKey).
    - case_decide; [subst; unfold pub_at in Hv; by rewrite Hv|done]. }
  destruct Hstep as (s1 & E1 & Hn1 & Hm1 & Hp1).
  destruct (IH s1 Hn1 Hn30) as (s' & E & ? & ? & Hp).
  { apply (Forall_impl _ _ _ Hl). intros x [Hx ?]. by rewrite Hp1. }
  exists s'. split_and!; [cbn [for_each]; unfold bind at 1; by rewrite E1, E|done|congruence|].
  intros i. by rewrite Hp, Hp1.
Qed.

(** Compaction always returns and removes blank nodes only: the tree's public
    keys, its size and our place stay the same. *)
Theorem compact_keeps_keys (s : state) :
  numLeaves s <= 2 ^ 30 ->
  exists s', compact s = (Ok tt, s') /\ numLeaves s' = numLeaves s /\ myLeafIndex s' = myLeafIndex s /\
    forall i, pub_at s' i = pub_at s i.
Proof.
  intros Hn. unfold compact. rewrite (bind_ok get _ s s s) by done. apply (compact_loop (numLeaves s)); [done|done|].
  apply Forall_forall. intros v Hv. unfold blankedLeaves in Hv.
  apply list_elem_of_In, List.filter_In in Hv as [Hin Hb]. apply list_elem_of_In, list_elem_of_fmap in Hin as (pos & -> & Hp).
  unfold leafToNodeIndex in *. apply elem_of_seqZ in Hp. split; [by destruct (pub_at s _)|]. exists pos. split; lia.
Qed.
End Theory.

(** ** A toy instance: keys are bytes, a box opens with its own key only. *)

Definition toy_seal (r : unit) (m : bytes) (p : byte) : bytes := p :: m.
Definition toy_open (m : bytes) (k : byte) : result bytes :=
  match m with
  | b :: m' => if bool_decide (b = k) then Ok m' else throw "decrypt failed"
  | [] => throw "truncated"
  end.

#[export] Instance toy_box : SealedBox byte byte unit.
Proof. refine {| pub_of := id; seal := toy_seal; open_box := toy_open |}. intros. cbn. by rewrite bool_decide_true. Defined.

#[export] Instance toy_keys : TreeKeys byte byte unit.
Proof.
  refine {| generated n := byte_of_Z (Z.of_nat n); seal_rand := fun _ => tt; export_pub p := [p];
    import_pub := head; export_priv k := [k]; import_priv := head; sha256_of := id |}; done.
Defined.

Abbreviation toy_state := (@BeeKEM byte byte).

(** Alice (key 1) founds a group, adds Bob (key 2) and Charlie (key 3). *)
Definition alice1 : toy_state := snd (initialize Init.Byte.x01 Init.Byte.x01 (newBeeKEM 16)).
Definition add_bob := addMember Init.Byte.x02 alice1.
Definition alice2 : toy_state := snd add_bob.
Definition add_charlie := addMember Init.Byte.x03 alice2.
Definition alice3 : toy_state := snd add_charlie.

Definition welcome_of (r : result (PathUpdate * BeeKEMWelcome * bytes) * toy_state) : BeeKEMWelcome :=
  match fst r with Ok (_, w, _) => w | Err _ => MkWelcome 0 [] [] [] end.
Definition update_of (r : result (PathUpdate * BeeKEMWelcome * bytes) * toy_state) : PathUpdate :=
  match fst r with Ok (pu, _, _) => pu | Err _ => MkPathUpdate 0 [] [] end.
Definition secret_of (r : result (PathUpdate * BeeKEMWelcome * bytes) * toy_state) : bytes :=
  match fst r with Ok (_, _, rs) => rs | Err _ => [] end.

Definition bob2 : toy_state := snd (processWelcome (welcome_of add_bob) Init.Byte.x02 Init.Byte.x02 (newBeeKEM 96)).
Definition charlie3 : toy_state :=
  snd (processWelcome (welcome_of add_charlie) Init.Byte.x03 Init.Byte.x03 (newBeeKEM 160)).

Lemma alice1_placed : placed alice1 0.
Proof. split; vm_compute; repeat split; discriminate. Qed.

Lemma alice3_placed : placed alice3 0.
Proof. split; vm_compute; repeat split; discriminate. Qed.

Lemma charlie3_placed : placed charlie3 2.
Proof. split; vm_compute; repeat split; discriminate. Qed.

Lemma update_renews_path_witness :
  exists dp pu rs s', directPath 0 3 = Ok dp /\ update alice3 = (Ok (pu, rs), s') /\
    pn_nodeIndex <$> pu_nodes pu = dp /\ getRootSecret s' = Ok rs /\
    (forall d, d ∈ 0 :: dp -> exists t, (rng alice3 <= t)%nat /\
       pub_at s' d = Some (pub_of (generated t)) /\ priv_at s' d = Some (generated t)) /\
    (forall d, d ∉ 0 :: dp -> map_get d (nodes s') = map_get d (nodes alice3)).
Proof. apply (update_renews_path alice3 0); [exact alice3_placed|vm_compute; discriminate]. Defined.

Lemma remove_revokes_path_witness :
  exists pu rs s' dq, directPath 2 3 = Ok dq /\ removeMember 2 alice3 = (Ok (pu, rs), s') /\
    getRootSecret s' = Ok rs /\ pub_at s' 2 = None /\ priv_at s' 2 = None /\
    forall d, d ∈ dq ->
      (pub_at s' d = None /\ priv_at s' d = None) \/
      (exists t, (rng alice3 <= t)%nat /\ pub_at s' d = Some (pub_of (generated t)) /\ priv_at s' d = Some (generated t)).
Proof.
  apply (remove_revokes_path alice3 0 1);
    [exact alice3_placed|vm_compute; discriminate|vm_compute; split; [discriminate|reflexivity]|discriminate].
Defined.

Lemma welcome_delivers_root_witness :
  exists j, processWelcome (welcome_of add_bob) Init.Byte.x02 (pub_of Init.Byte.x02) (newBeeKEM 96) =
    (Ok (secret_of add_bob), j) /\
    numLeaves j = numLeaves alice2 /\ myLeafIndex j = 2 * numLeaves alice1 /\
    (forall i, pub_at j i = pub_at alice2 i) /\ getRootSecret alice2 = Ok (secret_of add_bob).
Proof.
  apply (welcome_delivers_root alice1 0 Init.Byte.x02 (update_of add_bob) (welcome_of add_bob) (secret_of add_bob) alice2 96).
  - exact alice1_placed.
  - vm_compute. reflexivity.
  - apply NoDup_singleton.
  - intros i p k. unfold pub_at, priv_at. simpl. case_decide; simpl; [congruence|discriminate].
  - vm_compute. reflexivity.
Defined.

Lemma path_update_followed_witness :
  exists pu rs s' t', update alice3 = (Ok (pu, rs), s') /\ processPathUpdate pu charlie3 = (Ok rs, t').
Proof.
  apply (path_update_followed alice3 charlie3 0 2 0 4 Init.Byte.x03 3).
  - exact alice3_placed.
  - exact charlie3_placed.
  - discriminate.
  - vm_compute. discriminate.
  - reflexivity.
  - vm_compute. reflexivity.
  - intros d _ Hd. vm_compute in Hd. by apply list_elem_of_singleton in Hd.
  - vm_compute. reflexivity.
  - vm_compute. reflexivity.
  - vm_compute. reflexivity.
  - vm_compute. reflexivity.
Defined.

(** Growing the group strands its earlier members. Bob joined through his
    welcome and shares the root secret with Alice; when Alice adds Charlie, the
    path update makes Bob's tree throw, because nothing tells Bob that the tree
    has grown, and Bob can follow no later update of Alice either. *)
Theorem earlier_member_stranded :
  getRootSecret bob2 = getRootSecret alice2 /\ getRootSecret charlie3 = getRootSecret alice3 /\
  numLeaves bob2 = 2 /\ numLeaves alice3 = 3 /\
  fst (processPathUpdate (update_of add_charlie) bob2) = throw "Leaves have no children" /\
  match fst (update alice3) with
  | Ok (pu, _) => fst (processPathUpdate pu bob2) = throw "Leaves have no children"
  | Err _ => False
  end.
Proof. vm_compute. repeat split. Qed.

(** The founder cannot add a fourth member: the new leaf's direct path has a
    node (index 5) outside the founder's own path, whose private key the
    founder does not have, so building the welcome throws. The throw comes
    after the leaf was added and the path keys, the root's included, were
    replaced, and the path update that would tell the others is lost. *)
Theorem fourth_member_throws :
  fst (addMember Init.Byte.x04 alice3) = throw "Cannot build welcome: missing key at node" /\
  numLeaves (snd (addMember Init.Byte.x04 alice3)) = 4 /\
  pub_at (snd (addMember Init.Byte.x04 alice3)) 6 = Some Init.Byte.x04 /\
  priv_at (snd (addMember Init.Byte.x04 alice3)) 5 = None /\
  priv_at (snd (addMember Init.Byte.x04 alice3)) 3 <> priv_at alice3 3.
Proof. vm_compute. repeat split. discriminate. Qed.
End BeeKemTheory.
