(* ===== verification/Wire.v ===== *)
(** * Wire formats

    Models [packages/collabswarm/src/merkle-dag-serialization.ts],
    [path-update-wire.ts] and [beekem-welcome-wire.ts]: the change tree, the
    BeeKEM path update and the BeeKEM welcome as JSON values, and the validating
    decoders that a peer's message goes through.

    A JSON value is a tree; reading an absent property gives [undefined]. The
    decoders throw an error that names the field; the position in an array and
    the received type, which the code appends to the message, are left out.
    Base64 comes from the js-base64 package and is a class with its round trip. *)
From stdpp Require Import base numbers list list_numbers strings.
From Stdlib Require Import ZArith QArith Qround Lia.
From S2P Require Import Prelude TreeMath ChangeTree Ecies BeeKem BeeKemTheory.
Import ChangeTree BeeKem BeeKemTheory.

Open Scope Z_scope.
Open Scope string_scope.
Open Scope list_scope.

Module Wire.

(** ** JavaScript values *)

Inductive jsval : Type :=
| JUndefined
| JNull
| JBool (b : bool)
| JNum (n : num)
| JStr (s : string)
| JArr (l : list jsval)
| JObj (props : list (string * jsval)).

(** [obj.k] *)
Definition jget (k : string) (props : list (string * jsval)) : jsval :=
  default JUndefined (map_get k props).

(** [typeof v === 'object' && v !== null && !Array.isArray(v)] *)
Definition plain_object (msg : string) (v : jsval) : result (list (string * jsval)) :=
  match v with JObj props => Ok props | _ => throw msg end.

(** [JSON.parse(JSON.stringify(v))]: a property holding [undefined] is dropped,
    an [undefined] array element and a non-finite number become [null]. *)
Fixpoint json_clone (v : jsval) : jsval :=
  match v with
  | JNum n => if num_is_finite n then JNum n else JNull
  | JArr l =>
      JArr ((fix go (l : list jsval) : list jsval :=
               match l with
               | [] => []
               | JUndefined :: l' => JNull :: go l'
               | x :: l' => json_clone x :: go l'
               end) l)
  | JObj props =>
      JObj ((fix go (ps : list (string * jsval)) : list (string * jsval) :=
               match ps with
               | [] => []
               | (_, JUndefined) :: ps' => go ps'
               | (k, x) :: ps' => (k, json_clone x) :: go ps'
               end) props)
  | _ => v
  end.

(** [new TextEncoder().encode(JSON.stringify(v))], and back. *)
Class JsonBytes := {
  json_bytes : jsval -> bytes;
  json_of_bytes : bytes -> result jsval;
  json_bytes_roundtrip : forall v, v <> JUndefined -> json_of_bytes (json_bytes v) = Ok (json_clone v);
  json_bytes_clone : forall v, json_bytes (json_clone v) = json_bytes v;
}.

(** ** The change tree *)

Section ChangeNodes.
  Context {C : Type} (encodeLeaf : C -> jsval) (decodeLeaf : jsval -> result C).

Definition kind_name (k : CRDTChangeNodeKind) : string :=
  match k with DocumentNode => "document" | WriterNode => "writer" | ReaderNode => "reader" end.

Definition isValidChangeNodeKind (v : jsval) : option CRDTChangeNodeKind :=
  match v with
  | JStr s =>
      if decide (s = "document") then Some DocumentNode
      else if decide (s = "writer") then Some WriterNode
      else if decide (s = "reader") then Some ReaderNode
      else None
  | _ => None
  end.

(** [{ ...node, change, children }] *)
Definition wire_props (keyID : option string) (kd : CRDTChangeNodeKind) (change children : jsval)
    : list (string * jsval) :=
  (match keyID with Some k => [("keyID", JStr k)] | None => [] end) ++
  [("kind", JStr (kind_name kd)); ("change", change); ("children", children)].

Fixpoint serializeChangeNodeForJSON (n : CRDTChangeNode C) : jsval :=
  match n with
  | Node keyID kd ch children =>
      let change := match ch with Some c => encodeLeaf c | None => JUndefined end in
      JObj (wire_props keyID kd change
        match children with
        | NoChildren => JUndefined
        | DeferredChildren => JBool false
        | Children l =>
            JObj ((fix go (l : list (string * CRDTChangeNode C)) : list (string * jsval) :=
                     match l with
                     | [] => []
                     | (hash, child) :: l' => (hash, serializeChangeNodeForJSON child) :: go l'
                     end) l)
        end)
  end.

Definition read_keyID (v : jsval) : result (option string) :=
  match v with
  | JUndefined => Ok None
  | JStr s => Ok (Some s)
  | _ => throw "keyID"
  end.

Definition read_change (v : jsval) : result (option C) :=
  match v with
  | JUndefined => Ok None
  | _ => let? c := decodeLeaf v in Ok (Some c)
  end.

(** The inner loops find the [children] property and decode its entries. *)
Fixpoint deserializeChangeNodeFromJSON (v : jsval) : result (CRDTChangeNode C) :=
  match v with
  | JObj props =>
      match isValidChangeNodeKind (jget "kind" props) with
      | None => throw "kind"
      | Some kd =>
          let? keyID := read_keyID (jget "keyID" props) in
          let? change := read_change (jget "change" props) in
          let? children :=
            (fix find (ps : list (string * jsval)) : result (children_of (CRDTChangeNode C)) :=
               match ps with
               | [] => Ok NoChildren
               | (k, w) :: ps' =>
                   if decide ("children" = k) then
                     match w with
                     | JUndefined => Ok NoChildren
                     | JBool false => Ok DeferredChildren
                     | JObj entries =>
                         let? l :=
                           (fix go (es : list (string * jsval)) : result (list (string * CRDTChangeNode C)) :=
                              match es with
                              | [] => Ok []
                              | (hash, child) :: es' =>
                                  match child with
                                  | JObj _ =>
                                      let? n := deserializeChangeNodeFromJSON child in
                                      let? rest := go es' in
                                      Ok ((hash, n) :: rest)
                                  | _ => throw "child"
                                  end
                              end) entries in
                         Ok (Children l)
                     | _ => throw "children"
                     end
                   else find ps'
               end) props in
          Ok (Node keyID kd change children)
      end
  | _ => throw "expected a plain object"
  end.

End ChangeNodes.

(** ** BeeKEM messages *)

Class Base64 := {
  fromUint8Array : bytes -> string;
  toUint8Array : string -> option bytes;
  base64_roundtrip : forall b, toUint8Array (fromUint8Array b) = Some b }.

Section Messages.
  Context `{Base64}.

(** [typeof v === 'number' && Number.isInteger(v) && v >= 0] *)
Definition read_index (field : string) (v : jsval) : result Z :=
  match v with
  | JNum (Fin q) =>
      if num_is_integer (Fin q) && negb (num_lt (Fin q) (num_of_Z 0)) then Ok (Qfloor q) else throw field
  | _ => throw field
  end.

Definition read_string (field : string) (v : jsval) : result string :=
  match v with JStr s => Ok s | _ => throw field end.

Definition read_array (field : string) (v : jsval) : result (list jsval) :=
  match v with JArr l => Ok l | _ => throw field end.

Definition decodeBase64 (value field : string) : result bytes :=
  or_throw field (toUint8Array value).

(** [arr.map(f)] with a callback that may throw. *)
Fixpoint map_throwing {A B} (f : A -> result B) (l : list A) : result (list B) :=
  match l with
  | [] => Ok []
  | x :: l' => let? y := f x in let? ys := map_throwing f l' in Ok (y :: ys)
  end.

(** The encoding of a path node, the same in both files. *)
Definition serializePathNode (n : PathNodeUpdate) : jsval :=
  JObj [("nodeIndex", JNum (num_of_Z (pn_nodeIndex n)));
        ("publicKey", JStr (fromUint8Array (pn_publicKey n)));
        ("encryptedPrivateKey", JStr (fromUint8Array (pn_encryptedPrivateKey n)))].

Definition serializePathUpdateForWire (u : PathUpdate) : jsval :=
  JObj [("senderLeafIndex", JNum (num_of_Z (senderLeafIndex u)));
        ("senderLeafPublicKey", JStr (fromUint8Array (senderLeafPublicKey u)));
        ("nodes", JArr (serializePathNode <$> pu_nodes u))].

(** The validation of a path node, the same in both files. *)
Definition deserializePathNode (v : jsval) : result PathNodeUpdate :=
  let? nn := plain_object "node" v in
  let? nodeIndex := read_index "nodeIndex" (jget "nodeIndex" nn) in
  let? pk := read_string "publicKey" (jget "publicKey" nn) in
  let? epk := read_string "encryptedPrivateKey" (jget "encryptedPrivateKey" nn) in
  let? publicKey := decodeBase64 pk "publicKey" in
  let? encryptedPrivateKey := decodeBase64 epk "encryptedPrivateKey" in
  Ok (PathNode nodeIndex publicKey encryptedPrivateKey).

Definition deserializePathUpdateFromWire (wire : jsval) : result PathUpdate :=
  let? raw := plain_object "PathUpdate" wire in
  let? leaf := read_index "senderLeafIndex" (jget "senderLeafIndex" raw) in
  let? pk := read_string "senderLeafPublicKey" (jget "senderLeafPublicKey" raw) in
  let? ns := read_array "nodes" (jget "nodes" raw) in
  let? nodes := map_throwing deserializePathNode ns in
  let? publicKey := decodeBase64 pk "senderLeafPublicKey" in
  Ok (MkPathUpdate leaf publicKey nodes).

Definition serializeTreeNode (e : WelcomeNodePublicKey) : jsval :=
  JObj [("nodeIndex", JNum (num_of_Z (wn_nodeIndex e)));
        ("publicKey", match wn_publicKey e with None => JNull | Some k => JStr (fromUint8Array k) end)].

Definition serializeBeeKEMWelcomeForWire (w : BeeKEMWelcome) : jsval :=
  JObj [("leafIndex", JNum (num_of_Z (leafIndex w)));
        ("pathKeys", JArr (serializePathNode <$> pathKeys w));
        ("treeNodePublicKeys", JArr (serializeTreeNode <$> treeNodePublicKeys w));
        ("treeHash", JStr (fromUint8Array (treeHash w)))].

Definition deserializeTreeNode (v : jsval) : result WelcomeNodePublicKey :=
  let? nn := plain_object "treeNodePublicKeys" v in
  let? nodeIndex := read_index "nodeIndex" (jget "nodeIndex" nn) in
  match jget "publicKey" nn with
  | JNull => Ok (WelcomeNode nodeIndex None)
  | JStr pk => let? publicKey := decodeBase64 pk "publicKey" in Ok (WelcomeNode nodeIndex (Some publicKey))
  | _ => throw "publicKey"
  end.

Definition deserializeBeeKEMWelcomeFromWire (wire : jsval) : result BeeKEMWelcome :=
  let? raw := plain_object "BeeKEMWelcome" wire in
  let? leaf := read_index "leafIndex" (jget "leafIndex" raw) in
  let? pks := read_array "pathKeys" (jget "pathKeys" raw) in
  let? tns := read_array "treeNodePublicKeys" (jget "treeNodePublicKeys" raw) in
  let? th := read_string "treeHash" (jget "treeHash" raw) in
  let? pathKeys := map_throwing deserializePathNode pks in
  let? treeNodePublicKeys := map_throwing deserializeTreeNode tns in
  let? treeHash := decodeBase64 th "treeHash" in
  Ok (MkWelcome leaf pathKeys treeNodePublicKeys treeHash).

End Messages.

(** ** Reasoning about values *)

Lemma jsval_ind' (P : jsval -> Prop) :
  P JUndefined -> P JNull -> (forall b, P (JBool b)) -> (forall n, P (JNum n)) -> (forall s, P (JStr s)) ->
  (forall l, Forall P l -> P (JArr l)) ->
  (forall ps, Forall (fun p => P (snd p)) ps -> P (JObj ps)) ->
  forall v, P v.
Proof.
  intros HU HN HB HZ HS HA HO. fix IH 1. intros [| |b|n|s|l|ps]; [done..| |].
  - apply HA. induction l as [|x l IHl]; constructor; [apply IH|exact IHl].
  - apply HO. induction ps as [|[k x] ps IHps]; constructor; [apply IH|exact IHps].
Qed.

Definition clone_prop (p : string * jsval) : option (string * jsval) :=
  match snd p with JUndefined => None | v => Some (fst p, json_clone v) end.

Lemma json_clone_obj ps : json_clone (JObj ps) = JObj (omap clone_prop ps).
Proof.
  cbn [json_clone]. f_equal. induction ps as [|[k v] ps IH]; [done|].
  destruct v; cbn [omap list_omap clone_prop snd fst]; rewrite <- IH; done.
Qed.

Definition clone_elem (v : jsval) : jsval := match v with JUndefined => JNull | _ => json_clone v end.

Lemma json_clone_arr l : json_clone (JArr l) = JArr (clone_elem <$> l).
Proof.
  cbn [json_clone]. f_equal. induction l as [|v l IH]; [done|].
  destruct v; cbn [fmap list_fmap clone_elem]; rewrite <- IH; done.
Qed.

Lemma decide_undefined v : {v = JUndefined} + {v <> JUndefined}.
Proof. destruct v; by (left + right). Qed.

Lemma clone_elem_defined v : v <> JUndefined -> clone_elem v = json_clone v.
Proof. by destruct v. Qed.

Lemma clone_prop_defined k v : v <> JUndefined -> clone_prop (k, v) = Some (k, json_clone v).
Proof. by destruct v. Qed.

(** A value that went through JSON text goes through it unchanged. *)
Lemma json_clone_idem v : json_clone (json_clone v) = json_clone v.
Proof.
  assert (Hne : forall w, w <> JUndefined -> json_clone w <> JUndefined).
  { intros w. destruct w; cbn; try done. by destruct (num_is_finite n). }
  induction v as [| |b|n|s|l IH|ps IH] using jsval_ind'; try done.
  - cbn. destruct (num_is_finite n) eqn:E; [|done]. cbn. by rewrite E.
  - rewrite !json_clone_arr. f_equal. induction IH as [|x l Hx _ IHl]; [done|]. cbn [fmap list_fmap]. f_equal; [|exact IHl].
    destruct (decide_undefined x) as [->|Hu]; [done|]. rewrite (clone_elem_defined x) by done.
    by rewrite (clone_elem_defined (json_clone x)) by auto.
  - rewrite !json_clone_obj. f_equal. induction IH as [|[k x] ps Hx _ IHl]; [done|]. cbn [omap list_omap]. cbn [snd] in Hx.
    destruct (decide_undefined x) as [->|Hu]; [exact IHl|]. rewrite (clone_prop_defined k x) by done. cbn [list_omap omap].
    rewrite (clone_prop_defined k (json_clone x)), Hx by auto. f_equal. exact IHl.
Qed.

Lemma map_throwing_ok_iff {A B} (f : A -> result B) l ys :
  map_throwing f l = Ok ys <-> Forall2 (fun x y => f x = Ok y) l ys.
Proof.
  revert ys. induction l as [|x l IH]; intros ys; cbn [map_throwing].
  - split; [intros [= <-]; constructor|by inversion 1].
  - destruct (f x) as [y|e] eqn:E.
    + destruct (map_throwing f l) as [ys'|e] eqn:E2.
      * split.
        -- intros [= <-]. constructor; [done|]. by apply IH.
        -- inversion 1 as [|? y' ? ys'' Hy Hrest]; subst. apply IH in Hrest. congruence.
      * split; [done|]. inversion 1 as [|? y' ? ys'' Hy Hrest]; subst. apply IH in Hrest. congruence.
    + split; [done|]. inversion 1 as [|? y' ? ys'' Hy Hrest]; subst. congruence.
Qed.

Lemma map_throwing_total {A B} (f : A -> result B) l :
  (exists ys, map_throwing f l = Ok ys) <-> Forall (fun x => exists y, f x = Ok y) l.
Proof.
  split.
  - intros [ys H]. apply map_throwing_ok_iff in H. induction H; constructor; eauto.
  - intros H. induction H as [|x l [y Hy] _ [ys IH]]; [by exists []|]. exists (y :: ys).
    cbn [map_throwing]. by rewrite Hy, IH.
Qed.

Lemma map_throwing_fmap {A B D} (f : B -> result D) (g : A -> B) (h : A -> D) l :
  Forall (fun x => f (g x) = Ok (h x)) l -> map_throwing f (g <$> l) = Ok (h <$> l).
Proof. intros H. apply map_throwing_ok_iff. rewrite Forall2_fmap. by apply Forall_Forall2_diag. Qed.

(** ** The change tree *)

Section ChangeNodeFacts.
  Context {C : Type} (encodeLeaf : C -> jsval) (decodeLeaf : jsval -> result C).

Abbreviation ser := (serializeChangeNodeForJSON encodeLeaf).
Abbreviation deser := (deserializeChangeNodeFromJSON decodeLeaf).

Definition read_child (p : string * jsval) : result (string * CRDTChangeNode C) :=
  match snd p with
  | JObj _ => let? n := deser (snd p) in Ok (fst p, n)
  | _ => throw "child"
  end.

Definition read_children (v : jsval) : result (children_of (CRDTChangeNode C)) :=
  match v with
  | JUndefined => Ok NoChildren
  | JBool false => Ok DeferredChildren
  | JObj entries => let? l := map_throwing read_child entries in Ok (Children l)
  | _ => throw "children"
  end.

Lemma deser_obj ps :
  deser (JObj ps) =
  match isValidChangeNodeKind (jget "kind" ps) with
  | None => throw "kind"
  | Some kd =>
      let? keyID := read_keyID (jget "keyID" ps) in
      let? change := read_change decodeLeaf (jget "change" ps) in
      let? children := read_children (jget "children" ps) in
      Ok (Node keyID kd change children)
  end.
Proof.
  cbn [deserializeChangeNodeFromJSON].
  destruct (isValidChangeNodeKind _) as [kd|]; [|done].
  destruct (read_keyID _) as [kid|e]; [|done].
  destruct (read_change _ _) as [ch|e]; [|done].
  match goal with |- context [?f ps] => set (find := f) end.
  enough (find ps = read_children (jget "children" ps)) as -> by done.
  unfold jget. induction ps as [|[k w] ps IH]; [done|]. cbn [map_get]. unfold find; fold find.
  destruct (decide ("children" = k)) as [_|]; [|exact IH].
  cbn [default from_option id]. destruct w as [| |[]| | | |entries]; try reflexivity. cbn [read_children].
  match goal with |- context [?f entries] => set (go := f) end.
  enough (go entries = map_throwing read_child entries) as -> by done.
  induction entries as [|[h c] es IHes]; [done|]. cbn [map_throwing]. unfold read_child at 1; cbn [snd fst].
  destruct c; try done. cbn -[deserializeChangeNodeFromJSON]. destruct (deser _); [|done]. by rewrite IHes.
Qed.

Lemma ser_obj keyID kd ch children :
  ser (Node keyID kd ch children) =
  JObj (wire_props keyID kd (match ch with Some c => encodeLeaf c | None => JUndefined end)
    match children with
    | NoChildren => JUndefined
    | DeferredChildren => JBool false
    | Children l => JObj ((fun p => (fst p, ser (snd p))) <$> l)
    end).
Proof.
  destruct children as [| |l]; [done..|]. cbn [serializeChangeNodeForJSON]. do 3 f_equal.
  induction l as [|[h c] l IH]; [done|]. cbn [fmap list_fmap fst snd]. by rewrite <- IH.
Qed.

Lemma isValid_kind_name kd : isValidChangeNodeKind (JStr (kind_name kd)) = Some kd.
Proof. by destruct kd. Qed.

(** The properties of a wire object, as the decoder reads them, before and
    after a JSON round trip. *)
Lemma wire_props_get keyID kd c chs :
  let ps := wire_props keyID kd c chs in
  jget "kind" ps = JStr (kind_name kd) /\ jget "keyID" ps = default JUndefined (JStr <$> keyID) /\
  jget "change" ps = c /\ jget "children" ps = chs.
Proof. by destruct keyID. Qed.

Lemma wire_props_clone_get keyID kd c chs :
  let ps := omap clone_prop (wire_props keyID kd c chs) in
  jget "kind" ps = JStr (kind_name kd) /\ jget "keyID" ps = default JUndefined (JStr <$> keyID) /\
  jget "change" ps = json_clone c /\ jget "children" ps = json_clone chs.
Proof. by destruct keyID, c, chs. Qed.

Lemma read_keyID_ok keyID : read_keyID (default JUndefined (JStr <$> keyID)) = Ok keyID.
Proof. by destruct keyID. Qed.

Lemma read_change_ok v c : v <> JUndefined -> decodeLeaf v = Ok c -> read_change decodeLeaf v = Ok (Some c).
Proof. intros Hv E. destruct v; [done|..]; cbn [read_change]; by rewrite E. Qed.

Lemma json_clone_defined v : v <> JUndefined -> json_clone v <> JUndefined.
Proof. destruct v; cbn; try done. by destruct (num_is_finite n). Qed.

(** A child that was encoded is an object, so the decoder descends into it. *)
Lemma read_child_ser h n : read_child (h, ser n) = let? m := deser (ser n) in Ok (h, m).
Proof. unfold read_child. destruct n as [? ? ? chs]. by rewrite ser_obj. Qed.

Lemma clone_prop_ser h n : clone_prop (h, ser n) = Some (h, json_clone (ser n)).
Proof. destruct n as [? ? ? chs]. by rewrite ser_obj. Qed.

Lemma read_child_clone_ser h n :
  read_child (h, json_clone (ser n)) = let? m := deser (json_clone (ser n)) in Ok (h, m).
Proof. unfold read_child. destruct n as [? ? ? chs]. by rewrite ser_obj, json_clone_obj. Qed.

Lemma clone_children (l : list (string * CRDTChangeNode C)) :
  omap clone_prop ((fun p => (fst p, ser (snd p))) <$> l) = (fun p => (fst p, json_clone (ser (snd p)))) <$> l.
Proof.
  induction l as [|[h n] l IH]; [done|]. cbn [fmap list_fmap omap list_omap fst snd].
  by rewrite clone_prop_ser, IH.
Qed.

(** A change tree survives the wire: decoding the encoded tree gives it back,
    payloads, key ids, deferred markers and the order of children included,
    both directly and after a trip through JSON text, when the payload codec
    has these two round trips. *)
Theorem change_tree_roundtrip (n : CRDTChangeNode C) :
  (forall c, encodeLeaf c <> JUndefined /\ decodeLeaf (encodeLeaf c) = Ok c /\
     decodeLeaf (json_clone (encodeLeaf c)) = Ok c) ->
  deser (ser n) = Ok n /\ deser (json_clone (ser n)) = Ok n.
Proof.
  intros Hleaf. induction n as [keyID kd ch chs IH] using node_ind'.
  rewrite ser_obj, json_clone_obj, !deser_obj.
  match goal with |- context [wire_props _ _ ?x ?y] => set (c := x); set (cs := y) end.
  destruct (wire_props_get keyID kd c cs) as (-> & -> & -> & ->).
  destruct (wire_props_clone_get keyID kd c cs) as (-> & -> & -> & ->).
  rewrite isValid_kind_name, read_keyID_ok.
  assert (read_change decodeLeaf c = Ok ch /\ read_change decodeLeaf (json_clone c) = Ok ch) as [-> ->].
  { subst c. destruct ch as [c|]; [|done]. destruct (Hleaf c) as (? & ? & ?).
    split; apply read_change_ok; auto using json_clone_defined. }
  enough (read_children cs = Ok chs /\ read_children (json_clone cs) = Ok chs) as [-> ->] by done.
  subst cs. destruct chs as [| |l]; [done..|].
  rewrite json_clone_obj, clone_children. cbn [read_children].
  rewrite !(map_throwing_fmap _ _ id), list_fmap_id; [done|..].
  all: eapply Forall_impl; [exact IH|]; intros [h m] [E1 E2]; cbn [fst snd id] in *.
  - by rewrite read_child_clone_ser, E2.
  - by rewrite read_child_ser, E1.
Qed.

(** The documented shape of a change node on the wire. *)
Inductive node_shape : jsval -> Prop :=
| shape_node ps :
    is_Some (isValidChangeNodeKind (jget "kind" ps)) ->
    (jget "keyID" ps = JUndefined \/ exists s, jget "keyID" ps = JStr s) ->
    (jget "change" ps = JUndefined \/ exists c, decodeLeaf (jget "change" ps) = Ok c) ->
    (jget "children" ps = JUndefined \/ jget "children" ps = JBool false \/
     exists es, jget "children" ps = JObj es /\ Forall (fun p => node_shape (snd p)) es) ->
    node_shape (JObj ps).

Lemma read_keyID_iff v : (exists k, read_keyID v = Ok k) <-> v = JUndefined \/ exists s, v = JStr s.
Proof. split; [destruct v; intros [k E]; try discriminate E; eauto|]. intros [->|[s ->]]; cbn; eauto. Qed.

Lemma read_change_iff v :
  (exists c, read_change decodeLeaf v = Ok c) <-> v = JUndefined \/ exists c, decodeLeaf v = Ok c.
Proof.
  split.
  - intros [c E]. destruct v; [by left|..]; right; cbn [read_change] in E;
      destruct (decodeLeaf _); try discriminate E; eauto.
  - intros [->|[c E]]; [by exists None|]. destruct v; [by exists None|..]; exists (Some c); cbn [read_change];
      by rewrite E.
Qed.

Lemma read_child_iff h v : (exists p, read_child (h, v) = Ok p) <-> exists n, deser v = Ok n.
Proof.
  unfold read_child; cbn [snd fst]. destruct v; try (split; intros [? E]; discriminate E).
  destruct (deser _) as [n|e]; split; intros [? E]; try discriminate E; eauto.
Qed.

Lemma deser_ok_obj ps :
  (exists n, deser (JObj ps) = Ok n) <->
  is_Some (isValidChangeNodeKind (jget "kind" ps)) /\ (exists k, read_keyID (jget "keyID" ps) = Ok k) /\
  (exists c, read_change decodeLeaf (jget "change" ps) = Ok c) /\
  (exists cs, read_children (jget "children" ps) = Ok cs).
Proof.
  rewrite deser_obj. destruct (isValidChangeNodeKind _) as [kd|].
  2: { split; [by intros [? E]|]. by intros [[? E] _]. }
  destruct (read_keyID _), (read_change _ _), (read_children _); split; try (by intros [? ?]); try naive_solver.
Qed.

Definition accepts_iff (v : jsval) : Prop := (exists n, deser v = Ok n) <-> node_shape v.

(** The property, for a value and for the entries of an object value. *)
Definition accepts_inside (v : jsval) : Prop :=
  match v with JObj es => Forall (fun p => accepts_iff (snd p)) es | _ => True end.

Lemma jget_inside k ps :
  Forall (fun p => accepts_iff (snd p) /\ accepts_inside (snd p)) ps -> accepts_inside (jget k ps).
Proof.
  unfold jget. induction 1 as [|[k' w] ps [_ Hw] _ IH]; [done|]. cbn [map_get].
  destruct (decide _); [exact Hw|exact IH].
Qed.

Lemma read_children_iff v :
  accepts_inside v ->
  (exists cs, read_children v = Ok cs) <->
  (v = JUndefined \/ v = JBool false \/ exists es, v = JObj es /\ Forall (fun p => node_shape (snd p)) es).
Proof.
  intros Hin. destruct v as [| |[]| | | |es]; cbn [read_children]; try (split; [by intros [? ?]|naive_solver]); 
    try (split; [by eauto|by eauto]).
  cbn in Hin. transitivity (exists l, map_throwing read_child es = Ok l).
  { destruct (map_throwing _ _); split; intros [? E]; try discriminate E; eauto. }
  rewrite map_throwing_total. transitivity (Forall (fun p => node_shape (snd p)) es).
  - split; intros HF; induction Hin as [|[h w] es Hw _ IH]; inversion HF; subst; constructor; auto;
      [apply Hw, (read_child_iff h); done|apply (read_child_iff h), Hw; done].
  - split; [eauto|]. intros [?|[?|(es' & [= <-] & ?)]]; done.
Qed.

(** The decoder accepts exactly the documented shapes: for every value a peer
    can put on the wire, at any depth, it returns a tree if and only if each
    node is an object with a known kind, a string or no key id, a decodable or
    no payload, and children that are absent, deferred or again such nodes. *)
Theorem change_tree_accepts_iff v : (exists n, deser v = Ok n) <-> node_shape v.
Proof.
  change (accepts_iff v). enough (accepts_iff v /\ accepts_inside v) as [? _] by done.
  induction v as [| |b|n|s|l _|ps IH] using jsval_ind'.
  1-6: split; [split; [by intros [? ?]|by inversion 1]|done].
  split; [|eapply Forall_impl; [exact IH|]; by intros p [? _]].
  unfold accepts_iff. rewrite deser_ok_obj, read_keyID_iff, read_change_iff.
  rewrite (read_children_iff _ (jget_inside "children" ps IH)).
  split; [intros (? & ? & ? & ?); by constructor|inversion 1; subst; done].
Qed.

End ChangeNodeFacts.

(** ** BeeKEM messages *)

Section MessageFacts.
  Context `{Base64}.

(** A value on the wire stands for an index, or for a byte string. *)
Definition index_is (v : jsval) (z : Z) : Prop := exists q, v = JNum (Fin q) /\ (q == inject_Z z)%Q /\ 0 <= z.
Definition bytes_is (v : jsval) (b : bytes) : Prop := exists s, v = JStr s /\ toUint8Array s = Some b.

Lemma read_index_iff field v z : read_index field v = Ok z <-> index_is v z.
Proof.
  split.
  - destruct v as [| | |[q| | |]| | |]; try done. cbn [read_index num_is_integer num_lt num_of_Z].
    destruct (Qeq_bool _ _) eqn:E1; [|done]. destruct (Qle_bool _ _) eqn:E2; [|done]. intros [= <-].
    apply Qeq_bool_iff in E1. apply Qle_bool_iff in E2. exists q. split_and!; try done.
    rewrite E1 in E2. by rewrite <- Zle_Qle in E2.
  - intros (q & -> & Hq & Hz). cbn [read_index num_is_integer num_lt num_of_Z].
    rewrite (Qfloor_comp _ _ Hq), Qfloor_Z. rewrite (proj2 (Qeq_bool_iff _ _) Hq).
    rewrite (proj2 (Qle_bool_iff _ _)); [done|]. rewrite Hq. by rewrite <- Zle_Qle.
Qed.

Lemma try_ok_iff {A B} (m : result A) (k : A -> result B) b :
  (let? x := m in k x) = Ok b <-> exists x, m = Ok x /\ k x = Ok b.
Proof. destruct m; naive_solver. Qed.

Lemma read_bytes_iff field field' v b :
  (exists s, read_string field v = Ok s /\ decodeBase64 s field' = Ok b) <-> bytes_is v b.
Proof.
  unfold bytes_is, decodeBase64, or_throw. split.
  - intros (s & E1 & E2). destruct v; try discriminate E1. injection E1 as <-.
    destruct (toUint8Array _) eqn:E; [|done]. injection E2 as <-. eauto.
  - intros (s & -> & E). exists s. by rewrite E.
Qed.

Lemma read_array_iff field v l : read_array field v = Ok l <-> v = JArr l.
Proof. destruct v; naive_solver. Qed.

Lemma plain_object_iff msg v ps : plain_object msg v = Ok ps <-> v = JObj ps.
Proof. destruct v; naive_solver. Qed.

Definition path_node_is (v : jsval) (n : PathNodeUpdate) : Prop :=
  exists nn, v = JObj nn /\ index_is (jget "nodeIndex" nn) (pn_nodeIndex n) /\
    bytes_is (jget "publicKey" nn) (pn_publicKey n) /\
    bytes_is (jget "encryptedPrivateKey" nn) (pn_encryptedPrivateKey n).

Definition path_update_is (v : jsval) (u : PathUpdate) : Prop :=
  exists ps l, v = JObj ps /\ index_is (jget "senderLeafIndex" ps) (senderLeafIndex u) /\
    bytes_is (jget "senderLeafPublicKey" ps) (senderLeafPublicKey u) /\
    jget "nodes" ps = JArr l /\ Forall2 path_node_is l (pu_nodes u).

Definition tree_node_is (v : jsval) (e : WelcomeNodePublicKey) : Prop :=
  exists nn, v = JObj nn /\ index_is (jget "nodeIndex" nn) (wn_nodeIndex e) /\
    match wn_publicKey e with
    | None => jget "publicKey" nn = JNull
    | Some k => bytes_is (jget "publicKey" nn) k
    end.

Definition welcome_is (v : jsval) (w : BeeKEMWelcome) : Prop :=
  exists ps l1 l2, v = JObj ps /\ index_is (jget "leafIndex" ps) (leafIndex w) /\
    jget "pathKeys" ps = JArr l1 /\ Forall2 path_node_is l1 (pathKeys w) /\
    jget "treeNodePublicKeys" ps = JArr l2 /\ Forall2 tree_node_is l2 (treeNodePublicKeys w) /\
    bytes_is (jget "treeHash" ps) (treeHash w).

Lemma deserializePathNode_iff v n : deserializePathNode v = Ok n <-> path_node_is v n.
Proof.
  unfold deserializePathNode, path_node_is. repeat setoid_rewrite try_ok_iff.
  setoid_rewrite plain_object_iff. setoid_rewrite read_index_iff. split.
  - intros (nn & -> & z & Hz & s1 & E1 & s2 & E2 & b1 & D1 & b2 & D2 & [= <-]).
    exists nn. split_and!; [done|done|..]; eapply read_bytes_iff; eauto.
  - intros (nn & -> & Hz & (s1 & E1 & D1)%(read_bytes_iff "publicKey" "publicKey")
      & (s2 & E2 & D2)%(read_bytes_iff "encryptedPrivateKey" "encryptedPrivateKey")).
    destruct n; cbn in *. eauto 20.
Qed.

Lemma Forall2_iff {A B} (P Q : A -> B -> Prop) l k :
  (forall x y, P x y <-> Q x y) -> Forall2 P l k <-> Forall2 Q l k.
Proof. intros Hiff. split; intros HF; (eapply Forall2_impl; [exact HF|]); intros; by apply Hiff. Qed.

Lemma deserializePathNodes_iff l ns : map_throwing deserializePathNode l = Ok ns <-> Forall2 path_node_is l ns.
Proof. rewrite map_throwing_ok_iff. apply Forall2_iff, deserializePathNode_iff. Qed.

Lemma path_update_decodes_iff v u :
  deserializePathUpdateFromWire v = Ok u <-> path_update_is v u.
Proof.
  unfold deserializePathUpdateFromWire, path_update_is. repeat setoid_rewrite try_ok_iff.
  setoid_rewrite plain_object_iff. setoid_rewrite read_index_iff. setoid_rewrite read_array_iff.
  setoid_rewrite deserializePathNodes_iff. split.
  - intros (ps & -> & z & Hz & s & E & l & El & ns & Hns & b & D & [= <-]).
    exists ps, l. split_and!; try done. eapply read_bytes_iff; eauto.
  - intros (ps & l & -> & Hz & (s & E & D)%(read_bytes_iff "senderLeafPublicKey" "senderLeafPublicKey") & El & Hns).
    destruct u; cbn in *. eauto 20.
Qed.

Lemma deserializeTreeNode_iff v e : deserializeTreeNode v = Ok e <-> tree_node_is v e.
Proof.
  unfold deserializeTreeNode, tree_node_is. setoid_rewrite try_ok_iff. setoid_rewrite plain_object_iff.
  setoid_rewrite try_ok_iff. setoid_rewrite read_index_iff. split.
  - intros (nn & -> & z & Hz & E). exists nn. destruct (jget "publicKey" nn) eqn:Ek; try discriminate E.
    + injection E as <-. split_and!; done.
    + apply try_ok_iff in E as (b & D & [= <-]). split_and!; [done|done|]. cbn.
      apply (read_bytes_iff "" "publicKey"). eauto.
  - intros (nn & -> & Hz & Hk). destruct e as [z [k|]]; cbn in *.
    + destruct Hk as (s & Ek & D). exists nn. split; [done|]. exists z. split; [done|].
      rewrite Ek. unfold decodeBase64, or_throw. by rewrite D.
    + exists nn. split; [done|]. exists z. by rewrite Hk.
Qed.

Lemma welcome_decodes_iff v w :
  deserializeBeeKEMWelcomeFromWire v = Ok w <-> welcome_is v w.
Proof.
  unfold deserializeBeeKEMWelcomeFromWire, welcome_is. repeat setoid_rewrite try_ok_iff.
  setoid_rewrite plain_object_iff. setoid_rewrite read_index_iff. setoid_rewrite read_array_iff.
  setoid_rewrite deserializePathNodes_iff. setoid_rewrite map_throwing_ok_iff.
  setoid_rewrite (Forall2_iff _ _ _ _ deserializeTreeNode_iff). split.
  - intros (ps & -> & z & Hz & l1 & E1 & l2 & E2 & s & Es & k1 & F1 & k2 & F2 & b & D & [= <-]).
    exists ps, l1, l2. split_and!; try done. eapply read_bytes_iff; eauto.
  - intros (ps & l1 & l2 & -> & Hz & E1 & F1 & E2 & F2 & (s & Es & D)%(read_bytes_iff "treeHash" "treeHash")).
    destruct w; cbn in *. eauto 25.
Qed.

Lemma index_is_Z z : 0 <= z -> index_is (JNum (num_of_Z z)) z.
Proof. intros Hz. by exists (inject_Z z). Qed.

Lemma bytes_is_base64 b : bytes_is (JStr (fromUint8Array b)) b.
Proof. exists (fromUint8Array b). by rewrite base64_roundtrip. Qed.

Lemma path_nodes_cloned ns :
  Forall (fun n => 0 <= pn_nodeIndex n) ns ->
  Forall2 path_node_is (clone_elem <$> (serializePathNode <$> ns)) ns.
Proof.
  intros HF. rewrite <- list_fmap_compose. apply Forall2_fmap_l, Forall_Forall2_diag.
  eapply Forall_impl; [exact HF|]. intros n Hn. eexists. split; [done|].
  exact (conj (index_is_Z _ Hn) (conj (bytes_is_base64 _) (bytes_is_base64 _))).
Qed.

Lemma tree_nodes_cloned es :
  Forall (fun e => 0 <= wn_nodeIndex e) es ->
  Forall2 tree_node_is (clone_elem <$> (serializeTreeNode <$> es)) es.
Proof.
  intros HF. rewrite <- list_fmap_compose. apply Forall2_fmap_l, Forall_Forall2_diag.
  eapply Forall_impl; [exact HF|]. intros [z [k|]] Hn; eexists; (split; [done|]).
  - exact (conj (index_is_Z _ Hn) (bytes_is_base64 _)).
  - exact (conj (index_is_Z _ Hn) eq_refl).
Qed.

(** The wire form of a path update. On every value a peer can send, decoding
    succeeds exactly on the documented shape and gives the update that the value
    stands for; in particular a decoded index is a non-negative integer. An
    update whose indices are non-negative comes back unchanged after encoding, a
    trip through JSON text and decoding. *)
Theorem path_update_wire :
  (forall v u, deserializePathUpdateFromWire v = Ok u <-> path_update_is v u) /\
  (forall u, 0 <= senderLeafIndex u -> Forall (fun n => 0 <= pn_nodeIndex n) (pu_nodes u) ->
     deserializePathUpdateFromWire (json_clone (serializePathUpdateForWire u)) = Ok u).
Proof.
  split; [apply path_update_decodes_iff|]. intros u Hz Hns. apply path_update_decodes_iff.
  eexists _, _. split; [done|].
  refine (conj (index_is_Z _ Hz) (conj (bytes_is_base64 _) (conj _ (path_nodes_cloned _ Hns)))).
  apply json_clone_arr.
Qed.

(** The wire form of the welcome that bootstraps a joiner's tree: decoding
    accepts exactly the documented shape, a blanked node being [null], and a
    welcome survives encoding, JSON text and decoding. *)
Theorem welcome_wire :
  (forall v w, deserializeBeeKEMWelcomeFromWire v = Ok w <-> welcome_is v w) /\
  (forall w, 0 <= leafIndex w -> Forall (fun n => 0 <= pn_nodeIndex n) (pathKeys w) ->
     Forall (fun e => 0 <= wn_nodeIndex e) (treeNodePublicKeys w) ->
     deserializeBeeKEMWelcomeFromWire (json_clone (serializeBeeKEMWelcomeForWire w)) = Ok w).
Proof.
  split; [apply welcome_decodes_iff|]. intros w Hz Hns Hes. apply welcome_decodes_iff.
  eexists _, _, _. split; [done|].
  refine (conj (index_is_Z _ Hz) (conj _ (conj (path_nodes_cloned _ Hns)
    (conj _ (conj (tree_nodes_cloned _ Hes) (bytes_is_base64 _)))))); apply json_clone_arr.
Qed.

End MessageFacts.

(** ** Concrete instances *)

(** A codec that writes a byte as the character with its code. *)
#[export] Instance latin1 : Base64.
Proof.
  refine {| fromUint8Array := String.string_of_list_byte;
            toUint8Array s := Some (String.list_byte_of_string s) |}.
  intros b. by rewrite String.list_byte_of_string_of_list_byte.
Defined.

Definition demo_update : PathUpdate :=
  MkPathUpdate 4 [Init.Byte.x01] [PathNode 5 [Init.Byte.x02] []; PathNode 3 [] [Init.Byte.x03; Init.Byte.x04]].

Lemma path_update_wire_witness :
  deserializePathUpdateFromWire (json_clone (serializePathUpdateForWire demo_update)) = Ok demo_update.
Proof. apply path_update_wire; [done|]. repeat constructor; done. Defined.

Definition demo_welcome : BeeKEMWelcome :=
  MkWelcome 4 [PathNode 3 [Init.Byte.x02] [Init.Byte.x03]] [WelcomeNode 0 (Some [Init.Byte.x01]); WelcomeNode 1 None] [].

Lemma welcome_wire_witness :
  deserializeBeeKEMWelcomeFromWire (json_clone (serializeBeeKEMWelcomeForWire demo_welcome)) = Ok demo_welcome.
Proof. apply welcome_wire; [done|..]; repeat constructor; done. Defined.

Definition demo_change_tree : CRDTChangeNode string :=
  Node (Some "key") WriterNode (Some "payload")
    (Children [("c1", Node None DocumentNode None DeferredChildren); ("c2", Node None ReaderNode (Some "") NoChildren)]).

Lemma change_tree_roundtrip_witness :
  deserializeChangeNodeFromJSON (read_string "change") (serializeChangeNodeForJSON JStr demo_change_tree) =
    Ok demo_change_tree /\
  deserializeChangeNodeFromJSON (read_string "change")
    (json_clone (serializeChangeNodeForJSON JStr demo_change_tree)) = Ok demo_change_tree.
Proof. apply (change_tree_roundtrip JStr (read_string "change")). done. Defined.

(** Alice's next path update with one more node, as a malicious member could send
    it, whose index has its low 32 bits all ones. *)
Definition hanging_update : PathUpdate :=
  match fst (update alice2) with
  | Ok (pu, _) => MkPathUpdate (senderLeafIndex pu) (senderLeafPublicKey pu)
                    (pu_nodes pu ++ [PathNode (2 ^ 32 - 1) [Init.Byte.x07] []])
  | Err _ => MkPathUpdate 0 [] []
  end.

(** A path update on the wire can hang its receiver: the decoder accepts the
    index 2^32 - 1, and processing the update reaches [level] on it, whose loop
    does not end. Without the appended node Bob follows the same update. *)
Theorem wire_update_hangs :
  deserializePathUpdateFromWire (json_clone (serializePathUpdateForWire hanging_update)) = Ok hanging_update /\
  fst (processPathUpdate hanging_update bob2) = Err OutOfFuel /\
  (forall fuel, TreeMath.level_loop fuel (2 ^ 32 - 1) 0 = Err OutOfFuel) /\
  match fst (update alice2) with
  | Ok (pu, rs) => fst (processPathUpdate pu bob2) = Ok rs
  | Err _ => False
  end.
Proof.
  split_and!; [vm_compute; reflexivity..| |vm_compute; reflexivity].
  intros fuel. by apply TreeMath.level_loop_diverges.
Qed.

End Wire.
