(* ===== verification/Welcome.v ===== *)
(** * Validation of an incoming welcome

    Models [packages/collabswarm/src/beekem-welcome-handler.ts]: the gates that
    a welcome broadcast by a peer passes before its keys are installed. The
    message is the record of the fields the gates read, and [rest] for the
    other fields of [CRDTSyncMessage], which only the serializer sees. The
    dependencies are arguments, as in the code; each may reject. *)
From stdpp Require Import base numbers list strings.
From Stdlib Require Import ZArith Lia.
From S2P Require Import Prelude Ecies.
Import Ecies.

Open Scope string_scope.
Open Scope list_scope.

Module Welcome.

Inductive WelcomeMalformedReason : Type :=
| WrongDocument
| MissingWelcomeEpochId
| MissingWelcomeRecipient
| MissingRecipientKemPublicKey
| InvalidRecipientKemPublicKeyLength
| MissingEciesSealed.

Inductive WelcomeUnauthorizedReason : Type :=
| NotInReadersAcl
| MissingSignature
| InvalidSignature.

Inductive WelcomeValidationResult : Type :=
| Accept
| DropNotForUs
| DropMalformed (reason : WelcomeMalformedReason)
| DropUnauthorized (reason : WelcomeUnauthorizedReason).

Section Handler.
  Context {Rest PublicKey : Type}.

Record CRDTSyncMessage : Type := SyncMessage {
  documentId : string;
  welcomeEpochId : option bytes;
  welcomeRecipient : option string;
  welcomeRecipientKemPublicKey : option bytes;
  eciesSealed : option bytes;
  signature : option string;
  rest : Rest }.

(** [const { signature, ...messageWithoutSignature } = message] *)
Definition without_signature (m : CRDTSyncMessage) : CRDTSyncMessage :=
  SyncMessage (documentId m) (welcomeEpochId m) (welcomeRecipient m) (welcomeRecipientKemPublicKey m)
    (eciesSealed m) None (rest m).

(** [WelcomeValidationDeps] *)
  Context (documentPath : string) (localUserPublicKey : PublicKey)
    (serializePublicKey : PublicKey -> result string) (isReader : PublicKey -> result bool)
    (verifyWriterSignature : bytes -> string -> result bool)
    (serializeSyncMessage : CRDTSyncMessage -> result bytes).

(** [!s] for an optional string, [!b || b.length === 0] for optional bytes. *)
Definition empty_string (s : option string) : bool :=
  match s with None => true | Some s => bool_decide (s = "") end.
Definition empty_bytes (b : option bytes) : bool :=
  match b with None => true | Some b => (length b =? 0)%nat end.

Definition check_signature (m : CRDTSyncMessage) : result WelcomeValidationResult :=
  if empty_string (signature m) then Ok (DropUnauthorized MissingSignature)
  else
    let? raw := serializeSyncMessage (without_signature m) in
    let? valid := verifyWriterSignature raw (default "" (signature m)) in
    if valid then Ok Accept else Ok (DropUnauthorized InvalidSignature).

Definition evaluateBeeKEMWelcome (m : CRDTSyncMessage) : result WelcomeValidationResult :=
  if negb (bool_decide (documentId m = "")) && negb (bool_decide (documentId m = documentPath))
  then Ok (DropMalformed WrongDocument)
  else if empty_bytes (welcomeEpochId m) then Ok (DropMalformed MissingWelcomeEpochId)
  else if empty_string (welcomeRecipient m) then Ok (DropMalformed MissingWelcomeRecipient)
  else if empty_bytes (welcomeRecipientKemPublicKey m) then Ok (DropMalformed MissingRecipientKemPublicKey)
  else if negb (length (default [] (welcomeRecipientKemPublicKey m)) =? ECIES_P256_PUBLIC_KEY_LENGTH)%nat
  then Ok (DropMalformed InvalidRecipientKemPublicKeyLength)
  else if empty_bytes (eciesSealed m) then Ok (DropMalformed MissingEciesSealed)
  else
    let? localSerializedKey := serializePublicKey localUserPublicKey in
    if negb (bool_decide (welcomeRecipient m = Some localSerializedKey)) then Ok DropNotForUs
    else
      let? reader := isReader localUserPublicKey in
      if negb reader then Ok (DropUnauthorized NotInReadersAcl)
      else check_signature m.

(** ** What a result means *)

(** The structural gates, as the protocol states them. *)
Record well_formed (m : CRDTSyncMessage) : Prop := {
  wf_document : documentId m = "" \/ documentId m = documentPath;
  wf_epoch : exists e, welcomeEpochId m = Some e /\ e <> [];
  wf_recipient : exists r, welcomeRecipient m = Some r /\ r <> "";
  wf_kem : exists k, welcomeRecipientKemPublicKey m = Some k /\ length k = ECIES_P256_PUBLIC_KEY_LENGTH;
  wf_sealed : exists s, eciesSealed m = Some s /\ s <> [] }.

(** The message is addressed to the local user. *)
Definition for_us (m : CRDTSyncMessage) : Prop :=
  exists k, serializePublicKey localUserPublicKey = Ok k /\ welcomeRecipient m = Some k.

(** A writer signed every field of the message, the recipient included. *)
Definition writer_signed (m : CRDTSyncMessage) : Prop :=
  exists sig raw, signature m = Some sig /\ sig <> "" /\
    serializeSyncMessage (without_signature m) = Ok raw /\ verifyWriterSignature raw sig = Ok true.

Lemma empty_string_false s : empty_string s = false <-> exists x, s = Some x /\ x <> "".
Proof.
  destruct s as [x|]; cbn; [|split; [done|by intros (? & ? & _)]].
  rewrite bool_decide_eq_false. naive_solver.
Qed.

Lemma empty_bytes_false b : empty_bytes b = false <-> exists x, b = Some x /\ x <> [].
Proof.
  destruct b as [x|]; cbn; [|split; [done|by intros (? & ? & _)]].
  rewrite Nat.eqb_neq, length_zero_iff_nil. naive_solver.
Qed.

Lemma check_signature_not_malformed m r : check_signature m <> Ok (DropMalformed r).
Proof. unfold check_signature. by repeat (case_match; try done). Qed.

Lemma check_signature_accept m : check_signature m = Ok Accept <-> writer_signed m.
Proof.
  unfold check_signature, writer_signed. destruct (empty_string (signature m)) eqn:Es.
  - split; [done|]. intros (sig & raw & E & Hne & _).
    assert (empty_string (signature m) = false) by (apply empty_string_false; eauto). congruence.
  - apply empty_string_false in Es as (sig & E & Hne). rewrite E. cbn [default from_option id].
    split.
    + destruct (serializeSyncMessage _) as [raw|] eqn:Er; [|done].
      destruct (verifyWriterSignature raw sig) as [[]|] eqn:Ev; try done. intros _. eauto 10.
    + intros (sig' & raw & [= <-] & _ & -> & ->). done.
Qed.

(** On a well-formed message, the evaluation is the authorization part. *)
Lemma evaluate_well_formed m :
  well_formed m ->
  evaluateBeeKEMWelcome m =
    let? k := serializePublicKey localUserPublicKey in
    if negb (bool_decide (welcomeRecipient m = Some k)) then Ok DropNotForUs
    else let? reader := isReader localUserPublicKey in
         if negb reader then Ok (DropUnauthorized NotInReadersAcl) else check_signature m.
Proof.
  intros [Hd He Hr (k & Hk & Hl) Hs]. unfold evaluateBeeKEMWelcome.
  rewrite (proj2 (empty_bytes_false _) He), (proj2 (empty_string_false _) Hr), (proj2 (empty_bytes_false _) Hs).
  rewrite (proj2 (empty_bytes_false (welcomeRecipientKemPublicKey m))) by (exists k; split; [done|by destruct k]).
  rewrite Hk. cbn [default from_option id]. rewrite Hl, Nat.eqb_refl.
  destruct Hd as [-> | ->]; [done|]. by rewrite (bool_decide_true (documentPath = documentPath)), andb_false_r.
Qed.

(** Every other message is dropped as malformed, before any dependency is asked. *)
Lemma evaluate_malformed m :
  well_formed m \/ exists r, evaluateBeeKEMWelcome m = Ok (DropMalformed r).
Proof.
  unfold evaluateBeeKEMWelcome.
  destruct (negb _ && negb _) eqn:E1; [eauto|].
  destruct (empty_bytes (welcomeEpochId m)) eqn:E2; [eauto|].
  destruct (empty_string (welcomeRecipient m)) eqn:E3; [eauto|].
  destruct (empty_bytes (welcomeRecipientKemPublicKey m)) eqn:E4; [eauto|].
  destruct (negb (length _ =? _)%nat) eqn:E5; [eauto|].
  destruct (empty_bytes (eciesSealed m)) eqn:E6; [eauto|]. left.
  apply empty_bytes_false in E2, E4, E6. apply empty_string_false in E3.
  constructor; [|done|done| |done].
  - rewrite andb_false_iff, !negb_false_iff, !bool_decide_eq_true in E1. done.
  - destruct E4 as (k & Ek & _). exists k. rewrite Ek in E5. cbn in E5.
    by rewrite negb_false_iff, Nat.eqb_eq in E5.
Qed.

Lemma accept_spec m :
  evaluateBeeKEMWelcome m = Ok Accept <->
  well_formed m /\ for_us m /\ isReader localUserPublicKey = Ok true /\ writer_signed m.
Proof.
  unfold for_us. split.
  - intros E. destruct (evaluate_malformed m) as [Hwf|[r Hr]]; [|congruence]. split; [done|].
    rewrite (evaluate_well_formed m Hwf) in E.
    destruct (serializePublicKey _) as [k|]; [|done]. case_bool_decide as Hk; [|done]. cbn in E.
    destruct (isReader _) as [[]|]; [|done..]. cbn in E. apply check_signature_accept in E. eauto 6.
  - intros (Hwf & (k & Hk & Hr) & Hrd & Hsig). rewrite (evaluate_well_formed m Hwf), Hk, Hrd.
    rewrite bool_decide_true by done. by apply check_signature_accept.
Qed.

(** A welcome is accepted exactly when it is well formed, addressed to the local
    user, the local user is a reader, and a writer signed it: whatever a peer
    broadcasts, no other message installs keys, and no such message is refused. *)
Theorem welcome_accept_iff m :
  evaluateBeeKEMWelcome m = Ok Accept <->
  well_formed m /\ for_us m /\ isReader localUserPublicKey = Ok true /\ writer_signed m.
Proof. apply accept_spec. Qed.

(** The drop reasons are truthful where the receiver acts on them: only a
    well-formed welcome for the local user is reported as blocked on the readers
    list, which is what the receiver buffers and retries; and a welcome is
    ignored as somebody else's only if it names another key. *)
Theorem welcome_drop_reasons m :
  (evaluateBeeKEMWelcome m = Ok (DropUnauthorized NotInReadersAcl) <->
     well_formed m /\ for_us m /\ isReader localUserPublicKey = Ok false) /\
  (evaluateBeeKEMWelcome m = Ok DropNotForUs <->
     well_formed m /\ exists k, serializePublicKey localUserPublicKey = Ok k /\ welcomeRecipient m <> Some k) /\
  ((exists r, evaluateBeeKEMWelcome m = Ok (DropMalformed r)) <-> ~ well_formed m).
Proof.
  assert (Hsig : check_signature m <> Ok (DropUnauthorized NotInReadersAcl) /\ check_signature m <> Ok DropNotForUs)
    by (unfold check_signature; by repeat (case_match; try done)).
  destruct (evaluate_malformed m) as [Hwf|[r Hr]].
  2: { assert (~ well_formed m).
       { intros Hwf. rewrite (evaluate_well_formed m Hwf) in Hr. destruct (serializePublicKey _); [|done].
         case_bool_decide; [|done]. cbn in Hr. destruct (isReader _) as [[]|]; try done.
         exact (check_signature_not_malformed m r Hr). }
       rewrite Hr. naive_solver. }
  rewrite (evaluate_well_formed m Hwf). unfold for_us.
  destruct (serializePublicKey _) as [k|]; [|naive_solver]. case_bool_decide as Hk; cbn [negb].
  - destruct (isReader _) as [[]|]; cbn [negb]; [|naive_solver..]. pose proof (check_signature_not_malformed m). naive_solver.
  - naive_solver.
Qed.

End Handler.
End Welcome.
