(* ===== verification/Bloom.v ===== *)
(** * The Bloom filter CRDT of the index

    Models [packages/collabswarm-index/src/bloom-filter-crdt.ts]. The bit array
    is the list of its bytes; hash arithmetic is 32-bit, and the index
    [(h1 + i * h2) % size] is exact as long as fewer than 2^20 hash functions
    are configured, which keeps it below 2^53. *)
From stdpp Require Import base numbers list list_numbers strings.
From Stdlib Require Import ZArith QArith Qround Lia.
From S2P Require Import Prelude TipsHash LoadQuorum.
Import LoadQuorum.

Open Scope string_scope.
Open Scope list_scope.
Open Scope Z_scope.

Module Bloom.

(** [Math.imul] and a store into a [Uint8Array]. *)
Definition imul (a b : Z) : Z := to_int32 (to_int32 a * to_int32 b).
Definition to_uint8 (z : Z) : Z := z mod 256.

Record BloomFilterCRDT : Type := Bloom {
  bits : list Z;
  numHashFunctions : Z;
  sizeInBits : Z }.

(** [!Number.isInteger(x) || x <= 0] fails. *)
Definition positive_integer (x : num) : option Z :=
  match x with
  | Fin q => if num_is_integer x && negb (num_le x (num_of_Z 0)) then Some (Qfloor q) else None
  | _ => None
  end.

Definition newBloomFilter (size hashes : num) : result BloomFilterCRDT :=
  match positive_integer size with
  | None => throw "sizeInBits must be a positive integer"
  | Some m =>
      match positive_integer hashes with
      | None => throw "numHashFunctions must be a positive integer"
      | Some k => Ok (Bloom (replicate (Z.to_nat ((m + 7) / 8)) 0) k m)
      end
  end.

Definition fnv_step (h c : Z) : Z := imul (js_xor h c) 0x01000193.

Definition baseHashes (term : string) : Z * Z :=
  let h1 := foldl fnv_step 0x811c9dc5 (charCodes term) in
  let h2 := js_or (foldl fnv_step 0x6c62272e (charCodes term)) 1 in
  (js_ushr h1 0, js_ushr h2 0).

Definition setBit (index : Z) (bs : list Z) : list Z :=
  alter (fun b => to_uint8 (js_or b (js_shl 1 (index mod 8)))) (Z.to_nat (index / 8)) bs.

Definition getBit (bs : list Z) (index : Z) : bool :=
  match bs !! Z.to_nat (index / 8) with
  | Some b => negb (js_and b (js_shl 1 (index mod 8)) =? 0)
  | None => false
  end.

(** The bit indices of a term. *)
Definition bitIndexes (f : BloomFilterCRDT) (term : string) : list Z :=
  let '(h1, h2) := baseHashes term in
  (fun i => Z.abs (Z.rem (h1 + i * h2) (sizeInBits f))) <$> seqZ 0 (numHashFunctions f).

Definition with_bits (f : BloomFilterCRDT) (bs : list Z) : BloomFilterCRDT :=
  Bloom bs (numHashFunctions f) (sizeInBits f).

Definition add (f : BloomFilterCRDT) (term : string) : BloomFilterCRDT :=
  with_bits f (foldl (fun bs i => setBit i bs) (bits f) (bitIndexes f term)).

Definition has (f : BloomFilterCRDT) (term : string) : bool :=
  forallb (getBit (bits f)) (bitIndexes f term).

Definition or_bits (bs other : list Z) : list Z :=
  imap (fun i b => to_uint8 (js_or b (default 0 (other !! i)))) bs.

Definition merge (f other : BloomFilterCRDT) : result BloomFilterCRDT :=
  if negb (sizeInBits f =? sizeInBits other) then throw "Cannot merge filters of different sizes"
  else if negb (numHashFunctions f =? numHashFunctions other)
  then throw "Cannot merge filters with different hash function counts"
  else Ok (with_bits f (or_bits (bits f) (bits other))).

Definition serialize (f : BloomFilterCRDT) : list Z := bits f.

(** [data.length !== Math.ceil(sizeInBits / 8)] holds for every non-finite size. *)
Definition deserialize (data : list Z) (size hashes : num) : result BloomFilterCRDT :=
  let fits := match size with
              | Fin q => Z.of_nat (length data) =? Qceiling (q / 8)
              | _ => false
              end in
  if negb fits then throw "Expected another number of bytes"
  else
    let? filter := newBloomFilter size hashes in
    Ok (with_bits filter data).

(** [while (byte) { byte &= byte - 1; count++; }]: a byte has eight bits, so nine
    units of fuel are enough (see [count_bits_total]). *)
Fixpoint count_bits (fuel : nat) (b count : Z) : result Z :=
  match fuel with
  | O => Err OutOfFuel
  | S fuel' => if b =? 0 then Ok count else count_bits fuel' (js_and b (b - 1)) (count + 1)
  end.

Fixpoint count_all (bs : list Z) (count : Z) : result Z :=
  match bs with
  | [] => Ok count
  | b :: bs' => let? count' := count_bits 9 b count in count_all bs' count'
  end.

Definition fillRatio (f : BloomFilterCRDT) : result Q :=
  let? count := count_all (bits f) 0 in
  Ok (inject_Z count / inject_Z (sizeInBits f))%Q.

(** ** Well-formed filters *)

Definition is_byte (b : Z) : Prop := 0 <= b < 256.

Record wf (f : BloomFilterCRDT) : Prop := {
  wf_size : 0 < sizeInBits f;
  wf_hashes : 0 < numHashFunctions f;
  wf_length : Z.of_nat (length (bits f)) = (sizeInBits f + 7) / 8;
  wf_bytes : Forall is_byte (bits f) }.

Definition same_params (f g : BloomFilterCRDT) : Prop :=
  sizeInBits f = sizeInBits g /\ numHashFunctions f = numHashFunctions g.

(** *** Bytes *)

Lemma is_byte_mod z : is_byte z <-> z mod 2 ^ 8 = z.
Proof. unfold is_byte. split; [intros; apply Z.mod_small; lia|]. intros <-. apply Z.mod_pos_bound. lia. Qed.

Lemma is_byte_lor a b : is_byte a -> is_byte b -> is_byte (Z.lor a b).
Proof.
  rewrite !is_byte_mod, <- !Z.land_ones by lia. intros Ha Hb. by rewrite Z.land_lor_distr_l, Ha, Hb.
Qed.

Lemma is_byte_pow o : 0 <= o < 8 -> is_byte (2 ^ o).
Proof. intros Ho. split; [lia|]. change 256 with (2 ^ 8). apply Z.pow_lt_mono_r; lia. Qed.

Lemma to_int32_byte z : is_byte z -> to_int32 z = z.
Proof.
  unfold is_byte. intros Hz. unfold to_int32. rewrite Z.mod_small by lia.
  destruct (Z.ltb_spec z (2 ^ 31)); lia.
Qed.

Lemma js_shl_1_byte o : 0 <= o < 8 -> js_shl 1 o = 2 ^ o.
Proof.
  intros Ho. unfold js_shl. rewrite (Z.mod_small o) by lia. change (to_int32 1) with 1.
  rewrite Z.shiftl_1_l. apply to_int32_byte, is_byte_pow, Ho.
Qed.

Lemma js_or_byte a b : is_byte a -> is_byte b -> to_uint8 (js_or a b) = Z.lor a b.
Proof.
  intros Ha Hb. unfold js_or, to_uint8. rewrite !to_int32_byte by done.
  apply Z.mod_small, is_byte_lor; done.
Qed.

Lemma land_pow2 b o : 0 <= o -> Z.land b (2 ^ o) = if Z.testbit b o then 2 ^ o else 0.
Proof.
  intros Ho. apply Z.bits_inj'. intros n Hn. rewrite Z.land_spec, Z.pow2_bits_eqb by done.
  destruct (Z.eqb_spec o n) as [<-|Hne].
  - rewrite andb_true_r. destruct (Z.testbit b o) eqn:E; [by rewrite Z.pow2_bits_true|by rewrite Z.bits_0].
  - rewrite andb_false_r. destruct (Z.testbit b o); [by rewrite Z.pow2_bits_false|by rewrite Z.bits_0].
Qed.

Lemma js_and_bit b o : is_byte b -> 0 <= o < 8 -> negb (js_and b (js_shl 1 o) =? 0) = Z.testbit b o.
Proof.
  intros Hb Ho. unfold js_and. rewrite js_shl_1_byte, !to_int32_byte, land_pow2 by (done || lia || by apply is_byte_pow).
  destruct (Z.testbit b o); [|done]. assert (0 < 2 ^ o) by (apply Z.pow_pos_nonneg; lia).
  by rewrite (proj2 (Z.eqb_neq _ _)) by lia.
Qed.

Lemma byte_ext a b : is_byte a -> is_byte b -> (forall o, 0 <= o < 8 -> Z.testbit a o = Z.testbit b o) -> a = b.
Proof.
  intros Ha%is_byte_mod Hb%is_byte_mod E. rewrite <- Ha, <- Hb. apply Z.bits_inj'. intros n Hn.
  destruct (Z.lt_ge_cases n 8).
  - rewrite !Z.mod_pow2_bits_low by lia. apply E. lia.
  - by rewrite !Z.mod_pow2_bits_high by lia.
Qed.

(** *** Bits *)

Definition in_bits (bs : list Z) (i : Z) : Prop := 0 <= i < 8 * Z.of_nat (length bs).

Lemma getBit_testbit bs i :
  Forall is_byte bs -> 0 <= i ->
  getBit bs i = match bs !! Z.to_nat (i / 8) with Some b => Z.testbit b (i mod 8) | None => false end.
Proof.
  intros HF Hi. unfold getBit. destruct (bs !! _) as [b|] eqn:E; [|done].
  apply js_and_bit; [by eapply Forall_lookup_1 in E|]. apply Z.mod_pos_bound. lia.
Qed.

Lemma bits_ext bs cs :
  Forall is_byte bs -> Forall is_byte cs -> length bs = length cs ->
  (forall i, in_bits bs i -> getBit bs i = getBit cs i) -> bs = cs.
Proof.
  intros HF HG Hlen E. apply list_eq. intros n.
  destruct (bs !! n) as [b|] eqn:Eb, (cs !! n) as [c|] eqn:Ec.
  - f_equal. apply byte_ext; [by eapply Forall_lookup_1 in Eb|by eapply Forall_lookup_1 in Ec|].
    intros o Ho. assert (n < length bs)%nat by (eapply lookup_lt_Some; eauto).
    specialize (E (8 * Z.of_nat n + o)). unfold in_bits in E. rewrite !getBit_testbit in E by (done || lia).
    assert ((8 * Z.of_nat n + o) / 8 = Z.of_nat n) as Hd by (Z.to_euclidean_division_equations; lia).
    assert ((8 * Z.of_nat n + o) mod 8 = o) as Hm by (Z.to_euclidean_division_equations; lia).
    rewrite Hd, Hm, Nat2Z.id, Eb, Ec in E. apply E. lia.
  - apply lookup_lt_Some in Eb. apply lookup_ge_None in Ec. lia.
  - apply lookup_ge_None in Eb. apply lookup_lt_Some in Ec. lia.
  - done.
Qed.

Lemma setBit_length i bs : length (setBit i bs) = length bs.
Proof. apply length_alter. Qed.

Lemma setBit_bytes i bs : Forall is_byte bs -> Forall is_byte (setBit i bs).
Proof.
  intros HF. apply Forall_alter; [done|]. intros b _ Hb. unfold to_uint8, is_byte. apply Z.mod_pos_bound. lia.
Qed.

Lemma getBit_setBit i bs j :
  Forall is_byte bs -> in_bits bs i -> 0 <= j -> getBit (setBit i bs) j = getBit bs j || (i =? j).
Proof.
  intros HF Hi Hj. unfold in_bits in Hi. rewrite !getBit_testbit by (auto using setBit_bytes; lia).
  unfold setBit. destruct (decide (i / 8 = j / 8)) as [Ed|Ed].
  - rewrite Ed, list_lookup_alter_eq. destruct (bs !! _) as [b|] eqn:E.
    + cbn [fmap option_fmap option_map]. assert (is_byte b) by (by eapply Forall_lookup_1 in E).
      assert (0 <= i mod 8 < 8 /\ 0 <= j mod 8 < 8) as [Hio Hjo] by (split; apply Z.mod_pos_bound; lia).
      rewrite js_shl_1_byte, js_or_byte, Z.lor_spec, Z.pow2_bits_eqb by (done || lia || by apply is_byte_pow).
      f_equal. destruct (Z.eqb_spec i j) as [->|Hne]; [by rewrite Z.eqb_refl|]. apply Z.eqb_neq.
      intros Em. apply Hne. rewrite (Z.div_mod i 8), (Z.div_mod j 8) by lia. lia.
    + apply lookup_ge_None in E. exfalso. assert (j / 8 < Z.of_nat (length bs)); [|lia].
      rewrite <- Ed. apply Z.div_lt_upper_bound; lia.
  - rewrite list_lookup_alter_ne by (intros E; apply Ed; apply Z2Nat.inj in E; [done|apply Z.div_pos; lia..]).
    rewrite (proj2 (Z.eqb_neq i j)) by congruence. by rewrite orb_false_r.
Qed.

Lemma or_bits_length bs cs : length (or_bits bs cs) = length bs.
Proof. apply length_imap. Qed.

Lemma default_byte cs n : Forall is_byte cs -> is_byte (default 0 (cs !! n)).
Proof.
  intros HF. destruct (cs !! n) as [b|] eqn:E; [by eapply Forall_lookup_1 in E|]. by split.
Qed.

Lemma lookup_or_bits bs cs n :
  Forall is_byte bs -> Forall is_byte cs ->
  or_bits bs cs !! n = (fun b => Z.lor b (default 0 (cs !! n))) <$> bs !! n.
Proof.
  intros HF HG. unfold or_bits. rewrite list_lookup_imap.
  destruct (bs !! n) as [b|] eqn:E; [|done]. cbn. f_equal.
  apply js_or_byte; [by eapply Forall_lookup_1 in E|by apply default_byte].
Qed.

Lemma or_bits_bytes bs cs : Forall is_byte bs -> Forall is_byte cs -> Forall is_byte (or_bits bs cs).
Proof.
  intros HF HG. apply Forall_lookup_2. intros n x E. rewrite lookup_or_bits in E by done.
  destruct (bs !! n) as [b|] eqn:Eb; [|done]. injection E as <-.
  apply is_byte_lor; [by eapply Forall_lookup_1 in Eb|by apply default_byte].
Qed.

Lemma getBit_or_bits bs cs i :
  Forall is_byte bs -> Forall is_byte cs -> length bs = length cs -> 0 <= i ->
  getBit (or_bits bs cs) i = getBit bs i || getBit cs i.
Proof.
  intros HF HG Hlen Hi. rewrite !getBit_testbit, lookup_or_bits by auto using or_bits_bytes.
  destruct (bs !! _) as [b|] eqn:Eb; cbn [fmap option_fmap option_map].
  - destruct (lookup_lt_is_Some_2 cs (Z.to_nat (i / 8))) as [c Ec].
    { rewrite <- Hlen. by eapply lookup_lt_Some. }
    rewrite Ec. cbn [default from_option id]. apply Z.lor_spec.
  - apply lookup_ge_None in Eb. by rewrite (proj2 (lookup_ge_None cs _)) by lia.
Qed.

(** *** Terms *)

Lemma bitIndexes_params f g t : same_params f g -> bitIndexes f t = bitIndexes g t.
Proof. unfold bitIndexes, same_params. by intros [-> ->]. Qed.

Lemma bitIndexes_in f t : wf f -> Forall (in_bits (bits f)) (bitIndexes f t).
Proof.
  intros [Hm Hk Hlen _]. unfold bitIndexes. destruct (baseHashes t) as [h1 h2].
  apply Forall_fmap, Forall_true. intros i. unfold in_bits, compose. split; [lia|].
  assert (Z.abs (Z.rem (h1 + i * h2) (sizeInBits f)) < sizeInBits f).
  { pose proof (Z.rem_bound_abs (h1 + i * h2) (sizeInBits f)). lia. }
  rewrite Hlen. Z.to_euclidean_division_equations. lia.
Qed.

Lemma foldl_setBit idx bs :
  Forall is_byte bs -> Forall (in_bits bs) idx ->
  Forall is_byte (foldl (fun bs i => setBit i bs) bs idx) /\
  length (foldl (fun bs i => setBit i bs) bs idx) = length bs /\
  forall j, 0 <= j -> getBit (foldl (fun bs i => setBit i bs) bs idx) j = getBit bs j || bool_decide (j ∈ idx).
Proof.
  revert bs. induction idx as [|i idx IH]; intros bs HF Hin; cbn [foldl].
  { split_and!; [done..|]. intros j _. by rewrite orb_false_r. }
  inversion Hin as [|? ? Hi Hin']; subst.
  destruct (IH (setBit i bs)) as (H1 & H2 & H3).
  { by apply setBit_bytes. }
  { eapply Forall_impl; [exact Hin'|]. unfold in_bits. intros. by rewrite setBit_length. }
  split_and!; [done|by rewrite H2, setBit_length|]. intros j Hj.
  rewrite H3, getBit_setBit by done. rewrite <- orb_assoc. f_equal.
  rewrite (bool_decide_ext (j ∈ i :: idx) (j = i \/ j ∈ idx)) by apply elem_of_cons.
  rewrite bool_decide_or. f_equal. destruct (Z.eqb_spec i j); case_bool_decide; congruence.
Qed.

Lemma wf_add f t : wf f -> wf (add f t).
Proof.
  intros Hf. destruct (foldl_setBit (bitIndexes f t) (bits f)) as (H1 & H2 & _).
  { apply Hf. } { by apply bitIndexes_in. }
  destruct Hf. constructor; [done|done|by cbn [add with_bits bits sizeInBits]; rewrite H2|exact H1].
Qed.

Lemma getBit_add f t j : wf f -> 0 <= j -> getBit (bits (add f t)) j = getBit (bits f) j || bool_decide (j ∈ bitIndexes f t).
Proof. intros Hf. apply foldl_setBit; [apply Hf|by apply bitIndexes_in]. Qed.

Lemma has_iff f t : has f t = true <-> Forall (fun i => getBit (bits f) i = true) (bitIndexes f t).
Proof.
  unfold has. rewrite <- Is_true_true, forallb_True. apply Forall_iff. intros i. apply Is_true_true.
Qed.

Lemma bits_eq f g : bits f = bits g -> same_params f g -> f = g.
Proof. destruct f, g. unfold same_params. cbn. by intros -> [-> ->]. Qed.

(** Two well-formed filters with the same parameters are equal when their bits are. *)
Lemma filter_ext f g :
  wf f -> wf g -> same_params f g ->
  (forall i, 0 <= i -> getBit (bits f) i = getBit (bits g) i) -> f = g.
Proof.
  intros Hf Hg Hp E. apply bits_eq; [|done]. apply bits_ext; [apply Hf|apply Hg| |intros i [? _]; auto].
  destruct Hf as [_ _ Hl _], Hg as [_ _ Hl' _], Hp as [Hm _]. rewrite Hm in Hl. lia.
Qed.

(** *** Merging *)

Lemma same_length f g : wf f -> wf g -> same_params f g -> length (bits f) = length (bits g).
Proof. intros [_ _ Hl _] [_ _ Hl' _] [Hm _]. rewrite Hm in Hl. lia. Qed.

Definition join (f g : BloomFilterCRDT) : BloomFilterCRDT := with_bits f (or_bits (bits f) (bits g)).

Lemma merge_ok f g : same_params f g -> merge f g = Ok (join f g).
Proof. unfold merge, same_params. intros [-> ->]. by rewrite !Z.eqb_refl. Qed.

Lemma merge_ok_inv f g h : merge f g = Ok h -> same_params f g /\ h = join f g.
Proof.
  unfold merge, same_params. destruct (Z.eqb_spec (sizeInBits f) (sizeInBits g)); [|done].
  destruct (Z.eqb_spec (numHashFunctions f) (numHashFunctions g)); [|done]. cbn. by intros [= <-].
Qed.

Lemma wf_join f g : wf f -> wf g -> wf (join f g).
Proof.
  intros [H1 H2 H3 H4] [_ _ _ H8]. constructor; cbn; [done..| |by apply or_bits_bytes]. by rewrite or_bits_length.
Qed.

Lemma getBit_join f g i :
  wf f -> wf g -> same_params f g -> 0 <= i -> getBit (bits (join f g)) i = getBit (bits f) i || getBit (bits g) i.
Proof. intros Hf Hg Hp. apply getBit_or_bits; [apply Hf|apply Hg|by apply same_length]. Qed.

Lemma has_join_l f g t : wf f -> wf g -> same_params f g -> has f t = true -> has (join f g) t = true.
Proof.
  rewrite !has_iff. intros Hf Hg Hp. change (bitIndexes (join f g) t) with (bitIndexes f t). intros HF.
  pose proof (bitIndexes_in f t Hf) as Hin. apply Forall_lookup_2. intros n i E.
  eapply Forall_lookup_1 in HF, Hin; [|done..]. rewrite getBit_join by (done || apply Hin). by rewrite HF.
Qed.

Lemma join_comm f g : wf f -> wf g -> same_params f g -> join f g = join g f.
Proof.
  intros Hf Hg Hp. assert (same_params g f) by (destruct Hp; done).
  apply filter_ext; [by apply wf_join..|done|].
  intros i Hi. rewrite !getBit_join by done. apply orb_comm.
Qed.

Lemma has_join_r f g t : wf f -> wf g -> same_params f g -> has g t = true -> has (join f g) t = true.
Proof. intros Hf Hg Hp. rewrite join_comm by done. apply has_join_l; [done..|]. by destruct Hp. Qed.

Lemma has_add_eq f t : wf f -> has (add f t) t = true.
Proof.
  intros Hf. rewrite has_iff. change (bitIndexes (add f t) t) with (bitIndexes f t).
  pose proof (bitIndexes_in f t Hf) as Hin. apply Forall_forall. intros i Hi.
  rewrite Forall_forall in Hin. rewrite getBit_add by (done || apply Hin, Hi). 
  by rewrite bool_decide_true, orb_true_r.
Qed.

Lemma has_add_mono f t t' : wf f -> has f t = true -> has (add f t') t = true.
Proof.
  rewrite !has_iff. intros Hf. change (bitIndexes (add f t') t) with (bitIndexes f t).
  rewrite !Forall_forall. intros HF i Hi. pose proof (bitIndexes_in f t Hf) as Hin.
  rewrite Forall_forall in Hin. rewrite getBit_add by (done || apply Hin, Hi). by rewrite HF.
Qed.

(** ** Histories *)

Inductive filter_op : Type := OpAdd (term : string) | OpMerge (other : BloomFilterCRDT).

Definition run_op (f : BloomFilterCRDT) (op : filter_op) : result BloomFilterCRDT :=
  match op with OpAdd t => Ok (add f t) | OpMerge g => merge f g end.

Fixpoint run_ops (f : BloomFilterCRDT) (ops : list filter_op) : result BloomFilterCRDT :=
  match ops with
  | [] => Ok f
  | op :: ops' => let? f' := run_op f op in run_ops f' ops'
  end.

Definition op_wf (op : filter_op) : Prop := match op with OpAdd _ => True | OpMerge g => wf g end.

Lemma run_op_ok f op f' t :
  wf f -> op_wf op -> run_op f op = Ok f' ->
  wf f' /\ (has f t = true -> has f' t = true) /\
  (op = OpAdd t -> has f' t = true) /\ (forall g, op = OpMerge g -> has g t = true -> has f' t = true).
Proof.
  intros Hf Ho E. destruct op as [t'|g]; cbn in E, Ho.
  - injection E as <-. split_and!; [by apply wf_add|by apply has_add_mono| |done].
    intros [= ->]. by apply has_add_eq.
  - apply merge_ok_inv in E as [Hp ->]. split_and!; [by apply wf_join|by apply has_join_l|done|].
    intros ? [= <-]. by apply has_join_r.
Qed.

(** No false negatives: whatever is added and merged afterwards, the filter
    answers [true] for every term that it answered [true] for, that was added,
    or that a merged filter answered [true] for. *)
Theorem bloom_no_false_negatives f ops g t :
  wf f -> Forall op_wf ops -> run_ops f ops = Ok g ->
  (has f t = true \/ OpAdd t ∈ ops \/ exists o, OpMerge o ∈ ops /\ has o t = true) ->
  has g t = true.
Proof.
  revert f. induction ops as [|op ops IH]; intros f Hf HF E Ht; cbn in E.
  { injection E as <-. destruct Ht as [?|[Ht|(o & Ht & _)]]; [done|inversion Ht..]. }
  inversion HF as [|? ? Ho HF']; subst. destruct (run_op f op) as [f'|] eqn:E1; [|done].
  destruct (run_op_ok f op f' t Hf Ho E1) as (Hf' & Hm & Ha & Hg).
  apply (IH f' Hf' HF' E). setoid_rewrite elem_of_cons in Ht. naive_solver.
Qed.

Lemma join_assoc f g h :
  wf f -> wf g -> wf h -> same_params f g -> same_params g h -> join (join f g) h = join f (join g h).
Proof.
  intros Hf Hg Hh Hp Hq. assert (same_params f h) by (destruct Hp, Hq; split; congruence).
  apply filter_ext; [by repeat apply wf_join..|done|]. intros i Hi.
  rewrite (getBit_join (join f g) h), (getBit_join f (join g h)), !getBit_join by (auto using wf_join).
  by rewrite orb_assoc.
Qed.

Lemma join_idem f : wf f -> join f f = f.
Proof.
  intros Hf. apply filter_ext; [by apply wf_join|done|done|].
  intros i Hi. rewrite getBit_join by done. apply orb_diag.
Qed.

(** The filter is a state-based CRDT: on filters with the same parameters merging
    never throws, keeps the parameters and the invariant, and is commutative,
    associative and idempotent, so replicas that exchanged the same states, in
    any order and any number of times, are equal bit for bit; with other
    parameters it throws. *)
Theorem bloom_semilattice f g h :
  wf f -> wf g -> wf h -> same_params f g -> same_params g h ->
  exists fg gh fgh, merge f g = Ok fg /\ merge g f = Ok fg /\ merge g h = Ok gh /\
    merge fg h = Ok fgh /\ merge f gh = Ok fgh /\ merge f f = Ok f /\ merge fg g = Ok fg /\
    wf fgh /\ same_params f fgh.
Proof.
  intros Hf Hg Hh Hp Hq. assert (same_params g f) by (by destruct Hp).
  assert (same_params f h) by (destruct Hp, Hq; split; congruence).
  exists (join f g), (join g h), (join (join f g) h).
  rewrite !merge_ok by done. split_and!; try done.
  - f_equal. by rewrite join_comm.
  - f_equal. by rewrite join_assoc.
  - f_equal. by apply join_idem.
  - f_equal. rewrite join_assoc by done. by rewrite join_idem.
  - by repeat apply wf_join.
Qed.

Lemma merge_throws f g : ~ same_params f g -> exists msg, merge f g = throw msg.
Proof.
  unfold same_params, merge. intros Hp.
  destruct (Z.eqb_spec (sizeInBits f) (sizeInBits g)); [|by eexists].
  destruct (Z.eqb_spec (numHashFunctions f) (numHashFunctions g)); [|by eexists]. exfalso. auto.
Qed.

(** Adding terms, in any order and with repetitions. *)
Definition add_all (f : BloomFilterCRDT) (ts : list string) : BloomFilterCRDT := foldl add f ts.

Lemma add_all_spec f ts :
  wf f -> wf (add_all f ts) /\ same_params f (add_all f ts) /\
  forall i, 0 <= i ->
    getBit (bits (add_all f ts)) i = getBit (bits f) i || existsb (fun t => bool_decide (i ∈ bitIndexes f t)) ts.
Proof.
  revert f. induction ts as [|t ts IH]; intros f Hf; cbn [add_all foldl existsb].
  { split_and!; [done..|]. intros. by rewrite orb_false_r. }
  destruct (IH (add f t) (wf_add f t Hf)) as (H1 & H2 & H3). split_and!; [done..|]. intros i Hi.
  rewrite H3, getBit_add by done. by rewrite <- orb_assoc.
Qed.

Lemma existsb_ext_set (p : string -> bool) ts ts' :
  (forall t, t ∈ ts <-> t ∈ ts') -> existsb p ts = existsb p ts'.
Proof.
  intros E. apply eq_true_iff_eq. rewrite !existsb_exists. setoid_rewrite <- list_elem_of_In.
  split; intros (t & Ht & ?); exists t; (split; [by apply E|done]).
Qed.

(** Replicas converge: the filter depends on the set of terms that were added
    and not on their order or repetition, and merging two replicas gives the
    filter that has seen the terms of both. *)
Theorem bloom_converges f ts ts' :
  wf f ->
  ((forall t, t ∈ ts <-> t ∈ ts') -> add_all f ts = add_all f ts') /\
  merge (add_all f ts) (add_all f ts') = Ok (add_all f (ts ++ ts')).
Proof.
  intros Hf. destruct (add_all_spec f ts Hf) as (H1 & H2 & H3), (add_all_spec f ts' Hf) as (H1' & H2' & H3').
  destruct (add_all_spec f (ts ++ ts') Hf) as (H1'' & H2'' & H3'').
  assert (Hp : same_params (add_all f ts) (add_all f ts')) by (destruct H2, H2'; split; congruence).
  split.
  - intros E. apply filter_ext; [done..|]. intros i Hi. rewrite H3, H3' by done. f_equal. by apply existsb_ext_set.
  - rewrite merge_ok by done. f_equal. apply filter_ext; [by apply wf_join|done|destruct H2, H2''; split; cbn; congruence|].
    intros i Hi. rewrite getBit_join, H3, H3', H3'', existsb_app by done.
    by destruct (getBit (bits f) i), (existsb _ ts).
Qed.

(** *** Serialization *)

Lemma positive_integer_Z z : 0 < z -> positive_integer (num_of_Z z) = Some z.
Proof.
  intros Hz. cbn [positive_integer num_of_Z num_is_integer num_le]. rewrite !Qfloor_Z.
  rewrite (proj2 (Qeq_bool_iff _ _)) by reflexivity.
  destruct (Qle_bool _ _) eqn:E; [|done]. apply Qle_bool_iff in E. rewrite <- Zle_Qle in E. lia.
Qed.

Lemma positive_integer_inv x z : positive_integer x = Some z -> 0 < z /\ exists q, x = Fin q /\ (q == inject_Z z)%Q.
Proof.
  destruct x as [q| | |]; try done. cbn [positive_integer num_is_integer num_le num_of_Z].
  destruct (Qeq_bool _ _) eqn:E1; [|done]. destruct (Qle_bool _ _) eqn:E2; [done|]. intros [= <-].
  apply Qeq_bool_iff in E1. split; [|eauto]. apply Z.lt_nge. intros Hle.
  assert (Qle_bool q (inject_Z 0) = true); [|congruence]. apply Qle_bool_iff. rewrite E1. by rewrite <- Zle_Qle.
Qed.

Lemma Qceiling_8 z : Qceiling (inject_Z z / 8) = (z + 7) / 8.
Proof.
  unfold Qceiling, Qfloor, Qdiv, Qmult, Qopp, Qinv, inject_Z. cbn. Z.to_euclidean_division_equations. lia.
Qed.

Lemma newBloomFilter_ok size hashes f :
  newBloomFilter size hashes = Ok f -> wf f /\ positive_integer size = Some (sizeInBits f) /\
    positive_integer hashes = Some (numHashFunctions f) /\ forall t, has f t = false.
Proof.
  unfold newBloomFilter. destruct (positive_integer size) as [m|] eqn:E1; [|done].
  destruct (positive_integer hashes) as [k|] eqn:E2; [|done]. intros [= <-].
  apply positive_integer_inv in E1 as [Hm _], E2 as [Hk _].
  assert (0 <= (m + 7) / 8) by (apply Z.div_pos; lia).
  assert (Hwf : wf (Bloom (replicate (Z.to_nat ((m + 7) / 8)) 0) k m)).
  { constructor; cbn; [done..|rewrite length_replicate; lia|by apply Forall_replicate]. }
  split_and!; [done..|]. intros t. apply not_true_iff_false. rewrite has_iff.
  assert (Hne : bitIndexes (Bloom (replicate (Z.to_nat ((m + 7) / 8)) 0) k m) t <> []).
  { unfold bitIndexes. destruct (baseHashes t). cbn. rewrite seqZ_cons by done. done. }
  pose proof (bitIndexes_in _ t Hwf) as Hin. destruct (bitIndexes _ t) as [|i l]; [done|].
  inversion Hin as [|? ? [Hi _] _]; subst. inversion 1 as [|? ? Hb _]; subst.
  rewrite getBit_testbit in Hb by (done || apply Hwf). cbn in Hb.
  destruct (replicate _ 0 !! _) eqn:E; [|done]. apply lookup_replicate in E as [-> _]. by rewrite Z.bits_0 in Hb.
Qed.

(** What is accepted satisfies the invariant and has the given parameters. *)
Lemma deserialize_ok data size hashes f :
  Forall is_byte data -> deserialize data size hashes = Ok f ->
  wf f /\ bits f = data /\ positive_integer size = Some (sizeInBits f) /\
  positive_integer hashes = Some (numHashFunctions f).
Proof.
  intros Hd. unfold deserialize. destruct size as [q| | |]; try done.
  destruct (Z.eqb_spec (Z.of_nat (length data)) (Qceiling (q / 8))) as [El|]; [|done]. cbn [negb].
  destruct (newBloomFilter _ _) as [g|] eqn:E; [|done]. intros [= <-].
  apply newBloomFilter_ok in E as ([Hm Hk _ _] & E1 & E2 & _). split_and!; try done.
  apply positive_integer_inv in E1 as (_ & q' & [= <-] & Hq). constructor; cbn; try done.
  by rewrite El, Hq, Qceiling_8.
Qed.

Lemma deserialize_Z bs s h :
  0 < s -> 0 < h ->
  deserialize bs (num_of_Z s) (num_of_Z h) =
  if Z.of_nat (length bs) =? (s + 7) / 8 then Ok (Bloom bs h s) else throw "Expected another number of bytes".
Proof.
  intros Hs Hh. unfold deserialize. cbn [num_of_Z]. rewrite Qceiling_8.
  destruct (_ =? _); [|done]. unfold newBloomFilter. by rewrite !positive_integer_Z.
Qed.

Lemma deserialize_params f size hashes :
  wf f -> positive_integer size = Some (sizeInBits f) -> positive_integer hashes = Some (numHashFunctions f) ->
  deserialize (serialize f) size hashes = Ok f.
Proof.
  intros Hf E1 E2. unfold deserialize, newBloomFilter. rewrite E1, E2.
  apply positive_integer_inv in E1 as (_ & q & -> & Hq). rewrite Hq, Qceiling_8. destruct Hf as [_ _ Hl _].
  unfold serialize. rewrite Hl, Z.eqb_refl. by destruct f.
Qed.

(** A filter survives transmission: deserializing what was serialized, with the
    parameters of the filter, gives it back; any other number of bytes is
    rejected, and a filter that is accepted satisfies the invariant. *)
Theorem bloom_roundtrip f data (m k : Z) :
  wf f -> Forall is_byte data -> 0 < m -> 0 < k ->
  deserialize (serialize f) (num_of_Z (sizeInBits f)) (num_of_Z (numHashFunctions f)) = Ok f /\
  ((exists g, deserialize data (num_of_Z m) (num_of_Z k) = Ok g) <-> Z.of_nat (length data) = (m + 7) / 8) /\
  (forall g, deserialize data (num_of_Z m) (num_of_Z k) = Ok g ->
     wf g /\ serialize g = data /\ sizeInBits g = m /\ numHashFunctions g = k).
Proof.
  intros Hf Hd Hm Hk.
  rewrite !deserialize_Z by (done || apply Hf). split_and!.
  - destruct Hf as [H1 H2 H3 H4]. unfold serialize. rewrite (proj2 (Z.eqb_eq _ _) H3). by destruct f.
  - destruct (Z.eqb_spec (Z.of_nat (length data)) ((m + 7) / 8)) as [E|E]; split; intros H; try done; eauto.
    by destruct H.
  - destruct (Z.eqb_spec (Z.of_nat (length data)) ((m + 7) / 8)) as [E|E]; [|done]. intros g [= <-].
    split_and!; [|done..]. by constructor.
Qed.

(** *** Fill ratio *)

Definition popcount (b : Z) : Z := Z.of_nat (length (List.filter (Z.testbit b) (seqZ 0 8))).

Lemma count_bits_acc fuel b c :
  count_bits fuel b c = let? n := count_bits fuel b 0 in Ok (c + n).
Proof.
  revert b c. induction fuel as [|fuel IH]; intros b c; [done|]. cbn [count_bits].
  destruct (b =? 0); [by rewrite Z.add_0_r|]. rewrite IH, (IH _ (0 + 1)).
  destruct (count_bits fuel _ 0); [|done]. f_equal. lia.
Qed.

(** The loop of [fillRatio] ends on every byte and counts its set bits. *)
Lemma count_bits_total b c : is_byte b -> count_bits 9 b c = Ok (c + popcount b).
Proof.
  intros Hb. rewrite count_bits_acc.
  assert (Hall : Forall (fun b => count_bits 9 b 0 = Ok (popcount b)) (seqZ 0 256)).
  { apply Forall_forall. intros x Hx.
    assert (Hc : forallb (fun b => bool_decide (count_bits 9 b 0 = Ok (popcount b))) (seqZ 0 256) = true)
      by (vm_compute; reflexivity).
    rewrite forallb_forall in Hc. apply list_elem_of_In in Hx. apply Hc, bool_decide_eq_true in Hx. done. }
  rewrite Forall_forall in Hall. rewrite (Hall b); [done|]. apply elem_of_seqZ. unfold is_byte in Hb. lia.
Qed.

Lemma count_all_total bs c :
  Forall is_byte bs -> count_all bs c = Ok (c + foldr (fun b n => popcount b + n) 0 bs).
Proof.
  intros HF. revert c. induction HF as [|b bs Hb _ IH]; intros c; cbn [count_all foldr]; [f_equal; lia|].
  rewrite count_bits_total by done. rewrite IH. f_equal. lia.
Qed.

(** [fillRatio] returns, for every filter, the number of set bits over its size. *)
Lemma fillRatio_total f :
  wf f ->
  fillRatio f = Ok (inject_Z (foldr (fun b n => popcount b + n)%Z 0%Z (bits f)) / inject_Z (sizeInBits f))%Q.
Proof. intros Hf. unfold fillRatio. by rewrite count_all_total by apply Hf. Qed.

(** ** Concrete filters *)

Definition demo : BloomFilterCRDT := Bloom (replicate 8 0) 3 64.

Lemma demo_wf : wf demo.
Proof. constructor; [done|done|done|]. by apply Forall_replicate. Qed.

Lemma bloom_no_false_negatives_witness : has (add (add demo "alice") "bob") "alice" = true.
Proof.
  apply (bloom_no_false_negatives demo [OpAdd "alice"; OpAdd "bob"]);
    [apply demo_wf|repeat constructor|reflexivity|right; left; constructor].
Defined.

Lemma bloom_semilattice_witness :
  exists fg gh fgh, merge (add demo "a") (add demo "b") = Ok fg /\ merge (add demo "b") (add demo "a") = Ok fg /\
    merge (add demo "b") demo = Ok gh /\ merge fg demo = Ok fgh /\ merge (add demo "a") gh = Ok fgh /\
    merge (add demo "a") (add demo "a") = Ok (add demo "a") /\ merge fg (add demo "b") = Ok fg /\
    wf fgh /\ same_params (add demo "a") fgh.
Proof. apply bloom_semilattice; try done; repeat apply wf_add; apply demo_wf. Defined.

Lemma bloom_converges_witness :
  merge (add_all demo ["x"; "y"]) (add_all demo ["y"; "z"]) = Ok (add_all demo ["x"; "y"; "y"; "z"]).
Proof. apply (bloom_converges demo ["x"; "y"] ["y"; "z"]), demo_wf. Defined.

Lemma bloom_roundtrip_witness :
  deserialize (serialize demo) (num_of_Z 64) (num_of_Z 3) = Ok demo.
Proof. apply (bloom_roundtrip demo [0] 8 1); [apply demo_wf|by repeat constructor|done|done]. Defined.

End Bloom.
