(* ===== verification/Gossip.v ===== *)
(** * Gossip of Bloom filters

    Models [packages/collabswarm-index/src/bloom-filter-gossip.ts]: the local
    filter, the filters received from peers, and the subscription with its
    republish timer. The pub/sub functions and the timer are the environment:
    calling one of them is an event in [log]. [setPubSub] installs the three
    functions together, so [wired] says whether they are set. Time is an
    argument of the operations that read the clock. *)
From stdpp Require Import base numbers list list_numbers strings.
From Stdlib Require Import ZArith QArith Lia.
From S2P Require Import Prelude Bloom.
Import Bloom.

Open Scope string_scope.
Open Scope list_scope.
Open Scope Z_scope.

Module Gossip.

Record PeerFilterState : Type := PeerFilter {
  peerId : string;
  filter : BloomFilterCRDT;
  lastUpdated : Z }.

Record BloomFilterGossipConfig : Type := GossipConfig {
  topic : string;
  filterSizeInBits : num;
  numHashes : num;
  republishIntervalMs : num }.

(** A call into the environment. *)
Inductive event : Type :=
| Subscribe (topic : string)
| Unsubscribe (topic : string)
| Publish (topic : string) (data : list Z)
| SetInterval (ms : num)
| ClearInterval.

Record BloomFilterGossip : Type := MkGossip {
  localFilter : BloomFilterCRDT;
  peerFilters : list (string * PeerFilterState);
  config : BloomFilterGossipConfig;
  republishTimer : bool;
  started : bool;
  wired : bool;
  log : list event }.

(** [Partial<BloomFilterGossipConfig>] *)
Record partial_config : Type := PartialConfig {
  p_topic : option string;
  p_filterSizeInBits : option num;
  p_numHashes : option num;
  p_republishIntervalMs : option num }.

Definition DEFAULT_CONFIG : BloomFilterGossipConfig :=
  GossipConfig "/collabswarm/bloom-index/1.0.0" (num_of_Z 65536) (num_of_Z 7) (num_of_Z 30000).

(** [{ ...DEFAULT_CONFIG, ...config }] *)
Definition with_defaults (c : partial_config) : BloomFilterGossipConfig :=
  GossipConfig (default (topic DEFAULT_CONFIG) (p_topic c))
    (default (filterSizeInBits DEFAULT_CONFIG) (p_filterSizeInBits c))
    (default (numHashes DEFAULT_CONFIG) (p_numHashes c))
    (default (republishIntervalMs DEFAULT_CONFIG) (p_republishIntervalMs c)).

Definition newGossip (p : partial_config) : result BloomFilterGossip :=
  let c := with_defaults p in
  let? f := newBloomFilter (filterSizeInBits c) (numHashes c) in
  Ok (MkGossip f [] c false false false []).

Definition emit (e : event) (g : BloomFilterGossip) : BloomFilterGossip :=
  MkGossip (localFilter g) (peerFilters g) (config g) (republishTimer g) (started g) (wired g) (log g ++ [e]).
Definition set_started (b : bool) (g : BloomFilterGossip) : BloomFilterGossip :=
  MkGossip (localFilter g) (peerFilters g) (config g) (republishTimer g) b (wired g) (log g).
Definition set_timer (b : bool) (g : BloomFilterGossip) : BloomFilterGossip :=
  MkGossip (localFilter g) (peerFilters g) (config g) b (started g) (wired g) (log g).
Definition set_local (f : BloomFilterCRDT) (g : BloomFilterGossip) : BloomFilterGossip :=
  MkGossip f (peerFilters g) (config g) (republishTimer g) (started g) (wired g) (log g).
Definition set_peers (ps : list (string * PeerFilterState)) (g : BloomFilterGossip) : BloomFilterGossip :=
  MkGossip (localFilter g) ps (config g) (republishTimer g) (started g) (wired g) (log g).

Definition setPubSub (g : BloomFilterGossip) : result unit * BloomFilterGossip :=
  (Ok tt, MkGossip (localFilter g) (peerFilters g) (config g) (republishTimer g) (started g) true (log g)).

Definition start : eff BloomFilterGossip unit :=
  let! g := get in
  if started g then ret tt
  else if negb (wired g) then raise (Throw "setPubSub() must be called before start()")
  else
    let! _ := modify (set_started true) in
    let! _ := modify (emit (Subscribe (topic (config g)))) in
    let! _ := modify (emit (SetInterval (republishIntervalMs (config g)))) in
    modify (set_timer true).

Definition stop : eff BloomFilterGossip unit :=
  let! g := get in
  if negb (started g) then ret tt
  else
    let! _ := modify (set_started false) in
    let! _ := (if wired g then modify (emit (Unsubscribe (topic (config g)))) else ret tt) in
    if republishTimer g then
      let! _ := modify (emit ClearInterval) in modify (set_timer false)
    else ret tt.

Definition addTerm (term : string) : eff BloomFilterGossip unit :=
  modify (fun g => set_local (add (localFilter g) term) g).

Definition publishFilter : eff BloomFilterGossip unit :=
  let! g := get in
  if negb (wired g) then ret tt
  else modify (emit (Publish (topic (config g)) (serialize (localFilter g)))).

(** A malformed filter is ignored. *)
Definition onReceiveFilter (peer : string) (data : list Z) (now : Z) : eff BloomFilterGossip unit :=
  let! g := get in
  match deserialize data (filterSizeInBits (config g)) (numHashes (config g)) with
  | Err _ => ret tt
  | Ok received =>
      match map_get peer (peerFilters g) with
      | Some existing =>
          let! f := lift (merge (filter existing) received) in
          modify (set_peers (map_set peer (PeerFilter (peerId existing) f now) (peerFilters g)))
      | None => modify (set_peers (map_set peer (PeerFilter peer received now) (peerFilters g)))
      end
  end.

Definition queryPeers (g : BloomFilterGossip) (terms : list string) : list string :=
  fst <$> List.filter (fun p => forallb (has (filter (snd p))) terms) (peerFilters g).

Fixpoint merge_peers (acc : BloomFilterCRDT) (ps : list (string * PeerFilterState)) : result BloomFilterCRDT :=
  match ps with
  | [] => Ok acc
  | (_, st) :: ps' => let? acc' := merge acc (filter st) in merge_peers acc' ps'
  end.

Definition getMergedFilter (g : BloomFilterGossip) : result BloomFilterCRDT :=
  let? merged := newBloomFilter (filterSizeInBits (config g)) (numHashes (config g)) in
  let? merged' := merge merged (localFilter g) in
  merge_peers merged' (peerFilters g).

(** ** Histories

    The calls that a session makes, in any order; a call that throws does not
    end the session. *)
Inductive call : Type :=
| CSetPubSub
| CStart
| CStop
| CAddTerm (term : string)
| CPublish
| CReceive (peer : string) (data : list Z) (now : Z).

Definition run_call (c : call) : eff BloomFilterGossip unit :=
  match c with
  | CSetPubSub => setPubSub
  | CStart => start
  | CStop => stop
  | CAddTerm t => addTerm t
  | CPublish => publishFilter
  | CReceive p d now => onReceiveFilter p d now
  end.

Definition run_calls (g : BloomFilterGossip) (cs : list call) : BloomFilterGossip :=
  foldl (fun g c => snd (run_call c g)) g cs.

Definition call_wf (c : call) : Prop := match c with CReceive _ d _ => Forall is_byte d | _ => True end.

(** How often the topic is subscribed and how many timers run, by the log. *)
Definition balance (up down : event -> bool) (l : list event) : Z :=
  Z.of_nat (length (List.filter up l)) - Z.of_nat (length (List.filter down l)).
Definition is_subscribe (e : event) : bool := match e with Subscribe _ => true | _ => false end.
Definition is_unsubscribe (e : event) : bool := match e with Unsubscribe _ => true | _ => false end.
Definition is_set (e : event) : bool := match e with SetInterval _ => true | _ => false end.
Definition is_clear (e : event) : bool := match e with ClearInterval => true | _ => false end.

Definition subscriptions : list event -> Z := balance is_subscribe is_unsubscribe.
Definition timers : list event -> Z := balance is_set is_clear.

(** The invariant of a session. *)
Record ok (g : BloomFilterGossip) : Prop := {
  ok_local : wf (localFilter g);
  ok_size : positive_integer (filterSizeInBits (config g)) = Some (sizeInBits (localFilter g));
  ok_hashes : positive_integer (numHashes (config g)) = Some (numHashFunctions (localFilter g));
  ok_peers : Forall (fun p => wf (filter (snd p)) /\ same_params (localFilter g) (filter (snd p))) (peerFilters g);
  ok_keys : NoDup (peerFilters g).*1;
  ok_wired : started g = true -> wired g = true;
  ok_timer : republishTimer g = started g;
  ok_subs : subscriptions (log g) = Z.b2z (started g);
  ok_timers : timers (log g) = Z.b2z (started g) }.

Lemma balance_snoc up down l e : balance up down (l ++ [e]) = balance up down l + Z.b2z (up e) - Z.b2z (down e).
Proof. unfold balance. rewrite !List.filter_app, !length_app. cbn. destruct (up e), (down e); cbn; lia. Qed.

Lemma new_ok c g : newGossip c = Ok g -> ok g.
Proof.
  unfold newGossip. destruct (newBloomFilter _ _) as [f|] eqn:E; [|done]. intros [= <-].
  apply newBloomFilter_ok in E as (H1 & H2 & H3 & _). constructor; cbn; try done. constructor.
Qed.

Lemma ok_lookup g p st :
  ok g -> map_get p (peerFilters g) = Some st -> wf (filter st) /\ same_params (localFilter g) (filter st).
Proof.
  intros Hok E. apply map_get_elem_of in E. pose proof (ok_peers g Hok) as HF.
  rewrite Forall_forall in HF. exact (HF _ E).
Qed.

(** Peer [p] is known to possibly have the terms. *)
Definition knows (g : BloomFilterGossip) (p : string) (ts : list string) : Prop :=
  exists st, map_get p (peerFilters g) = Some st /\ forall t, t ∈ ts -> has (filter st) t = true.

Lemma positive_params g f :
  ok g -> positive_integer (filterSizeInBits (config g)) = Some (sizeInBits f) ->
  positive_integer (numHashes (config g)) = Some (numHashFunctions f) -> same_params (localFilter g) f.
Proof. intros Hok E1 E2. pose proof (ok_size g Hok). pose proof (ok_hashes g Hok). split; congruence. Qed.

Lemma ok_set_peer g p st :
  ok g -> wf (filter st) -> same_params (localFilter g) (filter st) ->
  ok (set_peers (map_set p st (peerFilters g)) g).
Proof.
  intros [H1 H2 H3 H4 H5 H6 H7 H8 H9] Hwf Hp. constructor; cbn; try done.
  - apply Forall_map_set; done.
  - by apply NoDup_map_set.
Qed.

(** A received filter never throws; it is merged into what is known of the peer,
    and nothing that was known is lost. *)
Lemma receive_ok g p d now :
  ok g -> Forall is_byte d ->
  exists g', onReceiveFilter p d now g = (Ok tt, g') /\ ok g' /\ config g' = config g /\
    localFilter g' = localFilter g /\
    (forall q ts, knows g q ts -> knows g' q ts) /\
    (forall f ts, deserialize d (filterSizeInBits (config g)) (numHashes (config g)) = Ok f ->
       (forall t, t ∈ ts -> has f t = true) -> knows g' p ts).
Proof.
  intros Hok Hd. unfold onReceiveFilter. cbn [bind get]. unfold bind at 1, get.
  destruct (deserialize _ _ _) as [f|e] eqn:E.
  2: { exists g. split_and!; try done. }
  destruct (deserialize_ok _ _ _ _ Hd E) as (Hf & _ & E1 & E2).
  pose proof (positive_params g f Hok E1 E2) as Hp.
  destruct (map_get p (peerFilters g)) as [st|] eqn:Eg.
  - destruct (ok_lookup g p st Hok Eg) as [Hwf Hs].
    assert (Hsf : same_params (filter st) f) by (destruct Hs, Hp; split; congruence).
    rewrite (merge_ok _ _ Hsf). cbn. eexists. split; [done|]. split_and!; try done.
    + apply ok_set_peer; [done|by apply wf_join|]. by destruct Hs.
    + intros q ts (st' & Eq & Ht). unfold knows; cbn. rewrite map_get_set. case_decide as Hq; [|by eauto].
      subst q. eexists; split; [done|]. cbn. rewrite Eg in Eq. injection Eq as <-.
      intros t Hin. apply has_join_l; [done|done|done|by apply Ht].
    + intros f' ts [= <-] Ht. eexists; split; [apply map_get_set_eq|]. cbn. intros t Hin. apply has_join_r; [done|done|done|by apply Ht].
  - cbn. eexists. split; [done|]. split_and!; try done.
    + by apply ok_set_peer.
    + intros q ts (st' & Eq & Ht). unfold knows; cbn. rewrite map_get_set. case_decide as Hq; [congruence|by eauto].
    + intros f' ts [= <-] Ht. eexists; split; [apply map_get_set_eq|done].
Qed.

(** Every call keeps the invariant, the configuration and what is known of peers. *)
Lemma run_call_ok g c :
  ok g -> call_wf c ->
  ok (snd (run_call c g)) /\ config (snd (run_call c g)) = config g /\
  same_params (localFilter g) (localFilter (snd (run_call c g))) /\
  (forall q ts, knows g q ts -> knows (snd (run_call c g)) q ts).
Proof.
  intros Hok Hc. pose proof Hok as [H1 H2 H3 H4 H5 H6 H7 H8 H9].
  destruct c as [| | |t| |p d now]; cbn [run_call].
  - split_and!; done || by constructor.
  - unfold start, bind, get, modify, ret, raise. destruct (started g) eqn:Es; [done|].
    destruct (wired g) eqn:Ew; [|done]. cbn. cbn in H8, H9. split_and!; try done. constructor; cbn; try done.
    + unfold subscriptions in *. rewrite !balance_snoc. cbn. rewrite ?H8, ?H9. done.
    + unfold timers in *. rewrite !balance_snoc. cbn. rewrite ?H8, ?H9. done.
  - unfold stop, bind, get, modify, ret. destruct (started g) eqn:Es; [|done].
    rewrite H7, (H6 eq_refl). cbn. cbn in H8, H9. split_and!; try done. constructor; cbn; try done.
    + unfold subscriptions in *. rewrite !balance_snoc. cbn. rewrite ?H8, ?H9. done.
    + unfold timers in *. rewrite !balance_snoc. cbn. rewrite ?H8, ?H9. done.
  - cbn. split_and!; try done. constructor; cbn; try done. by apply wf_add.
  - unfold publishFilter, bind, get, modify, ret. destruct (wired g) eqn:Ew; [|done]. cbn. split_and!; try done.
    constructor; cbn; try done.
    + unfold subscriptions in *. rewrite balance_snoc. cbn. rewrite ?H8, ?H9. lia.
    + unfold timers in *. rewrite balance_snoc. cbn. rewrite ?H8, ?H9. lia.
  - destruct (receive_ok g p d now Hok Hc) as (g' & -> & Hg' & Hcfg & Hl & Hk & _). cbn.
    split_and!; try done. by rewrite Hl.
Qed.

Lemma run_calls_ok cs g :
  ok g -> Forall call_wf cs ->
  ok (run_calls g cs) /\ config (run_calls g cs) = config g /\
  (forall q ts, knows g q ts -> knows (run_calls g cs) q ts).
Proof.
  intros Hok HF. revert g Hok. induction HF as [|c cs Hc _ IH]; intros g Hok; [done|].
  destruct (run_call_ok g c Hok Hc) as (Hok' & Hcfg & _ & Hk). destruct (IH _ Hok') as (? & E & ?).
  change (run_calls g (c :: cs)) with (run_calls (snd (run_call c g)) cs).
  split_and!; [done|congruence|auto].
Qed.

Lemma queryPeers_iff g terms p :
  ok g -> p ∈ queryPeers g terms <-> knows g p terms.
Proof.
  intros Hok. unfold queryPeers. rewrite list_elem_of_fmap. split.
  - intros ([p' st] & -> & Hin). apply list_elem_of_In, List.filter_In in Hin as [Hin Hall].
    apply list_elem_of_In in Hin. exists st. split; [apply elem_of_map_get; [apply Hok|done]|].
    intros t Ht. rewrite forallb_forall in Hall. by apply Hall, list_elem_of_In.
  - intros (st & E & Hall). exists (p, st). split; [done|]. apply list_elem_of_In, List.filter_In.
    rewrite <- list_elem_of_In. split; [by apply map_get_elem_of|]. apply forallb_forall.
    intros t Ht. by apply Hall, list_elem_of_In.
Qed.

(** Queries miss no peer: if during a session a peer sent, at least once, a
    filter that contains all the terms, then a later query for the terms names
    the peer, whatever else was called and received in between, malformed and
    other filters of the same peer included. *)
Theorem gossip_query_complete c g0 cs p f now terms :
  newGossip c = Ok g0 -> Forall call_wf cs -> wf f -> same_params (localFilter g0) f ->
  CReceive p (serialize f) now ∈ cs -> (forall t, t ∈ terms -> has f t = true) ->
  p ∈ queryPeers (run_calls g0 cs) terms.
Proof.
  intros Hnew HF Hf Hp Hin Hhas. pose proof (new_ok c g0 Hnew) as Hok.
  apply queryPeers_iff; [by apply run_calls_ok|].
  apply list_elem_of_split in Hin as (pre & post & ->).
  apply Forall_app in HF as [HF1 [Hc HF2]%Forall_cons].
  destruct (run_calls_ok pre g0 Hok HF1) as (Hok1 & Hcfg & _).
  destruct (receive_ok (run_calls g0 pre) p (serialize f) now Hok1 Hc) as (g2 & E2 & Hok2 & _ & _ & _ & Hrec).
  destruct (run_calls_ok post g2 Hok2 HF2) as (_ & _ & Hk).
  unfold run_calls. rewrite foldl_app. cbn [foldl run_call]. fold (run_calls g0 pre). rewrite E2. cbn [snd].
  apply Hk, (Hrec f); [|done]. rewrite Hcfg. destruct Hp as [Hm Hh].
  apply deserialize_params; [done|rewrite <- Hm|rewrite <- Hh]; apply Hok.
Qed.

Lemma merge_peers_ok acc ps :
  wf acc -> Forall (fun p => wf (filter (snd p)) /\ same_params acc (filter (snd p))) ps ->
  exists f, merge_peers acc ps = Ok f /\ wf f /\ same_params acc f /\
    (forall t, has acc t = true -> has f t = true) /\
    (forall p st t, (p, st) ∈ ps -> has (filter st) t = true -> has f t = true).
Proof.
  revert acc. induction ps as [|[p st] ps IH]; intros acc Hacc HF; cbn [merge_peers].
  { exists acc. split_and!; try done. intros ? ? ? []%elem_of_nil. }
  inversion HF as [|? ? [Hst Hp] HF']; subst. cbn in Hst, Hp. rewrite (merge_ok _ _ Hp).
  destruct (IH (join acc (filter st))) as (f & E & Hf & Hs & Hm & Hall); [by apply wf_join|exact HF'|].
  exists f. rewrite E. split_and!; try done.
  - intros t Ht. apply Hm. by apply has_join_l.
  - intros p' st' t [[= -> ->]|Hin]%elem_of_cons Ht; [apply Hm; by apply has_join_r|by eapply Hall].
Qed.

(** A session keeps its promises whatever is called and received, malformed
    filters included: it is subscribed once and has one running timer exactly
    while it is started, it never subscribes twice, and the merged filter is
    always defined and contains every term of the local filter and of every
    filter received from a peer. *)
Theorem gossip_session c g0 cs :
  newGossip c = Ok g0 -> Forall call_wf cs ->
  let g := run_calls g0 cs in
  subscriptions (log g) = Z.b2z (started g) /\ timers (log g) = Z.b2z (started g) /\
  exists f, getMergedFilter g = Ok f /\ (forall t, has (localFilter g) t = true -> has f t = true) /\
    forall p st t, map_get p (peerFilters g) = Some st -> has (filter st) t = true -> has f t = true.
Proof.
  intros Hnew HF g. destruct (run_calls_ok cs g0 (new_ok c g0 Hnew) HF) as (Hok & _ & _). fold g in Hok.
  split; [apply Hok|]. split; [apply Hok|]. unfold getMergedFilter.
  destruct (newBloomFilter _ _) as [e|] eqn:E.
  2: { unfold newBloomFilter in E. by rewrite (ok_size g Hok), (ok_hashes g Hok) in E. }
  apply newBloomFilter_ok in E as (He & E1 & E2 & _).
  assert (Hp : same_params e (localFilter g)) by (pose proof (ok_size g Hok); pose proof (ok_hashes g Hok); split; congruence).
  rewrite (merge_ok _ _ Hp). pose proof (ok_local g Hok) as Hl.
  destruct (merge_peers_ok (join e (localFilter g)) (peerFilters g)) as (f & -> & _ & _ & Hm & Hall).
  { by apply wf_join. }
  { eapply Forall_impl; [apply (ok_peers g Hok)|]. intros p [? [? ?]]. split; [done|]. destruct Hp. split; cbn; congruence. }
  exists f. split_and!; [done| |].
  - intros t Ht. apply Hm. by apply has_join_r.
  - intros p st t Hin Ht. eapply Hall; [by apply map_get_elem_of|done].
Qed.

(** ** A concrete session *)

Definition demo_gossip_config : partial_config := PartialConfig None (Some (num_of_Z 64)) (Some (num_of_Z 3)) None.
Definition demo_gossip : BloomFilterGossip :=
  match newGossip demo_gossip_config with Ok g => g | Err _ => MkGossip demo [] DEFAULT_CONFIG false false false [] end.
Definition demo_calls : list call :=
  [CSetPubSub; CStart; CReceive "p" (serialize (add demo "x")) 1; CReceive "p" [7] 2; CStart; CStop].

Lemma demo_calls_wf : Forall call_wf demo_calls.
Proof.
  do 2 (constructor; [done|]). constructor; [apply (wf_add demo "x" demo_wf)|].
  constructor; [by repeat constructor|]. by repeat constructor.
Qed.

Lemma gossip_query_complete_witness : "p" ∈ queryPeers (run_calls demo_gossip demo_calls) ["x"].
Proof.
  apply (gossip_query_complete demo_gossip_config demo_gossip demo_calls "p" (add demo "x") 1 ["x"]).
  - reflexivity.
  - exact demo_calls_wf.
  - apply wf_add, demo_wf.
  - by split.
  - by do 2 right; left.
  - intros t ->%list_elem_of_singleton. vm_compute. reflexivity.
Defined.

Lemma gossip_session_witness :
  let g := run_calls demo_gossip demo_calls in
  subscriptions (log g) = Z.b2z (started g) /\ timers (log g) = Z.b2z (started g) /\
  exists f, getMergedFilter g = Ok f /\ (forall t, has (localFilter g) t = true -> has f t = true) /\
    forall p st t, map_get p (peerFilters g) = Some st -> has (filter st) t = true -> has f t = true.
Proof. apply (gossip_session demo_gossip_config demo_gossip demo_calls); [reflexivity|exact demo_calls_wf]. Defined.

End Gossip.
