(* ===== verification/Utils.v ===== *)
(** * Shared utilities

    Models [packages/collabswarm/src/utils.ts]: concatenation and reading of byte
    streams, the incremental request reader of the shared protocol handlers, the
    path-prefixed header that routes a key update, a welcome or a path update to
    its document, the promise race [firstTrue] behind every signature check, and
    the shuffle of the peers. A stream is the list of what its iterator yields;
    an item may be absent, or an error, after which nothing more is read. *)
From stdpp Require Import base numbers list strings.
From Stdlib Require Import ZArith Lia QArith Qround.
From S2P Require Import Prelude TipsHash.

Open Scope nat_scope.

Module Utils.

(** ** Definitions *)

(** [TypedArray.prototype.set] *)
Definition typed_set (dst src : bytes) (offset : nat) : result bytes :=
  if decide (offset + length src <= length dst)
  then Ok (take offset dst ++ src ++ drop (offset + length src) dst)
  else throw "RangeError".

(** [new Uint8Array(n)] *)
Definition zeros (n : nat) : bytes := replicate n Init.Byte.x00.

Definition concatUint8Arrays (arrs : list bytes) : result bytes :=
  let len := foldl (fun a b => a + length b) 0 arrs in
  let? r := foldl
      (fun acc arr =>
         let? st := acc in
         let '(newArr, currentIndex) := st in
         let? newArr := typed_set newArr arr currentIndex in
         Ok (newArr, currentIndex + length arr))
      (Ok (zeros len, 0)) arrs in
  Ok r.1.

(** What a stream yields: a [BufferList], a [Uint8Array] or a [Uint8ArrayList]. *)
Inductive chunk : Type :=
| BufferList (data : bytes)
| Uint8Array (data : bytes)
| Uint8ArrayList (parts : list bytes).

Definition chunk_length (c : chunk) : nat :=
  match c with
  | BufferList d | Uint8Array d => length d
  | Uint8ArrayList ps => sum_list (length <$> ps)
  end.

(** [Uint8ArrayList.subarray()] is one contiguous array. *)
Definition subarray (ps : list bytes) : bytes := mjoin ps.

Definition stream : Type := list (result (option chunk)).

(** The first loop of [readUint8Iterable]: collect, and give up above [maxSize]. *)
Fixpoint read_chunks (maxSize : option nat) (iterable : stream)
    (len : nat) (chunks : list chunk) : result (nat * list chunk) :=
  match iterable with
  | [] => Ok (len, chunks)
  | Err e :: _ => Err e
  | Ok None :: rest => read_chunks maxSize rest len chunks
  | Ok (Some c) :: rest =>
      let len := len + chunk_length c in
      match maxSize with
      | Some m => if decide (m < len) then throw "RangeError"
                  else read_chunks maxSize rest len (chunks ++ [c])
      | None => read_chunks maxSize rest len (chunks ++ [c])
      end
  end.

(** A [BufferList] is copied byte by byte. *)
Fixpoint copy_bytes (assembled : bytes) (data : bytes) (index : nat) : result bytes :=
  match data with
  | [] => Ok assembled
  | b :: data' =>
      let? assembled := typed_set assembled [b] index in
      copy_bytes assembled data' (index + 1)
  end.

Definition copy_chunk (assembled : bytes) (c : chunk) (index : nat) : result bytes :=
  match c with
  | BufferList d => copy_bytes assembled d index
  | Uint8Array d => typed_set assembled d index
  | Uint8ArrayList ps => typed_set assembled (subarray ps) index
  end.

(** The second loop. *)
Fixpoint assemble (assembled : bytes) (chunks : list chunk) (index : nat) : result bytes :=
  match chunks with
  | [] => Ok assembled
  | c :: rest =>
      let? assembled := copy_chunk assembled c index in
      assemble assembled rest (index + chunk_length c)
  end.

Definition readUint8Iterable (maxSize : option nat) (iterable : stream) : result bytes :=
  let? r := read_chunks maxSize iterable 0 [] in
  assemble (zeros r.1) r.2 0.

(** *** One request, decoded as soon as it is complete *)

Section Deserialize.
  Context {T : Type} (deserialize : bytes -> result T).

(** The capacity of the buffer when [nextLength] does not fit. *)
Definition grow (maxSize : option nat) (capacity nextLength : nat) : nat :=
  let grownCapacity := Nat.max nextLength (Nat.max 1 (capacity * 2)) in
  match maxSize with None => grownCapacity | Some m => Nat.min grownCapacity m end.

Definition chunk_bytes (c : chunk) : bytes :=
  match c with BufferList d => d | Uint8Array d => d | Uint8ArrayList ps => subarray ps end.

Definition exceeds (maxSize : option nat) (n : nat) : bool :=
  match maxSize with Some m => bool_decide (m < n) | None => false end.

Fixpoint readFirst_loop (maxSize : option nat) (iterable : stream)
    (assembled : bytes) (len : nat) (lastError : exn) : result T :=
  match iterable with
  | [] => Err lastError
  | Err e :: _ => Err e
  | Ok None :: rest => readFirst_loop maxSize rest assembled len lastError
  | Ok (Some c) :: rest =>
      if exceeds maxSize (len + chunk_length c) then throw "RangeError"
      else
        let data := chunk_bytes c in
        let nextLength := len + length data in
        if exceeds maxSize nextLength then throw "RangeError"
        else
          let? assembled :=
            if decide (length assembled < nextLength)
            then typed_set (zeros (grow maxSize (length assembled) nextLength))
                   (take len assembled) 0
            else Ok assembled in
          let? assembled := typed_set assembled data len in
          match deserialize (take nextLength assembled) with
          | Ok t => Ok t
          | Err error => readFirst_loop maxSize rest assembled nextLength error
          end
  end.

Definition readFirstDeserializable (maxSize : option nat) (iterable : stream) : result T :=
  readFirst_loop maxSize iterable [] 0
    (Throw "Stream ended before a complete message arrived").
End Deserialize.

(** *** The path-prefixed header *)

Inductive PathPrefixedHeaderDropReason : Type :=
| request_too_large
| read_failed
| too_short
| invalid_path_length
| no_document_registered.

Inductive PathPrefixedHeader (TDocument : Type) : Type :=
| HeaderOk (documentPath : string) (doc : TDocument) (payload : bytes)
| HeaderDrop (reason : PathPrefixedHeaderDropReason).
Arguments HeaderOk {_} _ _ _.
Arguments HeaderDrop {_} _.

(** [TextDecoder.decode] inverts [TextEncoder.encode]. *)
Class TextDecoder := {
  utf8_decode : bytes -> string;
  utf8_decode_encode : forall s, utf8_decode (TipsHash.utf8_encode s) = s;
}.

(** [((b0 << 24) | (b1 << 16) | (b2 << 8) | b3) >>> 0] *)
Definition read_be32 (b0 b1 b2 b3 : byte) : Z :=
  js_ushr
    (js_or (js_or (js_or (js_shl (byte_to_Z b0) 24) (js_shl (byte_to_Z b1) 16))
              (js_shl (byte_to_Z b2) 8))
       (byte_to_Z b3)) 0.

Definition readPathPrefixedProtocolHeader `{TextDecoder} {TDocument : Type}
    (registry : string -> option TDocument) (maxRequestSize maxPathLength : nat)
    (source : stream) : PathPrefixedHeader TDocument :=
  match readUint8Iterable (Some maxRequestSize) source with
  | Err e =>
      if decide (e = Throw "RangeError") then HeaderDrop request_too_large
      else HeaderDrop read_failed
  | Ok assembled =>
      match assembled with
      | b0 :: b1 :: b2 :: b3 :: rest =>
          let pathLength := read_be32 b0 b1 b2 b3 in
          if (pathLength =? 0)%Z || (Z.of_nat maxPathLength <? pathLength)%Z
             || (Z.of_nat (length assembled) <? pathLength + 4)%Z
          then HeaderDrop invalid_path_length
          else
            let documentPath := utf8_decode (take (Z.to_nat pathLength) rest) in
            let payload := drop (Z.to_nat pathLength) rest in
            match registry documentPath with
            | None => HeaderDrop no_document_registered
            | Some doc => HeaderOk documentPath doc payload
            end
      | _ => HeaderDrop too_short
      end
  end.

(** The sender's side, in [_sendBeeKEMWelcome] and the two other senders of
    [collabswarm-document.ts]: a path that is empty or too long is refused. *)
Definition framePathPrefixed (maxPathLength : nat) (documentPath : string) (body : bytes)
    : result bytes :=
  let pathBytes := TipsHash.utf8_encode documentPath in
  if (Nat.eqb (length pathBytes) 0) || (maxPathLength <? length pathBytes)
  then throw "Document path encoded length exceeds the maximum allowed path length"
  else
    let n := Z.of_nat (length pathBytes) in
    let pathHeader := [byte_of_Z (js_and (js_shr n 24) 255); byte_of_Z (js_and (js_shr n 16) 255);
                       byte_of_Z (js_and (js_shr n 8) 255); byte_of_Z (js_and n 255)] in
    concatUint8Arrays [pathHeader; pathBytes; body].

(** *** [firstTrue] and [shuffleArray] *)

(** [Promise.race] over the wrapped promises: [settled] lists the outcomes in the
    order in which the promises settle. A wrapped promise settles on [true] and on
    a rejection only; the last entry of the race is [false] once all have settled. *)
Fixpoint firstTrue (settled : list (result bool)) : result bool :=
  match settled with
  | [] => Ok false
  | Ok true :: _ => Ok true
  | Ok false :: rest => firstTrue rest
  | Err e :: _ => Err e
  end.

(** [\[array\[i\], array\[j\]\] = \[array\[j\], array\[i\]\]] *)
Definition swap {T} (i j : nat) (array : list T) : list T :=
  match array !! i, array !! j with
  | Some x, Some y => <[j := x]> (<[i := y]> array)
  | _, _ => array
  end.

(** [random n] is the value [Math.random()] returns at index [n]. *)
Fixpoint shuffle_from {T} (random : nat -> Q) (i : nat) (array : list T) : list T :=
  match i with
  | 0 => array
  | S i' =>
      let j := Z.to_nat (Qfloor (random i * inject_Z (Z.of_nat (i + 1)))) in
      shuffle_from random i' (swap i j array)
  end.

Definition shuffleArray {T} (random : nat -> Q) (array : list T) : list T :=
  shuffle_from random (length array - 1) array.

(** ** Copying into a fresh array *)

Lemma typed_set_at (pre mid post src : bytes) :
  length mid = length src ->
  typed_set (pre ++ mid ++ post) src (length pre) = Ok (pre ++ src ++ post).
Proof.
  intros E. unfold typed_set. rewrite !length_app, E. rewrite decide_True by lia.
  rewrite take_app_length. do 2 f_equal. f_equal.
  rewrite <- E, app_assoc, drop_app_length'; [done|]. by rewrite length_app.
Qed.

Lemma zeros_split n m : zeros (n + m) = zeros n ++ zeros m.
Proof. apply replicate_add. Qed.

Lemma length_zeros n : length (zeros n) = n.
Proof. apply length_replicate. Qed.

Lemma typed_set_zeros (pre src : bytes) (m : nat) :
  typed_set (pre ++ zeros (length src + m)) src (length pre) = Ok (pre ++ src ++ zeros m).
Proof. rewrite zeros_split. apply typed_set_at. apply length_zeros. Qed.

Lemma foldl_length_mjoin (arrs : list bytes) n :
  foldl (fun a b => a + length b) n arrs = n + length (mjoin arrs).
Proof.
  revert n. induction arrs as [|a arrs IH]; intros n; simpl; [lia|].
  rewrite IH, length_app. lia.
Qed.

(** [concatUint8Arrays] never overruns its buffer and is concatenation. *)
Lemma concatUint8Arrays_correct arrs : concatUint8Arrays arrs = Ok (mjoin arrs).
Proof.
  unfold concatUint8Arrays. rewrite foldl_length_mjoin. simpl.
  assert (H : forall pre, foldl
      (fun acc arr => let? st := acc in
         let '(newArr, currentIndex) := st in
         let? newArr := typed_set newArr arr currentIndex in
         Ok (newArr, currentIndex + length arr))
      (Ok (pre ++ zeros (length (mjoin arrs)), length pre)) arrs
      = Ok (pre ++ mjoin arrs, length (pre ++ mjoin arrs))).
  { induction arrs as [|a arrs IH]; intros pre; simpl.
    - by rewrite !app_nil_r.
    - rewrite length_app, typed_set_zeros, !app_assoc, <- length_app. apply IH. }
  specialize (H []). simpl in H. by rewrite H.
Qed.

Lemma length_chunk_bytes c : length (chunk_bytes c) = chunk_length c.
Proof.
  destruct c as [d|d|ps]; simpl; [done..|]. unfold subarray.
  induction ps as [|p ps IH]; simpl; [done|]. by rewrite length_app, IH.
Qed.

Lemma copy_bytes_zeros (pre d : bytes) (m : nat) :
  copy_bytes (pre ++ zeros (length d + m)) d (length pre) = Ok (pre ++ d ++ zeros m).
Proof.
  revert pre. induction d as [|b d IH]; intros pre; [done|].
  cbn [copy_bytes]. change (length (b :: d) + m) with (length [b] + (length d + m)).
  rewrite typed_set_zeros. cbn.
  replace (length pre + 1) with (length (pre ++ [b])) by (rewrite length_app; simpl; lia).
  replace (pre ++ b :: zeros (length d + m)) with ((pre ++ [b]) ++ zeros (length d + m))
    by by rewrite <- app_assoc.
  rewrite IH. by rewrite <- app_assoc.
Qed.

Lemma copy_chunk_zeros (pre : bytes) c m :
  copy_chunk (pre ++ zeros (chunk_length c + m)) c (length pre)
  = Ok (pre ++ chunk_bytes c ++ zeros m).
Proof.
  rewrite <- length_chunk_bytes. destruct c; simpl;
    [apply copy_bytes_zeros|apply typed_set_zeros..].
Qed.

Lemma assemble_zeros (pre : bytes) chunks :
  assemble (pre ++ zeros (sum_list (chunk_length <$> chunks))) chunks (length pre)
  = Ok (pre ++ mjoin (chunk_bytes <$> chunks)).
Proof.
  revert pre. induction chunks as [|c chunks IH]; intros pre; csimpl; [done|].
  rewrite copy_chunk_zeros, app_assoc.
  replace (length pre + chunk_length c) with (length (pre ++ chunk_bytes c))
    by (rewrite length_app, length_chunk_bytes; lia).
  rewrite IH. by rewrite <- app_assoc.
Qed.

(** ** Reading a stream *)

(** The chunks of a stream, when its iterator never throws. *)
Fixpoint yielded (s : stream) : option (list chunk) :=
  match s with
  | [] => Some []
  | Err _ :: _ => None
  | Ok None :: rest => yielded rest
  | Ok (Some c) :: rest => cons c <$> yielded rest
  end.

Definition stream_bytes (s : stream) : option bytes :=
  (fun cs => mjoin (chunk_bytes <$> cs)) <$> yielded s.

Lemma length_chunks cs : length (mjoin (chunk_bytes <$> cs)) = sum_list (chunk_length <$> cs).
Proof.
  induction cs as [|c cs IH]; csimpl; [done|]. by rewrite length_app, length_chunk_bytes, IH.
Qed.

Lemma exceeds_mono maxSize n n' : n <= n' -> exceeds maxSize n' = false -> exceeds maxSize n = false.
Proof.
  destruct maxSize as [m|]; [|done]. unfold exceeds. intros ? ?%bool_decide_eq_false_1.
  apply bool_decide_eq_false_2. lia.
Qed.

Lemma exceeds_0 maxSize : exceeds maxSize 0 = false.
Proof. destruct maxSize; [|done]. apply bool_decide_eq_false_2. lia. Qed.

Lemma read_chunks_ok maxSize s len acc r :
  exceeds maxSize len = false ->
  read_chunks maxSize s len acc = Ok r <->
  exists cs, yielded s = Some cs /\ r = (len + sum_list (chunk_length <$> cs), acc ++ cs) /\
    exceeds maxSize r.1 = false.
Proof.
  revert len acc. induction s as [|[[c|]|e] s IH]; intros len acc Hlen; simpl.
  - split.
    + intros [= <-]. exists []. rewrite app_nil_r. simpl. by rewrite Nat.add_0_r.
    + intros (cs & [= <-] & -> & _). simpl. by rewrite Nat.add_0_r, app_nil_r.
  - assert (Hstep : read_chunks maxSize s (len + chunk_length c) (acc ++ [c]) = Ok r /\
                    exceeds maxSize (len + chunk_length c) = false <->
                    exists cs, cons c <$> yielded s = Some cs /\
                      r = (len + sum_list (chunk_length <$> cs), acc ++ cs) /\
                      exceeds maxSize r.1 = false).
    { split.
      - intros [Hr Hx]. apply IH in Hr as (cs & -> & -> & Hm); [|done].
        exists (c :: cs). split_and!; [done| |done]. csimpl.
        by rewrite <- app_assoc, Nat.add_assoc.
      - intros (cs & Hy & -> & Hm). destruct (yielded s) as [cs'|] eqn:E; [|done].
        simplify_eq/=. assert (Hx : exceeds maxSize (len + chunk_length c) = false).
        { eapply exceeds_mono; [|exact Hm]. cbn. lia. }
        split; [|done]. apply IH; [done|]. exists cs'. csimpl.
        split_and!; [done| |done]. by rewrite <- app_assoc, Nat.add_assoc. }
    rewrite <- Hstep. destruct maxSize as [m|]; unfold exceeds; [|tauto].
    case_decide; [|rewrite bool_decide_eq_false_2 by lia; tauto].
    rewrite bool_decide_eq_true_2 by lia. naive_solver.
  - by apply IH.
  - split; [done|]. by intros (cs & ? & _).
Qed.

(** A read succeeds exactly when the iterator does not throw and the total fits,
    and it returns the bytes of all the chunks. *)
Lemma readUint8Iterable_ok maxSize s b :
  readUint8Iterable maxSize s = Ok b <->
  stream_bytes s = Some b /\ exceeds maxSize (length b) = false.
Proof.
  unfold readUint8Iterable, stream_bytes.
  pose proof (exceeds_0 maxSize) as H0.
  pose proof (fun r => read_chunks_ok maxSize s 0 [] r H0) as Hr. simpl in Hr.
  destruct (read_chunks maxSize s 0 []) as [r|e] eqn:E.
  - destruct (proj1 (Hr r) eq_refl) as (cs & -> & -> & Hx). simpl.
    pose proof (assemble_zeros [] cs) as Ha. simpl in Ha. rewrite Ha.
    simpl in Hx. rewrite <- length_chunks in Hx. split.
    + by intros [= <-].
    + by intros [[= <-] _].
  - split; [done|]. intros [Hy Hx]. destruct (yielded s) as [cs|] eqn:Ey; [|done].
    simplify_eq/=. rewrite length_chunks in Hx.
    enough (@Err (nat * list chunk) e = Ok (sum_list (chunk_length <$> cs), cs)) by done.
    apply Hr. eauto.
Qed.

(** ** The incremental reader *)

Section ReadFirst.
  Context {T : Type} (deserialize : bytes -> result T).

(** What the reader means, without its buffer: after each chunk try to decode all
    the bytes so far; the size is checked before. *)
Fixpoint first_decodable (maxSize : option nat) (s : stream) (sofar : bytes) (lastError : exn)
    : result T :=
  match s with
  | [] => Err lastError
  | Err e :: _ => Err e
  | Ok None :: rest => first_decodable maxSize rest sofar lastError
  | Ok (Some c) :: rest =>
      let sofar := sofar ++ chunk_bytes c in
      if exceeds maxSize (length sofar) then throw "RangeError"
      else match deserialize sofar with
           | Ok t => Ok t
           | Err e => first_decodable maxSize rest sofar e
           end
  end.

(** A grown buffer fits the next bytes and never passes the limit. *)
Lemma grow_bounds maxSize capacity nextLength :
  exceeds maxSize nextLength = false ->
  nextLength <= grow maxSize capacity nextLength /\
  exceeds maxSize (grow maxSize capacity nextLength) = false.
Proof.
  unfold grow, exceeds. destruct maxSize as [m|]; [|split; [lia|done]].
  intros ?%bool_decide_eq_false_1. split; [lia|]. apply bool_decide_eq_false_2. lia.
Qed.

(** Storing the next bytes after [sofar], in a buffer that is large enough. *)
Lemma buffer_append (sofar slack data : bytes) :
  length data <= length slack ->
  typed_set (sofar ++ slack) data (length sofar)
  = Ok (sofar ++ data ++ drop (length data) slack).
Proof.
  intros. rewrite <- (take_drop (length data) slack) at 1. apply typed_set_at.
  rewrite length_take. lia.
Qed.

Lemma readFirst_refines maxSize s sofar slack lastError :
  readFirst_loop deserialize maxSize s (sofar ++ slack) (length sofar) lastError
  = first_decodable maxSize s sofar lastError.
Proof.
  revert sofar slack lastError. induction s as [|[[c|]|e] s IH]; intros sofar slack lastError;
    cbn [readFirst_loop first_decodable]; [done| |done|done].
  rewrite !length_app, !length_chunk_bytes.
  destruct (exceeds maxSize (length sofar + chunk_length c)) eqn:Hx; [done|].
  rewrite take_app_length.
  assert (Hbuf : exists slack', (if decide (length sofar + length slack < length sofar + chunk_length c)
            then typed_set (zeros (grow maxSize (length sofar + length slack) (length sofar + chunk_length c))) sofar 0
            else Ok (sofar ++ slack)) = Ok (sofar ++ slack') /\ chunk_length c <= length slack').
  { case_decide as Hd; [|exists slack; split; [done|lia]].
    destruct (grow_bounds maxSize (length sofar + length slack) _ Hx) as [Hg _].
    set (g := grow _ _ _) in *. exists (zeros (g - length sofar)).
    replace g with (length sofar + (g - length sofar)) at 1 by lia.
    pose proof (typed_set_zeros [] sofar (g - length sofar)) as Hz. simpl in Hz. rewrite Hz.
    split; [done|]. rewrite length_zeros. lia. }
  destruct Hbuf as (slack' & -> & Hs). rewrite buffer_append by by rewrite length_chunk_bytes.
  rewrite app_assoc, <- length_chunk_bytes, <- length_app, take_app_length.
  by destruct (deserialize _); [|apply IH].
Qed.

(** The buffered reader is the reference reader: it decodes the shortest sequence
    of whole chunks that decodes, refuses input over the limit, and never writes
    outside its buffer. *)
Theorem readFirst_correct maxSize s :
  readFirstDeserializable deserialize maxSize s
  = first_decodable maxSize s [] (Throw "Stream ended before a complete message arrived").
Proof. apply (readFirst_refines maxSize s [] []). Qed.

(** However the message is cut into chunks, it is decoded, when no proper prefix
    made of whole chunks decodes. *)
Lemma first_decodable_whole maxSize s sofar e b t :
  stream_bytes s = Some b -> b <> [] -> deserialize (sofar ++ b) = Ok t ->
  exceeds maxSize (length (sofar ++ b)) = false ->
  (forall p q, p ++ q = sofar ++ b -> q <> [] -> exists e, deserialize p = Err e) ->
  first_decodable maxSize s sofar e = Ok t.
Proof.
  unfold stream_bytes. revert sofar e b.
  induction s as [|[[c|]|e'] s IH]; intros sofar e b Hb Hne Hd Hx Hp; simpl in *; simplify_eq/=.
  - destruct (yielded s) as [cs|] eqn:Ey; simplify_eq/=.
    rewrite app_assoc in Hx, Hd.
    assert (Hx' : exceeds maxSize (length (sofar ++ chunk_bytes c)) = false)
      by (eapply exceeds_mono, Hx; rewrite (length_app _ (mjoin _)); lia).
    rewrite Hx'.
    destruct (decide (mjoin (chunk_bytes <$> cs) = [])) as [E0|Hcs].
    + rewrite E0, app_nil_r in Hd. by rewrite Hd.
    + destruct (Hp (sofar ++ chunk_bytes c) (mjoin (chunk_bytes <$> cs))) as [e1 ->];
        [by rewrite app_assoc|done|].
      eapply IH; [reflexivity|done|done|done|]. intros p q E. apply Hp. by rewrite E, app_assoc.
  - eapply IH; eauto.
Qed.
End ReadFirst.

(** ** The path-prefixed header *)

Lemma lor_shift_add a x n : (0 <= n)%Z -> (0 <= x < 2 ^ n)%Z ->
  (a * 2 ^ n + x = Z.lor (Z.shiftl a n) x)%Z.
Proof.
  intros Hn Hx. rewrite <- Z.shiftl_mul_pow2 by done.
  assert (Hl : Z.land (Z.shiftl a n) x = 0%Z).
  { apply Z.bits_inj'. intros i Hi. rewrite Z.land_spec, Z.bits_0.
    destruct (decide (i < n)%Z).
    - by rewrite Z.shiftl_spec_low.
    - rewrite <- (Z.mod_small x (2 ^ n)), Z.mod_pow2_bits_high by lia. apply andb_false_r. }
  rewrite Z.add_nocarry_lxor by done. by apply Z.lxor_lor.
Qed.

Lemma js_or_testbit a b i : (0 <= i < 32)%Z ->
  Z.testbit (js_or a b) i = Z.testbit a i || Z.testbit b i.
Proof. intros. unfold js_or. by rewrite Z.lor_spec, !to_int32_testbit. Qed.

Lemma js_shl_testbit a n i : (0 <= i < 32)%Z -> (0 <= n < 32)%Z ->
  Z.testbit (js_shl a n) i = Z.testbit (Z.shiftl a n) i.
Proof.
  intros. unfold js_shl. rewrite Z.mod_small, to_int32_testbit, !Z.shiftl_spec by lia.
  destruct (decide (0 <= i - n)%Z); [apply to_int32_testbit; lia|].
  by rewrite !Z.testbit_neg_r by lia.
Qed.

(** The shifts and the unsigned conversion read a big-endian 32-bit number. *)
Lemma read_be32_of_be32 b0 b1 b2 b3 : read_be32 b0 b1 b2 b3 = of_be32 b0 b1 b2 b3.
Proof.
  pose proof (byte_to_Z_range b0). pose proof (byte_to_Z_range b1).
  pose proof (byte_to_Z_range b2). pose proof (byte_to_Z_range b3).
  unfold read_be32, js_ushr, to_uint32. rewrite Z.shiftr_0_r.
  rewrite <- (Z.mod_small (of_be32 b0 b1 b2 b3) (2 ^ 32)) by (unfold of_be32; lia).
  apply Z.bits_inj'. intros i Hi. destruct (decide (i < 32)%Z) as [Hi'|];
    [|by rewrite !Z.mod_pow2_bits_high by lia].
  rewrite !Z.mod_pow2_bits_low by lia. rewrite !js_or_testbit, !js_shl_testbit by lia.
  unfold of_be32.
  replace (byte_to_Z b0 * 2 ^ 24 + byte_to_Z b1 * 2 ^ 16 + byte_to_Z b2 * 2 ^ 8 + byte_to_Z b3)%Z
    with (byte_to_Z b0 * 2 ^ 24 + (byte_to_Z b1 * 2 ^ 16 + (byte_to_Z b2 * 2 ^ 8 + byte_to_Z b3)))%Z by lia.
  rewrite (lor_shift_add (byte_to_Z b0)), (lor_shift_add (byte_to_Z b1)),
    (lor_shift_add (byte_to_Z b2)) by lia. rewrite !Z.lor_spec. by rewrite !orb_assoc.
Qed.

Lemma be32_of_be32 b0 b1 b2 b3 : be32 (of_be32 b0 b1 b2 b3) = [b0; b1; b2; b3].
Proof.
  pose proof (byte_to_Z_range b0). pose proof (byte_to_Z_range b1).
  pose proof (byte_to_Z_range b2). pose proof (byte_to_Z_range b3).
  unfold be32, of_be32. change (2 ^ 24)%Z with 16777216%Z. change (2 ^ 16)%Z with 65536%Z.
  change (2 ^ 8)%Z with 256%Z.
  repeat f_equal; apply (inj byte_to_Z); rewrite byte_to_of_Z; Z.div_mod_to_equations; lia.
Qed.

(** A header is accepted exactly when the stream, read within the request limit, is
    a 32-bit length between 1 and the path limit, that many bytes, and the payload,
    and the decoded path is registered. *)
Theorem header_ok_iff `{TextDecoder} {TDocument} (registry : string -> option TDocument)
    maxRequestSize maxPathLength source p d payload :
  readPathPrefixedProtocolHeader registry maxRequestSize maxPathLength source = HeaderOk p d payload <->
  exists pathBytes,
    stream_bytes source = Some (be32 (Z.of_nat (length pathBytes)) ++ pathBytes ++ payload) /\
    4 + length pathBytes + length payload <= maxRequestSize /\
    1 <= length pathBytes <= maxPathLength /\
    (Z.of_nat (length pathBytes) < 2 ^ 32)%Z /\
    p = utf8_decode pathBytes /\ registry p = Some d.
Proof.
  unfold readPathPrefixedProtocolHeader.
  pose proof (readUint8Iterable_ok (Some maxRequestSize) source) as Hread.
  destruct (readUint8Iterable (Some maxRequestSize) source) as [b|e] eqn:E; cycle 1.
  { split; [by case_decide|]. intros (pb & Hs & Hlen & _).
    enough (@Err bytes e = Ok (be32 (Z.of_nat (length pb)) ++ pb ++ payload)) by done.
    apply Hread. split; [done|]. apply bool_decide_eq_false_2.
    rewrite !length_app, length_be32. lia. }
  destruct (proj1 (Hread b) eq_refl) as [Hs Hx]. rewrite Hs. clear Hread E.
  apply bool_decide_eq_false_1 in Hx. split.
  - destruct b as [|b0 [|b1 [|b2 [|b3 rest]]]]; try done. rewrite read_be32_of_be32.
    set (n := of_be32 b0 b1 b2 b3).
    destruct ((n =? 0)%Z || _ || _) eqn:Hb; [done|].
    apply orb_false_iff in Hb as [[Hb1 Hb2]%orb_false_iff Hb3].
    destruct (registry _) as [d'|] eqn:Ereg; [|done]. intros [= <- <- <-].
    assert (Hn : (0 <= n < 2 ^ 32)%Z).
    { unfold n, of_be32. pose proof (byte_to_Z_range b0). pose proof (byte_to_Z_range b1).
      pose proof (byte_to_Z_range b2). pose proof (byte_to_Z_range b3). lia. }
    apply Z.eqb_neq in Hb1. apply Z.ltb_ge in Hb2, Hb3. cbn [length] in Hb3, Hx.
    assert (Hl : length (take (Z.to_nat n) rest) = Z.to_nat n)
      by (rewrite length_take; lia).
    exists (take (Z.to_nat n) rest). rewrite Hl, Z2Nat.id, take_drop, length_drop by lia.
    split_and!; try lia; [|done|done].
    unfold n. by rewrite be32_of_be32.
  - intros (pb & [= Hb] & Hlen & Hpl & H32 & -> & Hreg). rewrite Hb in Hx |- *.
    unfold be32. cbn [app]. rewrite read_be32_of_be32, of_be32_be32, Z.mod_small by lia.
    assert (Hbool : ((Z.of_nat (length pb) =? 0)%Z || (Z.of_nat maxPathLength <? Z.of_nat (length pb))%Z ||
      (Z.of_nat (length (byte_of_Z (Z.of_nat (length pb) / 2 ^ 24) :: byte_of_Z (Z.of_nat (length pb) / 2 ^ 16)
         :: byte_of_Z (Z.of_nat (length pb) / 2 ^ 8) :: byte_of_Z (Z.of_nat (length pb)) :: pb ++ payload)) <?
       Z.of_nat (length pb) + 4)%Z) = false).
    { simpl length. rewrite length_app. rewrite !orb_false_iff, Z.eqb_neq, !Z.ltb_ge. lia. }
    rewrite Hbool. rewrite Nat2Z.id, take_app_length, drop_app_length. by rewrite Hreg.
Qed.

Lemma byte_of_shr n k : (0 <= n < 2 ^ 31)%Z -> (0 <= k < 32)%Z ->
  byte_of_Z (js_and (js_shr n k) 255) = byte_of_Z (n / 2 ^ k).
Proof.
  intros. unfold js_shr. rewrite (Z.mod_small k) by lia. rewrite to_int32_small by lia.
  rewrite Z.shiftr_div_pow2 by lia. unfold js_and.
  assert (0 <= n / 2 ^ k <= n)%Z.
  { split; [apply Z.div_pos; lia|]. apply Z.div_le_upper_bound; nia. }
  rewrite !to_int32_small by lia. change 255%Z with (Z.ones 8). rewrite Z.land_ones by lia.
  unfold byte_of_Z. by rewrite Z.mod_mod.
Qed.

Lemma frame_bytes maxPathLength p body f :
  (Z.of_nat maxPathLength < 2 ^ 31)%Z -> framePathPrefixed maxPathLength p body = Ok f ->
  let pb := TipsHash.utf8_encode p in
  f = be32 (Z.of_nat (length pb)) ++ pb ++ body /\ 1 <= length pb <= maxPathLength.
Proof.
  intros Hm Hf pb. unfold framePathPrefixed in Hf. fold pb in Hf.
  destruct (_ || _) eqn:Hb in Hf; [done|].
  apply orb_false_iff in Hb as [?%Nat.eqb_neq ?%Nat.ltb_ge].
  rewrite concatUint8Arrays_correct in Hf. injection Hf as <-. split; [|lia].
  assert (Hshr0 : js_and (Z.of_nat (length pb)) 255 = js_and (js_shr (Z.of_nat (length pb)) 0) 255).
  { f_equal. unfold js_shr. change (0 mod 32)%Z with 0%Z.
    by rewrite to_int32_small, Z.shiftr_0_r by lia. }
  rewrite Hshr0, !byte_of_shr by lia. unfold be32. simpl mjoin.
  rewrite app_nil_r. by rewrite Z.div_1_r.
Qed.

(** What a sender frames for a document reaches that document, with its body
    unchanged, however the transport cuts it. *)
Theorem header_roundtrip `{TextDecoder} {TDocument} (registry : string -> option TDocument)
    maxRequestSize maxPathLength documentPath body f source d :
  (Z.of_nat maxPathLength < 2 ^ 31)%Z ->
  framePathPrefixed maxPathLength documentPath body = Ok f ->
  stream_bytes source = Some f -> length f <= maxRequestSize ->
  registry documentPath = Some d ->
  readPathPrefixedProtocolHeader registry maxRequestSize maxPathLength source
  = HeaderOk documentPath d body.
Proof.
  intros Hm Hf Hs Hlen Hreg. destruct (frame_bytes _ _ _ _ Hm Hf) as [-> Hpb].
  apply header_ok_iff. exists (TipsHash.utf8_encode documentPath).
  rewrite utf8_decode_encode. rewrite !length_app, length_be32 in Hlen.
  split_and!; try done; lia.
Qed.

(** ** [firstTrue] and the shuffle *)

(** When no check rejects, the race answers whether one is true, in whatever order
    the checks settle. *)
Lemma firstTrue_exists (outcomes settled : list bool) :
  settled ≡ₚ outcomes -> firstTrue (Ok <$> settled) = Ok (existsb id outcomes).
Proof.
  intros Hp. transitivity (@Ok bool (existsb id settled)).
  - clear Hp. induction settled as [|[] l IH]; csimpl; [done..|]. exact IH.
  - f_equal. induction Hp as [|x|x y|]; simpl; [done|congruence| |congruence].
    by destruct x, y.
Qed.

Lemma swap_perm {T} i j (l : list T) : swap i j l ≡ₚ l.
Proof.
  unfold swap. destruct (l !! i) eqn:Ei, (l !! j) eqn:Ej; try done.
  by apply Permutation_insert_swap.
Qed.

(** The shuffle keeps the peers and, when [Math.random] stays in its range, only
    ever swaps positions inside the array. *)
Lemma shuffle_index (random : nat -> Q) i :
  (0 <= random i < 1)%Q -> Z.to_nat (Qfloor (random i * inject_Z (Z.of_nat (i + 1)))) <= i.
Proof.
  intros [H0 H1]. set (n := inject_Z (Z.of_nat (i + 1))).
  assert (Hn : (0 < n)%Q) by (unfold n, inject_Z, Qlt; simpl; lia).
  assert (Hlt : (random i * n < n)%Q).
  { rewrite <- (Qmult_1_l n) at 2. by apply Qmult_lt_compat_r. }
  pose proof (Qfloor_le (random i * n)) as Hf.
  assert (Hz : (inject_Z (Qfloor (random i * n)) < inject_Z (Z.of_nat (i + 1)))%Q)
    by (eapply Qle_lt_trans; eauto).
  rewrite <- Zlt_Qlt in Hz. lia.
Qed.

Lemma shuffleArray_perm {T} (random : nat -> Q) (l : list T) : shuffleArray random l ≡ₚ l.
Proof.
  unfold shuffleArray. generalize (length l - 1) as i. intros i. revert l.
  induction i as [|i IH]; intros l; simpl; [done|]. by rewrite IH, swap_perm.
Qed.

(** ** Concrete instances *)

(** A decoder of the two-byte sequences [TipsHash.utf8_encode] writes. *)
Fixpoint utf8_decode_demo (b : bytes) : string :=
  match b with
  | [] => String.EmptyString
  | x :: b' =>
      if (byte_to_Z x <? 128)%Z then String.String (Ascii.ascii_of_N (Z.to_N (byte_to_Z x))) (utf8_decode_demo b')
      else match b' with
           | y :: b'' =>
               String.String (Ascii.ascii_of_N (Z.to_N (Z.lor (Z.shiftl (Z.land (byte_to_Z x) 31) 6)
                                                          (Z.land (byte_to_Z y) 63)))) (utf8_decode_demo b'')
           | [] => String.EmptyString
           end
  end.

#[local, refine] Instance demo_decoder : TextDecoder := {| utf8_decode := utf8_decode_demo |}.
Proof.
  induction s as [|c s IH]; [done|]. simpl TipsHash.utf8_encode.
  assert (Hc : forall rest, utf8_decode_demo (TipsHash.utf8_char c ++ rest) = String.String c (utf8_decode_demo rest))
    by (destruct c as [[] [] [] [] [] [] [] []]; intros rest; reflexivity).
  by rewrite Hc, IH.
Defined.

Lemma header_roundtrip_witness :
  readPathPrefixedProtocolHeader (fun p => if String.eqb p "/doc" then Some 7 else None) 100 50
    (map (fun b => Ok (Some (Uint8Array [b]))) (be32 4 ++ TipsHash.utf8_encode "/doc" ++ [Init.Byte.x01; Init.Byte.x02]))
  = HeaderOk "/doc" 7 [Init.Byte.x01; Init.Byte.x02].
Proof.
  apply (header_roundtrip _ 100 50 "/doc" [Init.Byte.x01; Init.Byte.x02]
           (be32 4 ++ TipsHash.utf8_encode "/doc" ++ [Init.Byte.x01; Init.Byte.x02])); [done|reflexivity..| |reflexivity].
  vm_compute. lia.
Defined.

End Utils.
