(* ===== verification/Auth.v ===== *)
(** * Authenticated encryption of blocks and messages

    Models [packages/collabswarm/src/auth-subtlecrypto.ts], the provider of
    symmetric encryption: AES-GCM, or AES-CTR and AES-CBC with an HMAC over nonce
    and ciphertext. WebCrypto is the class [SubtlePrims], with the laws that it
    documents. [AuthProvider] (from [auth-provider.ts]) is what a document relies
    on; [subtle_auth] shows that this provider implements it. Fresh random bytes
    are a function of a counter. *)
From stdpp Require Import base numbers list list_numbers strings.
From Stdlib Require Import ZArith Lia.
From S2P Require Import Prelude TipsHash Utils Wire.

Open Scope nat_scope.

(** What a document needs of a provider: a nonce of the announced length, and
    decryption that inverts encryption. [encrypt] takes the number of the draw. *)
Class AuthProvider (DocumentKey : Type) := {
  nonceBits : nat;
  encrypt : nat → bytes → DocumentKey → result (option bytes * bytes);
  decrypt : bytes → DocumentKey → bytes → result bytes;
  encrypt_nonce : ∀ d m k n c, encrypt d m k = Ok (Some n, c) → length n = nonceBits;
  decrypt_encrypt : ∀ d m k n c, encrypt d m k = Ok (Some n, c) → decrypt c k n = Ok m;
}.

Module Auth.

(** ** Definitions *)

Inductive AesAlgorithmName : Type := AES_GCM | AES_CTR | AES_CBC.

Inductive AesParams : Type :=
| AesGcmParams (iv : bytes)
| AesCtrParams (counter : bytes) (length : Z)
| AesCbcParams (iv : bytes).

Definition HMAC_TAG_LENGTH : nat := 32.

Class SubtlePrims (CryptoKey HmacKey : Type) := {
  extractable : CryptoKey → bool;
  exportKey_raw : CryptoKey → result bytes;
  (** [importKey('raw', _, 'HKDF')] and [deriveKey] with an empty salt *)
  hkdf_hmac : bytes → bytes → HmacKey;
  subtle_encrypt : AesParams → CryptoKey → bytes → result bytes;
  subtle_decrypt : AesParams → CryptoKey → bytes → result bytes;
  hmac_sign : HmacKey → bytes → bytes;
  hmac_verify : HmacKey → bytes → bytes → bool;
  getRandomValues : nat → nat → bytes;
  random_length : ∀ d n, length (getRandomValues d n) = n;
  aes_decrypts : ∀ p k m c, subtle_encrypt p k m = Ok c → subtle_decrypt p k c = Ok m;
  hmac_length : ∀ k m, length (hmac_sign k m) = HMAC_TAG_LENGTH;
  hmac_verifies : ∀ k t m, hmac_verify k t m = true ↔ t = hmac_sign k m;
}.

Section Subtle.
  Context {CryptoKey HmacKey : Type} `{EqDecision CryptoKey, SubtlePrims CryptoKey HmacKey}.
  Context (encryptionAlgorithmName : AesAlgorithmName).

(** [get nonceBits()], in bytes in spite of its name. *)
Definition subtle_nonceBits : nat :=
  match encryptionAlgorithmName with AES_GCM => 12 | AES_CTR | AES_CBC => 16 end.

Definition extractNonce (params : AesParams) : bytes :=
  match params with AesGcmParams iv => iv | AesCtrParams counter _ => counter | AesCbcParams iv => iv end.

(** [_encryptionAlgorithmParams(nonce)]; a fresh CTR counter block is 96 random bits
    and 32 zero bits. *)
Definition encryptionAlgorithmParams (draw : nat) (nonce : option bytes) : result AesParams :=
  match encryptionAlgorithmName with
  | AES_GCM =>
      match nonce with
      | Some n => if length n =? 12 then Ok (AesGcmParams n) else throw "AES-GCM nonce must be 12 bytes"
      | None => Ok (AesGcmParams (getRandomValues draw 12))
      end
  | AES_CTR =>
      match nonce with
      | Some n => if length n =? 16 then Ok (AesCtrParams n 32) else throw "AES-CTR counter must be 16 bytes"
      | None => Ok (AesCtrParams (getRandomValues draw 12 ++ Utils.zeros 4) 32)
      end
  | AES_CBC =>
      match nonce with
      | Some n => if length n =? 16 then Ok (AesCbcParams n) else throw "AES-CBC IV must be 16 bytes"
      | None => Ok (AesCbcParams (getRandomValues draw 16))
      end
  end.

(** [_hmacKeyCache] *)
Abbreviation hmac_cache := (list (CryptoKey * HmacKey)).

(** [`hmac-auth-${name.toLowerCase()}`] *)
Definition hmac_info : bytes :=
  TipsHash.utf8_encode
    match encryptionAlgorithmName with
    | AES_GCM => "hmac-auth-aes-gcm" | AES_CTR => "hmac-auth-aes-ctr" | AES_CBC => "hmac-auth-aes-cbc"
    end.

Definition deriveHmacKey (documentKey : CryptoKey) : eff hmac_cache HmacKey :=
  let! cache := get in
  match map_get documentKey cache with
  | Some cached => ret cached
  | None =>
      if negb (extractable documentKey) then lift (throw "Cannot derive HMAC key")
      else
        let! rawBytes := lift (exportKey_raw documentKey) in
        let hmacKey := hkdf_hmac rawBytes hmac_info in
        let! _ := modify (map_set documentKey hmacKey) in
        ret hmacKey
  end.

Definition is_gcm : bool := match encryptionAlgorithmName with AES_GCM => true | _ => false end.

Definition subtle_decrypt_data (data : bytes) (documentKey : CryptoKey) (nonce : option bytes)
    : eff hmac_cache bytes :=
  match nonce with
  | None => lift (throw "Nonce is required for decryption")
  | Some n =>
      if negb is_gcm then
        if length data <? HMAC_TAG_LENGTH then lift (throw "Ciphertext too short to contain HMAC tag")
        else
          let ciphertext := take (length data - HMAC_TAG_LENGTH) data in
          let receivedTag := drop (length data - HMAC_TAG_LENGTH) data in
          let! hmacKey := deriveHmacKey documentKey in
          let! macInput := lift (Utils.concatUint8Arrays [n; ciphertext]) in
          if negb (hmac_verify hmacKey receivedTag macInput) then lift (throw "HMAC verification failed")
          else
            let! params := lift (encryptionAlgorithmParams 0 nonce) in
            lift (subtle_decrypt params documentKey ciphertext)
      else
        let! params := lift (encryptionAlgorithmParams 0 nonce) in
        lift (subtle_decrypt params documentKey data)
  end.

Definition subtle_encrypt_data (draw : nat) (data : bytes) (documentKey : CryptoKey)
    : eff hmac_cache (bytes * bytes) :=
  let! params := lift (encryptionAlgorithmParams draw None) in
  let! ciphertext := lift (subtle_encrypt params documentKey data) in
  if negb is_gcm then
    let! hmacKey := deriveHmacKey documentKey in
    let nonce := extractNonce params in
    let! macInput := lift (Utils.concatUint8Arrays [nonce; ciphertext]) in
    let tag := hmac_sign hmacKey macInput in
    let! data := lift (Utils.concatUint8Arrays [ciphertext; tag]) in
    ret (nonce, data)
  else ret (extractNonce params, ciphertext).

(** [serializePublicKey] *)
Definition serializePublicKey `{Wire.Base64} (publicKey : CryptoKey) : result string :=
  if negb (extractable publicKey)
  then throw "BeeKEM Welcome recipient binding requires an extractable public key"
  else let? raw := exportKey_raw publicKey in Ok (Wire.fromUint8Array raw).

(** ** The derived key does not depend on the cache *)

Definition derived (k : CryptoKey) (h : HmacKey) : Prop :=
  extractable k = true /\ exists raw, exportKey_raw k = Ok raw /\ h = hkdf_hmac raw hmac_info.

Definition cache_ok (c : hmac_cache) : Prop := forall k h, map_get k c = Some h -> derived k h.

Lemma deriveHmacKey_ok c k h c' :
  cache_ok c -> deriveHmacKey k c = (Ok h, c') -> derived k h /\ cache_ok c'.
Proof.
  intros Hc E. unfold deriveHmacKey, bind, get in E.
  destruct (map_get k c) as [h'|] eqn:Eg; [injection E as <- <-; split; [by apply Hc|done]|].
  destruct (extractable k) eqn:Ex; [|done]. simpl in E.
  destruct (exportKey_raw k) as [raw|] eqn:Er; [|done]. simpl in E. injection E as <- <-.
  assert (Hd : derived k (hkdf_hmac raw hmac_info)) by (split; eauto).
  split; [done|]. intros k' h'. rewrite map_get_set. case_decide; [|apply Hc].
  intros; simplify_eq. done.
Qed.

Lemma deriveHmacKey_total c k h : cache_ok c -> derived k h ->
  exists c', deriveHmacKey k c = (Ok h, c').
Proof.
  intros Hc [Hx (raw & Hr & ->)]. unfold deriveHmacKey, bind, get.
  destruct (map_get k c) as [h'|] eqn:Eg.
  - destruct (Hc _ _ Eg) as [_ (raw' & Hr' & ->)]. rewrite Hr in Hr'. injection Hr' as <-.
    eexists. reflexivity.
  - rewrite Hx. simpl. unfold lift. rewrite Hr. eexists. reflexivity.
Qed.

Lemma params_nonce draw p : encryptionAlgorithmParams draw None = Ok p ->
  length (extractNonce p) = subtle_nonceBits /\
  forall d, encryptionAlgorithmParams d (Some (extractNonce p)) = Ok p.
Proof.
  unfold encryptionAlgorithmParams, subtle_nonceBits.
  destruct encryptionAlgorithmName; intros [= <-]; simpl;
    rewrite ?length_app, ?length_replicate, ?random_length; simpl;
    by rewrite ?length_app, ?length_replicate, ?random_length.
Qed.

Lemma params_length d n p : encryptionAlgorithmParams d (Some n) = Ok p -> length n = subtle_nonceBits.
Proof.
  unfold encryptionAlgorithmParams, subtle_nonceBits.
  destruct encryptionAlgorithmName;
    match goal with |- context [length n =? ?k] => destruct (Nat.eqb_spec (length n) k) end; by intros.
Qed.

Lemma concat2 (a b : bytes) : Utils.concatUint8Arrays [a; b] = Ok (a ++ b).
Proof. rewrite Utils.concatUint8Arrays_correct. simpl. by rewrite app_nil_r. Qed.

(** The two halves of an authenticated ciphertext. *)
Lemma take_drop_tag (ct tag : bytes) : length tag = HMAC_TAG_LENGTH ->
  take (length (ct ++ tag) - HMAC_TAG_LENGTH) (ct ++ tag) = ct /\
  drop (length (ct ++ tag) - HMAC_TAG_LENGTH) (ct ++ tag) = tag.
Proof.
  intros <-. rewrite length_app, Nat.add_sub. by rewrite take_app_length, drop_app_length.
Qed.

Lemma encrypt_inv draw m k c n data c' :
  cache_ok c -> subtle_encrypt_data draw m k c = (Ok (n, data), c') ->
  cache_ok c' /\ exists p ct, encryptionAlgorithmParams draw None = Ok p /\ n = extractNonce p /\
    subtle_encrypt p k m = Ok ct /\
    (is_gcm = true /\ data = ct \/
     is_gcm = false /\ exists h, derived k h /\ data = ct ++ hmac_sign h (n ++ ct)).
Proof.
  intros Hc E. unfold subtle_encrypt_data in E.
  apply bind_inv in E as (p & c1 & [= Hp <-] & E). apply bind_inv in E as (ct & c2 & [= Hct <-] & E).
  destruct is_gcm eqn:Hg; simpl in E.
  { injection E as <- <- <-. split; [done|]. exists p, ct. auto 10. }
  apply bind_inv in E as (h & c3 & Hh & E). destruct (deriveHmacKey_ok _ _ _ _ Hc Hh) as [Hd Hc3].
  rewrite !concat2 in E. unfold bind, lift, ret in E. rewrite concat2 in E. injection E as <- <- <-.
  split; [done|]. exists p, ct. eauto 10.
Qed.

Lemma encrypt_then_decrypt draw m k c1 n data c1' c2 :
  cache_ok c1 -> cache_ok c2 ->
  subtle_encrypt_data draw m k c1 = (Ok (n, data), c1') ->
  length n = subtle_nonceBits /\ exists c2', subtle_decrypt_data data k (Some n) c2 = (Ok m, c2').
Proof.
  intros Hc1 Hc2 E. destruct (encrypt_inv _ _ _ _ _ _ _ Hc1 E) as (_ & p & ct & Hp & -> & Hct & Hcase).
  destruct (params_nonce _ _ Hp) as [Hl Hpar]. split; [done|]. unfold subtle_decrypt_data.
  destruct Hcase as [[-> ->]|(-> & h & Hd & ->)]; simpl.
  - unfold bind, lift. rewrite Hpar. rewrite (aes_decrypts _ _ _ _ Hct). eauto.
  - destruct (take_drop_tag ct (hmac_sign h (extractNonce p ++ ct)) (hmac_length _ _)) as [-> ->].
    rewrite (proj2 (Nat.ltb_ge _ _)) by (rewrite length_app, hmac_length; lia).
    destruct (deriveHmacKey_total c2 k h Hc2 Hd) as [c2' Hder].
    rewrite (bind_ok _ _ _ _ _ Hder). rewrite concat2. unfold bind, lift.
    rewrite (proj2 (hmac_verifies h _ _) eq_refl). simpl. rewrite Hpar.
    rewrite (aes_decrypts _ _ _ _ Hct). eauto.
Qed.

(** Whatever the algorithm, what the provider encrypts it decrypts, with the nonce
    it returned, which has the announced length; and the cache of derived keys,
    on either side, makes no difference. *)
Theorem subtle_roundtrip draw m k c1 n data c1' c2 :
  cache_ok c1 -> cache_ok c2 ->
  subtle_encrypt_data draw m k c1 = (Ok (n, data), c1') ->
  length n = subtle_nonceBits /\ exists c2', subtle_decrypt_data data k (Some n) c2 = (Ok m, c2').
Proof. intros Hc1 Hc2. by apply encrypt_then_decrypt. Qed.

(** Encrypt-then-MAC: with AES-CTR or AES-CBC nothing is decrypted unless the data
    ends in the HMAC, under the key derived from this document key, of exactly
    this nonce and this ciphertext; a nonce of the wrong length is refused. *)
Theorem subtle_authentic data k n c m c' :
  is_gcm = false -> cache_ok c ->
  subtle_decrypt_data data k (Some n) c = (Ok m, c') ->
  length n = subtle_nonceBits /\
  exists h ct, derived k h /\ data = ct ++ hmac_sign h (n ++ ct).
Proof.
  intros Hg Hc E. unfold subtle_decrypt_data in E. rewrite Hg in E. simpl in E.
  destruct (Nat.ltb_spec (length data) HMAC_TAG_LENGTH) as [|Hlen]; [done|].
  apply bind_inv in E as (h & c1 & Hh & E). destruct (deriveHmacKey_ok _ _ _ _ Hc Hh) as [Hd _].
  rewrite concat2 in E. apply bind_inv in E as (mi & c2 & [= <- <-] & E).
  destruct (hmac_verify _ _ _) eqn:Hv; [|done]. apply hmac_verifies in Hv. simpl in E.
  apply bind_inv in E as (p & c3 & [= Hp _] & _).
  split; [by eapply params_length|]. exists h, (take (length data - HMAC_TAG_LENGTH) data).
  split; [done|]. rewrite <- Hv. by rewrite take_drop.
Qed.

Lemma empty_cache_ok : cache_ok [].
Proof. by intros k h. Qed.

(** The provider as a document sees it. *)
#[refine] Instance subtle_auth : AuthProvider CryptoKey := {
  nonceBits := subtle_nonceBits;
  encrypt d m k := match (subtle_encrypt_data d m k []).1 with
                   | Ok (n, c) => Ok (Some n, c) | Err e => Err e end;
  decrypt c k n := (subtle_decrypt_data c k (Some n) []).1;
}.
Proof.
  all: intros d m k n c E; destruct (subtle_encrypt_data d m k []) as [[[n' c'']|] s] eqn:E1; [|done];
    simpl in E; simplify_eq;
    destruct (encrypt_then_decrypt _ _ _ _ _ _ _ [] empty_cache_ok empty_cache_ok E1) as [Hl [c2' Hd]].
  - done.
  - by rewrite Hd.
Defined.
End Subtle.

(** ** Witnesses *)

(** Stand-ins that obey the laws: a one-time pad of zero, and a tag that is the
    key's first byte repeated. *)
#[local, refine] Instance toy_subtle : SubtlePrims byte byte := {
  extractable _ := true;
  exportKey_raw k := Ok [k];
  hkdf_hmac raw _ := default Init.Byte.x00 (head raw);
  subtle_encrypt _ _ m := Ok m;
  subtle_decrypt _ _ c := Ok c;
  hmac_sign k _ := replicate HMAC_TAG_LENGTH k;
  hmac_verify k t _ := bool_decide (t = replicate HMAC_TAG_LENGTH k);
  getRandomValues d n := replicate n (byte_of_Z (Z.of_nat d));
}.
Proof.
  - intros. apply length_replicate.
  - by intros p k m c [= ->].
  - intros. apply length_replicate.
  - intros. apply bool_decide_eq_true.
Defined.

Lemma subtle_roundtrip_witness :
  length (replicate 12 (byte_of_Z 5) ++ Utils.zeros 4) = subtle_nonceBits AES_CTR /\
  exists c, subtle_decrypt_data AES_CTR ([Init.Byte.x01; Init.Byte.x02] ++ replicate 32 Init.Byte.x09) Init.Byte.x09
              (Some (replicate 12 (byte_of_Z 5) ++ Utils.zeros 4)) [] = (Ok [Init.Byte.x01; Init.Byte.x02], c).
Proof.
  eapply (subtle_roundtrip AES_CTR 5 [Init.Byte.x01; Init.Byte.x02] Init.Byte.x09 []);
    [apply empty_cache_ok..|]. vm_compute. reflexivity.
Defined.

Lemma subtle_authentic_witness :
  length (replicate 16 Init.Byte.x04) = subtle_nonceBits AES_CBC /\
  exists h ct, derived AES_CBC Init.Byte.x09 h /\
    [Init.Byte.x01; Init.Byte.x02] ++ replicate 32 Init.Byte.x09 = ct ++ hmac_sign h (replicate 16 Init.Byte.x04 ++ ct).
Proof.
  eapply (subtle_authentic AES_CBC _ Init.Byte.x09 _ [] [Init.Byte.x01; Init.Byte.x02]);
    [reflexivity|apply empty_cache_ok|]. vm_compute. reflexivity.
Defined.

End Auth.
