(* ===== verification/WriterCache.v ===== *)
(** * The cache of writer keys

    Models [_getWriterKeys], [_invalidateWriterKeyCache], [_runWriterMutation],
    [_mergeWriters], [_addWriter] and [_removeWriter] of
    [packages/collabswarm/src/collabswarm-document.ts], with the three fields they
    share, and the checks of a writer's signature that read the keys.

    The calls suspend at their awaits, so several are under way at once: the part
    of a call between two awaits is one function here, and [step] interleaves
    those parts in every order. An ACL may change its list at any moment of an
    [add] or [remove], and reads it at any moment of a [users]. *)
From stdpp Require Import base numbers list gmap strings.
From Stdlib Require Import ZArith Lia.
From S2P Require Import Prelude TipsHash Utils Wire.

Open Scope nat_scope.

Module WriterCache.

(** ** Definitions *)

Section Cache.
  Context {PublicKey : Type}.

(** [_cachedWriterKeys], [_writerKeysVersion], [_writerMutationsInFlight] *)
Record cache := mk_cache {
  cachedWriterKeys : option (list PublicKey);
  writerKeysVersion : nat;
  writerMutationsInFlight : Z;
}.

Definition new_cache : cache := mk_cache None 0 0.

Definition invalidateWriterKeyCache (c : cache) : cache :=
  mk_cache None (S (writerKeysVersion c)) (writerMutationsInFlight c).

(** [_getWriterKeys] up to its await: a hit, or the version to compare with. *)
Inductive fetch : Type :=
| Hit (keys : list PublicKey)
| Await (versionAtStart : nat).

Definition getWriterKeys_start (c : cache) : fetch :=
  match cachedWriterKeys c with
  | Some keys => if (writerMutationsInFlight c =? 0)%Z then Hit keys else Await (writerKeysVersion c)
  | None => Await (writerKeysVersion c)
  end.

(** [_getWriterKeys] after its await: [None] is [continue]. *)
Definition getWriterKeys_resume (versionAtStart : nat) (fetched : list PublicKey) (c : cache)
    : cache * option (list PublicKey) :=
  if (writerKeysVersion c =? versionAtStart) && (writerMutationsInFlight c =? 0)%Z
  then (mk_cache (Some fetched) (writerKeysVersion c) (writerMutationsInFlight c), Some fetched)
  else if negb (writerKeysVersion c =? versionAtStart) then (c, None)
  else (c, Some fetched).

(** [_runWriterMutation] before and after it awaits the operation; the second half
    is its [finally], so it runs whether the operation succeeds or throws. *)
Definition writerMutation_enter (c : cache) : cache :=
  invalidateWriterKeyCache
    (mk_cache (cachedWriterKeys c) (writerKeysVersion c) (writerMutationsInFlight c + 1)).

Definition writerMutation_exit (c : cache) : cache :=
  invalidateWriterKeyCache
    (mk_cache (cachedWriterKeys c) (writerKeysVersion c) (writerMutationsInFlight c - 1)).

(** [_mergeWriters]: the merge is synchronous. [users'] is the list after it. *)
Definition mergeWriters (c : cache) : cache := writerMutation_exit (writerMutation_enter c).

(** ** The calls under way *)

(** A call of [_getWriterKeys] waits for [users()], which has or has not read the
    list yet. *)
Inductive pending : Type :=
| Reading (versionAtStart : nat)
| Read (versionAtStart : nat) (fetched : list PublicKey).

Record world := mk_world {
  w_cache : cache;
  w_users : list PublicKey;         (** what the ACL holds *)
  w_mutations : gset nat;           (** calls of [_runWriterMutation] under way *)
  w_readers : gmap nat pending;     (** calls of [_getWriterKeys] under way *)
}.

Definition initial (users : list PublicKey) : world := mk_world new_cache users ∅ ∅.

(** What a step shows its caller. *)
Inductive event : Type :=
| Silent
| Returned (reader : nat) (keys : list PublicKey).

Inductive step : world -> event -> world -> Prop :=
| step_enter w i : i ∉ w_mutations w ->
    step w Silent (mk_world (writerMutation_enter (w_cache w)) (w_users w)
                     ({[i]} ∪ w_mutations w) (w_readers w))
| step_mutate w i users : i ∈ w_mutations w ->
    step w Silent (mk_world (w_cache w) users (w_mutations w) (w_readers w))
| step_exit w i : i ∈ w_mutations w ->
    step w Silent (mk_world (writerMutation_exit (w_cache w)) (w_users w)
                     (w_mutations w ∖ {[i]}) (w_readers w))
| step_merge w users :
    step w Silent (mk_world (mergeWriters (w_cache w)) users (w_mutations w) (w_readers w))
| step_hit w r keys : w_readers w !! r = None -> getWriterKeys_start (w_cache w) = Hit keys ->
    step w (Returned r keys) w
| step_miss w r v : w_readers w !! r = None -> getWriterKeys_start (w_cache w) = Await v ->
    step w Silent (mk_world (w_cache w) (w_users w) (w_mutations w)
                     (<[r := Reading v]> (w_readers w)))
| step_read w r v : w_readers w !! r = Some (Reading v) ->
    step w Silent (mk_world (w_cache w) (w_users w) (w_mutations w)
                     (<[r := Read v (w_users w)]> (w_readers w)))
| step_return w r v fetched c keys : w_readers w !! r = Some (Read v fetched) ->
    getWriterKeys_resume v fetched (w_cache w) = (c, Some keys) ->
    step w (Returned r keys) (mk_world c (w_users w) (w_mutations w) (delete r (w_readers w)))
| step_retry_hit w r v fetched c keys : w_readers w !! r = Some (Read v fetched) ->
    getWriterKeys_resume v fetched (w_cache w) = (c, None) ->
    getWriterKeys_start c = Hit keys ->
    step w (Returned r keys) (mk_world c (w_users w) (w_mutations w) (delete r (w_readers w)))
| step_retry_miss w r v fetched c v' : w_readers w !! r = Some (Read v fetched) ->
    getWriterKeys_resume v fetched (w_cache w) = (c, None) ->
    getWriterKeys_start c = Await v' ->
    step w Silent (mk_world c (w_users w) (w_mutations w) (<[r := Reading v']> (w_readers w))).

(** The states that the calls reach, from a document with the given writers. *)
Inductive reachable (users0 : list PublicKey) : world -> Prop :=
| reachable_initial : reachable users0 (initial users0)
| reachable_step w e w' : reachable users0 w -> step w e w' -> reachable users0 w'.

(** ** The invariant *)

Definition pending_version (p : pending) : nat :=
  match p with Reading v | Read v _ => v end.

Record coherent (w : world) : Prop := {
  coherent_count : writerMutationsInFlight (w_cache w) = Z.of_nat (size (w_mutations w));
  coherent_cache keys : cachedWriterKeys (w_cache w) = Some keys ->
    w_mutations w = ∅ /\ keys = w_users w;
  coherent_version r p : w_readers w !! r = Some p ->
    pending_version p <= writerKeysVersion (w_cache w);
  coherent_read r v fetched : w_readers w !! r = Some (Read v fetched) ->
    v = writerKeysVersion (w_cache w) -> w_mutations w = ∅ -> fetched = w_users w;
}.

Lemma initial_coherent users : coherent (initial users).
Proof.
  split; simpl; [done|done| |]; intros *; rewrite lookup_empty; done.
Qed.

(** A mutation bumps the version, so nothing that was read before it still counts. *)
Lemma coherent_bump w c users muts :
  coherent w ->
  cachedWriterKeys c = None -> writerKeysVersion (w_cache w) < writerKeysVersion c ->
  writerMutationsInFlight c = Z.of_nat (size muts) ->
  coherent (mk_world c users muts (w_readers w)).
Proof.
  intros [_ _ Hv _] Hc Hlt Hn. split; simpl; [done|by rewrite Hc| |].
  - intros r p Hr. specialize (Hv r p Hr). lia.
  - intros r v fetched Hr ->. specialize (Hv r _ Hr). simpl in Hv. lia.
Qed.

(** Replacing, adding or removing one call under way. *)
Lemma coherent_readers w rs :
  coherent w ->
  (forall r p, rs !! r = Some p -> w_readers w !! r = Some p \/
     pending_version p = writerKeysVersion (w_cache w) /\
     (forall v fetched, p = Read v fetched -> w_mutations w = ∅ -> fetched = w_users w) \/
     exists v, w_readers w !! r = Some (Reading v) /\ p = Read v (w_users w)) ->
  coherent (mk_world (w_cache w) (w_users w) (w_mutations w) rs).
Proof.
  intros [Hn Hc Hv Hr] H. split; simpl; [done|done| |].
  - intros r p Hp. destruct (H r p Hp) as [?|[[-> _]|(v & ? & ->)]]; [eauto|done|].
    by apply (Hv r (Reading v)).
  - intros r v fetched Hp. destruct (H r _ Hp) as [?|[[_ ?]|(v' & ? & [= -> ->])]]; eauto.
Qed.

Lemma start_hit c keys : getWriterKeys_start c = Hit keys ->
  cachedWriterKeys c = Some keys /\ writerMutationsInFlight c = 0%Z.
Proof.
  unfold getWriterKeys_start. destruct (cachedWriterKeys c); [|done].
  destruct (Z.eqb_spec (writerMutationsInFlight c) 0); [|done]. by intros [= ->].
Qed.

Lemma start_await c v : getWriterKeys_start c = Await v -> v = writerKeysVersion c.
Proof. unfold getWriterKeys_start. repeat case_match; intros; simplify_eq; done. Qed.

Lemma resume_cases v fetched c c' o : getWriterKeys_resume v fetched c = (c', o) ->
  v = writerKeysVersion c /\ writerMutationsInFlight c = 0%Z /\ o = Some fetched /\
    c' = mk_cache (Some fetched) (writerKeysVersion c) (writerMutationsInFlight c) \/
  v <> writerKeysVersion c /\ o = None /\ c' = c \/
  v = writerKeysVersion c /\ writerMutationsInFlight c <> 0%Z /\ o = Some fetched /\ c' = c.
Proof.
  unfold getWriterKeys_resume.
  destruct (Nat.eqb_spec (writerKeysVersion c) v), (Z.eqb_spec (writerMutationsInFlight c) 0);
    simpl; intros [= <- <-]; naive_solver.
Qed.

Lemma step_coherent w e w' : coherent w -> step w e w' -> coherent w'.
Proof.
  intros Hw Hstep. pose proof (coherent_count _ Hw) as Hn.
  destruct Hstep as [w i Hi|w i users Hi|w i Hi|w users|w r keys Hr Hs|w r v Hr Hs|w r v Hr
    |w r v fetched c keys Hr Hs|w r v fetched c keys Hr Hs Hs2|w r v fetched c v' Hr Hs Hs2].
  - apply coherent_bump; simpl; [done..|lia|]. rewrite size_union by set_solver.
    rewrite size_singleton. lia.
  - destruct Hw as [_ Hc Hv Hrd]. split; simpl; [done| |done|].
    + intros keys Hk. destruct (Hc keys Hk). set_solver.
    + set_solver.
  - apply coherent_bump; simpl; [done..|lia|].
    rewrite size_difference by set_solver. rewrite size_singleton.
    assert (size (w_mutations w) <> 0) by (apply size_non_empty_iff; set_solver). lia.
  - apply coherent_bump; simpl; [done..|lia|]. lia.
  - done.
  - apply coherent_readers; [done|]. intros r' p Hp. apply lookup_insert_Some in Hp as [[<- <-]|[_ ?]]; [|eauto].
    right. left. split; [by apply start_await|done].
  - apply coherent_readers; [done|]. intros r' p Hp. apply lookup_insert_Some in Hp as [[<- <-]|[_ ?]]; [|eauto].
    right. right. eauto.
  - assert (Hd : coherent (mk_world (w_cache w) (w_users w) (w_mutations w) (delete r (w_readers w)))).
    { apply coherent_readers; [done|]. intros r' p [_ ?]%lookup_delete_Some. eauto. }
    apply resume_cases in Hs as [(-> & H0 & [= ->] & ->)|[(_ & ? & _)|(_ & _ & _ & ->)]]; [|done|done].
    destruct Hd as [Hn' _ Hv' Hr']. split; simpl in *; [done| |done|done].
    intros ? [= <-]. assert (w_mutations w = ∅) as E by (apply leibniz_equiv, size_empty_inv; lia).
    split; [done|]. by eapply (coherent_read _ Hw).
  - apply resume_cases in Hs as [(_ & _ & ? & _)|[(_ & _ & ->)|(_ & _ & ? & _)]]; [done| |done].
    apply coherent_readers; [done|]. intros r' p [_ ?]%lookup_delete_Some. eauto.
  - apply resume_cases in Hs as [(_ & _ & ? & _)|[(_ & _ & ->)|(_ & _ & ? & _)]]; [done| |done].
    apply coherent_readers; [done|]. intros r' p Hp. apply lookup_insert_Some in Hp as [[<- <-]|[_ ?]]; [|eauto].
    right. left. split; [by apply start_await|done].
Qed.

Lemma reachable_coherent users0 w : reachable users0 w -> coherent w.
Proof. induction 1; [apply initial_coherent|by eapply step_coherent]. Qed.

(** ** What a call returns *)

(** The lists the ACL has held since a mutation last began or ended. *)
Inductive history (users0 : list PublicKey) : world -> list (list PublicKey) -> Prop :=
| history_initial : history users0 (initial users0) [users0]
| history_step w e w' h : history users0 w h -> step w e w' ->
    history users0 w'
      (if decide (writerKeysVersion (w_cache w') = writerKeysVersion (w_cache w))
       then w_users w' :: h else [w_users w']).

Lemma history_reachable users0 w h : history users0 w h -> reachable users0 w.
Proof. induction 1; [constructor|by eapply reachable_step]. Qed.

Record seen (w : world) (h : list (list PublicKey)) : Prop := {
  seen_users : w_users w ∈ h;
  seen_quiet x : w_mutations w = ∅ -> x ∈ h -> x = w_users w;
  seen_read r v fetched : w_readers w !! r = Some (Read v fetched) ->
    v = writerKeysVersion (w_cache w) -> fetched ∈ h;
}.

Lemma seen_bump w' : coherent w' ->
  (forall r p, w_readers w' !! r = Some p -> pending_version p < writerKeysVersion (w_cache w')) ->
  seen w' [w_users w'].
Proof.
  intros Hc Hv. split; [by left|by intros x _ ->%list_elem_of_singleton|].
  intros r v fetched Hr ->. specialize (Hv r _ Hr). simpl in Hv. lia.
Qed.

Lemma resume_version v fetched c c' o :
  getWriterKeys_resume v fetched c = (c', o) -> writerKeysVersion c' = writerKeysVersion c.
Proof. intros [(_ & _ & _ & ->)|[(_ & _ & ->)|(_ & _ & _ & ->)]]%resume_cases; done. Qed.

(** The steps of readers leave what the ACL holds and the version alone. *)
Lemma seen_readers w c rs h :
  seen w h -> writerKeysVersion c = writerKeysVersion (w_cache w) ->
  (forall r v fetched, rs !! r = Some (Read v fetched) ->
     w_readers w !! r = Some (Read v fetched) \/ fetched = w_users w) ->
  seen (mk_world c (w_users w) (w_mutations w) rs) (w_users w :: h).
Proof.
  intros [Hu Hq Hr] Hv H. split; simpl.
  - by left.
  - intros x He [->|Hx]%elem_of_cons; [done|by apply Hq].
  - intros r v fetched Hrs ->. destruct (H _ _ _ Hrs) as [Hw| ->]; [|by left].
    right. by eapply Hr.
Qed.

Lemma history_seen users0 w h : history users0 w h -> seen w h.
Proof.
  induction 1 as [|w e w' h Hh IH Hstep].
  { split; simpl; [by left|by intros x _ ->%list_elem_of_singleton|].
    intros *. by rewrite lookup_empty. }
  pose proof (reachable_coherent _ _ (history_reachable _ _ _ Hh)) as Hc.
  pose proof (step_coherent _ _ _ Hc Hstep) as Hc'. pose proof (coherent_version _ Hc) as Hver.
  destruct Hstep as [w i Hi|w i users Hi|w i Hi|w users|w r keys Hr Hs|w r v Hr Hs|w r v Hr
    |w r v fetched c keys Hr Hs|w r v fetched c keys Hr Hs Hs2|w r v fetched c v' Hr Hs Hs2];
    try (rewrite decide_False by (simpl; lia); apply seen_bump; [done|];
         intros r p Hp; specialize (Hver r p Hp); simpl; lia);
    (rewrite decide_True by (simpl; by rewrite ?(resume_version _ _ _ _ _ Hs))).
  - destruct IH as [Hu Hq Hr]. split; simpl; [by left|set_solver|].
    intros r v fetched Hrd Hv. right. by eapply Hr.
  - destruct w. apply (seen_readers _ _ _ _ IH); eauto.
  - apply (seen_readers _ _ _ _ IH); [done|].
    intros r' v' f [[_ ?]|[_ ?]]%lookup_insert_Some; [done|eauto].
  - apply (seen_readers _ _ _ _ IH); [done|].
    intros r' v' f [[_ [= _ <-]]|[_ ?]]%lookup_insert_Some; eauto.
  - apply (seen_readers _ _ _ _ IH); [by eapply resume_version|].
    intros r' v' f [_ ?]%lookup_delete_Some. eauto.
  - apply (seen_readers _ _ _ _ IH); [by eapply resume_version|].
    intros r' v' f [_ ?]%lookup_delete_Some. eauto.
  - apply (seen_readers _ _ _ _ IH); [by eapply resume_version|].
    intros r' v'' f [[_ ?]|[_ ?]]%lookup_insert_Some; [done|eauto].
Qed.

(** However reads, additions, removals and merges of writers interleave, a call of
    [_getWriterKeys] returns a list that the ACL has held since a mutation last
    began or ended, and with no mutation under way exactly the current list: a
    signature is never checked against a list from before a completed change. *)
Theorem writer_keys_fresh users0 w h r keys w' :
  history users0 w h -> step w (Returned r keys) w' ->
  keys ∈ h /\ (w_mutations w = ∅ -> keys = w_users w).
Proof.
  intros Hh Hstep. destruct (history_seen _ _ _ Hh) as [Hu Hq Hr].
  pose proof (reachable_coherent _ _ (history_reachable _ _ _ Hh)) as Hc.
  enough (Hin : keys ∈ h) by (split; [done|]; intros; by apply Hq).
  assert (Hhit : forall k, getWriterKeys_start (w_cache w) = Hit k -> k ∈ h).
  { intros k [Hk _]%start_hit. by destruct (coherent_cache _ Hc _ Hk) as [_ ->]. }
  inversion Hstep; subst; [by apply Hhit| |].
  - match goal with H : getWriterKeys_resume _ _ _ = _ |- _ =>
      apply resume_cases in H as [(? & _ & [= ->] & _)|[(_ & ? & _)|(? & _ & [= ->] & _)]] end;
      [by eapply Hr|done|by eapply Hr].
  - match goal with H : getWriterKeys_resume _ _ _ = _ |- _ =>
      apply resume_cases in H as [(_ & _ & ? & _)|[(_ & _ & ->)|(_ & _ & ? & _)]] end;
      [done|by apply Hhit|done].
Qed.

(** The whole loop of a call during which nothing else runs. *)
Fixpoint getWriterKeys (fuel : nat) (users : list PublicKey) (c : cache)
    : result (cache * list PublicKey) :=
  match fuel with
  | 0 => Err OutOfFuel
  | S fuel' =>
      match getWriterKeys_start c with
      | Hit keys => Ok (c, keys)
      | Await v =>
          match getWriterKeys_resume v users c with
          | (c', Some keys) => Ok (c', keys)
          | (c', None) => getWriterKeys fuel' users c'
          end
      end
  end.

(** One pass is enough when nothing interferes, and it returns the ACL's list. *)
Lemma getWriterKeys_quiet users0 w fuel :
  reachable users0 w -> w_mutations w = ∅ ->
  exists c, getWriterKeys (S fuel) (w_users w) (w_cache w) = Ok (c, w_users w).
Proof.
  intros Hw%reachable_coherent He. simpl.
  destruct (getWriterKeys_start (w_cache w)) as [keys|v] eqn:Es.
  - apply start_hit in Es as [Hk _]. destruct (coherent_cache _ Hw _ Hk) as [_ ->]. eauto.
  - apply start_await in Es as ->.
    destruct (getWriterKeys_resume _ _ _) as [c' o] eqn:E.
    apply resume_cases in E as [(_ & _ & -> & _)|[(? & _)|(_ & _ & -> & _)]]; eauto. done.
Qed.
End Cache.

(** ** The checks of a writer's signature *)

Section Verify.
  Context {PublicKey : Type} `{Wire.Base64}.
  (** [_authProvider.verify], which may reject, and the order in which the
      concurrent checks settle. *)
  Context (verify : bytes -> PublicKey -> bytes -> result bool)
    (settle : list (result bool) -> list (result bool)).

Definition verifyWriterSignature (isSigningEnabled : bool) (writerKeys : list PublicKey)
    (raw : bytes) (signature : string) : result bool :=
  if negb isSigningEnabled then Ok true
  else if length writerKeys =? 0 then Ok false
  else match Wire.toUint8Array signature with
       | None => Ok false
       | Some signatureBytes =>
           Utils.firstTrue (settle (map (fun k => verify raw k signatureBytes) writerKeys))
       end.

Definition verifySnapshotSignature (isSigningEnabled : bool) (writerKeys : list PublicKey)
    (payload signature : bytes) : result bool :=
  if negb isSigningEnabled then Ok true
  else Utils.firstTrue (settle (map (fun k => verify payload k signature) writerKeys)).

Definition verifyWelcomeWriterSignature (writerKeys : list PublicKey)
    (raw : bytes) (signature : string) : result bool :=
  if length writerKeys =? 0 then Ok false
  else match Wire.toUint8Array signature with
       | None => Ok false
       | Some signatureBytes =>
           Utils.firstTrue (settle (map (fun k => verify raw k signatureBytes) writerKeys))
       end.

(** When the checks themselves do not reject, the race decides whether some key
    verifies, whatever the order in which the checks settle. *)
Lemma firstTrue_keys keys raw sig (f : PublicKey -> bool) :
  (forall l, settle l ≡ₚ l) ->
  (forall k, k ∈ keys -> verify raw k sig = Ok (f k)) ->
  Utils.firstTrue (settle (map (fun k => verify raw k sig) keys)) = Ok (existsb f keys).
Proof.
  intros Hp Hf. assert (Hm : map (fun k => verify raw k sig) keys = map Ok (map f keys)).
  { rewrite map_map. apply map_ext_in. intros k ?%list_elem_of_In. by apply Hf. }
  rewrite Hm. destruct (Permutation_map_inv _ _ (Hp (map Ok (map f keys)))) as (l & -> & Hl).
  change (map Ok l) with (Ok <$> l). rewrite (Utils.firstTrue_exists (map f keys)) by by symmetry.
  f_equal. clear. induction keys as [|k keys IH]; simpl; [done|]. by rewrite IH.
Qed.

(** The three checks, when the provider answers: with signing disabled everything
    but a welcome passes; otherwise a signature passes exactly when it decodes and
    some writer key verifies it, so an empty writer list accepts nothing. The
    order in which the concurrent verifications settle does not matter. *)
Theorem signature_checks_exact enabled keys raw signature sigBytes (valid : bytes -> PublicKey -> bytes -> bool) :
  (forall l, settle l ≡ₚ l) ->
  (forall m k s, verify m k s = Ok (valid m k s)) ->
  verifyWriterSignature enabled keys raw signature =
    Ok (negb enabled || match Wire.toUint8Array signature with
                        | Some s => existsb (fun k => valid raw k s) keys | None => false end) /\
  verifyWelcomeWriterSignature keys raw signature =
    Ok (match Wire.toUint8Array signature with
        | Some s => existsb (fun k => valid raw k s) keys | None => false end) /\
  verifySnapshotSignature enabled keys raw sigBytes =
    Ok (negb enabled || existsb (fun k => valid raw k sigBytes) keys).
Proof.
  intros Hp Hv.
  assert (Hf : forall s, Utils.firstTrue (settle (map (fun k => verify raw k s) keys))
                         = Ok (existsb (fun k => valid raw k s) keys))
    by (intros; by apply (firstTrue_keys keys raw s (fun k => valid raw k s))).
  unfold verifyWriterSignature, verifyWelcomeWriterSignature, verifySnapshotSignature.
  destruct (Nat.eqb_spec (length keys) 0) as [->%length_zero_iff_nil|_].
  - rewrite Hf. by destruct enabled, (Wire.toUint8Array signature).
  - rewrite Hf. destruct enabled, (Wire.toUint8Array signature); simpl; by rewrite ?Hf.
Qed.
End Verify.

(** ** Witnesses *)

(** A reader starts, reads [[1]], a merge adds a writer, the reader tries again. *)
Lemma writer_keys_fresh_witness :
  exists h (w w' : @world nat), history [1] w h /\ step w (Returned 0 [1; 2]) w' /\
    [1; 2] ∈ h /\ (w_mutations w = ∅ -> [1; 2] = w_users w).
Proof.
  pose proof (history_initial [1]) as H.
  eapply history_step in H; [|by apply (step_miss _ 0)]. cbn in H.
  eapply history_step in H; [|by eapply (step_read _ 0)]. cbn in H.
  eapply history_step in H; [|by apply (step_merge _ [1; 2])]. cbn in H.
  eapply history_step in H; [|by eapply (step_retry_miss _ 0)]. cbn in H.
  eapply history_step in H; [|by eapply (step_read _ 0)]. cbn in H.
  match type of H with history _ ?w _ =>
    assert (Hs : exists w', step w (Returned 0 [1; 2]) w') by (eexists; by eapply (step_return _ 0))
  end.
  destruct Hs as [w' Hs]. eexists _, _, w'. split; [exact H|]. split; [exact Hs|].
  exact (writer_keys_fresh _ _ _ _ _ _ H Hs).
Defined.

#[local] Existing Instance Wire.latin1.

Lemma signature_checks_exact_witness :
  verifyWriterSignature (fun _ k s => Ok (bool_decide (s = [k]))) (@rev _) true [Init.Byte.x01; Init.Byte.x02] []
    (Wire.fromUint8Array [Init.Byte.x02]) = Ok true /\
  verifyWriterSignature (fun _ k s => Ok (bool_decide (s = [k]))) (@rev _) true [Init.Byte.x01; Init.Byte.x02] []
    (Wire.fromUint8Array [Init.Byte.x03]) = Ok false.
Proof.
  split.
  - refine (proj1 (signature_checks_exact (fun _ k s => Ok (bool_decide (s = [k]))) (@rev _) true
      [Init.Byte.x01; Init.Byte.x02] [] (Wire.fromUint8Array [Init.Byte.x02]) []
      (fun _ k s => bool_decide (s = [k])) _ _)); [intros l; symmetry; apply Permutation_rev|done].
  - refine (proj1 (signature_checks_exact (fun _ k s => Ok (bool_decide (s = [k]))) (@rev _) true
      [Init.Byte.x01; Init.Byte.x02] [] (Wire.fromUint8Array [Init.Byte.x03]) []
      (fun _ k s => bool_decide (s = [k])) _ _)); [intros l; symmetry; apply Permutation_rev|done].
Defined.

End WriterCache.
