(* ===== verification/Document.v ===== *)
(** * The document

    Models the core of [packages/collabswarm/src/collabswarm-document.ts]: the
    fields of [CollabswarmDocument], its blocks, the authoring of a change, the
    merge of a remote message, snapshots with compaction and garbage collection,
    transactions, and the lists of writers and readers.

    The CRDT, the access-control list, the keychain and the serializers are the
    interfaces the constructor takes; they are classes here, and so are the laws of
    theirs that a theorem needs. A method is an [eff] on the fields and runs from
    its call to its end without interleaving; the one place where the code starts
    several operations and lets them finish in any order, the fetch of missing
    blocks, takes that order as an argument. Blocks, published messages and calls
    of handlers are fields of the state, so that theorems can speak of them. The
    nonce, signature and clock draws are numbered by the field [_draws]. *)
From stdpp Require Import base numbers list list_numbers strings.
From Stdlib Require Import ZArith Lia.
From S2P Require Import Prelude TipsHash Utils Wire ChangeTree Auth WriterCache.

Open Scope string_scope.
Open Scope list_scope.
Open Scope nat_scope.

Module Document.
Import ChangeTree.

(** ** The interfaces a document is built from *)

(** [CRDTProvider]; [getSnapshot] and [applySnapshot] are optional methods. A provider may
    return a new document, as Automerge does, or change the one it is given and return it,
    as Yjs does: [localMutated] is what the given document object is once [localChange] has
    run on it, whether that returned or threw. A [remoteChange] that throws is taken to leave
    the document as it was. *)
Class CRDTProvider (DocType ChangesType ChangeFnType : Type) := {
  newDocument : DocType;
  localChange : DocType -> string -> ChangeFnType -> result (DocType * ChangesType);
  localMutated : DocType -> string -> ChangeFnType -> DocType;
  remoteChange : DocType -> ChangesType -> result DocType;
  getSnapshot : option (DocType -> result ChangesType);
  applySnapshot : option (DocType -> ChangesType -> result DocType);
}.

(** [ACLProvider] and [ACL] *)
Class ACLProvider (ACL ChangesType PublicKey : Type) := {
  acl_initialize : ACL;
  acl_add : ACL -> PublicKey -> result (ACL * ChangesType);
  acl_remove : ACL -> PublicKey -> result (ACL * ChangesType);
  acl_merge : ACL -> ChangesType -> result ACL;
  acl_check : ACL -> PublicKey -> result bool;
  acl_users : ACL -> result (list PublicKey);
}.

(** [KeychainProvider] and [Keychain]; [add] takes the number of the draw. *)
Class KeychainProvider (Keychain ChangesType DocumentKey : Type) := {
  kc_initialize : Keychain;
  keyIDLength : nat;
  kc_add : nat -> Keychain -> result (Keychain * (bytes * DocumentKey * ChangesType));
  kc_history : Keychain -> ChangesType;
  kc_merge : Keychain -> ChangesType -> result Keychain;
  kc_keys : Keychain -> result (list (bytes * DocumentKey));
  kc_current : Keychain -> result (bytes * option DocumentKey);
  kc_getKey : Keychain -> bytes -> result (option DocumentKey);
  kc_currentKeyChange : Keychain -> result ChangesType;
  kc_addEpochKey : Keychain -> bytes -> DocumentKey -> result (Keychain * ChangesType);
  kc_historySince : option (Keychain -> bytes -> result ChangesType);
}.

(** [CRDTSnapshotNode]; its [publicKey] is written by [snapshot] and read by nobody,
    so it is left out. *)
Record CRDTSnapshotNode (ChangesType : Type) := Snapshot {
  s_state : ChangesType;
  lastChangeNodeCID : string;
  compactedCount : Z;
  s_signature : bytes;
  timestamp : Z;
}.
Arguments Snapshot {_} _ _ _ _ _.
Arguments s_state {_} _.
Arguments lastChangeNodeCID {_} _.
Arguments compactedCount {_} _.
Arguments s_signature {_} _.
Arguments timestamp {_} _.

(** [CRDTSyncMessage] *)
Record CRDTSyncMessage (ChangesType : Type) := SyncMessage {
  documentId : string;
  changeId : option string;
  changes : option (CRDTChangeNode ChangesType);
  snapshot_ : option (CRDTSnapshotNode ChangesType);
  keychainChanges : option ChangesType;
  welcomeEpochId : option bytes;
  welcomeRecipient : option string;
  welcomeRecipientKemPublicKey : option bytes;
  eciesSealed : option bytes;
  pathUpdate : option Wire.jsval;
  pathUpdateEpochId : option bytes;
  tipsHash : option bytes;
  tips : option (list string);
  signature : option string;
}.
Arguments SyncMessage {_} _ _ _ _ _ _ _ _ _ _ _ _ _ _.
Arguments documentId {_} _.
Arguments changeId {_} _.
Arguments changes {_} _.
Arguments snapshot_ {_} _.
Arguments keychainChanges {_} _.
Arguments welcomeEpochId {_} _.
Arguments welcomeRecipient {_} _.
Arguments welcomeRecipientKemPublicKey {_} _.
Arguments eciesSealed {_} _.
Arguments pathUpdate {_} _.
Arguments pathUpdateEpochId {_} _.
Arguments tipsHash {_} _.
Arguments tips {_} _.
Arguments signature {_} _.

#[export] Instance settable_message {C} : Settable (CRDTSyncMessage C) :=
  fun m => SyncMessage (documentId m) (changeId m) (changes m) (snapshot_ m) (keychainChanges m)
    (welcomeEpochId m) (welcomeRecipient m) (welcomeRecipientKemPublicKey m) (eciesSealed m)
    (pathUpdate m) (pathUpdateEpochId m) (tipsHash m) (tips m) (signature m).

(** [{ documentId }] *)
Definition empty_message {C} (documentPath : string) : CRDTSyncMessage C :=
  SyncMessage documentPath None None None None None None None None None None None None None.

(** [SyncMessageSerializer], [ChangesSerializer] and [LoadMessageSerializer] *)
Class Serializers (ChangesType : Type) := {
  serializeChanges : ChangesType -> result bytes;
  deserializeChanges : bytes -> result ChangesType;
  serializeSyncMessage : CRDTSyncMessage ChangesType -> result bytes;
  deserializeSyncMessage : bytes -> result (CRDTSyncMessage ChangesType);
}.

(** [CompactionConfig] *)
Record CompactionConfig := Compaction {
  enabled : bool;
  snapshotInterval : Z;
  minChangesBeforeSnapshot : Z;
  pruneAfterSnapshot : bool;
  gcAfterPrune : bool;
  keepRecentNodes : Z;
}.

Inductive HistoryVisibility : Type := current_only | full_history | since_invited.

(** A string that is present and not empty, as a condition. *)
Definition truthy (s : option string) : option string :=
  match s with Some "" => None | _ => s end.

(** ** State *)

Section Document.
  Context {DocType ChangesType ChangeFnType PublicKey DocumentKey ACL Keychain Group : Type}.

(** What leaves the document. *)
Inductive event : Type :=
| Published (data : bytes)
| Notified (id : string) (hashes : list string)
| BlockDeleted (cid : string)
| DrainScheduled
| Registered
| Unregistered
| TopicSubscribed
| TopicUnsubscribed
| Sent (protocol : string) (peer : string) (payload : bytes).

Definition handler : Type :=
  DocType -> list PublicKey -> list PublicKey -> list string -> result unit.

Record doc := mk_doc {
  _document : DocType;
  _readers : ACL;
  _writers : ACL;
  _keychain : Keychain;
  _historyVisibility : HistoryVisibility;
  _invitationEpoch : option bytes;
  _pendingWelcomes : list (string * (CRDTSyncMessage ChangesType * Z));
  _group : Group;                      (** the BeeKEM fields *)
  _lastSyncMessage : option (CRDTSyncMessage ChangesType);
  _hashes : list string;
  _referencedAncestors : list string;
  _recentTips : list RecentTip;
  _latestSnapshot : option (CRDTSnapshotNode ChangesType);
  _changesSinceSnapshot : Z;
  _compactionInProgress : bool;
  _snapshotUnsupported : bool;
  _documentChangeCount : Z;
  _pubsubHandler : bool;               (** whether a handler is installed *)
  _subscribed : bool;
  _pendingChangeFns : list ChangeFnType;
  _inTransaction : bool;
  _committing : bool;
  _remoteHandlers : list (string * handler);
  _localHandlers : list (string * handler);
  _blocks : list (string * bytes);     (** the local blockstore *)
  _events : list event;
  _draws : nat;
}.

#[export] Instance settable_doc : Settable doc :=
  fun s => mk_doc (_document s) (_readers s) (_writers s) (_keychain s) (_historyVisibility s)
    (_invitationEpoch s) (_pendingWelcomes s) (_group s) (_lastSyncMessage s) (_hashes s)
    (_referencedAncestors s) (_recentTips s) (_latestSnapshot s) (_changesSinceSnapshot s)
    (_compactionInProgress s) (_snapshotUnsupported s) (_documentChangeCount s)
    (_pubsubHandler s) (_subscribed s) (_pendingChangeFns s) (_inTransaction s) (_committing s) (_remoteHandlers s)
    (_localHandlers s) (_blocks s) (_events s) (_draws s).

  Context `{!CRDTProvider DocType ChangesType ChangeFnType, !ACLProvider ACL ChangesType PublicKey,
    !KeychainProvider Keychain ChangesType DocumentKey, !Serializers ChangesType,
    !AuthProvider DocumentKey, !Wire.Base64}.

(** The constructor's arguments and the configuration. *)
Record config := mk_config {
  documentPath : string;
  userPublicKey : PublicKey;
  enableSigning : bool;               (** [enableSigning !== false] *)
  compactionConfig : CompactionConfig;
  sign : nat -> bytes -> result bytes;      (** with the user's private key *)
  verify : bytes -> PublicKey -> bytes -> result bool;
  settle : list (result bool) -> list (result bool);
  now : nat -> Z;                     (** [Date.now()] *)
  addBytes : bytes -> result string;  (** UnixFS: stores a block, returns its CID *)
  cid_parse : string -> result string;
  remoteBlock : string -> result bytes;     (** a block that another peer provides *)
  pubsub_publish : bytes -> result unit;
  pins_rm : string -> result unit;
  blockstore_delete : string -> result unit;
  compose : list ChangeFnType -> ChangeFnType;  (** run the functions one after the other *)
}.

  Context (cfg : config).

Abbreviation method := (eff doc).

Definition emit (e : event) : method unit := modify (fun s => s <| _events := _events s ++ [e] |>).

(** A fresh nonce, signature or clock reading. *)
Definition draw : method nat :=
  let! s := get in
  let! _ := modify (fun s => s <| _draws := S (_draws s) |>) in
  ret (_draws s).

(** The state of a document that was just constructed. *)
Definition new_doc (group : Group) (blocks : list (string * bytes)) : doc :=
  mk_doc newDocument acl_initialize acl_initialize kc_initialize current_only None [] group
    None [] [] [] None 0%Z false false 0%Z false false [] false false [] [] blocks [] 0.

(** ** Encrypted frames: [keyID ‖ nonce ‖ ciphertext] *)

Definition frame (keyID nonce data : bytes) : result bytes := Utils.concatUint8Arrays [keyID; nonce; data].

(** [slice(0, keyIDLength)], [slice(keyIDLength, keyIDLength + nonceBits)] and the rest. *)
Definition unframe (block : bytes) : bytes * bytes * bytes :=
  (take keyIDLength block, take nonceBits (drop keyIDLength block),
   drop (keyIDLength + nonceBits) block).

(** [_decryptBlock]: a keychain error is swallowed, a failed decryption is not, as it
    happens after the [try] has returned the promise. *)
Definition decryptBlock (blockKeyID nonce data : bytes) : method (option bytes) :=
  let! s := get in
  match kc_getKey (_keychain s) blockKeyID with
  | Ok (Some key) => let! content := lift (decrypt data key nonce) in ret (Some content)
  | Ok None => ret None
  | Err (Throw _) => ret None
  | Err OutOfFuel => lift (Err OutOfFuel)
  end.

(** [blockstore.get]: from the local store, or from a peer. *)
Definition blockstore_get (cid : string) : method bytes :=
  let! s := get in
  match map_get cid (_blocks s) with
  | Some b => ret b
  | None =>
      let! b := lift (remoteBlock cfg cid) in
      let! _ := modify (fun s => s <| _blocks := map_set cid b (_blocks s) |>) in
      ret b
  end.

Definition getBlock (hash : string) : method ChangesType :=
  let! block := blockstore_get hash in
  let '(blockKeyID, blockNonce, blockData) := unframe block in
  let! content := decryptBlock blockKeyID blockNonce blockData in
  match content with
  | None => lift (throw "Failed to decrypt block")
  | Some c => lift (deserializeChanges c)
  end.

(** Encryption under the current key, as [_putBlock], [_makeChange] and the load
    handlers do it. *)
Definition encrypt_current (content : bytes) : method bytes :=
  let! s := get in
  let! cur := lift (kc_current (_keychain s)) in
  match cur.2 with
  | None => lift (throw "Document has an empty keychain!")
  | Some documentKey =>
      let! d := draw in
      let! enc := lift (encrypt d content documentKey) in
      match enc.1 with
      | None => lift (throw "Failed to encrypt! Nonce cannot be empty")
      | Some nonce => lift (frame cur.1 nonce enc.2)
      end
  end.

Definition putBlock (block : ChangesType) : method string :=
  let! s := get in
  let! cur := lift (kc_current (_keychain s)) in
  match cur.2 with
  | None => lift (throw "Document has an empty keychain!")
  | Some documentKey =>
      let! content := lift (serializeChanges block) in
      let! d := draw in
      let! enc := lift (encrypt d content documentKey) in
      match enc.1 with
      | None => lift (throw "Failed to encrypt change block! Nonce cannot be empty")
      | Some nonce =>
          let! blockData := lift (frame cur.1 nonce enc.2) in
          let! cid := lift (addBytes cfg blockData) in
          let! _ := modify (fun s => s <| _blocks := map_set cid blockData (_blocks s) |>) in
          ret cid
      end
  end.

(** ** Handlers, frontiers and messages *)

Definition getWriters : method (list PublicKey) := fun s => (acl_users (_writers s), s).

(** [getReaders]: the readers, and the writers that are not readers. *)
Fixpoint writers_not_reading (readers : ACL) (writers : list PublicKey) : result (list PublicKey) :=
  match writers with
  | [] => Ok []
  | w :: writers' =>
      let? c := acl_check readers w in
      let? rest := writers_not_reading readers writers' in
      Ok (if c then rest else w :: rest)
  end.

Definition getReaders : method (list PublicKey) :=
  fun s => (let? readers := acl_users (_readers s) in
            let? writers := acl_users (_writers s) in
            let? filteredWriters := writers_not_reading (_readers s) writers in
            Ok (readers ++ filteredWriters), s).

Definition fireUpdateHandlers (handlers : list (string * handler)) (hashes : list string) : method unit :=
  for_each (fun _ h =>
    let! s := get in
    let! readers := getReaders in
    let! writers := getWriters in
    let! _ := emit (Notified h.1 hashes) in
    lift (h.2 (_document s) readers writers hashes)) tt handlers.

Definition fireRemoteUpdateHandlers (hashes : list string) : method unit :=
  let! s := get in fireUpdateHandlers (_remoteHandlers s) hashes.

Definition fireLocalUpdateHandlers (hashes : list string) : method unit :=
  let! s := get in fireUpdateHandlers (_localHandlers s) hashes.

Inductive originFilter : Type := all | remote | local.

Definition subscribe (id : string) (h : handler) (origin : originFilter) : method unit :=
  modify (fun s =>
    match origin with
    | all => s <| _remoteHandlers := map_set id h (_remoteHandlers s) |>
               <| _localHandlers := map_set id h (_localHandlers s) |>
    | remote => s <| _remoteHandlers := map_set id h (_remoteHandlers s) |>
    | local => s <| _localHandlers := map_set id h (_localHandlers s) |>
    end).

Definition unsubscribe (id : string) : method unit :=
  modify (fun s => s <| _remoteHandlers := map_delete id (_remoteHandlers s) |>
                     <| _localHandlers := map_delete id (_localHandlers s) |>).

(** [_createSyncMessage]: a shallow copy of the last message. *)
Definition createSyncMessage (s : doc) : CRDTSyncMessage ChangesType :=
  default (empty_message (documentPath cfg)) (_lastSyncMessage s).

Definition currentFrontier (s : doc) : list string :=
  List.filter (fun cid => negb (set_has cid (_referencedAncestors s))) (_hashes s).

Definition servedFrontier (s : doc) : list string :=
  computeServedFrontier (_lastSyncMessage s ≫= changeId) (_lastSyncMessage s ≫= changes)
    (lastChangeNodeCID <$> _latestSnapshot s).

Definition trackTip (cid : string) (kind : CRDTChangeNodeKind) (s : doc) : doc :=
  s <| _recentTips := trackTipInList (_recentTips s) (Tip cid kind) MAX_RECENT_TIPS |>.

Definition addHash (h : string) (s : doc) : doc := s <| _hashes := set_add h (_hashes s) |>.

(** [this._documentChangeCount++; this._changesSinceSnapshot++] *)
Definition countChange (s : doc) : doc :=
  s <| _documentChangeCount := (_documentChangeCount s + 1)%Z |>
    <| _changesSinceSnapshot := (_changesSinceSnapshot s + 1)%Z |>.

(** ** Access control *)

(** [_mergeReaders]; the drain of buffered welcomes it starts is not awaited. *)
Definition mergeReaders (c : ChangesType) : method unit :=
  let! s := get in
  let! acl := lift (acl_merge (_readers s) c) in
  let! _ := modify (fun s => s <| _readers := acl |>) in
  when (negb (length (_pendingWelcomes s) =? 0)) (emit DrainScheduled).

(** [_mergeWriters]; its effect on the key cache is in [WriterCache]. *)
Definition mergeWriters (c : ChangesType) : method unit :=
  let! s := get in
  let! acl := lift (acl_merge (_writers s) c) in
  modify (fun s => s <| _writers := acl |>).

(** [_applyACLFromTree] *)
Fixpoint applyACLFromTree (node : CRDTChangeNode ChangesType) : method unit :=
  match node with
  | Node _ kind change children =>
      let! _ := match change, kind with
                | Some c, WriterNode => mergeWriters c
                | Some c, ReaderNode => mergeReaders c
                | _, _ => ret tt
                end in
      match children with
      | Children l =>
          (fix go (l : list (string * CRDTChangeNode ChangesType)) : method unit :=
             match l with
             | [] => ret tt
             | (_, child) :: l' => let! _ := applyACLFromTree child in go l'
             end) l
      | _ => ret tt
      end
  end.

Definition ensureCurrentUserCanWrite : method unit :=
  let! s := get in
  let! ok := lift (acl_check (_writers s) (userPublicKey cfg)) in
  if ok then ret tt else lift (throw "Current user does not have write permissions").

(** [_getWriterKeys], with nothing under way that mutates the writers. *)
Definition getWriterKeys : method (list PublicKey) := fun s => (acl_users (_writers s), s).

Definition verifyWriterSignature (raw : bytes) (sig : string) : method bool :=
  let! keys := getWriterKeys in
  lift (WriterCache.verifyWriterSignature (verify cfg) (settle cfg) (enableSigning cfg) keys raw sig).

Definition verifySnapshotSignature (payload sig : bytes) : method bool :=
  let! keys := getWriterKeys in
  lift (WriterCache.verifySnapshotSignature (verify cfg) (settle cfg) (enableSigning cfg) keys payload sig).

(** [_signAsWriterUnconditional]: the signature covers the message without it. *)
Definition signAsWriterUnconditional (m : CRDTSyncMessage ChangesType) : method string :=
  let! raw := lift (serializeSyncMessage (m <| signature := None |>)) in
  let! d := draw in
  let! rawSignature := lift (sign cfg d raw) in
  ret (Wire.fromUint8Array rawSignature).

Definition signAsWriter (m : CRDTSyncMessage ChangesType) : method string :=
  if negb (enableSigning cfg) then ret "" else signAsWriterUnconditional m.

(** ** The payload a snapshot's author signs *)

(** [DataView.setBigUint64(off, z, false)] *)
Definition be64 (z : Z) : bytes := be32 (z / 2 ^ 32) ++ be32 z.

Definition buildSnapshotSignPayload (stateBytes : bytes) (cid : string) (ts count : Z) : result bytes :=
  if (ts <? 0)%Z || (MAX_SAFE_INTEGER <? ts)%Z then throw "Invalid snapshot timestamp"
  else if (count <? 0)%Z || (2 ^ 32 - 1 <? count)%Z then throw "Invalid snapshot compactedCount"
  else
    let cidBytes := TipsHash.utf8_encode cid in
    if (2 ^ 32 - 1 <? Z.of_nat (length cidBytes))%Z then throw "lastChangeNodeCID too large"
    else if (2 ^ 32 - 1 <? Z.of_nat (length stateBytes))%Z then throw "Snapshot state too large"
    else Ok ([byte_of_Z 1] ++ be64 ts ++ be32 count ++
             be32 (Z.of_nat (length cidBytes)) ++ cidBytes ++
             be32 (Z.of_nat (length stateBytes)) ++ stateBytes).

(** ** Pruning the change tree *)

Abbreviation node := (CRDTChangeNode ChangesType).

Definition isACLNode (n : node) : bool := negb (bool_decide (node_kind n = DocumentNode)).

(** [const { children, ...leafNode } = childNode] *)
Definition leaf_of (n : node) : node := let 'Node k kd c _ := n in Node k kd c NoChildren.

(** [collectACLNodes(n.children, out)]; the state is [out] and [prunedCIDs]. *)
Fixpoint collectACLNodes (n : node) (st : list (string * node) * list string)
    : list (string * node) * list string :=
  match node_children n with
  | Children l =>
      (fix go (l : list (string * node)) (st : list (string * node) * list string) :=
         match l with
         | [] => st
         | (childHash, childNode) :: l' =>
             let st := if isACLNode childNode then (map_set childHash (leaf_of childNode) st.1, st.2)
                       else (st.1, set_add childHash st.2) in
             go l' (collectACLNodes childNode st)
         end) l st
  | _ => st
  end.

(** The breadth-first walk. A node in the queue carries its path from the root, and
    [cuts] lists the nodes whose [children] field is assigned, with its new value. *)
Fixpoint prune_loop (fuel : nat) (keepCount : Z) (queue : list (list string * node))
    (documentNodesVisited : Z) (cuts : list (list string * list (string * node)))
    (prunedCIDs : list string) : result (list (list string * list (string * node)) * list string) :=
  match fuel, queue with
  | _, [] => Ok (cuts, prunedCIDs)
  | 0, _ => Err OutOfFuel
  | S fuel', (path, current) :: queue' =>
      let visited := if isACLNode current then documentNodesVisited else (documentNodesVisited + 1)%Z in
      match node_children current with
      | Children l =>
          if negb (isACLNode current) && (keepCount <=? visited)%Z then
            let '(preservedACL, prunedCIDs) := collectACLNodes current ([], prunedCIDs) in
            prune_loop fuel' keepCount queue' visited (map_set path preservedACL cuts) prunedCIDs
          else
            prune_loop fuel' keepCount (queue' ++ map (fun c => (path ++ [c.1], c.2)) l)
              visited cuts prunedCIDs
      | _ => prune_loop fuel' keepCount queue' visited cuts prunedCIDs
      end
  end.

(** The tree after the assignments; an empty replacement deletes the field. *)
Fixpoint apply_cuts (cuts : list (list string * list (string * node))) (path : list string) (n : node) : node :=
  match n with
  | Node k kd c children =>
      match map_get path cuts with
      | Some acl => Node k kd c (match acl with [] => NoChildren | _ => Children acl end)
      | None =>
          Node k kd c
            match children with
            | Children l => Children (map (fun x => (x.1, apply_cuts cuts (path ++ [x.1]) x.2)) l)
            | ch => ch
            end
      end
  end.

(** [_pruneChanges] on a tree: the tree it leaves, and the CIDs it dropped. *)
Definition pruneTree (keepCount : Z) (root : node) : result (node * list string) :=
  let? r := prune_loop (tree_size root) keepCount [([], root)] 0 [] [] in
  Ok (apply_cuts r.1 [] root, r.2).

Definition pruneChanges (keepCount : Z) : method (list string) :=
  if (keepCount <=? 0)%Z then ret []
  else
    let! s := get in
    match _lastSyncMessage s with
    | Some m =>
        match changes m, truthy (changeId m) with
        | Some root, Some _ =>
            let! r := lift (pruneTree keepCount root) in
            let! _ := modify (fun s => s <| _lastSyncMessage := Some (m <| changes := Some r.1 |>) |>) in
            ret r.2
        | _, _ => ret []
        end
    | None => ret []
    end.

(** [msg.includes(sub)] *)
Definition includes (msg sub : string) : bool :=
  match String.index 0 sub msg with Some _ => true | None => false end.

(** [_gcPrunedBlocks]: every block on its own; an error skips that block. It is not
    awaited by its caller. *)
Definition gcBlock (cidStr : string) : method unit :=
  catch
    (let! cid := lift (cid_parse cfg cidStr) in
     let! _ := catch (lift (pins_rm cfg cid))
                 (fun msg => if includes msg "not pinned" || includes msg "is not pinned"
                             then ret tt else lift (throw msg)) in
     let! _ := lift (blockstore_delete cfg cid) in
     let! _ := modify (fun s => s <| _blocks := map_delete cid (_blocks s) |>) in
     emit (BlockDeleted cidStr))
    (fun _ => ret tt).

Definition gcPrunedBlocks (prunedCIDs : list string) : method unit :=
  for_each (fun _ cid => gcBlock cid) tt prunedCIDs.

(** ** Snapshots *)

(** The part of [snapshot] that prunes the tree and collects the dropped blocks. *)
Definition compactAfterSnapshot (cid : string) : method unit :=
  let! s := get in
  if bool_decide (is_Some (_lastSyncMessage s)) && pruneAfterSnapshot (compactionConfig cfg) then
    let! prunedCIDs := pruneChanges (keepRecentNodes (compactionConfig cfg)) in
    let! s := get in
    match _lastSyncMessage s ≫= changes, truthy (_lastSyncMessage s ≫= changeId) with
    | Some root, Some rootId =>
        if gcAfterPrune (compactionConfig cfg) && negb (length prunedCIDs =? 0) then
          let protectedCIDs := if String.eqb cid "" then [] else [cid] in
          let! deletable := lift (filterDeletableCIDs prunedCIDs (Some rootId) (Some root) protectedCIDs) in
          gcPrunedBlocks deletable
        else ret tt
    | _, _ => ret tt
    end
  else ret tt.

Definition snapshot : method (option (CRDTSnapshotNode ChangesType)) :=
  let! _ := ensureCurrentUserCanWrite in
  match getSnapshot with
  | None =>
      let! _ := modify (fun s => s <| _snapshotUnsupported := true |>) in ret None
  | Some getSnapshot =>
      let! s := get in
      let! state := lift (getSnapshot (_document s)) in
      let cid := default "" (_lastSyncMessage s ≫= changeId) in
      let! d := draw in
      let ts := now cfg d in
      let count := _documentChangeCount s in
      let! stateBytes := lift (serializeChanges state) in
      let! sig :=
        if enableSigning cfg then
          let! signPayload := lift (buildSnapshotSignPayload stateBytes cid ts count) in
          let! d := draw in
          lift (sign cfg d signPayload)
        else ret [] in
      let snapshotNode := Snapshot state cid count sig ts in
      let! _ := modify (fun s => s <| _latestSnapshot := Some snapshotNode |>
                                   <| _changesSinceSnapshot := 0%Z |>) in
      let! _ := compactAfterSnapshot cid in
      ret (Some snapshotNode)
  end.

(** [_maybeCompact] *)
Definition maybeCompact : method unit :=
  let! s := get in
  if negb (enabled (compactionConfig cfg)) || _snapshotUnsupported s then ret tt
  else if _compactionInProgress s then ret tt
  else if (_documentChangeCount s <? minChangesBeforeSnapshot (compactionConfig cfg))%Z then ret tt
  else if (_changesSinceSnapshot s <? snapshotInterval (compactionConfig cfg))%Z then ret tt
  else
    let! writer := lift (acl_check (_writers s) (userPublicKey cfg)) in
    if negb writer then ret tt
    else
      let! _ := modify (fun s => s <| _compactionInProgress := true |>) in
      finally (let! _ := snapshot in ret tt) (fun s => s <| _compactionInProgress := false |>).

(** ** Authoring a change *)

(** The children of the new node: the previous root, then the cross-links. *)
Definition link_children (s : doc) (hash : string) : children_of node :=
  let updateMessage := createSyncMessage s in
  match truthy (changeId updateMessage), changes updateMessage with
  | Some primaryParentId, Some root =>
      Children
        (foldl (fun children tip =>
                  if map_has (tip_cid tip) children then children
                  else map_set (tip_cid tip) (Node None (tip_kind tip) None NoChildren) children)
           [(primaryParentId, root)]
           (selectCrossLinks (_recentTips s) (changeId updateMessage) hash MAX_CROSS_LINKS))
  | _, _ => NoChildren
  end.

Definition child_keys (ch : children_of node) : list string :=
  match ch with Children l => l.*1 | _ => [] end.

Definition makeChange (c : ChangesType) (kind : CRDTChangeNodeKind) : method unit :=
  let! hash := putBlock c in
  let! _ := modify (addHash hash) in
  let! s := get in
  let children := link_children s hash in
  let changeNode := Node None kind (Some c) children in
  let updateMessage := createSyncMessage s <| changeId := Some hash |> <| changes := Some changeNode |> in
  let! _ := modify (fun s => s <| _referencedAncestors :=
              foldl (flip set_add) (_referencedAncestors s) (child_keys children) |>) in
  let! _ := modify (trackTip hash kind) in
  let! sig := signAsWriter updateMessage in
  let updateMessage := updateMessage <| signature := Some sig |> in
  let! _ := modify (fun s => s <| _lastSyncMessage := Some updateMessage |>) in
  let! serializedUpdate := lift (serializeSyncMessage updateMessage) in
  let! assembled := encrypt_current serializedUpdate in
  let! _ := lift (pubsub_publish cfg assembled) in
  let! _ := emit (Published assembled) in
  let! _ := fireLocalUpdateHandlers [hash] in
  if bool_decide (kind = DocumentNode) then
    let! _ := modify countChange in
    maybeCompact
  else ret tt.

(** ** Merging a remote tree *)

(** [newDocument], [newDocumentHashes], [newDocumentTips], [missingDocumentHashes] *)
Record merged := mk_merged {
  newDocument_ : DocType;
  newDocumentHashes : list string;
  newDocumentTips : list (string * CRDTChangeNodeKind);
  missingDocumentHashes : list (string * CRDTChangeNodeKind);
}.

Definition applyEntry (acc : merged) (entry : MergedSyncEntry (C := ChangesType)) : method merged :=
  let '(sentHash, sentChangeKind, sentChanges) := entry in
  match sentChanges with
  | Some c =>
      let applied d := mk_merged d (newDocumentHashes acc ++ [sentHash])
                         (newDocumentTips acc ++ [(sentHash, sentChangeKind)]) (missingDocumentHashes acc) in
      match sentChangeKind with
      | DocumentNode =>
          let! d := lift (remoteChange (newDocument_ acc) c) in
          let! _ := modify countChange in
          ret (applied d)
      | ReaderNode => let! _ := mergeReaders c in ret (applied (newDocument_ acc))
      | WriterNode => let! _ := mergeWriters c in ret (applied (newDocument_ acc))
      end
  | None =>
      ret (mk_merged (newDocument_ acc) (newDocumentHashes acc) (newDocumentTips acc)
             (missingDocumentHashes acc ++ [(sentHash, sentChangeKind)]))
  end.

(** The continuation of one fetch; an error is logged and dropped. [missing] has
    the hash, its parsed form and its kind. *)
Definition fetchMissing (missing : string * string * CRDTChangeNodeKind) : method unit :=
  let '(missingHash, cid, kind) := missing in
  catch
    (let! c := getBlock cid in
     match kind with
     | DocumentNode =>
         let! s := get in
         let! d := lift (remoteChange (_document s) c) in
         let! _ := modify (fun s => s <| _document := d |>) in
         let! _ := modify (addHash missingHash) in
         let! _ := modify countChange in
         let! _ := modify (trackTip missingHash kind) in
         fireRemoteUpdateHandlers [missingHash]
     | ReaderNode =>
         let! _ := mergeReaders c in
         let! _ := modify (addHash missingHash) in
         let! _ := modify (trackTip missingHash kind) in
         fireRemoteUpdateHandlers [missingHash]
     | WriterNode =>
         let! _ := mergeWriters c in
         let! _ := modify (addHash missingHash) in
         let! _ := modify (trackTip missingHash kind) in
         fireRemoteUpdateHandlers [missingHash]
     end)
    (fun _ => ret tt).

(** The loop that starts the fetches: the ones it starts, and the error of
    [CID.parse] that ends it early. *)
Fixpoint startFetches (missing : list (string * CRDTChangeNodeKind))
    : list (string * string * CRDTChangeNodeKind) * result unit :=
  match missing with
  | [] => ([], Ok tt)
  | (h, kind) :: missing' =>
      match cid_parse cfg h with
      | Err e => ([], Err e)
      | Ok cid => let '(l, r) := startFetches missing' in ((h, cid, kind) :: l, r)
      end
  end.

(** [_refreshLastSyncMessageFromSync] *)
Definition refreshLastSyncMessageFromSync (receivedChangeId : option string) (receivedChanges : node)
    (s : doc) : doc :=
  match truthy receivedChangeId with
  | None => s
  | Some received =>
      let adopt := createSyncMessage s <| changeId := Some received |> <| changes := Some receivedChanges |>
                     <| signature := None |> <| tips := None |> <| tipsHash := None |> in
      match truthy (_lastSyncMessage s ≫= changeId) with
      | None => s <| _lastSyncMessage := Some adopt |>
      | Some prior =>
          if String.eqb prior received then s
          else if treeContainsCid (Some received) (Some receivedChanges) (Some prior)
          then s <| _lastSyncMessage := Some adopt |>
          else s
      end
  end.

Section Sync.
  (** The order in which the started fetches finish. *)
  Context (completion : list (string * string * CRDTChangeNodeKind) ->
                        list (string * string * CRDTChangeNodeKind)).

Definition syncDocumentChanges (id : option string) (tree : node) : method unit :=
  let! _ := modify (fun s => s <| _referencedAncestors :=
              collectReferencedAncestors id tree (_referencedAncestors s) |>) in
  let! s := get in
  let! newChangeEntries :=
    lift (mergeRemoteSyncTree (_lastSyncMessage s ≫= changeId) (_hashes s) id tree) in
  let! acc := for_each applyEntry (mk_merged (_document s) [] [] []) newChangeEntries in
  let! _ :=
    if negb (length (newDocumentHashes acc) =? 0) then
      let! _ := modify (fun s => s <| _document := newDocument_ acc |>) in
      let! _ := modify (fun s => foldl (flip addHash) s (newDocumentHashes acc)) in
      let! _ := modify (fun s => foldl (fun s t => trackTip t.1 t.2 s) s (rev (newDocumentTips acc))) in
      fireRemoteUpdateHandlers (newDocumentHashes acc)
    else ret tt in
  let '(fetches, outcome) := startFetches (missingDocumentHashes acc) in
  let! _ := for_each (fun _ m => fetchMissing m) tt (completion fetches) in
  let! _ := lift outcome in
  let! _ := modify (refreshLastSyncMessageFromSync id tree) in
  maybeCompact.

(** Whether an incoming snapshot supersedes the one held. *)
Definition supersedes (incoming : CRDTSnapshotNode ChangesType)
    (latest : option (CRDTSnapshotNode ChangesType)) : bool :=
  match latest with
  | None => true
  | Some l =>
      (compactedCount l <? compactedCount incoming)%Z ||
      ((compactedCount incoming =? compactedCount l)%Z &&
       String.ltb (lastChangeNodeCID l) (lastChangeNodeCID incoming))
  end.

(** The snapshot part of [sync]. *)
Definition adoptSnapshot (incoming : CRDTSnapshotNode ChangesType) : method unit :=
  let! s := get in
  if supersedes incoming (_latestSnapshot s) then
    let! valid :=
      if negb (enableSigning cfg) then ret true
      else catch
             (let! stateBytes := lift (serializeChanges (s_state incoming)) in
              let! signPayload := lift (buildSnapshotSignPayload stateBytes (lastChangeNodeCID incoming)
                                          (timestamp incoming) (compactedCount incoming)) in
              verifySnapshotSignature signPayload (s_signature incoming))
             (fun _ => ret false) in
    if negb valid then ret tt
    else
      let! s := get in
      let! d := lift (match applySnapshot with
                      | Some f => f (_document s) (s_state incoming)
                      | None => remoteChange (_document s) (s_state incoming)
                      end) in
      let! _ := modify (fun s => s <| _document := d |> <| _latestSnapshot := Some incoming |>
                  <| _documentChangeCount := Z.max (_documentChangeCount s) (compactedCount incoming) |>
                  <| _changesSinceSnapshot := 0%Z |>) in
      when (negb (String.eqb (lastChangeNodeCID incoming) ""))
        (modify (addHash (lastChangeNodeCID incoming)))
  else ret tt.

Definition sync (message : CRDTSyncMessage ChangesType) (verifySignature : bool) : method bool :=
  match enableSigning cfg, truthy (signature message) with
  | true, None => ret false
  | _, sig =>
      let! verified :=
        if enableSigning cfg && verifySignature then
          let! raw := lift (serializeSyncMessage (message <| signature := None |>)) in
          verifyWriterSignature raw (default "" sig)
        else ret true in
      if negb verified then ret false
      else
        let! _ := match keychainChanges message with
                  | Some kc =>
                      let! s := get in
                      let! keychain := lift (kc_merge (_keychain s) kc) in
                      modify (fun s => s <| _keychain := keychain |>)
                  | None => ret tt
                  end in
        let! _ := match changes message with Some tree => applyACLFromTree tree | None => ret tt end in
        let! _ := match snapshot_ message with Some incoming => adoptSnapshot incoming | None => ret tt end in
        let! _ := match changes message with
                  | Some tree => syncDocumentChanges (changeId message) tree
                  | None => ret tt
                  end in
        ret true
  end.
End Sync.

(** ** Local changes and transactions *)

(** [localChange] on the current document, and the assignment of what it returns. *)
Definition applyLocalChange (message : string) (changeFn : ChangeFnType) : method ChangesType :=
  let! s := get in
  let! _ := modify (fun x => x <| _document := localMutated (_document s) message changeFn |>) in
  let! r := lift (localChange (_document s) message changeFn) in
  let! _ := modify (fun x => x <| _document := r.1 |>) in
  ret r.2.

Definition change (changeFn : ChangeFnType) (message : string) : method unit :=
  let! s := get in
  if _inTransaction s then lift (throw "Cannot call change() during an active transaction.")
  else
    let! _ := ensureCurrentUserCanWrite in
    let! c := applyLocalChange message changeFn in
    makeChange c DocumentNode.

Definition startChange : method unit :=
  let! s := get in
  if _inTransaction s then lift (throw "Transaction already in progress")
  else modify (fun s => s <| _inTransaction := true |> <| _pendingChangeFns := [] |>).

Definition addChange (changeFn : ChangeFnType) : method unit :=
  let! s := get in
  if negb (_inTransaction s) then lift (throw "No transaction in progress.")
  else if _committing s then lift (throw "Cannot add changes while endChange() is committing.")
  else modify (fun s => s <| _pendingChangeFns := _pendingChangeFns s ++ [changeFn] |>).

(** Removing from a set everything after its first [size] entries. *)
Definition trim (size : nat) (l : list string) : list string :=
  if size <? length l then List.filter (fun x => negb (set_has x (drop size l))) l else l.

(** The [catch] of [endChange]: [s0] is the state when it was called, and
    [originalDocument] what the document object of that time is now. *)
Definition rollback (s0 : doc) (originalDocument : DocType) (err : string) : method unit :=
  let! _ := modify (fun s =>
    s <| _document := originalDocument |>
      <| _hashes := trim (length (_hashes s0)) (_hashes s) |>
      <| _referencedAncestors := trim (length (_referencedAncestors s0)) (_referencedAncestors s) |>
      <| _lastSyncMessage := _lastSyncMessage s0 |>
      <| _documentChangeCount := _documentChangeCount s0 |>
      <| _changesSinceSnapshot := _changesSinceSnapshot s0 |>
      <| _recentTips := _recentTips s0 |>
      <| _inTransaction := false |>
      <| _pendingChangeFns := [] |>) in
  lift (throw err).

(** The [try] is in two parts, since the object that [originalDocument] refers to may be
    another after [localChange]. Nothing else happens between its awaits: a remote change
    that arrives there, and that the rollback would drop, is not represented. *)
Definition endChange (message : string) : method unit :=
  let! s0 := get in
  if negb (_inTransaction s0) then lift (throw "No transaction in progress.")
  else if _committing s0 then lift (throw "endChange() is already in progress.")
  else
    let pendingFns := _pendingChangeFns s0 in
    if length pendingFns =? 0 then
      modify (fun s => s <| _inTransaction := false |> <| _pendingChangeFns := [] |>)
    else
      let! _ := modify (fun s => s <| _committing := true |>) in
      finally
        (let! _ := catch ensureCurrentUserCanWrite (rollback s0 (_document s0)) in
         catch
           (let! c := applyLocalChange message (compose cfg pendingFns) in
            let! _ := makeChange c DocumentNode in
            modify (fun s => s <| _inTransaction := false |> <| _pendingChangeFns := [] |>))
           (rollback s0 (localMutated (_document s0) message (compose cfg pendingFns))))
        (fun s => s <| _committing := false |>).

(** [addWriter] *)
Definition addWriter (writer : PublicKey) : method unit :=
  let! _ := ensureCurrentUserCanWrite in
  let! s := get in
  let! present := lift (acl_check (_writers s) writer) in
  if present then ret tt
  else
    let! r := lift (acl_add (_writers s) writer) in
    let! _ := modify (fun s => s <| _writers := r.1 |>) in
    makeChange r.2 WriterNode.

Definition historySize (s : doc) : nat := length (_hashes s).
Definition hasChange (cid : string) (s : doc) : bool := set_has cid (_hashes s).

End Document.
End Document.
