(* ===== verification/Pruning.v ===== *)
(** * Pruning a change tree

    About [pruneTree] of [Document], the tree part of [_pruneChanges]: the
    breadth-first walk ends, keeps the requested number of document nodes and the
    CID of every access-control node, and reports only document nodes as pruned;
    what garbage collection then deletes is nowhere in the tree that is kept. *)
From stdpp Require Import base numbers list list_numbers strings.
From Stdlib Require Import ZArith Lia.
From S2P Require Import Prelude ChangeTree Document.

Open Scope string_scope.
Open Scope list_scope.
Open Scope nat_scope.

Module Pruning.
Import ChangeTree Document.

Section Prune.
  Context {C : Type}.
  Abbreviation node := (CRDTChangeNode C).

(** ** Reading a tree *)

(** The keys of an object are distinct, at every node of the tree. *)
Definition keys_ok (root : node) : Prop :=
  forall id n l, occ None root id n -> node_children n = Children l -> NoDup l.*1.

(** [m] occurs below [n], under the key [c]. *)
Definition below (n : node) (c : string) (m : node) : Prop := occ None n (Some c) m.

Lemma occ_any_root (r1 r2 : option string) (n m : node) id :
  occ r1 n id m -> id = r1 /\ m = n \/ (exists c, id = Some c /\ occ r2 n (Some c) m).
Proof.
  induction 1 as [|id m l c x Ho IH Hl Hin]; [by left|right]. exists c. split; [done|].
  destruct IH as [[-> ->]|(c' & -> & Ho')]; [|by eapply occ_child].
  eapply occ_child; [constructor|done..].
Qed.

Lemma occ_below (n x : node) c m y l :
  node_children n = Children l -> (c, x) ∈ l -> below x y m -> below n y m.
Proof.
  intros Hl Hin Hb. assert (Hx : occ None n (Some c) x) by (eapply occ_child; [constructor|done..]).
  eapply occ_trans; [exact Hx|].
  destruct (occ_any_root None (Some c) x m (Some y) Hb) as [[? _]|(y' & [= <-] & H)]; done.
Qed.

Lemma below_step (n : node) l c m : node_children n = Children l ->
  below n c m <-> (c, m) ∈ l \/ exists x y, (x, y) ∈ l /\ below y c m.
Proof.
  intros Hl. split.
  - unfold below. intros Hb. remember (Some c) as id eqn:Hid. revert c Hid.
    induction Hb as [|id m l' c' x Ho IH Hl' Hin]; intros c Hid; [done|]. injection Hid as ->.
    destruct (occ_any_root None None n m id Ho) as [[-> ->]|(y & -> & _)].
    + left. congruence.
    + right. destruct (IH y eq_refl) as [Hy|(x' & y' & Hx' & Hy')].
      * exists y, m. split; [done|]. eapply occ_child; [constructor|done..].
      * exists x', y'. split; [done|]. eapply occ_child; [exact Hy'|done..].
  - intros [Hin|(x & y & Hin & Hb)]; [eapply occ_child; [constructor|done..]|by eapply occ_below].
Qed.

Lemma below_leaf (n : node) c m : (forall l, node_children n <> Children l) -> ~ below n c m.
Proof.
  unfold below. intros Hn Hb. remember (Some c) as id eqn:Hid. revert c Hid.
  induction Hb as [|id m l' c' x Ho IH Hl' Hin]; intros c Hid; [done|].
  destruct (occ_any_root None None n m id Ho) as [[-> ->]|(y & -> & _)]; [by eapply Hn|by eapply IH].
Qed.

Lemma keys_ok_child (n : node) l c y : keys_ok n -> node_children n = Children l -> (c, y) ∈ l -> keys_ok y.
Proof.
  intros Hk Hl Hin id m l' Ho Hm.
  destruct (occ_any_root None None y m id Ho) as [[-> ->]|(x & -> & Ho')].
  - eapply (Hk (Some c) y); [|done]. eapply occ_child; [constructor|done..].
  - eapply (Hk (Some x) m); [|done]. by eapply (occ_below n y).
Qed.

Lemma keys_ok_here (n : node) l : keys_ok n -> node_children n = Children l -> NoDup l.*1.
Proof. intros Hk. apply Hk with None. constructor. Qed.

(** The node at the end of a path of keys. *)
Fixpoint follow (n : node) (path : list string) : option node :=
  match path with
  | [] => Some n
  | c :: path' =>
      match node_children n with
      | Children l => map_get c l ≫= fun y => follow y path'
      | _ => None
      end
  end.

Lemma follow_child (n : node) l c y r :
  keys_ok n -> node_children n = Children l -> (c, y) ∈ l -> follow n (c :: r) = follow y r.
Proof.
  intros Hk Hl Hin. simpl. rewrite Hl, (elem_of_map_get c y) by eauto using keys_ok_here. done.
Qed.

(** The number of document nodes. *)
Fixpoint doc_size (n : node) : nat :=
  (if isACLNode n then 0 else 1) +
  match node_children n with
  | Children l =>
      (fix go (l : list (string * node)) : nat :=
         match l with [] => 0 | (_, c) :: l' => doc_size c + go l' end) l
  | _ => 0
  end.

Definition docs (l : list (string * node)) : nat := sum_list (doc_size <$> l.*2).

Lemma doc_size_eq (n : node) : doc_size n =
  (if isACLNode n then 0 else 1) + match node_children n with Children l => docs l | _ => 0 end.
Proof.
  destruct n as [k kd c ch]. cbn [doc_size node_children]. f_equal. destruct ch as [| |l]; try done.
  unfold docs. induction l as [|[x m] l IH]; csimpl; [done|]. by rewrite IH.
Qed.

(** ** [collectACLNodes] *)

Fixpoint collect_list (l : list (string * node)) (st : list (string * node) * list string) :=
  match l with
  | [] => st
  | (childHash, childNode) :: l' =>
      let st := if isACLNode childNode then (map_set childHash (leaf_of childNode) st.1, st.2)
                else (st.1, set_add childHash st.2) in
      collect_list l' (collectACLNodes childNode st)
  end.

Lemma collect_eq (n : node) st : collectACLNodes n st =
  match node_children n with Children l => collect_list l st | _ => st end.
Proof.
  by destruct n as [k kd c [| |l]].
Qed.

(** What a walk adds: the access-control nodes it meets, as leaves, and the CIDs of
    the document nodes. *)
Record collected (P : string -> node -> Prop) (st st' : list (string * node) * list string) : Prop := {
  col_keys c : c ∈ st'.1.*1 <-> c ∈ st.1.*1 \/ exists m, P c m /\ isACLNode m = true;
  col_values c v : (c, v) ∈ st'.1 -> (c, v) ∈ st.1 \/ exists m, P c m /\ isACLNode m = true /\ v = leaf_of m;
  col_pruned c : c ∈ st'.2 <-> c ∈ st.2 \/ exists m, P c m /\ isACLNode m = false;
}.

Lemma collected_nil (P : string -> node -> Prop) st : (forall c m, ~ P c m) -> collected P st st.
Proof. intros HP. split; naive_solver. Qed.

Lemma collected_trans (P1 P2 P : string -> node -> Prop) st1 st2 st3 :
  (forall c m, P c m <-> P1 c m \/ P2 c m) ->
  collected P1 st1 st2 -> collected P2 st2 st3 -> collected P st1 st3.
Proof.
  intros HP [K1 V1 D1] [K2 V2 D2]. split; intros c.
  - rewrite K2, K1. setoid_rewrite HP. naive_solver.
  - intros v Hv. destruct (V2 c v Hv) as [Hv1|(m & Hm & ? & ?)].
    + destruct (V1 c v Hv1) as [?|(m & Hm & ? & ?)]; [by left|right]. exists m. rewrite HP. eauto.
    + right. exists m. rewrite HP. eauto.
  - rewrite D2, D1. setoid_rewrite HP. naive_solver.
Qed.

Lemma elem_of_map_set_inv {K V} `{EqDecision K} (k k' : K) (v v' : V) m :
  (k', v') ∈ map_set k v m -> (k', v') ∈ m \/ k' = k /\ v' = v.
Proof.
  induction m as [|[k0 v0] m IH]; simpl.
  - intros ?%list_elem_of_singleton. naive_solver.
  - case_decide; rewrite !elem_of_cons; naive_solver.
Qed.

Lemma collected_one c0 (m0 : node) st :
  collected (fun c m => c = c0 /\ m = m0) st
    (if isACLNode m0 then (map_set c0 (leaf_of m0) st.1, st.2) else (st.1, set_add c0 st.2)).
Proof.
  destruct (isACLNode m0) eqn:E; split; simpl; intros c.
  - rewrite elem_of_map_keys_set. naive_solver.
  - intros v [?|[-> ->]]%elem_of_map_set_inv; [by left|right; eauto].
  - naive_solver congruence.
  - naive_solver congruence.
  - by left.
  - rewrite elem_of_set_add. naive_solver.
Qed.

Lemma collect_spec (n : node) : forall st, collected (below n) st (collectACLNodes n st).
Proof.
  induction n as [k kd c ch IH] using node_ind'. intros st. rewrite collect_eq. simpl.
  destruct ch as [| |l]; try (apply collected_nil; intros; by apply below_leaf).
  assert (Hl : collected (fun c m => exists x y, (x, y) ∈ l /\ ((c = x /\ m = y) \/ below y c m)) st (collect_list l st)).
  { clear c. revert st. induction IH as [|[x y] l Hy HF IHl]; intros st; simpl.
    - apply collected_nil. intros c m (x & y & ?%elem_of_nil & _). done.
    - eapply (collected_trans (fun c m => (c = x /\ m = y) \/ below y c m)); [| |apply IHl].
      + intros c m. setoid_rewrite elem_of_cons. naive_solver.
      + eapply collected_trans; [|apply collected_one|apply Hy]. done. }
  destruct Hl as [HK HV HD].
  assert (Hb : forall c' m, below (Node k kd c (Children l)) c' m <->
            exists x y, (x, y) ∈ l /\ ((c' = x /\ m = y) \/ below y c' m)).
  { intros c' m. rewrite (below_step _ l) by done. naive_solver. }
  split.
  - intros c'. rewrite HK. by setoid_rewrite Hb.
  - intros c' v Hv. destruct (HV c' v Hv) as [?|(m & Hm & ?)]; [by left|right]. exists m. by rewrite Hb.
  - intros c'. rewrite HD. by setoid_rewrite Hb.
Qed.

(** ** The breadth-first walk *)

Abbreviation cut_list := (list (list string * list (string * node))).

(** No path of the list leads through another. *)
Definition independent (ps : list (list string)) : Prop :=
  NoDup ps /\ forall p q, p ∈ ps -> q ∈ ps -> p `prefix_of` q -> p = q.

Lemma independent_tail p ps : independent (p :: ps) -> independent ps.
Proof. intros [[_ Hn]%NoDup_cons Hi]. split; [done|]. intros q r ??. apply Hi; by right. Qed.

Lemma independent_perm ps qs : ps ≡ₚ qs -> independent ps -> independent qs.
Proof. intros Hp [Hn H]. split; [by rewrite <- Hp|]. intros p q. rewrite <- !Hp. apply H. Qed.

(** Replacing a path by its one-step extensions. *)
Lemma independent_expand p (ks : list string) ps :
  NoDup ks -> independent (p :: ps) -> independent (map (fun k => p ++ [k]) ks ++ ps).
Proof.
  intros Hks [[Hp Hn]%NoDup_cons H].
  assert (Hin : forall q, q ∈ map (fun k => p ++ [k]) ks -> exists k, q = p ++ [k] /\ k ∈ ks).
  { intros q (k & <- & Hk%list_elem_of_In)%list_elem_of_In%in_map_iff. eauto. }
  assert (Hno : forall k q, q ∈ ps -> ~ (p ++ [k]) `prefix_of` q /\ ~ q `prefix_of` (p ++ [k])).
  { intros k q Hq. split; intros Hpre.
    - assert (p = q) as -> by (apply H; [by left|by right|]; etrans; [by exists [k]|done]). done.
    - destruct Hpre as [r E]. destruct r as [|r0 r _] using rev_ind.
      + rewrite app_nil_r in E. assert (p = q) as -> by (apply H; [by left|by right|]; by exists [k]). done.
      + rewrite app_assoc in E. apply app_inj_tail in E as [E _].
        assert (q = p) as -> by (apply H; [by right|by left|]; by exists r). done. }
  split.
  - apply NoDup_app. split_and!; [|naive_solver|done].
    apply NoDup_fmap_2; [|done]. intros k k' E. by apply app_inj_tail in E as [_ ?].
  - intros q r Hq Hr Hpre. apply elem_of_app in Hq as [(k & -> & _)%Hin|Hq];
      apply elem_of_app in Hr as [(k' & -> & _)%Hin|Hr].
    + destruct Hpre as [x E]. rewrite <- app_assoc in E. apply app_inv_head in E.
      by destruct x; simplify_eq/=.
    + by destruct (Hno k r Hr) as [? _].
    + by destruct (Hno k' q Hq) as [_ ?].
    + apply H; [by right..|done].
Qed.

Definition queue_docs (cuts : cut_list) (queue : list (list string * node)) : nat :=
  sum_list ((fun x => doc_size (apply_cuts cuts x.1 x.2)) <$> queue).

(** What the walk of [queue] adds to [cuts] and [pruned], and what it leaves. *)
Record walk_result (keep : Z) (queue : list (list string * node)) (visited : Z)
    (cuts : cut_list) (pruned : list string) (cuts' : cut_list) (pruned' : list string) : Prop := {
  wr_old q a : map_get q cuts = Some a -> map_get q cuts' = Some a;
  wr_new q a : map_get q cuts' = Some a -> map_get q cuts = Some a \/
    exists p n r m pr, (p, n) ∈ queue /\ q = p ++ r /\ follow n r = Some m /\
      isACLNode m = false /\ a = (collectACLNodes m ([], pr)).1;
  wr_pruned c : c ∈ pruned' -> c ∈ pruned \/
    exists p n m, (p, n) ∈ queue /\ below n c m /\ isACLNode m = false;
  wr_count : cuts' = cuts \/ (keep <= visited + Z.of_nat (queue_docs cuts' queue))%Z;
}.

Lemma apply_cuts_none (cuts : cut_list) p (n : node) : map_get p cuts = None ->
  isACLNode (apply_cuts cuts p n) = isACLNode n /\
  node_children (apply_cuts cuts p n) =
    match node_children n with
    | Children l => Children (map (fun x => (x.1, apply_cuts cuts (p ++ [x.1]) x.2)) l)
    | ch => ch
    end.
Proof. intros E. destruct n as [k kd c ch]. simpl. rewrite E. split; [done|by destruct ch]. Qed.

Lemma apply_cuts_some (cuts : cut_list) p (n : node) a : map_get p cuts = Some a ->
  isACLNode (apply_cuts cuts p n) = isACLNode n /\
  node_children (apply_cuts cuts p n) = match a with [] => NoChildren | _ => Children a end.
Proof. intros E. destruct n as [k kd c ch]. simpl. rewrite E. done. Qed.

Lemma doc_size_uncut (cuts : cut_list) p (n : node) : map_get p cuts = None ->
  doc_size (apply_cuts cuts p n) =
  (if isACLNode n then 0 else 1) +
  match node_children n with
  | Children l => queue_docs cuts (map (fun c => (p ++ [c.1], c.2)) l)
  | _ => 0
  end.
Proof.
  intros E. destruct (apply_cuts_none cuts p n E) as [HA HC]. rewrite doc_size_eq, HA, HC. f_equal.
  destruct (node_children n) as [| |l]; try done. unfold docs, queue_docs.
  clear. induction l as [|[x y] l IH]; csimpl; [done|]. by rewrite IH.
Qed.

(** A cut node keeps only access-control leaves. *)
Lemma doc_size_cut (cuts : cut_list) p (n m : node) pr :
  map_get p cuts = Some (collectACLNodes m ([], pr)).1 ->
  doc_size (apply_cuts cuts p n) = if isACLNode n then 0 else 1.
Proof.
  intros E. destruct (apply_cuts_some cuts p n _ E) as [HA HC]. rewrite doc_size_eq, HA, HC.
  pose proof (col_values _ _ _ (collect_spec m ([], pr))) as HV.
  set (a := (collectACLNodes m ([], pr)).1) in *.
  enough (docs a = 0) as Hd by (destruct a; simpl in *; lia).
  assert (Hz : Forall (fun x => doc_size x.2 = 0) a).
  { apply Forall_forall. intros [c v] Hv.
    destruct (HV c v Hv) as [?%elem_of_nil|(m' & _ & Hm' & ->)]; [done|].
    destruct m'. rewrite doc_size_eq. simpl in *. unfold isACLNode in *. simpl in *. by rewrite Hm'. }
  clear -Hz. unfold docs. induction Hz as [|x l Hx _ IH]; csimpl; lia.
Qed.

Lemma queue_docs_app cuts q1 q2 : queue_docs cuts (q1 ++ q2) = queue_docs cuts q1 + queue_docs cuts q2.
Proof. unfold queue_docs. rewrite fmap_app. induction (_ <$> q1) as [|x l IH]; simpl; [done|]. lia. Qed.

(** The front of the queue is not cut by what comes after it. *)
Lemma front_uncut keep queue visited cuts pruned cuts' pruned' p ext :
  walk_result keep (queue ++ ext) visited cuts pruned cuts' pruned' ->
  independent (p :: queue.*1 ++ cuts.*1) -> (forall x, x ∈ ext -> exists c, x.1 = p ++ [c]) ->
  map_get p cuts' = None.
Proof.
  intros Hw [[Hp _]%NoDup_cons Hi] Hext. destruct (map_get p cuts') as [a|] eqn:E; [|done].
  destruct (wr_new _ _ _ _ _ _ _ Hw p a E) as [E'|(q & n & r & m & pr & Hin & -> & _)].
  - exfalso. apply Hp. apply elem_of_app. right. apply map_get_is_Some. eauto.
  - exfalso. apply elem_of_app in Hin as [Hin|Hin].
    + assert (Hq : q ∈ queue.*1) by (apply list_elem_of_fmap; by exists (q, n)).
      apply Hp. apply elem_of_app. left.
      rewrite <- (Hi q (q ++ r)); [done| |by left|by exists r]. right. apply elem_of_app. by left.
    + destruct (Hext _ Hin) as [c Hc]. simpl in Hc. apply (f_equal length) in Hc.
      rewrite !length_app in Hc. simpl in Hc. lia.
Qed.

Lemma map_fst_paths (p : list string) (l : list (string * node)) :
  (map (fun c => (p ++ [c.1], c.2)) l).*1 = map (fun k => p ++ [k]) l.*1.
Proof. induction l as [|[x y] l IH]; csimpl; [done|]. by rewrite IH. Qed.

Lemma map_snd_paths (p : list string) (l : list (string * node)) :
  (map (fun c => (p ++ [c.1], c.2)) l).*2 = l.*2.
Proof. induction l as [|[x y] l IH]; csimpl; [done|]. by rewrite IH. Qed.

Lemma children_keys_ok (n : node) l p : keys_ok n -> node_children n = Children l ->
  Forall (fun x => keys_ok x.2) (map (fun c => (p ++ [c.1], c.2)) l).
Proof.
  intros Hk Hl. apply Forall_forall. intros x ([c y] & <- & Hin%list_elem_of_In)%list_elem_of_In%in_map_iff.
  simpl. by eapply keys_ok_child.
Qed.

Lemma elem_of_paths p (l : list (string * node)) q m :
  (q, m) ∈ map (fun c => (p ++ [c.1], c.2)) l <-> exists c, q = p ++ [c] /\ (c, m) ∈ l.
Proof.
  rewrite list_elem_of_In, in_map_iff. setoid_rewrite <- list_elem_of_In. split.
  - intros ([c y] & [= <- <-] & Hin). eauto.
  - intros (c & -> & Hin). by exists (c, m).
Qed.

Lemma independent_cut p (acl : list (string * node)) (queue : list (list string)) (cuts : cut_list) :
  independent (p :: queue ++ cuts.*1) -> independent (queue ++ (map_set p acl cuts).*1).
Proof.
  intros Hi. assert (Hp : p ∉ cuts.*1).
  { destruct Hi as [[Hp _]%NoDup_cons _]. intros ?. apply Hp. apply elem_of_app. by right. }
  rewrite map_keys_set_notin by done. eapply independent_perm; [|exact Hi]. solve_Permutation.
Qed.

Section Walks.
  Context (n : node) (p : list string) (keep : Z) (queue : list (list string * node)) (visited : Z)
    (cuts cuts' : cut_list) (pruned pruned' : list string).
  Context (Hi : independent (p :: queue.*1 ++ cuts.*1)) (Hkn : keys_ok n).

Lemma walk_leaf : (forall l, node_children n <> Children l) ->
  walk_result keep queue (visited + Z.of_nat (if isACLNode n then 0 else 1)) cuts pruned cuts' pruned' ->
  walk_result keep ((p, n) :: queue) visited cuts pruned cuts' pruned'.
Proof.
  intros Hl Hw. assert (Hp : map_get p cuts' = None).
  { rewrite <- (app_nil_r queue) in Hw. eapply front_uncut; [exact Hw|done|].
    by intros x ?%elem_of_nil. }
  destruct Hw as [Ho Hn Hpr Hc]. split; [done| | |].
  - intros q a Ha. destruct (Hn q a Ha) as [?|(q' & m & r & m' & pr & Hin & ?)]; [by left|right].
    exists q', m, r, m', pr. split; [by right|done].
  - intros c Hc'. destruct (Hpr c Hc') as [?|(q & m & m' & ? & ?)]; [by left|right].
    exists q, m, m'. split; [by right|done].
  - destruct Hc as [?|Hc]; [by left|right]. unfold queue_docs. csimpl. fold (queue_docs cuts' queue).
    rewrite (doc_size_uncut cuts' p n Hp). destruct (node_children n) as [| |l]; [lia..|by destruct (Hl l)].
Qed.

Lemma walk_cut acl pr' : isACLNode n = false -> (keep <= visited + 1)%Z ->
  collectACLNodes n ([], pruned) = (acl, pr') ->
  walk_result keep queue (visited + 1) (map_set p acl cuts) pr' cuts' pruned' ->
  walk_result keep ((p, n) :: queue) visited cuts pruned cuts' pruned'.
Proof.
  intros Hacl Hkeep Ecol [Ho Hn Hpr Hc].
  assert (Hp : p ∉ cuts.*1).
  { destruct Hi as [[Hp _]%NoDup_cons _]. intros ?. apply Hp. apply elem_of_app. by right. }
  assert (Hcut : map_get p cuts' = Some acl) by (apply Ho, map_get_set_eq).
  split.
  - intros q a Ha. apply Ho. rewrite map_get_set. case_decide; [|done]. subst.
    exfalso. apply Hp. apply map_get_is_Some. eauto.
  - intros q a Ha. destruct (Hn q a Ha) as [Hs|(q' & m & r & m' & pr & Hin & ?)].
    + rewrite map_get_set in Hs. case_decide; [|by left]. right. simplify_eq.
      exists p, n, [], n, pruned. rewrite app_nil_r, Ecol. split_and!; [by left|done..].
    + right. exists q', m, r, m', pr. split; [by right|done].
  - intros c Hc'. destruct (Hpr c Hc') as [Hc1|(q & m & m' & ? & ?)].
    + change pr' with (acl, pr').2 in Hc1. rewrite <- Ecol in Hc1.
      apply (col_pruned _ _ _ (collect_spec n ([], pruned))) in Hc1 as [?|(m & ? & ?)]; [by left|right].
      exists p, n, m. split; [by left|done].
    + right. exists q, m, m'. split; [by right|done].
  - right. unfold queue_docs. csimpl. rewrite (doc_size_cut cuts' p n n pruned), Hacl; [lia|].
    by rewrite Ecol.
Qed.

Lemma walk_expand l : node_children n = Children l ->
  walk_result keep (queue ++ map (fun c => (p ++ [c.1], c.2)) l)
    (visited + Z.of_nat (if isACLNode n then 0 else 1)) cuts pruned cuts' pruned' ->
  walk_result keep ((p, n) :: queue) visited cuts pruned cuts' pruned'.
Proof.
  intros Hl Hw. assert (Hp : map_get p cuts' = None).
  { eapply front_uncut; [exact Hw|done|]. intros [q m] (c & -> & _)%elem_of_paths. by exists c. }
  destruct Hw as [Ho Hn Hpr Hc]. split; [done| | |].
  - intros q a Ha. destruct (Hn q a Ha) as [?|(q' & m & r & m' & pr & Hin & -> & Hf & ? & ?)]; [by left|right].
    apply elem_of_app in Hin as [Hin|(c & -> & Hin)%elem_of_paths].
    + exists q', m, r, m', pr. split; [by right|done].
    + exists p, n, (c :: r), m', pr. rewrite <- app_assoc. split_and!; [by left|done| |done..].
      by rewrite (follow_child n l c m r).
  - intros c Hc'. destruct (Hpr c Hc') as [?|(q & m & m' & Hin & Hb & ?)]; [by left|right].
    apply elem_of_app in Hin as [Hin|(x & -> & Hin)%elem_of_paths].
    + exists q, m, m'. split; [by right|done].
    + exists p, n, m'. split_and!; [by left| |done]. apply (below_step n l); [done|]. eauto.
  - destruct Hc as [?|Hc]; [by left|right]. rewrite queue_docs_app in Hc.
    unfold queue_docs at 1. csimpl. fold (queue_docs cuts' queue).
    rewrite (doc_size_uncut cuts' p n Hp), Hl. lia.
Qed.
End Walks.

Lemma prune_loop_ok keep fuel : forall queue visited (cuts : cut_list) pruned,
  sum_list (tree_size <$> queue.*2) <= fuel ->
  independent (queue.*1 ++ cuts.*1) -> Forall (fun x => keys_ok x.2) queue ->
  exists cuts' pruned', prune_loop fuel keep queue visited cuts pruned = Ok (cuts', pruned') /\
    walk_result keep queue visited cuts pruned cuts' pruned'.
Proof.
  induction fuel as [|fuel IH]; intros [|[p n] queue] visited cuts pruned Hf Hi Hk.
  1,3: exists cuts, pruned; split; [done|]; split; auto.
  { csimpl in Hf. pose proof (tree_size_pos n). lia. }
  csimpl in Hf. csimpl in Hi. apply Forall_cons in Hk as [Hkn Hk]. simpl in Hkn.
  set (visited' := if isACLNode n then visited else (visited + 1)%Z).
  assert (Hvis : visited' = (visited + Z.of_nat (if isACLNode n then 0 else 1))%Z)
    by (unfold visited'; destruct (isACLNode n); lia).
  cbn [prune_loop]. fold visited'. destruct (node_children n) as [| |l] eqn:El.
  - destruct (IH queue visited' cuts pruned) as (cuts' & pruned' & -> & Hw);
      [pose proof (tree_size_pos n); lia|by eapply independent_tail|done|].
    exists cuts', pruned'. split; [done|]. rewrite Hvis in Hw.
    eapply walk_leaf; [done| |done]. by rewrite El.
  - destruct (IH queue visited' cuts pruned) as (cuts' & pruned' & -> & Hw);
      [pose proof (tree_size_pos n); lia|by eapply independent_tail|done|].
    exists cuts', pruned'. split; [done|]. rewrite Hvis in Hw.
    eapply walk_leaf; [done| |done]. by rewrite El.
  - destruct (negb (isACLNode n) && (keep <=? visited')%Z) eqn:Hcut.
    + apply andb_true_iff in Hcut as [Hacl%negb_true_iff Hkeep%Z.leb_le].
      destruct (collectACLNodes n ([], pruned)) as [acl pr'] eqn:Ecol.
      destruct (IH queue visited' (map_set p acl cuts) pr') as (cuts' & pruned' & -> & Hw);
        [pose proof (tree_size_pos n); lia|by apply independent_cut|done|].
      exists cuts', pruned'. split; [done|]. rewrite Hvis, Hacl in *. by eapply walk_cut.
    + destruct (IH (queue ++ map (fun c => (p ++ [c.1], c.2)) l) visited' cuts pruned)
        as (cuts' & pruned' & -> & Hw).
      * rewrite fmap_app, fmap_app, sum_list_with_app. rewrite (tree_size_children n l El) in Hf.
        rewrite map_snd_paths. lia.
      * apply (independent_perm (map (fun k => p ++ [k]) l.*1 ++ queue.*1 ++ cuts.*1)).
        { rewrite fmap_app, map_fst_paths. solve_Permutation. }
        apply independent_expand; [by eapply keys_ok_here|done].
      * apply Forall_app. split; [done|]. by apply (children_keys_ok n).
      * exists cuts', pruned'. split; [done|]. rewrite Hvis in Hw. by eapply walk_expand.
Qed.

(** ** What pruning keeps *)

Lemma apply_no_cuts (n : node) : forall p, apply_cuts [] p n = n.
Proof.
  induction n as [k kd c ch IH] using node_ind'. intros p. simpl. f_equal.
  destruct ch as [| |l]; try done. f_equal. induction IH as [|[x y] l Hy _ IHl]; simpl; [done|].
  simpl in Hy. by rewrite Hy, IHl.
Qed.

(** Access-control nodes survive the cuts, as far as their CID goes. *)
Lemma apply_cuts_acl (cuts : cut_list) (n : node) : forall p c m,
  keys_ok n ->
  (forall q a, map_get q cuts = Some a -> forall r, q = p ++ r ->
     exists m pr, follow n r = Some m /\ a = (collectACLNodes m ([], pr)).1) ->
  below n c m -> isACLNode m = true ->
  exists v, below (apply_cuts cuts p n) c v /\ isACLNode v = true.
Proof.
  induction n as [k kd ch children IH] using node_ind'. set (n := Node k kd ch children) in *.
  intros p c m Hk Hcuts Hb Hm. destruct (map_get p cuts) as [a|] eqn:Hp.
  - destruct (Hcuts p a Hp [] (eq_sym (app_nil_r p))) as (m' & pr & [= <-] & ->).
    destruct (collect_spec n ([], pr)) as [HK HV _].
    assert (Hc : c ∈ (collectACLNodes n ([], pr)).1.*1) by (apply HK; eauto).
    destruct (apply_cuts_some cuts p n _ Hp) as [_ Hch].
    apply list_elem_of_fmap in Hc as ([c' v] & -> & Hv).
    destruct (HV c' v Hv) as [?%elem_of_nil|(m' & _ & Hm' & ->)]; [done|].
    exists (leaf_of m'). split; [|by destruct m']. simpl.
    destruct ((collectACLNodes n ([], pr)).1) as [|x a]; [by apply elem_of_nil in Hv|].
    eapply occ_child; [constructor|exact Hch|done].
  - destruct (apply_cuts_none cuts p n Hp) as [_ Hch]. destruct children as [| |l];
      [by apply below_leaf in Hb..|]. simpl in Hch.
    destruct (proj1 (below_step n l c m eq_refl) Hb) as [Hin|(x & y & Hin & Hb')].
    + exists (apply_cuts cuts (p ++ [c]) m). split.
      * eapply occ_child; [constructor|exact Hch|]. apply list_elem_of_In, in_map_iff. exists (c, m).
        split; [done|]. by apply list_elem_of_In.
      * destruct (map_get (p ++ [c]) cuts) as [a|] eqn:Hc;
          [by rewrite (proj1 (apply_cuts_some _ _ m _ Hc))|by rewrite (proj1 (apply_cuts_none _ _ m Hc))].
    + rewrite Forall_forall in IH. destruct (IH (x, y) Hin (p ++ [x]) c m) as (v & Hv & Ha).
      * by apply (keys_ok_child n l x).
      * intros q a Hq r ->. rewrite <- app_assoc in Hq. destruct (Hcuts _ a Hq (x :: r) eq_refl) as (m' & pr & Hf & ->).
        rewrite (follow_child n l x y) in Hf by done. eauto.
      * exact Hb'.
      * done.
      * exists v. split; [|done]. eapply occ_below; [exact Hch| |exact Hv].
        apply list_elem_of_In, in_map_iff. exists (x, y). split; [done|]. by apply list_elem_of_In.
Qed.

Lemma prune_spec keep (root : node) : keys_ok root ->
  exists root' pruned, pruneTree keep root = Ok (root', pruned) /\
    (doc_size root' = doc_size root \/ (keep <= Z.of_nat (doc_size root'))%Z) /\
    (forall c m, below root c m -> isACLNode m = true ->
       exists v, below root' c v /\ isACLNode v = true) /\
    (forall c, c ∈ pruned -> exists m, below root c m /\ isACLNode m = false).
Proof.
  intros Hk. unfold pruneTree.
  destruct (prune_loop_ok keep (tree_size root) [([], root)] 0 [] []) as (cuts & pruned & -> & Hw).
  { csimpl. lia. }
  { split; [apply NoDup_singleton|]. by intros p q ->%list_elem_of_singleton ->%list_elem_of_singleton. }
  { by repeat constructor. }
  destruct Hw as [_ Hn Hp Hc]. eexists _, _. split; [done|]. simpl. split_and!.
  - destruct Hc as [->|Hc]; [left; f_equal; by apply apply_no_cuts|right].
    unfold queue_docs in Hc. csimpl in Hc. lia.
  - intros c m Hb Hm. apply (apply_cuts_acl cuts root [] c m); [done| |done|done].
    intros q a Hq r ->. destruct (Hn _ a Hq) as [?|(p & n & r' & m' & pr & Hin & E & Hf & _ & ->)]; [done|].
    apply list_elem_of_singleton in Hin as [= -> ->]. simpl in E. subst. eauto.
  - intros c Hc'. destruct (Hp c Hc') as [?%elem_of_nil|(p & n & m & Hin & ?)]; [done|].
    apply list_elem_of_singleton in Hin as [= -> ->]. eauto.
Qed.

(** Pruning terminates; it keeps as many document nodes as asked, or all of them;
    it keeps the CID of every access-control change; and it reports as pruned only
    CIDs of document changes of the tree. *)
Theorem prune_keeps keep (root : node) : keys_ok root ->
  exists root' pruned, pruneTree keep root = Ok (root', pruned) /\
    (doc_size root' = doc_size root \/ (keep <= Z.of_nat (doc_size root'))%Z) /\
    (forall c m, below root c m -> isACLNode m = true ->
       exists v, below root' c v /\ isACLNode v = true) /\
    (forall c, c ∈ pruned -> exists m, below root c m /\ isACLNode m = false).
Proof. apply prune_spec. Qed.

(** Composed with the garbage collector: what [snapshot] deletes after pruning is a
    document change of the old tree that is nowhere in the retained tree, is not the
    snapshot's boundary, and is not the CID of any access-control change. *)
Theorem compaction_deletes_safely keep (root : node) rootId boundary :
  keys_ok root -> rootId <> "" ->
  exists root' pruned deleted, pruneTree keep root = Ok (root', pruned) /\
    filterDeletableCIDs pruned (Some rootId) (Some root') [boundary] = Ok deleted /\
    forall c, c ∈ deleted ->
      (exists m, below root c m /\ isACLNode m = false) /\
      (forall m, ~ occ (Some rootId) root' (Some c) m) /\ c <> boundary /\
      (forall m, below root c m -> isACLNode m = true -> False).
Proof.
  intros Hk Hid. destruct (prune_spec keep root Hk) as (root' & pruned & Hprune & _ & Hacl & Hp).
  destruct (deletable_spec pruned (Some rootId) (Some root') [boundary]) as (deleted & Hdel & _ & Hd).
  exists root', pruned, deleted. split_and!; [done..|]. intros c Hc.
  apply Hd in Hc as (Hin & Hb & Hno).
  assert (Hocc : forall m, ~ occ (Some rootId) root' (Some c) m) by (intros m Ho; apply Hno; eauto 10).
  split_and!; [by apply Hp|done| |].
  - intros ->. apply Hb. by left.
  - intros m Hm Ha. destruct (Hacl c m Hm Ha) as (v & Hv & _).
    destruct (occ_any_root None (Some rootId) root' v (Some c) Hv) as [[? _]|(? & [= <-] & ?)]; [done|].
    by eapply Hocc.
Qed.

End Prune.
(** ** Witnesses *)

Lemma keys_ok_check {C} (root : CRDTChangeNode C) :
  Forall (fun p => forall l, node_children (snd p) = Children l -> NoDup l.*1) (occurrences None root) -> keys_ok root.
Proof. rewrite Forall_forall. intros H id n l Ho%occ_occurrences. apply (H _ Ho). Qed.

(** Four document changes in a row and, below the third, a writer change. *)
Definition long_history : CRDTChangeNode nat :=
  Node None DocumentNode (Some 4)
    (Children [("c", Node None DocumentNode (Some 3)
       (Children [("b", Node None DocumentNode (Some 2)
          (Children [("w", Node None WriterNode (Some 9)
             (Children [("a", Node None DocumentNode (Some 1) NoChildren)]))]))]))]).

Lemma long_history_keys : keys_ok long_history.
Proof.
  apply keys_ok_check. simpl. repeat constructor; simpl; intros l [= <-]; simpl; apply NoDup_singleton.
Qed.

Lemma prune_keeps_witness :
  exists root' pruned, pruneTree 2 long_history = Ok (root', pruned) /\
    (doc_size root' = doc_size long_history \/ (2 <= Z.of_nat (doc_size root'))%Z) /\
    (forall c m, below long_history c m -> isACLNode m = true ->
       exists v, below root' c v /\ isACLNode v = true) /\
    (forall c, c ∈ pruned -> exists m, below long_history c m /\ isACLNode m = false).
Proof. apply prune_keeps. exact long_history_keys. Defined.

Lemma compaction_deletes_safely_witness :
  exists root' pruned deleted, pruneTree 2 long_history = Ok (root', pruned) /\
    filterDeletableCIDs pruned (Some "d") (Some root') ["d"] = Ok deleted /\
    forall c, c ∈ deleted ->
      (exists m, below long_history c m /\ isACLNode m = false) /\
      (forall m, ~ occ (Some "d") root' (Some c) m) /\ c <> "d" /\
      (forall m, below long_history c m -> isACLNode m = true -> False).
Proof. apply compaction_deletes_safely; [exact long_history_keys|discriminate]. Defined.

(** What the run deletes. *)
Example long_history_pruned :
  pruneTree 2 long_history =
    Ok (Node None DocumentNode (Some 4)
          (Children [("c", Node None DocumentNode (Some 3)
             (Children [("w", Node None WriterNode (Some 9) NoChildren)]))]), ["b"; "a"]).
Proof. reflexivity. Qed.

End Pruning.
