(* ===== verification/DocumentTheory.v ===== *)
(** * Theorems about the document

    About the definitions of [Document]: encrypted blocks round-trip, a snapshot's
    signed payload is unambiguous, an unauthorized message changes nothing, and
    which snapshot is adopted does not depend on the order of arrival. *)
From stdpp Require Import base numbers list list_numbers strings sorting sets.
From Stdlib Require Import ZArith Lia.
From S2P Require Import Prelude TipsHash Utils Wire ChangeTree Auth WriterCache Document.

Open Scope string_scope.
Open Scope list_scope.
Open Scope nat_scope.

Module DocumentTheory.
Import ChangeTree Document.

(** ** Snapshot payloads *)

Lemma be64_inj x y : (0 <= x < 2 ^ 64)%Z -> (0 <= y < 2 ^ 64)%Z -> be64 x = be64 y -> x = y.
Proof.
  intros Hx Hy E. unfold be64 in E. apply app_inj_length in E as [E1 E2]; [|done].
  apply be32_inj in E1; [|split; [apply Z.div_pos|apply Z.div_lt_upper_bound]; lia..].
  apply be32_inj_mod in E2. rewrite (Z.div_mod x (2 ^ 32)), (Z.div_mod y (2 ^ 32)) by lia. congruence.
Qed.

(** A length-prefixed field is read back from the front. *)
Lemma prefixed_inj (a b ra rb : bytes) :
  (Z.of_nat (length a) <= 2 ^ 32 - 1)%Z -> (Z.of_nat (length b) <= 2 ^ 32 - 1)%Z ->
  be32 (Z.of_nat (length a)) ++ a ++ ra = be32 (Z.of_nat (length b)) ++ b ++ rb ->
  a = b /\ ra = rb.
Proof.
  intros Ha Hb E. apply app_inj_length in E as [E1 E2]; [|done].
  apply be32_inj in E1; [|lia..]. apply Nat2Z.inj in E1. by apply app_inj_length in E2.
Qed.

Lemma payload_ok st cid ts n p : buildSnapshotSignPayload st cid ts n = Ok p ->
  (0 <= ts <= MAX_SAFE_INTEGER)%Z /\ (0 <= n <= 2 ^ 32 - 1)%Z /\
  (Z.of_nat (length (TipsHash.utf8_encode cid)) <= 2 ^ 32 - 1)%Z /\
  (Z.of_nat (length st) <= 2 ^ 32 - 1)%Z /\
  p = [byte_of_Z 1] ++ be64 ts ++ be32 n ++
      be32 (Z.of_nat (length (TipsHash.utf8_encode cid))) ++ TipsHash.utf8_encode cid ++
      be32 (Z.of_nat (length st)) ++ st ++ [].
Proof.
  unfold buildSnapshotSignPayload. rewrite app_nil_r.
  destruct ((ts <? 0)%Z || (MAX_SAFE_INTEGER <? ts)%Z) eqn:H1; [done|].
  destruct ((n <? 0)%Z || (2 ^ 32 - 1 <? n)%Z) eqn:H2; [done|]. cbv zeta.
  destruct (2 ^ 32 - 1 <? Z.of_nat (length (TipsHash.utf8_encode cid)))%Z eqn:H3; [done|].
  destruct (2 ^ 32 - 1 <? Z.of_nat (length st))%Z eqn:H4; [done|].
  apply orb_false_iff in H1 as [?%Z.ltb_ge ?%Z.ltb_ge].
  apply orb_false_iff in H2 as [?%Z.ltb_ge ?%Z.ltb_ge].
  apply Z.ltb_ge in H3, H4. intros [= <-]. done.
Qed.

(** A snapshot's signature commits to its state, boundary CID, timestamp and count:
    two snapshots with the same signed payload agree on all four, and a timestamp
    or a count that does not fit its field is refused rather than truncated. *)
Theorem snapshot_payload_injective st cid ts n st' cid' ts' n' p :
  buildSnapshotSignPayload st cid ts n = Ok p ->
  buildSnapshotSignPayload st' cid' ts' n' = Ok p ->
  st = st' /\ cid = cid' /\ ts = ts' /\ n = n'.
Proof.
  intros (Hts & Hn & Hc & Hs & ->)%payload_ok (Hts' & Hn' & Hc' & Hs' & E)%payload_ok.
  unfold MAX_SAFE_INTEGER in *.
  apply app_inj_length in E as [_ E]; [|done]. apply app_inj_length in E as [E1 E]; [|done].
  apply app_inj_length in E as [E2 E]; [|done]. apply prefixed_inj in E as [E3 E]; [|done..].
  apply prefixed_inj in E as [-> _]; [|done..].
  apply be64_inj in E1; [|lia..]. apply be32_inj in E2; [|lia..]. apply TipsHash.utf8_encode_inj in E3.
  done.
Qed.

Lemma snapshot_payload_injective_witness :
  buildSnapshotSignPayload [] "a" 5 7 = buildSnapshotSignPayload [] "a" 5 7 /\
  exists p, buildSnapshotSignPayload [] "a" 5 7 = Ok p /\
    (@nil byte = [] /\ "a" = "a" /\ (5 = 5)%Z /\ (7 = 7)%Z).
Proof.
  split; [reflexivity|]. eexists. split; [vm_compute; reflexivity|].
  eapply (snapshot_payload_injective [] "a" 5 7 [] "a" 5 7); vm_compute; reflexivity.
Defined.

(** ** Encrypted frames *)

Section Doc.
  Context {DocType ChangesType ChangeFnType PublicKey DocumentKey ACL Keychain Group : Type}.
  Context `{!CRDTProvider DocType ChangesType ChangeFnType, !ACLProvider ACL ChangesType PublicKey,
    !KeychainProvider Keychain ChangesType DocumentKey, !Serializers ChangesType,
    !AuthProvider DocumentKey, !Wire.Base64}.

  Abbreviation docT := (@doc DocType ChangesType ChangeFnType PublicKey ACL Keychain Group).
  Context (cfg : @config ChangeFnType PublicKey).

(** What a keychain promises: the ID of the current key has the fixed width, and
    finds that key again, also in a keychain that has grown. *)
Class KeychainLaws := {
  kc_id_length : forall kc id k, kc_current kc = Ok (id, Some k) -> length id = keyIDLength;
  kc_finds : forall kc id k, kc_current kc = Ok (id, Some k) -> kc_getKey kc id = Ok (Some k);
}.

Class SerializerLaws := {
  changes_roundtrip : forall c b, serializeChanges c = Ok b -> deserializeChanges b = Ok c;
  message_roundtrip : forall m b, serializeSyncMessage m = Ok b -> deserializeSyncMessage b = Ok m;
}.

Lemma unframe_frame (keyID nonce data b : bytes) :
  length keyID = keyIDLength -> length nonce = nonceBits ->
  frame keyID nonce data = Ok b -> unframe b = (keyID, nonce, data).
Proof.
  intros Hk Hn. unfold frame. rewrite Utils.concatUint8Arrays_correct. intros [= <-]. cbn.
  rewrite app_nil_r. unfold unframe. rewrite <- Hk, <- Hn.
  rewrite take_app_length, drop_app_length, take_app_length.
  rewrite app_assoc, <- length_app, drop_app_length. done.
Qed.

(** A frame that was made under the current key decrypts under it. *)
Lemma decrypt_frame `{!KeychainLaws} (s : docT) keyID key d content nonce data :
  kc_current (_keychain s) = Ok (keyID, Some key) ->
  encrypt d content key = Ok (Some nonce, data) ->
  decryptBlock keyID nonce data s = (Ok (Some content), s).
Proof.
  intros Hc He. unfold decryptBlock, bind, get. rewrite (kc_finds _ _ _ Hc).
  unfold lift. by rewrite (decrypt_encrypt _ _ _ _ _ He).
Qed.

(** The statements of [_putBlock], when it succeeds. *)
Lemma putBlock_ok (c : ChangesType) (s : docT) cid s' :
  putBlock cfg c s = (Ok cid, s') ->
  exists keyID key content nonce data b,
    kc_current (_keychain s) = Ok (keyID, Some key) /\ serializeChanges c = Ok content /\
    encrypt (_draws s) content key = Ok (Some nonce, data) /\ frame keyID nonce data = Ok b /\
    addBytes cfg b = Ok cid /\
    s' = s <| _draws := S (_draws s) |> <| _blocks := map_set cid b (_blocks s) |>.
Proof.
  unfold putBlock. intros E. apply bind_inv in E as (? & ? & [= <- <-] & E).
  apply bind_inv in E as ([keyID key] & ? & [Hc ->]%lift_inv & E). simpl in E.
  destruct key as [key|]; [|done].
  apply bind_inv in E as (content & ? & [Hs ->]%lift_inv & E).
  apply bind_inv in E as (d & ? & [= <- <-] & E).
  apply bind_inv in E as ([nonce data] & ? & [He ->]%lift_inv & E). simpl in E.
  destruct nonce as [nonce|]; [|done].
  apply bind_inv in E as (b & ? & [Hf ->]%lift_inv & E).
  apply bind_inv in E as (cid' & ? & [Ha ->]%lift_inv & E).
  apply bind_inv in E as (? & ? & [= <- <-] & [= <- <-]).
  exists keyID, key, content, nonce, data, b. done.
Qed.

(** A change that was stored is read back: the block under the CID [_putBlock]
    returned decrypts and deserializes to the same change, from a document whose
    keychain still has the key. *)
Theorem block_roundtrip `{!KeychainLaws, !SerializerLaws} (c : ChangesType) (s : docT) cid s' :
  putBlock cfg c s = (Ok cid, s') -> getBlock cfg cid s' = (Ok c, s').
Proof.
  intros (keyID & key & content & nonce & data & b & Hc & Hs & He & Hf & Ha & ->)%putBlock_ok.
  unfold getBlock. erewrite bind_ok; cycle 1.
  { unfold blockstore_get, bind, get. simpl. rewrite map_get_set_eq. reflexivity. }
  rewrite (unframe_frame keyID nonce data b) by
    (eauto using kc_id_length, encrypt_nonce).
  erewrite bind_ok by (eapply decrypt_frame; simpl; eassumption).
  unfold lift. by rewrite (changes_roundtrip _ _ Hs).
Qed.

(** ** Authorization of a message *)

(** The signature names a writer: it decodes, and a current writer key verifies it
    over the message without its signature. *)
Definition signed_by_writer (m : CRDTSyncMessage ChangesType) (s : docT) : Prop :=
  exists raw keys sig sigBytes,
    serializeSyncMessage (m <| signature := None |>) = Ok raw /\
    acl_users (_writers s) = Ok keys /\ signature m = Some sig /\
    Wire.toUint8Array sig = Some sigBytes /\
    exists k, k ∈ keys /\ verify cfg raw k sigBytes = Ok true.

Lemma firstTrue_true l : Utils.firstTrue l = Ok true -> Ok true ∈ l.
Proof.
  induction l as [|[[]|] l IH]; simpl; [done|by left|intros; right; auto|done].
Qed.

Lemma verify_signed raw sig (s : docT) s' : enableSigning cfg = true ->
  (forall l, settle cfg l ≡ₚ l) ->
  verifyWriterSignature cfg raw sig s = (Ok true, s') ->
  s' = s /\ exists keys sigBytes, acl_users (_writers s) = Ok keys /\
    Wire.toUint8Array sig = Some sigBytes /\ exists k, k ∈ keys /\ verify cfg raw k sigBytes = Ok true.
Proof.
  intros Hen Hset E. unfold verifyWriterSignature in E.
  apply bind_inv in E as (keys & ? & [= Hk <-] & [E ->]%lift_inv). split; [done|].
  unfold WriterCache.verifyWriterSignature in E. rewrite Hen in E. simpl in E.
  destruct (length keys =? 0); [done|]. destruct (Wire.toUint8Array sig) as [sb|] eqn:Hb; [|done].
  apply firstTrue_true in E. rewrite (Hset _) in E.
  apply list_elem_of_In, in_map_iff in E as (k & Hv & Hin%list_elem_of_In). eauto 10.
Qed.

(** With signing enabled, a message that [sync] is to check changes nothing
    unless a current writer signed it: every other run of [sync] returns [false] or
    throws, and leaves every field as it was. *)
Lemma sync_unsigned completion (m : CRDTSyncMessage ChangesType) (s : docT) :
  enableSigning cfg = true -> (forall l, settle cfg l ≡ₚ l) ->
  signed_by_writer m s \/
  ((sync cfg completion m true s).2 = s /\ (sync cfg completion m true s).1 <> Ok true).
Proof.
  intros Hen Hset. unfold sync. rewrite Hen.
  destruct (truthy (signature m)) as [sig|] eqn:Hsig; [|by right].
  assert (Hs : signature m = Some sig).
  { unfold truthy in Hsig. destruct (signature m) as [[|]|]; simplify_eq; done. }
  destruct (serializeSyncMessage (m <| signature := None |>)) as [raw|e] eqn:Hraw;
    [|by right].
  destruct (verifyWriterSignature cfg raw sig s) as [[[]|e] s'] eqn:Hv.
  - left. destruct (verify_signed raw sig s s' Hen Hset Hv) as (_ & keys & sb & ? & ? & k & ? & ?).
    exists raw, keys, sig, sb. eauto 10.
  - right. assert (Hv' : s' = s).
    { unfold verifyWriterSignature, bind, getWriterKeys, lift in Hv. by repeat case_match; simplify_eq. }
    subst s'. erewrite bind_ok; cycle 1.
    { simpl. unfold bind, lift. exact Hv. }
    done.
  - right. assert (Hv' : s' = s).
    { unfold verifyWriterSignature, bind, getWriterKeys, lift in Hv. by repeat case_match; simplify_eq. }
    subst s'. rewrite !(bind_err _ _ s e s) by (simpl; unfold bind, lift; exact Hv). done.
Qed.

(** ** Snapshots are adopted in an order of their own *)

(** The keys by which [sync] compares snapshots, and their order. *)
Definition key_lt (a b : CRDTSnapshotNode ChangesType) : Prop :=
  (compactedCount a < compactedCount b)%Z \/
  (compactedCount a = compactedCount b /\ String.ltb (lastChangeNodeCID a) (lastChangeNodeCID b) = true).

Lemma ltb_leb (a b : string) : String.ltb a b = negb (String.leb b a).
Proof.
  unfold String.ltb, String.leb. rewrite (String.compare_antisym a b).
  by destruct (String.compare b a).
Qed.

Lemma key_lt_trans a b c : key_lt a b -> ~ key_lt c b -> key_lt a c.
Proof.
  unfold key_lt. rewrite !ltb_leb, !negb_true_iff. intros [Hab|[Hab Hs]] Hcb.
  - destruct (Z.lt_trichotomy (compactedCount b) (compactedCount c)) as [?|[?|?]]; [lia|lia|].
    exfalso. apply Hcb. by left.
  - destruct (Z.lt_trichotomy (compactedCount b) (compactedCount c)) as [?|[He|?]]; [lia| |].
    + right. split; [lia|]. apply not_true_iff_false. intros Hle. apply Hcb. right. split; [done|].
      apply not_true_iff_false. intros Hbc.
      assert (String.leb (lastChangeNodeCID b) (lastChangeNodeCID a) = true); [|congruence].
      by apply (TipsHash.string_le_trans _ (lastChangeNodeCID c)).
    + exfalso. apply Hcb. by left.
Qed.

Lemma key_lt_asym a b : key_lt a b -> ~ key_lt b a.
Proof.
  unfold key_lt. rewrite !ltb_leb, !negb_true_iff. intros [?|[E H1]] [?|[E' H2]]; [lia..|].
  destruct (String.leb_total (lastChangeNodeCID a) (lastChangeNodeCID b)); congruence.
Qed.

Lemma key_lt_irrefl a : ~ key_lt a a.
Proof.
  intros [?|[_ Hs]]; [lia|]. rewrite ltb_leb, negb_true_iff in Hs.
  assert (String.leb (lastChangeNodeCID a) (lastChangeNodeCID a) = true); [|congruence].
  pose proof (String.leb_total (lastChangeNodeCID a) (lastChangeNodeCID a)) as [?|?]; done.
Qed.

Lemma supersedes_iff x (l : CRDTSnapshotNode ChangesType) : supersedes x (Some l) = true <-> key_lt l x.
Proof.
  unfold supersedes, key_lt. rewrite orb_true_iff, andb_true_iff, Z.ltb_lt, Z.eqb_eq. naive_solver.
Qed.

(** A snapshot whose signature the current writers verify (or signing is off) and
    which the CRDT can apply. *)
Definition adoptable (s : docT) (x : CRDTSnapshotNode ChangesType) : Prop :=
  (enableSigning cfg = false \/
   exists b p keys, serializeChanges (s_state x) = Ok b /\
     buildSnapshotSignPayload b (lastChangeNodeCID x) (timestamp x) (compactedCount x) = Ok p /\
     acl_users (_writers s) = Ok keys /\
     WriterCache.verifySnapshotSignature (verify cfg) (settle cfg) (enableSigning cfg) keys p (s_signature x) = Ok true) /\
  forall d, exists d', match applySnapshot with
                       | Some f => f d (s_state x) | None => remoteChange d (s_state x) end = Ok d'.

Lemma adopt_valid (s : docT) x : adoptable s x ->
  exists s', adoptSnapshot cfg x s = (Ok tt, s') /\ _writers s' = _writers s /\
    _latestSnapshot s' = (if supersedes x (_latestSnapshot s) then Some x else _latestSnapshot s).
Proof.
  intros [Hsig Happ]. unfold adoptSnapshot. rewrite (bind_ok _ _ s s s) by done.
  destruct (supersedes x (_latestSnapshot s)) eqn:Hsup; [|by exists s].
  erewrite (bind_ok _ _ s true s); cycle 1.
  { destruct Hsig as [->|(b & p & keys & Hb & Hp & Hk & Hv)]; [done|].
    destruct (enableSigning cfg) eqn:Hen; [|done]. simpl. unfold catch, bind, lift. rewrite Hb, Hp.
    unfold verifySnapshotSignature, bind, getWriterKeys, lift. rewrite Hk, Hen, Hv. done. }
  simpl. destruct (Happ (_document s)) as [d Hd].
  rewrite (bind_ok _ _ s s s) by done. rewrite (bind_ok _ _ s d s) by (unfold lift; by rewrite Hd).
  unfold bind, modify, when. destruct (String.eqb (lastChangeNodeCID x) ""); eexists; split; [reflexivity|done|reflexivity|done].
Qed.

Lemma adoptable_writers (s s' : docT) x : _writers s' = _writers s -> adoptable s x -> adoptable s' x.
Proof. unfold adoptable. by intros ->. Qed.

Definition held (s : docT) : list (CRDTSnapshotNode ChangesType) :=
  match _latestSnapshot s with Some x => [x] | None => [] end.

(** Snapshots converge: after any sequence of valid snapshots, in whatever order
    they arrive, the one held is the greatest of them and of the one held before,
    by the number of compacted changes and then by the boundary CID. *)
Theorem snapshot_adoption_max l : forall s : docT,
  Forall (adoptable s) l -> held s ++ l <> [] ->
  exists s' x, for_each (fun _ y => adoptSnapshot cfg y) tt l s = (Ok tt, s') /\
    _latestSnapshot s' = Some x /\ x ∈ held s ++ l /\
    forall y, y ∈ held s ++ l -> ~ key_lt x y.
Proof.
  induction l as [|y l IH]; intros s HF Hne.
  - unfold held in *. destruct (_latestSnapshot s) as [x|] eqn:E; [|done].
    exists s, x. split_and!; [done|done|by left|].
    intros y ->%list_elem_of_singleton. apply key_lt_irrefl.
  - apply Forall_cons in HF as [Hy HF]. destruct (adopt_valid s y Hy) as (s1 & Hs1 & Hw & Hlat).
    assert (HF1 : Forall (adoptable s1) l).
    { eapply Forall_impl; [exact HF|]. intros z. by apply adoptable_writers. }
    assert (Hheld : held s1 = [y] /\ (forall z, z ∈ held s -> key_lt z y) \/
                    held s1 = held s /\ exists z, held s = [z] /\ ~ key_lt z y).
    { unfold held. rewrite Hlat. destruct (_latestSnapshot s) as [z|] eqn:E.
      - destruct (supersedes y (Some z)) eqn:Es.
        + left. split; [done|]. intros ? ->%list_elem_of_singleton. by apply supersedes_iff.
        + right. split; [done|]. exists z. split; [done|]. rewrite <- supersedes_iff. congruence.
      - left. split; [done|]. by intros z ?%elem_of_nil. }
    destruct (IH s1 HF1) as (s' & x & Hrun & Hx & Hin & Hmax).
    { destruct Hheld as [[-> _]|[-> (z & -> & _)]]; done. }
    exists s', x. split_and!; [by simpl; rewrite (bind_ok _ _ s tt s1)|done| |].
    + destruct Hheld as [[E _]|[E _]]; rewrite E in Hin; set_solver.
    + intros z Hz Hlt. destruct Hheld as [[E Hold]|[E (z0 & E0 & Hz0)]]; rewrite E in Hmax.
      * assert (z ∈ [y] ++ l \/ z ∈ held s) as [?|Hh] by set_solver; [by eapply Hmax|].
        apply (Hmax y); [set_solver|]. eapply key_lt_trans; [exact Hlt|]. by apply key_lt_asym, Hold.
      * assert (z ∈ held s ++ l \/ z = y) as [?| ->] by set_solver; [by eapply Hmax|].
        apply (Hmax z0); [rewrite E0; set_solver|]. by eapply key_lt_trans.
Qed.

End Doc.
End DocumentTheory.
