(* ===== verification/Transactions.v ===== *)
(** * Transactions and the document's invariant

    About [Document]: a transaction that fails leaves the document as it was, and
    every operation, whether it returns or throws, keeps the invariant on the
    sets, tips and counters of a document. *)
From stdpp Require Import base numbers list list_numbers strings sets.
From Stdlib Require Import ZArith Lia.
From S2P Require Import Prelude TipsHash Utils Wire ChangeTree Auth WriterCache Document.

Open Scope string_scope.
Open Scope list_scope.
Open Scope nat_scope.

Module Transactions.
Import ChangeTree Document.

(** [throws R m]: a run of [m] that throws relates the fields before and after. *)
Definition throws {S A} (R : relation S) (m : eff S A) : Prop :=
  forall s e s', m s = (Err (Throw e), s') -> R s s'.

Section Throws.
  Context {S : Type} (R : relation S) `{!PreOrder R}.

Lemma throws_steps {A} (m : eff S A) : steps R m -> throws R m.
Proof. intros H s e s' E. specialize (H s). by rewrite E in H. Qed.

Lemma throws_bind {A B} (m : eff S A) (k : A -> eff S B) :
  steps R m -> (forall a, throws R (k a)) -> throws R (bind m k).
Proof.
  intros Hm Hk s e s' E. specialize (Hm s). unfold bind in E.
  destruct (m s) as [[a|[e'|]] s1]; [|by simplify_eq|done].
  transitivity s1; [done|by eapply Hk].
Qed.

Lemma throws_never {A} (m : eff S A) : (forall s e s', m s <> (Err (Throw e), s')) -> throws R m.
Proof. intros H s e s' E. by destruct (H s e s'). Qed.
End Throws.

Section Doc.
  Context {DocType ChangesType ChangeFnType PublicKey DocumentKey ACL Keychain Group : Type}.
  Context `{!CRDTProvider DocType ChangesType ChangeFnType, !ACLProvider ACL ChangesType PublicKey,
    !KeychainProvider Keychain ChangesType DocumentKey, !Serializers ChangesType,
    !AuthProvider DocumentKey, !Wire.Base64}.

  Abbreviation docT := (@doc DocType ChangesType ChangeFnType PublicKey ACL Keychain Group).
  Context (cfg : @config ChangeFnType PublicKey).

(** ** What authoring a change may touch *)

Definition grows (l l' : list string) : Prop := l `prefix_of` l' /\ (NoDup l -> NoDup l').

#[local] Instance grows_preorder : PreOrder grows.
Proof.
  split.
  - intros l. by split.
  - intros a b c [H1 H2] [H3 H4]. split; [by etrans|auto].
Qed.

Lemma grows_add x l : grows l (set_add x l).
Proof.
  split; [|apply NoDup_set_add]. unfold set_add. case_decide; [done|by exists [x]].
Qed.

Lemma grows_foldl xs l : grows l (foldl (flip set_add) l xs).
Proof.
  revert l. induction xs as [|x xs IH]; intros l; simpl; [done|].
  etrans; [apply grows_add|apply IH].
Qed.

(** The fields a transaction saves or that only record what left the document may
    change, the two sets only grow, and everything else is as before. *)
Record authoring (s s' : docT) : Prop := {
  au_rest : s' = s <| _document := _document s' |> <| _lastSyncMessage := _lastSyncMessage s' |>
                   <| _hashes := _hashes s' |> <| _referencedAncestors := _referencedAncestors s' |>
                   <| _recentTips := _recentTips s' |>
                   <| _changesSinceSnapshot := _changesSinceSnapshot s' |>
                   <| _documentChangeCount := _documentChangeCount s' |>
                   <| _blocks := _blocks s' |> <| _events := _events s' |> <| _draws := _draws s' |>;
  au_hashes : grows (_hashes s) (_hashes s');
  au_refs : grows (_referencedAncestors s) (_referencedAncestors s');
}.

#[local] Instance authoring_preorder : PreOrder authoring.
Proof.
  split.
  - intros s. split; [by destruct s|done..].
  - intros s1 s2 s3 [E1 H1 R1] [E2 H2 R2]. split; [|by etrans..].
    rewrite E2 at 1. rewrite E1 at 1. reflexivity.
Qed.

Lemma authoring_intro (s s' : docT) :
  s' = s <| _document := _document s' |> <| _lastSyncMessage := _lastSyncMessage s' |>
         <| _recentTips := _recentTips s' |>
         <| _changesSinceSnapshot := _changesSinceSnapshot s' |>
         <| _documentChangeCount := _documentChangeCount s' |>
         <| _blocks := _blocks s' |> <| _events := _events s' |> <| _draws := _draws s' |> ->
  authoring s s'.
Proof.
  intros E. assert (Hh : _hashes s' = _hashes s) by by rewrite E.
  assert (Hr : _referencedAncestors s' = _referencedAncestors s) by by rewrite E.
  split; rewrite ?Hh, ?Hr; done.
Qed.

Ltac author := apply steps_modify; let x := fresh in intros x; apply authoring_intro; destruct x; reflexivity.

Lemma draw_authoring : steps authoring draw.
Proof. unfold draw. steps_tac. author. Qed.
Lemma emit_authoring e : steps authoring (emit e).
Proof. unfold emit. author. Qed.
#[local] Hint Resolve draw_authoring emit_authoring : steps.

Lemma putBlock_authoring c : steps authoring (putBlock cfg c).
Proof. unfold putBlock. steps_tac. author. Qed.

Lemma encrypt_authoring b : steps authoring (encrypt_current b).
Proof. unfold encrypt_current. steps_tac. Qed.

Lemma sign_authoring m : steps authoring (signAsWriter cfg m).
Proof. unfold signAsWriter, signAsWriterUnconditional. steps_tac. Qed.

Lemma read_authoring {A} (f : docT -> result A) : steps authoring (fun s => (f s, s)).
Proof. by intros s. Qed.

Lemma fire_authoring hs l : steps authoring (fireUpdateHandlers hs l).
Proof.
  unfold fireUpdateHandlers, getReaders, getWriters. steps_tac;
    first [apply read_authoring|apply steps_bind; [apply _|apply read_authoring|intros ?]; steps_tac].
Qed.

Lemma ensure_authoring : steps authoring (ensureCurrentUserCanWrite cfg).
Proof. unfold ensureCurrentUserCanWrite. steps_tac. Qed.
#[local] Hint Resolve putBlock_authoring encrypt_authoring sign_authoring fire_authoring ensure_authoring : steps.

Lemma addHash_authoring h : steps authoring (modify (addHash h)).
Proof.
  apply steps_modify. intros s. split; [by destruct s|apply grows_add|done].
Qed.

Lemma track_authoring h k : steps authoring (modify (trackTip h k)).
Proof. author. Qed.

Lemma count_authoring : steps authoring (modify countChange).
Proof. author. Qed.

Lemma local_fire_authoring l : steps authoring (fireLocalUpdateHandlers l).
Proof. unfold fireLocalUpdateHandlers. steps_tac. Qed.
#[local] Hint Resolve addHash_authoring track_authoring count_authoring local_fire_authoring : steps.

(** ** A snapshot throws only before it assigns anything *)

Lemma gcBlock_quiet cid (s : docT) e s' : gcBlock cfg cid s <> (Err (Throw e), s').
Proof.
  unfold gcBlock. unfold catch at 1. by destruct (bind _ _ s) as [[a|[x|]] s1].
Qed.

Lemma gc_quiet l : forall (s : docT) e s', gcPrunedBlocks cfg l s <> (Err (Throw e), s').
Proof.
  unfold gcPrunedBlocks. induction l as [|c l IH]; intros s e s' E; simpl in E; [done|].
  unfold bind in E. destruct (gcBlock cfg c s) as [[[]|[x|]] s1] eqn:Eg; [by eapply IH| |done].
  by eapply gcBlock_quiet.
Qed.

Lemma prune_loop_total keep fuel : forall (queue : list (list string * CRDTChangeNode ChangesType)) v cuts pr,
  sum_list (tree_size <$> queue.*2) <= fuel ->
  exists r, prune_loop fuel keep queue v cuts pr = Ok r.
Proof.
  induction fuel as [|fuel IH]; intros [|[p n] queue] v cuts pr Hf; try by eexists.
  { csimpl in Hf. pose proof (tree_size_pos n). lia. }
  csimpl in Hf. cbn [prune_loop]. pose proof (tree_size_pos n).
  destruct (node_children n) as [| |l] eqn:El; [apply IH; lia..|].
  destruct (_ && _); [destruct (collectACLNodes _ _); apply IH; lia|]. apply IH.
  rewrite fmap_app, fmap_app, sum_list_with_app. rewrite (tree_size_children n l El) in Hf.
  assert (Hm : (map (fun c => (p ++ [c.1], c.2)) l).*2 = l.*2)
    by (clear; induction l as [|[x y] l IHl]; csimpl; [done|by rewrite IHl]).
  rewrite Hm. lia.
Qed.

Lemma pruneTree_total keep (root : CRDTChangeNode ChangesType) : exists r, pruneTree keep root = Ok r.
Proof.
  unfold pruneTree. destruct (prune_loop_total keep (tree_size root) [([], root)] 0 [] []) as [r ->];
    [csimpl; lia|]. by eexists.
Qed.

Lemma prune_quiet k (s : docT) e s' : pruneChanges k s <> (Err (Throw e), s').
Proof.
  unfold pruneChanges. destruct (k <=? 0)%Z; [done|]. rewrite (bind_ok _ _ s s s) by done.
  destruct (_lastSyncMessage s) as [m|]; [|done].
  destruct (changes m) as [root|]; [|done]. destruct (truthy (changeId m)); [|done].
  destruct (pruneTree_total k root) as [r ->]. done.
Qed.

Lemma compact_quiet cid (s : docT) e s' : compactAfterSnapshot cfg cid s <> (Err (Throw e), s').
Proof.
  unfold compactAfterSnapshot. intros E. rewrite (bind_ok _ _ s s s) in E by done.
  destruct (_ && _); [|done]. unfold bind at 1 in E.
  destruct (pruneChanges _ s) as [[p|x] s2] eqn:Ep; [|injection E as -> ->; by eapply prune_quiet].
  rewrite (bind_ok _ _ s2 s2 s2) in E by done.
  destruct (_lastSyncMessage s2 ≫= changes) as [root|]; [|done].
  destruct (truthy _) as [rid|]; [|done]. destruct (_ && _); [|done]. cbv zeta in E.
  match type of E with context [filterDeletableCIDs p _ _ ?prot] =>
    destruct (deletable_spec p (Some rid) (Some root) prot) as (d & Hd & _) end.
  rewrite Hd in E. rewrite (bind_ok _ _ s2 d s2) in E by done. by eapply gc_quiet.
Qed.

Lemma snapshot_throws : throws authoring (snapshot cfg).
Proof.
  unfold snapshot. apply throws_bind; [apply _|apply ensure_authoring|intros _].
  destruct getSnapshot as [f|]; [|intros s e s' E; done].
  apply throws_bind; [apply _|by intros s|intros s].
  apply throws_bind; [apply _|by intros ?|intros st].
  apply throws_bind; [apply _|apply draw_authoring|intros d].
  apply throws_bind; [apply _|by intros ?|intros b].
  apply throws_bind; [apply _|steps_tac|intros sig].
  apply throws_never. intros s1 e s' E. rewrite bind_modify in E.
  unfold bind in E. destruct (compactAfterSnapshot cfg _ _) as [[a|x] s2] eqn:Ec; [done|].
  injection E as -> ->. by eapply compact_quiet.
Qed.

Lemma maybeCompact_throws : throws authoring (maybeCompact cfg).
Proof.
  unfold maybeCompact. intros s e s' E. rewrite (bind_ok _ _ s s s) in E by done.
  destruct (_ || _); [done|]. destruct (_compactionInProgress s) eqn:Hp; [done|].
  destruct (_ <? _)%Z; [done|]. destruct (_ <? _)%Z; [done|].
  unfold bind at 1, lift in E. destruct (acl_check _ _) as [[]|[x|]]; simplify_eq/=; try done.
  rewrite bind_modify in E. unfold finally in E.
  destruct (bind _ _ (s <| _compactionInProgress := true |>)) as [r s1] eqn:Eb.
  injection E as -> <-. unfold bind in Eb.
  destruct (snapshot cfg _) as [[a|x] s2] eqn:Es; [done|]. injection Eb as -> <-.
  destruct (snapshot_throws _ _ _ Es) as [Er Hh Hr]. clear -Hp Er Hh Hr.
  split; [|exact Hh|exact Hr]. rewrite Er at 1. clear -Hp. destruct s; cbn in *. subst. reflexivity.
Qed.

Lemma makeChange_throws c k : throws authoring (makeChange cfg c k).
Proof.
  unfold makeChange. cbv zeta.
  apply throws_bind; [apply _|eauto with steps|intros hash].
  apply throws_bind; [apply _|eauto with steps|intros _].
  apply throws_bind; [apply _|by intros s|intros s].
  apply throws_bind; [apply _|apply steps_modify; intros x; split; [by destruct x|done|apply grows_foldl]|intros _].
  apply throws_bind; [apply _|eauto with steps|intros _].
  apply throws_bind; [apply _|eauto with steps|intros sig].
  apply throws_bind; [apply _|author|intros _].
  apply throws_bind; [apply _|by intros x|intros b].
  apply throws_bind; [apply _|eauto with steps|intros assembled].
  apply throws_bind; [apply _|by intros x|intros _].
  apply throws_bind; [apply _|eauto with steps|intros _].
  apply throws_bind; [apply _|eauto with steps|intros _].
  destruct (bool_decide _); [|by intros x e x'].
  apply throws_bind; [apply _|eauto with steps|intros _]. apply maybeCompact_throws.
Qed.

(** ** A failed transaction *)

Lemma trim_grown l l' : NoDup l -> grows l l' -> trim (length l) l' = l.
Proof.
  intros Hn [[k ->] Hnd]. specialize (Hnd Hn). apply NoDup_app in Hnd as (_ & Hdis & _).
  unfold trim. destruct (Nat.ltb_spec (length l) (length (l ++ k))) as [_|Hle].
  - rewrite drop_app_length, List.filter_app.
    assert (H1 : List.filter (fun x => negb (set_has x k)) l = l).
    { clear Hn. induction l as [|x l IH]; simpl; [done|].
      unfold set_has at 1. rewrite bool_decide_eq_false_2; [|apply Hdis; by left]. simpl. f_equal.
      apply IH. intros y ?. apply Hdis. by right. }
    assert (H2 : List.filter (fun x => negb (set_has x k)) k = []).
    { assert (Hk : forall k0, k0 ⊆ k -> List.filter (fun x => negb (set_has x k)) k0 = []).
      { induction k0 as [|x k0 IH]; intros Hs; simpl; [done|].
        unfold set_has at 1. rewrite bool_decide_eq_true_2; [|apply Hs; by left]. apply IH. set_solver. }
      by apply Hk. }
    by rewrite H1, H2, app_nil_r.
  - rewrite length_app in Hle. destruct k; [by rewrite app_nil_r|]. simpl in Hle. lia.
Qed.

(** The sets of a document have no duplicates. *)
Definition sets_ok (s : docT) : Prop := NoDup (_hashes s) /\ NoDup (_referencedAncestors s).

(** What the document object of before is when the transaction has failed: [localChange]
    has run on it, unless the user may not write. *)
Definition original_after (msg : string) (s : docT) : DocType :=
  match (ensureCurrentUserCanWrite cfg s).1 with
  | Ok _ => localMutated (_document s) msg (compose cfg (_pendingChangeFns s))
  | Err _ => _document s
  end.

(** The end of a failed transaction. *)
Definition aborted (s s' : docT) (d : DocType) : docT :=
  s <| _document := d |> <| _inTransaction := false |> <| _pendingChangeFns := [] |>
    <| _blocks := _blocks s' |> <| _events := _events s' |> <| _draws := _draws s' |>.

Lemma rollback_restores (s s2 s' : docT) d err e : sets_ok s -> _committing s = false -> authoring (s <| _committing := true |>) s2 ->
  rollback s d err s2 = (Err e, s') -> s' <| _committing := false |> = aborted s s' d /\ e = Throw err.
Proof.
  intros [Hnh Hnr] Hco [Er Hh Hr] E. unfold rollback in E. rewrite bind_modify in E. injection E as <- <-. split; [|done].
  unfold aborted. simpl. rewrite (trim_grown (_hashes s)), (trim_grown (_referencedAncestors s)) by done.
  rewrite Er at 1. clear -Hco. destruct s; cbn in *. subst. reflexivity.
Qed.

Lemma commit_throws msg fn : throws authoring (let! c := applyLocalChange msg fn in
  let! _ := makeChange cfg c DocumentNode in modify (fun s => s <| _inTransaction := false |> <| _pendingChangeFns := [] |>)).
Proof.
  apply throws_bind; [apply _| |].
  - unfold applyLocalChange. steps_tac; author.
  - intros c y e' y' Ey. unfold bind in Ey. destruct (makeChange cfg c DocumentNode y) as [[a|x'] y2] eqn:Em; [done|].
    injection Ey as -> <-. by eapply makeChange_throws.
Qed.

Lemma endChange_restores msg (s : docT) e s' :
  sets_ok s -> _inTransaction s = true -> _committing s = false -> _pendingChangeFns s <> [] ->
  endChange cfg msg s = (Err (Throw e), s') -> s' = aborted s s' (original_after msg s).
Proof.
  intros Hok Hin Hco Hpe E. unfold endChange in E. rewrite (bind_ok _ _ s s s) in E by done.
  rewrite Hin, Hco in E. simpl in E. destruct (Nat.eqb_spec (length (_pendingChangeFns s)) 0) as [H0|_];
    [by apply length_zero_iff_nil in H0|].
  rewrite bind_modify in E. unfold finally in E. set (s1 := s <| _committing := true |>) in *.
  assert (Hen : (ensureCurrentUserCanWrite cfg s1).1 = (ensureCurrentUserCanWrite cfg s).1).
  { unfold ensureCurrentUserCanWrite, bind, get, lift. cbn. by repeat case_match. }
  pose proof (ensure_authoring s1) as Ha. unfold original_after. rewrite <- Hen.
  match type of E with context [catch (bind (applyLocalChange ?a ?b) ?k) _] => set (commit := bind (applyLocalChange a b) k) in * end.
  unfold bind, catch in E.
  destruct (ensureCurrentUserCanWrite cfg s1) as [[[]|[err|]] s2] eqn:Ew; cbn [fst snd] in *.
  - destruct (commit s2) as [[[]|[err|]] s3] eqn:Eb; [done| |done].
    assert (Hs3 : authoring s1 s3) by (etrans; [exact Ha|]; exact (commit_throws _ _ _ _ _ Eb)).
    destruct (rollback s _ err s3) as [[]  s4] eqn:Er; [done|]. injection E as -> <-.
    by destruct (rollback_restores _ _ _ _ _ _ Hok Hco Hs3 Er) as [-> _].
  - destruct (rollback s _ err s2) as [[] s4] eqn:Er; [done|]. injection E as -> <-.
    by destruct (rollback_restores _ _ _ _ _ _ Hok Hco Ha Er) as [-> _].
  - done.
Qed.

(** C5. A transaction is atomic up to what the provider does in place: when [endChange]
    throws, at whatever step (no write permission, a change function, encryption,
    publishing, a handler, compaction), and nothing else ran meanwhile, the transaction is
    over, every field but the document is as before, and only blocks already stored and
    messages already sent remain. The document is the object of before: for a provider
    that returns a new document it is unchanged, and for one that works in place it has
    what [localChange] did to it, unless the user may not write at all. *)
Theorem endChange_atomic msg (s : docT) e s' :
  sets_ok s -> _inTransaction s = true -> _committing s = false -> _pendingChangeFns s <> [] ->
  endChange cfg msg s = (Err (Throw e), s') ->
  s' = aborted s s' (original_after msg s) /\
  ((forall d m f, localMutated d m f = d) -> s' = aborted s s' (_document s)).
Proof.
  intros Hok Hin Hco Hpe E. pose proof (endChange_restores _ _ _ _ Hok Hin Hco Hpe E) as Hs. split; [done|].
  intros Hp. assert (Ho : original_after msg s = _document s) by (unfold original_after; rewrite Hp; by case_match). by rewrite <- Ho.
Qed.

(** ** The invariant of a document *)

Record doc_ok (s : docT) : Prop := {
  ok_hashes : NoDup (_hashes s);
  ok_refs : NoDup (_referencedAncestors s);
  ok_tips : (Z.of_nat (length (_recentTips s)) <= MAX_RECENT_TIPS)%Z;
  ok_tip_cids : NoDup (tip_cid <$> _recentTips s);
  ok_counts : (0 <= _changesSinceSnapshot s <= _documentChangeCount s)%Z;
  ok_snapshot x : _latestSnapshot s = Some x -> (compactedCount x <= _documentChangeCount s)%Z;
}.

Definition keeps_ok (s s' : docT) : Prop := doc_ok s -> doc_ok s'.

#[local] Instance keeps_ok_preorder : PreOrder keeps_ok.
Proof. split; [by intros s Hs|]. intros a b c K1 K2 K3. auto. Qed.

(** An assignment that leaves the fields of the invariant alone. *)
Lemma keeps_same (s s' : docT) :
  _hashes s' = _hashes s -> _referencedAncestors s' = _referencedAncestors s ->
  _recentTips s' = _recentTips s -> _changesSinceSnapshot s' = _changesSinceSnapshot s ->
  _documentChangeCount s' = _documentChangeCount s -> _latestSnapshot s' = _latestSnapshot s ->
  keeps_ok s s'.
Proof.
  intros E1 E2 E3 E4 E5 E6 [K1 K2 K3 K4 K5 K6].
  split; [by rewrite E1|by rewrite E2|by rewrite E3|by rewrite E3|by rewrite E4, E5|].
  intros x Hx. rewrite E5. apply K6. congruence.
Qed.

Ltac keep := apply steps_modify; let x := fresh in intros x; apply keeps_same; reflexivity.

Lemma track_tip_ok tips e : NoDup (tip_cid <$> tips) -> (Z.of_nat (length tips) <= MAX_RECENT_TIPS)%Z ->
  NoDup (tip_cid <$> trackTipInList tips e MAX_RECENT_TIPS) /\
  (Z.of_nat (length (trackTipInList tips e MAX_RECENT_TIPS)) <= MAX_RECENT_TIPS)%Z.
Proof.
  intros Hn Hl. destruct (String.eqb_spec (tip_cid e) "") as [He|He].
  - unfold trackTipInList. by rewrite (proj2 (String.eqb_eq _ _) He).
  - destruct (track_tip_correct tips e MAX_RECENT_TIPS Hn He) as (? & ? & _); [done|]. done.
Qed.

Lemma track_keeps h k : steps keeps_ok (modify (trackTip h k)).
Proof.
  apply steps_modify. intros s [? ? Hl Hn ? ?]. destruct (track_tip_ok _ (Tip h k) Hn Hl). by split.
Qed.

Lemma addHash_keeps h : steps keeps_ok (modify (addHash h)).
Proof. apply steps_modify. intros s []. split; simpl; try done. by apply NoDup_set_add. Qed.

Lemma count_keeps : steps keeps_ok (modify countChange).
Proof.
  apply steps_modify. intros s [? ? ? ? ? Hs]. split; simpl; try done; [lia|].
  intros x Hx. specialize (Hs x Hx). lia.
Qed.

Lemma emit_keeps e : steps keeps_ok (emit e).
Proof. unfold emit. keep. Qed.

Lemma draw_keeps : steps keeps_ok draw.
Proof. unfold draw. steps_tac. keep. Qed.
#[local] Hint Resolve track_keeps addHash_keeps count_keeps emit_keeps draw_keeps : steps.

Lemma read_keeps {A} (f : docT -> result A) : steps keeps_ok (fun s => (f s, s)).
Proof. by intros s. Qed.

Lemma fire_keeps hs l : steps keeps_ok (fireUpdateHandlers hs l).
Proof. unfold fireUpdateHandlers, getReaders, getWriters. steps_tac; apply read_keeps. Qed.
#[local] Hint Resolve fire_keeps : steps.

Lemma remote_fire_keeps l : steps keeps_ok (fireRemoteUpdateHandlers l).
Proof. unfold fireRemoteUpdateHandlers. steps_tac. Qed.
Lemma local_fire_keeps l : steps keeps_ok (fireLocalUpdateHandlers l).
Proof. unfold fireLocalUpdateHandlers. steps_tac. Qed.
Lemma mergeReaders_keeps c : steps keeps_ok (mergeReaders c).
Proof. unfold mergeReaders. steps_tac. keep. Qed.
Lemma mergeWriters_keeps c : steps keeps_ok (mergeWriters c).
Proof. unfold mergeWriters. steps_tac. keep. Qed.
#[local] Hint Resolve remote_fire_keeps local_fire_keeps mergeReaders_keeps mergeWriters_keeps : steps.

Lemma applyACL_keeps n : steps keeps_ok (applyACLFromTree n).
Proof.
  induction n as [k kd c ch IH] using node_ind'. cbn [applyACLFromTree].
  apply steps_bind; [apply _| |intros _]; [steps_tac|]. destruct ch as [| |l]; [steps_tac..|].
  induction IH as [|[x y] l Hy _ IHl]; [steps_tac|]. apply steps_bind; [apply _|exact Hy|intros _; exact IHl].
Qed.

Lemma ensure_keeps : steps keeps_ok (ensureCurrentUserCanWrite cfg).
Proof. unfold ensureCurrentUserCanWrite. steps_tac. Qed.

Lemma putBlock_keeps c : steps keeps_ok (putBlock cfg c).
Proof. unfold putBlock. steps_tac. keep. Qed.

Lemma getBlock_keeps c : steps keeps_ok (getBlock cfg c).
Proof. unfold getBlock, blockstore_get, decryptBlock. steps_tac; keep. Qed.

Lemma encrypt_keeps b : steps keeps_ok (encrypt_current b).
Proof. unfold encrypt_current. steps_tac. Qed.

Lemma sign_keeps m : steps keeps_ok (signAsWriter cfg m).
Proof. unfold signAsWriter, signAsWriterUnconditional. steps_tac. Qed.

Lemma verify_keeps raw sig : steps keeps_ok (verifyWriterSignature cfg raw sig).
Proof. unfold verifyWriterSignature, getWriterKeys. steps_tac. apply read_keeps. Qed.

Lemma verify_snapshot_keeps raw sig : steps keeps_ok (verifySnapshotSignature cfg raw sig).
Proof. unfold verifySnapshotSignature, getWriterKeys. steps_tac. apply read_keeps. Qed.

Lemma prune_keeps_ok k : steps keeps_ok (pruneChanges k).
Proof. unfold pruneChanges. steps_tac; keep. Qed.

Lemma gcBlock_keeps c : steps keeps_ok (gcBlock cfg c).
Proof. unfold gcBlock. steps_tac; keep. Qed.
#[local] Hint Resolve applyACL_keeps ensure_keeps putBlock_keeps getBlock_keeps encrypt_keeps sign_keeps
  verify_keeps verify_snapshot_keeps prune_keeps_ok gcBlock_keeps : steps.

Lemma gc_keeps l : steps keeps_ok (gcPrunedBlocks cfg l).
Proof. unfold gcPrunedBlocks. steps_tac. Qed.
#[local] Hint Resolve gc_keeps : steps.

Lemma compact_keeps c : steps keeps_ok (compactAfterSnapshot cfg c).
Proof. unfold compactAfterSnapshot. steps_tac. Qed.

(** Up to the assignment of the new snapshot, [snapshot] only draws. *)
Definition drew (s s' : docT) : Prop := s' = s <| _draws := _draws s' |>.

#[local] Instance drew_preorder : PreOrder drew.
Proof.
  split; [by intros []|]. intros a b c E1 E2. unfold drew in *. rewrite E2 at 1. rewrite E1 at 1. reflexivity.
Qed.

Lemma draw_drew : steps drew draw.
Proof. by intros []. Qed.
#[local] Hint Resolve draw_drew compact_keeps : steps.

Lemma drew_ok (s s' : docT) : drew s s' -> doc_ok s -> doc_ok s'.
Proof. unfold drew. intros E. apply keeps_same; by rewrite E. Qed.

Lemma bind_post {A B} (R : relation docT) (m : eff docT A) (k : A -> eff docT B) s (P : docT -> Prop) :
  R s (m s).2 -> (forall s', R s s' -> P s') -> (forall a s', R s s' -> P (k a s').2) -> P (bind m k s).2.
Proof. intros Hm Hp Hk. unfold bind. destruct (m s) as [[a|e] s1]; [by apply Hk|by apply Hp]. Qed.

Lemma snapshot_keeps : steps keeps_ok (snapshot cfg).
Proof.
  unfold snapshot. apply steps_bind; [apply _|eauto with steps|intros _].
  destruct getSnapshot as [f|]; [|steps_tac; keep].
  apply steps_get. intros s Hs.
  apply (bind_post drew); [done|intros; by eapply drew_ok|intros st s1 D1].
  apply (bind_post drew); [apply draw_drew|intros s2 D2; eapply drew_ok; [|done]; by etrans|intros d s2 D2].
  assert (Hd2 : drew s s2) by by etrans. cbv zeta.
  apply (bind_post drew); [done|intros s3 D3; eapply drew_ok; [|done]; by etrans|intros b s3 D3].
  assert (Hd3 : drew s s3) by by etrans.
  apply (bind_post drew); [|intros s4 D4; eapply drew_ok; [|done]; by etrans|intros sig s4 D4].
  { destruct (enableSigning cfg); [|done]. apply steps_bind; [apply _|by intros x|intros p].
    apply steps_bind; [apply _|apply draw_drew|by intros x y]. }
  assert (Hd4 : drew s s4) by by etrans. rewrite bind_modify.
  match goal with |- doc_ok (bind ?m ?k ?x).2 =>
    assert (Hk : steps keeps_ok (bind m k))
      by (apply steps_bind; [apply _|apply compact_keeps|intros ?; apply steps_ret; apply _]);
    apply (Hk x) end.
  destruct (drew_ok _ _ Hd4 Hs) as [? ? ? ? Hc _]. split; simpl; try done; [lia|].
  intros y [= <-]. simpl. unfold drew in Hd4. by rewrite Hd4.
Qed.
#[local] Hint Resolve snapshot_keeps : steps.

Lemma maybeCompact_keeps : steps keeps_ok (maybeCompact cfg).
Proof.
  unfold maybeCompact. steps_tac; [keep|]. intros x. by apply keeps_same.
Qed.
#[local] Hint Resolve maybeCompact_keeps : steps.

Lemma makeChange_keeps c k : steps keeps_ok (makeChange cfg c k).
Proof.
  unfold makeChange. steps_tac; try keep.
  apply steps_modify. intros x [? ? ? ? ? ?]. split; simpl; try done. by apply NoDup_foldl_set_add.
Qed.

Lemma applyEntry_keeps acc e : steps keeps_ok (applyEntry acc e).
Proof. unfold applyEntry. destruct e as [[h k] [c|]]; steps_tac. Qed.

Lemma fetchMissing_keeps m : steps keeps_ok (fetchMissing cfg m).
Proof. unfold fetchMissing. destruct m as [[h c] k]. steps_tac; keep. Qed.
#[local] Hint Resolve makeChange_keeps applyEntry_keeps fetchMissing_keeps : steps.

Lemma foldl_keeps {A} (f : docT -> A -> docT) l : (forall s a, keeps_ok s (f s a)) ->
  forall s, keeps_ok s (foldl f s l).
Proof. intros Hf. induction l as [|x l IH]; intros s; simpl; [done|]. etrans; [apply Hf|apply IH]. Qed.

Lemma refresh_keeps id tree : steps keeps_ok (modify (refreshLastSyncMessageFromSync cfg id tree)).
Proof.
  apply steps_modify. intros s. unfold refreshLastSyncMessageFromSync.
  destruct (truthy id); [|done]. cbv zeta.
  destruct (truthy _); [destruct (String.eqb _ _); [done|]; destruct (treeContainsCid _ _ _)|]; try done;
    by apply keeps_same.
Qed.
#[local] Hint Resolve refresh_keeps : steps.

Lemma ancestors_NoDup (n : CRDTChangeNode ChangesType) : forall id st,
  NoDup st.2 -> NoDup (ancestors_walk id n st).2.
Proof.
  induction n as [k kd c ch IH] using node_ind'. intros id st Hn. cbn [ancestors_walk].
  destruct id as [id|]; [destruct (set_has _ _); [done|]|];
    (destruct ch as [| |l]; [done..|];
     match goal with |- NoDup (_ _ ?x).2 =>
       assert (Hx : NoDup x.2) by done; revert Hx; generalize x; clear Hn st end;
     induction IH as [|[x y] l Hy _ IHl]; intros st Hn; [done|]; apply IHl, Hy; by apply NoDup_set_add).
Qed.

Lemma syncDocumentChanges_keeps completion id tree :
  steps keeps_ok (syncDocumentChanges cfg completion id tree).
Proof.
  unfold syncDocumentChanges. steps_tac; try keep.
  - apply steps_modify. intros x0 [? ? ? ? ? ?]. split; simpl; try done. by apply ancestors_NoDup.
  - apply steps_modify. apply foldl_keeps. intros x0 h. apply (addHash_keeps h x0).
  - apply steps_modify. apply foldl_keeps. intros x0 t. apply (track_keeps t.1 t.2 x0).
Qed.

Lemma adoptSnapshot_keeps x : steps keeps_ok (adoptSnapshot cfg x).
Proof.
  unfold adoptSnapshot. steps_tac; try keep.
  apply steps_modify. intros x0 [? ? ? ? ? ?]. split; simpl; try done; [lia|]. intros y [= <-]. lia.
Qed.
#[local] Hint Resolve syncDocumentChanges_keeps adoptSnapshot_keeps : steps.

Lemma sync_keeps completion m v : steps keeps_ok (sync cfg completion m v).
Proof. unfold sync. steps_tac; keep. Qed.

Lemma applyLocalChange_keeps msg f : steps keeps_ok (applyLocalChange msg f).
Proof. unfold applyLocalChange. steps_tac; keep. Qed.
#[local] Hint Resolve applyLocalChange_keeps : steps.

Lemma change_keeps f msg : steps keeps_ok (change cfg f msg).
Proof. unfold change. steps_tac; keep. Qed.

Lemma addWriter_keeps w : steps keeps_ok (addWriter cfg w).
Proof. unfold addWriter. steps_tac; keep. Qed.

Lemma endChange_keeps msg : steps keeps_ok (endChange cfg msg).
Proof.
  intros s Hs. destruct (endChange cfg msg s) as [r s'] eqn:E. simpl.
  unfold endChange in E. rewrite (bind_ok _ _ s s s) in E by done.
  destruct (_inTransaction s) eqn:Hin; [|by injection E as _ <-].
  destruct (_committing s) eqn:Hco; [by injection E as _ <-|]. cbn [negb] in E.
  destruct (Nat.eqb_spec (length (_pendingChangeFns s)) 0) as [H0|Hne].
  { injection E as _ <-. revert Hs. by apply keeps_same. }
  destruct r as [u|[e|]].
  2: { assert (E' : endChange cfg msg s = (Err (Throw e), s')).
       { unfold endChange. rewrite (bind_ok _ _ s s s) by done. rewrite Hin, Hco. cbn [negb].
         by destruct (Nat.eqb_spec (length (_pendingChangeFns s)) 0). }
       apply endChange_restores in E'; [|split; apply Hs|done..|intros Hp; by rewrite Hp in Hne].
       revert Hs. apply keeps_same; by rewrite E'. }
  all: rewrite bind_modify in E; unfold finally in E; set (s1 := s <| _committing := true |>) in *.
  all: match type of E with context [catch (bind (applyLocalChange ?a ?b) ?k) _] => set (commit := bind (applyLocalChange a b) k) in * end.
  all: assert (Hc : steps keeps_ok commit) by (unfold commit; steps_tac; keep).
  all: assert (H1 : doc_ok s1) by (revert Hs; by apply keeps_same).
  all: pose proof (ensure_keeps s1 H1) as H2; unfold bind, catch in E.
  all: destruct (ensureCurrentUserCanWrite cfg s1) as [[[]|[x|]] s2]; cbn [snd] in H2; try done.
  all: try (apply (f_equal snd) in E; cbn in E; subst s'; revert H2; by apply keeps_same).
  all: pose proof (Hc s2 H2) as H3; destruct (commit s2) as [[[]|[x|]] s3]; try done.
  all: apply (f_equal snd) in E; cbn in E; subst s'; revert H3; by apply keeps_same.
Qed.

(** ** Every document that the operations reach *)

Inductive op : Type :=
| OpSync (completion : list (string * string * CRDTChangeNodeKind) -> list (string * string * CRDTChangeNodeKind))
    (message : CRDTSyncMessage ChangesType) (verifySignature : bool)
| OpChange (changeFn : ChangeFnType) (message : string)
| OpStartChange
| OpAddChange (changeFn : ChangeFnType)
| OpEndChange (message : string)
| OpSnapshot
| OpAddWriter (writer : PublicKey)
| OpSubscribe (id : string) (h : @handler DocType PublicKey) (origin : originFilter)
| OpUnsubscribe (id : string).

(** The document after an operation; whether it returned or threw is forgotten. *)
Definition run_op (s : docT) (o : op) : docT :=
  match o with
  | OpSync completion m v => (sync cfg completion m v s).2
  | OpChange f msg => (change cfg f msg s).2
  | OpStartChange => (startChange s).2
  | OpAddChange f => (addChange f s).2
  | OpEndChange msg => (endChange cfg msg s).2
  | OpSnapshot => (snapshot cfg s).2
  | OpAddWriter w => (addWriter cfg w s).2
  | OpSubscribe id h origin => (subscribe id h origin s).2
  | OpUnsubscribe id => (unsubscribe id s).2
  end.

Lemma run_op_keeps s o : doc_ok s -> doc_ok (run_op s o).
Proof.
  destruct o as [c m v|f msg| |f|msg| |w|id h origin|id]; simpl.
  - apply sync_keeps.
  - apply change_keeps.
  - revert s. change (steps keeps_ok (@startChange DocType ChangesType ChangeFnType PublicKey ACL Keychain Group)).
    unfold startChange. steps_tac; keep.
  - revert s. change (steps keeps_ok (@addChange DocType ChangesType ChangeFnType PublicKey ACL Keychain Group f)).
    unfold addChange. steps_tac; keep.
  - apply endChange_keeps.
  - apply snapshot_keeps.
  - apply addWriter_keeps.
  - by destruct origin; apply keeps_same.
  - by apply keeps_same.
Qed.

(** C6. Whatever sequence of operations runs on a new document, successful or not:
    the sets have no duplicates, at most [MAX_RECENT_TIPS] distinct tips are kept,
    the changes since the last snapshot are between zero and all changes, and the
    snapshot held never claims more changes than the document counts. *)
Theorem document_invariant (ops : list op) group blocks :
  doc_ok (foldl run_op (new_doc group blocks) ops).
Proof.
  assert (Hinit : doc_ok (new_doc (DocType := DocType) (ACL := ACL) (Keychain := Keychain) group blocks)).
  { split; simpl; try done; try constructor. }
  revert Hinit. generalize (new_doc (DocType := DocType) (ACL := ACL) (Keychain := Keychain) group blocks : docT).
  induction ops as [|o ops IH]; intros s Hs; simpl; [done|]. by apply IH, run_op_keeps.
Qed.

End Doc.
End Transactions.
