(* ===== verification/Replication.v ===== *)
(** * Merging a remote tree, exactly once

    About [syncDocumentChanges] of [Document]: whatever happens during a sync, the
    document it leaves is the one before with new changes of the received tree
    replayed on it, each of them once and none that was applied before; and when
    the sync returns, no inline change that was missing is left out. *)
From stdpp Require Import base numbers list list_numbers strings sets.
From Stdlib Require Import ZArith Lia.
From S2P Require Import Prelude TipsHash Utils Wire ChangeTree Auth WriterCache Document.

Open Scope string_scope.
Open Scope list_scope.
Open Scope nat_scope.

Module Replication.
Import ChangeTree Document.

Section Doc.
  Context {DocType ChangesType ChangeFnType PublicKey DocumentKey ACL Keychain Group : Type}.
  Context `{!CRDTProvider DocType ChangesType ChangeFnType, !ACLProvider ACL ChangesType PublicKey,
    !KeychainProvider Keychain ChangesType DocumentKey, !Serializers ChangesType,
    !AuthProvider DocumentKey, !Wire.Base64}.

  Abbreviation docT := (@doc DocType ChangesType ChangeFnType PublicKey ACL Keychain Group).
  Context (cfg : @config ChangeFnType PublicKey).

(** Applying changes one after the other. *)
Fixpoint replay_changes (d : DocType) (l : list ChangesType) : result DocType :=
  match l with
  | [] => Ok d
  | c :: l' => let? d := remoteChange d c in replay_changes d l'
  end.

Lemma replay_changes_app d l1 l2 : replay_changes d (l1 ++ l2) = let? d := replay_changes d l1 in replay_changes d l2.
Proof. revert d. induction l1 as [|c l1 IH]; intros d; simpl; [done|]. by destruct (remoteChange d c). Qed.

(** ** Everything but the application of a change *)

(** The document stays and no hash is forgotten. *)
Definition aside (s s' : docT) : Prop := _document s' = _document s /\ _hashes s ⊆ _hashes s'.

#[local] Instance aside_preorder : PreOrder aside.
Proof.
  split; [by intros s|]. intros a b c [E1 H1] [E2 H2]. split; [congruence|set_solver].
Qed.

Ltac asid := apply steps_modify; let x := fresh in intros x; done.

Lemma emit_aside e : steps aside (emit e).
Proof. unfold emit. asid. Qed.
Lemma draw_aside : steps aside draw.
Proof. unfold draw. steps_tac; try asid. Qed.
Lemma read_aside {A} (f : docT -> result A) : steps aside (fun s => (f s, s)).
Proof. by intros s. Qed.
#[local] Hint Resolve emit_aside draw_aside : steps.

Lemma fire_aside hs l : steps aside (fireUpdateHandlers hs l).
Proof. unfold fireUpdateHandlers, getReaders, getWriters. steps_tac; apply read_aside. Qed.
#[local] Hint Resolve fire_aside : steps.
Lemma remote_fire_aside l : steps aside (fireRemoteUpdateHandlers l).
Proof. unfold fireRemoteUpdateHandlers. steps_tac. Qed.
Lemma mergeReaders_aside c : steps aside (mergeReaders c).
Proof. unfold mergeReaders. steps_tac; try asid. Qed.
Lemma mergeWriters_aside c : steps aside (mergeWriters c).
Proof. unfold mergeWriters. steps_tac; try asid. Qed.
Lemma count_aside : steps aside (modify countChange).
Proof. asid. Qed.
Lemma track_aside h k : steps aside (modify (trackTip h k)).
Proof. asid. Qed.
Lemma addHash_aside h : steps aside (modify (addHash h)).
Proof. apply steps_modify. intros s. split; [done|]. simpl. intros x. rewrite elem_of_set_add. auto. Qed.
Lemma getBlock_aside c : steps aside (getBlock cfg c).
Proof. unfold getBlock, blockstore_get, decryptBlock. steps_tac; try asid. Qed.
Lemma ensure_aside : steps aside (ensureCurrentUserCanWrite cfg).
Proof. unfold ensureCurrentUserCanWrite. steps_tac. Qed.
Lemma prune_aside k : steps aside (pruneChanges k).
Proof. unfold pruneChanges. steps_tac; try asid. Qed.
Lemma gcBlock_aside c : steps aside (gcBlock cfg c).
Proof. unfold gcBlock. steps_tac; try asid. Qed.
#[local] Hint Resolve remote_fire_aside mergeReaders_aside mergeWriters_aside count_aside track_aside
  addHash_aside getBlock_aside ensure_aside prune_aside gcBlock_aside : steps.
Lemma compact_aside c : steps aside (compactAfterSnapshot cfg c).
Proof. unfold compactAfterSnapshot, gcPrunedBlocks. steps_tac. Qed.
#[local] Hint Resolve compact_aside : steps.
Lemma snapshot_aside : steps aside (snapshot cfg).
Proof. unfold snapshot. steps_tac; try asid. Qed.
#[local] Hint Resolve snapshot_aside : steps.
Lemma maybeCompact_aside : steps aside (maybeCompact cfg).
Proof. unfold maybeCompact. steps_tac; first [asid|by intros ?]. Qed.
Lemma refresh_aside id tree : steps aside (modify (refreshLastSyncMessageFromSync cfg id tree)).
Proof.
  apply steps_modify. intros s. unfold refreshLastSyncMessageFromSync.
  by repeat case_match.
Qed.

(** ** Inline changes *)

Abbreviation entry := (MergedSyncEntry (C := ChangesType)).

(** The document changes among entries, with their CIDs. *)
Definition inline_docs (l : list entry) : list (string * ChangesType) :=
  omap (fun e => match e with (h, DocumentNode, Some c) => Some (h, c) | _ => None end) l.

Definition inline_cids (l : list entry) : list string :=
  omap (fun e : entry => match e with (h, _, Some _) => Some h | _ => None end) l.

Definition missing_of (l : list entry) : list (string * CRDTChangeNodeKind) :=
  omap (fun e : entry => match e with (h, k, None) => Some (h, k) | _ => None end) l.

Lemma applyEntries_spec (l : list entry) : forall acc (s : docT) r s',
  for_each applyEntry acc l s = (r, s') ->
  _document s' = _document s /\ _hashes s' = _hashes s /\
  forall acc', r = Ok acc' ->
    replay_changes (newDocument_ acc) (inline_docs l).*2 = Ok (newDocument_ acc') /\
    newDocumentHashes acc' = newDocumentHashes acc ++ inline_cids l /\
    missingDocumentHashes acc' = missingDocumentHashes acc ++ missing_of l.
Proof.
  induction l as [|[[h k] c] l IH]; intros acc s r s' E.
  { injection E as <- <-. split_and!; [done..|]. intros acc' [= <-]. by rewrite !app_nil_r. }
  cbn [for_each] in E. unfold bind at 1 in E.
  destruct (applyEntry acc (h, k, c) s) as [[acc1|e] s1] eqn:E1.
  - assert (H1 : _document s1 = _document s /\ _hashes s1 = _hashes s /\
       replay_changes (newDocument_ acc) (inline_docs [(h, k, c)]).*2 = Ok (newDocument_ acc1) /\
       newDocumentHashes acc1 = newDocumentHashes acc ++ inline_cids [(h, k, c)] /\
       missingDocumentHashes acc1 = missingDocumentHashes acc ++ missing_of [(h, k, c)]).
    { clear E IH. unfold applyEntry in E1. destruct c as [c|]; [destruct k|].
      - simpl in E1. unfold bind, lift, modify, ret in E1.
        destruct (remoteChange (newDocument_ acc) c) as [d|] eqn:Er; [|done].
        injection E1 as <- <-. cbn. rewrite Er. by rewrite app_nil_r.
      - unfold mergeWriters, bind, get, lift, modify, ret in E1. destruct (acl_merge _ c); [|done].
        injection E1 as <- <-. cbn. by rewrite app_nil_r.
      - unfold mergeReaders, bind, get, lift, modify, ret, when, emit in E1. destruct (acl_merge _ c); [|done].
        destruct (negb _); injection E1 as <- <-; cbn; by rewrite app_nil_r.
      - injection E1 as <- <-. by destruct k; cbn; rewrite !app_nil_r. }
    destruct H1 as (D1 & G1 & R1 & N1 & M1). destruct (IH _ _ _ _ E) as (D2 & G2 & H2).
    split_and!; [congruence..|]. intros acc' Hacc. destruct (H2 acc' Hacc) as (R2 & N2 & M2).
    change ((h, k, c) :: l) with ([(h, k, c)] ++ l).
    unfold inline_docs, inline_cids, missing_of in *. rewrite !omap_app, fmap_app, replay_changes_app, R1, !app_assoc.
    by rewrite <- N1, <- M1.
  - injection E as <- <-. assert (H1 : _document s1 = _document s /\ _hashes s1 = _hashes s); [|naive_solver].
    unfold applyEntry in E1. destruct c as [c|]; [destruct k|].
    + unfold bind, lift, modify, ret in E1. destruct (remoteChange _ c); [done|]. by injection E1 as <- <-.
    + unfold mergeWriters, bind, get, lift, modify, ret in E1. destruct (acl_merge _ c); [done|].
      by injection E1 as <- <-.
    + unfold mergeReaders, bind, get, lift, modify, ret, when, emit in E1. destruct (acl_merge _ c).
      * by destruct (negb _).
      * by injection E1 as <- <-.
    + done.
Qed.

(** ** Missing blocks *)

(** What a fetch, or a sequence of them, did to the document. *)
Definition fetched (l : list (string * string * CRDTChangeNodeKind)) (s s' : docT) : Prop :=
  exists new : list (string * ChangesType),
    new.*1 `sublist_of` (fun m => m.1.1) <$> l /\
    (forall h x, (h, x) ∈ new -> exists cid, (h, cid, DocumentNode) ∈ l) /\
    replay_changes (_document s) new.*2 = Ok (_document s') /\
    (forall h, h ∈ new.*1 -> h ∈ _hashes s') /\ _hashes s ⊆ _hashes s'.

Lemma fetched_aside l s s' : aside s s' -> fetched l s s'.
Proof.
  intros [E Hs]. exists []. csimpl. split_and!; [apply sublist_nil_l| | |by intros h ?%elem_of_nil|done].
  - by intros h x ?%elem_of_nil.
  - by rewrite E.
Qed.

Lemma aside_post {A} (m : eff docT A) (s : docT) r s' : steps aside m -> m s = (r, s') -> aside s s'.
Proof. intros Hm E. specialize (Hm s). by rewrite E in Hm. Qed.

Lemma fetchMissing_spec m (s : docT) r s' : fetchMissing cfg m s = (r, s') -> fetched [m] s s'.
Proof.
  destruct m as [[h cid] k]. unfold fetchMissing, catch. intros E.
  match type of E with context [bind ?a ?b s] => destruct (bind a b s) as [r1 s1] eqn:E1 end.
  assert (Hf : fetched [(h, cid, k)] s s1).
  { unfold bind at 1 in E1. destruct (getBlock cfg cid s) as [[c|e] s2] eqn:Eg;
      [|injection E1 as <- <-; apply fetched_aside; eapply aside_post, Eg; eauto with steps].
    assert (H2 : aside s s2) by (eapply aside_post, Eg; eauto with steps).
    destruct k; [|apply fetched_aside; transitivity s2; [done|]; eapply aside_post, E1; steps_tac..].
    unfold bind at 1, get in E1. unfold bind at 1, lift in E1.
    destruct (remoteChange (_document s2) c) as [d|e] eqn:Er; [|injection E1 as <- <-; by apply fetched_aside].
    unfold bind at 1, modify at 1 in E1. unfold bind at 1, modify at 1 in E1.
    set (s3 := addHash h (s2 <| _document := d |>)) in *.
    assert (H3 : aside s3 s1) by (eapply aside_post, E1; steps_tac). destruct H2 as [D2 G2], H3 as [D3 G3].
    assert (Hh3 : forall x, x ∈ _hashes s3 <-> x = h \/ x ∈ _hashes s2) by (intros; apply elem_of_set_add).
    exists [(h, c)]. csimpl. split_and!.
    - done.
    - intros ? ? [= -> ->]%list_elem_of_singleton. exists cid. by left.
    - rewrite <- D2, Er, D3. done.
    - intros ? ->%list_elem_of_singleton. apply G3, Hh3. by left.
    - intros x Hx. apply G3, Hh3. right. by apply G2. }
  destruct r1 as [a|[e|]]; injection E as _ <-; done.
Qed.

Lemma fetches_spec l : forall (s : docT) r s',
  for_each (fun _ m => fetchMissing cfg m) tt l s = (r, s') -> fetched l s s'.
Proof.
  induction l as [|m l IH]; intros s r s' E; cbn [for_each] in E.
  { injection E as _ <-. by apply fetched_aside. }
  unfold bind in E. destruct (fetchMissing cfg m s) as [[[]|e] s1] eqn:Em.
  - apply fetchMissing_spec in Em as (n1 & S1 & K1 & R1 & H1 & G1).
    apply IH in E as (n2 & S2 & K2 & R2 & H2 & G2). exists (n1 ++ n2). rewrite !fmap_app. split_and!.
    + change (m :: l) with ([m] ++ l). rewrite fmap_app. by apply sublist_app.
    + intros h x [Hn|Hn]%elem_of_app; [apply K1 in Hn as (cid & Hm%list_elem_of_singleton)|apply K2 in Hn as (cid & ?)];
        exists cid; [rewrite <- Hm; by left|by right].
    + by rewrite replay_changes_app, R1.
    + intros h [?|?]%elem_of_app; [apply G2; auto|auto].
    + set_solver.
  - injection E as _ <-. apply fetchMissing_spec in Em as (n1 & S1 & K1 & R1 & H1 & G1).
    exists n1. split_and!; [| |done..]; cycle 1.
    { intros h x Hn. apply K1 in Hn as (cid & Hm%list_elem_of_singleton). exists cid. rewrite <- Hm. by left. }
    csimpl. etrans; [exact S1|]. csimpl. apply sublist_skip, sublist_nil_l.
Qed.

Lemma startFetches_sub missing :
  ((fun m => m.1.1) <$> (startFetches cfg missing).1) `sublist_of` missing.*1 /\
  forall h cid k, (h, cid, k) ∈ (startFetches cfg missing).1 -> (h, k) ∈ missing.
Proof.
  induction missing as [|[h k] missing [IH1 IH2]]; csimpl; [split; [done|by intros ??? ?%elem_of_nil]|].
  destruct (cid_parse cfg h) as [cid|e]; csimpl; [|split; [apply sublist_nil_l|by intros ??? ?%elem_of_nil]].
  destruct (startFetches cfg missing) as [l r]. csimpl. split; [by apply sublist_skip|].
  intros h' c' k' [[= -> -> ->]|Hin]%elem_of_cons; [by left|right]. by eapply IH2.
Qed.

(** ** The whole merge *)

Lemma entry_cids_perm (l : list entry) :
  inline_cids l ++ (missing_of l).*1 ≡ₚ map (fun e : entry => e.1.1) l.
Proof.
  induction l as [|[[h k] [c|]] l IH]; csimpl; [done|by rewrite IH|].
  rewrite <- Permutation_middle. by rewrite IH.
Qed.

Lemma inline_docs_sub (l : list entry) : (inline_docs l).*1 `sublist_of` inline_cids l.
Proof.
  induction l as [|[[h k] [c|]] l IH]; csimpl; [done| |by destruct k].
  destruct k; csimpl; by constructor.
Qed.

Lemma foldl_addHash l (s : docT) :
  _document (foldl (flip addHash) s l) = _document s /\
  forall h, h ∈ _hashes (foldl (flip addHash) s l) <-> h ∈ l \/ h ∈ _hashes s.
Proof.
  revert s. induction l as [|x l IH]; intros s; simpl; [split; [done|]; intros h; rewrite elem_of_nil; naive_solver|].
  destruct (IH (addHash x s)) as [-> Hh]. split; [done|]. intros h. unfold flip in *.
  rewrite Hh, elem_of_cons. simpl. rewrite elem_of_set_add. naive_solver.
Qed.

Lemma foldl_track (l : list (string * CRDTChangeNodeKind)) (s : docT) :
  aside s (foldl (fun s t => trackTip t.1 t.2 s) s l).
Proof. revert s. induction l as [|x l IH]; intros s; simpl; [done|]. etrans; [|apply IH]. done. Qed.

(** The statements between the merge of the entries and the fetches: the inline
    changes are installed together. *)
Lemma install_spec acc (s s' : docT) r :
  (if negb (length (newDocumentHashes acc) =? 0) then
     let! _ := modify (fun s => s <| _document := newDocument_ acc |>) in
     let! _ := modify (fun s => foldl (flip addHash) s (newDocumentHashes acc)) in
     let! _ := modify (fun s => foldl (fun s t => trackTip t.1 t.2 s) s (rev (newDocumentTips acc))) in
     fireRemoteUpdateHandlers (newDocumentHashes acc)
   else ret tt) s = (r, s') ->
  (newDocumentHashes acc = [] -> newDocument_ acc = _document s) ->
  _document s' = newDocument_ acc /\ _hashes s ⊆ _hashes s' /\ newDocumentHashes acc ⊆ _hashes s'.
Proof.
  intros E Hnil. destruct (Nat.eqb_spec (length (newDocumentHashes acc)) 0) as [H0|H0]; simpl in E.
  - apply length_zero_iff_nil in H0. injection E as _ <-. rewrite H0, Hnil by done. set_solver.
  - unfold bind, modify in E.
    destruct (foldl_addHash (newDocumentHashes acc) (s <| _document := newDocument_ acc |>)) as [D1 G1].
    set (s1 := foldl (flip addHash) _ _) in *.
    destruct (foldl_track (rev (newDocumentTips acc)) s1) as [D2 G2].
    set (s2 := foldl _ s1 _) in *. pose proof (remote_fire_aside (newDocumentHashes acc) s2) as [D3 G3].
    rewrite E in D3, G3. cbn [snd] in D3, G3. split_and!; [by rewrite D3, D2, D1|set_solver..].
Qed.

(** How far one sync takes the document. *)
Definition advanced (id : option string) (tree : CRDTChangeNode ChangesType) (s s' : docT)
    (new : list (string * ChangesType)) : Prop :=
  NoDup new.*1 /\ replay_changes (_document s) new.*2 = Ok (_document s') /\ _hashes s ⊆ _hashes s' /\
  forall h x, (h, x) ∈ new -> h ∉ _hashes s /\ h ∈ _hashes s' /\
    exists n, occ id tree (Some h) n /\ node_kind n = DocumentNode /\
      (node_change n = Some x \/ node_change n = None).

Lemma advanced_aside id tree (s s1 s' : docT) new :
  advanced id tree s s1 new -> aside s1 s' -> advanced id tree s s' new.
Proof.
  intros (N & R & G & K) [D G']. split_and!; [done|congruence|set_solver|].
  intros h x Hx. destruct (K h x Hx) as (? & ? & ?). split_and!; [done|set_solver|done].
Qed.

Lemma advanced_nil id tree (s s' : docT) : aside s s' -> advanced id tree s s' [].
Proof.
  intros [D G]. split_and!; [constructor|csimpl; congruence|done|]. by intros h x ?%elem_of_nil.
Qed.

(** The entries of a merge, whatever the root. *)
Lemma merge_entries lr lh id (tree : CRDTChangeNode ChangesType) entries :
  mergeRemoteSyncTree lr lh id tree = Ok entries ->
  NoDup (map (fun e : entry => e.1.1) entries) /\
  forall c kd ch, (c, kd, ch) ∈ entries ->
    c ∉ lh /\ exists n, occ id tree (Some c) n /\ kd = node_kind n /\ ch = node_change n.
Proof.
  destruct id as [rid|].
  - intros E. destruct (merge_entries_sound _ _ _ _ _ E) as [Hn He]. split; [done|].
    intros c kd ch Hin. destruct (He c kd ch Hin) as (_ & ? & ?). done.
  - unfold mergeRemoteSyncTree. destruct tree. simpl. intros [= <-]. split; [constructor|]. by intros ??? ?%elem_of_nil.
Qed.

Lemma inline_docs_elem (l : list entry) h c : (h, c) ∈ inline_docs l -> (h, DocumentNode, Some c) ∈ l.
Proof.
  unfold inline_docs. intros ([[h' k] [c'|]] & Hin & E)%list_elem_of_omap; destruct k; simplify_eq; done.
Qed.

Lemma missing_elem (l : list entry) h k : (h, k) ∈ missing_of l -> (h, k, None) ∈ l.
Proof.
  unfold missing_of. intros ([[h' k'] [c'|]] & Hin & E)%list_elem_of_omap; simplify_eq; done.
Qed.

Lemma inline_advance lr (s s' : docT) id tree entries :
  mergeRemoteSyncTree lr (_hashes s) id tree = Ok entries ->
  replay_changes (_document s) (inline_docs entries).*2 = Ok (_document s') ->
  _hashes s ⊆ _hashes s' -> inline_cids entries ⊆ _hashes s' ->
  advanced id tree s s' (inline_docs entries).
Proof.
  intros Hm Hr Hs Hi. destruct (merge_entries _ _ _ _ _ Hm) as [Hn He].
  assert (HnI : NoDup (inline_cids entries)).
  { rewrite <- entry_cids_perm in Hn. by apply NoDup_app in Hn as [? _]. }
  split_and!; [|done|done|].
  - eapply sublist_NoDup; [exact HnI|apply inline_docs_sub].
  - intros h x Hx. destruct (He h DocumentNode (Some x)) as (? & n & ? & ? & ?); [by apply inline_docs_elem|].
    split_and!; [done| |by exists n; auto]. apply Hi.
    eapply sublist_subseteq; [apply inline_docs_sub|]. apply list_elem_of_fmap. by exists (h, x).
Qed.

Lemma fetch_advance lr (s s1 s' : docT) id tree entries l :
  mergeRemoteSyncTree lr (_hashes s) id tree = Ok entries ->
  advanced id tree s s1 (inline_docs entries) ->
  ((fun m => m.1.1) <$> l) `sublist_of` (missing_of entries).*1 ->
  (forall h cid k, (h, cid, k) ∈ l -> (h, k) ∈ missing_of entries) ->
  forall l', l' ≡ₚ l -> fetched l' s1 s' ->
  exists new, advanced id tree s s' (inline_docs entries ++ new).
Proof.
  intros Hm (N & R & G & K) Hsub Hel l' Hp (new & S2 & K2 & R2 & H2 & G2). exists new.
  destruct (merge_entries _ _ _ _ _ Hm) as [Hn He]. rewrite <- entry_cids_perm in Hn.
  apply NoDup_app in Hn as (_ & Hdis & HnM).
  assert (HnL : NoDup ((fun m => m.1.1) <$> l')).
  { rewrite Hp. eapply sublist_NoDup; [exact HnM|done]. }
  assert (Hnew : forall h, h ∈ new.*1 -> h ∈ (missing_of entries).*1).
  { intros h Hh. eapply sublist_subseteq; [exact Hsub|]. rewrite <- Hp. eapply sublist_subseteq; eauto. }
  split_and!.
  - rewrite fmap_app. apply NoDup_app. split_and!; [done| |by eapply sublist_NoDup].
    intros h Hh Hh'. eapply Hdis; [|by apply Hnew]. eapply sublist_subseteq; [apply inline_docs_sub|done].
  - by rewrite fmap_app, replay_changes_app, R.
  - set_solver.
  - intros h x [Hx|Hx]%elem_of_app.
    + destruct (K h x Hx) as (? & ? & ?). split_and!; [done|set_solver|done].
    + destruct (K2 h x Hx) as (cid & Hin). rewrite Hp in Hin. apply Hel, missing_elem in Hin.
      destruct (He _ _ _ Hin) as (? & n & ? & ? & ?). split_and!; [done| |by exists n; auto].
      apply H2. apply list_elem_of_fmap. by exists (h, x).
Qed.

Section Once.
  Context (completion : list (string * string * CRDTChangeNodeKind) -> list (string * string * CRDTChangeNodeKind)).
  Context (Hcompletion : forall l, completion l ≡ₚ l).

Lemma sync_advances id tree (s : docT) r s' :
  syncDocumentChanges cfg completion id tree s = (r, s') ->
  exists new, advanced id tree s s' new /\
    forall entries, r = Ok tt ->
      mergeRemoteSyncTree (_lastSyncMessage s ≫= changeId) (_hashes s) id tree = Ok entries ->
      (inline_docs entries) `prefix_of` new /\ inline_cids entries ⊆ _hashes s'.
Proof.
  unfold syncDocumentChanges. intros E. unfold bind at 1, modify at 1 in E.
  set (s0 := s <| _referencedAncestors := _ |>) in *. unfold bind at 1, get in E.
  assert (H0 : forall t, advanced id tree s0 t = advanced id tree s t) by done.
  unfold bind at 1, lift at 1 in E.
  change (_lastSyncMessage s0) with (_lastSyncMessage s) in E. change (_hashes s0) with (_hashes s) in E.
  destruct (mergeRemoteSyncTree _ _ id tree) as [entries|e] eqn:Em;
    [|injection E as <- <-; exists []; split; [by apply advanced_nil|done]].
  unfold bind at 1 in E.
  destruct (for_each applyEntry (mk_merged (_document s0) [] [] []) entries s0) as [ra s1] eqn:Ea.
  destruct (applyEntries_spec _ _ _ _ _ Ea) as (D1 & G1 & Hacc).
  change (_document s0) with (_document s) in *. change (_hashes s0) with (_hashes s) in G1.
  destruct ra as [acc|e]; cycle 1.
  { injection E as <- <-. exists []. split; [|done]. apply advanced_nil. split; [done|]. by rewrite G1. }
  destruct (Hacc acc eq_refl) as (R1 & N1 & M1). simpl in R1, N1, M1. unfold bind at 1 in E.
  match type of E with context [(if _ then _ else _) s1] =>
    destruct ((if negb (length (newDocumentHashes acc) =? 0) then
      let! _ := modify (fun s => s <| _document := newDocument_ acc |>) in
      let! _ := modify (fun s => foldl (flip addHash) s (newDocumentHashes acc)) in
      let! _ := modify (fun s => foldl (fun s t => trackTip t.1 t.2 s) s (rev (newDocumentTips acc))) in
      fireRemoteUpdateHandlers (newDocumentHashes acc) else ret tt) s1) as [rb s2] eqn:Eb end.
  destruct (install_spec _ _ _ _ Eb) as (D2 & G2 & I2).
  { intros Hnil. rewrite N1 in Hnil. pose proof (inline_docs_sub entries) as Hsub. rewrite Hnil in Hsub.
    apply sublist_nil_r in Hsub. destruct (inline_docs entries); [|done]. csimpl in R1. congruence. }
  assert (Hadv : advanced id tree s s2 (inline_docs entries)).
  { eapply inline_advance; [exact Em|by rewrite D2|by rewrite <- G1|by rewrite <- N1]. }
  destruct rb as [[]|e]; [|injection E as <- <-; exists (inline_docs entries); split; [done|done]].
  pose proof (startFetches_sub (missingDocumentHashes acc)) as [F1 F2]. rewrite M1 in F1, F2.
  destruct (startFetches cfg (missingDocumentHashes acc)) as [fetches outcome] eqn:Es.
  rewrite M1 in Es. rewrite Es in F1, F2. simpl in F1, F2. unfold bind at 1 in E.
  destruct (for_each (fun _ m => fetchMissing cfg m) tt (completion fetches) s2) as [rc s3] eqn:Ec.
  destruct (fetch_advance _ s s2 s3 id tree entries fetches Em Hadv F1 F2 (completion fetches)) as [new Hnew];
    [apply Hcompletion|by eapply fetches_spec|].
  exists (inline_docs entries ++ new).
  assert (Hrest : aside s3 s').
  { destruct rc as [[]|e]; [|by injection E as _ <-]. eapply aside_post, E.
    steps_tac; [apply refresh_aside|apply maybeCompact_aside]. }
  split; [by eapply advanced_aside|]. intros entries' -> [= <-]. split; [by eexists|].
  rewrite <- N1. destruct Hrest as [_ G4]. apply fetches_spec in Ec as (_ & _ & _ & _ & _ & G3). set_solver.
Qed.

(** C3. A sync applies each new change exactly once: whether it returns or throws, and
    in whatever order its fetches finish, the document it leaves is the old one
    with a list of changes replayed on it, whose CIDs are distinct, were unknown
    before, are known after, and are document changes of the received tree. *)
Theorem sync_exactly_once id tree (s : docT) r s' :
  syncDocumentChanges cfg completion id tree s = (r, s') ->
  exists new : list (string * ChangesType),
    NoDup new.*1 /\ replay_changes (_document s) new.*2 = Ok (_document s') /\ _hashes s ⊆ _hashes s' /\
    forall h x, (h, x) ∈ new -> h ∉ _hashes s /\ h ∈ _hashes s' /\
      exists n, occ id tree (Some h) n /\ node_kind n = DocumentNode /\
        (node_change n = Some x \/ node_change n = None).
Proof. intros E. destruct (sync_advances _ _ _ _ _ E) as (new & Hadv & _). exists new. exact Hadv. Qed.

(** C39. A sync that returns leaves no inline change out: every node of a
    content-addressed tree that carries its change and is not below a known CID
    ends up known, and if it is a document change it is among those replayed. *)
Theorem sync_complete rid tree (s s' : docT) c n :
  syncDocumentChanges cfg completion (Some rid) tree s = (Ok tt, s') ->
  inline_coherent (Some rid) tree ->
  live (_lastSyncMessage s ≫= changeId) (_hashes s) rid tree c n -> is_Some (node_change n) ->
  c ∈ _hashes s'.
Proof.
  intros E Hcoh Hl Hc. destruct (sync_advances _ _ _ _ _ E) as (new & _ & Hall).
  destruct (mergeRemoteSyncTree (_lastSyncMessage s ≫= changeId) (_hashes s) (Some rid) tree) as [entries|e] eqn:Em.
  - destruct (Hall entries eq_refl eq_refl) as [_ Hin].
    destruct (merge_entries_cover _ _ _ _ _ _ _ Hcoh Em Hl) as (kd & ch & Hent & Hsome).
    apply Hin. destruct (Hsome Hc) as [x ->]. unfold inline_cids. apply list_elem_of_omap. by exists (c, kd, Some x).
  - exfalso. unfold syncDocumentChanges, bind, modify, get, lift in E. simpl in E. by rewrite Em in E.
Qed.
End Once.

(** A message that was already merged changes nothing: when its root is known, a
    sync leaves the document, the known hashes and the tips as they are, and calls
    no handler. *)
Theorem sync_known_noop completion rid tree (s : docT) :
  rid ∈ _hashes s -> rid <> "" -> enabled (compactionConfig cfg) = false ->
  completion [] = [] ->
  exists s', syncDocumentChanges cfg completion (Some rid) tree s = (Ok tt, s') /\
    _document s' = _document s /\ _hashes s' = _hashes s /\ _recentTips s' = _recentTips s /\
    _events s' = _events s /\ _documentChangeCount s' = _documentChangeCount s.
Proof.
  intros Hin Hne Hen Hcomp. unfold syncDocumentChanges.
  assert (Hm : forall lr, mergeRemoteSyncTree lr (_hashes s) (Some rid) tree = Ok []).
  { intros lr. unfold mergeRemoteSyncTree.
    assert (Hl : is_local lr (_hashes s) rid = true).
    { unfold is_local, set_has. rewrite (bool_decide_eq_true_2 _ Hin). apply orb_true_r. }
    destruct tree. simpl. by rewrite Hl. }
  unfold bind, modify, get, lift. simpl. rewrite Hm. simpl. rewrite Hcomp. simpl.
  unfold maybeCompact, bind, get. rewrite Hen. simpl. eexists. split; [reflexivity|].
  unfold refreshLastSyncMessageFromSync. repeat case_match; done.
Qed.

End Doc.
End Replication.
