(* ===== verification/Loading.v ===== *)
(** * Loading a document from peers

    Models the rest of the life cycle in
    [packages/collabswarm/src/collabswarm-document.ts]: the three request handlers
    ([handleLoadRequestData], [handleSnapshotLoadRequestData],
    [handleTipAdvertiseRequestData]), the tip probe, the load of one peer's
    response with its frontier binding, [load] over the cohort that
    [QuorumOrchestrator] agrees on, [open] with the founding of a new document,
    the pubsub handler and the topic validator, and [close].

    The network is a parameter: what a peer's streams yield, or why dialling it
    fails. A response is what the handler passes to [stream.sink]; an empty sink
    is [None]. The frontier-binding error, which [load] tells apart from others, is
    a value of its own. *)
From stdpp Require Import base numbers list list_numbers strings sets.
From Stdlib Require Import ZArith QArith Lia Ascii.
From S2P Require Import Prelude TipsHash LoadQuorum QuorumOrchestrator Utils Wire ChangeTree Auth.
From S2P Require Import WriterCache Document.

Open Scope string_scope.
Open Scope list_scope.
Open Scope nat_scope.

Module Loading.
Import ChangeTree Document.

(** [CRDTLoadRequest] *)
Record CRDTLoadRequest := LoadRequest { lr_documentId : string; lr_signature : string }.

Definition MAX_TIP_ADVERTISE_RESPONSE_SIZE : nat := 6 * 1024.

(** What one attempt to load from a peer ends in, when it does not throw another error. *)
Inductive attempt : Type :=
| Served (loaded : bool)
| BindCheckFailed (advertisedHex : string).

Inductive load_result : Type :=
| LoadReturned (loaded : bool)
| LoadQuorumFailed (e : LoadQuorum.LoadQuorumFailedError).

Inductive TopicValidatorResult : Type := Accept | Ignore | Reject.

(** ** Peer IDs

    The last match of [/\/p2p\/([^/]+)/g] in a multiaddr. *)

Definition not_slash (c : Ascii.ascii) : bool := negb (Ascii.eqb c "/"%char).

Fixpoint take_segment (s : string) : string * string :=
  match s with
  | String.String c s' =>
      if not_slash c then let '(seg, rest) := take_segment s' in (String.String c seg, rest)
      else ("", s)
  | String.EmptyString => ("", "")
  end.

Fixpoint p2p_matches (fuel : nat) (s : string) : list string :=
  match fuel with
  | 0 => []
  | S fuel' =>
      match s with
      | String.EmptyString => []
      | String.String _ s' =>
          if String.prefix "/p2p/" s then
            let '(seg, rest) := take_segment (String.substring 5 (String.length s - 5) s) in
            if String.eqb seg "" then p2p_matches fuel' s' else seg :: p2p_matches fuel' rest
          else p2p_matches fuel' s'
      end
  end.

Definition matched_peer_id (addr : string) : option string := list.last (p2p_matches (String.length addr) addr).

(** [_peerIdOf] *)
Definition peerIdOf (addr : string) : string := default addr (matched_peer_id addr).

Section Load.
  Context {DocType ChangesType ChangeFnType PublicKey DocumentKey ACL Keychain Group : Type}.
  Context `{!CRDTProvider DocType ChangesType ChangeFnType, !ACLProvider ACL ChangesType PublicKey,
    !KeychainProvider Keychain ChangesType DocumentKey, !Serializers ChangesType,
    !AuthProvider DocumentKey, !Wire.Base64}.

  Abbreviation docT := (@doc DocType ChangesType ChangeFnType PublicKey ACL Keychain Group).
  Abbreviation method := (eff docT).
  Abbreviation message := (CRDTSyncMessage ChangesType).
  Context (cfg : @config ChangeFnType PublicKey) (sha256 : bytes -> bytes).

(** ** Serving *)

(** [_keychainChangesForVisibility] *)
Definition keychainChangesForVisibility (s : docT) : result ChangesType :=
  match _historyVisibility s with
  | full_history => Ok (kc_history (_keychain s))
  | since_invited =>
      match _invitationEpoch s with
      | None => kc_currentKeyChange (_keychain s)
      | Some epoch =>
          match kc_historySince with
          | Some historySince => historySince (_keychain s) epoch
          | None => Ok (kc_history (_keychain s))
          end
      end
  | current_only => kc_currentKeyChange (_keychain s)
  end.

(** [_keychainChangesForWelcome] *)
Definition keychainChangesForWelcome (s : docT) : result ChangesType :=
  match _historyVisibility s with
  | full_history => Ok (kc_history (_keychain s))
  | since_invited | current_only => kc_currentKeyChange (_keychain s)
  end.

(** The loop over the keys of readers and writers. *)
Fixpoint any_verifies (keys : list PublicKey) (documentId : string) (sig : string) : result bool :=
  match keys with
  | [] => Ok false
  | k :: keys' =>
      let? signatureBytes := or_throw "InvalidCharacterError" (Wire.toUint8Array sig) in
      let? ok := verify cfg (TipsHash.utf8_encode documentId) k signatureBytes in
      if ok then Ok true else any_verifies keys' documentId sig
  end.

(** The gate shared by the three handlers. *)
Definition authorizeRequest (m : CRDTLoadRequest) (s : docT) : result bool :=
  if negb (String.eqb (lr_documentId m) (documentPath cfg)) then Ok false
  else if negb (enableSigning cfg) then Ok true
  else if String.eqb (lr_signature m) "" then Ok false
  else
    let? readers := acl_users (_readers s) in
    let? writers := acl_users (_writers s) in
    any_verifies (readers ++ writers) (lr_documentId m) (lr_signature m).

(** Sign, serialize and encrypt under the current key. *)
Definition seal_response (m : message) : method bytes :=
  let! sig := signAsWriter cfg m in
  let! serialized := lift (serializeSyncMessage (m <| signature := Some sig |>)) in
  encrypt_current serialized.

(** A handler answers with an empty sink when it throws. *)
Definition respond (m : method (option bytes)) : method (option bytes) := catch m (fun _ => ret None).

Definition handleLoadRequestData (m : CRDTLoadRequest) : method (option bytes) :=
  respond
    (let! s := get in
     let! authorized := lift (authorizeRequest m s) in
     if negb authorized then ret None
     else
       let! kc := lift (keychainChangesForVisibility s) in
       let loadMessage := createSyncMessage cfg s <| keychainChanges := Some kc |> in
       let loadMessage := match _latestSnapshot s with
                          | Some x => loadMessage <| snapshot_ := Some x |>
                          | None => loadMessage
                          end in
       let loadMessage := loadMessage <| tips := Some (servedFrontier s) |> in
       let! assembled := seal_response loadMessage in
       ret (Some assembled)).

Definition handleSnapshotLoadRequestData (m : CRDTLoadRequest) : method (option bytes) :=
  respond
    (let! s := get in
     let! authorized := lift (authorizeRequest m s) in
     if negb authorized then ret None
     else
       match _latestSnapshot s with
       | None => ret None
       | Some x =>
           let! kc := lift (keychainChangesForVisibility s) in
           let snapshotMessage := createSyncMessage cfg s <| snapshot_ := Some x |>
                                    <| keychainChanges := Some kc |> <| tips := Some (servedFrontier s) |> in
           let! assembled := seal_response snapshotMessage in
           ret (Some assembled)
       end).

Definition handleTipAdvertiseRequestData (m : CRDTLoadRequest) : method (option bytes) :=
  respond
    (let! s := get in
     let! authorized := lift (authorizeRequest m s) in
     if negb authorized then ret None
     else
       let hash := TipsHash.tipsHash sha256 (servedFrontier s) in
       let advertisement := empty_message (documentPath cfg) <| tipsHash := Some hash |> in
       let! assembled := seal_response advertisement in
       ret (Some assembled)).

(** ** Loading from one peer *)

(** A response that has a body, under a key we have. *)
Definition open_frame (assembled : bytes) (s : docT) : result (option bytes) :=
  if length assembled <=? keyIDLength + nonceBits then Ok None
  else
    let '(blockKeyID, blockNonce, blockData) := unframe assembled in
    let? key := kc_getKey (_keychain s) blockKeyID in
    match key with
    | None => Ok None
    | Some key => let? d := decrypt blockData key blockNonce in Ok (Some d)
    end.

(** The check against the writers known before the load; with none known yet, any
    message passes. *)
Definition preload_signed (m : message) (s : docT) : result bool :=
  if negb (enableSigning cfg) then Ok true
  else
    let? writers := acl_users (_writers s) in
    if length writers =? 0 then Ok true
    else
      match truthy (signature m) with
      | None => Ok false
      | Some sig =>
          let? raw := serializeSyncMessage (m <| signature := None |>) in
          match Wire.toUint8Array sig with
          | None => Ok false
          | Some signatureBytes =>
              Utils.firstTrue (settle cfg (map (fun k => verify cfg raw k signatureBytes) writers))
          end
      end.

Definition hex_of (cids : list string) : string := TipsHash.tipsHashToHex (TipsHash.tipsHash sha256 cids).

(** The workers that fetch the blocks before anything is applied. *)
Definition prefetch (expectedCids : list string) : method (list string) :=
  for_each (fun missing cidStr =>
    catch (let! cid := lift (cid_parse cfg cidStr) in
           let! _ := blockstore_get cfg cid in
           ret missing)
          (fun _ => ret (missing ++ [cidStr]))) [] expectedCids.

Section Sync.
  Context (completion : list (string * string * CRDTChangeNodeKind) -> list (string * string * CRDTChangeNodeKind)).

(** The quorum-bound part: binding, stripping, prefetch, sync, completeness. *)
Definition bound_sync (expected : string) (m : message) : method attempt :=
  let served := computeServedFrontier (changeId m) (changes m) (lastChangeNodeCID <$> snapshot_ m) in
  let servedHex := hex_of served in
  if negb (LoadQuorum.constantTimeHexEquals expected servedHex) then ret (BindCheckFailed servedHex)
  else
    match tips m with
    | None => ret (BindCheckFailed "(missing tips)")
    | Some advertised =>
        let advertisedHex := hex_of advertised in
        if negb (LoadQuorum.constantTimeHexEquals servedHex advertisedHex) then ret (BindCheckFailed advertisedHex)
        else
          let expectedCids := collectAllCidsInTree (changeId m) (changes m) in
          let m := m <| changes := stripInlineChanges <$> changes m |> in
          let! s := get in
          let! writers := lift (acl_users (_writers s)) in
          let m := if length writers =? 0 then m <| snapshot_ := None |> else m in
          match changes m, snapshot_ m with
          | None, None => ret (BindCheckFailed "(snapshot-only first-load)")
          | _, _ =>
              let! missing := prefetch expectedCids in
              if negb (length missing =? 0) then ret (BindCheckFailed "(prefetch-missing-blocks)")
              else
                let! syncResult := sync cfg completion m false in
                if negb syncResult then ret (Served false)
                else
                  let! s := get in
                  if forallb (fun cid => set_has cid (_hashes s)) expectedCids then ret (Served true)
                  else ret (BindCheckFailed "(missing-blocks)")
          end
    end.

Definition sendLoadRequestAndSync (response : result Utils.stream) (expectedTipsHashHex : option string)
    : method attempt :=
  let! source := lift response in
  let! assembled := lift (Utils.readUint8Iterable None source) in
  if length assembled =? 0 then ret (Served false)
  else
    let! s := get in
    let! rawContent := lift (open_frame assembled s) in
    match rawContent with
    | None => ret (Served false)
    | Some raw =>
        let! m := lift (deserializeSyncMessage raw) in
        if negb (String.eqb (documentId m) (documentPath cfg)) then ret (Served false)
        else
          let! ok := lift (preload_signed m s) in
          if negb ok then ret (Served false)
          else
            match expectedTipsHashHex with
            | Some expected => bound_sync expected m
            | None => let! syncResult := sync cfg completion m false in ret (Served syncResult)
            end
    end.

(** ** Probing the tips *)

(** [_probeTipAdvertise]: any failure is [NoVote]. *)
Definition probeTipAdvertise (response : result Utils.stream) (s : docT) : LoadQuorum.vote :=
  match (let? source := response in
         let? assembled := Utils.readUint8Iterable (Some MAX_TIP_ADVERTISE_RESPONSE_SIZE) source in
         if length assembled =? 0 then Ok LoadQuorum.NoVote
         else if bool_decide (assembled = [byte_of_Z 255]) then Ok LoadQuorum.UnknownDoc
         else
           let? rawContent := open_frame assembled s in
           match rawContent with
           | None => Ok LoadQuorum.NoVote
           | Some raw =>
               let? m := deserializeSyncMessage raw in
               if negb (String.eqb (documentId m) (documentPath cfg)) then Ok LoadQuorum.NoVote
               else
                 let? ok := preload_signed m s in
                 if negb ok then Ok LoadQuorum.NoVote
                 else
                   match tipsHash m with
                   | Some h => if (Z.of_nat (length h) =? TipsHash.TIPS_HASH_LENGTH)%Z
                               then Ok (LoadQuorum.TipHash h) else Ok LoadQuorum.NoVote
                   | None => Ok LoadQuorum.NoVote
                   end
           end) with
  | Ok v => v
  | Err _ => LoadQuorum.NoVote
  end.

(** ** [load] *)

(** What the network answers: a peer is its multiaddr. *)
Record network := Network {
  connections : list string;
  random : nat -> Q;
  tipResponse : string -> result Utils.stream;
  tipTimesOut : string -> bool;
  snapshotResponse : string -> result Utils.stream;
  docResponse : string -> result Utils.stream;
  quorumConfig : option QuorumOrchestrator.LoadQuorumOrchestratorConfig;
  serializeLoadRequest : CRDTLoadRequest -> result bytes;
}.
  Context (net : network).

(** [_raceTipAdvertiseProbe] *)
Definition raceTipAdvertiseProbe (s : docT) (peer : string) : option LoadQuorum.vote :=
  if tipTimesOut net peer then Some LoadQuorum.NoVote else Some (probeTipAdvertise (tipResponse net peer) s).

Fixpoint remove_at {A} (i : nat) (l : list A) : list A :=
  match l, i with
  | [], _ => []
  | _ :: l', 0 => l'
  | x :: l', S i' => x :: remove_at i' l'
  end.

(** Moving the preferred peer to the front. *)
Definition prefer (preferred : option string) (peers : list string) : list string :=
  match preferred with
  | None => peers
  | Some id =>
      match list_find (fun p => matched_peer_id p = Some id) peers with
      | Some (S i, p) => p :: remove_at (S i) peers
      | _ => peers
      end
  end.

(** One round of the loop over the peers: [None] goes on to the next peer. *)
Definition try_peer (winning : option string) (failures : list (string * string)) (peer : string)
    : method (option bool * list (string * string)) :=
  let! viaSnapshot :=
    if enabled (compactionConfig cfg) then
      catch (sendLoadRequestAndSync (snapshotResponse net peer) winning) (fun _ => ret (Served false))
    else ret (Served false) in
  match viaSnapshot with
  | Served true => ret (Some true, failures)
  | BindCheckFailed hex => ret (None, map_set (peerIdOf peer) hex failures)
  | Served false =>
      let! viaDoc := catch (sendLoadRequestAndSync (docResponse net peer) winning) (fun _ => ret (Served false)) in
      match viaDoc with
      | Served true => ret (Some true, failures)
      | BindCheckFailed hex => ret (None, map_set (peerIdOf peer) hex failures)
      | Served false => ret (None, failures)
      end
  end.

Fixpoint try_peers (winning : option string) (failures : list (string * string)) (peers : list string)
    : method (bool * list (string * string)) :=
  match peers with
  | [] => ret (false, failures)
  | peer :: peers' =>
      let! r := try_peer winning failures peer in
      match r.1 with
      | Some _ => ret (true, r.2)
      | None => try_peers winning r.2 peers'
      end
  end.

Definition load_from (winning : option string) (orderedPeers : list string) : method load_result :=
  let! r := try_peers winning [] orderedPeers in
  if r.1 then ret (LoadReturned true)
  else
    match winning with
    | None => ret (LoadReturned false)
    | Some hex =>
        let reason := if negb (length orderedPeers =? 0) && (length r.2 =? length orderedPeers)
                      then LoadQuorum.BindCheckFailedAllAgreeingPeers
                      else LoadQuorum.AgreeingPeersUnreachable in
        ret (LoadQuorumFailed
               (LoadQuorum.QuorumError (documentPath cfg) reason 0%Z (num_of_Z 0) [(hex, 0%Z)] r.2 None))
    end.

Definition quorum_enabled : bool :=
  default true (quorumConfig net ≫= QuorumOrchestrator.cfg_enabled).

Definition load (preferredPeer : option string) : method load_result :=
  let shuffledPeers := Utils.shuffleArray (random net) (connections net) in
  if length shuffledPeers =? 0 then ret (LoadReturned false)
  else
    let orderedPeers := prefer preferredPeer shuffledPeers in
    let! sig :=
      if enableSigning cfg then
        let! d := draw in
        let! b := lift (sign cfg d (TipsHash.utf8_encode (documentPath cfg))) in
        ret (Wire.fromUint8Array b)
      else ret "" in
    let! _ := lift (serializeLoadRequest net (LoadRequest (documentPath cfg) sig)) in
    let quorumPeers := LoadQuorum.dedupePeersByPeerId peerIdOf orderedPeers in
    let! s := get in
    match QuorumOrchestrator.runLoadQuorum peerIdOf (raceTipAdvertiseProbe s) quorumPeers
            (documentPath cfg) (quorumConfig net) with
    | QuorumOrchestrator.OtherError e => lift (Err e)
    | QuorumOrchestrator.QuorumFailed e => ret (LoadQuorumFailed e)
    | QuorumOrchestrator.Returned QuorumOrchestrator.NewDoc => ret (LoadReturned false)
    | QuorumOrchestrator.Returned QuorumOrchestrator.Skipped =>
        if quorum_enabled && (length quorumPeers =? 0) then ret (LoadReturned false)
        else load_from None orderedPeers
    | QuorumOrchestrator.Returned (QuorumOrchestrator.Narrowed narrowed hex) => load_from (Some hex) narrowed
    end.

(** ** [open], [close] and what arrives in between *)

(** [swarm.config?.validateDocumentPath] *)
  Context (validateDocumentPath : option (string -> PublicKey -> result bool)).

(** [close]: the topic and its listener, then the registry. *)
Definition close : method unit :=
  let! s := get in
  let! _ := when (_pubsubHandler s)
    (let! _ := when (_subscribed s)
       (let! _ := emit TopicUnsubscribed in
        modify (fun s => s <| _subscribed := false |>)) in
     ret tt) in
  emit Unregistered.

(** The founder's first entries: a writer change and a document key. *)
Definition found : method unit :=
  let! s := get in
  let! r := lift (acl_add (_writers s) (userPublicKey cfg)) in
  let! _ := modify (fun s => s <| _writers := r.1 |>) in
  let! d := draw in
  let! s := get in
  let! k := lift (kc_add d (_keychain s)) in
  let! _ := modify (fun s => s <| _keychain := k.1 |>) in
  makeChange cfg r.2 WriterNode.

(** [open] returns whether the document existed; a failed quorum rejects it. *)
Inductive open_result : Type :=
| Opened (isExisting : bool)
| OpenQuorumFailed (e : LoadQuorum.LoadQuorumFailedError).

Definition open : method open_result :=
  let! loaded := load None in
  match loaded with
  | LoadQuorumFailed e => ret (OpenQuorumFailed e)
  | LoadReturned loadedFromPeer =>
      let! s := get in
      let isExisting := loadedFromPeer || negb (length (_hashes s) =? 0) in
      let! _ :=
        if isExisting then ret tt
        else match validateDocumentPath with
             | None => ret tt
             | Some f =>
                 let! allowed := lift (f (documentPath cfg) (userPublicKey cfg)) in
                 if allowed then ret tt else lift (throw "Document path is not allowed for the current user")
             end in
      let! _ := modify (fun s => s <| _pubsubHandler := true |>) in
      catch
        (let! _ := emit Registered in
         let! _ := emit TopicSubscribed in
         let! _ := modify (fun s => s <| _subscribed := true |>) in
         let! _ := if isExisting then ret tt else found in
         ret (Opened isExisting))
        (fun err => let! _ := close in lift (throw err))
  end.

(** The pubsub handler: what cannot be decrypted triggers a load, from the sender
    first when the message names it. *)
Definition pubsubHandler (data : bytes) (sender : option string) : method bool :=
  let '(blockKeyID, blockNonce, blockData) := unframe data in
  let! rawContent := decryptBlock blockKeyID blockNonce blockData in
  match rawContent with
  | None =>
      let! r := load sender in
      match r with
      | LoadReturned b => ret b
      | LoadQuorumFailed _ => lift (throw "LoadQuorumFailedError")
      end
  | Some raw =>
      let! m := lift (deserializeSyncMessage raw) in
      sync cfg completion m true
  end.

(** The topic validator, installed when signing is enabled. *)
Definition topicValidator (data : bytes) : method TopicValidatorResult :=
  catch
    (let '(blockKeyID, blockNonce, blockData) := unframe data in
     let! rawContent := decryptBlock blockKeyID blockNonce blockData in
     match rawContent with
     | None => ret Ignore
     | Some raw =>
         let! m := lift (deserializeSyncMessage raw) in
         match truthy (signature m) with
         | None => ret Reject
         | Some sig =>
             let! raw := lift (serializeSyncMessage (m <| signature := None |>)) in
             let! ok := verifyWriterSignature cfg raw sig in
             ret (if ok then Accept else Reject)
         end
     end)
    (fun _ => ret Ignore).

End Sync.
End Load.
End Loading.
