(* ===== verification/LoadingTheory.v ===== *)
(** * Theorems about loading

    About [Loading]: a request is answered only for a reader or a writer; an honest
    peer's vote and its load response bind to the same frontier and pass the
    loader's checks; once a writer is known, only what a writer signed is merged; a
    quorum-bound load that succeeds has the agreed frontier and the changes that the
    served tree lists, and one that fails its checks has applied nothing; peers that
    do not present the agreed frontier cannot keep a load from the peer that does. *)
From stdpp Require Import base numbers list list_numbers strings sets.
From Stdlib Require Import ZArith QArith Lia Ascii.
From S2P Require Import Prelude TipsHash LoadQuorum QuorumOrchestrator Utils Wire ChangeTree Auth.
From S2P Require Import WriterCache Document DocumentTheory Loading.

Open Scope string_scope.
Open Scope list_scope.
Open Scope nat_scope.

Module LoadingTheory.
Import ChangeTree Document DocumentTheory Loading.

Section Load.
  Context {DocType ChangesType ChangeFnType PublicKey DocumentKey ACL Keychain Group : Type}.
  Context `{!CRDTProvider DocType ChangesType ChangeFnType, !ACLProvider ACL ChangesType PublicKey,
    !KeychainProvider Keychain ChangesType DocumentKey, !Serializers ChangesType,
    !AuthProvider DocumentKey, !Wire.Base64}.

  Abbreviation docT := (@doc DocType ChangesType ChangeFnType PublicKey ACL Keychain Group).
  Context (cfg : @config ChangeFnType PublicKey) (sha256 : bytes -> bytes).

(** ** Who is answered *)

(** The requester proved to hold a reader's or a writer's key. *)
Definition entitled (m : CRDTLoadRequest) (s : docT) : Prop :=
  lr_documentId m = documentPath cfg /\
  (enableSigning cfg = false \/
   exists readers writers sig k, acl_users (_readers s) = Ok readers /\ acl_users (_writers s) = Ok writers /\
     Wire.toUint8Array (lr_signature m) = Some sig /\ (k ∈ readers \/ k ∈ writers) /\
     verify cfg (TipsHash.utf8_encode (documentPath cfg)) k sig = Ok true).

Lemma any_verifies_true keys d sig : any_verifies cfg keys d sig = Ok true ->
  exists b k, Wire.toUint8Array sig = Some b /\ k ∈ keys /\ verify cfg (TipsHash.utf8_encode d) k b = Ok true.
Proof.
  induction keys as [|k keys IH]; simpl; [done|].
  destruct (Wire.toUint8Array sig) as [b|] eqn:Eb; [|done]. simpl.
  destruct (verify cfg _ k b) as [[]|] eqn:Ev; [|intros E|done].
  - intros _. exists b, k. split_and!; [done|by left|done].
  - destruct (IH E) as (b' & k' & ? & ? & ?). exists b', k'. split_and!; [done|by right|done].
Qed.

Lemma authorize_entitled m s : authorizeRequest cfg m s = Ok true -> entitled m s.
Proof.
  unfold authorizeRequest, entitled.
  destruct (String.eqb_spec (lr_documentId m) (documentPath cfg)) as [E|]; [|done]. simpl.
  destruct (enableSigning cfg); [|intros; split; [done|by left]]. simpl.
  destruct (String.eqb _ ""); [done|].
  destruct (acl_users (_readers s)) as [rs|] eqn:Er; [|done]. destruct (acl_users (_writers s)) as [ws|] eqn:Ew; [|done].
  intros (b & k & ? & Hk & ?)%any_verifies_true. split; [done|]. right. rewrite E in *.
  exists rs, ws, b, k. split_and!; try done. by apply elem_of_app in Hk.
Qed.

Lemma respond_some (m : eff docT (option bytes)) s b s' : respond m s = (Ok (Some b), s') -> m s = (Ok (Some b), s').
Proof. unfold respond, catch. by destruct (m s) as [[x|[e|]] s1]. Qed.

Lemma gate_some (m : CRDTLoadRequest) (k : docT -> eff docT (option bytes)) s b s' :
  (let! s := get in
   let! authorized := lift (authorizeRequest cfg m s) in
   if negb authorized then ret None else k s) s = (Ok (Some b), s') ->
  authorizeRequest cfg m s = Ok true /\ k s s = (Ok (Some b), s').
Proof.
  intros E. rewrite (bind_ok _ _ s s s) in E by done.
  apply bind_inv in E as ([] & s1 & [Ha ->]%lift_inv & E); [|done]. done.
Qed.

(** C19. The document's content, snapshot and tips go to nobody else: each of the three
    handlers answers with data only when the request names this document and,
    with signing enabled, carries a signature that a current reader's or writer's
    key verifies; every error is answered with nothing. *)
Theorem requests_authorized m (s : docT) :
  ((exists b s', handleLoadRequestData cfg m s = (Ok (Some b), s')) \/
   (exists b s', handleSnapshotLoadRequestData cfg m s = (Ok (Some b), s')) \/
   (exists b s', handleTipAdvertiseRequestData cfg sha256 m s = (Ok (Some b), s'))) ->
  entitled m s.
Proof.
  intros [(b & s' & E)|[(b & s' & E)|(b & s' & E)]]; apply respond_some, gate_some in E as [Ha _];
    by apply authorize_entitled.
Qed.

(** ** An honest peer is consistent *)

(** The last message never carries a response's fields. *)
Definition plain_last (s : docT) : Prop :=
  forall m, _lastSyncMessage s = Some m -> documentId m = documentPath cfg /\ snapshot_ m = None.

(** [b] is a frame of [m], signed, under the current key of [s]. *)
Definition sealed (s : docT) (m : CRDTSyncMessage ChangesType) (b : bytes) : Prop :=
  exists sig raw id key d nonce data,
    serializeSyncMessage (m <| signature := Some sig |>) = Ok raw /\
    kc_current (_keychain s) = Ok (id, Some key) /\
    encrypt d raw key = Ok (Some nonce, data) /\ frame id nonce data = Ok b.

Lemma sign_keychain m (s : docT) sig s' : signAsWriter cfg m s = (Ok sig, s') -> _keychain s' = _keychain s.
Proof.
  unfold signAsWriter. destruct (negb _); [by intros [= <- <-]|]. unfold signAsWriterUnconditional. intros E.
  apply bind_inv in E as (raw & ? & [_ ->]%lift_inv & E). apply bind_inv in E as (d & s1 & [= _ <-] & E).
  apply bind_inv in E as (x & ? & [_ ->]%lift_inv & [= <- <-]). done.
Qed.

Lemma seal_response_sealed m (s : docT) b s' : seal_response cfg m s = (Ok b, s') -> sealed s m b.
Proof.
  unfold seal_response. intros E. apply bind_inv in E as (sig & s1 & Hs%sign_keychain & E).
  apply bind_inv in E as (raw & ? & [Hr ->]%lift_inv & E). unfold encrypt_current in E.
  apply bind_inv in E as (? & ? & [= <- <-] & E).
  apply bind_inv in E as ([id key] & ? & [Hc ->]%lift_inv & E). simpl in E. destruct key as [key|]; [|done].
  apply bind_inv in E as (d & s2 & Hd & E). apply bind_inv in E as ([nonce data] & ? & [He ->]%lift_inv & E).
  simpl in E. destruct nonce as [nonce|]; [|done]. apply lift_inv in E as [Hf _].
  rewrite Hs in Hc. exists sig, raw, id, key, d, nonce, data. done.
Qed.

(** The loader has the key that the server encrypts with. *)
Definition shares_key (server loader : docT) : Prop :=
  forall id key, kc_current (_keychain server) = Ok (id, Some key) -> kc_getKey (_keychain loader) id = Ok (Some key).

Lemma open_sealed `{!KeychainLaws, !SerializerLaws} (server loader : docT) m b :
  sealed server m b -> shares_key server loader -> keyIDLength + nonceBits < length b ->
  exists raw sig, open_frame b loader = Ok (Some raw) /\
    deserializeSyncMessage raw = Ok (m <| signature := Some sig |>).
Proof.
  intros (sig & raw & id & key & d & nonce & data & Hr & Hc & He & Hf) Hk Hl. exists raw, sig.
  unfold open_frame. rewrite (proj2 (Nat.leb_gt _ _) Hl).
  rewrite (unframe_frame id nonce data b) by eauto using kc_id_length, encrypt_nonce.
  rewrite (Hk _ _ Hc). rewrite (decrypt_encrypt _ _ _ _ _ He). split; [done|]. by apply message_roundtrip.
Qed.

(** The message of a load response. *)
Definition load_message (s : docT) (kc : ChangesType) : CRDTSyncMessage ChangesType :=
  match _latestSnapshot s with
  | Some x => createSyncMessage cfg s <| keychainChanges := Some kc |> <| snapshot_ := Some x |>
  | None => createSyncMessage cfg s <| keychainChanges := Some kc |>
  end <| tips := Some (servedFrontier s) |>.

Lemma handleLoad_sealed m (s : docT) b s' : handleLoadRequestData cfg m s = (Ok (Some b), s') ->
  exists kc, sealed s (load_message s kc) b.
Proof.
  intros E. apply respond_some, gate_some in E as [_ E].
  apply bind_inv in E as (kc & ? & [_ ->]%lift_inv & E). cbv zeta in E.
  apply bind_inv in E as (a & s1 & Hs%seal_response_sealed & [= <- <-]). exists kc. exact Hs.
Qed.

Lemma handleTip_sealed m (s : docT) b s' : handleTipAdvertiseRequestData cfg sha256 m s = (Ok (Some b), s') ->
  sealed s (empty_message (documentPath cfg)
              <| tipsHash := Some (TipsHash.tipsHash sha256 (servedFrontier s)) |>) b.
Proof.
  intros E. apply respond_some, gate_some in E as [_ E]. cbv zeta in E.
  by apply bind_inv in E as (a & s1 & Hs%seal_response_sealed & [= <- <-]).
Qed.

(** The frontier a loader computes from the response is the one the server serves. *)
Lemma load_message_frontier (s : docT) kc : plain_last s ->
  documentId (load_message s kc) = documentPath cfg /\
  computeServedFrontier (changeId (load_message s kc)) (changes (load_message s kc))
    (lastChangeNodeCID <$> snapshot_ (load_message s kc)) = servedFrontier s.
Proof.
  intros Hp. unfold load_message, servedFrontier, createSyncMessage.
  destruct (_lastSyncMessage s) as [m|] eqn:E; simpl.
  - destruct (Hp m E) as [Hd Hs]. destruct (_latestSnapshot s); simpl; [done|]. by rewrite Hs.
  - by destruct (_latestSnapshot s).
Qed.

Lemma charCodes_length t : length (LoadQuorum.charCodes t) = String.length t.
Proof. induction t as [|c t IH]; simpl; [done|]. by rewrite IH. Qed.

Lemma hex_equals_refl h : (forall b, length (sha256 b) = 32) ->
  LoadQuorum.constantTimeHexEquals (hex_of sha256 h) (hex_of sha256 h) = true.
Proof.
  intros Hs. assert (Hl : (Z.of_nat (length (LoadQuorum.charCodes (hex_of sha256 h))) < 2 ^ 31)%Z).
  { rewrite charCodes_length. unfold hex_of. rewrite TipsHash.tipsHashToHex_length.
    unfold TipsHash.tipsHash. rewrite Hs. done. }
  by apply LoadQuorum.constantTimeHexEquals_iff.
Qed.

Lemma read_single maxSize b : Utils.exceeds maxSize (length b) = false ->
  Utils.readUint8Iterable maxSize [Ok (Some (Utils.Uint8Array b))] = Ok b.
Proof. intros Hx. apply Utils.readUint8Iterable_ok. split; [|done]. unfold Utils.stream_bytes. simpl. by rewrite app_nil_r. Qed.

Section Honest.
  Context `{!KeychainLaws, !SerializerLaws} (server loader : docT) (req : CRDTLoadRequest).
  Context (sha_length : forall b, length (sha256 b) = 32) (Hplain : plain_last server)
    (Hkey : shares_key server loader).
  (** The loader knows no writer yet, or the server's signatures satisfy it. *)
  Context (Htrust : forall m b, sealed server m b -> forall sig,
             preload_signed cfg (m <| signature := Some sig |>) loader = Ok true).

(** An honest peer is consistent: from one state, its answer to a probe is counted
    as a vote for the hash of its frontier, and its load response passes both
    frontier checks of a load that is bound to that vote. *)
Theorem honest_peer_binds vote_frame load_frame s1 s2 :
  handleTipAdvertiseRequestData cfg sha256 req server = (Ok (Some vote_frame), s1) ->
  handleLoadRequestData cfg req server = (Ok (Some load_frame), s2) ->
  keyIDLength + nonceBits < length vote_frame <= MAX_TIP_ADVERTISE_RESPONSE_SIZE ->
  keyIDLength + nonceBits < length load_frame -> 1 <= keyIDLength ->
  probeTipAdvertise cfg (Ok [Ok (Some (Utils.Uint8Array vote_frame))]) loader
    = LoadQuorum.TipHash (TipsHash.tipsHash sha256 (servedFrontier server)) /\
  exists raw m, open_frame load_frame loader = Ok (Some raw) /\ deserializeSyncMessage raw = Ok m /\
    documentId m = documentPath cfg /\ preload_signed cfg m loader = Ok true /\
    let served := hex_of sha256 (computeServedFrontier (changeId m) (changes m) (lastChangeNodeCID <$> snapshot_ m)) in
    LoadQuorum.constantTimeHexEquals
      (TipsHash.tipsHashToHex (TipsHash.tipsHash sha256 (servedFrontier server))) served = true /\
    exists advertised, tips m = Some advertised /\
      LoadQuorum.constantTimeHexEquals served (hex_of sha256 advertised) = true.
Proof.
  intros Ht%handleTip_sealed [kc Hl]%handleLoad_sealed Hlt Hll Hid. split.
  - destruct (open_sealed server loader _ _ Ht Hkey) as (raw & sig & Ho & Hd); [lia|].
    unfold probeTipAdvertise. rewrite read_single by (apply bool_decide_eq_false_2; lia).
    destruct (Nat.eqb_spec (length vote_frame) 0); [lia|].
    rewrite bool_decide_eq_false_2 by (intros ->; simpl in Hlt; lia).
    rewrite Ho, Hd. simpl. rewrite String.eqb_refl. simpl. rewrite (Htrust _ _ Ht sig). simpl.
    unfold TipsHash.tipsHash at 1. rewrite sha_length. done.
  - destruct (open_sealed server loader _ _ Hl Hkey Hll) as (raw & sig & Ho & Hd).
    destruct (load_message_frontier server kc Hplain) as [Hdoc Hfront].
    exists raw, (load_message server kc <| signature := Some sig |>). split_and!; [done|done|done| |].
    { by apply (Htrust _ _ Hl). }
    cbn [changeId changes snapshot_ tips update_field] in *.
    change (changeId (load_message server kc <| signature := Some sig |>)) with (changeId (load_message server kc)).
    change (changes (load_message server kc <| signature := Some sig |>)) with (changes (load_message server kc)).
    change (snapshot_ (load_message server kc <| signature := Some sig |>)) with (snapshot_ (load_message server kc)).
    rewrite Hfront. split; [by apply hex_equals_refl|]. exists (servedFrontier server).
    split; [|by apply hex_equals_refl]. unfold load_message. by destruct (_latestSnapshot server).
Qed.
End Honest.

(** ** What a quorum-bound load guarantees *)

(** Only cached blocks changed. *)
Definition cached (s s' : docT) : Prop := s' = s <| _blocks := _blocks s' |>.

#[local] Instance cached_preorder : PreOrder cached.
Proof.
  split; [by intros []|]. intros a b c E1 E2. unfold cached in *. rewrite E2 at 1. rewrite E1 at 1. reflexivity.
Qed.

Lemma prefetch_cached l : steps cached (prefetch cfg l).
Proof.
  unfold prefetch, blockstore_get. steps_tac. apply steps_modify. by intros [].
Qed.

Section Bound.
  Context (completion : list (string * string * CRDTChangeNodeKind) -> list (string * string * CRDTChangeNodeKind)).

(** C17. A quorum-bound load from one peer: if it succeeds, the served tree's frontier
    is the one the quorum agreed on, up to the hash, the responder attested it, and
    every CID that the code lists in the tree is known afterwards, which is every CID in
    it when no CID is a bare link in one place and has children in another; if a check
    fails before the merge, nothing but cached blocks has changed, so the next peer
    starts clean. *)
Theorem bound_load_sound expected (m : CRDTSyncMessage ChangesType) (s : docT) r s' :
  (forall b, length (sha256 b) = 32) -> (Z.of_nat (String.length expected) < 2 ^ 31)%Z ->
  bound_sync cfg sha256 completion expected m s = (Ok r, s') ->
  (r = Served true ->
     expected = hex_of sha256 (computeServedFrontier (changeId m) (changes m) (lastChangeNodeCID <$> snapshot_ m)) /\
     (exists l, tips m = Some l /\ hex_of sha256 l = expected) /\
     (forall c, c ∈ collectAllCidsInTree (changeId m) (changes m) -> c ∈ _hashes s') /\
     forall tree c n, changes m = Some tree -> coherent (changeId m) tree -> occ (changeId m) tree (Some c) n -> c ∈ _hashes s') /\
  (forall h, r = BindCheckFailed h -> h <> "(missing-blocks)" -> cached s s').
Proof.
  intros Hsha Hexp E. unfold bound_sync in E. cbv zeta in E.
  set (served := computeServedFrontier _ _ _) in *.
  assert (Hlen : forall l, (Z.of_nat (length (LoadQuorum.charCodes (hex_of sha256 l))) < 2 ^ 31)%Z).
  { intros l. rewrite charCodes_length. unfold hex_of. rewrite TipsHash.tipsHashToHex_length.
    unfold TipsHash.tipsHash. rewrite Hsha. done. }
  assert (Hlex : (Z.of_nat (length (LoadQuorum.charCodes expected)) < 2 ^ 31)%Z).
  { by rewrite charCodes_length. }
  destruct (LoadQuorum.constantTimeHexEquals expected (hex_of sha256 served)) eqn:E1;
    [|injection E as <- <-; split; [done|by intros]].
  apply LoadQuorum.constantTimeHexEquals_iff in E1; [|done..].
  destruct (tips m) as [adv|] eqn:Et; [|injection E as <- <-; split; [done|by intros]].
  destruct (LoadQuorum.constantTimeHexEquals (hex_of sha256 served) (hex_of sha256 adv)) eqn:E2;
    [|injection E as <- <-; split; [done|by intros]].
  apply LoadQuorum.constantTimeHexEquals_iff in E2; [|done..]. cbn [negb] in E.
  rewrite (bind_ok _ _ s s s) in E by done. apply bind_inv in E as (ws & ? & [_ ->]%lift_inv & E).
  match type of E with context [sync cfg completion ?x false] => set (m' := x) in * end.
  assert (Hcont : (let! missing := prefetch cfg (collectAllCidsInTree (changeId m) (changes m)) in
      if negb (length missing =? 0) then ret (BindCheckFailed "(prefetch-missing-blocks)")
      else let! syncResult := sync cfg completion m' false in
           if negb syncResult then ret (Served false)
           else let! s := get in
                if forallb (fun cid => set_has cid (_hashes s)) (collectAllCidsInTree (changeId m) (changes m))
                then ret (Served true) else ret (BindCheckFailed "(missing-blocks)")) s = (Ok r, s') \/
      (r = BindCheckFailed "(snapshot-only first-load)" /\ s' = s)).
  { destruct (changes m'); [by left|]. destruct (snapshot_ m'); [by left|]. injection E as <- <-. by right. }
  clear E. destruct Hcont as [E|[-> ->]]; [|by split].
  apply bind_inv in E as (missing & s1 & Hpre & E).
  assert (Hc1 : cached s s1) by (pose proof (prefetch_cached (collectAllCidsInTree (changeId m) (changes m)) s) as Hx; by rewrite Hpre in Hx).
  destruct (length missing =? 0); cbn [negb] in E; [|injection E as <- <-; by split].
  apply bind_inv in E as ([] & s2 & Hs & E); cbn [negb] in E; [|injection E as <- <-; by split].
  rewrite (bind_ok _ _ s2 s2 s2) in E by done.
  destruct (forallb _ _) eqn:Hall; injection E as <- <-; [|split; [done|by intros h [= <-] ?]].
  assert (Hknown : forall c, c ∈ collectAllCidsInTree (changeId m) (changes m) -> c ∈ _hashes s2).
  { intros c Hc%list_elem_of_In. apply forallb_forall with (x := c) in Hall; [|done]. by apply set_has_spec in Hall. }
  split; [|done]. intros _. split_and!; [done| |done|].
  - exists adv. split; [done|congruence].
  - intros tree c n Et' Hcoh Hocc. apply Hknown. rewrite Et'. destruct (tree_listing_exact _ _ Hcoh) as (_ & Hl & _). apply Hl. eauto.
Qed.

(** ** What a response carries *)

(** The response is a stream that opens, under a key we have, to the message. *)
Definition carries (resp : result Utils.stream) (s : docT) (m : CRDTSyncMessage ChangesType) : Prop :=
  exists source b raw, resp = Ok source /\ Utils.readUint8Iterable None source = Ok b /\
    open_frame b s = Ok (Some raw) /\ deserializeSyncMessage raw = Ok m.

Definition send (winning : option string) (resp : result Utils.stream) : eff docT attempt :=
  sendLoadRequestAndSync cfg sha256 completion resp winning.

(** An attempt ends without a trace, or goes on with the message. *)
#[local] Ltac quiet E := left; injection E as <- <-; split_and!; [done|done|by intros].

Lemma send_carried winning resp s :
  ((send winning resp s).2 = s /\ (send winning resp s).1 <> Ok (Served true) /\ forall h, (send winning resp s).1 <> Ok (BindCheckFailed h)) \/
  exists m, carries resp s m /\ documentId m = documentPath cfg /\ preload_signed cfg m s = Ok true /\
    send winning resp s = match winning with
                          | Some expected => bound_sync cfg sha256 completion expected m s
                          | None => (let! syncResult := sync cfg completion m false in ret (Served syncResult)) s
                          end.
Proof.
  destruct (send winning resp s) as [r s'] eqn:E. cbn [fst snd]. unfold send, sendLoadRequestAndSync in E. unfold carries.
  unfold bind at 1, lift at 1 in E. destruct resp as [source|e]; [|quiet E].
  unfold bind at 1, lift at 1 in E. destruct (Utils.readUint8Iterable None source) as [b|e] eqn:Eb; [|quiet E].
  destruct (length b =? 0); [quiet E|]. rewrite (bind_ok _ _ s s s) in E by done. unfold bind at 1, lift at 1 in E.
  destruct (open_frame b s) as [[raw|]|e] eqn:Eo; [|quiet E..]. unfold bind at 1, lift at 1 in E.
  destruct (deserializeSyncMessage raw) as [m|e] eqn:Em; [|quiet E].
  destruct (String.eqb_spec (documentId m) (documentPath cfg)); [|quiet E]. cbn [negb] in E. unfold bind at 1, lift at 1 in E.
  destruct (preload_signed cfg m s) as [[]|e'] eqn:Ep; [|quiet E..]. cbn [negb] in E. right. exists m.
  split_and!; [by exists source, b, raw|done|done|]. rewrite <- E. by destruct winning.
Qed.

(** ** Once a writer is known *)

Lemma preload_signed_writer m (s : docT) k ks : enableSigning cfg = true -> (forall l, settle cfg l ≡ₚ l) ->
  acl_users (_writers s) = Ok (k :: ks) -> preload_signed cfg m s = Ok true -> signed_by_writer cfg m s.
Proof.
  intros Hen Hset Hw E. unfold preload_signed in E. rewrite Hen, Hw in E. cbn [negb length Nat.eqb] in E. cbn beta iota in E.
  destruct (truthy (signature m)) as [sig|] eqn:Hsig; [|done].
  assert (Hs : signature m = Some sig) by (unfold truthy in Hsig; by destruct (signature m) as [[|]|]; simplify_eq).
  destruct (serializeSyncMessage (m <| signature := None |>)) as [raw|] eqn:Hraw; [|done]. cbn beta iota in E.
  destruct (Wire.toUint8Array sig) as [sb|] eqn:Hb; [|done].
  apply firstTrue_true in E. rewrite (Hset _) in E. apply list_elem_of_In, in_map_iff in E as (k' & Hv & Hin%list_elem_of_In).
  exists raw, (k :: ks), sig, sb. eauto 10.
Qed.

  Context (net : network).

(** C15. With signing enabled and a writer known, gossip and load responses change a document only
    with what a current writer signed. A pubsub message that decrypts, and the response of a
    peer to a load, bound to a quorum or not, carries a message that a current writer
    signed; or it is not accepted and leaves every field as it was. Before a first load no
    writer is known and the code has nothing to verify with; that case is excluded. *)
Theorem network_authorized (s : docT) k ks : enableSigning cfg = true -> (forall l, settle cfg l ≡ₚ l) ->
  acl_users (_writers s) = Ok (k :: ks) ->
  (forall data sender raw, (let '(blockKeyID, nonce, content) := unframe data in decryptBlock blockKeyID nonce content) s = (Ok (Some raw), s) ->
     (exists m, deserializeSyncMessage raw = Ok m /\ signed_by_writer cfg m s) \/
     let r := pubsubHandler cfg sha256 completion net data sender s in r.2 = s /\ r.1 <> Ok true) /\
  (forall winning resp, (exists m, carries resp s m /\ signed_by_writer cfg m s) \/
     let r := sendLoadRequestAndSync cfg sha256 completion resp winning s in r.2 = s /\ r.1 <> Ok (Served true)).
Proof.
  intros Hen Hset Hw. split.
  - intros data sender raw E. unfold pubsubHandler. destruct (unframe data) as [[keyID nonce] content]. rewrite (bind_ok _ _ _ _ _ E).
    unfold bind, lift. destruct (deserializeSyncMessage raw) as [m|e]; [|by right].
    destruct (sync_unsigned cfg completion m s Hen Hset) as [Hm|Hn]; [left; eauto|by right].
  - intros winning resp. destruct (send_carried winning resp s) as [(H1 & H2 & _)|(m & Hm & _ & Hp & _)]; [by right|].
    left. exists m. split; [done|]. by eapply preload_signed_writer.
Qed.

(** ** The loop over the agreeing cohort *)

  Context (expected : string).

(** The message has the agreed frontier, and its sender attests it. *)
Definition binds (m : CRDTSyncMessage ChangesType) : Prop :=
  expected = hex_of sha256 (computeServedFrontier (changeId m) (changes m) (lastChangeNodeCID <$> snapshot_ m)) /\
  exists l, tips m = Some l /\ hex_of sha256 l = expected.

(** A response that does not carry such a message: it may refuse, break off, be garbage, be
    for another document or another key, or have another frontier. *)
Definition off_quorum (resp : result Utils.stream) (s : docT) : Prop :=
  (forall m, carries resp s m -> ~ binds m) /\ (send (Some expected) resp s).1 <> Err OutOfFuel.

Lemma unbound_rejected m (s : docT) : (forall b, length (sha256 b) = 32) -> (Z.of_nat (String.length expected) < 2 ^ 31)%Z -> ~ binds m ->
  exists h, bound_sync cfg sha256 completion expected m s = (Ok (BindCheckFailed h), s).
Proof.
  intros Hsha Hexp Hb. unfold bound_sync, binds in *. cbv zeta. set (served := computeServedFrontier _ _ _) in *.
  assert (Hlen : forall l, (Z.of_nat (length (LoadQuorum.charCodes (hex_of sha256 l))) < 2 ^ 31)%Z).
  { intros l. rewrite charCodes_length. unfold hex_of. rewrite TipsHash.tipsHashToHex_length. unfold TipsHash.tipsHash. rewrite Hsha. done. }
  destruct (LoadQuorum.constantTimeHexEquals expected (hex_of sha256 served)) eqn:E1; [|by eexists].
  apply LoadQuorum.constantTimeHexEquals_iff in E1; [|by rewrite charCodes_length|done]. cbn [negb].
  destruct (tips m) as [l|]; [|by eexists].
  destruct (LoadQuorum.constantTimeHexEquals (hex_of sha256 served) (hex_of sha256 l)) eqn:E2; [|by eexists].
  apply LoadQuorum.constantTimeHexEquals_iff in E2; [|done..]. destruct Hb. split; [done|]. exists l. split; [done|congruence].
Qed.

Lemma off_quorum_clean resp s : (forall b, length (sha256 b) = 32) -> (Z.of_nat (String.length expected) < 2 ^ 31)%Z -> off_quorum resp s ->
  exists a, catch (send (Some expected) resp) (fun _ => ret (Served false)) s = (Ok a, s) /\ a <> Served true.
Proof.
  intros Hsha Hexp [Hc Hf]. unfold catch. destruct (send_carried (Some expected) resp s) as [(H1 & H2 & _)|(m & Hm & _ & _ & E)].
  - destruct (send (Some expected) resp s) as [[a|[e|]] s']; cbn in *; subst; [|by eexists|done]. exists a. split; [done|congruence].
  - destruct (unbound_rejected m s Hsha Hexp (Hc m Hm)) as [h Eh]. rewrite E, Eh. by eexists.
Qed.

(** What the honest peer does from the document as it is: its document response loads, and
    its snapshot response, when the loader asks for one, loads or is refused. *)
Definition serves (peer : string) (s : docT) : Prop :=
  (exists s', send (Some expected) (docResponse net peer) s = (Ok (Served true), s')) /\
  (enabled (compactionConfig cfg) = true ->
     (exists s', send (Some expected) (snapshotResponse net peer) s = (Ok (Served true), s')) \/
     exists r, send (Some expected) (snapshotResponse net peer) s = (r, s) /\ (r = Ok (Served false) \/ exists e, r = Err (Throw e))).

Lemma try_off_quorum peer (s : docT) failures : (forall b, length (sha256 b) = 32) -> (Z.of_nat (String.length expected) < 2 ^ 31)%Z ->
  off_quorum (docResponse net peer) s -> off_quorum (snapshotResponse net peer) s ->
  exists fs, try_peer cfg sha256 completion net (Some expected) failures peer s = (Ok (None, fs), s).
Proof.
  intros Hsha Hexp Hd Hs. unfold try_peer. destruct (off_quorum_clean _ _ Hsha Hexp Hs) as (a & Ea & Ha). unfold send in Ea.
  destruct (off_quorum_clean _ _ Hsha Hexp Hd) as (d & Ed & Hd'). unfold send in Ed.
  assert (Hdoc : exists fs, (let! viaDoc := catch (sendLoadRequestAndSync cfg sha256 completion (docResponse net peer) (Some expected)) (fun _ => ret (Served false)) in
      match viaDoc with
      | Served true => ret (Some true, failures)
      | BindCheckFailed hex => ret (None, map_set (peerIdOf peer) hex failures)
      | Served false => ret (None, failures)
      end) s = (Ok (None, fs), s)) by (rewrite (bind_ok _ _ _ _ _ Ed); destruct d as [[]|]; [done|by eexists..]).
  destruct (enabled _); [rewrite (bind_ok _ _ _ _ _ Ea)|rewrite (bind_ok _ _ s (Served false) s) by done; done].
  destruct a as [[]|h]; [done|done|by eexists].
Qed.

Lemma try_serving peer (s : docT) failures : serves peer s ->
  exists s', try_peer cfg sha256 completion net (Some expected) failures peer s = (Ok (Some true, failures), s') /\
    (s' = (send (Some expected) (docResponse net peer) s).2 \/ s' = (send (Some expected) (snapshotResponse net peer) s).2).
Proof.
  intros [[s1 Hd] Hs]. unfold try_peer. unfold send in *.
  assert (Hdoc : (let! viaDoc := catch (sendLoadRequestAndSync cfg sha256 completion (docResponse net peer) (Some expected)) (fun _ => ret (Served false)) in
      match viaDoc with
      | Served true => ret (Some true, failures)
      | BindCheckFailed hex => ret (None, map_set (peerIdOf peer) hex failures)
      | Served false => ret (None, failures)
      end) s = (Ok (Some true, failures), s1)) by (unfold bind, catch; by rewrite Hd).
  destruct (enabled _); [|exists s1; rewrite Hd; split; [|by left]; by rewrite (bind_ok _ _ s (Served false) s)].
  destruct (Hs eq_refl) as [[s2 E]|(r & E & Hr)].
  - exists s2. rewrite E. split; [|by right]. unfold bind, catch. by rewrite E.
  - exists s1. rewrite Hd. split; [|by left]. rewrite (bind_ok _ _ s (Served false) s); [done|]. unfold catch. rewrite E.
    by destruct Hr as [->|[e ->]].
Qed.

(** C18. Bad peers cannot keep a document away: when every peer of the agreeing cohort that is
    tried before the honest one fails to present the agreed frontier, whether it
    refuses, breaks off, sends garbage, answers for another document or serves and
    attests another frontier, each of these attempts leaves the document exactly as it was,
    and the load ends with what the honest peer's response makes of it; what comes after it
    in the order does not matter. *)
Theorem load_with_honest_peer before honest after (s : docT) :
  (forall b, length (sha256 b) = 32) -> (Z.of_nat (String.length expected) < 2 ^ 31)%Z ->
  (forall p, p ∈ before -> off_quorum (docResponse net p) s /\ off_quorum (snapshotResponse net p) s) -> serves honest s ->
  exists s', load_from cfg sha256 completion net (Some expected) (before ++ honest :: after) s = (Ok (LoadReturned true), s') /\
    (s' = (sendLoadRequestAndSync cfg sha256 completion (docResponse net honest) (Some expected) s).2 \/
     s' = (sendLoadRequestAndSync cfg sha256 completion (snapshotResponse net honest) (Some expected) s).2).
Proof.
  intros Hsha Hexp Hbad Hserve. unfold load_from.
  enough (Htry : forall fs, exists fs' s', try_peers cfg sha256 completion net (Some expected) fs (before ++ honest :: after) s = (Ok (true, fs'), s') /\
    (s' = (send (Some expected) (docResponse net honest) s).2 \/ s' = (send (Some expected) (snapshotResponse net honest) s).2)).
  { destruct (Htry []) as (fs' & s' & E & Hs). rewrite (bind_ok _ _ _ _ _ E). by exists s'. }
  induction before as [|p before IH]; intros fs; cbn [app try_peers].
  - destruct (try_serving honest s fs Hserve) as (s' & E & Hs). rewrite (bind_ok _ _ _ _ _ E). by exists fs, s'.
  - destruct (Hbad p) as [Hd Hs]; [by left|]. destruct (try_off_quorum p s fs Hsha Hexp Hd Hs) as [fs1 E].
    rewrite (bind_ok _ _ _ _ _ E). cbn [fst snd]. apply IH. intros q Hq. apply Hbad. by right.
Qed.
End Bound.

End Load.
End LoadingTheory.
