(* ===== verification/DocExamples.v ===== *)
(** * A concrete document

    Small providers that obey the laws the document's theorems assume: a grow-only
    set of numbers as the CRDT, lists of numbers as access-control lists, a
    keychain of one-byte keys, and a serializer. On them the theorems about
    documents and loading are applied to concrete runs, and runs of the code are
    evaluated that do not do what the comments around them say. *)
From stdpp Require Import base numbers list list_numbers strings countable.
From Stdlib Require Import ZArith QArith Lia.
From S2P Require Import Prelude TipsHash LoadQuorum QuorumOrchestrator Utils Wire ChangeTree Auth.
From S2P Require Import WriterCache Document Pruning DocumentTheory Transactions Replication Loading LoadingTheory.

Open Scope string_scope.
Open Scope list_scope.
Open Scope nat_scope.

Module DocExamples.
Import ChangeTree Document DocumentTheory Transactions Replication Loading LoadingTheory.
#[local] Existing Instance Wire.latin1.

(** ** Providers *)

(** Merging adds what is missing. *)
Definition join (a b : list nat) : list nat := a ++ list_difference b a.

#[local] Instance set_crdt : CRDTProvider (list nat) (list nat) nat := {
  newDocument := [];
  localChange d _ n := Ok (join d [n], [n]);
  localMutated d _ _ := d;
  remoteChange d c := Ok (join d c);
  getSnapshot := Some (fun d => Ok d);
  applySnapshot := Some (fun d c => Ok (join d c));
}.

#[local] Instance list_acl : ACLProvider (list nat) (list nat) nat := {
  acl_initialize := [];
  acl_add a k := Ok (join a [k], [k]);
  acl_remove a k := Ok (List.filter (fun x => negb (x =? k)) a, []);
  acl_merge a c := Ok (join a c);
  acl_check a k := Ok (bool_decide (k ∈ a));
  acl_users a := Ok a;
}.

Definition nat_byte (n : nat) : byte := byte_of_Z (Z.of_nat n).
Definition byte_nat (b : byte) : nat := Z.to_nat (byte_to_Z b).

(** The key with number [n] is the byte [n], which is its own ID. *)
#[local] Instance byte_keychain : KeychainProvider (list byte) (list nat) byte := {
  kc_initialize := [];
  keyIDLength := 1;
  kc_add d kc := Ok (kc ++ [nat_byte d], ([nat_byte d], nat_byte d, [d]));
  kc_history kc := map byte_nat kc;
  kc_merge kc c := Ok (kc ++ list_difference (map nat_byte c) kc);
  kc_keys kc := Ok (map (fun k => ([k], k)) kc);
  kc_current kc := match list.last kc with Some k => Ok ([k], Some k) | None => Ok ([], None) end;
  kc_getKey kc id := Ok (list_find (fun k => [k] = id) kc ≫= fun x => Some x.2);
  kc_currentKeyChange kc := match list.last kc with Some k => Ok [byte_nat k] | None => throw "empty" end;
  kc_addEpochKey kc id k := Ok (kc ++ [k], [byte_nat k]);
  kc_historySince := None;
}.

#[local] Instance byte_keychain_laws : KeychainLaws (Keychain := list byte) (ChangesType := list nat).
Proof.
  split; intros kc id k; simpl; destruct (list.last kc) as [k'|] eqn:E; intros [= <- <-]; [done|].
  apply last_Some_elem_of in E. destruct (list_find _ kc) as [[i x]|] eqn:F; simpl.
  - apply list_find_Some in F as (_ & [= ->] & _). done.
  - apply list_find_None in F. rewrite Forall_forall in F. by destruct (F k' (proj1 (list_elem_of_In _ _) E)).
Qed.

(** The ciphertext is the key followed by the plaintext. *)
#[local, refine] Instance byte_auth : AuthProvider byte := {
  nonceBits := 1;
  encrypt d m k := Ok (Some [nat_byte d], k :: m);
  decrypt c k n := match c with k' :: m => if bool_decide (k' = k) then Ok m else throw "OperationError" | [] => throw "OperationError" end;
}.
Proof.
  - by intros d m k n c [= <- <-].
  - intros d m k n c [= <- <-]. by rewrite bool_decide_eq_true_2.
Defined.

(** ** A serializer with an inverse

    For messages whose tree is a single node, through [Countable]. *)

Fixpoint pos_bytes (p : positive) : bytes :=
  match p with xH => [] | xO p => Init.Byte.x00 :: pos_bytes p | xI p => Init.Byte.x01 :: pos_bytes p end.

Fixpoint bytes_pos (b : bytes) : positive :=
  match b with
  | [] => xH
  | x :: b' => if bool_decide (x = Init.Byte.x00) then xO (bytes_pos b') else xI (bytes_pos b')
  end.

Lemma bytes_pos_bytes p : bytes_pos (pos_bytes p) = p.
Proof. induction p; simpl; by f_equal. Qed.

Definition flat : Type :=
  string * option string * option (list nat) * option (list nat) * option (list Z) * option (list string) * option string.

Definition to_flat (m : CRDTSyncMessage (list nat)) : option flat :=
  match m with
  | SyncMessage d id None None kc None None None None None None th ts sig =>
      Some (d, id, None, kc, fmap (M := option) (map byte_to_Z) th, ts, sig)
  | SyncMessage d id (Some (Node None DocumentNode (Some c) NoChildren)) None kc None None None None None None th ts sig =>
      Some (d, id, Some c, kc, fmap (M := option) (map byte_to_Z) th, ts, sig)
  | _ => None
  end.

Definition of_flat (f : flat) : CRDTSyncMessage (list nat) :=
  let '(d, id, c, kc, th, ts, sig) := f in
  SyncMessage d id ((fun c => Node None DocumentNode (Some c) NoChildren) <$> c) None kc None None None None None None
    (fmap (M := option) (map byte_of_Z) th) ts sig.

Lemma bytes_of_to_Z (b : bytes) : map byte_of_Z (map byte_to_Z b) = b.
Proof. induction b as [|x b IH]; simpl; [done|]. by rewrite byte_of_to_Z, IH. Qed.

Lemma of_to_flat m f : to_flat m = Some f -> of_flat f = m.
Proof.
  destruct m as [d id [[[] [] [] []]|] [] kc [] [] [] [] [] [] th ts sig]; simpl; try discriminate;
    intros [= <-]; simpl; do 2 f_equal; destruct th; simpl; try done; f_equal; apply bytes_of_to_Z.
Qed.

#[local] Instance flat_serializers : Serializers (list nat) := {
  serializeChanges c := if forallb (fun n => n <? 256) c then Ok (map nat_byte c) else throw "RangeError";
  deserializeChanges b := Ok (map byte_nat b);
  serializeSyncMessage m := match to_flat m with Some f => Ok (pos_bytes (encode f)) | None => throw "unsupported" end;
  deserializeSyncMessage b := match decode (bytes_pos b) with Some f => Ok (of_flat f) | None => throw "malformed" end;
}.

#[local] Instance flat_serializer_laws : SerializerLaws (ChangesType := list nat).
Proof.
  split.
  - simpl. intros c b. destruct (forallb _ c) eqn:Hf; [|done]. intros [= <-]. f_equal.
    induction c as [|n c IH]; simpl in *; [done|]. apply andb_true_iff in Hf as [Hn Hf].
    rewrite IH by done. f_equal. unfold byte_nat, nat_byte. rewrite byte_to_of_Z.
    apply Nat.ltb_lt in Hn. rewrite Z.mod_small by lia. lia.
  - intros m b. simpl. destruct (to_flat m) as [f|] eqn:E; [|done]. intros [= <-].
    rewrite bytes_pos_bytes, decode_encode. by rewrite (of_to_flat _ _ E).
Qed.

(** ** A configuration *)

Definition no_compaction : CompactionConfig := Compaction false 0 0 false false 0.

(** The CID of a block is its nonce, as a letter. *)
Definition cid_of (block : bytes) : string :=
  match block with
  | _ :: n :: _ => String.String (Ascii.ascii_of_nat (97 + byte_nat n)) ""
  | _ => ""
  end.

(** User 1 signs with a byte 1; a signature verifies under the key it names. *)
Definition demo_config (signing : bool) (comp : CompactionConfig) (publish : bytes -> result unit)
    (remote : string -> result bytes) : @config nat nat :=
  mk_config "/d" 1 signing comp (fun _ _ => Ok [nat_byte 1]) (fun _ k sig => Ok (bool_decide (sig = [nat_byte k])))
    (@rev _) (fun d => Z.of_nat d) (fun b => Ok (cid_of b)) (fun c => Ok c) remote publish
    (fun _ => Ok tt) (fun _ => Ok tt) (fun l => default 0 (list.last l)).

Definition publish_ok (_ : bytes) : result unit := Ok tt.
Definition publish_fails (_ : bytes) : result unit := throw "no peers".
Definition no_remote (_ : string) : result bytes := throw "not found".

Abbreviation demo_doc := (@doc (list nat) (list nat) nat nat (list nat) (list byte) unit).

Definition signed_cfg : @config nat nat := demo_config true no_compaction publish_ok no_remote.

(** A document with writer 1 and one key. *)
Definition empty_doc : demo_doc :=
  new_doc tt [] <| _writers := [1] |> <| _readers := [1] |> <| _keychain := [nat_byte 7] |>.

(** After one change. *)
Definition one_change : demo_doc := (change signed_cfg 5 "" empty_doc).2.

Example one_change_document : (change signed_cfg 5 "" empty_doc).1 = Ok tt /\ _document one_change = [5].
Proof. by vm_compute. Qed.

(** ** Blocks, messages and snapshots *)

Lemma block_roundtrip_witness :
  putBlock signed_cfg [5] empty_doc = (Ok "a", (putBlock signed_cfg [5] empty_doc).2) /\
  getBlock signed_cfg "a" (putBlock signed_cfg [5] empty_doc).2 = (Ok [5], (putBlock signed_cfg [5] empty_doc).2).
Proof. split; [reflexivity|]. apply (block_roundtrip signed_cfg [5] empty_doc "a"). reflexivity. Defined.

(** Signed by user 2, who is not a writer. *)
Definition forged : CRDTSyncMessage (list nat) :=
  empty_message "/d" <| changeId := Some "x" |> <| changes := Some (Node None DocumentNode (Some [9]) NoChildren) |>
    <| signature := Some (Wire.fromUint8Array [nat_byte 2]) |>.

Lemma rev_settles {A} (l : list A) : rev l ≡ₚ l.
Proof. symmetry. apply Permutation_rev. Qed.

Definition snapshot_a : CRDTSnapshotNode (list nat) := Snapshot [1; 2] "a" 2 [nat_byte 1] 0.
Definition snapshot_b : CRDTSnapshotNode (list nat) := Snapshot [1; 3] "b" 2 [nat_byte 1] 0.

Lemma snapshot_adoption_max_witness :
  exists s' x, for_each (fun _ y => adoptSnapshot signed_cfg y) tt [snapshot_b; snapshot_a] empty_doc = (Ok tt, s') /\
    _latestSnapshot s' = Some x /\ x ∈ held empty_doc ++ [snapshot_b; snapshot_a] /\
    forall y, y ∈ held empty_doc ++ [snapshot_b; snapshot_a] -> ~ key_lt x y.
Proof.
  apply (snapshot_adoption_max signed_cfg [snapshot_b; snapshot_a] empty_doc); [|done].
  repeat apply List.Forall_cons; [..|apply List.Forall_nil];
    (split; [right; eexists _, _, _; split_and!; reflexivity|intros d; eexists; reflexivity]).
Defined.

(** ** A transaction whose message cannot be published *)

Definition offline_cfg : @config nat nat := demo_config true no_compaction publish_fails no_remote.

Definition in_transaction : demo_doc :=
  (addChange 6 (startChange empty_doc).2).2.

Definition rolled_back : demo_doc := (endChange offline_cfg "" in_transaction).2.

Lemma endChange_atomic_witness :
  endChange offline_cfg "" in_transaction = (throw "no peers", rolled_back) /\
  rolled_back = aborted in_transaction rolled_back (_document in_transaction).
Proof.
  assert (E : endChange offline_cfg "" in_transaction = (throw "no peers", rolled_back)) by (vm_compute; reflexivity).
  split; [exact E|]. apply (endChange_atomic offline_cfg "" in_transaction "no peers"); [..|exact E|done].
  - split; apply (bool_decide_unpack _); vm_compute; exact I.
  - reflexivity.
  - reflexivity.
  - discriminate.
Defined.

(** A provider that works in place, like that of Yjs: the same transaction leaves its change
    in the document. *)
Definition in_place_crdt : CRDTProvider (list nat) (list nat) nat := {|
  newDocument := [];
  localChange d _ n := Ok (join d [n], [n]);
  localMutated d _ n := join d [n];
  remoteChange d c := Ok (join d c);
  getSnapshot := Some (fun d => Ok d);
  applySnapshot := Some (fun d c => Ok (join d c));
|}.

Example in_place_not_restored :
  let r := endChange (CRDTProvider0 := in_place_crdt) offline_cfg "" in_transaction in
  r.1 = throw "no peers" /\ _document in_transaction = [] /\ _document r.2 = [6] /\ _hashes r.2 = [].
Proof. by vm_compute. Qed.

(** ** Receiving the change *)

Definition received : CRDTSyncMessage (list nat) := default (empty_message "") (_lastSyncMessage one_change).
Definition received_tree : CRDTChangeNode (list nat) :=
  default (Node None DocumentNode None NoChildren) (changes received).

Lemma sync_exactly_once_witness :
  exists new : list (string * list nat),
    NoDup new.*1 /\
    replay_changes (_document empty_doc) new.*2 = Ok (_document (syncDocumentChanges signed_cfg (@rev _) (Some "a") received_tree empty_doc).2) /\
    _hashes empty_doc ⊆ _hashes (syncDocumentChanges signed_cfg (@rev _) (Some "a") received_tree empty_doc).2 /\
    forall h x, (h, x) ∈ new -> h ∉ _hashes empty_doc /\
      h ∈ _hashes (syncDocumentChanges signed_cfg (@rev _) (Some "a") received_tree empty_doc).2 /\
      exists n, occ (Some "a") received_tree (Some h) n /\ node_kind n = DocumentNode /\
        (node_change n = Some x \/ node_change n = None).
Proof.
  apply (sync_exactly_once signed_cfg (@rev _) (fun l => rev_settles l) (Some "a") received_tree empty_doc (Ok tt)).
  vm_compute. reflexivity.
Defined.

Lemma sync_complete_witness :
  "a" ∈ _hashes (syncDocumentChanges signed_cfg (@rev _) (Some "a") received_tree empty_doc).2.
Proof.
  apply (sync_complete signed_cfg (@rev _) (fun l => rev_settles l) "a" received_tree empty_doc _ "a" received_tree).
  - vm_compute. reflexivity.
  - apply inline_check. vm_compute. repeat constructor. by intros.
  - apply live_root. reflexivity.
  - eexists. reflexivity.
Defined.

Lemma sync_known_noop_witness :
  exists s', syncDocumentChanges signed_cfg (@rev _) (Some "a") received_tree one_change = (Ok tt, s') /\
    _document s' = _document one_change /\ _hashes s' = _hashes one_change /\
    _recentTips s' = _recentTips one_change /\ _events s' = _events one_change /\
    _documentChangeCount s' = _documentChangeCount one_change.
Proof.
  apply (sync_known_noop signed_cfg (@rev _) "a" received_tree one_change).
  - apply (bool_decide_unpack _). vm_compute. exact I.
  - discriminate.
  - reflexivity.
  - reflexivity.
Defined.

(** ** Serving and loading *)

Definition demo_sha (b : bytes) : bytes := replicate 32 (nat_byte (length b)).

Lemma demo_sha_length b : length (demo_sha b) = 32.
Proof. apply length_replicate. Qed.

Definition request : CRDTLoadRequest := LoadRequest "/d" (Wire.fromUint8Array [nat_byte 1]).

Definition frame_of (r : result (option bytes) * demo_doc) : bytes :=
  match r.1 with Ok (Some b) => b | _ => [] end.
Definition vote_bytes : bytes := frame_of (handleTipAdvertiseRequestData signed_cfg demo_sha request one_change).
Definition load_bytes : bytes := frame_of (handleLoadRequestData signed_cfg request one_change).

Lemma requests_authorized_witness : entitled signed_cfg request one_change.
Proof.
  apply (requests_authorized signed_cfg demo_sha request one_change). left.
  eexists load_bytes, _. vm_compute. reflexivity.
Defined.

(** A newcomer: it has the key, and knows no writer and no change. *)
Definition newcomer : demo_doc := new_doc tt [] <| _keychain := [nat_byte 7] |>.

Lemma one_change_plain : plain_last signed_cfg one_change.
Proof.
  assert (E : _lastSyncMessage one_change = Some received) by (vm_compute; reflexivity).
  intros m Hm. rewrite E in Hm. apply (inj Some) in Hm as <-. split; vm_compute; reflexivity.
Qed.

Lemma one_change_key : shares_key one_change newcomer.
Proof.
  assert (E : kc_current (_keychain one_change) = Ok ([nat_byte 7], Some (nat_byte 7))) by (vm_compute; reflexivity).
  intros id key Hk. rewrite E in Hk. by injection Hk as <- <-.
Qed.

Lemma honest_peer_binds_witness :
  probeTipAdvertise signed_cfg (Ok [Ok (Some (Utils.Uint8Array vote_bytes))]) newcomer
    = LoadQuorum.TipHash (TipsHash.tipsHash demo_sha (servedFrontier one_change)) /\
  exists raw m, open_frame load_bytes newcomer = Ok (Some raw) /\ deserializeSyncMessage raw = Ok m /\
    documentId m = documentPath signed_cfg /\ preload_signed signed_cfg m newcomer = Ok true /\
    let served := hex_of demo_sha (computeServedFrontier (changeId m) (changes m) (lastChangeNodeCID <$> snapshot_ m)) in
    LoadQuorum.constantTimeHexEquals
      (TipsHash.tipsHashToHex (TipsHash.tipsHash demo_sha (servedFrontier one_change))) served = true /\
    exists advertised, tips m = Some advertised /\
      LoadQuorum.constantTimeHexEquals served (hex_of demo_sha advertised) = true.
Proof.
  eapply (honest_peer_binds signed_cfg demo_sha one_change newcomer request demo_sha_length).
  - exact one_change_plain.
  - exact one_change_key.
  - reflexivity.
  - vm_compute. reflexivity.
  - vm_compute. reflexivity.
  - change (keyIDLength + nonceBits) with 2. split; apply Nat.leb_le; vm_compute; reflexivity.
  - change (keyIDLength + nonceBits) with 2. apply Nat.leb_le; vm_compute; reflexivity.
  - change keyIDLength with 1. lia.
Defined.

(** The newcomer fetches blocks from the server. *)
Definition newcomer_cfg : @config nat nat :=
  demo_config true no_compaction publish_ok (fun c => or_throw "not found" (map_get c (_blocks one_change))).
Definition served_message : CRDTSyncMessage (list nat) :=
  load_message signed_cfg one_change [7] <| signature := Some (Wire.fromUint8Array [nat_byte 1]) |>.
Definition agreed : string := hex_of demo_sha (servedFrontier one_change).

Definition loaded : demo_doc := (bound_sync newcomer_cfg demo_sha (@rev _) agreed served_message newcomer).2.

Lemma bound_load_sound_witness :
  bound_sync newcomer_cfg demo_sha (@rev _) agreed served_message newcomer = (Ok (Served true), loaded) /\
  (agreed = hex_of demo_sha (computeServedFrontier (changeId served_message) (changes served_message)
              (lastChangeNodeCID <$> snapshot_ served_message)) /\
   (exists l, tips served_message = Some l /\ hex_of demo_sha l = agreed) /\
   (forall c, c ∈ collectAllCidsInTree (changeId served_message) (changes served_message) -> c ∈ _hashes loaded) /\
   forall tree c n, changes served_message = Some tree -> coherent (changeId served_message) tree ->
     occ (changeId served_message) tree (Some c) n -> c ∈ _hashes loaded).
Proof.
  split; [vm_compute; reflexivity|].
  apply (bound_load_sound newcomer_cfg demo_sha (@rev _) agreed served_message newcomer (Served true));
    [apply demo_sha_length|vm_compute; reflexivity..].
Defined.

(** One peer refuses, one sends garbage, and one serves the tree under our key but attests
    another frontier; the last is honest. *)
Definition liar_raw : bytes :=
  match serializeSyncMessage (served_message <| tips := Some ["a"; "x"] |>) with Ok b => b | Err _ => [] end.
Definition liar_bytes : bytes := [nat_byte 7; nat_byte 3; nat_byte 7] ++ liar_raw.

Definition answer (p : string) : result Utils.stream :=
  if String.eqb p "/p2p/b" then Ok [Ok (Some (Utils.Uint8Array load_bytes))]
  else if String.eqb p "/p2p/c" then Ok [Ok (Some (Utils.Uint8Array [nat_byte 9; nat_byte 9; nat_byte 9; nat_byte 9]))]
  else if String.eqb p "/p2p/d" then Ok [Ok (Some (Utils.Uint8Array liar_bytes))]
  else throw "refused".

Definition four_peers : network :=
  Network ["/p2p/a"; "/p2p/b"; "/p2p/c"; "/p2p/d"] (fun _ => 0%Q) (fun _ => throw "refused") (fun _ => false)
    (fun _ => throw "refused") answer None (fun _ => Ok []).

(** The message that a response carries, computed. *)
Definition carried (resp : result Utils.stream) (s : demo_doc) : result (option (CRDTSyncMessage (list nat))) :=
  let? source := resp in
  let? b := Utils.readUint8Iterable None source in
  let? raw := open_frame b s in
  match raw with Some raw => let? m := deserializeSyncMessage raw in Ok (Some m) | None => Ok None end.

Lemma carries_carried resp s m : carries resp s m -> carried resp s = Ok (Some m).
Proof. intros (source & b & raw & -> & Hb & Ho & Hd). unfold carried. simpl. rewrite Hb. simpl. rewrite Ho. simpl. simpl in Hd. by rewrite Hd. Qed.

Example liar_carries : carried (answer "/p2p/d") newcomer = Ok (Some (served_message <| tips := Some ["a"; "x"] |>)).
Proof. by vm_compute. Qed.

Lemma bad_peers p : p ∈ ["/p2p/a"; "/p2p/c"; "/p2p/d"] ->
  off_quorum newcomer_cfg demo_sha (@rev _) agreed (answer p) newcomer.
Proof.
  intros Hp. repeat (apply elem_of_cons in Hp as [-> |Hp]); [..|by apply elem_of_nil in Hp];
    (split; [intros m Hm%carries_carried|vm_compute; discriminate]).
  - vm_compute in Hm. discriminate.
  - vm_compute in Hm. discriminate.
  - rewrite liar_carries in Hm. injection Hm as <-. intros [_ (l & [= <-] & H)]. vm_compute in H. discriminate.
Qed.

Lemma load_with_honest_peer_witness :
  exists s', load_from newcomer_cfg demo_sha (@rev _) four_peers (Some agreed)
      (["/p2p/a"; "/p2p/c"; "/p2p/d"] ++ "/p2p/b" :: []) newcomer = (Ok (LoadReturned true), s') /\
    (s' = (sendLoadRequestAndSync newcomer_cfg demo_sha (@rev _) (docResponse four_peers "/p2p/b") (Some agreed) newcomer).2 \/
     s' = (sendLoadRequestAndSync newcomer_cfg demo_sha (@rev _) (snapshotResponse four_peers "/p2p/b") (Some agreed) newcomer).2).
Proof.
  apply (load_with_honest_peer newcomer_cfg demo_sha (@rev _) four_peers agreed ["/p2p/a"; "/p2p/c"; "/p2p/d"] "/p2p/b" [] newcomer).
  - apply demo_sha_length.
  - vm_compute. reflexivity.
  - intros p Hp. split; [by apply bad_peers|]. split; [|discriminate]. by intros m (source & b & raw & [=] & _).
  - split; [|discriminate]. eexists. vm_compute. reflexivity.
Defined.

(** A forged message, as it is gossiped and as it is served. *)
Definition forged_raw : bytes := match serializeSyncMessage forged with Ok b => b | Err _ => [] end.
Definition forged_bytes : bytes := [nat_byte 7; nat_byte 3; nat_byte 7] ++ forged_raw.

Lemma network_authorized_witness :
  ((exists m, deserializeSyncMessage forged_raw = Ok m /\ signed_by_writer signed_cfg m empty_doc) \/
   (pubsubHandler signed_cfg demo_sha (@rev _) four_peers forged_bytes None empty_doc).2 = empty_doc /\
   (pubsubHandler signed_cfg demo_sha (@rev _) four_peers forged_bytes None empty_doc).1 <> Ok true) /\
  ((exists m, carries (Ok [Ok (Some (Utils.Uint8Array forged_bytes))]) empty_doc m /\ signed_by_writer signed_cfg m empty_doc) \/
   (sendLoadRequestAndSync signed_cfg demo_sha (@rev _) (Ok [Ok (Some (Utils.Uint8Array forged_bytes))]) None empty_doc).2 = empty_doc /\
   (sendLoadRequestAndSync signed_cfg demo_sha (@rev _) (Ok [Ok (Some (Utils.Uint8Array forged_bytes))]) None empty_doc).1 <> Ok (Served true)).
Proof.
  destruct (network_authorized signed_cfg demo_sha (@rev _) four_peers empty_doc 1 []) as [Hp Hl];
    [reflexivity|intros l; apply rev_settles|reflexivity|].
  split; [|apply Hl]. apply (Hp forged_bytes None forged_raw). vm_compute. reflexivity.
Defined.

End DocExamples.
