(* ===== verification/DocRuns.v ===== *)
(** * Runs of documents

    Concrete runs of several peers on the providers of [DocExamples], evaluated.
    They show where the document's behaviour differs from what the comments in
    [packages/collabswarm/src/collabswarm-document.ts] promise. *)
From stdpp Require Import base numbers list list_numbers strings.
From Stdlib Require Import ZArith Lia.
From S2P Require Import Prelude TipsHash Utils Wire ChangeTree Auth Document Loading LoadingTheory DocExamples.

Open Scope string_scope.
Open Scope list_scope.
Open Scope nat_scope.

Module DocRuns.
Import ChangeTree Document Loading LoadingTheory DocExamples.
#[local] Existing Instance Wire.latin1.
#[local] Existing Instances set_crdt list_acl byte_keychain byte_auth.

(** The runs hand messages over directly, so their bytes do not matter. *)
#[local] Instance opaque_serializers : Serializers (list nat) := {
  serializeChanges c := if forallb (fun n => n <? 256) c then Ok (map nat_byte c) else throw "RangeError";
  deserializeChanges b := Ok (map byte_nat b);
  serializeSyncMessage _ := Ok [];
  deserializeSyncMessage _ := throw "unsupported";
}.

(** Snapshots after every third change, that keep the last [keep] nodes. *)
Definition compacting (keep : Z) : CompactionConfig := Compaction true 3 3 true true keep.

Definition peer_cfg (comp : CompactionConfig) (blocks : list (string * bytes)) : @config nat nat :=
  demo_config true comp publish_ok (fun c => or_throw "not found" (map_get c blocks)).

Definition run {A} (m : eff demo_doc A) (s : demo_doc) : demo_doc := (m s).2.
Definition ok {A} (m : eff demo_doc A) (s : demo_doc) : bool := match (m s).1 with Ok _ => true | Err _ => false end.

(** The message a load handler answers with. *)
Definition answer (cfg : @config nat nat) (s : demo_doc) : CRDTSyncMessage (list nat) :=
  load_message cfg s [7] <| signature := Some (Wire.fromUint8Array [nat_byte 1]) |>.

Definition agreed_by (s : demo_doc) : string := hex_of demo_sha (servedFrontier s).

(** ** A first load from a peer that has compacted *)

Definition founder : demo_doc := empty_doc.
Definition changes_of (cfg : @config nat nat) (l : list nat) : eff demo_doc unit :=
  for_each (fun _ n => change cfg n "") tt l.

Definition compacted : demo_doc := run (changes_of (peer_cfg (compacting 1) []) [10; 11; 12]) founder.
Definition first_load : result attempt * demo_doc :=
  bound_sync (peer_cfg (compacting 1) (_blocks compacted)) demo_sha (fun l => l) (agreed_by compacted)
    (answer (peer_cfg (compacting 1) []) compacted) newcomer.

(** A quorum-bound first load from an honest peer that has compacted reports
    success and leaves out every pruned change: the snapshot is dropped because no
    writer is known yet, and the blocks the receiver is said to rebuild the state
    from are no longer in the served tree. *)
Theorem first_load_loses_pruned_history :
  _document compacted = [10; 11; 12] /\
  first_load.1 = Ok (Served true) /\ _document first_load.2 = [12] /\ _latestSnapshot first_load.2 = None.
Proof. vm_compute. repeat split. Qed.

(** ** A later load from a peer that has compacted *)

(** A member that has the first change and was offline for the next five. *)
Definition keep_two : CompactionConfig := compacting 2.
Definition at_first : demo_doc := run (changes_of (peer_cfg keep_two []) [10]) founder.
Definition at_sixth : demo_doc := run (changes_of (peer_cfg keep_two []) [11; 12; 13; 14; 15]) at_first.
Definition reload : result attempt * demo_doc :=
  bound_sync (peer_cfg keep_two (_blocks at_sixth)) demo_sha (fun l => l) (agreed_by at_sixth)
    (answer (peer_cfg keep_two []) at_sixth) (at_first <| _draws := 100 |>).

(** A member that missed the changes before a compaction cannot load them from an
    honest peer: adopting the snapshot marks the tree's root as known, so the merge
    stops there, and the completeness check then reports the rest of the tree as
    missing and the peer as failed, although the document is up to date. *)
Theorem reload_after_compaction_rejected :
  reload.1 = Ok (BindCheckFailed "(missing-blocks)") /\ _document reload.2 = _document at_sixth.
Proof. vm_compute. repeat split. Qed.

(** ** Pruning an access-control change *)

Definition plain : @config nat nat := peer_cfg no_compaction [].
Definition with_writer : demo_doc := run (changes_of plain [10; 11]) (run (addWriter plain 2) founder).
Definition writer_cid : string := "a".

Definition tree_of (s : demo_doc) : CRDTChangeNode (list nat) :=
  default (Node None DocumentNode None NoChildren) (_lastSyncMessage s ≫= changes).
Definition pruned_tree : CRDTChangeNode (list nat) :=
  match pruneTree 1 (tree_of with_writer) with Ok (t, _) => t | Err _ => tree_of with_writer end.

(** The changes that the nodes with a given CID carry. *)
Definition payloads (cid : string) (t : CRDTChangeNode (list nat)) : list (option (list nat)) :=
  omap (fun p => if bool_decide (p.1 = Some cid) then Some (node_change p.2) else None) (occurrences None t).

(** Pruning keeps the CID of an access-control change and loses its content as soon
    as a later node of the pruned part links to it: the link, which has no content,
    replaces the node. *)
Theorem compaction_drops_acl_payload :
  payloads writer_cid (tree_of with_writer) = [Some [2]; None] /\ payloads writer_cid pruned_tree = [None].
Proof. vm_compute. split; reflexivity. Qed.

(** ** A served tree that shrinks *)

(** Alice makes six changes; Bob, who has made one of his own, receives them and makes
    another; Alice receives that one. *)
Definition alice6 : demo_doc := run (changes_of plain [1; 2; 3; 4; 5; 6]) founder.
Definition bob1 : demo_doc := run (changes_of plain [20]) (founder <| _draws := 50 |>).
Definition bob2 : demo_doc :=
  run (changes_of plain [21]) (run (sync plain (fun l => l) (answer plain alice6) false) bob1).
Definition alice7 : demo_doc := run (sync plain (fun l => l) (answer plain bob2) false) alice6.
Definition late : result bool * demo_doc :=
  sync (peer_cfg no_compaction (_blocks alice7 ++ _blocks bob2)) (fun l => l) (answer plain alice7) false newcomer.

(** Receiving a change can make a peer serve less: when its own last change is only
    linked in the received tree, it adopts that tree, which does not contain the
    ancestors of its change, so a peer that loads from it misses them. *)
Theorem refresh_shrinks_served_history :
  _document alice6 = [1; 2; 3; 4; 5; 6] /\
  _document alice7 = [1; 2; 3; 4; 5; 6; 21; 20] /\
  late.1 = Ok true /\ _document late.2 = [21; 20; 6; 5; 4].
Proof. vm_compute. repeat split. Qed.

End DocRuns.
