(* ===== verification/Group.v ===== *)
(** * Readers, welcomes and key rotation

    Models the BeeKEM members of
    [packages/collabswarm/src/collabswarm-document.ts]: the KEM key pair,
    [addReader] with the registration of a leaf and the sealed welcome,
    the evaluation of a received welcome with the buffer for early ones,
    [removeReader] with its path update, [removeWriter] with its key update, and
    the handlers that receive both. Also [kem-key-pair.ts], [derive-doc-key.ts]
    and [welcome-sealed-payload.ts].

    The document is that of [Document] with the fields below as its group; the
    tree is that of [BeeKem], the welcome's gates are those of [Welcome]. A call
    of a [BeeKEM] method that throws keeps what it assigned, as the object is
    shared. JSON text as bytes and HKDF are the classes [JsonBytes] and [Kdf]. *)
From stdpp Require Import base numbers list list_numbers strings.
From Stdlib Require Import ZArith Lia.
From S2P Require Import Prelude TipsHash Ecies BeeKem Utils Wire Welcome ChangeTree Auth.
From S2P Require Import WriterCache Document Loading.

Open Scope string_scope.
Open Scope list_scope.
Open Scope nat_scope.

Module Group.
Import ChangeTree Document.

(** ** Bytes *)

(** [constantTimeEqual] and [_constantTimeEquals] *)
Definition constantTimeEquals (a b : bytes) : bool :=
  if negb (length a =? length b) then false
  else (foldl (fun diff p => js_or diff (js_xor (byte_to_Z p.1) (byte_to_Z p.2))) 0%Z (zip a b) =? 0)%Z.

(** [_hexEncode] *)
Definition hexEncode (b : bytes) : string :=
  foldl (fun s x => s ++ TipsHash.padStart2 (TipsHash.toString16 (byte_to_Z x)))%string "" b.

(** ** The payload of a welcome *)

Section Payload.
  Context `{!Wire.Base64, !Wire.JsonBytes}.

Record WelcomeSealedPayload := SealedPayload {
  wp_keychainChanges : bytes;
  wp_beekemWelcome : option BeeKem.BeeKEMWelcome;
}.

Definition encodeWelcomeSealedPayload (p : WelcomeSealedPayload) : bytes :=
  Wire.json_bytes (Wire.JObj
    [("k", Wire.JStr (Wire.fromUint8Array (wp_keychainChanges p)));
     ("bk", match wp_beekemWelcome p with
            | None => Wire.JNull
            | Some w => Wire.serializeBeeKEMWelcomeForWire w
            end)]).

Definition decodeWelcomeSealedPayload (b : bytes) : result WelcomeSealedPayload :=
  let? parsed := Wire.json_of_bytes b in
  let? raw := Wire.plain_object "welcome-sealed-payload: expected a plain object envelope" parsed in
  match Wire.jget "k" raw with
  | Wire.JStr k =>
      let? keychainChanges := or_throw "welcome-sealed-payload: invalid base64 for field 'k'" (Wire.toUint8Array k) in
      match Wire.jget "bk" raw with
      | Wire.JUndefined | Wire.JNull => Ok (SealedPayload keychainChanges None)
      | bk => let? w := Wire.deserializeBeeKEMWelcomeFromWire bk in Ok (SealedPayload keychainChanges (Some w))
      end
  | _ => throw "welcome-sealed-payload: 'k' (keychain bytes) must be a base64 string"
  end.
End Payload.

(** ** Keys from the root secret *)

(** HKDF-SHA-256 with an empty salt, as a key and as bits. *)
Class Kdf (DocumentKey : Type) := {
  hkdf_key : bytes -> bytes -> DocumentKey;
  hkdf_bits : bytes -> bytes -> bytes;
}.

Definition DOC_KEY_INFO : string := "collabswarm-doc-key-v1".

Section Derive.
  Context {DocumentKey : Type} `{!Kdf DocumentKey}.

Definition deriveDocumentKeyFromRootSecret (rootSecret : bytes) : result DocumentKey :=
  if negb (length rootSecret =? 32) then throw "deriveDocumentKeyFromRootSecret: rootSecret must be 32 bytes"
  else Ok (hkdf_key rootSecret (TipsHash.utf8_encode DOC_KEY_INFO)).

Definition deriveEpochIdFromRootSecret (rootSecret : bytes) : result bytes :=
  if negb (length rootSecret =? 32) then throw "deriveEpochIdFromRootSecret: rootSecret must be 32 bytes"
  else Ok (hkdf_bits rootSecret (TipsHash.utf8_encode (DOC_KEY_INFO ++ "/epoch-id")%string)).
End Derive.

(** ** The KEM key pair *)

(** [CryptoKeyPair] as far as [validateAndExportKemKeyPair] looks at it. *)
Record CryptoKeyPair (PubKey PrivKey : Type) := KeyPair {
  kp_public : PubKey;
  kp_private : PrivKey;
  publicAlgorithm : option string * option string;   (** [name], [namedCurve] *)
  privateAlgorithm : option string * option string;
  privateUsages : list string;
  exportRaw : result bytes;
}.
Arguments KeyPair {_ _} _ _ _ _ _ _.
Arguments kp_public {_ _} _.
Arguments kp_private {_ _} _.
Arguments publicAlgorithm {_ _} _.
Arguments privateAlgorithm {_ _} _.
Arguments privateUsages {_ _} _.
Arguments exportRaw {_ _} _.

Definition validateAndExportKemKeyPair {PubKey PrivKey} (kp : CryptoKeyPair PubKey PrivKey) : result bytes :=
  if negb (bool_decide ((publicAlgorithm kp).1 = Some "ECDH") && bool_decide ((privateAlgorithm kp).1 = Some "ECDH"))
  then throw "setKemKeyPair: key pair must be ECDH"
  else if negb (bool_decide ((publicAlgorithm kp).2 = Some "P-256") && bool_decide ((privateAlgorithm kp).2 = Some "P-256"))
  then throw "setKemKeyPair: key pair must use curve P-256"
  else if negb (bool_decide ("deriveBits" ∈ privateUsages kp))
  then throw "setKemKeyPair: private key usages must include 'deriveBits'"
  else match exportRaw kp with
       | Err (Throw _) => throw "setKemKeyPair: failed to export public key as raw bytes"
       | r => r
       end.

Definition PENDING_WELCOMES_MAX_ENTRIES : nat := 16.
Definition PENDING_WELCOMES_TTL_MS : Z := 5 * 60 * 1000.
Definition MAX_DOCUMENT_PATH_LENGTH : nat := 4096.

(** [wire-protocols.ts] *)
Definition beekemWelcomeV1 : string := "/collabswarm/beekem-welcome/1.0.0".
Definition beekemPathUpdateV1 : string := "/collabswarm/beekem-pathupdate/1.0.0".
Definition documentKeyUpdateV2 : string := "/collabswarm/key-update/2.0.0".

(** ** State *)

Section Group.
  Context {DocType ChangesType ChangeFnType PublicKey DocumentKey ACL Keychain : Type}.
  Context {PubKey PrivKey Rand : Type} `{Box : SealedBox PubKey PrivKey Rand}
    `{Keys : !BeeKem.TreeKeys PubKey PrivKey Rand}.

(** The BeeKEM fields of [CollabswarmDocument]. [_beekemInitPromise] is always
    [null] between calls. *)
Record group := mk_group {
  _kemKeyPair : option (CryptoKeyPair PubKey PrivKey);
  _kemPublicKeyRaw : option bytes;
  _beekem : option (@BeeKem.BeeKEM PubKey PrivKey);
  _beekemInitialized : bool;
  _readerLeafIndices : list (string * Z);
  _readerKemPublicKeys : list (string * bytes);
  _beekemWelcomeByLeaf : list (Z * BeeKem.BeeKEMWelcome);
}.

#[export] Instance settable_group : Settable group :=
  fun g => mk_group (_kemKeyPair g) (_kemPublicKeyRaw g) (_beekem g) (_beekemInitialized g)
    (_readerLeafIndices g) (_readerKemPublicKeys g) (_beekemWelcomeByLeaf g).

Definition new_group : group := mk_group None None None false [] [] [].

  Context `{!CRDTProvider DocType ChangesType ChangeFnType, !ACLProvider ACL ChangesType PublicKey,
    !KeychainProvider Keychain ChangesType DocumentKey, !Serializers ChangesType,
    !AuthProvider DocumentKey, !Wire.Base64, !Wire.JsonBytes, !Kdf DocumentKey}.

  Abbreviation docT := (@doc DocType ChangesType ChangeFnType PublicKey ACL Keychain group).
  Abbreviation method := (eff docT).
  Abbreviation message := (CRDTSyncMessage ChangesType).

(** The part of the swarm these methods use: the optional method of the
    [AuthProvider], the connections, and whether a stream to a peer takes the
    payload. *)
Record swarm := Swarm {
  serializePublicKeyImpl : option (PublicKey -> result string);
  connections : list string;
  dial : string -> string -> result unit;
}.

  Context (cfg : @config ChangeFnType PublicKey) (sw : swarm).

Definition set_group (f : group -> group) : method unit := modify (fun s => s <| _group := f (_group s) |>).

(** A method call on the object [_beekem]. *)
Definition on_beekem {A} (m : eff (@BeeKem.BeeKEM PubKey PrivKey) A) : method A :=
  let! s := get in
  match _beekem (_group s) with
  | None => lift (throw "BeeKEM tree is not initialized")
  | Some b =>
      let r := m b in
      let! _ := set_group (fun g => g <| _beekem := Some r.2 |>) in
      lift r.1
  end.

(** [requireSerializePublicKey(this._authProvider, _)] *)
Definition requireSerializePublicKey : result (PublicKey -> result string) :=
  or_throw "requires AuthProvider.serializePublicKey" (serializePublicKeyImpl sw).

Definition setKemKeyPair (keyPair : option (CryptoKeyPair PubKey PrivKey)) : method unit :=
  match keyPair with
  | None => set_group (fun g => g <| _kemKeyPair := None |> <| _kemPublicKeyRaw := None |>)
  | Some kp =>
      let! rawPublic := lift (validateAndExportKemKeyPair kp) in
      set_group (fun g => g <| _kemKeyPair := Some kp |> <| _kemPublicKeyRaw := Some rawPublic |>)
  end.

(** [_verifyWelcomeWriterSignature]: also when signing is disabled. *)
Definition verifyWelcomeWriterSignature (s : docT) (raw : bytes) (sig : string) : result bool :=
  let? keys := acl_users (_writers s) in
  WriterCache.verifyWelcomeWriterSignature (verify cfg) (settle cfg) keys raw sig.

(** ** Sending to every connection *)

(** A peer that cannot be reached is logged and skipped. *)
Definition send_all (protocol : string) (payload : bytes) : method unit :=
  for_each (fun _ peer =>
    catch (let! _ := lift (dial sw protocol peer) in emit (Sent protocol peer payload))
          (fun _ => ret tt)) tt (connections sw).

(** The frame with the document's path in front. *)
Definition frame_path (body : bytes) : result bytes :=
  Utils.framePathPrefixed MAX_DOCUMENT_PATH_LENGTH (documentPath cfg) body.

(** ** Adding a reader *)

(** [_initializeBeeKEMAsFounder] *)
Definition initializeBeeKEMAsFounder : method unit :=
  let! s := get in
  match _beekem (_group s) with
  | Some _ => ret tt
  | None =>
      match _kemKeyPair (_group s) with
      | None => lift (throw "BeeKEM founder initialization requires a KEM key pair installed via setKemKeyPair.")
      | Some kp =>
          let! seed := draw in
          let b := (BeeKem.initialize (kp_private kp) (kp_public kp) (BeeKem.newBeeKEM seed)).2 in
          set_group (fun g => g <| _beekem := Some b |> <| _beekemInitialized := true |>)
      end
  end.

Definition registerBeeKEMReader (reader : PublicKey) (readerKemPublicKey : bytes) : method (option BeeKem.BeeKEMWelcome) :=
  if negb (length readerKemPublicKey =? Ecies.ECIES_P256_PUBLIC_KEY_LENGTH)
  then lift (throw "_registerBeeKEMReader: readerKemPublicKey must be 65 bytes")
  else
    let! serializePublicKey := lift requireSerializePublicKey in
    let! serializedReader := lift (serializePublicKey reader) in
    let! _ := set_group (fun g => g <| _readerKemPublicKeys :=
                map_set serializedReader readerKemPublicKey (_readerKemPublicKeys g) |>) in
    let! s := get in
    match map_get serializedReader (_readerLeafIndices (_group s)) with
    | Some existingLeaf => ret (map_get existingLeaf (_beekemWelcomeByLeaf (_group s)))
    | None =>
        let! _ :=
          if negb (_beekemInitialized (_group s)) then
            if 1 <? length (_hashes s)
            then lift (throw "_registerBeeKEMReader: cannot initialize a fresh founder BeeKEM tree")
            else initializeBeeKEMAsFounder
          else ret tt in
        let! s := get in
        match _beekem (_group s) with
        | None => lift (throw "BeeKEM tree is not initialized; cannot register a new reader.")
        | Some _ =>
            let! memberPublicKey := lift (or_throw "importKey failed" (BeeKem.import_pub readerKemPublicKey)) in
            let! result := on_beekem (BeeKem.addMember memberPublicKey) in
            let welcome := result.1.2 in
            let! _ := set_group (fun g =>
              g <| _readerLeafIndices := map_set serializedReader (BeeKem.leafIndex welcome) (_readerLeafIndices g) |>
                <| _beekemWelcomeByLeaf := map_set (BeeKem.leafIndex welcome) welcome (_beekemWelcomeByLeaf g) |>) in
            ret (Some welcome)
        end
    end.

(** [importEciesPublicKey] on the key the welcome is sealed to. *)
Definition import_kem (raw : bytes) : result PubKey :=
  if negb (length raw =? Ecies.ECIES_P256_PUBLIC_KEY_LENGTH)
  then throw "importEciesPublicKey: raw key must be 65 bytes"
  else or_throw "importKey failed" (BeeKem.import_pub raw).

(** The signed message of [_sendBeeKEMWelcome]. *)
Definition buildWelcomeMessage (reader : PublicKey) (readerKemPublicKey : bytes)
    (beekemWelcome : option BeeKem.BeeKEMWelcome) : method message :=
  let! s := get in
  let! cur := lift (kc_current (_keychain s)) in
  let! serializePublicKey := lift requireSerializePublicKey in
  let! recipient := lift (serializePublicKey reader) in
  let! keychainPlaintext := lift (Loading.keychainChangesForWelcome s) in
  let! keychainPlaintextBytes := lift (serializeChanges keychainPlaintext) in
  let sealedPayloadBytes := encodeWelcomeSealedPayload (SealedPayload keychainPlaintextBytes beekemWelcome) in
  let! recipientKemKey := lift (import_kem readerKemPublicKey) in
  let! d := draw in
  let m := empty_message (documentPath cfg) <| welcomeEpochId := Some cur.1 |>
             <| welcomeRecipient := Some recipient |>
             <| welcomeRecipientKemPublicKey := Some readerKemPublicKey |>
             <| eciesSealed := Some (seal (BeeKem.seal_rand d) sealedPayloadBytes recipientKemKey) |> in
  let! sig := signAsWriterUnconditional cfg m in
  ret (m <| signature := Some sig |>).

Definition sendBeeKEMWelcome (reader : PublicKey) (readerKemPublicKey : bytes)
    (beekemWelcome : option BeeKem.BeeKEMWelcome) : method unit :=
  if negb (length readerKemPublicKey =? Ecies.ECIES_P256_PUBLIC_KEY_LENGTH)
  then lift (throw "BeeKEM Welcome: readerKemPublicKey must be 65 raw SEC1 bytes")
  else
    let! m := buildWelcomeMessage reader readerKemPublicKey beekemWelcome in
    let! serialized := lift (serializeSyncMessage m) in
    let! payload := lift (frame_path serialized) in
    send_all beekemWelcomeV1 payload.

Definition addReader (reader : PublicKey) (readerKemPublicKey : option bytes) : method unit :=
  let! _ := ensureCurrentUserCanWrite cfg in
  let! s := get in
  if negb (_beekemInitialized (_group s)) && bool_decide (_kemKeyPair (_group s) = None)
  then lift (throw "addReader: cannot seed the BeeKEM ratchet tree")
  else if match readerKemPublicKey with
          | Some k => negb (length k =? Ecies.ECIES_P256_PUBLIC_KEY_LENGTH)
          | None => false
          end
  then lift (throw "addReader: readerKemPublicKey must be 65 bytes")
  else if negb (_beekemInitialized (_group s)) && (0 <? length (_hashes s))
  then lift (throw "addReader: cannot register a reader")
  else
    let! alreadyReader := lift (acl_check (_readers s) reader) in
    let! _ :=
      if alreadyReader then ret tt
      else
        let! r := lift (acl_add (_readers s) reader) in
        let! _ := modify (fun s => s <| _readers := r.1 |>) in
        makeChange cfg r.2 ReaderNode in
    match readerKemPublicKey with
    | None => ret tt
    | Some kem =>
        let! welcome := registerBeeKEMReader reader kem in
        catch (sendBeeKEMWelcome reader kem welcome) (fun _ => ret tt)
    end.

(** ** Receiving a welcome *)

(** The fields the gates read, with the message itself as the rest. *)
Definition to_welcome (m : message) : Welcome.CRDTSyncMessage :=
  Welcome.SyncMessage (documentId m) (welcomeEpochId m) (welcomeRecipient m)
    (welcomeRecipientKemPublicKey m) (eciesSealed m) (signature m) m.

Definition of_welcome (w : @Welcome.CRDTSyncMessage message) : message :=
  Welcome.rest w <| signature := Welcome.signature w |>.

Definition evaluate (m : message) (s : docT) : result Welcome.WelcomeValidationResult :=
  let? serializePublicKey := requireSerializePublicKey in
  Welcome.evaluateBeeKEMWelcome (documentPath cfg) (userPublicKey cfg) serializePublicKey
    (acl_check (_readers s)) (verifyWelcomeWriterSignature s)
    (fun w => serializeSyncMessage (of_welcome w)) (to_welcome m).

(** [_bufferPendingWelcome]: the oldest entry makes room. *)
Definition bufferPendingWelcome (m : message) : method unit :=
  match welcomeEpochId m with
  | Some ((_ :: _) as epochId) =>
      let key := hexEncode epochId in
      let! _ := modify (fun s => s <| _pendingWelcomes := map_delete key (_pendingWelcomes s) |>) in
      let! _ := modify (fun s =>
        if PENDING_WELCOMES_MAX_ENTRIES <=? length (_pendingWelcomes s)
        then match _pendingWelcomes s with
             | (oldestKey, _) :: _ => s <| _pendingWelcomes := map_delete oldestKey (_pendingWelcomes s) |>
             | [] => s
             end
        else s) in
      let! d := draw in
      modify (fun s => s <| _pendingWelcomes := map_set key (m, now cfg d) (_pendingWelcomes s) |>)
  | _ => ret tt
  end.

(** [allKeys.findIndex(([id]) => sameBytes(id, x))] *)
Definition key_position (allKeys : list (bytes * DocumentKey)) (x : bytes) : option nat :=
  fst <$> list_find (fun k => k.1 = x) allKeys.

(** [_shouldAdvanceInvitationEpoch] *)
Definition shouldAdvanceInvitationEpoch (existing incoming : bytes) (s : docT) : result bool :=
  if bool_decide (existing = incoming) then Ok false
  else match kc_keys (_keychain s) with
       | Err (Throw _) => Ok false
       | Err OutOfFuel => Err OutOfFuel
       | Ok allKeys =>
           match key_position allKeys existing, key_position allKeys incoming with
           | Some existingIdx, Some incomingIdx => Ok (existingIdx <? incomingIdx)
           | _, _ => Ok false
           end
       end.

(** Opening the sealed payload; any error ends in [None]. *)
Definition openWelcome (m : message) (kp : CryptoKeyPair PubKey PrivKey)
    : result (option (ChangesType * option BeeKem.BeeKEMWelcome)) :=
  match (let? plaintextBytes := open_box (default [] (eciesSealed m)) (kp_private kp) in
         let? envelope := decodeWelcomeSealedPayload plaintextBytes in
         let? keychainPlaintext := deserializeChanges (wp_keychainChanges envelope) in
         Ok (keychainPlaintext, wp_beekemWelcome envelope)) with
  | Ok x => Ok (Some x)
  | Err (Throw _) => Ok None
  | Err OutOfFuel => Err OutOfFuel
  end.

(** The tree of a joiner; when [processWelcome] throws, the old one stays. *)
Definition bootstrapTree (w : BeeKem.BeeKEMWelcome) (kp : CryptoKeyPair PubKey PrivKey) : method unit :=
  let! seed := draw in
  let r := BeeKem.processWelcome w (kp_private kp) (kp_public kp) (BeeKem.newBeeKEM seed) in
  match r.1 with
  | Ok _ => set_group (fun g => g <| _beekem := Some r.2 |> <| _beekemInitialized := true |>)
  | Err (Throw _) => ret tt
  | Err OutOfFuel => lift (Err OutOfFuel)
  end.

Definition recordInvitationEpoch (newEpochId : bytes) : method unit :=
  let! s := get in
  match _invitationEpoch s with
  | None => modify (fun s => s <| _invitationEpoch := Some newEpochId |>)
  | Some existing =>
      let! advanced := lift (shouldAdvanceInvitationEpoch existing newEpochId s) in
      when advanced (modify (fun s => s <| _invitationEpoch := Some newEpochId |>))
  end.

(** What [_evaluateAndApplyBeeKEMWelcome] does with an accepted message. *)
Definition applyWelcome (m : message) : method bool :=
  let! s := get in
  match _kemKeyPair (_group s), _kemPublicKeyRaw (_group s) with
  | Some kp, Some localKemPublicRaw =>
      let matches := match welcomeRecipientKemPublicKey m with
                     | Some k => (length k =? length localKemPublicRaw) && constantTimeEquals k localKemPublicRaw
                     | None => false
                     end in
      if negb matches then ret false
      else
        let! opened := lift (openWelcome m kp) in
        match opened with
        | None => ret false
        | Some (keychainPlaintext, bootstrapWelcome) =>
            match kc_merge (_keychain s) keychainPlaintext with
            | Err (Throw _) => ret false
            | Err OutOfFuel => lift (Err OutOfFuel)
            | Ok keychain =>
                let! _ := modify (fun s => s <| _keychain := keychain |>) in
                let! _ := match bootstrapWelcome with
                          | Some w => bootstrapTree w kp
                          | None => ret tt
                          end in
                let! _ := recordInvitationEpoch (default [] (welcomeEpochId m)) in
                ret true
            end
        end
  | _, _ => ret false
  end.

Definition evaluateAndApplyBeeKEMWelcome (m : message) (fromBuffer : bool) : method bool :=
  let! s := get in
  let! decision := lift (evaluate m s) in
  match decision with
  | Welcome.Accept => applyWelcome m
  | Welcome.DropUnauthorized Welcome.NotInReadersAcl =>
      let! _ := when (negb fromBuffer) (bufferPendingWelcome m) in ret false
  | _ => ret false
  end.

Definition handleBeeKEMWelcomeRequestData (payload : bytes) : method unit :=
  catch (let! m := lift (deserializeSyncMessage payload) in
         let! _ := evaluateAndApplyBeeKEMWelcome m false in ret tt)
        (fun _ => ret tt).

(** [_drainPendingWelcomes], on the entries present when it starts. *)
Definition drain_entry (now_ : Z) (e : string * (message * Z)) : method unit :=
  let '(key, (m, bufferedAtMs)) := e in
  if (PENDING_WELCOMES_TTL_MS <? now_ - bufferedAtMs)%Z
  then modify (fun s => s <| _pendingWelcomes := map_delete key (_pendingWelcomes s) |>)
  else
    let! accepted := evaluateAndApplyBeeKEMWelcome m true in
    when accepted (modify (fun s => s <| _pendingWelcomes := map_delete key (_pendingWelcomes s) |>)).

Definition drainPendingWelcomes : method unit :=
  let! s := get in
  if length (_pendingWelcomes s) =? 0 then ret tt
  else
    let! d := draw in
    for_each (fun _ e => drain_entry (now cfg d) e) tt (_pendingWelcomes s).

(** ** Removing a reader *)

(** [_distributeBeeKEMPathUpdate] *)
Definition distributeBeeKEMPathUpdate (pu : BeeKem.PathUpdate) (epochId : bytes) : method unit :=
  let m := empty_message (documentPath cfg) <| pathUpdate := Some (Wire.serializePathUpdateForWire pu) |>
             <| pathUpdateEpochId := Some epochId |> in
  let! sig := signAsWriterUnconditional cfg m in
  let! serialized := lift (serializeSyncMessage (m <| signature := Some sig |>)) in
  let! payload := lift (frame_path serialized) in
  send_all beekemPathUpdateV1 payload.

(** The reader's leaf: as recorded, or found by its KEM key. *)
Definition leafOfReader (serializedReader : string) : method Z :=
  let! s := get in
  match map_get serializedReader (_readerLeafIndices (_group s)) with
  | Some leaf => ret leaf
  | None =>
      match map_get serializedReader (_readerKemPublicKeys (_group s)) with
      | None => lift (throw "Cannot remove reader: no BeeKEM leaf recorded for this reader")
      | Some kemPub =>
          match _beekem (_group s) ≫= fun b => BeeKem.findLeafByPublicKey b kemPub with
          | None => lift (throw "Cannot remove reader: the BeeKEM tree has no matching non-blanked leaf")
          | Some leaf =>
              let! _ := set_group (fun g => g <| _readerLeafIndices :=
                          map_set serializedReader leaf (_readerLeafIndices g) |>) in
              ret leaf
          end
      end
  end.

Definition removeReader (reader : PublicKey) : method unit :=
  let! _ := ensureCurrentUserCanWrite cfg in
  let! s := get in
  let! present := lift (acl_check (_readers s) reader) in
  if negb present then ret tt
  else
    let! serializePublicKey := lift requireSerializePublicKey in
    let! serializedReader := lift (serializePublicKey reader) in
    let! s := get in
    if negb (_beekemInitialized (_group s)) || bool_decide (_beekem (_group s) = None)
    then lift (throw "Cannot remove reader: BeeKEM tree has not been initialized")
    else
      let! leafIndex := leafOfReader serializedReader in
      let! removed := on_beekem (BeeKem.removeMember leafIndex) in
      let '(pu, rootSecret) := removed in
      let! newKey := lift (deriveDocumentKeyFromRootSecret rootSecret) in
      let! derivedEpochId32 := lift (deriveEpochIdFromRootSecret rootSecret) in
      let! _ := catch
        (let! s := get in
         let! r := lift (acl_remove (_readers s) reader) in
         let! _ := modify (fun s => s <| _readers := r.1 |>) in
         makeChange cfg r.2 ReaderNode)
        (fun _ => ret tt) in
      let! _ := set_group (fun g =>
        g <| _readerLeafIndices := map_delete serializedReader (_readerLeafIndices g) |>
          <| _readerKemPublicKeys := map_delete serializedReader (_readerKemPublicKeys g) |>
          <| _beekemWelcomeByLeaf := map_delete leafIndex (_beekemWelcomeByLeaf g) |>) in
      let! _ := catch (distributeBeeKEMPathUpdate pu derivedEpochId32) (fun _ => ret tt) in
      let! s := get in
      let! kc := lift (kc_addEpochKey (_keychain s) derivedEpochId32 newKey) in
      modify (fun s => s <| _keychain := kc.1 |>).

(** [handleBeeKEMPathUpdateRequestData] on a message, up to its checks. *)
Definition pathUpdateGate (m : message) (s : docT) : result (option (BeeKem.PathUpdate * bytes)) :=
  if negb (String.eqb (documentId m) "") && negb (String.eqb (documentId m) (documentPath cfg)) then Ok None
  else
    match truthy (signature m) with
    | None => Ok None
    | Some sig =>
        let? raw := serializeSyncMessage (m <| signature := None |>) in
        let? valid := verifyWelcomeWriterSignature s raw sig in
        if negb valid then Ok None
        else
          match pathUpdate m, pathUpdateEpochId m with
          | Some wire, Some epochId =>
              match Wire.deserializePathUpdateFromWire wire with
              | Ok pu => Ok (Some (pu, epochId))
              | Err (Throw _) => Ok None
              | Err OutOfFuel => Err OutOfFuel
              end
          | _, _ => Ok None
          end
    end.

Definition applyPathUpdate (pu : BeeKem.PathUpdate) (senderEpochId32 : bytes) : method unit :=
  let! s := get in
  if negb (_beekemInitialized (_group s)) || bool_decide (_beekem (_group s) = None) then ret tt
  else
    let! rootSecret := catch (let! r := on_beekem (BeeKem.processPathUpdate pu) in ret (Some r))
                             (fun _ => ret None) in
    match rootSecret with
    | None => ret tt
    | Some rootSecret =>
        let! localEpochId32 := lift (deriveEpochIdFromRootSecret rootSecret) in
        if negb (constantTimeEquals localEpochId32 senderEpochId32) then ret tt
        else
          let! newKey := lift (deriveDocumentKeyFromRootSecret rootSecret) in
          catch (let! s := get in
                 let! kc := lift (kc_addEpochKey (_keychain s) localEpochId32 newKey) in
                 modify (fun s => s <| _keychain := kc.1 |>))
                (fun _ => ret tt)
    end.

Definition handleBeeKEMPathUpdateRequestData (payload : bytes) : method unit :=
  catch (let! m := lift (deserializeSyncMessage payload) in
         let! s := get in
         let! gated := lift (pathUpdateGate m s) in
         match gated with
         | None => ret tt
         | Some (pu, epochId) => applyPathUpdate pu epochId
         end)
        (fun _ => ret tt).

(** ** Removing a writer *)

(** [_distributeKeyUpdate]: under the key that the members still have. *)
Definition distributeKeyUpdate (kcChanges : ChangesType) (previousKey : bytes * option DocumentKey) : method unit :=
  let m := empty_message (documentPath cfg) <| keychainChanges := Some kcChanges |> in
  let! sig := signAsWriter cfg m in
  let! serialized := lift (serializeSyncMessage (m <| signature := Some sig |>)) in
  match previousKey.2 with
  | None => lift (throw "TypeError")
  | Some previousDocumentKey =>
      let! d := draw in
      let! enc := lift (encrypt d serialized previousDocumentKey) in
      match enc.1 with
      | None => lift (throw "Failed to encrypt key update! Nonce cannot be empty")
      | Some nonce =>
          let! body := lift (frame previousKey.1 nonce enc.2) in
          let! payload := lift (frame_path body) in
          send_all documentKeyUpdateV2 payload
      end
  end.

Definition removeWriter (writer : PublicKey) : method unit :=
  let! _ := ensureCurrentUserCanWrite cfg in
  let! s := get in
  let! present := lift (acl_check (_writers s) writer) in
  if negb present then ret tt
  else
    let! r := lift (acl_remove (_writers s) writer) in
    let! _ := modify (fun s => s <| _writers := r.1 |>) in
    let! _ := makeChange cfg r.2 WriterNode in
    let! s := get in
    let! previousKey := lift (kc_current (_keychain s)) in
    let! d := draw in
    let! k := lift (kc_add d (_keychain s)) in
    let! _ := modify (fun s => s <| _keychain := k.1 |>) in
    distributeKeyUpdate k.2.2 previousKey.

(** [handleKeyUpdateRequestData] *)
Definition handleKeyUpdateRequestData (payload : bytes) : method unit :=
  catch
    (let '(blockKeyID, blockNonce, blockData) := unframe payload in
     let! rawContent := catch (decryptBlock blockKeyID blockNonce blockData) (fun _ => ret None) in
     match rawContent with
     | None => ret tt
     | Some raw =>
         let! m := lift (deserializeSyncMessage raw) in
         if negb (String.eqb (documentId m) "") && negb (String.eqb (documentId m) (documentPath cfg)) then ret tt
         else
           let! authorized :=
             if enableSigning cfg then
               match truthy (signature m) with
               | None => ret false
               | Some sig =>
                   let! raw := lift (serializeSyncMessage (m <| signature := None |>)) in
                   verifyWriterSignature cfg raw sig
               end
             else ret true in
           if negb authorized then ret tt
           else match keychainChanges m with
                | None => ret tt
                | Some kc =>
                    catch (let! s := get in
                           let! keychain := lift (kc_merge (_keychain s) kc) in
                           modify (fun s => s <| _keychain := keychain |>))
                          (fun _ => ret tt)
                end
     end)
    (fun _ => ret tt).

End Group.
End Group.
