(* ===== verification/GroupTheory.v ===== *)
(** * Theorems about readers and welcomes

    About [Group]: only a welcome that a writer signed for the local reader installs
    keys; the buffer of early welcomes stays small; the invitation epoch moves
    only to later keys; a founder's welcome gives the joiner the document key and the
    group's root secret; removing a reader revokes its leaf and rotates the key,
    and the other members follow; a document that was created with [open] can
    not add its first reader. *)
From stdpp Require Import base numbers list list_numbers strings sets relations.
From Stdlib Require Import ZArith Lia.
From S2P Require Import Prelude TreeMath TipsHash Ecies BeeKem BeeKemTheory Utils Wire Welcome ChangeTree Auth.
From S2P Require Import WriterCache Document DocumentTheory Loading Group.

Open Scope string_scope.
Open Scope list_scope.
Open Scope nat_scope.

Module GroupTheory.
Import ChangeTree Document DocumentTheory Loading Group.

(** The comparison without early exit is equality. *)
Lemma constantTimeEquals_iff a b : constantTimeEquals a b = true <-> a = b.
Proof.
  unfold constantTimeEquals. destruct (Nat.eqb_spec (length a) (length b)) as [El|Hne]; cbn [negb];
    [|split; [done|by intros ->]].
  rewrite Z.eqb_eq, (foldl_diff (fun p => byte_to_Z p.1) (fun p => byte_to_Z p.2)) by lia.
  split; [|intros ->; split; [done|]; clear El; induction b; simpl; by constructor].
  intros [_ HF]. revert b El HF. induction a as [|x a IH]; intros [|y b] El HF; try done.
  simpl in *. apply Forall_cons in HF as [Hxy HF]. f_equal; [|apply IH; [lia|done]].
  simpl in Hxy. pose proof (byte_to_Z_range x). pose proof (byte_to_Z_range y).
  rewrite !to_int32_small in Hxy by lia. by rewrite <- (byte_of_to_Z x), Hxy, byte_of_to_Z.
Qed.

Section Group.
  Context {DocType ChangesType ChangeFnType PublicKey DocumentKey ACL Keychain : Type}.
  Context {PubKey PrivKey Rand : Type} `{Box : SealedBox PubKey PrivKey Rand}
    `{Keys : !BeeKem.TreeKeys PubKey PrivKey Rand}.
  Context `{!CRDTProvider DocType ChangesType ChangeFnType, !ACLProvider ACL ChangesType PublicKey,
    !KeychainProvider Keychain ChangesType DocumentKey, !Serializers ChangesType,
    !AuthProvider DocumentKey, !Wire.Base64, !Wire.JsonBytes, !Kdf DocumentKey}.

  Abbreviation docT := (@doc DocType ChangesType ChangeFnType PublicKey ACL Keychain (@group PubKey PrivKey)).
  Abbreviation message := (CRDTSyncMessage ChangesType).
  Context (cfg : @config ChangeFnType PublicKey) (sw : @swarm PublicKey).

(** ** What a method leaves alone

    [same f]: the method does not change [f]. *)
Definition same {A} (f : docT -> A) (s s' : docT) : Prop := f s' = f s.

#[local] Instance same_preorder {A} (f : docT -> A) : PreOrder (same f).
Proof. split; [done|]. intros a b c. unfold same. congruence. Qed.

(** The fields that authoring a change does not touch. *)
Definition side (s : docT) :=
  (_readers s, _writers s, _keychain s, _invitationEpoch s, _pendingWelcomes s, _group s).

(** And the known hashes, which only the first step of [_makeChange] touches. *)
Definition inner (s : docT) := (side s, _hashes s).

Lemma inner_side {A} (m : eff docT A) : steps (same inner) m -> steps (same side) m.
Proof. intros Hm s. by pose proof (f_equal fst (Hm s)). Qed.

Ltac side := apply steps_modify; let x := fresh in intros x; destruct x; reflexivity.

Lemma draw_side : steps (same inner) draw.
Proof. unfold draw. steps_tac; side. Qed.
Lemma emit_side e : steps (same inner) (emit e).
Proof. unfold emit. side. Qed.
#[local] Hint Resolve draw_side emit_side : steps.

Lemma read_side {A} (f : docT -> result A) : steps (same inner) (fun s => (f s, s)).
Proof. by intros s. Qed.

Lemma putBlock_side c : steps (same inner) (putBlock cfg c).
Proof. unfold putBlock. steps_tac; side. Qed.
Lemma encrypt_side b : steps (same inner) (encrypt_current b).
Proof. unfold encrypt_current. steps_tac. Qed.
Lemma sign_uncond_side m : steps (same inner) (signAsWriterUnconditional cfg m).
Proof. unfold signAsWriterUnconditional. steps_tac. Qed.
Lemma fire_side hs l : steps (same inner) (fireUpdateHandlers hs l).
Proof. unfold fireUpdateHandlers, getReaders, getWriters. steps_tac; apply read_side. Qed.
Lemma ensure_side : steps (same inner) (ensureCurrentUserCanWrite cfg).
Proof. unfold ensureCurrentUserCanWrite. steps_tac. Qed.
Lemma gcBlock_side c : steps (same inner) (gcBlock cfg c).
Proof. unfold gcBlock. steps_tac; side. Qed.
Lemma pruneChanges_side k : steps (same inner) (pruneChanges k).
Proof. unfold pruneChanges. steps_tac; side. Qed.
#[local] Hint Resolve putBlock_side encrypt_side sign_uncond_side fire_side ensure_side gcBlock_side
  pruneChanges_side : steps.

Lemma sign_side m : steps (same inner) (signAsWriter cfg m).
Proof. unfold signAsWriter. steps_tac. Qed.
Lemma local_fire_side l : steps (same inner) (fireLocalUpdateHandlers l).
Proof. unfold fireLocalUpdateHandlers. steps_tac. Qed.
Lemma gc_side l : steps (same inner) (gcPrunedBlocks cfg l).
Proof. unfold gcPrunedBlocks. steps_tac. Qed.
#[local] Hint Resolve sign_side local_fire_side gc_side : steps.

Lemma compact_side c : steps (same inner) (compactAfterSnapshot cfg c).
Proof. unfold compactAfterSnapshot. steps_tac. Qed.
#[local] Hint Resolve compact_side : steps.

Lemma snapshot_side : steps (same inner) (snapshot cfg).
Proof. unfold snapshot. steps_tac; side. Qed.
#[local] Hint Resolve snapshot_side : steps.

Lemma maybeCompact_side : steps (same inner) (maybeCompact cfg).
Proof. unfold maybeCompact. steps_tac; try side; by intros []. Qed.
#[local] Hint Resolve maybeCompact_side : steps.

#[local] Hint Resolve inner_side : steps.

Lemma makeChange_side c k : steps (same side) (makeChange cfg c k).
Proof. unfold makeChange. steps_tac; try side. Qed.

(** Sending changes nothing of it either. *)
Lemma send_all_side protocol payload : steps (same inner) (send_all sw protocol payload).
Proof. unfold send_all. steps_tac. Qed.
#[local] Hint Resolve makeChange_side send_all_side : steps.

Lemma path_update_sent_side pu e : steps (same inner) (distributeBeeKEMPathUpdate cfg sw pu e).
Proof. unfold distributeBeeKEMPathUpdate. steps_tac. Qed.

Lemma buildWelcomeMessage_side r k w : steps (same inner) (buildWelcomeMessage cfg sw r k w).
Proof. unfold buildWelcomeMessage. steps_tac. Qed.
#[local] Hint Resolve path_update_sent_side buildWelcomeMessage_side : steps.

Lemma sendBeeKEMWelcome_side r k w : steps (same inner) (sendBeeKEMWelcome cfg sw r k w).
Proof. unfold sendBeeKEMWelcome. steps_tac. Qed.

Lemma key_update_sent_side kc prev : steps (same inner) (distributeKeyUpdate cfg sw kc prev).
Proof. unfold distributeKeyUpdate. steps_tac. Qed.

(** ** Only a writer's welcome for the local reader installs keys *)

(** Well formed, addressed to the local user, who is a reader. *)
Definition meant_for_me (m : message) (s : docT) : Prop :=
  exists serialize, serializePublicKeyImpl sw = Some serialize /\
    Welcome.well_formed (documentPath cfg) (to_welcome m) /\
    (exists k, serialize (userPublicKey cfg) = Ok k /\ welcomeRecipient m = Some k) /\
    acl_check (_readers s) (userPublicKey cfg) = Ok true.

(** Sealed for the KEM key pair that is installed. *)
Definition kem_matches (m : message) (s : docT) : Prop :=
  exists raw, _kemPublicKeyRaw (_group s) = Some raw /\ welcomeRecipientKemPublicKey m = Some raw.

Lemma welcome_signed (s : docT) raw sig : (forall l, settle cfg l ≡ₚ l) ->
  verifyWelcomeWriterSignature cfg s raw sig = Ok true ->
  exists keys sigBytes, acl_users (_writers s) = Ok keys /\ Wire.toUint8Array sig = Some sigBytes /\
    exists k, k ∈ keys /\ verify cfg raw k sigBytes = Ok true.
Proof.
  intros Hset E. unfold verifyWelcomeWriterSignature in E. destruct (acl_users _) as [keys|]; [|done].
  unfold WriterCache.verifyWelcomeWriterSignature in E. destruct (length keys =? 0); [done|].
  destruct (Wire.toUint8Array sig) as [sb|] eqn:Hb; [|done]. apply firstTrue_true in E. rewrite (Hset _) in E.
  apply list_elem_of_In, in_map_iff in E as (k & Hv & Hin%list_elem_of_In). eauto 10.
Qed.

Lemma evaluate_accept m (s : docT) : (forall l, settle cfg l ≡ₚ l) ->
  evaluate cfg sw m s = Ok Welcome.Accept -> meant_for_me m s /\ signed_by_writer cfg m s.
Proof.
  intros Hset E. unfold evaluate in E. destruct (serializePublicKeyImpl sw) as [ser|] eqn:Hser;
    unfold requireSerializePublicKey in E; rewrite Hser in E; [|done]. simpl in E.
  apply Welcome.accept_spec in E as (Hwf & (k & Hk & Hr) & Hread & (sig & raw & Hsig & _ & Hraw & Hv)).
  split; [exists ser; eauto 10|]. destruct (welcome_signed _ _ _ Hset Hv) as (keys & sb & ? & ? & k' & ? & ?).
  exists raw, keys, sig, sb. split_and!; eauto.
Qed.

(** What a welcome can install. *)
Definition installed (s : docT) := (_keychain s, _invitationEpoch s, _group s).

Lemma draw_installed : steps (same installed) draw.
Proof. by intros []. Qed.
#[local] Hint Resolve draw_installed : steps.

Lemma buffer_installed m : steps (same installed) (bufferPendingWelcome cfg m).
Proof.
  unfold bufferPendingWelcome. steps_tac; apply steps_modify; intros x; try (destruct x; reflexivity).
  destruct (_ <=? _); [|done]. by destruct (_pendingWelcomes x) as [|[? ?] ?].
Qed.

Lemma applyWelcome_gate m (s : docT) :
  kem_matches m s \/ applyWelcome m s = (Ok false, s).
Proof.
  unfold applyWelcome. rewrite (bind_ok _ _ s s s) by done.
  destruct (_kemKeyPair (_group s)) as [kp|]; [|by right].
  destruct (_kemPublicKeyRaw (_group s)) as [raw|] eqn:Hraw; [|by right]. cbv zeta.
  destruct (welcomeRecipientKemPublicKey m) as [k|] eqn:Hk; [|by right].
  destruct (length k =? length raw); [|by right].
  destruct (constantTimeEquals k raw) eqn:Ec; [|by right]. apply constantTimeEquals_iff in Ec as ->.
  left. by exists raw.
Qed.

(** C11. Whatever message arrives, as a new welcome or from the buffer: it installs a
    key, a tree or an invitation epoch only if it is well formed, names the local
    user, who is a reader, is sealed for the installed KEM key, and a current
    writer signed all of it; also when signing is disabled. *)
Theorem welcome_installs_authorized m fromBuffer (s : docT) r s' :
  (forall l, settle cfg l ≡ₚ l) ->
  evaluateAndApplyBeeKEMWelcome cfg sw m fromBuffer s = (r, s') ->
  (installed s' = installed s /\ r <> Ok true) \/
  (meant_for_me m s /\ kem_matches m s /\ signed_by_writer cfg m s).
Proof.
  intros Hset E. unfold evaluateAndApplyBeeKEMWelcome in E. rewrite (bind_ok _ _ s s s) in E by done.
  destruct (evaluate cfg sw m s) as [d|e] eqn:Ed; [|left; by injection E as <- <-].
  rewrite (bind_ok _ _ s d s) in E by done.
  destruct d as [| | |[]]; try (left; by injection E as <- <-).
  - destruct (evaluate_accept m s Hset Ed) as [Hm Hs].
    destruct (applyWelcome_gate m s) as [Hk|Hn]; [by right|]. rewrite Hn in E. left. by injection E as <- <-.
  - left. pose proof (steps_bind (same installed) (when (negb fromBuffer) (bufferPendingWelcome cfg m))
      (fun _ => ret false) ltac:(apply steps_when; [apply _|apply buffer_installed]) ltac:(intros; apply steps_ret; apply _) s) as Hf.
    rewrite E in Hf. split; [exact Hf|]. intros ->. unfold bind in E.
    by destruct (when _ _ s) as [[]].
Qed.

(** ** The invitation epoch only moves forward *)

(** What one step does to the epoch. It stays, while the keychain stays or merges what a welcome
    brought; or it is set for the first time; or it moves on to a key that comes later in the
    keychain, as the keychain is then. *)
Inductive epoch_move (s s' : docT) : Prop :=
| epoch_stays : _invitationEpoch s' = _invitationEpoch s ->
    (_keychain s' = _keychain s \/ exists c, kc_merge (_keychain s) c = Ok (_keychain s')) -> epoch_move s s'
| epoch_first e : _invitationEpoch s = None -> _invitationEpoch s' = Some e -> _keychain s' = _keychain s -> epoch_move s s'
| epoch_later e e' keys i j : _invitationEpoch s = Some e -> _invitationEpoch s' = Some e' -> _keychain s' = _keychain s ->
    kc_keys (_keychain s) = Ok keys -> key_position keys e = Some i -> key_position keys e' = Some j -> i < j -> epoch_move s s'.

Abbreviation advances := (rtc epoch_move).

Lemma keeps_advances (s s' : docT) :
  _keychain s' = _keychain s -> _invitationEpoch s' = _invitationEpoch s -> advances s s'.
Proof. intros Ek Ee. apply rtc_once, epoch_stays; [done|by left]. Qed.

Lemma advances_set (s s' : docT) e : advances s s' -> _invitationEpoch s = Some e -> is_Some (_invitationEpoch s').
Proof.
  intros Hr. revert e. induction Hr as [|s1 s2 s3 H12 _ IH]; intros e He; [by rewrite He|].
  destruct H12 as [E _|? E|? e2 ? ? ? _ E]; [rewrite He in E|congruence|]; by eapply IH.
Qed.

Lemma record_advances e : steps advances (recordInvitationEpoch e).
Proof.
  unfold recordInvitationEpoch. apply steps_get. intros s.
  destruct (_invitationEpoch s) as [e0|] eqn:He; [|by apply rtc_once, (epoch_first _ _ e)].
  unfold bind, lift, when. destruct (shouldAdvanceInvitationEpoch e0 e s) as [[]|] eqn:Hs; simpl; [|done..].
  unfold shouldAdvanceInvitationEpoch in Hs. case_bool_decide; [done|].
  destruct (kc_keys (_keychain s)) as [keys|[]] eqn:Hk; [|done..].
  destruct (key_position keys e0) as [i|] eqn:Hi; [|done]. destruct (key_position keys e) as [j|] eqn:Hj; [|done].
  injection Hs as Hlt. apply Nat.ltb_lt in Hlt. by apply rtc_once, (epoch_later _ _ e0 e keys i j).
Qed.

Lemma bootstrap_advances w kp : steps advances (bootstrapTree w kp).
Proof.
  unfold bootstrapTree, draw, set_group. steps_tac; apply steps_modify; intros x; by apply keeps_advances.
Qed.
#[local] Hint Resolve record_advances bootstrap_advances : steps.

Lemma applyWelcome_advances m : steps advances (applyWelcome m).
Proof.
  unfold applyWelcome. apply steps_get. intros s.
  destruct (_kemKeyPair (_group s)) as [kp|]; [|done]. destruct (_kemPublicKeyRaw (_group s)) as [raw|]; [|done].
  cbv zeta. destruct (negb _); [done|]. unfold bind at 1, lift.
  destruct (openWelcome m kp) as [[[c w]|]|]; [|done..].
  destruct (kc_merge (_keychain s) c) as [kc|[]] eqn:Hkc; [|done..].
  etrans; [|assert (Hrest : steps advances (let! _ := match w with Some w => bootstrapTree w kp | None => ret tt end in
              let! _ := recordInvitationEpoch (default [] (welcomeEpochId m)) in ret true)) by steps_tac; apply Hrest].
  apply rtc_once, epoch_stays; [done|]. right. by exists c.
Qed.

Lemma buffer_advances m : steps advances (bufferPendingWelcome cfg m).
Proof.
  intros s. pose proof (buffer_installed m s) as [= Hk He Hg]. by apply keeps_advances.
Qed.
#[local] Hint Resolve applyWelcome_advances buffer_advances : steps.

Lemma evaluate_advances m b : steps advances (evaluateAndApplyBeeKEMWelcome cfg sw m b).
Proof. unfold evaluateAndApplyBeeKEMWelcome. steps_tac. Qed.
#[local] Hint Resolve evaluate_advances : steps.

(** A sequence of welcomes from the network, with drains of the buffer in between. *)
Definition receive_welcomes (arrivals : list (option bytes)) : eff docT unit :=
  for_each (fun _ a => match a with
                       | Some payload => handleBeeKEMWelcomeRequestData cfg sw payload
                       | None => drainPendingWelcomes cfg sw
                       end) tt arrivals.


(** ** The buffer of early welcomes *)

Definition pending_ok (s : docT) : Prop :=
  NoDup (_pendingWelcomes s).*1 /\ length (_pendingWelcomes s) <= PENDING_WELCOMES_MAX_ENTRIES.

Definition keeps_pending (s s' : docT) : Prop := pending_ok s -> pending_ok s'.

#[local] Instance keeps_pending_preorder : PreOrder keeps_pending.
Proof. split; [by intros s Hs|]. intros a b c K1 K2 K3. auto. Qed.

Lemma same_keeps (s s' : docT) : _pendingWelcomes s' = _pendingWelcomes s -> keeps_pending s s'.
Proof. unfold keeps_pending, pending_ok. by intros ->. Qed.

Lemma side_keeps {A} (m : eff docT A) : steps (same side) m -> steps keeps_pending m.
Proof. intros Hm s. apply same_keeps. pose proof (Hm s) as [= _ _ _ _ Hp _]. exact Hp. Qed.

Ltac pend := apply steps_modify; let x := fresh in intros x; apply same_keeps; reflexivity.

Lemma delete_keeps (key : string) : steps keeps_pending (modify (fun s : docT => s <| _pendingWelcomes := map_delete key (_pendingWelcomes s) |>)).
Proof.
  apply steps_modify. intros s [Hn Hl]. split; simpl; [by apply NoDup_map_delete|].
  pose proof (sublist_length _ _ (map_delete_sublist key (_pendingWelcomes s))). lia.
Qed.

Lemma map_set_length {V} (k : string) (v : V) m : length (map_set k v m) <= S (length m).
Proof.
  destruct (decide (k ∈ m.*1)) as [Hin|Hin].
  - rewrite <- (length_fmap fst), map_keys_set_in, length_fmap by done. lia.
  - rewrite map_set_notin by done. rewrite length_app. simpl. lia.
Qed.

(** Adding an entry, when the oldest one makes room in a full buffer. *)
Lemma evict_ok {V} (key : string) (v : V) (l : list (string * V)) max :
  1 <= max -> NoDup l.*1 -> length l <= max ->
  let l' := if max <=? length l then match l with (oldest, _) :: _ => map_delete oldest l | [] => l end else l in
  NoDup (map_set key v l').*1 /\ length (map_set key v l') <= max.
Proof.
  intros Hm Hn Hl l'. assert (Hl' : NoDup l'.*1 /\ length l' < max).
  { unfold l'. destruct (Nat.leb_spec max (length l)) as [Hge|]; [|done].
    destruct l as [|[k x] l]; [simpl in Hge; lia|]. split; [by apply NoDup_map_delete|].
    simpl. rewrite decide_True by done. pose proof (sublist_length _ _ (map_delete_sublist k l)). simpl in Hl. lia. }
  destruct Hl' as [Hn' Hlt]. split; [by apply NoDup_map_set|]. pose proof (map_set_length key v l'). lia.
Qed.

Lemma max_entries_pos : 1 <= PENDING_WELCOMES_MAX_ENTRIES.
Proof. unfold PENDING_WELCOMES_MAX_ENTRIES. lia. Qed.

Lemma buffer_keeps m : steps keeps_pending (bufferPendingWelcome cfg m).
Proof.
  unfold bufferPendingWelcome. destruct (welcomeEpochId m) as [[|b e]|]; [steps_tac| |steps_tac]. cbv zeta.
  apply steps_bind; [apply _|apply delete_keeps|intros _]. intros s [Hn Hl].
  pose proof (evict_ok (hexEncode (b :: e)) (m, now cfg (_draws s)) _ _
    max_entries_pos Hn Hl) as Hok. cbv zeta in Hok.
  destruct s as [? ? ? ? ? ? pw]. cbn [_pendingWelcomes _draws] in *.
  unfold pending_ok, bind, modify, draw, get, ret. cbn [_pendingWelcomes].
  destruct (PENDING_WELCOMES_MAX_ENTRIES <=? length pw); [|exact Hok].
  destruct pw as [|[k x] l]; exact Hok.
Qed.
#[local] Hint Resolve delete_keeps buffer_keeps : steps.

Lemma installs_keeps f : steps keeps_pending (set_group f : eff docT unit).
Proof. unfold set_group. pend. Qed.
#[local] Hint Resolve installs_keeps : steps.

Lemma draw_keeps_pending : steps keeps_pending draw.
Proof. apply side_keeps, inner_side, draw_side. Qed.
Lemma emit_keeps_pending e : steps keeps_pending (emit e).
Proof. apply side_keeps, inner_side, emit_side. Qed.
Lemma makeChange_keeps_pending c k : steps keeps_pending (makeChange cfg c k).
Proof. apply side_keeps, makeChange_side. Qed.
Lemma ensure_keeps_pending : steps keeps_pending (ensureCurrentUserCanWrite cfg).
Proof. apply side_keeps, inner_side, ensure_side. Qed.
Lemma sendWelcome_keeps_pending r k w : steps keeps_pending (sendBeeKEMWelcome cfg sw r k w).
Proof. apply side_keeps, inner_side, sendBeeKEMWelcome_side. Qed.
Lemma path_sent_keeps_pending pu e : steps keeps_pending (distributeBeeKEMPathUpdate cfg sw pu e).
Proof. apply side_keeps, inner_side, path_update_sent_side. Qed.
Lemma key_sent_keeps_pending kc prev : steps keeps_pending (distributeKeyUpdate cfg sw kc prev).
Proof. apply side_keeps, inner_side, key_update_sent_side. Qed.
#[local] Hint Resolve draw_keeps_pending emit_keeps_pending makeChange_keeps_pending ensure_keeps_pending
  sendWelcome_keeps_pending path_sent_keeps_pending key_sent_keeps_pending : steps.

Lemma on_beekem_keeps {A} (m : eff (@BeeKem.BeeKEM PubKey PrivKey) A) : steps keeps_pending (on_beekem m : eff docT A).
Proof. unfold on_beekem. steps_tac. Qed.
#[local] Hint Resolve on_beekem_keeps : steps.

Lemma apply_keeps m : steps keeps_pending (applyWelcome m).
Proof. unfold applyWelcome, bootstrapTree, recordInvitationEpoch. steps_tac; pend. Qed.
#[local] Hint Resolve apply_keeps : steps.

Lemma evaluate_keeps m b : steps keeps_pending (evaluateAndApplyBeeKEMWelcome cfg sw m b).
Proof. unfold evaluateAndApplyBeeKEMWelcome. steps_tac. Qed.
#[local] Hint Resolve evaluate_keeps : steps.

Lemma register_keeps r k : steps keeps_pending (registerBeeKEMReader sw r k).
Proof. unfold registerBeeKEMReader, initializeBeeKEMAsFounder. steps_tac. Qed.
Lemma leafOfReader_keeps r : steps keeps_pending (leafOfReader r : eff docT Z).
Proof. unfold leafOfReader. steps_tac. Qed.
Lemma verify_keeps_pending raw sig : steps keeps_pending (verifyWriterSignature cfg raw sig).
Proof. unfold verifyWriterSignature, getWriterKeys. steps_tac. Qed.
Lemma decrypt_keeps_pending i n d : steps keeps_pending (decryptBlock i n d).
Proof. unfold decryptBlock. steps_tac. Qed.
#[local] Hint Resolve register_keeps leafOfReader_keeps verify_keeps_pending decrypt_keeps_pending : steps.

(** The methods of this file, as one type. *)
Inductive group_op : Type :=
| GWelcome (payload : bytes)
| GDrain
| GSetKemKeyPair (kp : option (CryptoKeyPair PubKey PrivKey))
| GAddReader (reader : PublicKey) (kem : option bytes)
| GRemoveReader (reader : PublicKey)
| GRemoveWriter (writer : PublicKey)
| GPathUpdate (payload : bytes)
| GKeyUpdate (payload : bytes).

Definition run_group_op (o : group_op) : eff docT unit :=
  match o with
  | GWelcome payload => handleBeeKEMWelcomeRequestData cfg sw payload
  | GDrain => drainPendingWelcomes cfg sw
  | GSetKemKeyPair kp => setKemKeyPair kp
  | GAddReader reader kem => addReader cfg sw reader kem
  | GRemoveReader reader => removeReader cfg sw reader
  | GRemoveWriter writer => removeWriter cfg sw writer
  | GPathUpdate payload => handleBeeKEMPathUpdateRequestData cfg payload
  | GKeyUpdate payload => handleKeyUpdateRequestData cfg payload
  end.

Lemma run_group_op_keeps o : steps keeps_pending (run_group_op o).
Proof.
  destruct o; simpl.
  - unfold handleBeeKEMWelcomeRequestData. steps_tac.
  - unfold drainPendingWelcomes, drain_entry. steps_tac.
  - unfold setKemKeyPair. steps_tac.
  - unfold addReader. steps_tac; pend.
  - unfold removeReader. steps_tac; pend.
  - unfold removeWriter. steps_tac; pend.
  - unfold handleBeeKEMPathUpdateRequestData, applyPathUpdate. steps_tac; pend.
  - unfold handleKeyUpdateRequestData. steps_tac; pend.
Qed.

(** However many welcomes peers send before the local user is a reader, the buffer
    holds at most sixteen, one for each epoch, whatever else is called in between. *)
Theorem pending_welcomes_bounded (ops : list group_op) g blocks :
  pending_ok (foldl (fun s o => (run_group_op o s).2) (new_doc g blocks) ops).
Proof.
  assert (Hinit : pending_ok (new_doc (DocType := DocType) (ACL := ACL) (Keychain := Keychain) g blocks)).
  { split; simpl; [constructor|lia]. }
  revert Hinit. generalize (new_doc (DocType := DocType) (ACL := ACL) (Keychain := Keychain) g blocks : docT).
  induction ops as [|o ops IH]; intros s Hs; simpl; [done|]. apply IH. by apply run_group_op_keeps.
Qed.

(** ** The founder's first reader *)

Lemma makeChange_hashes c k (s : docT) s' : makeChange cfg c k s = (Ok tt, s') -> _hashes s' <> [].
Proof.
  unfold makeChange. intros E. apply bind_inv in E as (h & s1 & _ & E).
  rewrite bind_modify in E. set (s2 := addHash h s1) in *. rewrite (bind_ok _ _ s2 s2 s2) in E by done. cbv zeta in E.
  assert (Hs2 : _hashes s2 <> []).
  { intros Hn. assert (Hx : h ∈ _hashes s2) by (apply elem_of_set_add; auto). rewrite Hn in Hx.
    by apply elem_of_nil in Hx. }
  match type of E with ?m _ = _ => assert (Hm : steps (same inner) m) end.
  { steps_tac; side. }
  specialize (Hm s2). rewrite E in Hm. pose proof (f_equal snd Hm) as Hh. simpl in Hh. by rewrite Hh.
Qed.

(** A document that has changes and no tree. *)
Definition treeless (s : docT) : Prop := _beekemInitialized (_group s) = false /\ _hashes s <> [].

Definition stays_treeless (s s' : docT) : Prop := treeless s -> treeless s'.

#[local] Instance stays_treeless_preorder : PreOrder stays_treeless.
Proof. split; [by intros s Hs|]. intros a b c K1 K2 K3. auto. Qed.

Lemma inner_treeless {A} (m : eff docT A) : steps (same inner) m -> steps stays_treeless m.
Proof.
  intros Hm s [Hg Hh]. pose proof (Hm s) as [= _ _ _ _ _ Eg Eh]. split; [by rewrite Eg|by rewrite Eh].
Qed.

Lemma addHash_treeless h : steps stays_treeless (modify (addHash h)).
Proof.
  apply steps_modify. intros s [Hg Hh]. split; [done|]. intros Hn.
  assert (Hx : h ∈ _hashes (addHash h s)) by (apply elem_of_set_add; auto). rewrite Hn in Hx. by apply elem_of_nil in Hx.
Qed.

Lemma makeChange_treeless c k : steps stays_treeless (makeChange cfg c k).
Proof.
  unfold makeChange. apply steps_bind; [apply _|apply inner_treeless; eauto with steps|intros h].
  apply steps_bind; [apply _|apply addHash_treeless|intros _]. apply inner_treeless. steps_tac; side.
Qed.
#[local] Hint Resolve inner_treeless makeChange_treeless : steps.

Lemma addReader_treeless reader kem (s : docT) : treeless s ->
  exists e, addReader cfg sw reader kem s = (Err e, s).
Proof.
  intros [Hg Hh]. unfold addReader, ensureCurrentUserCanWrite, bind, get, lift, ret.
  destruct (acl_check (_writers s) (userPublicKey cfg)) as [[]|]; [|by eexists..]. cbn [negb].
  rewrite Hg. cbn [negb andb]. case_bool_decide; [by eexists|].
  destruct kem as [k|]; [destruct (negb (length k =? _)); [by eexists|]|];
    (destruct (Nat.ltb_spec 0 (length (_hashes s))) as [|Hl]; [by eexists|]; by destruct (_hashes s); simpl in Hl; [|lia]).
Qed.

Lemma removeReader_treeless reader : steps stays_treeless (removeReader cfg sw reader).
Proof.
  intros s Hs. destruct Hs as [Hg Hh]. unfold removeReader, ensureCurrentUserCanWrite, bind, get, lift, ret.
  destruct (acl_check (_writers s) (userPublicKey cfg)) as [[]|]; [|by split..]. cbn [negb].
  destruct (acl_check (_readers s) reader) as [[]|]; [|by split..]. cbn [negb].
  destruct (requireSerializePublicKey sw) as [f|]; [|by split]. destruct (f reader); [|by split].
  rewrite Hg. by split.
Qed.

(** Every method but the two that read welcomes. *)
Definition not_welcome (o : group_op) : Prop :=
  match o with GWelcome _ | GDrain => False | _ => True end.

Ltac treeless := apply steps_modify; let x := fresh in let y := fresh in intros x y; exact y.

Lemma run_treeless o : not_welcome o -> steps stays_treeless (run_group_op o).
Proof.
  destruct o; simpl; intros Ho; try done.
  - unfold setKemKeyPair, set_group. steps_tac; treeless.
  - intros s Hs. by destruct (addReader_treeless reader kem s Hs) as [e ->].
  - apply removeReader_treeless.
  - pose proof key_update_sent_side. unfold removeWriter. steps_tac; treeless.
  - unfold handleBeeKEMPathUpdateRequestData. steps_tac. intros x [Hg Hh]. unfold applyPathUpdate, bind, get.
    rewrite Hg. by split.
  - unfold handleKeyUpdateRequestData, decryptBlock, verifyWriterSignature, getWriterKeys.
    steps_tac; treeless.
Qed.

Lemma open_founds sha256 completion net validate (s : docT) s' :
  Loading.open cfg sha256 completion net validate s = (Ok (Opened false), s') -> _hashes s' <> [].
Proof.
  unfold Loading.open. intros E. apply bind_inv in E as (loaded & s1 & _ & E).
  destruct loaded as [b|q]; [|done]. rewrite (bind_ok _ _ s1 s1 s1) in E by done. cbv zeta in E.
  destruct (b || negb (length (_hashes s1) =? 0)).
  - exfalso. rewrite (bind_ok _ _ s1 tt s1), bind_modify in E by done. unfold catch in E.
    match type of E with context [match ?m ?x with _ => _ end] => destruct (m x) as [[a|[e|]] x'] eqn:Em end; [|by destruct (bind _ _ x')|done].
    injection E as -> <-. by repeat (apply bind_inv in Em as (? & ? & _ & Em)).
  - apply bind_inv in E as (? & s2 & _ & E). rewrite bind_modify in E. unfold catch in E.
    match type of E with context [match ?m ?x with _ => _ end] => destruct (m x) as [[a|[e|]] x'] eqn:Em end;
      [|exfalso; apply bind_inv in E as (? & ? & _ & ?); done|done].
    injection E as -> <-. do 3 (apply bind_inv in Em as (? & ? & _ & Em)).
    apply bind_inv in Em as ([] & s6 & Hf & [= <-]). unfold found in Hf.
    do 6 (apply bind_inv in Hf as (? & ? & _ & Hf)). by apply makeChange_hashes in Hf.
Qed.

(** The founder of a document can add no reader: [open] writes the founder's own
    writer change, and [addReader] then takes the founder for a writer that
    joined and refuses. Nothing but a welcome, which nobody can send, ends this. *)
Theorem founder_cannot_add_reader sha256 completion net validate (s s' : docT) ops reader kem :
  Loading.open cfg sha256 completion net validate s = (Ok (Opened false), s') ->
  _beekemInitialized (_group s') = false -> Forall not_welcome ops ->
  exists e, (addReader cfg sw reader kem (foldl (fun s o => (run_group_op o s).2) s' ops)).1 = Err e.
Proof.
  intros Ho Hg Hops. assert (Ht : treeless s') by (split; [done|by eapply open_founds]).
  clear Ho Hg. revert s' Ht. induction Hops as [|o ops Hno _ IH]; intros s' Ht; simpl.
  - destruct (addReader_treeless reader kem s' Ht) as [e ->]. by exists e.
  - apply IH. by apply run_treeless.
Qed.

(** ** Path updates and key updates from the network *)

Lemma installed_side {A} (m : eff docT A) : steps (same side) m -> steps (same installed) m.
Proof. intros Hm s. pose proof (Hm s) as [= _ _ Ek Ee _ Eg]. unfold same, installed. by rewrite Ek, Ee, Eg. Qed.

Lemma on_beekem_keychain {A} (m : eff (@BeeKem.BeeKEM PubKey PrivKey) A) :
  steps (same (fun s => (_keychain s, _invitationEpoch s))) (on_beekem m : eff docT A).
Proof. unfold on_beekem, set_group. steps_tac. apply steps_modify. by intros []. Qed.

Lemma pathUpdateGate_signed m (s : docT) x : (forall l, settle cfg l ≡ₚ l) ->
  pathUpdateGate cfg m s = Ok (Some x) -> signed_by_writer cfg m s /\ pathUpdateEpochId m = Some x.2 /\
    exists wire, pathUpdate m = Some wire /\ Wire.deserializePathUpdateFromWire wire = Ok x.1.
Proof.
  intros Hset E. unfold pathUpdateGate in E. destruct (_ && _); [done|].
  destruct (truthy (signature m)) as [sig|] eqn:Hsig; [|done].
  assert (Hs : signature m = Some sig) by (unfold truthy in Hsig; by destruct (signature m) as [[|]|]; simplify_eq).
  destruct (serializeSyncMessage _) as [raw|] eqn:Hraw; [|done]. simpl in E.
  destruct (verifyWelcomeWriterSignature cfg s raw sig) as [[]|] eqn:Hv; [|done..]. cbn [negb] in E.
  destruct (welcome_signed s raw sig Hset Hv) as (keys & sb & ? & ? & k & ? & ?).
  destruct (pathUpdate m) as [j|]; [|done]. destruct (pathUpdateEpochId m) as [ep|]; [|done].
  split; [exists raw, keys, sig, sb; eauto 10|].
  destruct (Wire.deserializePathUpdateFromWire j) as [pu|[]] eqn:Hj; [injection E as <-; eauto|done..].
Qed.

(** The key that a root secret stands for, under the epoch that names it. *)
Definition epoch_key (rs : bytes) (epochId : bytes) (key : DocumentKey) : Prop :=
  deriveEpochIdFromRootSecret rs = Ok epochId /\ deriveDocumentKeyFromRootSecret rs = Ok key.

Lemma applyPathUpdate_keychain pu epochId (s : docT) r s' :
  applyPathUpdate pu epochId s = (r, s') ->
  _keychain s' = _keychain s \/
  exists b b' rs key kc c, _beekem (_group s) = Some b /\ BeeKem.processPathUpdate pu b = (Ok rs, b') /\
    epoch_key rs epochId key /\ kc_addEpochKey (_keychain s) epochId key = Ok (kc, c) /\ _keychain s' = kc /\
    _beekem (_group s') = Some b'.
Proof.
  unfold applyPathUpdate, epoch_key. rewrite (bind_ok _ _ s s s) by done.
  destruct (_beekem (_group s)) as [b|] eqn:Hb;
    [|rewrite bool_decide_true, orb_true_r by done; intros [= _ <-]; by left].
  destruct (negb _ || _); [intros [= _ <-]; by left|].
  unfold bind at 1, catch at 1, on_beekem. unfold bind at 1 2, get. rewrite Hb.
  destruct (BeeKem.processPathUpdate pu b) as [[rs|[e|]] b'] eqn:Hp; unfold set_group; rewrite ?bind_modify; simpl;
    [|intros [= _ <-]; by left..].
  unfold bind at 1, lift at 1. destruct (deriveEpochIdFromRootSecret rs) as [ep|] eqn:He; [|intros [= _ <-]; by left].
  destruct (constantTimeEquals ep epochId) eqn:Hc; cbn [negb]; [|intros [= _ <-]; by left].
  apply constantTimeEquals_iff in Hc as ->.
  unfold bind at 1, lift at 1. destruct (deriveDocumentKeyFromRootSecret rs) as [key|] eqn:Hk; [|intros [= _ <-]; by left].
  unfold catch. simpl. unfold bind, get, lift. simpl.
  destruct (kc_addEpochKey (_keychain s) epochId key) as [[kc c]|[]] eqn:Ha; intros [= _ <-]; [|by left..].
  right. exists b, b', rs, key, kc, c. split_and!; done.
Qed.

(** C12. A path update changes the keychain only when a current writer signed it, and
    then by one key: the one that stands for the root secret that the tree reaches by
    processing this update, under the epoch that the sender announced and the receiver
    derives from that secret as well; the tree afterwards is the processed one. *)
Theorem path_update_authorized payload (s : docT) r s' :
  (forall l, settle cfg l ≡ₚ l) ->
  handleBeeKEMPathUpdateRequestData cfg payload s = (r, s') ->
  _keychain s' = _keychain s \/
  exists m wire pu epochId b b' rs key c,
    deserializeSyncMessage payload = Ok m /\ signed_by_writer cfg m s /\
    pathUpdate m = Some wire /\ Wire.deserializePathUpdateFromWire wire = Ok pu /\ pathUpdateEpochId m = Some epochId /\
    _beekem (_group s) = Some b /\ BeeKem.processPathUpdate pu b = (Ok rs, b') /\ _beekem (_group s') = Some b' /\
    epoch_key rs epochId key /\ kc_addEpochKey (_keychain s) epochId key = Ok (_keychain s', c).
Proof.
  intros Hset E. unfold handleBeeKEMPathUpdateRequestData, catch in E.
  unfold bind at 1, lift in E. destruct (deserializeSyncMessage payload) as [m|[]] eqn:Hm;
    [|injection E as _ <-; by left..].
  rewrite (bind_ok _ _ s s s) in E by done.
  destruct (pathUpdateGate cfg m s) as [g|e] eqn:Hg; [|unfold bind, lift in E; destruct e; injection E as _ <-; by left].
  rewrite (bind_ok _ _ s g s) in E by done.
  destruct g as [[pu epochId]|]; [|injection E as _ <-; by left].
  destruct (pathUpdateGate_signed m s _ Hset Hg) as (Hsigned & Hep & wire & Hw & Hpu).
  destruct (applyPathUpdate pu epochId s) as [r' s1] eqn:Ea.
  assert (Hs1 : s' = s1) by (destruct r' as [|[]]; by injection E as _ <-). subst s1.
  destruct (applyPathUpdate_keychain _ _ _ _ _ Ea) as [Hk|(b & b' & rs & key & kc & c & Hb & Hp & Hek & Ha & <- & Hb')]; [by left|].
  right. exists m, wire, pu, epochId, b, b', rs, key, c. split_and!; done.
Qed.

(** ** A welcome that is built is a welcome that works *)

(** Indices that the wire format can carry. *)
Record wire_ok (w : BeeKem.BeeKEMWelcome) : Prop := {
  wo_leaf : (0 <= BeeKem.leafIndex w)%Z;
  wo_path : Forall (fun n => 0 <= BeeKem.pn_nodeIndex n)%Z (BeeKem.pathKeys w);
  wo_tree : Forall (fun e => 0 <= BeeKem.wn_nodeIndex e)%Z (BeeKem.treeNodePublicKeys w);
}.

Lemma sealed_payload_roundtrip kc w : wire_ok w ->
  decodeWelcomeSealedPayload (encodeWelcomeSealedPayload (SealedPayload kc (Some w))) = Ok (SealedPayload kc (Some w)).
Proof.
  intros [H1 H2 H3]. unfold decodeWelcomeSealedPayload, encodeWelcomeSealedPayload. rewrite Wire.json_bytes_roundtrip by done.
  pose proof (proj2 Wire.welcome_wire w H1 H2 H3) as Hw.
  unfold Wire.serializeBeeKEMWelcomeForWire in *. rewrite !Wire.json_clone_obj in *. simpl in *.
  rewrite Wire.base64_roundtrip. simpl. by rewrite Hw.
Qed.

(** A sealed box is never empty: it has the ephemeral key and the tag. *)
Definition seals_nonempty : Prop := forall r m p, seal r m p <> [].

(** [j] can join as [reader] with the KEM key [k]: it has the key installed, knows
    that it is a reader, and lists the sender as a writer. *)
Record joiner (cfgJ : @config ChangeFnType PublicKey) (reader : PublicKey) (kem : bytes) (k : PrivKey) (j : docT) : Prop := {
  jn_path : documentPath cfgJ = documentPath cfg;
  jn_user : userPublicKey cfgJ = reader;
  jn_keys : exists kp, _kemKeyPair (_group j) = Some kp /\ kp_private kp = k /\ kp_public kp = pub_of k;
  jn_raw : _kemPublicKeyRaw (_group j) = Some kem;
  jn_import : BeeKem.import_pub kem = Some (pub_of k);
  jn_reader : acl_check (_readers j) reader = Ok true;
  jn_settle l : settle cfgJ l ≡ₚ l;
  jn_writer : exists keys me, acl_users (_writers j) = Ok keys /\ me ∈ keys /\
    (forall raw key sb, key ∈ keys -> exists v, verify cfgJ raw key sb = Ok v) /\
    forall d raw sb, sign cfg d raw = Ok sb -> verify cfgJ raw me sb = Ok true /\ Wire.fromUint8Array sb <> "";
  jn_new : _invitationEpoch j = None;
}.

(** A signature of the sender passes the joiner's check. *)
Lemma joiner_verifies cfgJ reader kem k j d raw sb : joiner cfgJ reader kem k j -> sign cfg d raw = Ok sb ->
  verifyWelcomeWriterSignature cfgJ j raw (Wire.fromUint8Array sb) = Ok true.
Proof.
  intros Hj Hs. destruct (jn_writer _ _ _ _ _ Hj) as (keys & me & Hu & Hin & Htot & Hok).
  unfold verifyWelcomeWriterSignature. rewrite Hu. unfold WriterCache.verifyWelcomeWriterSignature.
  destruct keys as [|k0 keys']; [by apply elem_of_nil in Hin|]. cbn [length Nat.eqb].
  rewrite Wire.base64_roundtrip. set (keys := k0 :: keys') in *.
  set (f := fun key => match verify cfgJ raw key sb with Ok v => v | Err _ => false end).
  rewrite (WriterCache.firstTrue_keys _ _ keys raw sb f).
  - f_equal. apply existsb_exists. exists me. split; [by apply list_elem_of_In|].
    unfold f. by destruct (Hok _ _ _ Hs) as [-> _].
  - apply jn_settle with (1 := Hj).
  - intros key Hk. unfold f. by destruct (Htot raw key sb Hk) as [v ->].
Qed.

(** What the sender puts into the message. *)
Lemma buildWelcomeMessage_inv reader kem k w (s s1 : docT) m :
  BeeKem.import_pub kem = Some (pub_of k) ->
  buildWelcomeMessage cfg sw reader kem (Some w) s = (Ok m, s1) ->
  exists serialize recipient cur c cb r d sb raw m0,
    serializePublicKeyImpl sw = Some serialize /\ serialize reader = Ok recipient /\
    kc_current (_keychain s) = Ok cur /\ Loading.keychainChangesForWelcome s = Ok c /\ serializeChanges c = Ok cb /\
    length kem = Ecies.ECIES_P256_PUBLIC_KEY_LENGTH /\
    m0 = empty_message (documentPath cfg) <| welcomeEpochId := Some cur.1 |> <| welcomeRecipient := Some recipient |>
           <| welcomeRecipientKemPublicKey := Some kem |>
           <| eciesSealed := Some (seal r (encodeWelcomeSealedPayload (SealedPayload cb (Some w))) (pub_of k)) |> /\
    serializeSyncMessage m0 = Ok raw /\ sign cfg d raw = Ok sb /\ m = m0 <| signature := Some (Wire.fromUint8Array sb) |>.
Proof.
  intros Himp E. unfold buildWelcomeMessage in E. rewrite (bind_ok _ _ s s s) in E by done.
  apply bind_inv in E as (cur & s2 & [= Hcur <-] & E).
  apply bind_inv in E as (ser & s2 & [= Hser <-] & E).
  apply bind_inv in E as (rcp & s2 & [= Hrcp <-] & E).
  apply bind_inv in E as (c & s2 & [= Hc <-] & E).
  apply bind_inv in E as (cb & s2 & [= Hcb <-] & E). cbv zeta in E.
  apply bind_inv in E as (pk & s2 & [= Hpk <-] & E).
  apply bind_inv in E as (d & s2 & _ & E).
  apply bind_inv in E as (sig & s3 & Hsig & [= <- _]).
  unfold signAsWriterUnconditional in Hsig. apply bind_inv in Hsig as (raw & s4 & [= Hraw _] & Hsig).
  apply bind_inv in Hsig as (d' & s5 & _ & Hsig). apply bind_inv in Hsig as (sb & s6 & [= Hsb _] & [= <- _]).
  unfold requireSerializePublicKey in Hser. destruct (serializePublicKeyImpl sw) as [ser'|]; [|done]. injection Hser as ->.
  unfold import_kem in Hpk. destruct (Nat.eqb_spec (length kem) Ecies.ECIES_P256_PUBLIC_KEY_LENGTH) as [Hl|]; [|done].
  rewrite Himp in Hpk. injection Hpk as <-.
  exists ser, rcp, cur, c, cb, (BeeKem.seal_rand d), d', sb, raw. eexists. split_and!; done.
Qed.

(** The joiner accepts it, and opens what the sender sealed. *)
Lemma joiner_accepts cfgJ reader kem k w (s s1 j : docT) m :
  joiner cfgJ reader kem k j -> buildWelcomeMessage cfg sw reader kem (Some w) s = (Ok m, s1) ->
  (forall serialize, serializePublicKeyImpl sw = Some serialize -> serialize reader <> Ok "") ->
  (forall e x, kc_current (_keychain s) = Ok (e, x) -> e <> []) ->
  seals_nonempty -> evaluate cfgJ sw m j = Ok Welcome.Accept.
Proof.
  intros Hj E Hne Hepoch Hseal.
  destruct (buildWelcomeMessage_inv _ _ _ _ _ _ _ (jn_import _ _ _ _ _ Hj) E)
    as (ser & rcp & [e x] & c & cb & r & d & sb & raw & m0 & Hser & Hrcp & Hcur & _ & _ & Hl & Hm0 & Hraw & Hsb & ->).
  unfold evaluate, requireSerializePublicKey. rewrite Hser. apply Welcome.accept_spec.
  rewrite (jn_user _ _ _ _ _ Hj). subst m0. split_and!.
  - constructor; simpl.
    + right. by rewrite (jn_path _ _ _ _ _ Hj).
    + eauto.
    + exists rcp. split; [done|]. intros ->. by eapply Hne.
    + eauto.
    + eexists. split; [done|]. apply Hseal.
  - by exists rcp.
  - apply (jn_reader _ _ _ _ _ Hj).
  - exists (Wire.fromUint8Array sb), raw. split_and!; [done| |done|by eapply joiner_verifies].
    destruct (jn_writer _ _ _ _ _ Hj) as (keys & me & _ & _ & _ & Hok). by apply (Hok _ _ _ Hsb).
Qed.

Lemma openWelcome_sealed `{!SerializerLaws (ChangesType := ChangesType)} m kp r cb w c :
  eciesSealed m = Some (seal r (encodeWelcomeSealedPayload (SealedPayload cb (Some w))) (pub_of (kp_private kp))) ->
  wire_ok w -> serializeChanges c = Ok cb -> openWelcome m kp = Ok (Some (c, Some w)).
Proof.
  intros Hs Hw Hc. unfold openWelcome. rewrite Hs. cbn [default from_option id]. rewrite open_seal.
  rewrite (sealed_payload_roundtrip cb w Hw). cbn [wp_keychainChanges wp_beekemWelcome].
  by rewrite (DocumentTheory.changes_roundtrip _ _ Hc).
Qed.

(** A reader that has no leaf yet gets one from [addMember]. *)
Lemma register_fresh reader kem k (s s1 : docT) b ow :
  BeeKem.import_pub kem = Some (pub_of k) -> _beekem (_group s) = Some b -> _beekemInitialized (_group s) = true ->
  (forall serialize sr, serializePublicKeyImpl sw = Some serialize -> serialize reader = Ok sr ->
     map_get sr (_readerLeafIndices (_group s)) = None) ->
  registerBeeKEMReader sw reader kem s = (Ok ow, s1) ->
  exists pu w rs b', ow = Some w /\ BeeKem.addMember (pub_of k) b = (Ok (pu, w, rs), b') /\
    _beekem (_group s1) = Some b' /\ _keychain s1 = _keychain s.
Proof.
  intros Himp Hb Hi Hnew E. unfold registerBeeKEMReader in E. destruct (negb _); [done|].
  apply bind_inv in E as (ser & s2 & [= Hser <-] & E). apply bind_inv in E as (sr & s2 & [= Hsr <-] & E).
  unfold requireSerializePublicKey in Hser. destruct (serializePublicKeyImpl sw) as [ser'|]; [|done]. injection Hser as ->.
  unfold set_group in E. rewrite bind_modify in E. cbv beta in E.
  match type of E with _ ?st = _ => set (s0 := st) in E end. rewrite (bind_ok _ _ s0 s0 s0) in E by done.
  change (_readerLeafIndices (_group s0)) with (_readerLeafIndices (_group s)) in E.
  change (_beekemInitialized (_group s0)) with (_beekemInitialized (_group s)) in E.
  rewrite (Hnew ser sr), Hi in E by done. cbn [negb] in E. rewrite (bind_ok _ _ s0 tt s0), (bind_ok _ _ s0 s0 s0) in E by done.
  change (_beekem (_group s0)) with (_beekem (_group s)) in E. rewrite Hb in E.
  apply bind_inv in E as (pk & s2 & [= Hpk <-] & E). rewrite Himp in Hpk. injection Hpk as <-.
  unfold on_beekem in E. apply bind_inv in E as (res & s2 & Eon & E). rewrite (bind_ok _ _ s0 s0 s0) in Eon by done.
  change (_beekem (_group s0)) with (_beekem (_group s)) in Eon. rewrite Hb in Eon. unfold set_group in Eon.
  rewrite bind_modify in Eon. destruct (BeeKem.addMember (pub_of k) b) as [[[[pu w] rs]|] b'] eqn:Ha; [|done].
  injection Eon as <- <-. cbv zeta in E. rewrite bind_modify in E. injection E as <- <-. simpl. eauto 10.
Qed.

(** C9. Onboarding works end to end: when a writer registers a new reader and builds
    the welcome, a joiner that holds the matching KEM key accepts the message, merges
    the keys that the sender offered, enters the sender's epoch, and has a tree with
    the sender's public keys and the sender's new root secret. *)
Theorem welcome_onboards `{!SerializerLaws (ChangesType := ChangesType)} cfgJ reader kem k (s s1 s2 j : docT) b p ow m payload c kc e x :
  seals_nonempty ->
  joiner cfgJ reader kem k j ->
  _beekem (_group s) = Some b -> _beekemInitialized (_group s) = true ->
  BeeKemTheory.placed b p -> (BeeKem.numLeaves b < 2 ^ 30)%Z -> NoDup (BeeKem.nodes b).*1 -> BeeKemTheory.keys_match b ->
  (forall serialize sr, serializePublicKeyImpl sw = Some serialize -> serialize reader = Ok sr ->
     sr <> "" /\ map_get sr (_readerLeafIndices (_group s)) = None) ->
  registerBeeKEMReader sw reader kem s = (Ok ow, s1) -> (forall w, ow = Some w -> wire_ok w) ->
  buildWelcomeMessage cfg sw reader kem ow s1 = (Ok m, s2) -> serializeSyncMessage m = Ok payload ->
  kc_current (_keychain s) = Ok (e, x) -> e <> [] ->
  Loading.keychainChangesForWelcome s1 = Ok c -> kc_merge (_keychain j) c = Ok kc ->
  exists j' sender tree rs,
    handleBeeKEMWelcomeRequestData cfgJ sw payload j = (Ok tt, j') /\
    _keychain j' = kc /\ _invitationEpoch j' = Some e /\ _beekemInitialized (_group j') = true /\
    _beekem (_group s1) = Some sender /\ _beekem (_group j') = Some tree /\
    BeeKem.getRootSecret sender = Ok rs /\ BeeKem.getRootSecret tree = Ok rs /\
    forall i, BeeKem.pub_at tree i = BeeKem.pub_at sender i.
Proof.
  intros Hseal Hj Hb Hi Hp Hn Hnd Hkm Hser Hreg Hwire Hbuild Hpay Hcur He Hc Hkc.
  unfold handleBeeKEMWelcomeRequestData. rewrite (message_roundtrip _ _ Hpay).
  destruct (register_fresh _ _ _ _ _ _ _ (jn_import _ _ _ _ _ Hj) Hb Hi ltac:(intros; by eapply Hser) Hreg)
    as (pu & w & rs & b' & -> & Hadd & Hb' & Hk). specialize (Hwire w eq_refl).
  assert (Hacc : evaluate cfgJ sw m j = Ok Welcome.Accept).
  { eapply joiner_accepts; [done..| | |done].
    - intros ser Hs Hr. by destruct (Hser ser "" Hs Hr).
    - rewrite Hk, Hcur. by intros ?? [= <- _]. }
  destruct (buildWelcomeMessage_inv _ _ _ _ _ _ _ (jn_import _ _ _ _ _ Hj) Hbuild)
    as (ser & rcp & [e' x'] & c' & cb & r & d & sb & raw & m0 & _ & _ & Hcur' & Hc' & Hcb & Hl & -> & _ & _ & ->).
  rewrite Hk, Hcur in Hcur'. rewrite Hc in Hc'. injection Hcur' as <- <-. injection Hc' as <-.
  destruct (jn_keys _ _ _ _ _ Hj) as (kp & Hkp & Hpriv & Hpub).
  destruct (BeeKemTheory.addMember_processWelcome b p k pu w rs b' (_draws j) Hp Hn Hnd Hkm Hadd)
    as (tree & Hproc & _ & _ & Hpubs & Hrs & Hroot).
  set (m := _ <| signature := Some _ |>) in *. unfold catch. rewrite (bind_ok _ _ j m j) by done.
  unfold evaluateAndApplyBeeKEMWelcome. unfold bind at 1. rewrite (bind_ok _ _ j j j) by done. rewrite Hacc. erewrite bind_ok by done.
  unfold applyWelcome. erewrite bind_ok by done. rewrite Hkp, (jn_raw _ _ _ _ _ Hj).
  change (welcomeRecipientKemPublicKey m) with (Some kem). change (welcomeEpochId m) with (Some e). cbv zeta iota beta.
  rewrite Nat.eqb_refl, (proj2 (constantTimeEquals_iff kem kem) eq_refl). cbn [negb andb default from_option].
  rewrite (openWelcome_sealed m kp r cb w c) by (done || by rewrite Hpriv).
  erewrite bind_ok by done. cbv beta iota. rewrite Hkc, bind_modify.
  unfold bootstrapTree, draw, set_group. rewrite Hpriv, Hpub. unfold bind, get, modify, ret, lift.
  cbn [_draws _keychain]. simpl. rewrite Hproc. simpl. unfold recordInvitationEpoch, bind, get, modify. simpl.
  rewrite (jn_new _ _ _ _ _ Hj). simpl.
  eexists _, b', tree, rs. split_and!; try done.
Qed.

(** ** Removing a reader rotates the key *)

(** The leaf that [removeReader] takes for the reader's. *)
Definition reader_leaf (sr : string) (leaf : Z) (b : @BeeKem.BeeKEM PubKey PrivKey) (g : @group PubKey PrivKey) : Prop :=
  map_get sr (_readerLeafIndices g) = Some leaf \/
  map_get sr (_readerLeafIndices g) = None /\
  exists kem, map_get sr (_readerKemPublicKeys g) = Some kem /\ BeeKem.findLeafByPublicKey b kem = Some leaf.

Lemma leafOfReader_inv sr leaf (s s1 : docT) b : _beekem (_group s) = Some b ->
  leafOfReader sr s = (Ok leaf, s1) ->
  reader_leaf sr leaf b (_group s) /\ _beekem (_group s1) = Some b /\ _keychain s1 = _keychain s.
Proof.
  intros Hb E. unfold leafOfReader in E. rewrite (bind_ok _ _ s s s) in E by done. unfold reader_leaf.
  destruct (map_get sr (_readerLeafIndices (_group s))) as [l|]; [injection E as -> <-; eauto|].
  destruct (map_get sr (_readerKemPublicKeys (_group s))) as [kem|]; [|done]. rewrite Hb in E. simpl in E.
  destruct (BeeKem.findLeafByPublicKey b kem) as [l|] eqn:Hf; [|done].
  unfold set_group in E. rewrite bind_modify in E. injection E as -> <-. simpl. eauto 10.
Qed.

(** Neither the change of the readers list nor a message touches these. *)
Definition keys_of (s : docT) := (_keychain s, _group s).

Lemma side_keys {A} (m : eff docT A) : steps (same side) m -> steps (same keys_of) m.
Proof. intros Hm s. pose proof (Hm s) as [= _ _ Ek _ _ Eg]. unfold same, keys_of. by rewrite Ek, Eg. Qed.

Lemma acl_change_keys reader :
  steps (same keys_of) (catch (let! s := get in
    let! r := lift (acl_remove (_readers s) reader) in
    let! _ := modify (fun s => s <| _readers := r.1 |>) in
    makeChange cfg r.2 ReaderNode) (fun _ => ret tt)).
Proof. steps_tac; [by apply steps_modify|]. apply side_keys, makeChange_side. Qed.

Lemma path_update_sent_keys pu e :
  steps (same keys_of) (catch (distributeBeeKEMPathUpdate cfg sw pu e) (fun _ => ret tt)).
Proof. steps_tac. apply side_keys, inner_side, path_update_sent_side. Qed.

(** The name under which the group keeps a reader. *)
Definition serialized (reader : PublicKey) (sr : string) : Prop :=
  exists ser, requireSerializePublicKey sw = Ok ser /\ ser reader = Ok sr.

(** The rotation, step by step. *)
Lemma removeReader_inv reader (s s' : docT) b :
  _beekem (_group s) = Some b -> acl_check (_readers s) reader = Ok true ->
  removeReader cfg sw reader s = (Ok tt, s') ->
  exists sr leaf pu rs b' epochId key kc c,
    serialized reader sr /\ reader_leaf sr leaf b (_group s) /\ BeeKem.removeMember leaf b = (Ok (pu, rs), b') /\ _beekem (_group s') = Some b' /\
    epoch_key rs epochId key /\ kc_addEpochKey (_keychain s) epochId key = Ok (kc, c) /\ _keychain s' = kc /\
    (exists l, _readerLeafIndices (_group s') = map_delete sr l) /\
    (exists l, _readerKemPublicKeys (_group s') = map_delete sr l) /\
    (exists l, _beekemWelcomeByLeaf (_group s') = map_delete leaf l).
Proof.
  intros Hb Hr E. unfold removeReader in E. apply bind_inv in E as ([] & s1 & Hens & E).
  pose proof (ensure_side s) as Hs. rewrite Hens in Hs. injection Hs as Hrd _ Hk _ _ Hg _.
  rewrite (bind_ok _ _ s1 s1 s1) in E by done. rewrite Hrd, Hr in E. rewrite (bind_ok _ _ s1 true s1) in E by done. cbn [negb] in E.
  apply bind_inv in E as (ser & s2 & [= Hser <-] & E). apply bind_inv in E as (sr & s2 & [= Hsr <-] & E).
  rewrite (bind_ok _ _ s1 s1 s1) in E by done. destruct (negb _ || _); [done|].
  apply bind_inv in E as (leaf & s2 & Hleaf & E). rewrite <- Hg in Hb |- *.
  destruct (leafOfReader_inv _ _ _ _ _ Hb Hleaf) as (Hlf & Hb2 & Hk2).
  apply bind_inv in E as ([pu rs] & s3 & Hrm & E). unfold on_beekem in Hrm.
  rewrite (bind_ok _ _ s2 s2 s2), Hb2 in Hrm by done. unfold set_group in Hrm. rewrite bind_modify in Hrm.
  destruct (BeeKem.removeMember leaf b) as [[x|] b'] eqn:Hrem; [|done]. injection Hrm as -> <-.
  apply bind_inv in E as (key & s4 & [= Hkey <-] & E). apply bind_inv in E as (ep & s4 & [= Hep <-] & E).
  apply bind_inv in E as ([] & s4 & Hacl & E). apply (f_equal snd) in Hacl as Hs4.
  pose proof (acl_change_keys reader (s2 <| _group := _group s2 <| _beekem := Some b' |> |>)) as K4.
  simpl in Hs4. rewrite Hs4 in K4. injection K4 as Hk4 Hg4. clear Hs4 Hacl.
  unfold set_group in E. rewrite bind_modify in E.
  match type of E with _ ?st = _ => set (s5 := st) in E end.
  apply bind_inv in E as ([] & s6 & Hsend & E). pose proof (path_update_sent_keys pu ep s5) as K6. rewrite Hsend in K6.
  injection K6 as Hk6 Hg6. rewrite (bind_ok _ _ s6 s6 s6) in E by done.
  apply bind_inv in E as ([kc c] & s7 & [= Hkc <-] & [= <-]).
  exists sr, leaf, pu, rs, b', ep, key, kc, c. unfold epoch_key. simpl. rewrite Hg6. unfold s5. simpl. rewrite Hg4. simpl.
  rewrite Hk6 in Hkc. change (_keychain s5) with (_keychain s4) in Hkc. rewrite Hk4 in Hkc. simpl in Hkc.
  rewrite Hk2, Hk in Hkc. split_and!; eauto. by exists ser.
Qed.

(** C10. Removing a reader rotates the document key. The reader is listed, we have a place in the
    tree, and the leaf recorded for this reader is a leaf of the tree and not ours: whenever
    [removeReader] returns, the leaf recorded under this reader's serialized key
    is blank and its path renewed, the keychain has the key of the new root secret under
    the epoch that the secret names, and nothing is recorded for the reader; also when
    the change of the readers list or the broadcast failed. *)
Theorem removeReader_rotates reader (s s' : docT) b p :
  _beekem (_group s) = Some b -> BeeKemTheory.placed b p -> acl_check (_readers s) reader = Ok true ->
  (forall sr leaf, serialized reader sr -> reader_leaf sr leaf b (_group s) ->
     exists q, leaf = (2 * q)%Z /\ (0 <= q < BeeKem.numLeaves b)%Z /\ q <> p) ->
  removeReader cfg sw reader s = (Ok tt, s') ->
  exists sr q dq pu b' rs epochId key c,
    serialized reader sr /\ reader_leaf sr (2 * q) b (_group s) /\
    BeeKem.removeMember (2 * q) b = (Ok (pu, rs), b') /\ _beekem (_group s') = Some b' /\ BeeKem.getRootSecret b' = Ok rs /\
    BeeKem.pub_at b' (2 * q) = None /\ TreeMath.directPath (2 * q) (BeeKem.numLeaves b) = Ok dq /\
    (forall d, d ∈ dq -> BeeKem.priv_at b' d = None \/
       exists t, (BeeKem.rng b <= t)%nat /\ BeeKem.priv_at b' d = Some (BeeKem.generated t)) /\
    epoch_key rs epochId key /\ kc_addEpochKey (_keychain s) epochId key = Ok (_keychain s', c) /\
    map_get sr (_readerLeafIndices (_group s')) = None /\ map_get sr (_readerKemPublicKeys (_group s')) = None /\
    map_get (2 * q)%Z (_beekemWelcomeByLeaf (_group s')) = None.
Proof.
  intros Hb Hp Hr Hleaf E.
  destruct (removeReader_inv _ _ _ _ Hb Hr E) as (sr & leaf & pu & rs & b' & ep & key & kc & c & Hser & Hl & Hrm & Hb' & Hek & Hkc & <- & [l1 H1] & [l2 H2] & [l3 H3]).
  destruct (Hleaf _ _ Hser Hl) as (q & -> & Hq & Hqp).
  destruct (BeeKemTheory.removeMember_spec b p q Hp ltac:(destruct Hp; lia) Hq Hqp)
    as (pu' & rs' & b1 & dq & Hdq & Hrm' & Hsec & Hblank & _ & Hpath).
  rewrite Hrm in Hrm'. injection Hrm' as <- <- <-.
  exists sr, q, dq, pu, b', rs, ep, key, c. rewrite H1, H2, H3, !map_get_delete, !decide_True by done. split_and!; try done.
  intros d Hd. destruct (Hpath d Hd) as [[_ ?]|(t & ? & _ & ?)]; eauto.
Qed.

End Group.
End GroupTheory.
