(* ===== verification/GroupExamples.v ===== *)
(** * A concrete group

    The providers of [DocExamples], with a toy sealed box, JSON text and key
    derivation that obey the laws assumed of them. The theorems of [GroupTheory] are
    applied to a founder who adds and removes a reader, to the reader who joins, and
    to messages of strangers. *)
From stdpp Require Import base numbers list list_numbers strings countable relations.
From Stdlib Require Import ZArith QArith Lia.
From S2P Require Import Prelude TreeMath TipsHash Ecies BeeKem BeeKemTheory Utils Wire Welcome ChangeTree Auth.
From S2P Require Import WriterCache Document DocumentTheory Loading DocExamples Group GroupTheory.

Open Scope string_scope.
Open Scope list_scope.
Open Scope nat_scope.

Module GroupExamples.
Import ChangeTree Document DocumentTheory Loading DocExamples Group GroupTheory.
#[local] Existing Instance Wire.latin1.
#[local] Existing Instances set_crdt list_acl byte_keychain byte_auth.
#[local] Existing Instance BeeKemTheory.toy_box.

(** ** JSON text *)

Abbreviation label := (option bool + option (option Z * positive) + string)%type.

Definition num_label (n : num) : label :=
  inl (inr match n with
           | Fin q => Some (Some (Qnum q), Qden q)
           | NaN => None
           | PosInf => Some (None, 1%positive)
           | NegInf => Some (None, 2%positive)
           end).

Fixpoint tree_of (v : Wire.jsval) : gen_tree label :=
  match v with
  | Wire.JUndefined => GenNode 2 []
  | Wire.JNull => GenLeaf (inl (inl None))
  | Wire.JBool b => GenLeaf (inl (inl (Some b)))
  | Wire.JNum n => GenLeaf (num_label n)
  | Wire.JStr s => GenLeaf (inr s)
  | Wire.JArr l => GenNode 0 (map tree_of l)
  | Wire.JObj ps => GenNode 1 (map (fun p => GenNode 3 [GenLeaf (inr p.1); tree_of p.2]) ps)
  end.

Fixpoint of_tree (t : gen_tree label) : Wire.jsval :=
  match t with
  | GenLeaf (inl (inl None)) => Wire.JNull
  | GenLeaf (inl (inl (Some b))) => Wire.JBool b
  | GenLeaf (inl (inr None)) => Wire.JNum NaN
  | GenLeaf (inl (inr (Some (Some n, d)))) => Wire.JNum (Fin (Qmake n d))
  | GenLeaf (inl (inr (Some (None, d)))) => Wire.JNum (if bool_decide (d = 1%positive) then PosInf else NegInf)
  | GenLeaf (inr s) => Wire.JStr s
  | GenNode 0 l => Wire.JArr (map of_tree l)
  | GenNode 1 l => Wire.JObj (map (fun t => match t with
                                            | GenNode _ [GenLeaf (inr k); v] => (k, of_tree v)
                                            | _ => ("", Wire.JNull)
                                            end) l)
  | GenNode _ _ => Wire.JUndefined
  end.

Lemma of_tree_of v : of_tree (tree_of v) = v.
Proof.
  induction v as [| |b|n|s|l IH|ps IH] using Wire.jsval_ind'; simpl; try done.
  - by destruct n as [[]| | |].
  - f_equal. induction IH as [|v l Hv _ IHl]; simpl; [done|]. by rewrite Hv, IHl.
  - f_equal. induction IH as [|[k v] l Hv _ IHl]; simpl in *; [done|]. by rewrite Hv, IHl.
Qed.

#[local] Instance jsval_eq_dec : EqDecision Wire.jsval.
Proof.
  intros v w. destruct (decide (tree_of v = tree_of w)) as [E|E]; [left|right; by intros ->].
  by rewrite <- (of_tree_of v), E, of_tree_of.
Defined.

#[local] Instance jsval_countable : Countable Wire.jsval :=
  inj_countable' tree_of of_tree of_tree_of.

#[local, refine] Instance tree_json : Wire.JsonBytes := {
  Wire.json_bytes v := pos_bytes (encode (Wire.json_clone v));
  Wire.json_of_bytes b := or_throw "SyntaxError" (decode (bytes_pos b));
}.
Proof.
  - intros v _. by rewrite bytes_pos_bytes, decode_encode.
  - intros v. by rewrite Wire.json_clone_idem.
Defined.

(** ** A serializer for the messages of a group *)

Abbreviation ints := (option (list Z)).
Definition gflat : Type :=
  string * ints * option string * ints * ints * option string * option Wire.jsval * ints.

Definition ints_of (b : option bytes) : ints := fmap (M := option) (map byte_to_Z) b.
Definition of_ints (b : ints) : option bytes := fmap (M := option) (map byte_of_Z) b.

Lemma of_ints_of b : of_ints (ints_of b) = b.
Proof. destruct b; simpl; [|done]. f_equal. apply bytes_of_to_Z. Qed.

Definition to_gflat (m : CRDTSyncMessage (list nat)) : option gflat :=
  match m with
  | SyncMessage d None None None None we wr wk es pu pe None None sig =>
      Some (d, ints_of we, wr, ints_of wk, ints_of pe, sig, pu, ints_of es)
  | _ => None
  end.

Definition of_gflat (f : gflat) : CRDTSyncMessage (list nat) :=
  let '(d, we, wr, wk, pe, sig, pu, es) := f in
  SyncMessage d None None None None (of_ints we) wr (of_ints wk) (of_ints es) pu (of_ints pe) None None sig.

(** The announcement of a first change, of any kind. *)
Definition cflat : Type := string * option string * nat * list nat * option string.

Definition kinds : list CRDTChangeNodeKind := [DocumentNode; WriterNode; ReaderNode].
Definition kind_index (k : CRDTChangeNodeKind) : nat := match k with DocumentNode => 0 | WriterNode => 1 | ReaderNode => 2 end.

Definition to_cflat (m : CRDTSyncMessage (list nat)) : option cflat :=
  match m with
  | SyncMessage d id (Some (Node None k (Some c) NoChildren)) None None None None None None None None None None sig =>
      Some (d, id, kind_index k, c, sig)
  | _ => None
  end.

Definition of_cflat (f : cflat) : CRDTSyncMessage (list nat) :=
  let '(d, id, k, c, sig) := f in
  SyncMessage d id (Some (Node None (default DocumentNode (kinds !! k)) (Some c) NoChildren))
    None None None None None None None None None None sig.

#[local] Instance group_serializers : Serializers (list nat) := {
  serializeChanges c := if forallb (fun n => n <? 256) c then Ok (map nat_byte c) else throw "RangeError";
  deserializeChanges b := Ok (map byte_nat b);
  serializeSyncMessage m := match to_gflat m, to_cflat m with
                            | Some f, _ => Ok (Init.Byte.x01 :: pos_bytes (encode f))
                            | _, Some f => Ok (Init.Byte.x00 :: pos_bytes (encode f))
                            | _, _ => throw "unsupported"
                            end;
  deserializeSyncMessage b :=
    match b with
    | Init.Byte.x01 :: b => match decode (bytes_pos b) with Some f => Ok (of_gflat f) | None => throw "malformed" end
    | Init.Byte.x00 :: b => match decode (bytes_pos b) with Some f => Ok (of_cflat f) | None => throw "malformed" end
    | _ => throw "malformed"
    end;
}.

#[local] Instance group_serializer_laws : SerializerLaws (ChangesType := list nat).
Proof.
  split; [apply (DocumentTheory.changes_roundtrip (SerializerLaws := flat_serializer_laws))|].
  intros m b. simpl. destruct (to_gflat m) as [f|] eqn:Ef.
  - intros [= <-]. rewrite bytes_pos_bytes, decode_encode. f_equal.
    destruct m as [d [] [] [] [] we wr wk es pu pe [] [] sig]; simplify_eq/=. by rewrite !of_ints_of.
  - clear Ef. destruct (to_cflat m) as [f|] eqn:Ef; [|done]. intros [= <-]. rewrite bytes_pos_bytes, decode_encode. f_equal.
    destruct m as [d id c sn kc we wr wk es pu pe th ts sig]. destruct c as [[cr k ch chs]|]; [|done].
    destruct cr; [done|]. destruct ch; [|done]. destruct chs; [|done..]. destruct sn; [done|].
    destruct kc; [done|]. destruct we; [done|]. destruct wr; [done|]. destruct wk; [done|]. destruct es; [done|].
    destruct pu; [done|]. destruct pe; [done|]. destruct th; [done|]. destruct ts; [done|].
    injection Ef as <-. by destruct k.
Qed.

(** ** Keys of the length the code checks *)

Definition pad32 (b : bytes) : bytes := take 32 (b ++ replicate 32 Init.Byte.x00).

#[local, refine] Instance wide_keys : BeeKem.TreeKeys byte byte unit := {
  generated n := nat_byte n; seal_rand _ := tt; export_pub p := replicate 65 p; import_pub := head;
  export_priv k := [k]; import_priv := head; sha256_of := pad32;
}.
Proof. all: done. Defined.

#[local] Instance toy_kdf : Kdf byte := {
  hkdf_key secret info := default Init.Byte.x00 (head secret);
  hkdf_bits secret info := [default Init.Byte.x00 (head secret)];
}.

Definition key_pair (k : byte) : CryptoKeyPair byte byte :=
  KeyPair k k (Some "ECDH", Some "P-256") (Some "ECDH", Some "P-256") ["deriveBits"] (Ok (replicate 65 k)).

(** ** The founder, user 1, and the reader, user 2 *)

Abbreviation group_doc := (@doc (list nat) (list nat) nat nat (list nat) (list byte) (@group byte byte)).

Definition name (k : nat) : result string := Ok (String.String (Ascii.ascii_of_nat (97 + k)) "").
Definition sw : @swarm nat := Swarm (Some name) ["/p2p/a"; "/p2p/b"] (fun _ p => if String.eqb p "/p2p/a" then Ok tt else throw "unreachable").

(** Like [demo_config], for a given user. *)
Definition user_cfg (u : nat) : @config nat nat :=
  mk_config "/d" u true no_compaction (fun _ _ => Ok [nat_byte u]) (fun _ k sig => Ok (bool_decide (sig = [nat_byte k])))
    (@rev _) (fun d => Z.of_nat d) (fun b => Ok (cid_of b)) (fun c => Ok c) no_remote publish_ok
    (fun _ => Ok tt) (fun _ => Ok tt) (fun l => default 0 (list.last l)).

Definition k1 : byte := Init.Byte.x01.
Definition k2 : byte := Init.Byte.x02.
Definition kem2 : bytes := replicate 65 k2.

Definition run {A} (m : eff group_doc A) (s : group_doc) : group_doc := (m s).2.

Definition founder : group_doc :=
  run (let! _ := setKemKeyPair (Some (key_pair k1)) in initializeBeeKEMAsFounder)
    (new_doc new_group [] <| _writers := [1] |> <| _readers := [1; 2] |> <| _keychain := [nat_byte 7] |>).

Definition joiner2 : group_doc :=
  run (setKemKeyPair (Some (key_pair k2))) (new_doc new_group [] <| _writers := [1] |> <| _readers := [1; 2] |>).

Definition invited := registerBeeKEMReader sw 2 kem2 founder.
Definition invited_welcome : option BeeKem.BeeKEMWelcome := match invited.1 with Ok w => w | Err _ => None end.
Definition built := buildWelcomeMessage (user_cfg 1) sw 2 kem2 invited_welcome invited.2.
Definition welcome_message : CRDTSyncMessage (list nat) := match built.1 with Ok m => m | Err _ => empty_message "" end.
Definition welcome_bytes : bytes := match serializeSyncMessage welcome_message with Ok b => b | Err _ => [] end.
Definition joined : group_doc := run (handleBeeKEMWelcomeRequestData (user_cfg 2) sw welcome_bytes) joiner2.

Example joined_state : _keychain joined = [nat_byte 7] /\ _invitationEpoch joined = Some [nat_byte 7].
Proof. by vm_compute. Qed.

(** ** The theorems at work *)

Lemma user_settles u l : settle (user_cfg u) l ≡ₚ l.
Proof. apply rev_settles. Qed.

Lemma welcome_installs_authorized_witness :
  evaluateAndApplyBeeKEMWelcome (user_cfg 2) sw welcome_message false joiner2
    = (Ok true, (evaluateAndApplyBeeKEMWelcome (user_cfg 2) sw welcome_message false joiner2).2) /\
  (meant_for_me (user_cfg 2) sw welcome_message joiner2 /\ kem_matches welcome_message joiner2 /\
   signed_by_writer (user_cfg 2) welcome_message joiner2).
Proof.
  assert (E : evaluateAndApplyBeeKEMWelcome (user_cfg 2) sw welcome_message false joiner2
    = (Ok true, (evaluateAndApplyBeeKEMWelcome (user_cfg 2) sw welcome_message false joiner2).2)) by (vm_compute; reflexivity).
  split; [exact E|].
  destruct (welcome_installs_authorized (user_cfg 2) sw welcome_message false joiner2 _ _ (user_settles 2) E) as [[_ H]|H];
    [by destruct H|exact H].
Defined.

(** A second welcome, after the founder has moved on to another key. *)
Definition newer := buildWelcomeMessage (user_cfg 1) sw 2 kem2 invited_welcome
  (invited.2 <| _keychain := [nat_byte 7; nat_byte 8] |>).
Definition newer_bytes : bytes :=
  match newer.1 with Ok m => match serializeSyncMessage m with Ok b => b | Err _ => [] end | Err _ => [] end.

(** The first one arrives again after it. *)
Definition arrivals : list (option bytes) := [Some welcome_bytes; None; Some newer_bytes; Some []; Some welcome_bytes].


(** A newly created document: nobody answers the load. *)
Definition alone : network :=
  Network [] (fun _ => 0%Q) (fun _ => throw "refused") (fun _ => false) (fun _ => throw "refused")
    (fun _ => throw "refused") None (fun _ => Ok []).
Definition created : group_doc :=
  run (Loading.open (user_cfg 1) demo_sha (@rev _) alone None) (run (setKemKeyPair (Some (key_pair k1))) (new_doc new_group [])).

Lemma founder_cannot_add_reader_witness :
  exists e, (addReader (user_cfg 1) sw 2 (Some kem2)
    (foldl (fun s o => (run_group_op (user_cfg 1) sw o s).2) created [])).1 = Err e.
Proof.
  apply (founder_cannot_add_reader (user_cfg 1) sw demo_sha (@rev _) alone None
    (run (setKemKeyPair (Some (key_pair k1))) (new_doc new_group []))); [vm_compute; reflexivity..|by constructor].
Defined.

Lemma joiner2_joins : joiner (user_cfg 1) (user_cfg 2) 2 kem2 k2 joiner2.
Proof.
  constructor; try done.
  - by exists (key_pair k2).
  - apply user_settles.
  - exists [1], 1. split_and!; [done|by apply list_elem_of_singleton|eauto|].
    intros d raw sb [= <-]. by split.
Qed.

Lemma welcome_serialized : serializeSyncMessage welcome_message = Ok welcome_bytes.
Proof.
  assert (H : (if serializeSyncMessage welcome_message then true else false) = true) by (vm_compute; reflexivity).
  unfold welcome_bytes. by destruct (serializeSyncMessage welcome_message).
Qed.

Lemma welcome_onboards_witness :
  exists j' sender tree rs,
    handleBeeKEMWelcomeRequestData (user_cfg 2) sw welcome_bytes joiner2 = (Ok tt, j') /\
    _keychain j' = [nat_byte 7] /\ _invitationEpoch j' = Some [nat_byte 7] /\ _beekemInitialized (_group j') = true /\
    _beekem (_group invited.2) = Some sender /\ _beekem (_group j') = Some tree /\
    BeeKem.getRootSecret sender = Ok rs /\ BeeKem.getRootSecret tree = Ok rs /\
    forall i, BeeKem.pub_at tree i = BeeKem.pub_at sender i.
Proof.
  eapply (welcome_onboards (user_cfg 1) sw (user_cfg 2) 2 kem2 k2 founder invited.2 built.2 joiner2
    _ 0 invited_welcome welcome_message welcome_bytes [7] [nat_byte 7] [nat_byte 7] (Some (nat_byte 7))).
  - by intros r m p.
  - exact joiner2_joins.
  - vm_compute; reflexivity.
  - reflexivity.
  - split; vm_compute; repeat split; discriminate.
  - reflexivity.
  - apply NoDup_singleton.
  - intros i p k. unfold BeeKem.pub_at, BeeKem.priv_at. simpl. case_decide; simpl; [congruence|discriminate].
  - intros ser sr [= <-] [= <-]. by split.
  - vm_compute; reflexivity.
  - intros w Hw. vm_compute in Hw. injection Hw as <-. constructor; simpl; [done|by repeat constructor..].
  - vm_compute; reflexivity.
  - exact welcome_serialized.
  - reflexivity.
  - done.
  - vm_compute; reflexivity.
  - reflexivity.
Defined.

(** The founder removes the reader again. *)
Definition removal := removeReader (user_cfg 1) sw 2 invited.2.

Lemma removal_ok : removal.1 = Ok tt.
Proof. vm_compute; reflexivity. Qed.

Lemma removeReader_rotates_witness :
  removal.1 = Ok tt /\
  exists sr q dq pu b' rs epochId key c,
    serialized sw 2 sr /\ reader_leaf sr (2 * q) (default (BeeKem.newBeeKEM 0) (_beekem (_group invited.2))) (_group invited.2) /\
    BeeKem.removeMember (2 * q) (default (BeeKem.newBeeKEM 0) (_beekem (_group invited.2))) = (Ok (pu, rs), b') /\
    _beekem (_group removal.2) = Some b' /\ BeeKem.getRootSecret b' = Ok rs /\
    BeeKem.pub_at b' (2 * q) = None /\ TreeMath.directPath (2 * q) 2 = Ok dq /\
    (forall d, d ∈ dq -> BeeKem.priv_at b' d = None \/
       exists t, (BeeKem.rng (default (BeeKem.newBeeKEM 0) (_beekem (_group invited.2))) <= t)%nat /\ BeeKem.priv_at b' d = Some (BeeKem.generated t)) /\
    epoch_key rs epochId key /\ kc_addEpochKey (_keychain invited.2) epochId key = Ok (_keychain removal.2, c) /\
    map_get sr (_readerLeafIndices (_group removal.2)) = None /\ map_get sr (_readerKemPublicKeys (_group removal.2)) = None /\
    map_get (2 * q)%Z (_beekemWelcomeByLeaf (_group removal.2)) = None.
Proof.
  split; [exact removal_ok|].
  apply (removeReader_rotates (user_cfg 1) sw 2 invited.2 removal.2 (default (BeeKem.newBeeKEM 0) (_beekem (_group invited.2))) 0).
  - vm_compute; reflexivity.
  - split; vm_compute; repeat split; discriminate.
  - reflexivity.
  - intros sr leaf (ser & [= <-] & [= <-]) [Hl|[Hl _]]; vm_compute in Hl; [injection Hl as <-|discriminate].
    exists 1%Z. vm_compute; repeat split; discriminate.
  - rewrite <- removal_ok. unfold removal. by destruct (removeReader _ _ _ _).
Defined.

(** A path update of the founder reaches the reader. *)
Definition updated := BeeKem.update (default (BeeKem.newBeeKEM 0) (_beekem (_group invited.2))).
Definition update_message : CRDTSyncMessage (list nat) :=
  match updated.1 with
  | Ok (pu, rs) => empty_message "/d" <| pathUpdate := Some (Wire.serializePathUpdateForWire pu) |>
                     <| pathUpdateEpochId := Some [default Init.Byte.x00 (head rs)] |>
                     <| signature := Some (Wire.fromUint8Array [nat_byte 1]) |>
  | Err _ => empty_message ""
  end.
Definition update_bytes : bytes := match serializeSyncMessage update_message with Ok b => b | Err _ => [] end.
Definition followed := handleBeeKEMPathUpdateRequestData (user_cfg 2) update_bytes joined.

Lemma path_update_authorized_witness :
  length (_keychain followed.2) = 2 /\
  (_keychain followed.2 = _keychain joined \/
   exists m wire pu epochId b b' rs key c,
     deserializeSyncMessage update_bytes = Ok m /\ signed_by_writer (user_cfg 2) m joined /\
     pathUpdate m = Some wire /\ Wire.deserializePathUpdateFromWire wire = Ok pu /\ pathUpdateEpochId m = Some epochId /\
     _beekem (_group joined) = Some b /\ BeeKem.processPathUpdate pu b = (Ok rs, b') /\ _beekem (_group followed.2) = Some b' /\
     epoch_key rs epochId key /\ kc_addEpochKey (_keychain joined) epochId key = Ok (_keychain followed.2, c)).
Proof.
  split; [vm_compute; reflexivity|].
  apply (path_update_authorized (user_cfg 2) update_bytes joined followed.1); [apply user_settles|].
  unfold followed. by destruct (handleBeeKEMPathUpdateRequestData _ _ _).
Defined.

End GroupExamples.
