(* ===== verification/Index.v ===== *)
(** * Local indexes over documents

    Models [packages/collabswarm-index/src/]: the types of [types.ts],
    [field-extractor.ts], and the storage interface [index-storage.ts] as a class
    with the in-memory implementation [memory-index-storage.ts] as an instance.

    A string is its list of UTF-16 code units. An object is its list of own
    properties; what [Object.prototype] would add is left out. Objects have no
    identity: [===] on two of them is false, which is what it is for values that
    come from different snapshots. What an engine computes from text, [Date.parse],
    the conversion of a string to a number and of an object to a string, and
    [localeCompare], is the class [Runtime]. A finite number is an exact rational: sums and
    differences of numbers are not rounded. *)
From stdpp Require Import base numbers list list_numbers strings pretty.
From Stdlib Require Import ZArith QArith Qround Lia.
From S2P Require Import Prelude.

Open Scope string_scope.
Open Scope list_scope.
Open Scope nat_scope.

Module Index.

(** ** Strings *)

Definition ustring : Type := list Z.

Definition units (s : string) : ustring := map (fun c => Z.of_N (Ascii.N_of_ascii c)) (String.list_ascii_of_string s).

(** [s.split('.')] *)
Fixpoint split_from (acc s : ustring) : list ustring :=
  match s with
  | [] => [acc]
  | c :: s' => if (c =? 46)%Z then acc :: split_from [] s' else split_from (acc ++ [c]) s'
  end.
Definition split_dots (s : ustring) : list ustring := split_from [] s.

(** [s.startsWith(p)] *)
Fixpoint startsWith (s p : ustring) : bool :=
  match p, s with
  | [], _ => true
  | x :: p', y :: s' => (x =? y)%Z && startsWith s' p'
  | _ :: _, [] => false
  end.

(** [s.includes(p)] *)
Fixpoint includes (s p : ustring) : bool :=
  startsWith s p || match s with [] => false | _ :: s' => includes s' p end.

(** [a < b], code unit by code unit *)
Fixpoint ustring_lt (a b : ustring) : bool :=
  match a, b with
  | _, [] => false
  | [], _ :: _ => true
  | x :: a', y :: b' => (x <? y)%Z || ((x =? y)%Z && ustring_lt a' b')
  end.

(** ** Values *)

Inductive value : Type :=
| Undefined
| Null
| Bool (b : bool)
| Num (n : num)
| Str (s : ustring)
| Date (time : num)
| Arr (l : list value)
| Obj (props : list (ustring * value)).

(** [typeof v === 'object' && v !== null] *)
Definition is_object (v : value) : bool :=
  match v with Date _ | Arr _ | Obj _ => true | _ => false end.

(** The key of an array element. *)
Definition index_key (i : nat) : ustring := units (pretty i).

Definition elements (l : list value) : list (ustring * value) := imap (fun i v => (index_key i, v)) l.

(** The enumerable own properties. *)
Definition own_props (v : value) : list (ustring * value) :=
  match v with Obj ps => ps | Arr l => elements l | _ => [] end.

(** [obj[k]] *)
Definition get_prop (v : value) (k : ustring) : value :=
  match map_get k (own_props v), v with
  | Some x, _ => x
  | None, Arr l => if bool_decide (k = units "length") then Num (Z.of_nat (length l)) else Undefined
  | None, _ => Undefined
  end.

Definition num_eq (x y : num) : bool :=
  match x, y with
  | Fin a, Fin b => Qeq_bool a b
  | PosInf, PosInf | NegInf, NegInf => true
  | _, _ => false
  end.

Definition num_opp (x : num) : num :=
  match x with Fin a => Fin (- a) | PosInf => NegInf | NegInf => PosInf | NaN => NaN end.

Definition num_add (x y : num) : num :=
  match x, y with
  | NaN, _ | _, NaN | PosInf, NegInf | NegInf, PosInf => NaN
  | Fin a, Fin b => Fin (a + b)
  | PosInf, _ | _, PosInf => PosInf
  | NegInf, _ | _, NegInf => NegInf
  end.

Definition num_sub (x y : num) : num := num_add x (num_opp y).

(** [a === b] *)
Definition strict_eq (a b : value) : bool :=
  match a, b with
  | Undefined, Undefined | Null, Null => true
  | Bool x, Bool y => eqb x y
  | Num x, Num y => num_eq x y
  | Str x, Str y => bool_decide (x = y)
  | _, _ => false
  end.

Definition nullish (v : value) : bool := match v with Undefined | Null => true | _ => false end.

(** What the engine computes from text. *)
Class Runtime := {
  date_parse : ustring -> num;
  string_to_number : ustring -> num;
  display : value -> ustring;
  localeCompare : ustring -> ustring -> Z;
}.

(** ** Fields, filters and clauses *)

Inductive IndexFieldType := StringField | NumberField | DateField | BooleanField.
#[export] Instance IndexFieldType_eq_dec : EqDecision IndexFieldType.
Proof. solve_decision. Defined.

Record IndexFieldDefinition := FieldDefinition { fd_path : ustring; fd_type : IndexFieldType }.
#[export] Instance IndexFieldDefinition_eq_dec : EqDecision IndexFieldDefinition.
Proof. solve_decision. Defined.

Record IndexDefinition := Definition_ {
  name : ustring;
  collectionPrefix : ustring;
  fields : list IndexFieldDefinition;
}.
#[export] Instance IndexDefinition_eq_dec : EqDecision IndexDefinition.
Proof. solve_decision. Defined.

(** [Other]: a string that is no operator, from untyped code. *)
Inductive FilterOperator := Eq | Neq | Gt | Gte | Lt | Lte | Prefix | In_ | Contains | Other.
#[export] Instance FilterOperator_eq_dec : EqDecision FilterOperator.
Proof. solve_decision. Defined.

Record FieldFilter := Filter { f_path : ustring; operator : FilterOperator; f_value : value }.

Record SortClause := Clause { s_path : ustring; descending : bool }.

Record IndexEntry := Entry { documentPath : ustring; e_fields : value }.

Record QueryOptions := Options {
  q_indexName : option ustring;
  q_collectionPrefix : option ustring;
  filters : list FieldFilter;
  sort : option (list SortClause);
  limit : option num;
  offset : option num;
}.

Record QueryResult := Result { documents : list IndexEntry; totalCount : nat }.

(** [extractField], and [_resolveFieldPath] of both storages *)
Fixpoint walk (v : value) (segments : list ustring) : value :=
  match segments with
  | [] => v
  | k :: ks => if is_object v then walk (get_prop v k) ks else Undefined
  end.
Definition extractField (v : value) (path : ustring) : value := walk v (split_dots path).

Section Compare.
  Context `{RT : !Runtime}.

Definition is_digit (c : Z) : bool := (48 <=? c)%Z && (c <=? 57)%Z.

(** [/^\d{4}-\d{2}-\d{2}/] *)
Definition iso_date (s : ustring) : bool :=
  match s with
  | y1 :: y2 :: y3 :: y4 :: h1 :: m1 :: m2 :: h2 :: d1 :: d2 :: _ =>
      forallb is_digit [y1; y2; y3; y4; m1; m2; d1; d2] && (h1 =? 45)%Z && (h2 =? 45)%Z
  | _ => false
  end.

Definition is_nan (n : num) : bool := match n with NaN => true | _ => false end.

(** [_normalizeForComparison] *)
Definition normalize (v : value) : value :=
  match v with
  | Date t => Num t
  | Str s => if negb (is_nan (date_parse s)) && iso_date s then Num (date_parse s) else v
  | _ => v
  end.

Definition to_primitive (v : value) : value :=
  match v with Date t => Num t | Arr _ | Obj _ => Str (display v) | _ => v end.

Definition to_number (v : value) : num :=
  match v with
  | Null => 0%Z
  | Bool b => if b then 1%Z else 0%Z
  | Num n => n
  | Str s => string_to_number s
  | _ => NaN
  end.

(** The comparison [a < b] of the language; [None] when a side is [NaN]. *)
Definition js_less (a b : value) : option bool :=
  match to_primitive a, to_primitive b with
  | Str x, Str y => Some (ustring_lt x y)
  | x, y =>
      let nx := to_number x in
      let ny := to_number y in
      if is_nan nx || is_nan ny then None else Some (num_lt nx ny)
  end.

Definition js_gt (a b : value) : bool := bool_decide (js_less b a = Some true).
Definition js_gte (a b : value) : bool := bool_decide (js_less a b = Some false).
Definition js_lt (a b : value) : bool := bool_decide (js_less a b = Some true).
Definition js_lte (a b : value) : bool := bool_decide (js_less b a = Some false).

(** [nv !== undefined && nv !== null && ... && nv > nfv] *)
Definition range_filter (cmp : value -> value -> bool) (v w : value) : bool :=
  negb (nullish (normalize v)) && negb (nullish (normalize w)) && cmp (normalize v) (normalize w).

(** [Array.prototype.includes]: like [===], but [NaN] equals itself *)
Definition same_value_zero (a b : value) : bool :=
  strict_eq a b || match a, b with Num NaN, Num NaN => true | _, _ => false end.

Definition matchesFilter (fields : value) (filter : FieldFilter) : bool :=
  let value := extractField fields (f_path filter) in
  match operator filter with
  | Eq => strict_eq value (f_value filter)
  | Neq => negb (strict_eq value (f_value filter))
  | Gt => range_filter js_gt value (f_value filter)
  | Gte => range_filter js_gte value (f_value filter)
  | Lt => range_filter js_lt value (f_value filter)
  | Lte => range_filter js_lte value (f_value filter)
  | Prefix => match value, f_value filter with Str s, Str p => startsWith s p | _, _ => false end
  | In_ => match f_value filter with Arr l => existsb (fun x => same_value_zero x value) l | _ => false end
  | Contains => match value, f_value filter with Str s, Str p => includes s p | _, _ => false end
  | Other => false
  end.

Definition matchesFilters (fields : value) (filters : list FieldFilter) : bool :=
  forallb (matchesFilter fields) filters.

Definition compareValues (a b : value) : num :=
  let na := normalize a in
  let nb := normalize b in
  if strict_eq na nb then 0%Z
  else if nullish na then (-1)%Z
  else if nullish nb then 1%Z
  else match na, nb with
       | Num x, Num y => num_sub x y
       | Str x, Str y => localeCompare x y
       | Bool x, Bool y => (if x then 1 else 0) - (if y then 1 else 0)
       | _, _ => localeCompare (display na) (display nb)
       end%Z.

Fixpoint compareEntries (a b : value) (sort : list SortClause) : num :=
  match sort with
  | [] => 0%Z
  | clause :: sort' =>
      let cmp := compareValues (extractField a (s_path clause)) (extractField b (s_path clause)) in
      if negb (num_eq cmp 0%Z) then (if descending clause then num_opp cmp else cmp)
      else compareEntries a b sort'
  end.

(** [Array.prototype.sort] is stable; an answer that is not positive keeps the order. *)
Fixpoint insert_sorted {A} (cmp : A -> A -> num) (x : A) (l : list A) : list A :=
  match l with
  | [] => [x]
  | y :: l' => if num_lt 0%Z (cmp x y) then y :: insert_sorted cmp x l' else x :: l
  end.
Definition js_sort {A} (cmp : A -> A -> num) (l : list A) : list A := foldr (insert_sorted cmp) [] l.

Definition truncate (q : Q) : Z := if Qle_bool 0 q then Qfloor q else Qceiling q.

(** The position that an argument of [slice] stands for. *)
Definition slice_index (n : num) (len : nat) : nat :=
  match n with
  | NaN | NegInf => 0
  | PosInf => len
  | Fin q => let k := truncate q in
             if (k <? 0)%Z then Z.to_nat (Z.of_nat len + k) else min len (Z.to_nat k)
  end.

Definition slice {A} (l : list A) (start : num) (stop : option num) : list A :=
  let from := slice_index start (length l) in
  let to := match stop with Some e => slice_index e (length l) | None => length l end in
  take (to - from) (drop from l).

(** The second half of [query] in both storages: order and page. *)
Definition order_and_page (results : list IndexEntry) (sort : option (list SortClause))
    (limit offset : option num) : list IndexEntry :=
  let results := match sort with
                 | Some (c :: cs) => js_sort (fun a b => compareEntries (e_fields a) (e_fields b) (c :: cs)) results
                 | _ => results
                 end in
  let start := default (num_of_Z 0) offset in
  match limit with
  | Some n => slice results start (Some (num_add start n))
  | None => if num_lt 0%Z start then slice results start None else results
  end.

(** The checks on [offset] and [limit]. *)
Definition check_page (limit offset : option num) : result unit :=
  if match offset with Some n => num_lt n 0%Z | None => false end then throw "RangeError: offset must be non-negative"
  else if match limit with Some n => num_lt n 0%Z | None => false end then throw "RangeError: limit must be non-negative"
  else Ok tt.

End Compare.

(** ** The storage interface *)

Class IndexStorage (St : Type) := {
  initialize : ustring -> list IndexFieldDefinition -> eff St unit;
  put : ustring -> ustring -> value -> eff St unit;
  delete : ustring -> ustring -> eff St unit;
  query : ustring -> list FieldFilter -> option (list SortClause) -> option num -> option num -> eff St (list IndexEntry);
  get_entry : ustring -> ustring -> eff St (option value);
  clear : ustring -> eff St unit;
}.

(** ** [MemoryIndexStorage] *)

Definition stores : Type := list (ustring * list (ustring * value)).

Section Memory.
  Context `{RT : !Runtime}.

(** [_getStore] *)
Definition getStore (indexName : ustring) : eff stores (list (ustring * value)) :=
  let! s := get in
  match map_get indexName s with
  | Some store => ret store
  | None => let! _ := modify (map_set indexName []) in ret []
  end.

Definition memory_initialize (indexName : ustring) (_ : list IndexFieldDefinition) : eff stores unit :=
  modify (fun s => if map_has indexName s then s else map_set indexName [] s).

Definition memory_put (indexName documentPath : ustring) (fields : value) : eff stores unit :=
  let! store := getStore indexName in
  modify (map_set indexName (map_set documentPath fields store)).

Definition memory_delete (indexName documentPath : ustring) : eff stores unit :=
  modify (fun s => match map_get indexName s with
                   | Some store => map_set indexName (map_delete documentPath store) s
                   | None => s
                   end).

Definition memory_query (indexName : ustring) (filters : list FieldFilter) (sort : option (list SortClause))
    (limit offset : option num) : eff stores (list IndexEntry) :=
  let! s := get in
  match map_get indexName s with
  | None => ret []
  | Some store =>
      let! _ := lift (check_page limit offset) in
      let results := map (fun p => Entry p.1 p.2) (List.filter (fun p => matchesFilters p.2 filters) store) in
      ret (order_and_page results sort limit offset)
  end.

Definition memory_get (indexName documentPath : ustring) : eff stores (option value) :=
  let! s := get in
  match map_get indexName s with
  | None => ret None
  | Some store => ret (map_get documentPath store)
  end.

Definition memory_clear (indexName : ustring) : eff stores unit :=
  modify (fun s => if map_has indexName s then map_set indexName [] s else s).

Definition memory_close : eff stores unit := modify (fun _ => []).

#[export] Instance MemoryIndexStorage : IndexStorage stores := {
  initialize := memory_initialize;
  put := memory_put;
  delete := memory_delete;
  query := memory_query;
  get_entry := memory_get;
  clear := memory_clear;
}.

End Memory.
End Index.
