(* ===== verification/IndexManager.v ===== *)
(** * The index manager

    Models [packages/collabswarm-index/src/index-manager.ts]: [IndexManager] over
    any [IndexStorage], with its definitions, incremental updates, queries and live
    subscriptions.

    A method of the manager runs to its end before the next one starts. A query for
    a subscriber is started by [_notifySubscribers] and answered later: what it
    found waits in [inflight] until [deliver] hands it to the callback. *)
From stdpp Require Import base numbers list list_numbers strings.
From Stdlib Require Import ZArith Lia.
From S2P Require Import Prelude Index.

Open Scope list_scope.
Open Scope nat_scope.

Module IndexManager.
Import Index.

(** ** Building and comparing records *)

(** [obj[k] = x]. An array or a date gets a property only when one field's path
    extends another's; then the property is not kept. *)
Definition set_prop (v : value) (k : ustring) (x : value) : value :=
  match v with
  | Obj ps => Obj (map_set k x ps)
  | Arr l => match list_find (fun p => p.1 = k) (elements l) with
             | Some (i, _) => Arr (<[i := x]> l)
             | None => v
             end
  | _ => v
  end.

Fixpoint set_walk (v : value) (segments : list ustring) (x : value) : value :=
  match segments with
  | [] => v
  | [k] => set_prop v k x
  | k :: ks =>
      let child := get_prop v k in
      set_prop v k (set_walk (if is_object child then child else Obj []) ks x)
  end.

(** [_setNestedField] *)
Definition setNestedField (obj : value) (path : ustring) (x : value) : value := set_walk obj (split_dots path) x.

(** [_fieldsEqual] *)
Fixpoint fieldsEqual (a b : value) {struct a} : bool :=
  (length (own_props a) =? length (own_props b)) &&
  match a with
  | Obj ps =>
      (fix go (ps : list (ustring * value)) : bool :=
         match ps with
         | [] => true
         | (k, va) :: ps' =>
             let vb := get_prop b k in
             (strict_eq va vb ||
              match va, vb with
              | Date x, Date y => num_eq x y
              | _, _ => is_object va && is_object vb && fieldsEqual va vb
              end) && go ps'
         end) ps
  | Arr l =>
      (fix go (i : nat) (l : list value) : bool :=
         match l with
         | [] => true
         | va :: l' =>
             let vb := get_prop b (index_key i) in
             (strict_eq va vb ||
              match va, vb with
              | Date x, Date y => num_eq x y
              | _, _ => is_object va && is_object vb && fieldsEqual va vb
              end) && go (S i) l'
         end) 0 l
  | _ => true
  end.

(** The loop over [definition.fields] *)
Definition buildFields (definition : IndexDefinition) (snapshot : value) : value :=
  foldl (fun acc fd => setNestedField acc (fd_path fd) (extractField snapshot (fd_path fd))) (Obj []) (fields definition).

Section Manager.
  Context {DocType St : Type} `{Sto : !IndexStorage St} (extractor : DocType -> value).

(** ** State *)

Record manager := mk_manager {
  _storage : St;
  _definitions : list (ustring * IndexDefinition);
  _subscriptions : list (nat * QueryOptions);
  _nextSubscriptionId : nat;
  inflight : list (nat * QueryResult);
  delivered : list (nat * QueryResult);
}.

#[export] Instance settable_manager : Settable manager :=
  fun m => mk_manager (_storage m) (_definitions m) (_subscriptions m) (_nextSubscriptionId m) (inflight m) (delivered m).

Definition new_manager (storage : St) : manager := mk_manager storage [] [] 1 [] [].

Abbreviation method := (eff manager).

Definition on_storage {A} (m : eff St A) : method A :=
  fun s => let r := m (_storage s) in (r.1, s <| _storage := r.2 |>).

(** ** Definitions *)

Definition defineIndex (definition : IndexDefinition) : method unit :=
  let! s := get in
  match map_get (name definition) (_definitions s) with
  | Some existing =>
      if bool_decide (existing = definition) then ret tt
      else lift (throw "Index is already defined with a different configuration.")
  | None =>
      let! _ := modify (fun s => s <| _definitions := map_set (name definition) definition (_definitions s) |>) in
      on_storage (initialize (name definition) (fields definition))
  end.

Definition removeIndex (indexName : ustring) : method unit :=
  let! _ := modify (fun s => s <| _definitions := map_delete indexName (_definitions s) |>) in
  on_storage (clear indexName).

Definition getDefinitions (s : manager) : list IndexDefinition := (_definitions s).*2.

(** ** Queries *)

(** [_resolveIndexName]; an empty name is falsy. *)
Definition resolveIndexName (options : QueryOptions) (s : manager) : option ustring :=
  match q_indexName options with
  | Some ((_ :: _) as n) => if map_has n (_definitions s) then Some n else None
  | _ =>
      let first := fst <$> head (_definitions s) in
      match q_collectionPrefix options with
      | Some ((_ :: _) as p) =>
          match list_find (fun d => collectionPrefix d.2 = p) (_definitions s) with
          | Some (_, d) => Some d.1
          | None => first
          end
      | _ => first
      end
  end.

Definition query_ (options : QueryOptions) : method QueryResult :=
  let! s := get in
  match resolveIndexName options s with
  | None | Some [] => ret (Result [] 0)
  | Some indexName =>
      let! allEntries := on_storage (query indexName (filters options) (sort options) None None) in
      let paged := bool_decide (limit options <> None) ||
                   match offset options with Some n => num_lt 0%Z n | None => false end in
      let! resultEntries :=
        if paged then on_storage (query indexName (filters options) (sort options) (limit options) (offset options))
        else ret allEntries in
      ret (Result resultEntries (length allEntries))
  end.

(** ** Subscriptions *)

(** A started query; when it fails, that is logged. *)
Definition start_query (id : nat) (options : QueryOptions) : method unit :=
  catch (let! r := query_ options in modify (fun s => s <| inflight := inflight s ++ [(id, r)] |>))
        (fun _ => ret tt).

(** [_notifySubscribers] *)
Definition notifySubscribers : method unit :=
  let! s := get in
  for_each (fun _ sub => start_query sub.1 sub.2) tt (_subscriptions s).

Definition subscribe (options : QueryOptions) : method nat :=
  let! s := get in
  let id := _nextSubscriptionId s in
  let! _ := modify (fun s => s <| _nextSubscriptionId := S id |>
                              <| _subscriptions := map_set id options (_subscriptions s) |>) in
  let! _ := start_query id options in
  ret id.

(** The function that [subscribe] returns. *)
Definition unsubscribe (id : nat) : method unit :=
  modify (fun s => s <| _subscriptions := map_delete id (_subscriptions s) |>).

(** The [n]-th started query is answered. *)
Definition deliver (n : nat) : method unit :=
  let! s := get in
  match inflight s !! n with
  | None => ret tt
  | Some (id, r) =>
      let! _ := modify (fun s => s <| inflight := take n (inflight s) ++ drop (S n) (inflight s) |>) in
      when (map_has id (_subscriptions s)) (modify (fun s => s <| delivered := delivered s ++ [(id, r)] |>))
  end.

(** ** Updates *)

(** One turn of the loop of [updateIndex]; the accumulator is [changed]. *)
(** What follows the lookup of the previous entry. *)
Definition update_resume (documentPath indexName : ustring) (fields : value) (existing : option value)
    (changed : bool) : method bool :=
  if match existing with Some e => fieldsEqual e fields | None => false end then ret changed
  else
    let! _ := on_storage (put indexName documentPath fields) in
    ret true.

Definition update_one (documentPath : ustring) (snapshot : value) (changed : bool)
    (d : ustring * IndexDefinition) : method bool :=
  let (indexName, definition) := d in
  if negb (startsWith documentPath (collectionPrefix definition)) then ret changed
  else
    let fields := buildFields definition snapshot in
    let! existing := on_storage (get_entry indexName documentPath) in
    update_resume documentPath indexName fields existing changed.

Definition updateIndex (documentPath : ustring) (document : DocType) : method unit :=
  let snapshot := extractor document in
  let! s := get in
  let! changed := for_each (update_one documentPath snapshot) false (_definitions s) in
  when changed notifySubscribers.

Definition removeFromIndex (documentPath : ustring) : method unit :=
  let! s := get in
  let! _ := for_each (fun _ d => on_storage (delete d.1 documentPath)) tt (_definitions s) in
  notifySubscribers.

Definition rebuild_one (indexName : ustring) (definition : IndexDefinition) (d : ustring * DocType) : method unit :=
  if negb (startsWith d.1 (collectionPrefix definition)) then ret tt
  else on_storage (put indexName d.1 (buildFields definition (extractor d.2))).

Definition rebuildIndex (indexName : ustring) (documents : list (ustring * DocType)) : method unit :=
  let! s := get in
  match map_get indexName (_definitions s) with
  | None => ret tt
  | Some definition =>
      let! _ := on_storage (clear indexName) in
      let! _ := for_each (fun _ d => rebuild_one indexName definition d) tt documents in
      notifySubscribers
  end.

End Manager.
End IndexManager.
