(* ===== verification/IndexTheory.v ===== *)
(** * Theorems about local indexes

    About [Index] and [IndexManager]: a record built for an index has the document's
    value at every indexed path; comparing records sees every change of a scalar
    field; after any calls the in-memory index holds exactly the current documents;
    queries filter, order and page; nothing is delivered after [unsubscribe]. *)
From stdpp Require Import base numbers list list_numbers strings sorting.
From Stdlib Require Import ZArith QArith Qround Lia.
From S2P Require Import Prelude Index IndexManager.

Open Scope list_scope.
Open Scope nat_scope.

Module IndexTheory.
Import Index IndexManager.

(** ** Reading back a nested field *)

(** Two paths, neither of which is a prefix of the other. *)
Definition apart (js ks : list ustring) : Prop := ~ js `prefix_of` ks /\ ~ ks `prefix_of` js.

Lemma apart_cons j js ks : apart (j :: js) (j :: ks) <-> apart js ks.
Proof.
  unfold apart. assert (H : forall a b, (j :: a) `prefix_of` (j :: b) <-> a `prefix_of` b).
  { intros a b. split; [apply prefix_cons_inv_2|apply prefix_cons]. }
  by rewrite !H.
Qed.

Lemma apart_sym js ks : apart js ks -> apart ks js.
Proof. unfold apart. tauto. Qed.

Lemma apart_nonempty js ks : apart js ks -> js <> [].
Proof. intros [H _] ->. apply H, prefix_nil. Qed.

(** Objects lead to the last segment, or end where it is missing. *)
Fixpoint fresh (v : value) (ks : list ustring) : Prop :=
  match v, ks with
  | Obj ps, [k] => True
  | Obj ps, k :: ks' => map_get k ps = None \/ exists c, map_get k ps = Some c /\ fresh c ks'
  | _, _ => False
  end.

(** Every segment is there. *)
Fixpoint present (v : value) (ks : list ustring) : Prop :=
  match ks with
  | [] => True
  | k :: ks' => is_object v = true /\ exists c, map_get k (own_props v) = Some c /\ present c ks'
  end.

Lemma fresh_obj v ks : fresh v ks -> exists ps, v = Obj ps.
Proof. destruct v, ks; simpl; try done; eauto. Qed.

Lemma fresh_empty ks : ks <> [] -> fresh (Obj []) ks.
Proof. destruct ks as [|k [|]]; simpl; auto. Qed.

Lemma fresh_cons ps k k' ks : fresh (Obj ps) (k :: k' :: ks) =
  (map_get k ps = None \/ exists c, map_get k ps = Some c /\ fresh c (k' :: ks)).
Proof. done. Qed.

Lemma fresh_child ps k k' ks : fresh (Obj ps) (k :: k' :: ks) ->
  exists c, fresh c (k' :: ks) /\ (if is_object (get_prop (Obj ps) k) then get_prop (Obj ps) k else Obj []) = c /\
    (map_get k ps = None \/ map_get k ps = Some c).
Proof.
  rewrite fresh_cons. unfold get_prop. cbn [own_props]. intros [Hn|(c & Hc & Hf)].
  - rewrite Hn. exists (Obj []). split_and!; [by apply fresh_empty|done|by left].
  - rewrite Hc. destruct (fresh_obj _ _ Hf) as [qs ->]. exists (Obj qs). split_and!; auto.
Qed.

Lemma walk_undefined ks : walk Undefined ks = Undefined.
Proof. by destruct ks. Qed.

Lemma walk_obj ps k ks : walk (Obj ps) (k :: ks) = match map_get k ps with Some c => walk c ks | None => walk Undefined ks end.
Proof. cbn [walk is_object]. unfold get_prop. cbn [own_props]. by destruct (map_get k ps). Qed.

Lemma set_walk_obj ps k k' ks x :
  set_walk (Obj ps) (k :: k' :: ks) x =
  Obj (map_set k (set_walk (if is_object (get_prop (Obj ps) k) then get_prop (Obj ps) k else Obj []) (k' :: ks) x) ps).
Proof. done. Qed.

(** The written field is read back. *)
Lemma walk_set_same ks v x : fresh v ks -> walk (set_walk v ks x) ks = x /\ present (set_walk v ks x) ks.
Proof.
  revert v. induction ks as [|k ks IH]; intros v Hf; [by destruct v|].
  destruct (fresh_obj _ _ Hf) as [ps ->]. destruct ks as [|k' ks].
  - cbn [set_walk set_prop]. rewrite walk_obj, map_get_set_eq. split; [done|]. cbn [present own_props]. split; [done|].
    exists x. by rewrite map_get_set_eq.
  - destruct (fresh_child _ _ _ _ Hf) as (c & Hc & Ec & _). rewrite set_walk_obj, Ec, walk_obj.
    rewrite map_get_set_eq. destruct (IH c Hc) as [IH1 IH2]. split; [done|].
    cbn [present own_props]. split; [done|]. exists (set_walk c (k' :: ks) x). by rewrite map_get_set_eq.
Qed.

(** Other fields keep their value, and can still be written. *)
Lemma walk_set_other ks v x js : fresh v ks -> apart js ks ->
  walk (set_walk v ks x) js = walk v js /\ (present v js -> present (set_walk v ks x) js) /\
  (fresh v js -> fresh (set_walk v ks x) js).
Proof.
  revert v js. induction ks as [|k ks IH]; intros v js Hf Ha; [by destruct v|].
  destruct (fresh_obj _ _ Hf) as [ps ->]. destruct js as [|j js]; [by apply apart_nonempty in Ha|].
  assert (Hne : forall y, j <> k -> walk (Obj (map_set k y ps)) (j :: js) = walk (Obj ps) (j :: js) /\
    (present (Obj ps) (j :: js) -> present (Obj (map_set k y ps)) (j :: js)) /\
    (fresh (Obj ps) (j :: js) -> fresh (Obj (map_set k y ps)) (j :: js))).
  { intros y Hjk. rewrite !walk_obj. cbn [present own_props is_object].
    destruct js; rewrite ?fresh_cons, !map_get_set_ne by done; done. }
  destruct ks as [|k' ks].
  - cbn [set_walk set_prop]. apply Hne. intros ->. apply apart_cons, apart_sym, apart_nonempty in Ha. done.
  - rewrite set_walk_obj. destruct (decide (j = k)) as [->|]; [|by apply Hne].
    apply apart_cons in Ha. destruct (fresh_child _ _ _ _ Hf) as (c & Hc & Ec & Hm). rewrite Ec.
    destruct (IH c js Hc Ha) as (I1 & I2 & I3). rewrite !walk_obj, map_get_set_eq, I1.
    cbn [present own_props is_object]. destruct js as [|j' js]; [by apply apart_nonempty in Ha|].
    rewrite !fresh_cons, !map_get_set_eq. destruct Hm as [Hm|Hm].
    + rewrite Hm. unfold get_prop in Ec. cbn [own_props] in Ec. rewrite Hm in Ec. subst c. split_and!.
      * cbn [is_object]. by rewrite walk_obj, !walk_undefined.
      * intros [_ (c & [=] & _)].
      * intros _. right. eexists. split; [done|]. by apply I3, fresh_empty.
    + rewrite Hm. split_and!; [done| |].
      * intros [_ (c' & [= <-] & Hp)]. split; [done|]. eexists. split; [done|]. auto.
      * intros [[=]|(c' & [= <-] & Hf')]. right. eauto.
Qed.

(** No indexed path is another one or extends it. *)
Definition prefix_free (d : IndexDefinition) : Prop :=
  forall i j f g, fields d !! i = Some f -> fields d !! j = Some g -> i <> j ->
    apart (split_dots (fd_path f)) (split_dots (fd_path g)).

Lemma split_nonempty s acc : split_from acc s <> [].
Proof. revert acc. induction s as [|c s IH]; intros acc; simpl; [done|]. by destruct (c =? 46)%Z. Qed.

Lemma fields_loop snapshot fs v :
  (forall f, f ∈ fs -> fresh v (split_dots (fd_path f))) ->
  (forall i j f g, fs !! i = Some f -> fs !! j = Some g -> i <> j -> apart (split_dots (fd_path f)) (split_dots (fd_path g))) ->
  let r := foldl (fun acc fd => setNestedField acc (fd_path fd) (extractField snapshot (fd_path fd))) v fs in
  (forall f, f ∈ fs -> extractField r (fd_path f) = extractField snapshot (fd_path f) /\ present r (split_dots (fd_path f))) /\
  (forall js, Forall (fun f => apart js (split_dots (fd_path f))) fs -> walk r js = walk v js /\ (present v js -> present r js)) /\
  (fs <> [] -> exists ps, r = Obj ps).
Proof.
  revert v. induction fs as [|f fs IH]; intros v Hf Ha r; simpl in r.
  { split_and!; [by intros ? ?%elem_of_nil|done|done]. }
  set (ks := split_dots (fd_path f)) in *. assert (Hfv : fresh v ks) by (apply Hf; by left).
  set (v1 := setNestedField v (fd_path f) (extractField snapshot (fd_path f))) in r.
  assert (Hv1 : forall js, apart js ks -> walk v1 js = walk v js /\ (present v js -> present v1 js) /\ (fresh v js -> fresh v1 js))
    by (intros js; by apply walk_set_other).
  assert (Hapart : forall g, g ∈ fs -> apart (split_dots (fd_path g)) ks).
  { intros g (i & Hi)%list_elem_of_lookup. by apply (Ha (S i) 0 g f). }
  destruct (IH v1) as (I1 & I2 & I3).
  { intros g Hg. apply Hv1; [by apply Hapart|]. apply Hf. by right. }
  { intros i j g h Hi Hj Hij. apply (Ha (S i) (S j)); [done..|lia]. }
  destruct (walk_set_same ks v (extractField snapshot (fd_path f)) Hfv) as [Hw Hp].
  split_and!.
  - intros g [->|Hg]%elem_of_cons; [|by apply I1].
    destruct (I2 ks) as [E1 E2]; [by apply Forall_forall; intros g Hg; apply apart_sym, Hapart|].
    split; [unfold extractField at 1; fold ks; unfold r; rewrite E1; exact Hw|by apply E2].
  - intros js [Hjs HF]%Forall_cons. destruct (I2 js HF) as [E1 E2]. destruct (Hv1 js Hjs) as (E3 & E4 & _).
    split; [unfold r; rewrite E1; exact E3|by auto].
  - intros _. destruct fs as [|g fs]; [|by apply I3]. unfold r. simpl. unfold v1, setNestedField. fold ks.
    destruct (fresh_obj _ _ Hfv) as [ps ->]. destruct ks as [|k [|]]; simpl; eauto.
Qed.

(** The record of a document has its value at every indexed path. *)
Lemma buildFields_spec d snapshot f : prefix_free d -> f ∈ fields d ->
  extractField (buildFields d snapshot) (fd_path f) = extractField snapshot (fd_path f) /\
  present (buildFields d snapshot) (split_dots (fd_path f)).
Proof.
  intros Hd Hf. unfold buildFields. apply fields_loop; [|exact Hd|done].
  intros g _. apply fresh_empty, split_nonempty.
Qed.

(** ** Comparing records *)

(** One turn of the loop of [_fieldsEqual] lets [va] and [vb] pass. *)
Definition same (va vb : value) : bool :=
  strict_eq va vb ||
  match va, vb with
  | Date x, Date y => num_eq x y
  | _, _ => is_object va && is_object vb && fieldsEqual va vb
  end.

Lemma fieldsEqual_props a b :
  fieldsEqual a b = true -> forallb (fun p => same p.2 (get_prop b p.1)) (own_props a) = true.
Proof.
  destruct a as [| | | | | |l|ps]; cbn [fieldsEqual own_props]; intros [_ H]%andb_true_iff; try done.
  - unfold elements. rewrite <- H. clear H.
    change (fun i v => (index_key i, v)) with (fun i v => (index_key (0 + i), v) : ustring * value). generalize 0.
    induction l as [|v l IH]; intros i; [done|]. rewrite imap_cons. cbn [forallb fst snd]. rewrite Nat.add_0_r.
    f_equal. rewrite <- IH. f_equal. apply imap_ext. intros j x _. unfold compose. do 2 f_equal. lia.
  - rewrite <- H. clear H. induction ps as [|[k v] ps IH]; [done|]. cbn [forallb fst snd]. by rewrite IH.
Qed.

Lemma fieldsEqual_prop a b k va :
  fieldsEqual a b = true -> map_get k (own_props a) = Some va -> same va (get_prop b k) = true.
Proof.
  intros He%fieldsEqual_props Hk%map_get_elem_of. rewrite forallb_forall in He.
  apply list_elem_of_In in Hk. exact (He _ Hk).
Qed.

(** Records that are taken for equal have equal fields. *)
Lemma fieldsEqual_walk ks a b :
  fieldsEqual a b = true -> is_object b = true -> ks <> [] -> present a ks -> same (walk a ks) (walk b ks) = true.
Proof.
  revert a b. induction ks as [|k ks IH]; intros a b He Hb Hne Hp; [done|].
  destruct Hp as (Ha & c & Hc & Hp). pose proof (fieldsEqual_prop _ _ _ _ He Hc) as Hs.
  cbn [walk]. rewrite Ha, Hb. assert (Eg : get_prop a k = c) by (unfold get_prop; by rewrite Hc). rewrite Eg.
  destruct ks as [|k' ks]; [done|]. destruct Hp as (Hco & c' & Hc' & Hp').
  assert (Hfe : fieldsEqual c (get_prop b k) = true /\ is_object (get_prop b k) = true).
  { unfold same in Hs. destruct c as [| | | | |x|l|ps]; try done.
    - destruct (get_prop b k); simpl in Hs; try done; by apply andb_true_iff in Hs as [? ?].
    - destruct (get_prop b k); simpl in Hs; try done; by apply andb_true_iff in Hs as [? ?]. }
  destruct Hfe as [H1 H2]. apply IH; [done..|]. split; [done|]. eauto.
Qed.

(** ** Scalars *)

Definition scalar (v : value) : bool := negb (is_object v).

(** Equality of scalars up to the representation of a number. *)
Inductive value_eq : value -> value -> Prop :=
| ve_refl v : value_eq v v
| ve_num q r : (q == r)%Q -> value_eq (Num (Fin q)) (Num (Fin r)).

Lemma same_scalar a b : scalar b = true -> same a b = true -> value_eq a b.
Proof.
  unfold same. intros Hb Hs. assert (He : strict_eq a b = true).
  { destruct (strict_eq a b); [done|]. exfalso. by destruct a, b; simpl in *; rewrite ?andb_false_r in Hs. }
  destruct a, b; simpl in He; try done; try constructor.
  - apply Bool.eqb_prop in He as ->. constructor.
  - destruct n, n0; simpl in He; try done; try constructor. by apply Qeq_bool_eq.
  - apply bool_decide_eq_true in He as ->. constructor.
Qed.

Section Filters.
  Context `{RT : !Runtime}.

#[local] Instance Qle_bool_proper : Proper (Qeq ==> Qeq ==> eq) Qle_bool.
Proof. exact Qleb_comp. Qed.

Lemma num_lt_proper q r n : (q == r)%Q -> num_lt (Fin q) n = num_lt (Fin r) n /\ num_lt n (Fin q) = num_lt n (Fin r).
Proof. intros E. destruct n; simpl; [by rewrite E|done..]. Qed.

Lemma strict_eq_proper a b w : value_eq a b -> strict_eq a w = strict_eq b w.
Proof.
  intros [v|q r E]; [done|]. destruct w as [| | |[]| | | |]; simpl; try done.
  apply eq_true_iff_eq. rewrite !Qeq_bool_iff. by rewrite E.
Qed.

Lemma js_less_proper a b w : value_eq a b -> js_less a w = js_less b w /\ js_less w a = js_less w b.
Proof.
  intros [v|q r E]; [done|]. unfold js_less. cbn [to_primitive to_number].
  destruct (to_primitive w) eqn:Ew; cbn [to_number is_nan orb]; rewrite ?orb_false_r;
    (split; [|]; repeat case_match; try done; f_equal; by apply num_lt_proper).
Qed.

(** A filter cannot tell such values apart. *)
Lemma matchesFilter_proper r s filter :
  value_eq (extractField r (f_path filter)) (extractField s (f_path filter)) ->
  matchesFilter r filter = matchesFilter s filter.
Proof.
  unfold matchesFilter. generalize (extractField r (f_path filter)) (extractField s (f_path filter)).
  intros a b Hv. assert (Hn : value_eq (normalize a) (normalize b) /\ nullish (normalize a) = nullish (normalize b)).
  { destruct Hv; [split; [constructor|done]|]. simpl. split; [by constructor|done]. }
  destruct Hn as [Hn Hnull].
  assert (Hr : forall (cmp : value -> value -> bool) w,
    (forall x y z, value_eq x y -> cmp x z = cmp y z) -> range_filter cmp a w = range_filter cmp b w).
  { intros cmp w Hc. unfold range_filter. rewrite Hnull. f_equal. by apply Hc. }
  destruct (operator filter).
  - by apply strict_eq_proper.
  - by rewrite (strict_eq_proper a b).
  - apply Hr. intros x y z Hxy. unfold js_gt. by rewrite (proj2 (js_less_proper x y z Hxy)).
  - apply Hr. intros x y z Hxy. unfold js_gte. by rewrite (proj1 (js_less_proper x y z Hxy)).
  - apply Hr. intros x y z Hxy. unfold js_lt. by rewrite (proj1 (js_less_proper x y z Hxy)).
  - apply Hr. intros x y z Hxy. unfold js_lte. by rewrite (proj2 (js_less_proper x y z Hxy)).
  - by destruct Hv.
  - destruct Hv as [|q q' E]; [done|]. destruct (f_value filter) as [| | | | | |l|]; try done.
    induction l as [|x l IH]; [done|]. simpl. rewrite IH. f_equal. unfold same_value_zero. f_equal.
    destruct x as [| | |[]| | | |]; simpl; try done. apply eq_true_iff_eq. rewrite !Qeq_bool_iff. by rewrite E.
  - by destruct Hv.
  - done.
Qed.

End Filters.

(** ** The in-memory storage *)

Definition entry (st : stores) (n p : ustring) : option value := map_get n st ≫= map_get p.

Section MemoryFacts.
  Context `{RT : !Runtime}.

(** Stores list every document once. *)
Definition stores_ok (st : stores) : Prop := forall n store, map_get n st = Some store -> NoDup store.*1.

Lemma stores_ok_set n store st : stores_ok st -> NoDup store.*1 -> stores_ok (map_set n store st).
Proof. intros Hok Hs n' store'. rewrite map_get_set. case_decide; [by intros [= <-]|apply Hok]. Qed.

Lemma memory_get_spec n p st : memory_get n p st = (Ok (entry st n p), st).
Proof. unfold memory_get, bind, get, entry. by destruct (map_get n st). Qed.

Lemma memory_put_spec n p v st : exists st', memory_put n p v st = (Ok tt, st') /\ (stores_ok st -> stores_ok st') /\
  forall n' p', entry st' n' p' = if decide (n' = n /\ p' = p) then Some v else entry st n' p'.
Proof.
  unfold memory_put, getStore, bind, get, modify, ret.
  destruct (map_get n st) as [store|] eqn:E; eexists; (split; [done|]).
  - split; [intros Hok; apply stores_ok_set, NoDup_map_set, (Hok _ _ E); done|]. intros n' p'. unfold entry.
    rewrite map_get_set. destruct (decide (n' = n)) as [->|]; [|by rewrite decide_False by naive_solver]. simpl.
    rewrite map_get_set, E. simpl. repeat case_decide; naive_solver.
  - split; [intros Hok; repeat apply stores_ok_set; [done|constructor|apply NoDup_map_set; constructor]|].
    intros n' p'. unfold entry. rewrite !map_get_set.
    destruct (decide (n' = n)) as [->|]; [|by rewrite decide_False by naive_solver].
    rewrite E. simpl. repeat case_decide; naive_solver.
Qed.

Lemma memory_delete_spec n p st : exists st', memory_delete n p st = (Ok tt, st') /\ (stores_ok st -> stores_ok st') /\
  forall n' p', entry st' n' p' = if decide (n' = n /\ p' = p) then None else entry st n' p'.
Proof.
  unfold memory_delete, modify. eexists. split; [done|]. unfold entry.
  destruct (map_get n st) as [store|] eqn:E; (split; [|intros n' p']).
  - intros Hok. apply stores_ok_set, NoDup_map_delete, (Hok _ _ E). done.
  - rewrite map_get_set. destruct (decide (n' = n)) as [->|]; [|by rewrite decide_False by naive_solver].
    rewrite E. simpl. rewrite map_get_delete. repeat case_decide; naive_solver.
  - done.
  - case_decide as H; [|done]. destruct H as [-> ->]. by rewrite E.
Qed.

Lemma memory_clear_spec n st : exists st', memory_clear n st = (Ok tt, st') /\ (stores_ok st -> stores_ok st') /\
  forall n' p', entry st' n' p' = if decide (n' = n) then None else entry st n' p'.
Proof.
  unfold memory_clear, modify. eexists. split; [done|]. unfold entry.
  destruct (map_has n st) eqn:E; (split; [|intros n' p']).
  - intros Hok. apply stores_ok_set; [done|constructor].
  - rewrite map_get_set. by case_decide.
  - done.
  - apply map_has_false, map_get_None in E. case_decide as H; [|done]. subst. by rewrite E.
Qed.

Lemma memory_initialize_spec n fs st : exists st', memory_initialize n fs st = (Ok tt, st') /\ (stores_ok st -> stores_ok st') /\
  forall n' p', entry st' n' p' = entry st n' p'.
Proof.
  unfold memory_initialize, modify. eexists. split; [done|]. unfold entry.
  destruct (map_has n st) eqn:E; (split; [|intros n' p']); [done|done| |].
  - intros Hok. apply stores_ok_set; [done|constructor].
  - apply map_has_false, map_get_None in E. rewrite map_get_set. destruct (decide (n' = n)) as [->|]; [by rewrite E|done].
Qed.

(** What a query without order and page finds. *)
Lemma memory_query_spec n filters st : stores_ok st -> exists l,
  memory_query n filters None None None st = (Ok l, st) /\ NoDup (documentPath <$> l) /\
  forall p r, Entry p r ∈ l <-> entry st n p = Some r /\ matchesFilters r filters = true.
Proof.
  intros Hok. unfold memory_query, bind, get, ret, lift, entry. destruct (map_get n st) as [store|] eqn:E; simpl.
  - eexists. split; [done|]. specialize (Hok _ _ E). clear E. split.
    + change (map (fun p => Entry p.1 p.2) ?l) with ((fun p => Entry p.1 p.2) <$> l).
      rewrite <- list_fmap_compose. eapply (sublist_NoDup _ (store.*1)); [done|].
      apply fmap_sublist, list_filter_sublist.
    + intros p r. rewrite list_elem_of_In, in_map_iff. setoid_rewrite filter_In. split.
      * intros ([p' r'] & [= <- <-] & Hin & Hm). simpl in Hm. split; [|done].
        apply elem_of_map_get; [done|by apply list_elem_of_In].
      * intros [Hp Hm]. exists (p, r). split; [done|]. split; [|done].
        by apply list_elem_of_In, map_get_elem_of.
  - exists []. split; [done|]. split; [constructor|]. intros p r. split; [by intros ?%elem_of_nil|by intros [? _]].
Qed.

End MemoryFacts.

(** ** Calls *)

Section Calls.
  Context {DocType St : Type} `{Sto : !IndexStorage St} (extractor : DocType -> value).

(** The calls on a manager; a [Map] of documents has every path once. *)
Inductive call :=
| Define (d : IndexDefinition)
| Remove (n : ustring)
| Update (p : ustring) (doc : DocType)
| Forget (p : ustring)
| Rebuild (n : ustring) (docs : list (ustring * DocType))
| Subscribe (o : QueryOptions)
| Unsubscribe (id : nat)
| Deliver (k : nat)
| Ask (o : QueryOptions).

Definition run_call (c : call) : eff (@manager St) unit :=
  match c with
  | Define d => defineIndex d
  | Remove n => removeIndex n
  | Update p doc => updateIndex extractor p doc
  | Forget p => removeFromIndex p
  | Rebuild n docs => rebuildIndex extractor n docs
  | Subscribe o => let! _ := subscribe o in ret tt
  | Unsubscribe id => unsubscribe id
  | Deliver k => deliver k
  | Ask o => let! _ := query_ o in ret tt
  end.

End Calls.

#[local] Arguments memory_put : simpl never.
#[local] Arguments memory_delete : simpl never.
#[local] Arguments memory_clear : simpl never.
#[local] Arguments memory_initialize : simpl never.
#[local] Arguments memory_get : simpl never.
#[local] Arguments memory_query : simpl never.

(** ** The index is a view of the current documents *)

Section View.
  Context `{RT : !Runtime} {DocType : Type} (extractor : DocType -> value).

  Abbreviation managerT := (@manager stores).

Definition call_ok (c : @call DocType) : Prop :=
  match c with Define d => prefix_free d | Rebuild _ docs => NoDup docs.*1 | _ => True end.

(** The abstract state: the definitions, and for each index the documents in it. *)
Record view := View {
  defined : list (ustring * IndexDefinition);
  holds : ustring -> ustring -> option DocType;
}.

Definition in_prefix (v : view) (n p : ustring) : bool :=
  match map_get n (defined v) with Some d => startsWith p (collectionPrefix d) | None => false end.

Definition view_step (v : view) (c : @call DocType) : view :=
  match c with
  | Define d => if map_has (name d) (defined v) then v else View (map_set (name d) d (defined v)) (holds v)
  | Remove n => View (map_delete n (defined v)) (fun n' p => if decide (n' = n) then None else holds v n' p)
  | Update p doc => View (defined v) (fun n p' => if bool_decide (p' = p) && in_prefix v n p then Some doc else holds v n p')
  | Forget p => View (defined v) (fun n p' => if bool_decide (p' = p) && map_has n (defined v) then None else holds v n p')
  | Rebuild n docs =>
      if map_has n (defined v)
      then View (defined v) (fun n' p => if decide (n' = n) then (if in_prefix v n p then map_get p docs else None) else holds v n' p)
      else v
  | _ => v
  end.

Definition empty_view : view := View [] (fun _ _ => None).

(** The record stands for the document: built from it, or from one that the manager
    took for equal. *)
Definition stands_for (d : IndexDefinition) (r : value) (doc : DocType) : Prop :=
  exists old, r = buildFields d (extractor old) /\
    (extractor old = extractor doc \/ fieldsEqual r (buildFields d (extractor doc)) = true).

Record refines (s : managerT) (v : view) : Prop := {
  rf_defs : _definitions s = defined v;
  rf_keys : NoDup (defined v).*1;
  rf_free n d : map_get n (defined v) = Some d -> prefix_free d;
  rf_stores : stores_ok (_storage s);
  rf_none n p : map_get n (defined v) = None -> holds v n p = None;
  rf_entry n p : match holds v n p with
                 | None => entry (_storage s) n p = None
                 | Some doc => exists d r, map_get n (defined v) = Some d /\ entry (_storage s) n p = Some r /\ stands_for d r doc
                 end;
}.

(** Calls that only read leave the index alone. *)
Definition idle (s s' : managerT) : Prop := _storage s' = _storage s /\ _definitions s' = _definitions s.

#[local] Instance idle_preorder : PreOrder idle.
Proof. split; [done|]. intros a b c [] []. split; congruence. Qed.

Lemma query_storage_idle n fs so l o : steps idle (on_storage (memory_query n fs so l o) : eff managerT _).
Proof.
  intros s. unfold on_storage. split; [simpl|done]. unfold memory_query, bind, get, lift, ret.
  destruct (map_get n (_storage s)); [|done]. by destruct (check_page l o).
Qed.
#[local] Hint Resolve query_storage_idle : steps.

Lemma query_idle o : steps idle (query_ o : eff managerT _).
Proof. unfold query_. simpl. steps_tac. Qed.
#[local] Hint Resolve query_idle : steps.

Lemma start_query_idle id o : steps idle (start_query id o : eff managerT _).
Proof. unfold start_query. steps_tac. by apply steps_modify. Qed.
#[local] Hint Resolve start_query_idle : steps.

Lemma notify_idle : steps idle (notifySubscribers : eff managerT _).
Proof. unfold notifySubscribers. steps_tac. Qed.
#[local] Hint Resolve notify_idle : steps.

Lemma refines_idle s s' v : idle s s' -> refines s v -> refines s' v.
Proof. intros [Es Ed] [H1 H2 H3 H4 H5 H6]. split; rewrite ?Es, ?Ed; done. Qed.

Lemma on_storage_ok {A} (m : eff stores A) (s : managerT) a st' :
  m (_storage s) = (Ok a, st') -> on_storage m s = (Ok a, s <| _storage := st' |>).
Proof. intros E. unfold on_storage. by rewrite E. Qed.

(** One index after [updateIndex]. *)
Definition updated (e : option value) (d : IndexDefinition) (snapshot : value) : value :=
  match e with
  | Some r => if fieldsEqual r (buildFields d snapshot) then r else buildFields d snapshot
  | None => buildFields d snapshot
  end.

Lemma update_one_spec p snapshot changed n d (s : managerT) : exists c st',
  update_one p snapshot changed (n, d) s = (Ok c, s <| _storage := st' |>) /\
  (stores_ok (_storage s) -> stores_ok st') /\
  forall n' p', entry st' n' p' =
    if decide (n' = n /\ p' = p) then
      (if startsWith p (collectionPrefix d) then Some (updated (entry (_storage s) n p) d snapshot) else entry (_storage s) n p)
    else entry (_storage s) n' p'.
Proof.
  unfold update_one, update_resume, on_storage. simpl. destruct (startsWith p (collectionPrefix d)); cbn [negb].
  - unfold bind at 1. rewrite memory_get_spec. simpl. unfold updated.
    destruct (entry (_storage s) n p) as [r|] eqn:Er; [destruct (fieldsEqual r _)|].
    + exists changed, (_storage s). split; [by destruct s|]. split; [done|]. intros n' p'. case_decide as H; [|done]. by destruct H as [-> ->].
    + destruct (memory_put_spec n p (buildFields d snapshot) (_storage s)) as (st' & E & Hok & He). unfold bind. simpl.
      rewrite E. exists true, st'. by split.
    + destruct (memory_put_spec n p (buildFields d snapshot) (_storage s)) as (st' & E & Hok & He). unfold bind. simpl.
      rewrite E. exists true, st'. by split.
  - exists changed, (_storage s). split; [by destruct s|]. split; [done|]. intros n' p'. case_decide as H; [|done]. by destruct H as [-> ->].
Qed.

Lemma update_loop p snapshot defs changed (s : managerT) : NoDup defs.*1 -> exists c st',
  for_each (update_one p snapshot) changed defs s = (Ok c, s <| _storage := st' |>) /\
  (stores_ok (_storage s) -> stores_ok st') /\
  forall n' p', entry st' n' p' =
    match map_get n' defs with
    | Some d => if decide (p' = p /\ startsWith p (collectionPrefix d) = true)
                then Some (updated (entry (_storage s) n' p) d snapshot) else entry (_storage s) n' p'
    | None => entry (_storage s) n' p'
    end.
Proof.
  revert changed s. induction defs as [|[n d] defs IH]; intros changed s Hnd.
  { exists changed, (_storage s). split; [by destruct s|]. done. }
  apply NoDup_cons in Hnd as [Hn Hnd]. destruct (update_one_spec p snapshot changed n d s) as (c & st1 & E1 & Hok1 & He1).
  destruct (IH c (s <| _storage := st1 |>) Hnd) as (c2 & st2 & E2 & Hok2 & He2).
  change (_storage (s <| _storage := st1 |>)) with st1 in *.
  exists c2, st2. cbn [for_each]. erewrite bind_ok by exact E1. rewrite E2. split; [done|]. split; [auto|]. intros n' p'. rewrite He2, !He1.
  destruct (decide (n' = n)) as [->|Hne].
  - apply map_get_None in Hn. cbn in Hn. cbn [map_get]. rewrite Hn, (decide_True (P := n = n)) by done.
    destruct (startsWith p (collectionPrefix d)); repeat case_decide; naive_solver.
  - cbn [map_get]. rewrite (decide_False (P := n' = n)) by done. rewrite !(decide_False (P := n' = n /\ _)) by naive_solver. done.
Qed.

Lemma forget_loop p (defs : list (ustring * IndexDefinition)) (s : managerT) : exists st',
  for_each (fun _ d => on_storage (memory_delete d.1 p)) tt defs s = (Ok tt, s <| _storage := st' |>) /\
  (stores_ok (_storage s) -> stores_ok st') /\
  forall n' p', entry st' n' p' = if bool_decide (p' = p) && map_has n' defs then None else entry (_storage s) n' p'.
Proof.
  revert s. induction defs as [|[n d] defs IH]; intros s.
  { exists (_storage s). split; [by destruct s|]. split; [done|]. intros. by rewrite andb_false_r. }
  destruct (memory_delete_spec n p (_storage s)) as (st1 & E1 & Hok1 & He1).
  destruct (IH (s <| _storage := st1 |>)) as (st2 & E2 & Hok2 & He2).
  change (_storage (s <| _storage := st1 |>)) with st1 in *.
  exists st2. cbn [for_each]. rewrite (bind_ok _ _ s tt (s <| _storage := st1 |>)) by (unfold on_storage; cbn [fst snd]; by rewrite E1).
  rewrite E2. split; [done|]. split; [auto|]. intros n' p'. rewrite He2, He1. unfold map_has. cbn [map_get].
  destruct (bool_decide_reflect (p' = p)) as [->|]; cbn [andb]; [|by rewrite decide_False by (intros [_ ?]; done)].
  destruct (decide (n' = n)) as [->|].
  - rewrite decide_True by done. by destruct (map_get n defs).
  - by rewrite decide_False by (intros [? _]; done).
Qed.

Lemma rebuild_loop n d docs (s : managerT) : NoDup docs.*1 -> exists st',
  for_each (fun _ x => rebuild_one extractor n d x) tt docs s = (Ok tt, s <| _storage := st' |>) /\
  (stores_ok (_storage s) -> stores_ok st') /\
  forall n' p', entry st' n' p' =
    match (if decide (n' = n /\ startsWith p' (collectionPrefix d) = true) then map_get p' docs else None) with
    | Some doc => Some (buildFields d (extractor doc))
    | None => entry (_storage s) n' p'
    end.
Proof.
  revert s. induction docs as [|[p doc] docs IH]; intros s Hnd.
  { exists (_storage s). split; [by destruct s|]. split; [done|]. intros. by case_decide. }
  apply NoDup_cons in Hnd as [Hp Hnd]. apply map_get_None in Hp. cbn in Hp.
  assert (Hone : exists st1, rebuild_one extractor n d (p, doc) s = (Ok tt, s <| _storage := st1 |>) /\
    (stores_ok (_storage s) -> stores_ok st1) /\
    forall n' p', entry st1 n' p' = if decide (n' = n /\ p' = p /\ startsWith p (collectionPrefix d) = true)
      then Some (buildFields d (extractor doc)) else entry (_storage s) n' p').
  { unfold rebuild_one. cbn [fst snd]. destruct (startsWith p (collectionPrefix d)); cbn [negb].
    - destruct (memory_put_spec n p (buildFields d (extractor doc)) (_storage s)) as (st' & E & Hok & He).
      exists st'. unfold on_storage. simpl. rewrite E. split; [done|]. split; [done|]. intros n' p'. rewrite He.
      repeat case_decide; try done; exfalso; tauto.
    - exists (_storage s). split; [by destruct s|]. split; [done|]. intros n' p'. case_decide as Hc; [|done]. by destruct Hc as (_ & _ & [=]). }
  destruct Hone as (st1 & E1 & Hok1 & He1). destruct (IH (s <| _storage := st1 |>) Hnd) as (st2 & E2 & Hok2 & He2).
  change (_storage (s <| _storage := st1 |>)) with st1 in *.
  exists st2. cbn [for_each]. erewrite bind_ok by exact E1. rewrite E2. split; [done|]. split; [auto|].
  intros n' p'. rewrite He2, He1. cbn [map_get]. destruct (decide (p' = p)) as [->|].
  - rewrite Hp. destruct (decide (n' = n)) as [->|].
    + destruct (startsWith p (collectionPrefix d)); repeat case_decide; try done; exfalso; tauto.
    + rewrite !decide_False by (intros [? _]; done). done.
  - rewrite (decide_False (P := _ /\ p' = p /\ _)) by naive_solver. done.
Qed.

(** Defining, or removing, an index. *)
Lemma define_refines d (s : managerT) v : prefix_free d -> refines s v -> refines (defineIndex d s).2 (view_step v (Define d)).
Proof.
  intros Hfree [H1 H2 H3 H4 H5 H6]. unfold defineIndex. rewrite (bind_ok _ _ s s s) by done. cbn [view_step]. unfold map_has.
  rewrite H1. destruct (map_get (name d) (defined v)) as [e|] eqn:Ee; [by case_bool_decide; split|].
  rewrite bind_modify. destruct (memory_initialize_spec (name d) (fields d) (_storage s)) as (st' & E & Hok & He).
  rewrite (on_storage_ok _ _ tt st') by exact E. rewrite H1.
  split; simpl; [done|by apply NoDup_map_set| |auto| |].
  - intros n d'. rewrite map_get_set. case_decide; [by intros [= <-]|apply H3].
  - intros n p. rewrite map_get_set. case_decide; [done|apply H5].
  - intros n p. specialize (H6 n p). rewrite He. destruct (holds v n p) as [doc|]; [|done].
    destruct H6 as (d' & r & Hd & Hr). exists d', r. rewrite map_get_set_ne; [done|]. intros ->. by rewrite Ee in Hd.
Qed.

Lemma remove_refines n (s : managerT) v : refines s v -> refines (removeIndex n s).2 (view_step v (Remove n)).
Proof.
  intros [H1 H2 H3 H4 H5 H6]. unfold removeIndex. rewrite bind_modify.
  destruct (memory_clear_spec n (_storage s)) as (st' & E & Hok & He).
  rewrite (on_storage_ok _ _ tt st') by exact E. rewrite H1.
  split; simpl; [done|by apply NoDup_map_delete| |auto| |].
  - intros n' d'. rewrite map_get_delete. case_decide; [done|apply H3].
  - intros n' p. rewrite map_get_delete. case_decide; [done|apply H5].
  - intros n' p. specialize (H6 n' p). rewrite He. case_decide; [done|]. rewrite map_get_delete, decide_False by done. done.
Qed.

Lemma stands_for_updated d r e doc : (forall r, e = Some r -> exists old, r = buildFields d (extractor old)) ->
  updated e d (extractor doc) = r -> stands_for d r doc.
Proof.
  intros He <-. unfold updated, stands_for. destruct e as [r|]; [|by exists doc; auto].
  destruct (He r eq_refl) as [old ->]. destruct (fieldsEqual _ _) eqn:Eq; [by exists old; auto|by exists doc; auto].
Qed.

Lemma update_refines p doc (s : managerT) v : refines s v -> refines (updateIndex extractor p doc s).2 (view_step v (Update p doc)).
Proof.
  intros [H1 H2 H3 H4 H5 H6]. unfold updateIndex. cbv zeta. rewrite (bind_ok _ _ s s s) by done. rewrite H1.
  destruct (update_loop p (extractor doc) (defined v) false s H2) as (c & st' & E & Hok & He).
  rewrite (bind_ok _ _ _ _ _ E). eapply refines_idle; [apply (steps_when idle c notifySubscribers); auto with steps|].
  split; simpl; [done|done|done|auto| |].
  - intros n q Hn. unfold in_prefix. rewrite Hn, andb_false_r. by apply H5.
  - intros n q. rewrite He. unfold in_prefix. specialize (H6 n q) as Hq. destruct (map_get n (defined v)) as [d|] eqn:Ed.
    + destruct (bool_decide_reflect (q = p)) as [->|]; cbn [andb]; [|by rewrite decide_False by tauto].
      destruct (startsWith p (collectionPrefix d)) eqn:Ep; [rewrite decide_True by done|by rewrite decide_False by (intros [_ [=]])].
      exists d. eexists. split; [done|]. split; [done|]. eapply stands_for_updated; [|done].
      intros r Hr. rewrite Hr in Hq. destruct (holds v n p); [|done]. destruct Hq as (d' & r' & [= <-] & [= <-] & old & -> & _). eauto.
    + by rewrite andb_false_r.
Qed.

Lemma forget_refines p (s : managerT) v : refines s v -> refines (removeFromIndex p s).2 (view_step v (Forget p)).
Proof.
  intros [H1 H2 H3 H4 H5 H6]. unfold removeFromIndex. rewrite (bind_ok _ _ s s s) by done. rewrite H1.
  destruct (forget_loop p (defined v) s) as (st' & E & Hok & He). rewrite (bind_ok _ _ _ _ _ E).
  eapply refines_idle; [apply notify_idle|]. split; simpl; [done|done|done|auto| |].
  - intros n q Hn. destruct (_ && _); [done|by apply H5].
  - intros n q. rewrite He. specialize (H6 n q). by destruct (_ && _).
Qed.

Lemma rebuild_refines n docs (s : managerT) v : NoDup docs.*1 -> refines s v ->
  refines (rebuildIndex extractor n docs s).2 (view_step v (Rebuild n docs)).
Proof.
  intros Hnd Hr. pose proof Hr as [H1 H2 H3 H4 H5 H6]. unfold rebuildIndex. rewrite (bind_ok _ _ s s s) by done. cbn [view_step].
  unfold map_has. rewrite H1. destruct (map_get n (defined v)) as [d|] eqn:Ed; [|done].
  destruct (memory_clear_spec n (_storage s)) as (st1 & E1 & Hok1 & He1).
  rewrite (bind_ok _ _ _ _ _ (on_storage_ok _ s tt st1 E1)).
  destruct (rebuild_loop n d docs (s <| _storage := st1 |>) Hnd) as (st2 & E2 & Hok2 & He2).
  change (_storage (s <| _storage := st1 |>)) with st1 in *. rewrite (bind_ok _ _ _ _ _ E2).
  eapply refines_idle; [apply notify_idle|]. split; simpl; [done|done|done|auto| |].
  - intros n' q Hn. case_decide as Hc; [subst; by rewrite Ed in Hn|by apply H5].
  - intros n' q. rewrite He2, He1. unfold in_prefix. rewrite Ed. destruct (decide (n' = n)) as [->|Hne].
    + destruct (startsWith q (collectionPrefix d)); [rewrite decide_True by done|by rewrite decide_False by (intros [_ [=]])].
      destruct (map_get q docs) as [doc|]; [|done]. exists d. eexists. split_and!; [done..|]. exists doc. auto.
    + rewrite decide_False by tauto. apply H6.
Qed.

(** The in-memory index is a materialized view: after any calls, in any order, every
    index holds exactly the documents that were last indexed under it, each with a
    record that stands for the document as it was then. *)
Lemma index_refines (calls : list call) : Forall call_ok calls ->
  refines (foldl (fun s c => (run_call extractor c s).2) (new_manager [] : managerT) calls) (foldl view_step empty_view calls).
Proof.
  intros Hok. assert (H0 : refines (new_manager []) empty_view) by (split; try done; by constructor).
  revert H0. generalize (new_manager [] : managerT) empty_view. induction Hok as [|c calls Hc _ IH]; intros s v Hr; [done|].
  simpl. apply IH. clear IH. destruct c; cbn [run_call].
  - by apply define_refines.
  - by apply remove_refines.
  - by apply update_refines.
  - by apply forget_refines.
  - by apply rebuild_refines.
  - eapply refines_idle; [|done]. assert (Hs : steps idle (let! _ := subscribe o in ret tt)).
    { unfold subscribe. steps_tac. by apply steps_modify. } apply Hs.
  - eapply refines_idle; [|done]. by split.
  - eapply refines_idle; [|done]. assert (Hs : steps idle (deliver k)).
    { unfold deliver. steps_tac; by apply steps_modify. } apply Hs.
  - eapply refines_idle; [|done]. assert (Hs : steps idle (let! _ := query_ o in ret tt)) by steps_tac. apply Hs.
Qed.

(** What a record stands for has the record's scalar fields. *)
Lemma stands_for_fields d r doc fd : prefix_free d -> stands_for d r doc -> fd ∈ fields d ->
  scalar (extractField (extractor doc) (fd_path fd)) = true ->
  value_eq (extractField r (fd_path fd)) (extractField (extractor doc) (fd_path fd)).
Proof.
  intros Hfree (old & -> & Hold) Hin Hsc. destruct (buildFields_spec d (extractor old) fd Hfree Hin) as [Eo Hp].
  destruct Hold as [Ee|Hq]; [rewrite Eo, Ee; constructor|]. apply same_scalar; [done|].
  destruct (buildFields_spec d (extractor doc) fd Hfree Hin) as [<- _].
  apply fieldsEqual_walk; [done| |apply split_nonempty|done].
  unfold buildFields. destruct (fields d) as [|f fs] eqn:Ef; [done|].
  destruct (fields_loop (extractor doc) (f :: fs) (Obj [])) as (_ & _ & Ho); [|by rewrite <- Ef|].
  { intros g _. apply fresh_empty, split_nonempty. }
  by destruct (Ho ltac:(done)) as [ps ->].
Qed.

Lemma resolve_named (n : ustring) fs so l o (s : managerT) : n <> [] -> map_has n (_definitions s) = true ->
  resolveIndexName (Options (Some n) None fs so l o) s = Some n.
Proof. intros Hn Hh. destruct n as [|c n]; [done|]. unfold resolveIndexName. cbn [q_indexName]. by destruct (map_has _ _). Qed.

(** C7. Queries see the current documents: after any calls that define indexes whose field paths
    are not prefixes of each other, a query on a defined index without order or page finds,
    once each, exactly the documents it holds (those last updated under its path
    prefix since it was defined or rebuilt, and not removed) whose own snapshot
    passes the filters, when the filters are on indexed fields and these documents have
    scalars there. *)
Theorem query_finds_current (calls : list call) (n : ustring) d fs :
  let s := foldl (fun s c => (run_call extractor c s).2) (new_manager [] : managerT) calls in
  let v := foldl view_step empty_view calls in
  Forall call_ok calls -> n <> [] -> map_get n (defined v) = Some d ->
  Forall (fun f => exists fd, fd ∈ fields d /\ fd_path fd = f_path f) fs ->
  (forall p doc f, holds v n p = Some doc -> f ∈ fs -> scalar (extractField (extractor doc) (f_path f)) = true) ->
  exists l s', query_ (Options (Some n) None fs None None None) s = (Ok (Result l (length l)), s') /\
    NoDup (documentPath <$> l) /\
    forall p, p ∈ documentPath <$> l <-> exists doc, holds v n p = Some doc /\ matchesFilters (extractor doc) fs = true.
Proof.
  intros s v Hok Hn Hd Hfs Hsc. pose proof (index_refines calls Hok) as [H1 H2 H3 H4 H5 H6]. fold s v in H1, H2, H3, H4, H5, H6.
  destruct (memory_query_spec n fs (_storage s) H4) as (l & Eq & Hnd & Hl).
  exists l. eexists. split.
  { unfold query_. rewrite (bind_ok _ _ s s s) by done.
    rewrite (resolve_named n) by (unfold map_has; by rewrite ?H1, ?Hd). destruct n as [|c n]; [done|].
    rewrite (bind_ok _ _ _ _ _ (on_storage_ok _ s l (_storage s) Eq)). cbn [limit offset]. rewrite bool_decide_false by (intros X; by apply X).
    reflexivity. }
  split; [done|]. intros p.
  assert (Hmatch : forall q r doc, holds v n q = Some doc -> stands_for d r doc -> matchesFilters r fs = matchesFilters (extractor doc) fs).
  { intros q r doc Hq Hst. unfold matchesFilters. clear Hl Eq Hnd. specialize (Hsc q doc). induction Hfs as [|f fs (fd & Hin & Hp) _ IH]; [done|].
    simpl. rewrite IH by (intros g Hg Hgin; apply Hsc; [exact Hg|by right]). f_equal. apply matchesFilter_proper. rewrite <- Hp.
    apply (stands_for_fields d); [by eapply H3|done|done|]. rewrite Hp. apply Hsc; [done|by left]. }
  rewrite list_elem_of_fmap. split.
  - intros ([p' r] & -> & Hin). apply Hl in Hin as [He Hm]. cbn [documentPath]. specialize (H6 n p').
    rewrite He in H6. destruct (holds v n p') as [doc|] eqn:Hh; [|done]. destruct H6 as (d' & r' & Hd' & [= <-] & Hst).
    rewrite Hd in Hd'. injection Hd' as <-. exists doc. split; [done|]. by rewrite <- (Hmatch p' r doc).
  - intros (doc & Hh & Hm). specialize (H6 n p). rewrite Hh in H6. destruct H6 as (d' & r & Hd' & He & Hst).
    rewrite Hd in Hd'. injection Hd' as <-. exists (Entry p r). split; [done|]. apply Hl. split; [done|]. by rewrite (Hmatch p r doc).
Qed.

End View.

(** ** Subscriptions, over any storage *)

Section Silence.
  Context {DocType St : Type} `{Sto : !IndexStorage St} (extractor : DocType -> value).

  Abbreviation managerT := (@manager St).

Definition given_to (id : nat) (s : managerT) : list QueryResult :=
  (List.filter (fun x => x.1 =? id) (delivered s)).*2.

(** A number that was handed out and is not subscribed stays so, and gets nothing. *)
Record quiet (s s' : managerT) : Prop := {
  q_next : _nextSubscriptionId s <= _nextSubscriptionId s';
  q_silent id : id < _nextSubscriptionId s -> id ∉ (_subscriptions s).*1 ->
    id ∉ (_subscriptions s').*1 /\ given_to id s' = given_to id s;
}.

#[local] Instance quiet_preorder : PreOrder quiet.
Proof.
  split; [by split|]. intros a b c [N1 S1] [N2 S2]. split; [lia|]. intros id Hid Hn.
  destruct (S1 id Hid Hn) as [Hn1 E1]. destruct (S2 id ltac:(lia) Hn1) as [Hn2 E2]. split; [done|]. by rewrite E2.
Qed.

Lemma same_quiet (s s' : managerT) : _nextSubscriptionId s' = _nextSubscriptionId s ->
  _subscriptions s' = _subscriptions s -> delivered s' = delivered s -> quiet s s'.
Proof. intros E1 E2 E3. split; [lia|]. intros id _ Hn. unfold given_to. by rewrite E2, E3. Qed.

Lemma on_storage_quiet {A} (m : eff St A) : steps quiet (on_storage m).
Proof. intros s. by apply same_quiet. Qed.
#[local] Hint Resolve on_storage_quiet : steps.

Ltac quiet_mod := apply steps_modify; intros ?; by apply same_quiet.

Lemma query_quiet o : steps quiet (query_ o).
Proof. unfold query_. steps_tac. Qed.
#[local] Hint Resolve query_quiet : steps.
Lemma start_quiet id o : steps quiet (start_query id o).
Proof. unfold start_query. steps_tac. quiet_mod. Qed.
#[local] Hint Resolve start_quiet : steps.
Lemma notify_quiet : steps quiet notifySubscribers.
Proof. unfold notifySubscribers. steps_tac. Qed.
#[local] Hint Resolve notify_quiet : steps.

Lemma subscribe_quiet o : steps quiet (subscribe o).
Proof.
  unfold subscribe. apply steps_get. intros s. cbv zeta. rewrite bind_modify.
  assert (Hr : steps quiet (let! _ := start_query (_nextSubscriptionId s) o in ret (_nextSubscriptionId s))) by steps_tac.
  etrans; [|apply Hr].
  split; simpl; [lia|]. intros id Hid Hn. split; [|done]. rewrite elem_of_map_keys_set. intros [->|]; [lia|done].
Qed.

Lemma unsubscribe_quiet id : steps quiet (unsubscribe id : eff managerT _).
Proof.
  apply steps_modify. intros s. split; simpl; [done|]. intros id' _ Hn. split; [|done].
  rewrite elem_of_map_keys_delete. tauto.
Qed.

Lemma deliver_quiet k : steps quiet (deliver k : eff managerT _).
Proof.
  unfold deliver. apply steps_get. intros s. destruct (inflight s !! k) as [[id r]|]; [|done].
  rewrite bind_modify. unfold when. destruct (map_has id (_subscriptions s)) eqn:Eh; [|by apply same_quiet].
  split; simpl; [done|]. intros id' _ Hn. split; [done|]. unfold given_to. simpl.
  rewrite List.filter_app, fmap_app. simpl. destruct (Nat.eqb_spec id id') as [->|]; [|by rewrite app_nil_r].
  apply map_has_spec in Eh. done.
Qed.
#[local] Hint Resolve subscribe_quiet unsubscribe_quiet deliver_quiet : steps.

Lemma run_call_quiet c : steps quiet (run_call extractor c).
Proof.
  destruct c; simpl.
  - unfold defineIndex. steps_tac. quiet_mod.
  - unfold removeIndex. steps_tac. quiet_mod.
  - unfold updateIndex, update_one, update_resume. steps_tac.
  - unfold removeFromIndex. steps_tac.
  - unfold rebuildIndex, rebuild_one. steps_tac.
  - steps_tac.
  - steps_tac.
  - steps_tac.
  - steps_tac.
Qed.

(** After [unsubscribe] nothing is delivered any more, with any storage and whatever
    is called afterwards, although queries for the subscriber may be under way. *)
Theorem unsubscribe_is_final (calls : list call) id (s : managerT) : id < _nextSubscriptionId s ->
  given_to id (foldl (fun s c => (run_call extractor c s).2) (unsubscribe id s).2 calls) = given_to id s.
Proof.
  intros Hid. set (s1 := (unsubscribe id s).2). assert (H1 : id ∉ (_subscriptions s1).*1 /\ given_to id s1 = given_to id s /\ id < _nextSubscriptionId s1).
  { split_and!; [simpl|done|done]. rewrite elem_of_map_keys_delete. tauto. }
  destruct H1 as (Hn & <- & Hid1). clear Hid. clearbody s1. revert s1 Hn Hid1.
  induction calls as [|c calls IH]; intros s1 Hn Hid; [done|]. simpl.
  destruct (run_call_quiet c s1) as [Hx Hq]. destruct (Hq id Hid Hn) as [Hn' <-]. apply IH; [done|lia].
Qed.

End Silence.
End IndexTheory.
