(* ===== verification/IndexOrder.v ===== *)
(** * Order and pages of a query

    About [order_and_page] of [Index], the second half of a query in both storages:
    where the values of each sort field are of one kind, the comparison is a total
    preorder, the result is sorted by it and stable, and pages cut it without loss.
    Where they are not, the comparison contradicts itself. *)
From stdpp Require Import base numbers list list_numbers strings sorting.
From Stdlib Require Import ZArith QArith Qround Lia.
From S2P Require Import Prelude Index IndexTheory.

Open Scope list_scope.
Open Scope nat_scope.

Module IndexOrder.
Import Index IndexTheory.

(** ** Sorting with a comparison function *)

(** The sign of an answer; [sort] takes [NaN] for zero. *)
Definition sgn (n : num) : Z :=
  match n with Fin q => Z.sgn (Qnum q) | PosInf => 1 | NegInf => -1 | NaN => 0 end%Z.

Lemma num_lt_sgn n : num_lt 0%Z n = (0 <? sgn n)%Z.
Proof.
  destruct n as [[a b]| | |]; try done. cbn [num_lt num_of_Z sgn Qnum inject_Z]. unfold Qle_bool. simpl.
  rewrite Z.mul_1_r. destruct a; done.
Qed.

Lemma num_eq_sgn n : n <> NaN -> num_eq n 0%Z = (sgn n =? 0)%Z.
Proof.
  destruct n as [[a b]| | |]; try done. intros _. cbn [num_eq num_of_Z sgn Qnum inject_Z]. unfold Qeq_bool. simpl.
  rewrite Z.mul_1_r. by destruct a.
Qed.

Lemma sgn_opp n : sgn (num_opp n) = (- sgn n)%Z.
Proof. destruct n as [[a b]| | |]; try done. simpl. by rewrite Z.sgn_opp. Qed.

(** On the elements of [P], [c] decides the preorder [le]. *)
Record decides {A} (P : A -> Prop) (c : A -> A -> num) (le : relation A) : Prop := {
  dc_nan a b : P a -> P b -> c a b <> NaN;
  dc_le a b : P a -> P b -> (sgn (c a b) <= 0)%Z <-> le a b;
  dc_ge a b : P a -> P b -> (0 <= sgn (c a b))%Z <-> le b a;
  dc_trans a b d : P a -> P b -> P d -> le a b -> le b d -> le a d;
}.

Section Sort.
  Context {A : Type} (P : A -> Prop) (c : A -> A -> num) (le : relation A) (Hd : decides P c le).

Lemma insert_perm x l : insert_sorted c x l ≡ₚ x :: l.
Proof.
  induction l as [|y l IH]; simpl; [done|]. case_match; [|done].
  rewrite IH. apply Permutation_swap.
Qed.

Lemma js_sort_perm l : js_sort c l ≡ₚ l.
Proof. induction l as [|x l IH]; simpl; [done|]. by rewrite insert_perm, IH. Qed.

Lemma insert_sorted_sorted x l : P x -> Forall P l -> StronglySorted le l -> StronglySorted le (insert_sorted c x l).
Proof.
  intros Hx HP Hs. induction Hs as [|y l Hs IH Hy]; cbn [insert_sorted]; [by repeat constructor|].
  apply Forall_cons in HP as [HPy HP]. rewrite num_lt_sgn. destruct (Z.ltb_spec 0 (sgn (c x y))) as [Hlt|Hle].
  - constructor; [by apply IH|]. rewrite insert_perm. constructor; [|done]. apply (dc_ge _ _ _ Hd x y); [done..|lia].
  - assert (Hxy : le x y) by (apply (dc_le _ _ _ Hd); [done..|lia]). constructor; [by constructor|]. constructor; [done|].
    rewrite Forall_forall in *. intros z Hz. eapply (dc_trans _ _ _ Hd x y z); auto.
Qed.

Lemma js_sort_sorted l : Forall P l -> StronglySorted le (js_sort c l).
Proof.
  induction 1 as [|x l Hx HP IH]; simpl; [constructor|]. apply insert_sorted_sorted; [done| |done].
  by rewrite js_sort_perm.
Qed.

(** The elements that compare equal to [z], in order. *)
Definition ties (z : A) (l : list A) : list A := List.filter (fun y => (sgn (c z y) =? 0)%Z) l.

Lemma insert_stable z x l : P z -> P x -> Forall P l -> ties z (insert_sorted c x l) = ties z (x :: l).
Proof.
  intros Hz Hx HP. induction HP as [|y l Hy HP IH]; cbn [insert_sorted]; [done|]. rewrite num_lt_sgn.
  destruct (Z.ltb_spec 0 (sgn (c x y))) as [Hlt|]; [|done]. simpl. rewrite IH. simpl.
  destruct (Z.eqb_spec (sgn (c z x)) 0) as [E1|]; [|done]. destruct (Z.eqb_spec (sgn (c z y)) 0) as [E2|]; [|done].
  exfalso. assert (Hxy : le x y).
  { apply (dc_trans _ _ _ Hd x z y); [done..| |].
    - apply (dc_ge _ _ _ Hd z x); [done..|lia].
    - apply (dc_le _ _ _ Hd z y); [done..|lia]. }
  apply (dc_le _ _ _ Hd) in Hxy; [lia|done..].
Qed.

Lemma js_sort_stable z l : P z -> Forall P l -> ties z (js_sort c l) = ties z l.
Proof.
  intros Hz. induction 1 as [|x l Hx HP IH]; [done|].
  change (js_sort c (x :: l)) with (insert_sorted c x (js_sort c l)). rewrite insert_stable by (done || by rewrite js_sort_perm).
  unfold ties at 1. cbn [List.filter]. fold (ties z (js_sort c l)). rewrite IH. done.
Qed.

End Sort.

(** ** The comparison of values *)

(** [localeCompare] is a consistent order. *)
Class LocaleLaws `{!Runtime} := {
  lc_sym a b : Z.sgn (localeCompare b a) = (- Z.sgn (localeCompare a b))%Z;
  lc_trans a b d : (localeCompare a b <= 0)%Z -> (localeCompare b d <= 0)%Z -> (localeCompare a d <= 0)%Z;
}.

Inductive kind := Numbers | Strings | Booleans.

Section Values.
  Context `{RT : !Runtime}.

(** Of the kind after normalization, or missing; [none] is what stands for a missing
    value, [undefined] or [null]. *)
Definition of_kind (k : kind) (none : value) (v : value) : Prop :=
  normalize v = none \/
  match k, normalize v with
  | Numbers, Num n => n <> NaN
  | Strings, Str _ | Booleans, Bool _ => True
  | _, _ => False
  end.

Definition value_le (v w : value) : Prop :=
  match normalize v, normalize w with
  | (Undefined | Null), _ => True
  | Num x, Num y => num_le x y = true
  | Str x, Str y => (localeCompare x y <= 0)%Z
  | Bool x, Bool y => x = true -> y = true
  | _, _ => False
  end.

Lemma num_cmp x y : x <> NaN -> y <> NaN ->
  let n := if num_eq x y then num_of_Z 0 else num_sub x y in
  n <> NaN /\ ((sgn n <= 0)%Z <-> num_le x y = true) /\ ((0 <= sgn n)%Z <-> num_le y x = true).
Proof.
  intros Hx Hy. destruct x as [[a b]| | |], y as [[e f]| | |]; try done; simpl; try (split_and!; [done|simpl; split; (lia || done)..]).
  unfold Qeq_bool, Qle_bool. simpl. change Zeq_bool with Z.eqb. destruct (Z.eqb_spec (a * Z.pos f) (e * Z.pos b)) as [E|E].
  - split; [done|]. cbn [sgn num_of_Z inject_Z Qnum Z.sgn]. rewrite !Z.leb_le. lia.
  - split; [done|]. cbn [sgn Qnum Qplus Qopp Qden]. rewrite !Z.leb_le. lia.
Qed.

Lemma num_le_trans x y z : num_le x y = true -> num_le y z = true -> num_le x z = true.
Proof.
  destruct x, y, z; simpl; try done. rewrite !Qle_bool_iff. apply Qle_trans.
Qed.

Lemma strict_eq_null v w : nullish v = true -> nullish w = false -> strict_eq v w = false /\ strict_eq w v = false.
Proof. by destruct v, w. Qed.

(** On values of one kind, [_compareValues] is an order. *)
Lemma compareValues_decides `{!LocaleLaws} k none : nullish none = true ->
  decides (of_kind k none) compareValues value_le.
Proof.
  intros Hnone.
  assert (Hcmp : forall v w, of_kind k none v -> of_kind k none w -> compareValues v w <> NaN /\
    ((sgn (compareValues v w) <= 0)%Z <-> value_le v w) /\ ((0 <= sgn (compareValues v w))%Z <-> value_le w v)).
  { intros v w Hv Hw. unfold compareValues, value_le, of_kind in *. cbv zeta.
    destruct Hv as [Hv|Hv], Hw as [Hw|Hw].
    - rewrite Hv, Hw. by destruct none.
    - rewrite Hv. destruct none; try done; destruct k, (normalize w); try done; simpl; (split_and!; [done|split; (lia || done)..]).
    - rewrite Hw. destruct none; try done; destruct k, (normalize v); try done; simpl; (split_and!; [done|split; (lia || done)..]).
    - destruct k, (normalize v) as [| |a|x|x| | |], (normalize w) as [| |b|y|y| | |]; try done; cbn [strict_eq nullish].
      + by apply num_cmp.
      + case_bool_decide as E.
        * subst y. pose proof (lc_sym x x). split_and!; [done|simpl; split; lia..].
        * pose proof (lc_sym x y). split_and!; [done|simpl..]; [lia|]. split; intros; lia.
      + destruct a, b; simpl; split_and!; try done; split; (lia || done || intros H; by specialize (H eq_refl)). }
  split; [by intros; apply Hcmp..|].
  intros v w u _ _ _. unfold value_le. destruct (normalize v), (normalize w), (normalize u); try done; try tauto.
  - apply num_le_trans.
  - apply lc_trans.
Qed.

(** ** Entries *)

Lemma decides_map {A B} (f : B -> A) (P : A -> Prop) c le : decides P c le ->
  decides (fun b => P (f b)) (fun x y => c (f x) (f y)) (fun x y => le (f x) (f y)).
Proof.
  intros [H1 H2 H3 H4]. split; [intros a b Ha Hb; auto..|]. intros a b d Ha Hb Hd. by apply (H4 (f a) (f b) (f d)).
Qed.

Lemma decides_weaken {A} (P Q : A -> Prop) c le : (forall a, Q a -> P a) -> decides P c le -> decides Q c le.
Proof.
  intros HQ [H1 H2 H3 H4]. split; [intros a b Ha Hb; auto..|]. intros a b d Ha Hb Hd. apply (H4 a b d); auto.
Qed.

Lemma decides_opp {A} (P : A -> Prop) c le : decides P c le -> decides P (fun a b => num_opp (c a b)) (fun a b => le b a).
Proof.
  intros [H1 H2 H3 H4]. split.
  - intros a b Ha Hb E. apply (H1 a b Ha Hb). by destruct (c a b).
  - intros a b Ha Hb. rewrite sgn_opp, <- (H3 a b) by done. lia.
  - intros a b Ha Hb. rewrite sgn_opp, <- (H2 a b) by done. lia.
  - intros a b d Ha Hb Hd Hab Hbd. by apply (H4 d b a).
Qed.

Lemma decides_lex {A} (P : A -> Prop) c1 le1 c2 le2 : decides P c1 le1 -> decides P c2 le2 ->
  decides P (fun a b => if negb (num_eq (c1 a b) 0%Z) then c1 a b else c2 a b) (fun a b => le1 a b /\ (le1 b a -> le2 a b)).
Proof.
  intros [N1 L1 G1 T1] [N2 L2 G2 T2].
  assert (Hc : forall a b, P a -> P b -> let n := if negb (num_eq (c1 a b) 0%Z) then c1 a b else c2 a b in
    n <> NaN /\ ((sgn n <= 0)%Z <-> le1 a b /\ (le1 b a -> le2 a b)) /\ ((0 <= sgn n)%Z <-> le1 b a /\ (le1 a b -> le2 b a))).
  { intros a b Ha Hb n. unfold n. rewrite num_eq_sgn by auto.
    pose proof (L1 a b Ha Hb) as X1. pose proof (G1 a b Ha Hb) as X2.
    pose proof (L2 a b Ha Hb) as X3. pose proof (G2 a b Ha Hb) as X4.
    destruct (Z.eqb_spec (sgn (c1 a b)) 0) as [E|E]; cbn [negb]; (split; [auto|]).
    - assert (le1 a b) by (apply X1; lia). assert (le1 b a) by (apply X2; lia). tauto.
    - assert (Hn : ~ (le1 a b /\ le1 b a)) by (intros [?%X1 ?%X2]; lia). tauto. }
  split; [by intros; apply Hc..|]. intros a b d Ha Hb Hd [H1 H2] [H3 H4]. split; [by apply (T1 a b d)|].
  intros Hda. apply (T2 a b d); [done..|apply H2|apply H4]; eapply T1; eauto.
Qed.

(** The order of the clauses, the first one that tells two entries apart decides. *)
Fixpoint entry_le (sort : list SortClause) (a b : value) : Prop :=
  match sort with
  | [] => True
  | cl :: sort' =>
      let le x y := if descending cl then value_le (extractField y (s_path cl)) (extractField x (s_path cl))
                    else value_le (extractField x (s_path cl)) (extractField y (s_path cl)) in
      le a b /\ (le b a -> entry_le sort' a b)
  end.

(** The field of each clause has values of one kind. *)
Definition typed (kinds : list (kind * value)) (sort : list SortClause) (v : value) : Prop :=
  Forall2 (fun k cl => of_kind k.1 k.2 (extractField v (s_path cl))) kinds sort.

Lemma compareEntries_decides `{!LocaleLaws} kinds sort :
  Forall (fun k => nullish k.2 = true) kinds -> length kinds = length sort ->
  decides (typed kinds sort) (fun a b => compareEntries a b sort) (entry_le sort).
Proof.
  intros Hk. revert sort. induction Hk as [|[k none] kinds Hnone _ IH]; intros [|cl sort] Hl; try discriminate Hl.
  { by split. }
  injection Hl as Hl. set (P := typed ((k, none) :: kinds) (cl :: sort)).
  set (c1 := fun a b => compareValues (extractField a (s_path cl)) (extractField b (s_path cl))).
  assert (H1 : decides P c1 (fun a b => value_le (extractField a (s_path cl)) (extractField b (s_path cl)))).
  { eapply decides_weaken; [|apply (decides_map (fun a => extractField a (s_path cl))), (compareValues_decides k none Hnone)].
    intros a Ha. by apply Forall2_cons in Ha as [? _]. }
  assert (H2 : decides P (fun a b => compareEntries a b sort) (entry_le sort)).
  { eapply decides_weaken; [|by apply IH]. intros a Ha. by apply Forall2_cons in Ha as [_ ?]. }
  cbn [entry_le]. cbv zeta. destruct (descending cl) eqn:Ed.
  - pose proof (decides_lex P _ _ _ _ (decides_opp _ _ _ H1) H2) as [N L G T]. unfold c1 in *.
    assert (Hz : forall n, n <> NaN -> num_eq (num_opp n) 0%Z = num_eq n 0%Z).
    { intros n Hn. rewrite !num_eq_sgn by (done || by destruct n). rewrite sgn_opp. destruct (Z.eqb_spec (sgn n) 0), (Z.eqb_spec (- sgn n) 0); lia || done. }
    assert (Heq : forall a b, P a -> P b -> compareEntries a b (cl :: sort) = if negb (num_eq (num_opp (c1 a b)) 0%Z) then num_opp (c1 a b) else compareEntries a b sort).
    { intros a b Ha Hb. cbn [compareEntries]. rewrite Ed, Hz by by apply (dc_nan _ _ _ H1). done. }
    split; [intros a b Ha Hb; rewrite Heq by done; by (apply N || apply L || apply G)..|exact T].
  - pose proof (decides_lex P _ _ _ _ H1 H2) as Hx. cbn [compareEntries]. rewrite Ed. exact Hx.
Qed.

(** ** Pages *)

Lemma truncate_Z z : truncate (inject_Z z) = z.
Proof. unfold truncate. destruct (Qle_bool 0 (inject_Z z)); [apply Qfloor_Z|apply Qceiling_Z]. Qed.

Lemma truncate_plus a b : truncate (inject_Z a + inject_Z b) = (a + b)%Z.
Proof. by rewrite <- inject_Z_plus, truncate_Z. Qed.

Lemma slice_Z {A} (l : list A) (a b : Z) : (0 <= a)%Z -> (0 <= b)%Z ->
  slice l (num_of_Z a) (Some (num_add (num_of_Z a) (num_of_Z b))) = take (Z.to_nat b) (drop (Z.to_nat a) l).
Proof.
  intros Ha Hb. unfold slice. cbn [num_add num_of_Z slice_index]. rewrite truncate_Z, truncate_plus.
  destruct (Z.ltb_spec a 0); [lia|]. destruct (Z.ltb_spec (a + b) 0); [lia|].
  rewrite Z2Nat.inj_add by done. destruct (decide (Z.to_nat a <= length l)) as [Hle|Hgt].
  - rewrite (Nat.min_r (length l) (Z.to_nat a)) by lia. destruct (decide (Z.to_nat a + Z.to_nat b <= length l)).
    + rewrite Nat.min_r by lia. f_equal. lia.
    + rewrite Nat.min_l by lia. rewrite !take_ge; [done|rewrite length_drop; lia..].
  - rewrite !Nat.min_l by lia. rewrite Nat.sub_diag, (drop_ge l (Z.to_nat a)) by lia. by rewrite take_nil.
Qed.

(** A page is a window on the whole result. *)
Lemma page_of_order results sort (limit offset : Z) : (0 <= limit)%Z -> (0 <= offset)%Z ->
  order_and_page results sort (Some (num_of_Z limit)) (Some (num_of_Z offset)) =
  take (Z.to_nat limit) (drop (Z.to_nat offset) (order_and_page results sort None None)).
Proof.
  intros Hl Ho. unfold order_and_page. cbv zeta. change (default (num_of_Z 0) (Some (num_of_Z offset))) with (num_of_Z offset).
  change (default (num_of_Z 0) None) with (num_of_Z 0). rewrite (num_lt_Z 0 0). by rewrite slice_Z.
Qed.

(** A query orders and pages: where each sort field has values of one kind, or
    missing ones, the whole result is a permutation of the matching entries, sorted by
    the clauses and stable, and a page of it is the window that [offset] and [limit]
    name. *)
Theorem query_orders_and_pages `{!LocaleLaws} kinds n fs sort (limit offset : Z) (st : stores) store :
  map_get n st = Some store -> sort <> [] -> Forall (fun k => nullish k.2 = true) kinds ->
  (forall p r, (p, r) ∈ store -> typed kinds sort r) -> length kinds = length sort ->
  (0 <= limit)%Z -> (0 <= offset)%Z ->
  exists all,
    memory_query n fs (Some sort) None None st = (Ok all, st) /\
    memory_query n fs (Some sort) (Some (num_of_Z limit)) (Some (num_of_Z offset)) st =
      (Ok (take (Z.to_nat limit) (drop (Z.to_nat offset) all)), st) /\
    let found := map (fun p => Entry p.1 p.2) (List.filter (fun p => matchesFilters p.2 fs) store) in
    all ≡ₚ found /\ StronglySorted (fun a b => entry_le sort (e_fields a) (e_fields b)) all /\
    forall e, e ∈ found ->
      ties (fun a b => compareEntries (e_fields a) (e_fields b) sort) e all =
      ties (fun a b => compareEntries (e_fields a) (e_fields b) sort) e found.
Proof.
  intros Hst Hs Hk Htyped Hlen Hl Ho. set (found := map (fun p => Entry p.1 p.2) (List.filter (fun p => matchesFilters p.2 fs) store)).
  set (c := fun a b => compareEntries (e_fields a) (e_fields b) sort).
  assert (Hd : decides (fun e => typed kinds sort (e_fields e)) c (fun a b => entry_le sort (e_fields a) (e_fields b)))
    by (apply (decides_map e_fields _ (fun a b => compareEntries a b sort) (entry_le sort)), compareEntries_decides; done).
  assert (HP : Forall (fun e => typed kinds sort (e_fields e)) found).
  { apply Forall_forall. intros e He. apply list_elem_of_In, in_map_iff in He as ([p r] & <- & [Hin _]%filter_In).
    apply (Htyped p r). by apply list_elem_of_In. }
  assert (Hall : order_and_page found (Some sort) None None = js_sort c found) by (by destruct sort).
  assert (Hq : forall l o, check_page l o = Ok tt ->
    memory_query n fs (Some sort) l o st = (Ok (order_and_page found (Some sort) l o), st)).
  { intros l o Hc. unfold memory_query, bind, get, lift, ret. by rewrite Hst, Hc. }
  exists (js_sort c found).
  assert (Hc : check_page (Some (num_of_Z limit)) (Some (num_of_Z offset)) = Ok tt).
  { unfold check_page. rewrite !num_lt_Z. destruct (Z.ltb_spec offset 0), (Z.ltb_spec limit 0); lia || done. }
  rewrite !Hq by done. rewrite page_of_order, Hall by done. split; [done|]. split; [done|]. cbv zeta. fold found c.
  split; [apply js_sort_perm|]. split; [by eapply js_sort_sorted|]. intros e He. rewrite Forall_forall in HP. eapply js_sort_stable; [done|by apply HP|by apply Forall_forall].
Qed.

(** Outside those conditions the comparison contradicts itself: of [null] and
    [undefined], each is before the other. *)
Theorem compare_inconsistent a b : strict_eq (normalize a) (normalize b) = false ->
  nullish (normalize a) = true -> nullish (normalize b) = true ->
  compareValues a b = num_of_Z (-1) /\ compareValues b a = num_of_Z (-1).
Proof.
  intros E Ha Hb. unfold compareValues. rewrite Ha, Hb, E. split; [done|].
  by destruct (normalize a), (normalize b).
Qed.

End Values.
End IndexOrder.
