(* ===== verification/IndexIdb.v ===== *)
(** * The storage on IndexedDB

    Models [packages/collabswarm-index/src/idb-index-storage.ts]. A database is its
    version and its object stores, each with the records by key and the names of its
    indexes, and is shared with other tabs; keys, key paths, ranges and the opening
    of a database at a version are those of the IndexedDB standard. What other tabs
    do between two openings is the argument [others] of [initialize_]. *)
From stdpp Require Import base numbers list list_numbers strings sets.
From Stdlib Require Import ZArith QArith Lia.
From S2P Require Import Prelude Index IndexTheory IndexOrder.

Open Scope string_scope.
Open Scope list_scope.
Open Scope nat_scope.

Module IndexIdb.
Import Index IndexTheory IndexOrder.

(** ** Keys and ranges of the standard *)

Inductive key :=
| KNum (n : num)
| KDate (t : num)
| KStr (s : ustring)
| KArr (l : list key).

(** The key that a value is, if it is one. *)
Fixpoint key_of (v : value) : option key :=
  match v with
  | Num n => if is_nan n then None else Some (KNum n)
  | Date t => if is_nan t then None else Some (KDate t)
  | Str s => Some (KStr s)
  | Arr l =>
      (fix go (l : list value) : option (list key) :=
         match l with
         | [] => Some []
         | x :: l' => match key_of x, go l' with Some k, Some ks => Some (k :: ks) | _, _ => None end
         end) l ≫= fun ks => Some (KArr ks)
  | _ => None
  end.

Definition rank (k : key) : nat := match k with KNum _ => 0 | KDate _ => 1 | KStr _ => 2 | KArr _ => 3 end.

Definition three_way {A} (lt : A -> A -> bool) (x y : A) : comparison :=
  if lt x y then Datatypes.Lt else if lt y x then Datatypes.Gt else Datatypes.Eq.

(** Number < Date < string < array, and arrays element by element. *)
Fixpoint key_cmp (a b : key) : comparison :=
  match a, b with
  | KNum x, KNum y | KDate x, KDate y => three_way num_lt x y
  | KStr x, KStr y => three_way ustring_lt x y
  | KArr x, KArr y =>
      (fix go (x y : list key) : comparison :=
         match x, y with
         | [], [] => Datatypes.Eq
         | _, [] => Datatypes.Gt
         | [], _ :: _ => Datatypes.Lt
         | a :: x', b :: y' => match key_cmp a b with Datatypes.Eq => go x' y' | c => c end
         end) x y
  | _, _ => Nat.compare (rank a) (rank b)
  end.

Definition key_lt (a b : key) : bool := bool_decide (key_cmp a b = Datatypes.Lt).

(** [IDBKeyRange], by its bounds; a bound is open or not. *)
Record key_range := KeyRange { lower : option (key * bool); upper : option (key * bool) }.

Definition only (k : key) : key_range := KeyRange (Some (k, false)) (Some (k, false)).
Definition lowerBound (k : key) (opn : bool) : key_range := KeyRange (Some (k, opn)) None.
Definition bound (lo hi : key) (lowerOpen upperOpen : bool) : key_range := KeyRange (Some (lo, lowerOpen)) (Some (hi, upperOpen)).

Definition in_range (r : key_range) (k : key) : bool :=
  match lower r with
  | Some (lo, true) => key_lt lo k
  | Some (lo, false) => negb (key_lt k lo)
  | None => true
  end &&
  match upper r with
  | Some (hi, true) => key_lt k hi
  | Some (hi, false) => negb (key_lt hi k)
  | None => true
  end.

(** A key path on a value: own properties, and the length of a string. *)
Fixpoint eval_path (v : value) (segments : list ustring) : option value :=
  match segments with
  | [] => match v with Undefined => None | _ => Some v end
  | k :: ks =>
      match v with
      | Str s => if bool_decide (k = units "length") then eval_path (Num (Z.of_nat (length s))) ks else None
      | Arr l => if bool_decide (k = units "length") then eval_path (Num (Z.of_nat (length l))) ks
                 else map_get k (elements l) ≫= fun x => eval_path x ks
      | Obj ps => map_get k ps ≫= fun x => eval_path x ks
      | _ => None
      end
  end.

(** The key of a record in the index on [fields.path]. *)
Definition index_key_of (path : ustring) (fields : value) : option key := eval_path fields (split_dots path) ≫= key_of.

(** ** Databases *)

Record object_store := ObjectStore { records : list (ustring * value); indexNames : list ustring }.

Record database := Database { version : Z; objectStores : list (ustring * object_store) }.

(** [openDB(name)]: a database that is not there is created with version 1. *)
Definition open_current (db : database) : database := if (version db =? 0)%Z then Database 1 (objectStores db) else db.

(** [openDB(name, v, { upgrade })]: a lower version than the present one is refused, a
    higher one runs the upgrade. *)
Definition open_at (v : Z) (upgrade : database -> database) (db : database) : result database :=
  if (v <? version db)%Z then throw "VersionError"
  else if (v =? version db)%Z then Ok db
  else Ok (Database v (objectStores (upgrade db))).

(** ** State *)

Record idb := mk_idb {
  shared : database;
  _db : bool;                                        (** a connection is open *)
  _initializedStores : list ustring;
  _indexedFields : list (ustring * list ustring);
}.

#[export] Instance settable_idb : Settable idb :=
  fun s => mk_idb (shared s) (_db s) (_initializedStores s) (_indexedFields s).

(** ** [initialize] *)

(** The callback [upgrade] *)
Definition upgrade (indexName : ustring) (missing : list ustring) (db : database) : database :=
  let store := default (ObjectStore [] []) (map_get indexName (objectStores db)) in
  let indexes := foldl (fun ix p => if bool_decide (p ∈ ix) then ix else ix ++ [p]) (indexNames store) missing in
  Database (version db) (map_set indexName (ObjectStore (records store) indexes) (objectStores db)).

Definition MAX_OPEN_ATTEMPTS : nat := 4.

(** What the first opening of an attempt finds: the version, the index names, and the
    fields without an index; [None] when the store is missing too. *)
Record probe := Probe { currentVersion : Z; probedIndexNames : option (list ustring); missingIndexFields : list ustring }.

Definition probe_store (indexName : ustring) (paths : list ustring) (db : database) : probe :=
  match map_get indexName (objectStores db) with
  | Some st => Probe (version db) (Some (indexNames st))
                 (List.filter (fun p => negb (bool_decide (p ∈ indexNames st))) paths)
  | None => Probe (version db) None paths
  end.

(** The second opening. *)
Definition reopen (indexName : ustring) (pr : probe) (db : database) : result database :=
  if bool_decide (probedIndexNames pr = None) || negb (length (missingIndexFields pr) =? 0)
  then open_at (currentVersion pr + 1) (upgrade indexName (missingIndexFields pr)) db
  else open_at (currentVersion pr) id db.

Section Idb.
  Context `{RT : !Runtime}.

(** The retry loop; [others] is what other tabs do to the database between the two
    openings of an attempt. The result is the list of index names that were found. *)
Fixpoint open_loop (others : nat -> database -> database) (indexName : ustring) (paths : list ustring)
    (left attempt : nat) : eff idb (list ustring) :=
  match left with
  | 0 => ret []
  | S left' =>
      let! _ := modify (fun s => s <| shared := open_current (shared s) |>) in
      let! s := get in
      let pr := probe_store indexName paths (shared s) in
      let! _ := modify (fun s => s <| shared := others attempt (shared s) |>) in
      let! s := get in
      match reopen indexName pr (shared s) with
      | Ok db =>
          let! _ := modify (fun s => s <| shared := db |> <| _db := true |>) in
          ret (default [] (probedIndexNames pr))
      | Err (Throw err) =>
          if (String.eqb err "VersionError") && (attempt <? MAX_OPEN_ATTEMPTS - 1)
          then open_loop others indexName paths left' (S attempt)
          else lift (throw err)
      | Err OutOfFuel => lift (Err OutOfFuel)
      end
  end.

Definition initialize_ (others : nat -> database -> database) (indexName : ustring)
    (fields : list IndexFieldDefinition) : eff idb unit :=
  let paths := fd_path <$> fields in
  let! s := get in
  let covered := set_has indexName (_initializedStores s) && _db s &&
                 match map_get indexName (_indexedFields s) with
                 | Some cached => forallb (fun p => bool_decide (p ∈ cached)) paths
                 | None => false
                 end in
  if covered then ret tt
  else
    let! _ := modify (fun s => s <| _db := false |>) in
    let! existingIndexNames := open_loop others indexName paths MAX_OPEN_ATTEMPTS 0 in
    let fieldSet := foldl (flip set_add) existingIndexNames paths in
    modify (fun s => s <| _indexedFields := map_set indexName fieldSet (_indexedFields s) |>
                       <| _initializedStores := set_add indexName (_initializedStores s) |>).

(** [_getDB] *)
Definition getDB : eff idb database :=
  let! s := get in
  if _db s then ret (shared s) else lift (throw "IDBIndexStorage: database not initialized. Call initialize() first.").

(** The object store of a transaction; [db.transaction] throws where it is missing. *)
Definition object_store_of (indexName : ustring) : eff idb object_store :=
  let! db := getDB in
  lift (or_throw "NotFoundError" (map_get indexName (objectStores db))).

Definition set_records (indexName : ustring) (f : list (ustring * value) -> list (ustring * value)) : eff idb unit :=
  let! store := object_store_of indexName in
  modify (fun s => s <| shared := Database (version (shared s))
    (map_set indexName (ObjectStore (f (records store)) (indexNames store)) (objectStores (shared s))) |>).

Definition idb_put (indexName documentPath : ustring) (fields : value) : eff idb unit :=
  set_records indexName (map_set documentPath fields).

Definition idb_delete (indexName documentPath : ustring) : eff idb unit :=
  set_records indexName (map_delete documentPath).

Definition idb_get (indexName documentPath : ustring) : eff idb (option value) :=
  let! db := getDB in
  match map_get indexName (objectStores db) with
  | None => ret None
  | Some store => ret (map_get documentPath (records store))
  end.

Definition idb_clear (indexName : ustring) : eff idb unit :=
  let! db := getDB in
  match map_get indexName (objectStores db) with
  | None => ret tt
  | Some _ => set_records indexName (fun _ => [])
  end.

Definition idb_close : eff idb unit := modify (fun s => s <| _db := false |>).

(** ** [query] *)

(** [_isIDBAcceleratable] *)
Definition isIDBAcceleratable (operator : FilterOperator) (v : value) : bool :=
  match operator with
  | Prefix => match v with Str _ => true | _ => false end
  | Gt | Gte => match v with Num n => num_is_finite n | _ => false end
  | Eq => match v with Num n => num_is_finite n | Str _ => true | _ => false end
  | _ => false
  end.

(** [_lexicographicSuccessor]; the loop goes from the last code unit to the first. *)
Fixpoint successor_loop (reversed : ustring) : option ustring :=
  match reversed with
  | [] => None
  | code :: rest => if (code <? 0xffff)%Z then Some (rev rest ++ [(code + 1)%Z]) else successor_loop rest
  end.
Definition lexicographicSuccessor (prefix : ustring) : option ustring := successor_loop (rev prefix).

(** The range, and whether the filter is served by it alone. *)
Definition range_of (filter : FieldFilter) : option (key_range * bool) :=
  match operator filter, f_value filter with
  | Eq, Num n => Some (only (KNum n), true)
  | Eq, Str s => Some (only (KStr s), true)
  | Gt, Num n => Some (lowerBound (KNum n) true, false)
  | Gte, Num n => Some (lowerBound (KNum n) false, false)
  | Prefix, Str p =>
      match lexicographicSuccessor p with
      | None => Some (lowerBound (KStr p) false, false)
      | Some succ => Some (bound (KStr p) (KStr succ) false true, false)
      end
  | _, _ => None
  end.

(** The loop of [_pickIDBStrategy]; [before] are the filters passed over. *)
Fixpoint pick (indexed : list ustring) (before filters : list FieldFilter)
    : option (ustring * key_range * list FieldFilter) :=
  match filters with
  | [] => None
  | filter :: after =>
      let next := pick indexed (before ++ [filter]) after in
      if negb (bool_decide (f_path filter ∈ indexed)) then next
      else if negb (isIDBAcceleratable (operator filter) (f_value filter)) then next
      else match range_of filter with
           | None => next
           | Some (range, drop) =>
               Some (f_path filter, range, if drop then before ++ after else before ++ filter :: after)
           end
  end.

Definition pickIDBStrategy (indexName : ustring) (filters : list FieldFilter) (s : idb)
    : option (ustring * key_range * list FieldFilter) :=
  match map_get indexName (_indexedFields s) with
  | None => None
  | Some indexed => pick indexed [] filters
  end.

(** The order of a cursor on a store, and on an index. *)
Definition path_order (a b : ustring * value) : num :=
  if ustring_lt a.1 b.1 then (-1)%Z else if ustring_lt b.1 a.1 then 1%Z else 0%Z.

Definition index_order (path : ustring) (a b : ustring * value) : num :=
  match index_key_of path a.2, index_key_of path b.2 with
  | Some ka, Some kb => if key_lt ka kb then (-1)%Z else if key_lt kb ka then 1%Z else path_order a b
  | _, _ => 0%Z
  end.

Definition index_cursor (path : ustring) (range : key_range) (rs : list (ustring * value)) : list (ustring * value) :=
  js_sort (index_order path)
    (List.filter (fun r => match index_key_of path r.2 with Some k => in_range range k | None => false end) rs).

Definition idb_query (indexName : ustring) (filters : list FieldFilter) (sort : option (list SortClause))
    (limit offset : option num) : eff idb (list IndexEntry) :=
  let! db := getDB in
  let! _ := lift (check_page limit offset) in
  match map_get indexName (objectStores db) with
  | None => ret []
  | Some store =>
      let! s := get in
      let! found :=
        match pickIDBStrategy indexName filters s with
        | Some (path, range, remaining) =>
            if bool_decide (path ∈ indexNames store)
            then ret (List.filter (fun r => matchesFilters r.2 remaining) (index_cursor path range (records store)))
            else lift (throw "NotFoundError")
        | None => ret (List.filter (fun r => matchesFilters r.2 filters) (js_sort path_order (records store)))
        end in
      ret (order_and_page (map (fun r => Entry r.1 r.2) found) sort limit offset)
  end.

(** [IDBIndexStorage] as a storage of the manager. *)
Definition IDBIndexStorage (others : nat -> database -> database) : IndexStorage idb := {|
  initialize := initialize_ others;
  put := idb_put;
  delete := idb_delete;
  query := idb_query;
  get_entry := idb_get;
  clear := idb_clear;
|}.

(** ** The successor of a prefix *)

Definition unit_ok (u : Z) : Prop := (0 <= u <= 0xffff)%Z.

Lemma successor_shape r s : Forall unit_ok r -> successor_loop r = Some s ->
  exists q c m, rev r = q ++ c :: replicate m 0xffff%Z /\ s = q ++ [(c + 1)%Z] /\ (c < 0xffff)%Z.
Proof.
  intros Hr. induction Hr as [|u r Hu _ IH]; simpl; [done|]. destruct (Z.ltb_spec u 0xffff) as [Hlt|Hge].
  - intros [= <-]. exists (rev r), u, 0. done.
  - intros Hs. destruct (IH Hs) as (q & c & m & -> & -> & Hc). exists q, c, (S m). split_and!; [|done|done].
    unfold unit_ok in Hu. assert (u = 0xffff)%Z as -> by lia.
    by rewrite replicate_S_end, app_comm_cons, app_assoc.
Qed.

Lemma top_prefix x m : Forall unit_ok x -> ustring_lt x (replicate m 0xffff%Z) = negb (startsWith x (replicate m 0xffff%Z)).
Proof.
  intros Hx. revert m. induction Hx as [|u x Hu _ IH]; intros [|m]; try done. cbn [replicate ustring_lt startsWith]. rewrite IH. unfold unit_ok in Hu.
  destruct (Z.ltb_spec u 65535), (Z.eqb_spec u 65535), (Z.eqb_spec 65535 u); try lia; done.
Qed.

Lemma ustring_lt_nil x : ustring_lt x [] = false.
Proof. by destruct x. Qed.

Lemma successor_range p s x : Forall unit_ok p -> Forall unit_ok x -> lexicographicSuccessor p = Some s ->
  startsWith x p = negb (ustring_lt x p) && ustring_lt x s.
Proof.
  intros Hp Hx Hs. destruct (successor_shape (rev p) s) as (q & c & m & Hq & -> & Hc); [by apply List.Forall_rev|done|].
  rewrite rev_involutive in Hq. subst p. clear Hs Hp. revert x Hx. induction q as [|u q IH]; intros x Hx.
  - destruct x as [|y x]; [done|]. apply Forall_cons in Hx as [_ Hx]. simpl. rewrite top_prefix by done.
    destruct (Z.ltb_spec y c), (Z.eqb_spec y c), (Z.eqb_spec c y), (Z.ltb_spec y (c + 1)), (Z.eqb_spec y (c + 1)); try lia; simpl;
      rewrite ?ustring_lt_nil; by destruct (startsWith x (replicate m 65535%Z)).
  - destruct x as [|y x]; [done|]. apply Forall_cons in Hx as [_ Hx]. simpl. rewrite IH by done.
    destruct (Z.ltb_spec y u), (Z.eqb_spec y u), (Z.eqb_spec u y); try lia; simpl; try done;
      by rewrite ?andb_false_r.
Qed.

(** The successor of a prefix is exact: the half-open range from the prefix to it
    contains a string if and only if the string starts with the prefix, also when the
    prefix ends in the highest code units. *)
Theorem successor_exact p s x : Forall unit_ok p -> Forall unit_ok x -> lexicographicSuccessor p = Some s ->
  startsWith x p = negb (ustring_lt x p) && ustring_lt x s.
Proof. apply successor_range. Qed.

(** ** The index finds what the scan finds *)

Lemma eval_path_walk ks v : units "length" ∉ ks ->
  eval_path v ks = match walk v ks with Undefined => None | x => Some x end.
Proof.
  revert v. induction ks as [|k ks IH]; intros v Hn; [by destruct v|]. apply not_elem_of_cons in Hn as [Hk Hn].
  cbn [eval_path walk]. destruct v as [| | | | | |l|ps]; cbn [is_object]; try done.
  - by rewrite bool_decide_false by done.
  - unfold get_prop. simpl. by rewrite walk_undefined.
  - rewrite bool_decide_false by done. unfold get_prop. cbn [own_props].
    destruct (map_get k (elements l)) as [x|]; simpl; [by apply IH|]. rewrite bool_decide_false by done. by rewrite walk_undefined.
  - unfold get_prop. cbn [own_props]. destruct (map_get k ps) as [x|]; simpl; [by apply IH|]. by rewrite walk_undefined.
Qed.

Lemma index_key_spec path fields : units "length" ∉ split_dots path ->
  index_key_of path fields = key_of (extractField fields path).
Proof.
  intros Hn. unfold index_key_of, extractField. rewrite eval_path_walk by done. by destruct (walk fields (split_dots path)).
Qed.

(** A value that the index can hold, or that no range filter matches. *)
Definition indexable (v : value) : bool :=
  match v with Bool _ | Arr _ | Obj _ => false | Str s => forallb (fun u => (0 <=? u) && (u <=? 0xffff))%Z s | _ => true end.

Definition selected (range : key_range) (v : value) : bool :=
  match key_of v with Some k => in_range range k | None => false end.

Lemma num_lt_irrefl n : num_lt n n = false.
Proof. destruct n; try done. simpl. by rewrite (proj2 (Qle_bool_iff q q) (Qle_refl q)). Qed.

Lemma three_way_lt {A} (lt : A -> A -> bool) x y : bool_decide (three_way lt x y = Datatypes.Lt) = lt x y.
Proof. unfold three_way. destruct (lt x y); [done|]. by destruct (lt y x). Qed.

Lemma key_lt_num x y : key_lt (KNum x) (KNum y) = num_lt x y.
Proof. apply three_way_lt. Qed.
Lemma key_lt_str x y : key_lt (KStr x) (KStr y) = ustring_lt x y.
Proof. apply three_way_lt. Qed.

Lemma ustring_lt_total x y : ustring_lt x y = false -> ustring_lt y x = false -> x = y.
Proof.
  revert y. induction x as [|a x IH]; intros [|b y]; try done. simpl.
  destruct (Z.ltb_spec a b), (Z.eqb_spec a b), (Z.ltb_spec b a), (Z.eqb_spec b a); try lia; simpl; try done.
  subst. intros ??. f_equal. by apply IH.
Qed.

Lemma ustring_lt_irrefl x : ustring_lt x x = false.
Proof. induction x as [|a x IH]; [done|]. simpl. rewrite IH. destruct (Z.ltb_spec a a); [lia|]. by rewrite andb_false_r. Qed.

Lemma num_between x y : num_is_finite y = true -> is_nan x = false ->
  negb (num_lt x y) && negb (num_lt y x) = num_eq x y.
Proof.
  destruct x as [p| | |], y as [q| | |]; try done. intros _ _. simpl. rewrite !negb_involutive.
  apply eq_true_iff_eq. rewrite andb_true_iff, !Qle_bool_iff, Qeq_bool_iff. split.
  - intros []. by apply Qle_antisym.
  - intros ->. split; apply Qle_refl.
Qed.

Lemma key_of_arr l : key_of (Arr l) = None \/ exists ks, key_of (Arr l) = Some (KArr ks).
Proof. simpl. destruct ((fix go (l : list value) := _) l) as [ks|]; simpl; eauto. Qed.

(** Equality is decided by the range alone. *)
Lemma eq_selected f v range : operator f = Eq -> isIDBAcceleratable Eq (f_value f) = true ->
  range_of f = Some (range, true) -> selected range v = strict_eq v (f_value f).
Proof.
  intros Ho Ha Hr. unfold range_of in Hr. rewrite Ho in Hr. unfold selected, only in *.
  destruct (f_value f) as [| | |n|s| | |]; try done; injection Hr as <-; cbn in Ha.
  - destruct v as [| | |m|s|t|l|ps]; try done; cbn [strict_eq].
    + cbn [key_of]. destruct (is_nan m) eqn:Em; [by destruct m|]. unfold in_range. cbn [lower upper]. rewrite !key_lt_num.
      by apply num_between.
    + cbn [key_of]. by destruct (is_nan t).
    + by destruct (key_of_arr l) as [->|[ks ->]].
  - destruct v as [| | |m|s'|t|l|ps]; try done; cbn [strict_eq].
    + cbn [key_of]. by destruct (is_nan m).
    + cbn [key_of]. unfold in_range. cbn [lower upper]. rewrite !key_lt_str. apply eq_true_iff_eq.
      rewrite bool_decide_eq_true, andb_true_iff, !negb_true_iff. split.
      * intros []. by apply ustring_lt_total.
      * intros ->. by rewrite ustring_lt_irrefl.
    + cbn [key_of]. by destruct (is_nan t).
    + by destruct (key_of_arr l) as [->|[ks ->]].
Qed.

Lemma gt_selected v n : num_is_finite n = true -> indexable v = true -> range_filter js_gt v (Num n) = true ->
  match key_of v with Some k => in_range (lowerBound (KNum n) true) k | None => false end = true.
Proof.
  intros Hn Hi Hm. destruct n as [q| | |]; try done. unfold range_filter, js_gt in Hm. rewrite !andb_true_iff in Hm.
  destruct Hm as [[Hnull _] Hm]. apply bool_decide_eq_true in Hm. destruct v as [| | |m|s|t|l|ps]; try done; cbn [key_of].
  - destruct m; try discriminate Hm; cbn [is_nan]; unfold in_range, lowerBound; cbn [lower upper]; rewrite key_lt_num, andb_true_r; cbn in Hm |- *; congruence.
  - by destruct t.
Qed.

Lemma gte_selected v n : num_is_finite n = true -> indexable v = true -> range_filter js_gte v (Num n) = true ->
  match key_of v with Some k => in_range (lowerBound (KNum n) false) k | None => false end = true.
Proof.
  intros Hn Hi Hm. destruct n as [q| | |]; try done. unfold range_filter, js_gte in Hm. rewrite !andb_true_iff in Hm.
  destruct Hm as [[Hnull _] Hm]. apply bool_decide_eq_true in Hm. destruct v as [| | |m|s|t|l|ps]; try done; cbn [key_of].
  - destruct m as [r| | |]; try discriminate Hm; cbn [is_nan]; unfold in_range, lowerBound; cbn [lower upper]; rewrite key_lt_num, andb_true_r; cbn in Hm |- *; try done.
    by injection Hm as ->.
  - by destruct t.
Qed.

(** A range filter matches nothing outside its range. *)
Lemma range_selected f fields range :
  isIDBAcceleratable (operator f) (f_value f) = true -> range_of f = Some (range, false) ->
  indexable (extractField fields (f_path f)) = true ->
  (forall p, f_value f = Str p -> Forall unit_ok p) ->
  matchesFilter fields f = true -> selected range (extractField fields (f_path f)) = true.
Proof.
  intros Ha Hr Hi Hu Hm. unfold matchesFilter in Hm. unfold range_of in Hr. unfold selected.
  set (v := extractField fields (f_path f)) in *.
  destruct (operator f) eqn:Ho; try done; destruct (f_value f) as [| | |n|p| | |] eqn:Ef; try done.
  - injection Hr as <-. by apply gt_selected.
  - injection Hr as <-. by apply gte_selected.
  - destruct v as [| | |m|s|t|l|ps]; try done. cbn [key_of].
    assert (Hs : Forall unit_ok s).
    { apply Forall_forall. intros u Hin. cbn in Hi. rewrite forallb_forall in Hi. apply list_elem_of_In in Hin.
      apply Hi in Hin. rewrite andb_true_iff, !Z.leb_le in Hin. exact Hin. }
    destruct (lexicographicSuccessor p) as [succ|] eqn:Es; injection Hr as <-; unfold in_range, lowerBound, bound;
      cbn [lower upper]; rewrite ?key_lt_str.
    + rewrite <- (successor_range p succ s (Hu p eq_refl) Hs Es). exact Hm.
    + rewrite andb_true_r. apply negb_true_iff. clear - Hm. revert s Hm. induction p as [|u p IH]; intros [|y s] Hm; try done.
      cbn in Hm |- *. apply andb_true_iff in Hm as [->%Z.eqb_eq Hm]. rewrite (IH s Hm), Z.ltb_irrefl. by rewrite andb_false_r.
Qed.

Lemma matchesFilters_app r fs gs : matchesFilters r (fs ++ gs) = matchesFilters r fs && matchesFilters r gs.
Proof. apply forallb_app. Qed.

(** The filters of a query as the strategy splits them. *)
Lemma pick_spec indexed before filters path range remaining r :
  pick indexed before filters = Some (path, range, remaining) ->
  (forall f, f ∈ filters -> f_path f ∈ indexed -> indexable (extractField r (f_path f)) = true) ->
  (forall f p, f ∈ filters -> f_value f = Str p -> Forall unit_ok p) ->
  matchesFilters r (before ++ filters) = selected range (extractField r path) && matchesFilters r remaining.
Proof.
  revert before. induction filters as [|f fs IH]; intros before E Hi Hu; [done|]. cbn [pick] in E.
  assert (Hnext : pick indexed (before ++ [f]) fs = Some (path, range, remaining) ->
    matchesFilters r (before ++ f :: fs) = selected range (extractField r path) && matchesFilters r remaining).
  { intros En. apply IH in En; [by rewrite <- app_assoc in En|..].
    - intros g Hg. apply Hi. by right.
    - intros g p Hg. apply Hu. by right. }
  case_bool_decide as Hin; cbn [negb] in E; [|auto]. destruct (isIDBAcceleratable _ _) eqn:Ha; cbn [negb] in E; [|auto].
  destruct (range_of f) as [[rg drp]|] eqn:Hr; [|auto]. injection E as <- <- <-. destruct drp.
  - assert (Ho : operator f = Eq).
    { unfold range_of in Hr. destruct (operator f), (f_value f); try done. by destruct (lexicographicSuccessor s). }
    rewrite Ho in Ha. rewrite (eq_selected f _ rg Ho Ha Hr), !matchesFilters_app. cbn [matchesFilters forallb].
    unfold matchesFilter at 1. rewrite Ho. fold (matchesFilters r fs).
    by destruct (matchesFilters r before), (strict_eq _ _), (matchesFilters r fs).
  - rewrite !matchesFilters_app. cbn [matchesFilters forallb]. fold (matchesFilters r fs).
    destruct (matchesFilter r f) eqn:Hm; [|by rewrite !andb_false_r].
    rewrite (range_selected f r rg Ha Hr); [done|by apply Hi; [left|]| |done]. intros p. apply Hu. by left.
Qed.

Lemma pick_indexed indexed before filters path range remaining :
  pick indexed before filters = Some (path, range, remaining) -> path ∈ indexed.
Proof.
  revert before. induction filters as [|f fs IH]; intros before; [done|]. cbn [pick].
  case_bool_decide; cbn [negb]; [|by apply IH]. destruct (isIDBAcceleratable _ _); cbn [negb]; [|by apply IH].
  destruct (range_of f) as [[]|]; [|by apply IH]. by intros [= <- _ _].
Qed.

Lemma filter_perm {A} (f : A -> bool) (l k : list A) : l ≡ₚ k -> List.filter f l ≡ₚ List.filter f k.
Proof.
  induction 1 as [|x l k _ IH|x y l|l k m _ IH1 _ IH2]; simpl; [done| | |by etrans].
  - destruct (f x); [by constructor|done].
  - destruct (f x), (f y); try done. apply Permutation_swap.
Qed.

Lemma filter_filter {A} (f g : A -> bool) (l : list A) : List.filter f (List.filter g l) = List.filter (fun x => g x && f x) l.
Proof. induction l as [|x l IH]; [done|]. simpl. destruct (g x); simpl; [destruct (f x); by rewrite IH|done]. Qed.

(** C8. The storage on IndexedDB answers like the one in memory: on the same records, and
    whatever index its strategy picks, a query finds the same entries, when the indexed
    values are strings, numbers, dates or missing and the recorded indexes exist. *)
Theorem idb_query_agrees s n filters store :
  _db s = true -> map_get n (objectStores (shared s)) = Some store ->
  (forall indexed p, map_get n (_indexedFields s) = Some indexed -> p ∈ indexed ->
     p ∈ indexNames store /\ units "length" ∉ split_dots p /\
     forall r, r ∈ records store -> indexable (extractField r.2 p) = true) ->
  (forall f p, f ∈ filters -> f_value f = Str p -> Forall unit_ok p) ->
  exists l m, idb_query n filters None None None s = (Ok l, s) /\
    memory_query n filters None None None [(n, records store)] = (Ok m, [(n, records store)]) /\ l ≡ₚ m.
Proof.
  intros Hdb Hst Hidx Hu. exists (map (fun r => Entry r.1 r.2) match pickIDBStrategy n filters s with
    | Some (path, range, remaining) => List.filter (fun r => matchesFilters r.2 remaining) (index_cursor path range (records store))
    | None => List.filter (fun r => matchesFilters r.2 filters) (js_sort path_order (records store)) end).
  exists (map (fun r => Entry r.1 r.2) (List.filter (fun r => matchesFilters r.2 filters) (records store))).
  assert (Hmem : memory_query n filters None None None [(n, records store)] =
    (Ok (map (fun r => Entry r.1 r.2) (List.filter (fun r => matchesFilters r.2 filters) (records store))), [(n, records store)])).
  { unfold memory_query, bind, get. cbn [map_get]. by rewrite decide_True. }
  unfold idb_query, getDB, bind, get, ret, lift. rewrite Hdb, Hst. unfold check_page.
  destruct (pickIDBStrategy n filters s) as [[[path range] remaining]|] eqn:Ep.
  - unfold pickIDBStrategy in Ep. destruct (map_get n (_indexedFields s)) as [indexed|] eqn:Ei; [|done].
    assert (Hspec : forall r, r ∈ records store ->
      matchesFilters r.2 filters = selected range (extractField r.2 path) && matchesFilters r.2 remaining).
    { intros r Hr. apply (pick_spec indexed [] filters); [done| |done]. intros f _ Hf. by apply (Hidx indexed (f_path f) eq_refl Hf). }
    destruct (Hidx indexed path eq_refl (pick_indexed _ _ _ _ _ _ Ep)) as (Hin & Hlen & _). rewrite bool_decide_true by done.
    split; [done|]. split; [exact Hmem|]. apply Permutation_map. unfold index_cursor. rewrite filter_perm by apply js_sort_perm.
    rewrite filter_filter. erewrite List.filter_ext_in; [done|]. intros r Hr.
    rewrite (index_key_spec path r.2 Hlen). apply list_elem_of_In in Hr. by rewrite (Hspec r Hr).
  - split; [done|]. split; [exact Hmem|]. apply Permutation_map, filter_perm, js_sort_perm.
Qed.

(** The agreement stops at booleans, which are no keys: a record with [true] is greater
    than 0 for the scan and is not in the index that the range is read from. *)
Theorem range_misses_booleans :
  let f := Filter (units "a") Gt (Num 0%Z) in
  let r := Obj [(units "a", Bool true)] in
  let s := mk_idb (Database 2 [(units "i", ObjectStore [(units "d", r)] [units "a"])]) true [units "i"] [(units "i", [units "a"])] in
  (idb_query (units "i") [f] None None None s).1 = Ok [] /\
  (memory_query (units "i") [f] None None None [(units "i", [(units "d", r)])]).1 = Ok [Entry (units "d") r].
Proof. split; vm_compute; reflexivity. Qed.

(** ** Opening a database that other tabs use too *)

(** Other tabs only add, and do not leave the version one above where it was. *)
Record considerate (other : database -> database) : Prop := {
  co_version db : other db = db \/ (version db + 1 < version (other db))%Z;
  co_keeps db n store : map_get n (objectStores db) = Some store ->
    exists store', map_get n (objectStores (other db)) = Some store' /\ indexNames store ⊆ indexNames store';
}.

(** What the storage remembers of the database is there. *)
Record idb_ok (s : idb) : Prop := {
  ok_stores n : n ∈ _initializedStores s -> exists store, map_get n (objectStores (shared s)) = Some store;
  ok_indexes n indexed : map_get n (_indexedFields s) = Some indexed ->
    exists store, map_get n (objectStores (shared s)) = Some store /\ indexed ⊆ indexNames store;
}.

(** The database has grown. *)
Definition grown (db db' : database) : Prop :=
  forall n store, map_get n (objectStores db) = Some store ->
    exists store', map_get n (objectStores db') = Some store' /\ indexNames store ⊆ indexNames store'.

#[local] Instance grown_preorder : PreOrder grown.
Proof.
  split; [intros db n st E; by exists st|]. intros a b c H1 H2 n st E.
  destruct (H1 _ _ E) as (st1 & E1 & S1). destruct (H2 _ _ E1) as (st2 & E2 & S2). exists st2. split; [done|set_solver].
Qed.

Lemma open_current_grown db : grown db (open_current db).
Proof. unfold open_current. destruct (version db =? 0)%Z; [|done]. intros n st E. by exists st. Qed.

Lemma indexes_added (ix missing : list ustring) :
  let r := foldl (fun ix p => if bool_decide (p ∈ ix) then ix else ix ++ [p]) ix missing in ix ⊆ r /\ missing ⊆ r.
Proof.
  revert ix. induction missing as [|p ps IH]; intros ix; simpl; [set_solver|].
  destruct (IH (if bool_decide (p ∈ ix) then ix else ix ++ [p])) as [H1 H2]. case_bool_decide; set_solver.
Qed.

Lemma upgrade_spec n missing db :
  grown db (upgrade n missing db) /\
  exists store, map_get n (objectStores (upgrade n missing db)) = Some store /\ missing ⊆ indexNames store /\
    indexNames (default (ObjectStore [] []) (map_get n (objectStores db))) ⊆ indexNames store.
Proof.
  unfold upgrade, grown. cbn [objectStores]. destruct (indexes_added (indexNames (default (ObjectStore [] []) (map_get n (objectStores db)))) missing) as [H1 H2].
  split.
  - intros n' st E. rewrite map_get_set. case_decide as Hn; [|by exists st]. subst n'. eexists. split; [done|].
    cbn [indexNames]. by rewrite E in *.
  - eexists. rewrite map_get_set_eq. split; [done|]. done.
Qed.

Lemma filtered_or_in (ix paths : list ustring) p : p ∈ paths ->
  p ∈ ix \/ p ∈ List.filter (fun p => negb (bool_decide (p ∈ ix))) paths.
Proof.
  intros Hp. destruct (decide (p ∈ ix)) as [|Hout]; [by left|]. right. apply list_elem_of_In, filter_In.
  split; [by apply list_elem_of_In|]. by rewrite bool_decide_false.
Qed.

(** An attempt that is not disturbed succeeds. *)
Lemma reopen_undisturbed n paths db : exists db' store,
  reopen n (probe_store n paths db) db = Ok db' /\ grown db db' /\ map_get n (objectStores db') = Some store /\
  default [] (probedIndexNames (probe_store n paths db)) ⊆ indexNames store /\ paths ⊆ indexNames store.
Proof.
  unfold reopen, probe_store, open_at. destruct (map_get n (objectStores db)) as [st|] eqn:Est;
    cbn [probedIndexNames missingIndexFields currentVersion default from_option].
  - set (missing := List.filter _ paths). rewrite bool_decide_false by done. cbn [orb].
    destruct (Nat.eqb_spec (length missing) 0) as [E0|]; cbn [negb].
    + rewrite Z.ltb_irrefl, Z.eqb_refl. exists db, st. apply length_zero_iff_nil in E0. split_and!; try done.
      intros p Hp. destruct (filtered_or_in (indexNames st) paths p Hp) as [|Hin]; [done|]. fold missing in Hin. rewrite E0 in Hin. by apply elem_of_nil in Hin.
    + destruct (Z.ltb_spec (version db + 1) (version db)); [lia|]. destruct (Z.eqb_spec (version db + 1) (version db)); [lia|].
      destruct (upgrade_spec n missing db) as (Hg & store & Hst & Hm & Hold). rewrite Est in Hold.
      eexists _, store. split_and!; [done|exact Hg|done|done|]. intros p Hp.
      destruct (filtered_or_in (indexNames st) paths p Hp) as [|Hin]; [by apply Hold|by apply Hm].
  - rewrite bool_decide_true by done. cbn [orb]. destruct (Z.ltb_spec (version db + 1) (version db)); [lia|].
    destruct (Z.eqb_spec (version db + 1) (version db)); [lia|].
    destruct (upgrade_spec n paths db) as (Hg & store & Hst & Hm & _).
    eexists _, store. split_and!; [done|exact Hg|done|set_solver|done].
Qed.

(** A disturbed one sees a version error. *)
Lemma reopen_disturbed n paths db db' : (version db + 1 < version db')%Z ->
  reopen n (probe_store n paths db) db' = throw "VersionError".
Proof.
  intros Hv. assert (Ev : currentVersion (probe_store n paths db) = version db) by (unfold probe_store; by destruct (map_get _ _)).
  unfold reopen, open_at. rewrite Ev. destruct (Z.ltb_spec (version db + 1) (version db')); [|lia].
  destruct (Z.ltb_spec (version db) (version db')); [|lia]. by destruct (_ || _).
Qed.

Lemma open_loop_spec others n paths left attempt (s : idb) : (forall k, considerate (others k)) ->
  left + attempt = MAX_OPEN_ATTEMPTS -> (exists k, attempt <= k < MAX_OPEN_ATTEMPTS /\ forall db, others k db = db) ->
  exists probed s' store, open_loop others n paths left attempt s = (Ok probed, s') /\ grown (shared s) (shared s') /\
    _db s' = true /\ _initializedStores s' = _initializedStores s /\ _indexedFields s' = _indexedFields s /\
    map_get n (objectStores (shared s')) = Some store /\ probed ⊆ indexNames store /\ paths ⊆ indexNames store.
Proof.
  intros Hco. revert attempt s. induction left as [|left IH]; intros attempt s Hl (k & Hk & Hid); [lia|].
  cbn [open_loop]. rewrite bind_modify. set (db := open_current (shared s)). assert (Hgs : grown (shared s) db) by apply open_current_grown.
  rewrite (bind_ok _ _ _ (s <| shared := db |>) (s <| shared := db |>)) by done. cbv zeta.
  change (shared (s <| shared := db |>)) with db. rewrite bind_modify. set (s2 := _ <| shared := others attempt _ |>).
  rewrite (bind_ok _ _ s2 s2 s2) by done. change (shared s2) with (others attempt db).
  destruct (co_version _ (Hco attempt) db) as [Esame|Hmore].
  - rewrite Esame. destruct (reopen_undisturbed n paths db) as (db' & store & E & Hg & Hst & Hp & Hpaths). rewrite E, bind_modify.
    eexists _, _, store. split; [done|]. split; [by etrans; [exact Hgs|exact Hg]|done].
  - rewrite reopen_disturbed by done. cbn [throw]. destruct (decide (k = attempt)) as [->|Hne]; [rewrite Hid in Hmore; lia|].
    destruct (Nat.ltb_spec attempt (MAX_OPEN_ATTEMPTS - 1)); [|lia]. cbn [String.eqb andb].
    destruct (IH (S attempt) s2) as (pr & s' & store & E & Hg & Hrest); [lia|exists k; split; [lia|done]|].
    exists pr, s', store. split; [exact E|]. split; [|exact Hrest]. etrans; [exact Hgs|]. etrans; [|exact Hg].
    intros n' st' E'. by apply (co_keeps _ (Hco attempt)).
Qed.

(** [initialize] reaches its goal beside other tabs: if they only add to the database
    and leave one of the four attempts alone, it returns, the object store and an
    index for every field exist, and everything the storage remembers of this and of
    other indexes is in the database. *)
Theorem initialize_reaches others n fields (s : idb) :
  (forall k, considerate (others k)) -> (exists k, k < MAX_OPEN_ATTEMPTS /\ forall db, others k db = db) -> idb_ok s ->
  exists s' store, initialize_ others n fields s = (Ok tt, s') /\ idb_ok s' /\ _db s' = true /\
    map_get n (objectStores (shared s')) = Some store /\ (fd_path <$> fields) ⊆ indexNames store.
Proof.
  intros Hco (k & Hk & Hid) Hok. unfold initialize_. cbv zeta. rewrite (bind_ok _ _ s s s) by done.
  set (paths := fd_path <$> fields). destruct (set_has n _ && _ && _) eqn:Hcov.
  - rewrite !andb_true_iff in Hcov. destruct Hcov as [[_ Hdb] Hc]. destruct (map_get n (_indexedFields s)) as [cached|] eqn:Ec; [|done].
    destruct (ok_indexes _ Hok n cached Ec) as (store & Hst & Hsub). exists s, store. split_and!; try done.
    intros p Hp. apply Hsub. rewrite forallb_forall in Hc. apply list_elem_of_In in Hp. by apply Hc, bool_decide_eq_true in Hp.
  - rewrite bind_modify.
    destruct (open_loop_spec others n paths MAX_OPEN_ATTEMPTS 0 (s <| _db := false |>) Hco) as
      (probed & s1 & store & E & Hg & Hdb & Hi & Hf & Hst & Hpr & Hpaths); [done|exists k; split; [lia|done]|].
    rewrite (bind_ok _ _ _ _ _ E). eexists _, store. split; [done|]. split; [|by split].
    split; simpl.
    + intros n'. rewrite elem_of_set_add. intros [->|Hin]; [eauto|]. rewrite Hi in Hin.
      destruct (ok_stores _ Hok n' Hin) as [st Hst']. destruct (Hg _ _ Hst') as (st' & ? & _). eauto.
    + intros n' indexed. rewrite map_get_set. case_decide as Hn; [subst n'; intros [= <-]|].
      * exists store. split; [done|]. intros p. rewrite elem_of_foldl_set_add. set_solver.
      * rewrite Hf. intros Hn'. destruct (ok_indexes _ Hok n' indexed Hn') as (st & Hst' & Hsub).
        destruct (Hg _ _ Hst') as (st' & ? & ?). exists st'. split; [done|set_solver].
Qed.

(** Where another tab upgrades the database by exactly one version in between, opening it
    at that version runs no upgrade and throws no error: [initialize] returns, and the
    object store that it was called for does not exist. *)
Theorem initialize_race :
  let others := fun k : nat => upgrade (units "theirs") [] in
  let bumped := fun k db => if k =? 0 then Database (version db + 1) (objectStores (others k db)) else db in
  let s := mk_idb (Database 1 []) false [] [] in
  let s' := (initialize_ bumped (units "ours") [FieldDefinition (units "a") StringField] s).2 in
  (initialize_ bumped (units "ours") [FieldDefinition (units "a") StringField] s).1 = Ok tt /\
  map_get (units "ours") (objectStores (shared s')) = None /\
  (idb_put (units "ours") (units "d") (Obj []) s').1 = throw "NotFoundError".
Proof. vm_compute. repeat split. Qed.

End Idb.
End IndexIdb.
