(* ===== verification/IndexIntegration.v ===== *)
(** * Indexing tracked documents

    Models [packages/collabswarm-index/src/collabswarm-index-integration.ts]: the
    documents that are tracked, the handlers registered on them, and the calls of the
    [IndexManager] that their changes cause; over the in-memory storage, the index
    holds exactly the tracked documents as they are. *)
From stdpp Require Import base numbers list list_numbers strings.
From Stdlib Require Import ZArith Lia.
From S2P Require Import Prelude Index IndexManager IndexTheory.

Open Scope list_scope.
Open Scope nat_scope.

Module IndexIntegration.
Import Index IndexManager IndexTheory.

Section Integration.
  Context `{RT : !Runtime} {DocType : Type} (extractor : DocType -> value).

  Abbreviation managerT := (@manager stores).

(** [_trackedDocuments] with what each document holds now, and the documents on which
    the handler of the integration is registered. *)
Record integration := mk_integration {
  _manager : managerT;
  _trackedDocuments : list (ustring * DocType);
  handlers : list ustring;
}.

#[export] Instance settable_integration : Settable integration :=
  fun i => mk_integration (_manager i) (_trackedDocuments i) (handlers i).

(** A call of the manager whose failure is logged. *)
Definition on_manager (m : eff managerT unit) : eff integration unit :=
  fun i => let r := m (_manager i) in
           (match r.1 with Err OutOfFuel => Err OutOfFuel | _ => Ok tt end, i <| _manager := r.2 |>).

Definition trackDocument (path : ustring) (document : DocType) : eff integration unit :=
  let! i := get in
  if map_has path (_trackedDocuments i) then ret tt
  else
    let! _ := modify (fun i => i <| _trackedDocuments := map_set path document (_trackedDocuments i) |>
                                <| handlers := set_add path (handlers i) |>) in
    on_manager (updateIndex extractor path document).

(** A tracked document changes, by a local or by a remote change. *)
Definition documentChanged (path : ustring) (current : DocType) : eff integration unit :=
  let! _ := modify (fun i => if map_has path (_trackedDocuments i)
                             then i <| _trackedDocuments := map_set path current (_trackedDocuments i) |> else i) in
  let! i := get in
  when (set_has path (handlers i)) (on_manager (updateIndex extractor path current)).

Definition untrackDocument (path : ustring) : eff integration unit :=
  let! i := get in
  if map_has path (_trackedDocuments i) then
    let! _ := modify (fun i => i <| handlers := List.filter (fun p => negb (bool_decide (p = path))) (handlers i) |>
                                <| _trackedDocuments := map_delete path (_trackedDocuments i) |>) in
    on_manager (removeFromIndex path)
  else ret tt.

Definition getTrackedPaths (i : integration) : list ustring := (_trackedDocuments i).*1.

Definition dispose : eff integration unit :=
  modify (fun i => i <| handlers := List.filter (fun p => negb (set_has p (_trackedDocuments i).*1)) (handlers i) |>
                     <| _trackedDocuments := [] |>).

Inductive event := Track (p : ustring) (doc : DocType) | Changed (p : ustring) (doc : DocType) | Untrack (p : ustring).

Definition run_event (e : event) : eff integration unit :=
  match e with
  | Track p doc => trackDocument p doc
  | Changed p doc => documentChanged p doc
  | Untrack p => untrackDocument p
  end.

(** Under every index, the tracked documents of its collection. *)
Definition tracked_view (defs : list (ustring * IndexDefinition)) (docs : list (ustring * DocType)) : view :=
  View defs (fun n p => if in_prefix (View defs (fun _ _ => @None DocType)) n p then map_get p docs else None).

Record tracks (i : integration) : Prop := {
  tr_refines : refines extractor (_manager i) (tracked_view (_definitions (_manager i)) (_trackedDocuments i));
  tr_handlers p : p ∈ handlers i <-> p ∈ (_trackedDocuments i).*1;
}.

Lemma refines_ext (s : managerT) v w : refines extractor s v -> defined w = defined v ->
  (forall n p, holds w n p = holds v n p) -> refines extractor s w.
Proof.
  intros [H1 H2 H3 H4 H5 H6] Ed Eh. split; rewrite ?Ed; try done.
  - intros n p Hn. rewrite Eh. by apply H5.
  - intros n p. rewrite Eh. apply H6.
Qed.

Lemma on_manager_state (m : eff managerT unit) i :
  (on_manager m i).2 = i <| _manager := (m (_manager i)).2 |>.
Proof. done. Qed.

(** After an update the view has the new document. *)
Lemma update_tracks p doc (s : managerT) docs :
  refines extractor s (tracked_view (_definitions s) docs) ->
  let s' := (updateIndex extractor p doc s).2 in
  refines extractor s' (tracked_view (_definitions s') (map_set p doc docs)).
Proof.
  intros Hr s'. pose proof (update_refines extractor p doc s _ Hr) as Hr'. fold s' in Hr'.
  pose proof (rf_defs _ _ _ Hr') as Ed. cbn [view_step defined tracked_view] in Ed. rewrite Ed.
  eapply refines_ext; [exact Hr'|done|]. intros n q. unfold tracked_view, view_step, in_prefix. cbn [holds defined].
  rewrite map_get_set. destruct (map_get n (_definitions s)) as [d|]; [|by destruct (bool_decide _)].
  destruct (bool_decide_reflect (q = p)) as [->|Hq]; [rewrite decide_True by done|by rewrite decide_False by done].
  by destruct (startsWith p (collectionPrefix d)).
Qed.

Lemma forget_tracks p (s : managerT) docs :
  refines extractor s (tracked_view (_definitions s) docs) ->
  let s' := (removeFromIndex p s).2 in
  refines extractor s' (tracked_view (_definitions s') (map_delete p docs)).
Proof.
  intros Hr s'. pose proof (forget_refines extractor p s _ Hr) as Hr'. fold s' in Hr'.
  pose proof (rf_defs _ _ _ Hr') as Ed. cbn [view_step defined tracked_view] in Ed. rewrite Ed.
  eapply refines_ext; [exact Hr'|done|]. intros n q. unfold tracked_view, view_step, in_prefix. cbn [holds defined].
  rewrite map_get_delete. unfold map_has. destruct (map_get n (_definitions s)) as [d|]; [|by destruct (bool_decide _)].
  destruct (bool_decide_reflect (q = p)) as [->|Hq]; [rewrite decide_True by done|by rewrite decide_False by done].
  by destruct (startsWith p (collectionPrefix d)).
Qed.

(** Tracked documents are indexed: from a manager with any prefix-free definitions,
    after any sequence of tracking, changes and untracking, every index holds exactly
    the tracked documents of its collection, each as it is now. *)
Theorem tracked_are_indexed (defs : list IndexDefinition) (events : list event) : Forall prefix_free defs ->
  let m := foldl (fun s d => (defineIndex d s).2) (new_manager [] : managerT) defs in
  tracks (foldl (fun i e => (run_event e i).2) (mk_integration m [] []) events).
Proof.
  intros Hdefs m. assert (H0 : tracks (mk_integration m [] [])).
  { split; [|simpl; intros p; by rewrite !elem_of_nil].
    assert (Hr : refines extractor m (foldl view_step empty_view (Define <$> defs))).
    { pose proof (index_refines extractor (Define <$> defs)) as H. rewrite foldl_fmap in H. apply H.
      apply Forall_fmap. eapply Forall_impl; [exact Hdefs|done]. }
    eapply refines_ext; [exact Hr|exact (rf_defs _ _ _ Hr)|]. intros n p. cbn [_manager _trackedDocuments tracked_view holds map_get].
    assert (Hh : forall v, (forall n p, holds v n p = None) -> holds (foldl view_step v (Define <$> defs)) n p = @None DocType).
    { clear. induction defs as [|d defs IH]; intros v Hv; [done|]. simpl. apply IH. intros n' p'. destruct (map_has _ _); apply Hv. }
    rewrite Hh by done. by destruct (in_prefix _ _ _). }
  clearbody m. revert H0. generalize (mk_integration m [] []). clear m. induction events as [|e events IH]; intros i Hi; [done|].
  simpl. apply IH. clear IH. destruct Hi as [Hr Hh], e as [p doc|p doc|p]; cbn [run_event].
  - unfold trackDocument. rewrite (bind_ok _ _ i i i) by done. destruct (map_has p (_trackedDocuments i)); [by split|].
    rewrite bind_modify, on_manager_state. split; simpl; [by apply update_tracks|].
    intros q. by rewrite elem_of_set_add, elem_of_map_keys_set, Hh.
  - unfold documentChanged. rewrite bind_modify. destruct (map_has p (_trackedDocuments i)) eqn:Ep.
    + match goal with |- context [bind get _ ?j] => rewrite (bind_ok _ _ j j j) by done end. apply map_has_spec in Ep.
      assert (Hset : set_has p (handlers i) = true) by (apply set_has_spec, Hh; done).
      unfold when. simpl. rewrite Hset. rewrite on_manager_state. split; simpl; [by apply update_tracks|].
      intros q. rewrite Hh, elem_of_map_keys_set. naive_solver.
    + rewrite (bind_ok _ _ i i i) by done. apply map_has_false in Ep.
      assert (Hset : set_has p (handlers i) = false).
      { destruct (set_has p (handlers i)) eqn:E; [|done]. by apply set_has_spec, Hh in E. }
      unfold when. rewrite Hset. by split.
  - unfold untrackDocument. rewrite (bind_ok _ _ i i i) by done. destruct (map_has p (_trackedDocuments i)); [|by split].
    rewrite bind_modify, on_manager_state. split; simpl; [by apply forget_tracks|].
    intros q. rewrite elem_of_map_keys_delete, list_elem_of_In, filter_In, <- list_elem_of_In, Hh, negb_true_iff, bool_decide_eq_false. tauto.
Qed.

End Integration.
End IndexIntegration.
