(* ===== verification/IndexExamples.v ===== *)
(** * Concrete indexes

    A small runtime and two indexes over documents that are their own snapshots; the
    theorems about indexes are applied to them. *)
From stdpp Require Import base numbers list list_numbers strings sets sorting.
From Stdlib Require Import ZArith QArith Lia.
From S2P Require Import Prelude Index IndexManager IndexTheory IndexOrder IndexIdb IndexIntegration.

Open Scope string_scope.
Open Scope list_scope.
Open Scope nat_scope.

Module IndexExamples.
Import Index IndexManager IndexTheory IndexOrder IndexIdb IndexIntegration.

(** Strings are compared by code units, and no text is a date or a number. *)
Definition compare_units (a b : ustring) : Z :=
  if ustring_lt a b then (-1)%Z else if ustring_lt b a then 1%Z else 0%Z.

#[local] Instance plain_runtime : Runtime := {
  date_parse _ := NaN;
  string_to_number _ := NaN;
  display _ := [];
  localeCompare := compare_units;
}.

Lemma ustring_lt_asym a b : ustring_lt a b = true -> ustring_lt b a = false.
Proof.
  revert b. induction a as [|x a IH]; intros [|y b]; try done. simpl.
  destruct (Z.ltb_spec x y), (Z.eqb_spec x y), (Z.ltb_spec y x), (Z.eqb_spec y x); try lia; simpl; try done. apply IH.
Qed.

Lemma ustring_lt_trans a b d : ustring_lt b a = false -> ustring_lt d b = false -> ustring_lt d a = false.
Proof.
  revert b d. induction a as [|x a IH]; intros b d; [by destruct d|].
  destruct b as [|y b], d as [|z d]; try done. simpl.
  destruct (Z.ltb_spec y x), (Z.eqb_spec y x), (Z.ltb_spec z y), (Z.eqb_spec z y), (Z.ltb_spec z x), (Z.eqb_spec z x); try lia; simpl; try done.
  apply IH.
Qed.

#[local] Instance plain_locale : LocaleLaws.
Proof.
  split; simpl; unfold compare_units.
  - intros a b. destruct (ustring_lt a b) eqn:E1, (ustring_lt b a) eqn:E2; try done. by rewrite (ustring_lt_asym a b E1) in E2.
  - intros a b d H1 H2.
    assert (E1 : ustring_lt b a = false).
    { destruct (ustring_lt a b) eqn:E; [by apply ustring_lt_asym|]. by destruct (ustring_lt b a). }
    assert (E2 : ustring_lt d b = false).
    { destruct (ustring_lt b d) eqn:E; [by apply ustring_lt_asym|]. by destruct (ustring_lt d b). }
    rewrite (ustring_lt_trans a b d E1 E2). by destruct (ustring_lt a d).
Qed.

(** ** Articles, by title and by the author's name *)

Definition articles : IndexDefinition :=
  Definition_ (units "articles") (units "/a/")
    [FieldDefinition (units "title") StringField; FieldDefinition (units "author.name") StringField].

Definition article (title author : string) : value :=
  Obj [(units "title", Str (units title)); (units "author", Obj [(units "name", Str (units author))])].

(** Documents are titles; every author is the same. *)
Definition snapshot_of (title : string) : value := article title "ada".

Definition history : list (@call string) :=
  [Define articles; Subscribe (Options (Some (units "articles")) None [] None None None);
   Update (units "/a/1") "one"; Update (units "/a/2") "two"; Update (units "/b/3") "three";
   Update (units "/a/1") "one more"; Update (units "/a/2") "two"; Forget (units "/a/2"); Update (units "/a/4") "one"].

Lemma articles_prefix_free : prefix_free articles.
Proof.
  intros i j f g Hi Hj Hij. destruct i as [|[|i]], j as [|[|j]]; try done; injection Hi as <-; injection Hj as <-;
    vm_compute; split; intros [k Hk]; discriminate.
Qed.

Lemma query_finds_current_witness :
  exists l s',
    query_ (Options (Some (units "articles")) None [Filter (units "title") Prefix (Str (units "one"))] None None None)
      (foldl (fun s c => (run_call snapshot_of c s).2) (new_manager [] : @manager stores) history) = (Ok (Result l (length l)), s') /\
    NoDup (documentPath <$> l) /\
    forall p, p ∈ documentPath <$> l <-> exists doc, holds (foldl view_step empty_view history) (units "articles") p = Some doc /\
      matchesFilters (snapshot_of doc) [Filter (units "title") Prefix (Str (units "one"))] = true.
Proof.
  apply (query_finds_current snapshot_of history (units "articles") articles).
  - unfold history. repeat (apply Forall_cons; split; [try exact I|]); [exact articles_prefix_free|constructor].
  - done.
  - reflexivity.
  - constructor; [|constructor]. exists (FieldDefinition (units "title") StringField). split; [by left|done].
  - intros p doc f _ Hf. apply list_elem_of_singleton in Hf as ->. reflexivity.
Defined.

Lemma unsubscribe_is_final_witness :
  let s := foldl (fun s c => (run_call snapshot_of c s).2) (new_manager [] : @manager stores) history in
  1 < _nextSubscriptionId s /\
  given_to 1 (foldl (fun s c => (run_call snapshot_of c s).2) (unsubscribe 1 s).2 [Deliver 0; Update (units "/a/9") "nine"; Deliver 0]) = given_to 1 s.
Proof. intros s. split; [vm_compute; lia|]. apply (unsubscribe_is_final snapshot_of _ 1 s). vm_compute. lia. Defined.

(** ** Order and pages *)

Definition shelf : list (ustring * value) :=
  [(units "/a/1", article "b" "x"); (units "/a/2", article "a" "y"); (units "/a/3", article "b" "z")].

Lemma query_orders_and_pages_witness :
  exists all,
    memory_query (units "articles") [] (Some [Clause (units "title") true]) None None [(units "articles", shelf)] = (Ok all, [(units "articles", shelf)]) /\
    memory_query (units "articles") [] (Some [Clause (units "title") true]) (Some (num_of_Z 2)) (Some (num_of_Z 1)) [(units "articles", shelf)] =
      (Ok (take (Z.to_nat 2) (drop (Z.to_nat 1) all)), [(units "articles", shelf)]) /\
    let found := map (fun p => Entry p.1 p.2) (List.filter (fun p => matchesFilters p.2 []) shelf) in
    all ≡ₚ found /\ StronglySorted (fun a b => entry_le [Clause (units "title") true] (e_fields a) (e_fields b)) all /\
    forall e, e ∈ found ->
      ties (fun a b => compareEntries (e_fields a) (e_fields b) [Clause (units "title") true]) e all =
      ties (fun a b => compareEntries (e_fields a) (e_fields b) [Clause (units "title") true]) e found.
Proof.
  apply (query_orders_and_pages [(Strings, Undefined)] (units "articles") [] [Clause (units "title") true] 2 1 _ shelf).
  - reflexivity.
  - done.
  - by repeat constructor.
  - intros p r Hin. unfold shelf in Hin. rewrite !elem_of_cons in Hin.
    destruct Hin as [[= -> ->]|[[= -> ->]|[[= -> ->]|Hin%elem_of_nil]]]; [constructor; [by right|constructor]..|done].
  - done.
  - done.
  - done.
Defined.

(** ** IndexedDB *)

Lemma successor_exact_witness :
  lexicographicSuccessor [104; 0xffff]%Z = Some [105]%Z /\
  startsWith [104; 0xffff; 0xffff]%Z [104; 0xffff]%Z =
    negb (ustring_lt [104; 0xffff; 0xffff]%Z [104; 0xffff]%Z) && ustring_lt [104; 0xffff; 0xffff]%Z [105]%Z.
Proof.
  split; [reflexivity|].
  apply (successor_exact [104; 0xffff]%Z [105]%Z [104; 0xffff; 0xffff]%Z); [repeat constructor; lia..|reflexivity].
Defined.

Definition shelf_db : idb :=
  mk_idb (Database 2 [(units "articles", ObjectStore shelf [units "title"])]) true [units "articles"] [(units "articles", [units "title"])].

Definition by_title : list FieldFilter := [Filter (units "title") Prefix (Str (units "b")); Filter (units "author.name") Eq (Str (units "x"))].

Lemma shelf_indexable r : r ∈ shelf -> indexable (extractField r.2 (units "title")) = true.
Proof.
  unfold shelf. rewrite !elem_of_cons. intros [->|[->|[->|Hin%elem_of_nil]]]; [vm_compute; reflexivity..|done].
Qed.

Lemma idb_query_agrees_witness :
  exists l m, idb_query (units "articles") by_title None None None shelf_db = (Ok l, shelf_db) /\
    memory_query (units "articles") by_title None None None [(units "articles", shelf)] = (Ok m, [(units "articles", shelf)]) /\ l ≡ₚ m.
Proof.
  apply (idb_query_agrees shelf_db (units "articles") by_title (ObjectStore shelf [units "title"])).
  - reflexivity.
  - reflexivity.
  - intros indexed p [= <-] Hin. apply list_elem_of_singleton in Hin as ->. split; [by left|]. split.
    + apply (bool_decide_unpack _). vm_compute. exact I.
    + intros r Hr. by apply shelf_indexable.
  - intros f p Hin Hp. unfold by_title in Hin. rewrite !elem_of_cons in Hin.
    destruct Hin as [->|[->|Hin%elem_of_nil]]; [injection Hp as <-; repeat constructor; simpl; lia..|done].
Defined.

(** Two other upgrades disturb the first attempt. *)
Definition disturb (k : nat) (db : database) : database :=
  if k =? 0 then Database (version db + 2) (objectStores db) else db.

Lemma initialize_reaches_witness :
  exists s' store, initialize_ disturb (units "articles") (fields articles) (mk_idb (Database 1 []) false [] []) = (Ok tt, s') /\
    idb_ok s' /\ _db s' = true /\ map_get (units "articles") (objectStores (shared s')) = Some store /\
    (fd_path <$> fields articles) ⊆ indexNames store.
Proof.
  apply (initialize_reaches disturb (units "articles") (fields articles) (mk_idb (Database 1 []) false [] [])).
  - intros k. split; unfold disturb.
    + intros db. destruct (k =? 0); [right; simpl; lia|by left].
    + intros db n store E. exists store. by destruct (k =? 0).
  - exists 1. split; [unfold MAX_OPEN_ATTEMPTS; lia|done].
  - split; simpl; [by intros n ?%elem_of_nil|done].
Defined.

(** ** Tracked articles *)

Definition events : list (@event string) :=
  [Track (units "/a/1") "one"; Track (units "/b/2") "two"; Changed (units "/a/1") "three"; Track (units "/a/4") "four";
   Changed (units "/a/5") "five"; Untrack (units "/a/4")].

Lemma tracked_are_indexed_witness :
  tracks snapshot_of (foldl (fun i e => (run_event snapshot_of e i).2)
    (mk_integration (foldl (fun s d => (defineIndex d s).2) (new_manager [] : @manager stores) [articles]) [] []) events).
Proof. apply (tracked_are_indexed snapshot_of [articles] events). constructor; [exact articles_prefix_free|constructor]. Defined.

(** The calls that tracking and untracking start are not ordered: a document that is
    untracked while its first update waits for the lookup of the previous entry is
    removed from the index first and written to it afterwards. *)
Theorem untrack_races :
  let p := units "/a/1" in
  let n := units "articles" in
  let m0 := (defineIndex articles (new_manager [] : @manager stores)).2 in
  let read := on_storage (get_entry n p) m0 in
  let removed := removeFromIndex p read.2 in
  let written := (let! e := (fun s => (read.1, s)) in
                  update_resume p n (buildFields articles (snapshot_of "one")) e false) removed.2 in
  read.1 = Ok None /\ removed.1 = Ok tt /\ written.1 = Ok true /\
  (on_storage (get_entry n p) written.2).1 = Ok (Some (buildFields articles (snapshot_of "one"))).
Proof. by vm_compute. Qed.

End IndexExamples.
