(* ===== verification/Base64.v ===== *)
(** * Base64

    [btoa] and [atob] as the HTML standard defines them, on binary strings given by
    their code units, and the two helpers on byte arrays that
    [packages/collabswarm/src/ucan.ts] builds on them, with their round trip. *)
From stdpp Require Import base numbers list list_numbers strings.
From Stdlib Require Import ZArith Lia Ascii.
From S2P Require Import Prelude.

Open Scope string_scope.
Open Scope list_scope.
Open Scope Z_scope.

Module Base64.

(** The character of six bits: A-Z, a-z, 0-9, + and /. *)
Definition char_code (z : Z) : Z :=
  if z <? 26 then 65 + z else if z <? 52 then 71 + z else if z <? 62 then z - 4 else if z =? 62 then 43 else 47.

Definition char_of (z : Z) : ascii := Ascii.ascii_of_N (Z.to_N (char_code z)).

Definition code_of (c : ascii) : Z := Z.of_N (Ascii.N_of_ascii c).

Definition value_of (c : ascii) : option Z :=
  let n := code_of c in
  if (65 <=? n) && (n <=? 90) then Some (n - 65)
  else if (97 <=? n) && (n <=? 122) then Some (n - 71)
  else if (48 <=? n) && (n <=? 57) then Some (n + 4)
  else if n =? 43 then Some 62
  else if n =? 47 then Some 63
  else None.

Definition pad : ascii := "="%char.

(** Three bytes are four characters; a rest of one or two bytes is padded. *)
Fixpoint encode (b : list Z) : list ascii :=
  match b with
  | [] => []
  | [x] => [char_of (x / 4); char_of (x mod 4 * 16); pad; pad]
  | [x; y] => [char_of (x / 4); char_of (x mod 4 * 16 + y / 16); char_of (y mod 16 * 4); pad]
  | x :: y :: z :: b' =>
      char_of (x / 4) :: char_of (x mod 4 * 16 + y / 16) :: char_of (y mod 16 * 4 + z / 64) :: char_of (z mod 64) :: encode b'
  end.

Definition btoa (units : list Z) : option string :=
  if forallb (fun u => u <? 256) units then Some (String.string_of_list_ascii (encode units)) else None.

Definition is_space (c : ascii) : bool :=
  let n := code_of c in (n =? 9) || (n =? 10) || (n =? 12) || (n =? 13) || (n =? 32).

(** One or two [=] at the end of a text whose length is a multiple of four. *)
Definition strip_padding (l : list ascii) : list ascii :=
  if (Z.of_nat (length l) mod 4 =? 0) then
    match rev l with
    | c :: d :: r => if decide (c = pad) then if decide (d = pad) then rev r else rev (d :: r) else l
    | _ => l
    end
  else l.

Fixpoint decode (v : list Z) : list Z :=
  match v with
  | a :: b :: c :: d :: v' => (a * 4 + b / 16) :: (b mod 16 * 16 + c / 4) :: (c mod 4 * 64 + d) :: decode v'
  | [a; b; c] => [a * 4 + b / 16; b mod 16 * 16 + c / 4]
  | [a; b] => [a * 4 + b / 16]
  | _ => []
  end.

Definition atob (s : string) : option (list Z) :=
  let l := strip_padding (List.filter (fun c => negb (is_space c)) (String.list_ascii_of_string s)) in
  if (Z.of_nat (length l) mod 4 =? 1) then None else decode <$> mapM value_of l.

Definition uint8ArrayToBase64 (b : bytes) : string := default "" (btoa (map byte_to_Z b)).

Definition base64ToUint8Array (base64 : string) : option bytes := option_map (map byte_of_Z) (atob base64).

(** ** The round trip *)

Definition six (z : Z) : Prop := 0 <= z < 64.

Lemma code_char z : six z -> code_of (char_of z) = char_code z.
Proof.
  intros H. unfold code_of, char_of. rewrite Ascii.N_ascii_embedding; unfold char_code, six in *;
    repeat case_match; lia.
Qed.

Lemma value_char z : six z -> value_of (char_of z) = Some z.
Proof.
  intros H. unfold value_of. rewrite code_char by done. unfold char_code, six in *.
  repeat case_match; try (f_equal; lia); lia.
Qed.

Lemma char_plain z : six z -> is_space (char_of z) = false /\ char_of z <> pad.
Proof.
  intros H. split.
  - unfold is_space. rewrite code_char by done. unfold char_code, six in *. repeat case_match; lia.
  - intros E. apply (f_equal value_of) in E. by rewrite value_char in E.
Qed.

(** The characters of a text before its padding. *)
Fixpoint sextets (b : list Z) : list Z :=
  match b with
  | [] => []
  | [x] => [x / 4; x mod 4 * 16]
  | [x; y] => [x / 4; x mod 4 * 16 + y / 16; y mod 16 * 4]
  | x :: y :: z :: b' => x / 4 :: x mod 4 * 16 + y / 16 :: y mod 16 * 4 + z / 64 :: z mod 64 :: sextets b'
  end.

Definition padding (b : list Z) : list ascii :=
  match (Z.of_nat (length b)) mod 3 with 0 => [] | 1 => [pad; pad] | _ => [pad] end.

(** Induction in steps of three. *)
Lemma threes_ind (P : list Z -> Prop) :
  P [] -> (forall x, P [x]) -> (forall x y, P [x; y]) -> (forall x y z b, P b -> P (x :: y :: z :: b)) -> forall b, P b.
Proof.
  intros H0 H1 H2 H3. fix IH 1. intros [|x [|y [|z b]]]; [exact H0|apply H1|apply H2|]. apply H3, IH.
Qed.

Lemma padding_step x y z b : padding (x :: y :: z :: b) = padding b.
Proof.
  unfold padding. cbn [length]. replace (Z.of_nat (S (S (S (length b))))) with (Z.of_nat (length b) + 1 * 3) by lia.
  by rewrite Z_mod_plus_full.
Qed.

Lemma encode_sextets b : encode b = (char_of <$> sextets b) ++ padding b.
Proof.
  induction b as [| | |x y z b IH] using threes_ind; [done..|]. rewrite padding_step. cbn. by rewrite IH.
Qed.

Ltac divide := Z.div_mod_to_equations; lia.

Lemma decode_sextets b : Forall (fun x => 0 <= x < 256) b -> decode (sextets b) = b.
Proof.
  induction b as [|x|x y|x y z b IH] using threes_ind; intros H; cbn [sextets decode].
  - done.
  - apply Forall_cons in H as [Hx _]. f_equal. divide.
  - apply Forall_cons in H as [Hx [Hy _]%Forall_cons]. f_equal; [divide|]. f_equal. divide.
  - apply Forall_cons in H as [Hx [Hy [Hz H]%Forall_cons]%Forall_cons]. rewrite IH by done.
    f_equal; [divide|]. f_equal; [divide|]. f_equal. divide.
Qed.

Lemma sextets_six b : Forall (fun x => 0 <= x < 256) b -> Forall six (sextets b).
Proof.
  unfold six. induction b as [|x|x y|x y z b IH] using threes_ind; intros H; cbn [sextets].
  - constructor.
  - apply Forall_cons in H as [Hx _]. repeat constructor; divide.
  - apply Forall_cons in H as [Hx [Hy _]%Forall_cons]. repeat constructor; divide.
  - apply Forall_cons in H as [Hx [Hy [Hz H]%Forall_cons]%Forall_cons]. repeat (apply Forall_cons; split; [divide|]). auto.
Qed.

Lemma length_sextets b : Z.of_nat (length (sextets b)) mod 4 = match Z.of_nat (length b) mod 3 with 0 => 0 | 1 => 2 | _ => 3 end.
Proof.
  induction b as [|x|x y|x y z b IH] using threes_ind; [done..|]. cbn [sextets length].
  replace (Z.of_nat (S (S (S (S (length (sextets b))))))) with (Z.of_nat (length (sextets b)) + 1 * 4) by lia.
  replace (Z.of_nat (S (S (S (length b))))) with (Z.of_nat (length b) + 1 * 3) by lia. by rewrite !Z_mod_plus_full.
Qed.

Lemma strip_padding_none l : Forall (fun c => c <> pad) l -> strip_padding l = l.
Proof.
  intros H. unfold strip_padding. destruct (_ =? _); [|done]. destruct (rev l) as [|c [|d r]] eqn:E; try done.
  rewrite decide_False; [done|]. assert (Hc : c ∈ rev l) by (rewrite E; left). rewrite list_elem_of_In, <- in_rev in Hc.
  eapply List.Forall_forall in H; [|exact Hc]. done.
Qed.

(** Padding goes exactly where it was put. *)
Lemma strip_padding_padded b l : Forall (fun c => c <> pad) l -> length l = length (sextets b) ->
  strip_padding (l ++ padding b) = l.
Proof.
  intros H Hl. pose proof (length_sextets b) as Hm. rewrite <- Hl in Hm. unfold padding.
  assert (Hr : forall c r, rev l = c :: r -> c <> pad).
  { intros c r E. assert (Hc : c ∈ rev l) by (rewrite E; left). rewrite list_elem_of_In, <- in_rev in Hc.
    by eapply List.Forall_forall in H. }
  pose proof (Z.mod_pos_bound (Z.of_nat (length b)) 3 ltac:(lia)) as Hb.
  assert (E3 : Z.of_nat (length b) mod 3 = 0 \/ Z.of_nat (length b) mod 3 = 1 \/ Z.of_nat (length b) mod 3 = 2) by lia.
  unfold strip_padding. rewrite length_app, Nat2Z.inj_add, Zplus_mod. destruct E3 as [E3|[E3|E3]]; rewrite E3 in *; cbn [length].
  - rewrite !app_nil_r, Hm. cbn. destruct (rev l) as [|c [|d r]] eqn:E; try done. rewrite decide_False by eauto. done.
  - rewrite Hm, rev_app_distr. cbn. apply rev_involutive.
  - rewrite Hm, rev_app_distr. cbn. destruct (rev l) as [|c r] eqn:E.
    + apply (f_equal (@length _)) in E. rewrite length_rev in E. destruct l; [by vm_compute in Hm|done].
    + rewrite decide_True by done. rewrite decide_False by exact (Hr c r eq_refl). change (rev r ++ [c]) with (rev (c :: r)). rewrite <- E. apply rev_involutive.
Qed.

(** [base64ToUint8Array] inverts [uint8ArrayToBase64]. *)
Lemma base64_bytes (b : bytes) : base64ToUint8Array (uint8ArrayToBase64 b) = Some b.
Proof.
  assert (Hb : Forall (fun x => 0 <= x < 256) (map byte_to_Z b)).
  { induction b as [|x b IH]; constructor; [apply byte_to_Z_range|done]. }
  unfold base64ToUint8Array, uint8ArrayToBase64, btoa.
  assert (E : forallb (fun u => u <? 256) (map byte_to_Z b) = true).
  { apply forallb_forall. intros u Hu. eapply List.Forall_forall in Hb; [|exact Hu]. lia. }
  rewrite E. cbn [default from_option id]. unfold atob. rewrite String.list_ascii_of_string_of_list_ascii, encode_sextets.
  pose proof (sextets_six _ Hb) as H6.
  assert (Hs : List.filter (fun c => negb (is_space c)) ((char_of <$> sextets (map byte_to_Z b)) ++ padding (map byte_to_Z b))
    = (char_of <$> sextets (map byte_to_Z b)) ++ padding (map byte_to_Z b)).
  { rewrite List.filter_app. f_equal.
    - revert H6. generalize (sextets (map byte_to_Z b)). induction 1 as [|z l Hz _ IH]; [done|]. cbn. destruct (char_plain z Hz) as [-> _].
      cbn. by rewrite <- IH at 2.
    - unfold padding. by repeat case_match. }
  rewrite Hs. rewrite strip_padding_padded; [|by apply Forall_fmap; eapply Forall_impl; [exact H6|apply char_plain]|by rewrite length_fmap].
  rewrite length_fmap, length_sextets.
  assert (En : (match Z.of_nat (length (map byte_to_Z b)) mod 3 with 0 => 0 | 1 => 2 | _ => 3 end =? 1) = false) by by repeat case_match.
  rewrite En.
  assert (Em : mapM value_of (char_of <$> sextets (map byte_to_Z b)) = Some (sextets (map byte_to_Z b))).
  { revert H6. generalize (sextets (map byte_to_Z b)). induction 1 as [|z l Hz _ IH]; [done|]. cbn. rewrite value_char by done. cbn.
    cbn in IH. by rewrite IH. }
  rewrite Em. cbn. rewrite decode_sextets by done. f_equal. rewrite map_map. rewrite <- (map_id b) at 2. apply map_ext. apply byte_of_to_Z.
Qed.

#[export] Instance uint8ArrayToBase64_inj : Inj (=) (=) uint8ArrayToBase64.
Proof. intros a b E. apply (f_equal base64ToUint8Array) in E. rewrite !base64_bytes in E. by injection E. Qed.

Example base64_man : uint8ArrayToBase64 (byte_of_Z <$> [77; 97; 110; 32]) = "TWFuIA==".
Proof. reflexivity. Qed.

End Base64.
