(* ===== verification/Ucan.v ===== *)
(** * Delegated capabilities

    Models [packages/collabswarm/src/capabilities.ts] and [ucan.ts]: tokens that grant
    capabilities on documents, signed by their issuer and resting on the tokens that
    authorize it. A token and its proofs come from other peers as JSON text, so a token
    is any value that JSON can describe, read with the rules of the language: the
    fields may be missing or of another type. Conversions to a number and to a string
    are a class with what they do to numbers and strings; WebCrypto is a class. The
    readings of the clock are numbered, since it may advance between two tokens. *)
From stdpp Require Import base numbers list list_numbers strings.
From Stdlib Require Import ZArith QArith Lia Ascii.
From S2P Require Import Prelude TipsHash Base64 Wire.

Open Scope string_scope.
Open Scope list_scope.
Open Scope nat_scope.

Module Ucan.
Import Base64 Wire.

(** ** Reading values of unknown type *)

Definition nullish (v : jsval) : bool := match v with JUndefined | JNull => true | _ => false end.

(** [v.k] where [v] is neither [null] nor [undefined]. *)
Definition read (v : jsval) (k : string) : jsval :=
  match v with
  | JObj ps => jget k ps
  | JArr l => if decide (k = "length") then JNum (Z.of_nat (length l)) else JUndefined
  | JStr s => if decide (k = "length") then JNum (Z.of_nat (String.length s)) else JUndefined
  | _ => JUndefined
  end.

(** [v.k] *)
Definition prop (v : jsval) (k : string) : result jsval :=
  if nullish v then throw "TypeError" else Ok (read v k).

(** [for (const x of v)] *)
Definition iterate (v : jsval) : result (list jsval) :=
  match v with
  | JArr l => Ok l
  | JStr s => Ok ((fun c => JStr (String.String c "")) <$> String.list_ascii_of_string s)
  | _ => throw "TypeError"
  end.

(** The array on which [v.some(...)] is called. *)
Definition array (v : jsval) : result (list jsval) :=
  match v with JArr l => Ok l | _ => throw "TypeError" end.

(** [a === b], where two objects that were parsed apart are never the same. *)
Definition strict_eq (a b : jsval) : bool :=
  match a, b with
  | JUndefined, JUndefined | JNull, JNull => true
  | JBool x, JBool y => Bool.eqb x y
  | JNum x, JNum y => num_le x y && num_le y x
  | JStr s, JStr t => bool_decide (s = t)
  | _, _ => false
  end.

(** [l.some(f)], where [f] may throw. *)
Fixpoint some_throwing {A} (f : A -> result bool) (l : list A) : result bool :=
  match l with
  | [] => Ok false
  | x :: l' => let? b := f x in if b then Ok true else some_throwing f l'
  end.

(** ** Capabilities *)

Definition CAP_DOC_ADMIN : string := "/doc/admin".
Definition CAP_DOC_WRITE : string := "/doc/write".
Definition CAP_DOC_READ : string := "/doc/read".
Definition CAP_DOC_HISTORY : string := "/doc/history".
Definition CAPABILITY_HIERARCHY : list string := [CAP_DOC_ADMIN; CAP_DOC_WRITE; CAP_DOC_READ].

(** [CAPABILITY_HIERARCHY.indexOf(v)], [None] for -1. *)
Definition hierarchy_index (v : jsval) : option nat :=
  fst <$> list_find (fun c => strict_eq v (JStr c) = true) CAPABILITY_HIERARCHY.

Definition capabilityImplies (held required : jsval) : bool :=
  match hierarchy_index held, hierarchy_index required with
  | Some heldIndex, Some requiredIndex => heldIndex <=? requiredIndex
  | _, _ => strict_eq held required
  end.

(** Whether the text has a given infix. *)
Fixpoint string_includes (needle s : string) : bool :=
  String.prefix needle s || match s with EmptyString => false | String.String _ s' => string_includes needle s' end.

Definition isFieldCapability (capability : string) : bool := string_includes "/field/" capability.

(** [.+] to the end: not empty and on one line. *)
Definition on_one_line (s : string) : bool :=
  negb (bool_decide (s = "")) &&
  forallb (fun c => negb (Ascii.eqb c (ascii_of_nat 10)) && negb (Ascii.eqb c (ascii_of_nat 13))) (String.list_ascii_of_string s).

(** The first match of [/\/field\/(.+)$/]. *)
Fixpoint getFieldPath (capability : string) : option string :=
  let rest := String.substring 7 (String.length capability - 7) capability in
  if String.prefix "/field/" capability && on_one_line rest then Some rest
  else match capability with EmptyString => None | String.String _ s' => getFieldPath s' end.

(** ** Tokens *)

Fixpoint arraysEqual (a b : bytes) : bool :=
  match a, b with
  | [], [] => true
  | x :: a', y :: b' => bool_decide (x = y) && arraysEqual a' b'
  | _, _ => false
  end.

Record UCANCapability := Capability { resource : string; ability : string }.

Definition capability_object (c : UCANCapability) : jsval :=
  JObj [("resource", JStr (resource c)); ("ability", JStr (ability c))].

Class Coercions := {
  toNumber : jsval -> result num;
  toText : jsval -> result string;
  toNumber_num n : toNumber (JNum n) = Ok n;
  toText_str s : toText (JStr s) = Ok s;
}.

Class UcanCrypto (PrivateKey PublicKey : Type) := {
  getRandomValues : nat -> bytes;
  subtle_sign : nat -> PrivateKey -> bytes -> result bytes;
  subtle_verify : PublicKey -> bytes -> bytes -> result bool;
  exportRaw : PublicKey -> result bytes;
  public_of : PrivateKey -> PublicKey;
  verify_sign n k m sig : subtle_sign n k m = Ok sig -> subtle_verify (public_of k) sig m = Ok true;
}.

Section Tokens.
  Context {PrivateKey PublicKey : Type} `{!JsonBytes, !Coercions, !UcanCrypto PrivateKey PublicKey}.

Definition payload_keys : list string :=
  ["version"; "audience"; "capabilities"; "expiration"; "issuer"; "nonce"; "notBefore"; "proofs"].

(** An object with these keys of a token, in this order. *)
Definition ordered (keys : list string) (ucan : jsval) : jsval := JObj ((fun k => (k, read ucan k)) <$> keys).

(** The bytes of the text. *)
Definition canonicalPayloadString (ucan : jsval) : result bytes :=
  if nullish ucan then throw "TypeError" else Ok (json_bytes (ordered payload_keys ucan)).

Definition deterministicStringify (ucan : jsval) : result bytes :=
  if nullish ucan then throw "TypeError" else Ok (json_bytes (ordered (payload_keys ++ ["signature"]) ucan)).

Definition serializeUCAN (ucan : jsval) : result string :=
  let? b := deterministicStringify ucan in Ok (uint8ArrayToBase64 b).

Definition deserializeUCAN (encoded : jsval) : result jsval :=
  let? s := toText encoded in
  let? b := or_throw "InvalidCharacterError" (base64ToUint8Array s) in
  json_of_bytes b.

Definition generateNonce (draw : nat) : string :=
  String.concat "" ((fun b => TipsHash.padStart2 (TipsHash.toString16 (byte_to_Z b))) <$> getRandomValues draw).

Definition null_or (n : option num) : jsval := match n with Some x => JNum x | None => JNull end.

Definition createUCAN (draw : nat) (issuerPrivateKey : PrivateKey) (issuerPublicKeyBase64 audiencePublicKeyBase64 : string)
    (capabilities : list UCANCapability) (proofs : list string) (expiration notBefore : option num) : result jsval :=
  let payload :=
    [("version", JStr "0.1.0"); ("issuer", JStr issuerPublicKeyBase64); ("audience", JStr audiencePublicKeyBase64);
     ("capabilities", JArr (capability_object <$> capabilities)); ("expiration", null_or expiration);
     ("notBefore", null_or notBefore); ("nonce", JStr (generateNonce draw)); ("proofs", JArr (JStr <$> proofs))] in
  let? payloadBytes := canonicalPayloadString (JObj payload) in
  let? signatureBytes := subtle_sign (S draw) issuerPrivateKey payloadBytes in
  Ok (JObj (payload ++ [("signature", JStr (uint8ArrayToBase64 signatureBytes))])).

Definition verifyUCANSignature (ucan : jsval) (issuerPublicKey : PublicKey) : result bool :=
  let? payloadBytes := canonicalPayloadString ucan in
  let? signature := toText (read ucan "signature") in
  let? signatureBytes := or_throw "InvalidCharacterError" (base64ToUint8Array signature) in
  subtle_verify issuerPublicKey signatureBytes payloadBytes.

(** ** Chains *)

Inductive verdict := Valid | Invalid (error : string).

(** The shared [visited] set, and how often the clock was read. *)
Record chain_state := Chain { visited : list string; ticks : nat }.

#[export] Instance settable_chain : Settable chain_state := fun s => Chain (visited s) (ticks s).

  Context (clock : nat -> Z) (rootPublicKey : PublicKey) (resolvePublicKey : jsval -> result PublicKey).

(** [Date.now() / 1000] *)
Definition seconds (n : nat) : num := Fin (clock n # 1000).

(** [bound !== null && cmp(Date.now() / 1000, bound)] *)
Definition at_odds (cmp : num -> num -> bool) (bound : jsval) : eff chain_state bool :=
  if strict_eq bound JNull then ret false
  else
    let! s := get in
    let! _ := modify (fun s => s <| ticks := S (ticks s) |>) in
    let! b := lift (toNumber bound) in
    ret (cmp (seconds (ticks s)) b).

Definition has_capability (proof_caps : list jsval) (cap : jsval) : result bool :=
  some_throwing (fun proofCap =>
    let? r := prop proofCap "resource" in
    let? r' := prop cap "resource" in
    if strict_eq r r' then
      let? a := prop proofCap "ability" in
      let? a' := prop cap "ability" in
      Ok (capabilityImplies a a')
    else Ok false) proof_caps.

(** The loop over the capabilities of the token: the first that the proof does not have. *)
Fixpoint check_capabilities (proof : jsval) (caps : list jsval) : result verdict :=
  match caps with
  | [] => Ok Valid
  | cap :: caps' =>
      let? v := prop proof "capabilities" in
      let? proof_caps := array v in
      let? proofHasCap := has_capability proof_caps cap in
      if proofHasCap then check_capabilities proof caps' else Ok (Invalid "Capability not authorized by proof")
  end.

Fixpoint check_proofs (validate : jsval -> eff chain_state verdict) (ucan : jsval) (proofs : list jsval) :
    eff chain_state verdict :=
  match proofs with
  | [] => ret Valid
  | proofStr :: proofs' =>
      let! proof := lift (deserializeUCAN proofStr) in
      let! audience := lift (prop proof "audience") in
      if negb (strict_eq audience (read ucan "issuer")) then ret (Invalid "Proof audience does not match UCAN issuer")
      else
        let! caps := lift (iterate (read ucan "capabilities")) in
        let! attenuated := lift (check_capabilities proof caps) in
        match attenuated with
        | Invalid e => ret (Invalid e)
        | Valid =>
            let! proofResult := validate proof in
            match proofResult with
            | Invalid e => ret (Invalid e)
            | Valid => check_proofs validate ucan proofs'
            end
        end
  end.

Fixpoint validateUCANChain (maxDepth : nat) (ucan : jsval) : eff chain_state verdict :=
  match maxDepth with
  | 0 => ret (Invalid "UCAN chain exceeds maximum depth")
  | S depth =>
      let! fingerprint := lift (serializeUCAN ucan) in
      let! s := get in
      if set_has fingerprint (visited s) then ret (Invalid "Circular delegation detected in UCAN chain")
      else
        let! _ := modify (fun s => s <| visited := set_add fingerprint (visited s) |>) in
        let! expired := at_odds (fun now b => num_lt b now) (read ucan "expiration") in
        if expired then ret (Invalid "UCAN has expired")
        else
          let! early := at_odds num_lt (read ucan "notBefore") in
          if early then ret (Invalid "UCAN is not yet valid")
          else
            let! issuerKey := lift (resolvePublicKey (read ucan "issuer")) in
            let! signed := lift (verifyUCANSignature ucan issuerKey) in
            if negb signed then ret (Invalid "Invalid UCAN signature")
            else
              let! len := lift (prop (read ucan "proofs") "length") in
              if strict_eq len (JNum 0%Z) then
                let! rootKeyBytes := lift (exportRaw rootPublicKey) in
                let! issuerKeyBytes := lift (exportRaw issuerKey) in
                if arraysEqual rootKeyBytes issuerKeyBytes then ret Valid
                else ret (Invalid "Root UCAN must be issued by document creator")
              else
                let! proofs := lift (iterate (read ucan "proofs")) in
                check_proofs (validateUCANChain depth) ucan proofs
  end.

End Tokens.
End Ucan.
