(* ===== verification/UcanTheory.v ===== *)
(** * Delegated capabilities: theorems

    A token that validates holds only what a chain of signed, timely delegations from
    the document's creator grants; chains that the members build are accepted. *)
From stdpp Require Import base numbers list list_numbers strings sets.
From Stdlib Require Import ZArith QArith Lia Ascii.
From S2P Require Import Prelude Base64 Wire Ucan.

Open Scope string_scope.
Open Scope list_scope.
Open Scope nat_scope.

Module UcanTheory.
Import Base64 Wire Ucan.

(** The next statement of a method that returned. *)
Ltac run H a E := let s := fresh "s" in apply bind_inv in H; destruct H as (a & s & E & H).
Ltac run_lift H a E := run H a E; apply lift_inv in E as [E ->].

(** ** Equality and implication *)

Lemma time_le_trans x y z : num_le x y = true -> num_le y z = true -> num_le x z = true.
Proof.
  destruct x as [a| | |], y as [b| | |], z as [c| | |]; try done; simpl; rewrite !Qle_bool_iff. apply Qle_trans.
Qed.

Lemma strict_eq_trans a b c : strict_eq a b = true -> strict_eq b c = true -> strict_eq a c = true.
Proof.
  destruct a, b; try done; destruct c; try done; simpl.
  - intros ->%Bool.eqb_prop ->%Bool.eqb_prop. by destruct b1.
  - rewrite !andb_true_iff. intros [H1 H2] [H3 H4]. split; eapply time_le_trans; eauto.
  - intros ->%bool_decide_eq_true ->%bool_decide_eq_true. by rewrite bool_decide_true.
Qed.

Lemma strict_eq_str v s : strict_eq v (JStr s) = true <-> v = JStr s.
Proof.
  split; [|by intros ->; simpl; rewrite bool_decide_true]. destruct v; try done. by intros ->%bool_decide_eq_true.
Qed.

Lemma hierarchy_index_spec v n : hierarchy_index v = Some n <->
  (v = JStr CAP_DOC_ADMIN /\ n = 0) \/ (v = JStr CAP_DOC_WRITE /\ n = 1) \/ (v = JStr CAP_DOC_READ /\ n = 2).
Proof.
  split.
  - unfold hierarchy_index. destruct (list_find _ _) as [[i x]|] eqn:E; [|done]. intros [= <-].
    apply list_find_Some in E as (Hi & Hx & _). apply strict_eq_str in Hx as ->.
    destruct i as [|[|[|i]]]; [injection Hi as <-..|done]; auto.
  - intros [[-> ->]|[[-> ->]|[-> ->]]]; reflexivity.
Qed.

Lemma hierarchy_index_eq a b : strict_eq a b = true -> hierarchy_index b <> None -> a = b.
Proof.
  intros E. destruct (hierarchy_index b) as [n|] eqn:Eb; [|done]. apply hierarchy_index_spec in Eb.
  destruct Eb as [[-> _]|[[-> _]|[-> _]]]; by apply strict_eq_str in E as ->.
Qed.

Lemma strict_eq_sym a b : strict_eq a b = strict_eq b a.
Proof.
  destruct a, b; try done; simpl.
  - by destruct b0, b.
  - apply andb_comm.
  - by apply bool_decide_ext.
Qed.

(** Implication composes along a chain. *)
Lemma implies_trans a b c : capabilityImplies a b = true -> capabilityImplies b c = true -> capabilityImplies a c = true.
Proof.
  unfold capabilityImplies. intros H1 H2.
  destruct (hierarchy_index a) as [i|] eqn:Ea, (hierarchy_index b) as [j|] eqn:Eb, (hierarchy_index c) as [k|] eqn:Ec;
    rewrite ?Nat.leb_le in *; try lia; try (eapply strict_eq_trans; eassumption).
  - rewrite strict_eq_sym in H2. pose proof (hierarchy_index_eq c b H2 ltac:(by rewrite Eb)) as ->. congruence.
  - pose proof (hierarchy_index_eq b c H2 ltac:(by rewrite Ec)) as ->. congruence.
  - pose proof (hierarchy_index_eq a b H1 ltac:(by rewrite Eb)) as ->. congruence.
Qed.

Lemma arraysEqual_spec a b : arraysEqual a b = true <-> a = b.
Proof.
  revert b. induction a as [|x a IH]; intros [|y b]; simpl; try done.
  rewrite andb_true_iff, bool_decide_eq_true, IH. naive_solver.
Qed.

Lemma some_throwing_true {A} (f : A -> result bool) l : some_throwing f l = Ok true -> exists x, x ∈ l /\ f x = Ok true.
Proof.
  induction l as [|x l IH]; simpl; [done|]. destruct (f x) as [[]|] eqn:E; try done.
  - intros _. exists x. split; [left|done].
  - intros (y & Hy & Ey)%IH. exists y. split; [by right|done].
Qed.

Lemma prop_ok v k x : prop v k = Ok x -> nullish v = false /\ x = read v k.
Proof. unfold prop. destruct (nullish v); [done|]. by intros [= <-]. Qed.

(** ** What a valid chain grants *)

Section Chains.
  Context {PrivateKey PublicKey : Type} `{JB : !JsonBytes, CO : !Coercions, UC : !UcanCrypto PrivateKey PublicKey}.
  Context (clock : nat -> Z) (rootPublicKey : PublicKey) (resolvePublicKey : jsval -> result PublicKey).

  Abbreviation validate := (validateUCANChain clock rootPublicKey resolvePublicKey).

(** The token has a capability on the resource that implies the ability. *)
Definition holds (u res abil : jsval) : Prop :=
  exists caps c, iterate (read u "capabilities") = Ok caps /\ c ∈ caps /\
    strict_eq (read c "resource") res = true /\ capabilityImplies (read c "ability") abil = true.

(** Signed by the key of its issuer. *)
Definition genuine (u : jsval) (key : PublicKey) : Prop :=
  resolvePublicKey (read u "issuer") = Ok key /\ verifyUCANSignature u key = Ok true.

(** At some reading of the clock the token had not expired, at some it was valid already. *)
Definition timely (u : jsval) : Prop :=
  (strict_eq (read u "expiration") JNull = true \/
     exists n e, toNumber (read u "expiration") = Ok e /\ num_lt e (seconds clock n) = false) /\
  (strict_eq (read u "notBefore") JNull = true \/
     exists n b, toNumber (read u "notBefore") = Ok b /\ num_lt (seconds clock n) b = false).

(** The proof is one of the token's proofs and delegates to its issuer. *)
Definition rests_on (u proof : jsval) : Prop :=
  exists l p, iterate (read u "proofs") = Ok l /\ p ∈ l /\ deserializeUCAN p = Ok proof /\
    strict_eq (read proof "audience") (read u "issuer") = true.

(** A chain of at most so many tokens leads from the creator to the token, and every one
    of them is genuine, timely and grants the ability on the resource. *)
Inductive granted (res abil : jsval) : nat -> jsval -> Prop :=
| granted_root n u key b : genuine u key -> timely u -> holds u res abil ->
    exportRaw rootPublicKey = Ok b -> exportRaw key = Ok b -> granted res abil (S n) u
| granted_by n u key proof : genuine u key -> timely u -> holds u res abil ->
    rests_on u proof -> granted res abil n proof -> granted res abil (S n) u.

Lemma at_odds_false cmp bound s s' : at_odds clock cmp bound s = (Ok false, s') ->
  strict_eq bound JNull = true \/ exists n e, toNumber bound = Ok e /\ cmp (seconds clock n) e = false.
Proof.
  unfold at_odds. destruct (strict_eq bound JNull); [by left|]. intros H. right.
  run H s0 E0. injection E0 as <- <-. rewrite bind_modify in H.
  run_lift H e He. injection H as Hc _. eauto.
Qed.

Lemma check_capabilities_ok proof caps c : check_capabilities proof caps = Ok Valid -> c ∈ caps ->
  exists pcs pc, read proof "capabilities" = JArr pcs /\ pc ∈ pcs /\
    strict_eq (read pc "resource") (read c "resource") = true /\
    capabilityImplies (read pc "ability") (read c "ability") = true.
Proof.
  induction caps as [|d caps IH]; [by intros _ ?%elem_of_nil|]. cbn [check_capabilities]. intros H Hc.
  destruct (prop proof "capabilities") as [v|] eqn:Ev; [|done]. apply prop_ok in Ev as [_ ->].
  destruct (read proof "capabilities") as [| | | | |pcs|] eqn:Ep; try done. cbn [array] in H.
  destruct (has_capability pcs d) as [[]|] eqn:Eh; try done. apply elem_of_cons in Hc as [->|Hc]; [|by apply IH].
  apply some_throwing_true in Eh as (pc & Hpc & E). exists pcs, pc. split; [done|]. split; [done|].
  destruct (prop pc "resource") as [r|] eqn:E1; [|done]. destruct (prop d "resource") as [r'|] eqn:E2; [|done].
  apply prop_ok in E1 as [_ ->], E2 as [_ ->]. destruct (strict_eq _ _); [|done].
  destruct (prop pc "ability") as [a|] eqn:E1; [|done]. destruct (prop d "ability") as [a'|] eqn:E2; [|done].
  apply prop_ok in E1 as [_ ->], E2 as [_ ->]. by injection E.
Qed.

(** What the first proof of a valid token is. *)
Lemma check_proofs_first rec u p ps s s' : check_proofs rec u (p :: ps) s = (Ok Valid, s') ->
  exists proof caps s1 s2, deserializeUCAN p = Ok proof /\ strict_eq (read proof "audience") (read u "issuer") = true /\
    iterate (read u "capabilities") = Ok caps /\ check_capabilities proof caps = Ok Valid /\ rec proof s1 = (Ok Valid, s2).
Proof.
  cbn [check_proofs]. intros H. run_lift H proof Hd.
  run_lift H a Hn. apply prop_ok in Hn as [Hn ->]. destruct (strict_eq _ _) eqn:Ea; [|done]. cbn [negb] in H.
  run_lift H caps Hc. run_lift H v Hv.
  destruct v as [|e]; [|done]. run H v Hr. destruct v as [|e]; [|done]. by eauto 10.
Qed.

Lemma holds_attenuated u proof caps res abil : iterate (read u "capabilities") = Ok caps ->
  check_capabilities proof caps = Ok Valid -> holds u res abil -> holds proof res abil.
Proof.
  intros Hi Hc (caps' & c & Hi' & Hin & Hr & Ha). rewrite Hi in Hi'. injection Hi' as <-.
  destruct (check_capabilities_ok proof caps c Hc Hin) as (pcs & pc & Hp & Hpc & Hr' & Ha').
  exists pcs, pc. rewrite Hp. split; [done|]. split; [done|].
  split; [by eapply strict_eq_trans|by eapply implies_trans].
Qed.

Lemma iterate_length v l : iterate v = Ok l -> read v "length" = JNum (Z.of_nat (length l)).
Proof.
  destruct v as [| | | |s|l'|]; try done; simpl; [|by intros [= <-]]. intros [= <-]. rewrite length_fmap.
  do 2 f_equal. f_equal. induction s as [|c s IH]; simpl; [done|]. by rewrite IH.
Qed.

(** C20. Authority comes from the document's creator: if a token validates, then for every
    capability it holds there is a chain of at most the allowed length of genuine and
    timely tokens, the last signed by the creator's key and each next one addressed to
    the issuer of the one before, all of which grant that capability on that resource,
    whatever JSON the token and its proofs are. *)
Theorem authority_from_root maxDepth ucan s s' res abil :
  validate maxDepth ucan s = (Ok Valid, s') -> holds ucan res abil -> granted res abil maxDepth ucan.
Proof.
  revert ucan s s'. induction maxDepth as [|d IH]; intros u s s' H Hh; [done|]. cbn [validateUCANChain] in H.
  run_lift H f Ef. run H s0 E0. injection E0 as <- <-.
  destruct (set_has f (visited s)); [done|]. rewrite bind_modify in H.
  run H b1 He. destruct b1; [done|]. run H b2 Hn. destruct b2; [done|].
  apply at_odds_false in He, Hn. assert (Ht : timely u) by done.
  run_lift H key Hk. run_lift H b3 Hv. destruct b3; [|done].
  assert (Hg : genuine u key) by done. cbn [negb] in H.
  run_lift H len El. apply prop_ok in El as [_ ->]. destruct (strict_eq (read (read u "proofs") "length") _) eqn:El'.
  - run_lift H b Hb. run_lift H b' Hb'.
    destruct (arraysEqual b b') eqn:E; [|done]. apply arraysEqual_spec in E as ->. by eapply granted_root.
  - run_lift H ps Hp. destruct ps as [|p ps].
    { by rewrite (iterate_length _ _ Hp) in El'. }
    apply check_proofs_first in H as (proof & caps & s4 & s5 & Hd & Ha & Hc & Hcc & Hr).
    eapply granted_by; [done..| |].
    + exists (p :: ps), p. split_and!; [done|left|done|done].
    + eapply IH; [exact Hr|]. by eapply holds_attenuated.
Qed.

(** ** Chains that the members build *)

Definition token_keys : list string := payload_keys ++ ["signature"].

(** Two values that are read alike. *)
Record same_token (u v : jsval) : Prop := {
  st_left : nullish u = false;
  st_right : nullish v = false;
  st_read k : k ∈ token_keys -> read u k = read v k;
}.

Lemma same_ordered keys u v : same_token u v -> keys ⊆ token_keys -> ordered keys u = ordered keys v.
Proof.
  intros [_ _ H] Hk. unfold ordered. f_equal. apply list_fmap_ext. intros i k Hi. f_equal. apply H, Hk. by eapply list_elem_of_lookup_2.
Qed.

Lemma check_proofs_ext rec u v ps s : same_token u v -> check_proofs rec u ps s = check_proofs rec v ps s.
Proof.
  intros [_ _ H]. revert s. induction ps as [|p ps IH]; intros s; [done|]. cbn [check_proofs].
  rewrite (H "issuer"), (H "capabilities") by (vm_compute; set_solver).
  unfold bind, lift. repeat (case_match; try done).
Qed.

Lemma verify_ext u v key : same_token u v -> verifyUCANSignature u key = verifyUCANSignature v key.
Proof.
  intros H. unfold verifyUCANSignature, canonicalPayloadString. rewrite (st_left _ _ H), (st_right _ _ H).
  rewrite (same_ordered payload_keys u v H) by (unfold token_keys; set_solver).
  by rewrite (st_read _ _ H "signature") by (vm_compute; set_solver).
Qed.

Lemma bind_ext {S A B} (m : eff S A) (k k' : A -> eff S B) s : (forall a s, k a s = k' a s) -> bind m k s = bind m k' s.
Proof. intros H. unfold bind. by destruct (m s) as [[] ?]. Qed.

(** A token that was sent and parsed validates like the one that was made. *)
Lemma validate_ext d u v s : same_token u v -> validate d u s = validate d v s.
Proof.
  intros H. destruct d as [|d]; [done|]. cbn [validateUCANChain].
  assert (Hf : serializeUCAN u = serializeUCAN v).
  { unfold serializeUCAN, deterministicStringify. rewrite (st_left _ _ H), (st_right _ _ H).
    by rewrite (same_ordered (payload_keys ++ ["signature"]) u v H) by done. }
  rewrite Hf. rewrite !(st_read _ _ H) by (vm_compute; set_solver).
  apply bind_ext. intros f s1. apply bind_ext. intros s2 s3. destruct (set_has f (visited s2)); [done|].
  apply bind_ext. intros [] s4. apply bind_ext. intros [] s5; [done|]. apply bind_ext. intros [] s6; [done|].
  apply bind_ext. intros key s7. rewrite (verify_ext u v key H). apply bind_ext. intros [] s8; [|done]. cbn [negb].
  apply bind_ext. intros len s9. destruct (strict_eq len _); [done|]. apply bind_ext. intros ps s10. by apply check_proofs_ext.
Qed.

(** The arguments of one call of [createUCAN]. *)
Record grant := Grant {
  g_draw : nat;
  g_key : PrivateKey;
  g_issuer : string;
  g_audience : string;
  g_caps : list UCANCapability;
  g_expiration : option num;
  g_notBefore : option num;
}.

Definition create (g : grant) (proofs : list string) : result jsval :=
  createUCAN (g_draw g) (g_key g) (g_issuer g) (g_audience g) (g_caps g) proofs (g_expiration g) (g_notBefore g).

(** The issuer's name resolves to its key, and the token is valid at every reading of
    the clock. *)
Record honest (g : grant) : Prop := {
  ho_key : resolvePublicKey (JStr (g_issuer g)) = Ok (public_of (g_key g));
  ho_expiration e : g_expiration g = Some e -> num_is_finite e = true /\ forall n, num_lt e (seconds clock n) = false;
  ho_notBefore b : g_notBefore g = Some b -> num_is_finite b = true /\ forall n, num_lt (seconds clock n) b = false;
}.

(** What [createUCAN] returns. *)
Definition token (g : grant) (proofs : list string) (sig : bytes) : jsval :=
  JObj [("version", JStr "0.1.0"); ("issuer", JStr (g_issuer g)); ("audience", JStr (g_audience g));
        ("capabilities", JArr (capability_object <$> g_caps g)); ("expiration", null_or (g_expiration g));
        ("notBefore", null_or (g_notBefore g)); ("nonce", JStr (generateNonce (g_draw g)));
        ("proofs", JArr (JStr <$> proofs)); ("signature", JStr (uint8ArrayToBase64 sig))].

Lemma created g proofs u : create g proofs = Ok u ->
  exists sig, u = token g proofs sig /\ verifyUCANSignature u (public_of (g_key g)) = Ok true.
Proof.
  unfold create, createUCAN. cbv zeta. set (p := canonicalPayloadString _). destruct p as [b|] eqn:Ep; [|done]. cbn [app].
  destruct (subtle_sign _ _ b) as [sig|] eqn:Es; [|done]. intros [= <-]. exists sig. split; [done|].
  unfold verifyUCANSignature. replace (canonicalPayloadString _) with (Ok b) by (rewrite <- Ep; done).
  change (read _ "signature") with (JStr (uint8ArrayToBase64 sig)). rewrite toText_str, base64_bytes. simpl.
  by eapply verify_sign.
Qed.

Lemma clone_capabilities caps : json_clone (JArr (capability_object <$> caps)) = JArr (capability_object <$> caps).
Proof. rewrite json_clone_arr. f_equal. rewrite <- list_fmap_compose. by apply list_fmap_ext. Qed.

Lemma clone_texts l : json_clone (JArr (JStr <$> l)) = JArr (JStr <$> l).
Proof. rewrite json_clone_arr. f_equal. rewrite <- list_fmap_compose. by apply list_fmap_ext. Qed.

Lemma clone_bound (e : option num) : (forall x, e = Some x -> num_is_finite x = true) -> json_clone (null_or e) = null_or e.
Proof. destruct e as [x|]; [|done]. intros H. simpl. by rewrite (H x eq_refl). Qed.

Lemma clone_ordered keys u : (forall k, k ∈ keys -> json_clone (read u k) = read u k /\ read u k <> JUndefined) ->
  json_clone (ordered keys u) = ordered keys u.
Proof.
  intros H. unfold ordered. rewrite json_clone_obj. f_equal. induction keys as [|k keys IH]; [done|].
  cbn [fmap list_fmap omap list_omap clone_prop snd fst]. destruct (H k ltac:(left)) as [Hk Hu].
  rewrite IH by (intros; apply H; by right). unfold clone_prop. cbn [snd fst]. by destruct (read u k); rewrite ?Hk.
Qed.

(** The text of a token is parsed to the same token. *)
Lemma token_text g proofs sig f : honest g -> serializeUCAN (token g proofs sig) = Ok f ->
  deserializeUCAN (JStr f) = Ok (ordered token_keys (token g proofs sig)).
Proof.
  intros [_ He Hb] [= <-]. unfold deserializeUCAN. rewrite toText_str, base64_bytes. cbn [or_throw].
  rewrite json_bytes_roundtrip by done. f_equal. apply clone_ordered.
  intros k Hk. unfold token_keys, payload_keys in Hk. cbn [app] in Hk.
  repeat (apply elem_of_cons in Hk as [->|Hk]); [done|done| | |done|done| | |done|by apply elem_of_nil in Hk].
  - change (read _ _) with (JArr (capability_object <$> g_caps g)). by rewrite clone_capabilities.
  - change (read _ _) with (null_or (g_expiration g)). split; [apply clone_bound; naive_solver|by destruct (g_expiration g)].
  - change (read _ _) with (null_or (g_notBefore g)). split; [apply clone_bound; naive_solver|by destruct (g_notBefore g)].
  - change (read _ _) with (JArr (JStr <$> proofs)). by rewrite clone_texts.
Qed.

Lemma token_same g proofs sig : same_token (token g proofs sig) (ordered token_keys (token g proofs sig)).
Proof.
  split; [done..|]. intros k Hk. unfold token_keys, payload_keys in Hk. cbn [app] in Hk.
  repeat (apply elem_of_cons in Hk as [->|Hk]; [done|]). by apply elem_of_nil in Hk.
Qed.

(** A text is that of one token. *)
Lemma token_text_inj g proofs sig g' proofs' sig' f : honest g -> honest g' ->
  serializeUCAN (token g proofs sig) = Ok f -> serializeUCAN (token g' proofs' sig') = Ok f -> proofs = proofs'.
Proof.
  intros Hg Hg' H H'. apply token_text in H, H'; [|done..]. rewrite H in H'. injection H' as _ _ _ _ _ _ Hp _.
  apply list_fmap_eq_inj in Hp; [done|]. by intros ? ? [= ->].
Qed.

Definition attenuates (child parent : grant) : Prop :=
  forall c, c ∈ g_caps child -> exists p, p ∈ g_caps parent /\ resource p = resource c /\
    capabilityImplies (JStr (ability p)) (JStr (ability c)) = true.

(** A token made on top of tokens with the given texts, the last one the creator's. *)
Inductive delegated : list string -> grant -> jsval -> Prop :=
| delegated_root g u f b : create g [] = Ok u -> serializeUCAN u = Ok f -> honest g ->
    exportRaw rootPublicKey = Ok b -> exportRaw (public_of (g_key g)) = Ok b -> delegated [f] g u
| delegated_by t fs parent pu g u f : delegated (t :: fs) parent pu ->
    create g [t] = Ok u -> serializeUCAN u = Ok f -> honest g ->
    g_issuer g = g_audience parent -> attenuates g parent -> delegated (f :: t :: fs) g u.

Lemma delegated_token f fs g u : delegated (f :: fs) g u ->
  exists sig, u = token g (take 1 fs) sig /\ serializeUCAN u = Ok f /\ honest g.
Proof. inversion 1 as [? ? ? ? Hc|? ? ? ? ? ? ? ? Hc]; subst; apply created in Hc as (sig & -> & _); eauto. Qed.

(** The text of a token determines the texts below it. *)
Lemma delegated_texts f fs fs' g g' u u' : delegated (f :: fs) g u -> delegated (f :: fs') g' u' -> fs = fs'.
Proof.
  revert f fs' g g' u u'. induction fs as [|t fs IH]; intros f fs' g g' u u' H H'.
  all: destruct (delegated_token _ _ _ _ H) as (sig & -> & Hs & Hh), (delegated_token _ _ _ _ H') as (sig' & -> & Hs' & Hh').
  all: pose proof (token_text_inj _ _ _ _ _ _ _ Hh Hh' Hs Hs') as E; destruct fs' as [|t' fs']; try done.
  injection E as <-. inversion H; subst. inversion H'; subst. f_equal. by eapply IH.
Qed.

Lemma delegated_suffix l fs g u : delegated (l ++ fs) g u -> fs <> [] -> exists g' u', delegated fs g' u'.
Proof.
  revert g u. induction l as [|f l IH]; intros g u H Hn; [eauto|]. simpl in H. remember (f :: l ++ fs) as all eqn:E.
  destruct H as [? ? ? ? ? ? ? ? ?|? ? ? ? ? ? ? Hp ? ? ? ? ?].
  - injection E as _ E. symmetry in E. by apply app_eq_nil in E as [_ ->].
  - injection E as _ E. rewrite E in Hp. by eapply IH.
Qed.

Lemma delegated_nodup fs g u : delegated fs g u -> NoDup fs.
Proof.
  intros H. destruct fs as [|f fs]; [by inversion H|]. revert f g u H. induction fs as [|t fs IH]; intros f g u H; [by repeat constructor; set_solver|].
  assert (Hp : exists g' u', delegated (t :: fs) g' u') by (eapply (delegated_suffix [f]); done). destruct Hp as (g' & u' & Hp).
  constructor; [|by eapply IH]. intros Hin. apply list_elem_of_split in Hin as (l1 & l2 & E). rewrite E in H.
  destruct (delegated_suffix (f :: l1) (f :: l2) g u) as (g2 & u2 & H2); [done|done|].
  pose proof (delegated_texts _ _ _ _ _ _ _ H H2) as El. apply (f_equal length) in El. rewrite length_app in El. simpl in El. lia.
Qed.

Lemma at_odds_live cmp (e : option num) s : (forall x n, e = Some x -> cmp (seconds clock n) x = false) ->
  exists n, at_odds clock cmp (null_or e) s = (Ok false, s <| ticks := n |>).
Proof.
  intros H. destruct e as [x|]; simpl; [|exists (ticks s); by destruct s]. exists (S (ticks s)).
  unfold at_odds, bind, get, modify, lift. simpl. rewrite toNumber_num. by rewrite (H x).
Qed.

(** What remains when the checks on the token itself have passed. *)
Definition remaining (d : nat) (u : jsval) (key : PublicKey) (proofs : list string) : eff chain_state verdict :=
  match proofs with
  | [] =>
      let! rootKeyBytes := lift (exportRaw rootPublicKey) in
      let! issuerKeyBytes := lift (exportRaw key) in
      if arraysEqual rootKeyBytes issuerKeyBytes then ret Valid
      else ret (Invalid "Root UCAN must be issued by document creator")
  | _ => check_proofs (validate d) u (JStr <$> proofs)
  end.

Lemma enter d g proofs u s f : create g proofs = Ok u -> honest g -> serializeUCAN u = Ok f -> f ∉ visited s ->
  exists n, validate (S d) u s = remaining d u (public_of (g_key g)) proofs (Chain (visited s ++ [f]) n).
Proof.
  intros Hc Hh Hf Hv. destruct (created _ _ _ Hc) as (sig & -> & Hsig). destruct Hh as [Hk He Hb].
  cbn [validateUCANChain]. rewrite (bind_ok _ _ s f s) by (unfold lift; by rewrite Hf). rewrite (bind_ok _ _ s s s) by done.
  assert (Hset : set_has f (visited s) = false) by (unfold set_has; by apply bool_decide_eq_false). rewrite Hset, bind_modify.
  set (s1 := s <| visited := _ |>). change (read _ "expiration") with (null_or (g_expiration g)).
  destruct (at_odds_live (fun now b => num_lt b now) (g_expiration g) s1) as [n1 E1]; [intros; by apply He|].
  rewrite (bind_ok _ _ _ _ _ E1). change (read _ "notBefore") with (null_or (g_notBefore g)).
  destruct (at_odds_live num_lt (g_notBefore g) (s1 <| ticks := n1 |>)) as [n2 E2]; [intros; by apply Hb|].
  rewrite (bind_ok _ _ _ _ _ E2). set (s2 := _ <| ticks := n2 |>). exists n2.
  assert (Es : s2 = Chain (visited s ++ [f]) n2) by (unfold s2, s1; simpl; by rewrite set_add_notin). rewrite <- Es.
  change (read _ "issuer") with (JStr (g_issuer g)).
  rewrite (bind_ok _ _ s2 _ s2) by (unfold lift; by rewrite Hk). rewrite (bind_ok _ _ s2 _ s2) by (unfold lift; by rewrite Hsig).
  cbn [negb]. rewrite (bind_ok _ _ s2 (JNum (Z.of_nat (length proofs))) s2).
  2:{ unfold lift. change (read _ "proofs") with (JArr (JStr <$> proofs)). unfold prop. simpl. by rewrite length_fmap. }
  by destruct proofs.
Qed.

Lemma has_capability_ok pcs c p : p ∈ pcs -> resource p = resource c ->
  capabilityImplies (JStr (ability p)) (JStr (ability c)) = true ->
  has_capability (capability_object <$> pcs) (capability_object c) = Ok true.
Proof.
  intros Hp Hr Ha. unfold has_capability. induction pcs as [|q pcs IH]; [by apply elem_of_nil in Hp|].
  cbn [fmap list_fmap some_throwing prop nullish capability_object].
  change (read (capability_object q) "resource") with (JStr (resource q)). change (read (capability_object q) "ability") with (JStr (ability q)).
  change (read (capability_object c) "resource") with (JStr (resource c)). change (read (capability_object c) "ability") with (JStr (ability c)).
  cbn [strict_eq]. apply elem_of_cons in Hp as [->|Hp]; [by rewrite bool_decide_true, Ha by done|].
  specialize (IH Hp). case_bool_decide; [|exact IH]. destruct (capabilityImplies (JStr (ability q)) _); [done|exact IH].
Qed.

Lemma check_attenuated g pg proof : attenuates g pg -> nullish proof = false ->
  read proof "capabilities" = JArr (capability_object <$> g_caps pg) ->
  check_capabilities proof (capability_object <$> g_caps g) = Ok Valid.
Proof.
  unfold attenuates. intros Ha Hn Hp. induction (g_caps g) as [|c caps IH]; [done|]. cbn [fmap list_fmap check_capabilities].
  unfold prop. rewrite Hn, Hp. cbn [array]. destruct (Ha c ltac:(left)) as (p & Hin & Hr & Hi).
  rewrite (has_capability_ok _ c p Hin Hr Hi). apply IH. intros c' Hc'. apply Ha. by right.
Qed.

(** One proof that was made by [createUCAN], addressed to the issuer of the token. *)
Lemma check_proof_step rec g u pg pps psig f ps s : read u "issuer" = JStr (g_issuer g) ->
  read u "capabilities" = JArr (capability_object <$> g_caps g) -> honest pg ->
  serializeUCAN (token pg pps psig) = Ok f -> g_issuer g = g_audience pg -> attenuates g pg ->
  check_proofs rec u (JStr f :: ps) s =
    (let! r := rec (ordered token_keys (token pg pps psig)) in
     match r with Invalid e => ret (Invalid e) | Valid => check_proofs rec u ps end) s.
Proof.
  intros Hi Hc Hh Hf Ea Hat. cbn [check_proofs]. rewrite (bind_ok _ _ s _ s) by (unfold lift; by rewrite (token_text _ _ _ _ Hh Hf)).
  rewrite (bind_ok _ _ s (JStr (g_audience pg)) s) by done. rewrite Hi, Ea. cbn [strict_eq]. rewrite bool_decide_true by done. cbn [negb].
  rewrite Hc. rewrite (bind_ok _ _ s _ s) by done. rewrite (bind_ok _ _ s Valid s); [done|]. unfold lift. f_equal.
  by apply (check_attenuated g pg).
Qed.

Lemma accepted fs g u : delegated fs g u -> forall d s, length fs <= d -> (forall f, f ∈ fs -> f ∉ visited s) ->
  exists n, validate d u s = (Ok Valid, Chain (visited s ++ fs) n).
Proof.
  intros H. pose proof (delegated_nodup _ _ _ H) as Hnd. revert Hnd.
  induction H as [g u f b Hc Hf Hh Hr Hk|t fs pg pu g u f Hp IH Hc Hf Hh Hi Ha]; intros Hnd [|d] s Hd Hv; simpl in Hd; try lia.
  - destruct (enter d g [] u s f) as [n ->]; [done..|by apply Hv; left|]. exists n. unfold remaining, bind, lift.
    rewrite Hr, Hk. by rewrite (proj2 (arraysEqual_spec b b) eq_refl).
  - destruct (enter d g [t] u s f) as [n ->]; [done..|by apply Hv; left|]. unfold remaining.
    apply NoDup_cons in Hnd as [Hnf Hnd]. destruct (created _ _ _ Hc) as (sig & Hu & _).
    destruct (delegated_token _ _ _ _ Hp) as (psig & Hpu & Hpf & Hph). rewrite Hpu in Hpf.
    cbn [fmap list_fmap]. rewrite (check_proof_step _ g _ pg (take 1 fs) psig t); [|by rewrite Hu..|done|done|done|done].
    destruct (IH Hnd d (Chain (visited s ++ [f]) n)) as [n' E]; [simpl; lia| |].
    { intros f' Hf'. simpl. rewrite elem_of_app, list_elem_of_singleton. intros [Hin| ->]; [|done]. by eapply Hv; [right|]. }
    exists n'. unfold bind. rewrite <- (validate_ext d pu) by (rewrite Hpu; apply token_same). rewrite E. simpl. by rewrite <- app_assoc.
Qed.

(** Honest delegation works: a chain of tokens that starts with one that the creator
    issued, in which every member passes on only what it was given, is accepted up to
    the allowed length when the tokens are in force. *)
Theorem delegation_accepted fs g u maxDepth : delegated fs g u -> length fs <= maxDepth ->
  exists n, validate maxDepth u (Chain [] 0) = (Ok Valid, Chain fs n).
Proof. intros H Hd. apply (accepted fs g u H maxDepth (Chain [] 0) Hd). intros f _. apply not_elem_of_nil. Qed.

Lemma revisited d u s f : serializeUCAN u = Ok f -> f ∈ visited s ->
  validate (S d) u s = (Ok (Invalid "Circular delegation detected in UCAN chain"), s).
Proof.
  intros Hf Hv. cbn [validateUCANChain]. rewrite (bind_ok _ _ s f s) by (unfold lift; by rewrite Hf). rewrite (bind_ok _ _ s s s) by done.
  unfold set_has. by rewrite bool_decide_true.
Qed.

(** Two proofs that rest on the same token are taken for a cycle, although there is none
    and each is valid by itself. *)
Theorem shared_proof_rejected t fs a ua fa b ub fb g u f maxDepth :
  delegated (fa :: t :: fs) a ua -> delegated (fb :: t :: fs) b ub -> fa <> fb ->
  create g [fa; fb] = Ok u -> serializeUCAN u = Ok f -> honest g ->
  g_issuer g = g_audience a -> g_issuer g = g_audience b -> attenuates g a -> attenuates g b -> length fs + 3 <= maxDepth ->
  exists s, validate maxDepth u (Chain [] 0) = (Ok (Invalid "Circular delegation detected in UCAN chain"), s).
Proof.
  intros Ha Hb Hab Hc Hf Hh Hia Hib Hta Htb Hd. destruct maxDepth as [|[|[|d]]]; [lia..|].
  destruct (enter (S (S d)) g [fa; fb] u (Chain [] 0) f) as [n ->]; [done..|apply not_elem_of_nil|]. unfold remaining. simpl visited.
  destruct (created _ _ _ Hc) as (sig & Hu & _).
  assert (Hother : forall f' fs' g' u', delegated (f' :: fs') g' u' -> f' <> f).
  { intros f' fs' g' u' Hf' ->. destruct (delegated_token _ _ _ _ Hf') as (sig' & -> & Hs' & Hh'). rewrite Hu in Hf.
    pose proof (token_text_inj _ _ _ _ _ _ _ Hh' Hh Hs' Hf) as E. by destruct fs' as [|? []]. }
  destruct (delegated_token _ _ _ _ Ha) as (asig & Hua & Hfa & Hha), (delegated_token _ _ _ _ Hb) as (bsig & Hub & Hfb & Hhb).
  rewrite Hua in Hfa. pose proof Hfb as Hfb'. rewrite Hub in Hfb'.
  cbn [fmap list_fmap]. rewrite (check_proof_step _ g _ a [t] asig fa); [|by rewrite Hu..|done|done|done|done].
  destruct (accepted _ _ _ Ha (S (S d)) (Chain [f] n)) as [n1 E1]; [simpl; lia| |].
  { intros f' Hf'. simpl. rewrite list_elem_of_singleton. apply list_elem_of_split in Hf' as (l1 & l2 & E).
    rewrite E in Ha. destruct (delegated_suffix l1 (f' :: l2) _ _ Ha) as (g' & u' & H'); [done|]. by eapply Hother. }
  rewrite (bind_ok _ _ _ Valid (Chain (f :: fa :: t :: fs) n1)) by (rewrite <- (validate_ext _ ua) by (rewrite Hua; apply token_same); exact E1).
  rewrite (check_proof_step _ g _ b [t] bsig fb); [|by rewrite Hu..|done|done|done|done].
  pose proof (delegated_nodup _ _ _ Hb) as [Hnb _]%NoDup_cons. pose proof (Hother _ _ _ _ Hb) as Hfb0.
  assert (Hin : exists rg ru, delegated (t :: fs) rg ru /\ create b [t] = Ok ub /\ g_issuer b = g_audience rg /\ attenuates b rg).
  { inversion Hb; subst; eauto 10. }
  destruct Hin as (rg & ru & Hrg & Hcb & Hib' & Htb'). destruct (delegated_token _ _ _ _ Hrg) as (rsig & Hru & Hrf & Hrh).
  unfold bind. rewrite <- (validate_ext _ ub) by (rewrite Hub; apply token_same).
  destruct (enter (S d) b [t] ub (Chain (f :: fa :: t :: fs) n1) fb) as [n2 ->]; [done..|simpl; rewrite !not_elem_of_cons; set_solver|].
  unfold remaining. pose proof Hrf as Hrf'. rewrite Hru in Hrf'. cbn [fmap list_fmap].
  rewrite (check_proof_step _ b _ rg (take 1 fs) rsig t); [|by rewrite Hub..|done|done|done|done].
  unfold bind. rewrite <- (validate_ext _ ru) by (rewrite Hru; apply token_same).
  rewrite (revisited d ru _ t) by (done || (simpl; set_solver)). simpl. eauto.
Qed.

End Chains.
End UcanTheory.
