(* ===== verification/UcanAcl.v ===== *)
(** * An access-control list with capabilities

    Models [packages/collabswarm/src/ucan-acl.ts]: a list that wraps another one (the
    interface [ACLProvider] of [Document]) and keeps, beside it, the capabilities it
    granted and the keys it revoked. *)
From stdpp Require Import base numbers list list_numbers strings sets.
From Stdlib Require Import ZArith Lia.
From S2P Require Import Prelude Base64 Wire Ucan Document.

Open Scope string_scope.
Open Scope list_scope.
Open Scope nat_scope.

Module UcanAcl.
Import Wire Ucan Document.

Section Acl.
  Context {ACL ChangesType UserKey PrivateKey PublicKey : Type}.
  Context `{AP : !ACLProvider ACL ChangesType UserKey, JB : !JsonBytes, UC : !UcanCrypto PrivateKey PublicKey}.
  Context (serializePublicKey : UserKey -> result string).

Record UCANACLEntry := Entry {
  publicKeyBase64 : string;
  ucan : jsval;
  capabilities : list string;
  grantedBy : string;
  epochId : option bytes;
  revoked : bool;
}.

Record UCANACL := mk_acl {
  _entries : list (string * UCANACLEntry);
  _revokedKeys : list string;
  _backing : ACL;
}.

#[export] Instance settable_acl : Settable UCANACL := fun s => mk_acl (_entries s) (_revokedKeys s) (_backing s).

Abbreviation method A := (eff UCANACL A).

(** A call of the backing list that changes it. *)
Definition on_backing {A} (f : ACL -> result (ACL * A)) : method A :=
  fun s => match f (_backing s) with
           | Ok (b, a) => (Ok a, s <| _backing := b |>)
           | Err e => (Err e, s)
           end.

Definition initialize : UCANACL := mk_acl [] [] acl_initialize.

Definition add (publicKey : UserKey) : method ChangesType := on_backing (fun b => acl_add b publicKey).

Definition remove (publicKey : UserKey) : method ChangesType :=
  let! keyBase64 := lift (serializePublicKey publicKey) in
  let! _ := modify (fun s => s <| _revokedKeys := set_add keyBase64 (_revokedKeys s) |>) in
  let! _ := modify (fun s => s <| _entries := map_delete keyBase64 (_entries s) |>) in
  on_backing (fun b => acl_remove b publicKey).

Definition merge (changes : ChangesType) : method unit :=
  on_backing (fun b => let? b' := acl_merge b changes in Ok (b', tt)).

(** The argument [capability] is used unless it is missing or empty. *)
Definition required (capability : option string) : option string :=
  match capability with Some c => if decide (c = "") then None else Some c | None => None end.

Definition check (publicKey : UserKey) (capability : option string) (s : UCANACL) : result bool :=
  match required capability with
  | None => acl_check (_backing s) publicKey
  | Some capability =>
      let? keyBase64 := serializePublicKey publicKey in
      if set_has keyBase64 (_revokedKeys s) then Ok false
      else
        match map_get keyBase64 (_entries s) with
        | None => acl_check (_backing s) publicKey
        | Some entry => Ok (existsb (fun held => capabilityImplies (JStr held) (JStr capability)) (capabilities entry))
        end
  end.

Fixpoint filter_users (capability : option string) (s : UCANACL) (all : list UserKey) : result (list UserKey) :=
  match all with
  | [] => Ok []
  | user :: all' =>
      let? b := check user capability s in
      let? rest := filter_users capability s all' in
      Ok (if b then user :: rest else rest)
  end.

Definition users (capability : option string) (s : UCANACL) : result (list UserKey) :=
  let? allUsers := acl_users (_backing s) in
  match required capability with None => Ok allUsers | Some _ => filter_users capability s allUsers end.

Definition grant (draw : nat) (publicKey : UserKey) (capability documentId : string) (issuerPrivateKey : PrivateKey)
    (issuerPublicKeyBase64 : string) (proofs : list string) (epochId : option bytes) : method ChangesType :=
  let! keyBase64 := lift (serializePublicKey publicKey) in
  let! ucan := lift (createUCAN draw issuerPrivateKey issuerPublicKeyBase64 keyBase64
                       [Capability documentId capability] proofs None None) in
  let! _ := modify (fun s => s <| _entries := map_set keyBase64
                 (Entry keyBase64 ucan [capability] issuerPublicKeyBase64 epochId false) (_entries s) |>) in
  on_backing (fun b => acl_add b publicKey).

Definition revoke (publicKey : UserKey) : method ChangesType := remove publicKey.

Definition getEntry (publicKey : UserKey) (s : UCANACL) : result (option UCANACLEntry) :=
  let? keyBase64 := serializePublicKey publicKey in Ok (map_get keyBase64 (_entries s)).

(** ** The list as a document uses it *)

(** A method as an operation of the interface, which returns the new list. *)
Definition as_operation {A} (m : method A) (s : UCANACL) : result (UCANACL * A) :=
  let r := m s in let? a := r.1 in Ok (r.2, a).

#[export] Instance UCANACLProvider : ACLProvider UCANACL ChangesType UserKey := {
  acl_initialize := initialize;
  acl_add s publicKey := as_operation (add publicKey) s;
  acl_remove s publicKey := as_operation (remove publicKey) s;
  acl_merge s changes := let? r := as_operation (merge changes) s in Ok r.1;
  acl_check s publicKey := check publicKey None s;
  acl_users s := users None s;
}.

(** ** Calls *)

Inductive call :=
| Add (publicKey : UserKey)
| Remove (publicKey : UserKey)
| Merge (changes : ChangesType)
| GrantTo (draw : nat) (publicKey : UserKey) (capability documentId : string) (key : PrivateKey) (issuer : string)
    (proofs : list string) (epoch : option bytes).

Definition run_call (c : call) : method unit :=
  match c with
  | Add k => let! _ := add k in ret tt
  | Remove k => let! _ := remove k in ret tt
  | Merge ch => merge ch
  | GrantTo draw k cap doc key issuer proofs epoch => let! _ := grant draw k cap doc key issuer proofs epoch in ret tt
  end.

Definition run_calls (cs : list call) (s : UCANACL) : UCANACL := foldl (fun s c => (run_call c s).2) s cs.

(** Revocations are kept, and entries are only for keys that were granted something. *)
Definition keeps_revoked (s s' : UCANACL) : Prop := _revokedKeys s ⊆ _revokedKeys s'.

#[local] Instance keeps_revoked_preorder : PreOrder keeps_revoked.
Proof. split; unfold keeps_revoked; [by intros ?|by intros ???; transitivity (_revokedKeys y)]. Qed.

Lemma on_backing_keeps {A} (f : ACL -> result (ACL * A)) : steps keeps_revoked (on_backing f).
Proof. intros s. unfold on_backing, keeps_revoked. by destruct (f _) as [[? ?]|]; intros k. Qed.

Lemma run_call_keeps c : steps keeps_revoked (run_call c).
Proof.
  pose proof @on_backing_keeps. destruct c; cbn [run_call]; unfold add, remove, merge, grant; steps_tac; auto.
  all: apply steps_modify; intros s; unfold keeps_revoked; simpl; intros k Hk; rewrite ?elem_of_set_add; tauto.
Qed.

Lemma run_calls_keeps cs s : keeps_revoked s (run_calls cs s).
Proof.
  revert s. induction cs as [|c cs IH]; intros s; [done|]. cbn. etransitivity; [apply (run_call_keeps c)|apply IH].
Qed.

Lemma remove_revokes k key s : serializePublicKey k = Ok key -> key ∈ _revokedKeys (remove k s).2.
Proof.
  intros E. unfold remove. rewrite (bind_ok _ _ s key s) by (unfold lift; by rewrite E). rewrite !bind_modify.
  apply (on_backing_keeps (fun b => acl_remove b k)). simpl. apply elem_of_set_add. by left.
Qed.

Lemma filter_users_checked cap s all l u : filter_users cap s all = Ok l -> u ∈ l -> check u cap s = Ok true.
Proof.
  revert l. induction all as [|v all IH]; intros l; cbn; [by intros [= <-] ?%elem_of_nil|].
  destruct (check v cap s) as [b|] eqn:Eb; [|done]. destruct (filter_users cap s all) as [rest|] eqn:Er; [|done]. intros [= <-].
  destruct b; [intros [->|]%elem_of_cons|]; eauto.
Qed.

(** C21. A revoked member stays out: once a key was removed, also if the call failed in the
    backing list, no sequence of additions, merges and grants, to this key or others,
    gives it a capability again, and it is in no list of the members with one. *)
Theorem revoked_stays_out k k' key c s (cs : list call) : serializePublicKey k = Ok key -> serializePublicKey k' = Ok key ->
  c <> "" -> let s' := run_calls cs (remove k s).2 in
  check k' (Some c) s' = Ok false /\ forall l, users (Some c) s' = Ok l -> k' ∉ l.
Proof.
  intros Ek Ek' Hc s'. assert (Hr : key ∈ _revokedKeys s') by (apply run_calls_keeps, (remove_revokes k); done).
  assert (Hcheck : check k' (Some c) s' = Ok false).
  { unfold check, required. rewrite decide_False by done. rewrite Ek'. by rewrite (proj2 (set_has_spec _ _) Hr). }
  split; [done|]. intros l. unfold users. destruct (acl_users _) as [all|]; [|done]. unfold required at 1. rewrite decide_False by done.
  intros Hl Hin. by rewrite (filter_users_checked _ _ _ _ _ Hl Hin) in Hcheck.
Qed.

(** ** What other replicas know

    Only the backing list travels between replicas. *)

(** A replica that granted nothing itself answers for every capability what the backing
    list says of membership. *)
Theorem grants_are_local k key c (s : UCANACL) : serializePublicKey k = Ok key -> c <> "" ->
  key ∉ _revokedKeys s -> map_get key (_entries s) = None -> check k (Some c) s = acl_check (_backing s) k.
Proof.
  intros Ek Hc Hr He. unfold check, required. rewrite decide_False by done. rewrite Ek.
  unfold set_has. rewrite bool_decide_false by done. by rewrite He.
Qed.

End Acl.

(** ** The interface without capabilities *)

Section Interface.
  Context {ChangesType UserKey : Type}.

Inductive operation := DoAdd (k : UserKey) | DoRemove (k : UserKey) | DoMerge (ch : ChangesType) | DoCheck (k : UserKey) | DoUsers.

Inductive outcome := Changed (ch : ChangesType) | Merged | Checked (b : bool) | Listed (l : list UserKey) | Failed (e : exn).

(** An operation of the interface; one that throws leaves the list. *)
Definition operate {ACL} `{!ACLProvider ACL ChangesType UserKey} (o : operation) (a : ACL) : outcome * ACL :=
  match o with
  | DoAdd k => match acl_add a k with Ok (a', ch) => (Changed ch, a') | Err e => (Failed e, a) end
  | DoRemove k => match acl_remove a k with Ok (a', ch) => (Changed ch, a') | Err e => (Failed e, a) end
  | DoMerge ch => match acl_merge a ch with Ok a' => (Merged, a') | Err e => (Failed e, a) end
  | DoCheck k => match acl_check a k with Ok b => (Checked b, a) | Err e => (Failed e, a) end
  | DoUsers => match acl_users a with Ok l => (Listed l, a) | Err e => (Failed e, a) end
  end.

Fixpoint operate_all {ACL} `{!ACLProvider ACL ChangesType UserKey} (os : list operation) (a : ACL) : list outcome :=
  match os with
  | [] => []
  | o :: os' => let r := operate o a in r.1 :: operate_all os' r.2
  end.

  Context {ACL : Type} `{AP : !ACLProvider ACL ChangesType UserKey}.
  Context (serializePublicKey : UserKey -> result string).
  #[local] Existing Instance UCANACLProvider.

Lemma operate_backing o (s : @UCANACL ACL) : (forall k, exists key, serializePublicKey k = Ok key) ->
  let p := UCANACLProvider serializePublicKey in
  (@operate _ p o s).1 = (operate o (_backing s)).1 /\ _backing (@operate _ p o s).2 = (operate o (_backing s)).2.
Proof.
  intros Hs. destruct o as [k|k|ch|k|]; cbn.
  - unfold as_operation, add, on_backing. by destruct (acl_add (_backing s) k) as [[a ch]|].
  - destruct (Hs k) as [key Ek]. unfold as_operation, remove. rewrite (bind_ok _ _ s key s) by (unfold lift; by rewrite Ek).
    rewrite !bind_modify. unfold on_backing. simpl. by destruct (acl_remove (_backing s) k) as [[a ch]|].
  - unfold as_operation, merge, on_backing. by destruct (acl_merge (_backing s) ch).
  - by destruct (acl_check (_backing s) k).
  - unfold users. cbn. by destruct (acl_users (_backing s)).
Qed.

(** A document cannot tell the list with capabilities from the one it wraps: through
    the interface that a document uses, every sequence of operations has the same
    outcomes on both. *)
Theorem acl_transparent (os : list operation) : (forall k, exists key, serializePublicKey k = Ok key) ->
  @operate_all _ (UCANACLProvider serializePublicKey) os initialize = operate_all os acl_initialize.
Proof.
  intros Hs. change acl_initialize with (_backing (initialize (AP := AP))) at 1. generalize (initialize (AP := AP)).
  induction os as [|o os IH]; intros s; [done|]. cbn [operate_all]. destruct (operate_backing o s Hs) as [-> <-]. f_equal. apply IH.
Qed.

End Interface.
End UcanAcl.
