(* ===== verification/UcanExamples.v ===== *)
(** * Concrete delegations

    A creator, an editor and a reader with toy keys. The theorems about tokens and lists
    with capabilities are applied to them, and runs show what the lists do not do. *)
From stdpp Require Import base numbers list list_numbers strings sets countable.
From Stdlib Require Import ZArith QArith Lia.
From S2P Require Import Prelude Base64 Wire Ucan UcanTheory Document DocExamples UcanAcl GroupExamples.

Open Scope string_scope.
Open Scope list_scope.
Open Scope nat_scope.

Module UcanExamples.
Import Wire Ucan UcanTheory.
#[local] Existing Instance GroupExamples.jsval_countable.

(** ** JSON text as the bits of a number, eight to a byte *)

Fixpoint pos_bits (p : positive) : list bool :=
  match p with xH => [true] | xO p => false :: pos_bits p | xI p => true :: pos_bits p end.

Fixpoint bits_pos (l : list bool) : option positive :=
  match l with
  | [] => None
  | b :: l' => match bits_pos l' with
               | Some p => Some (if b then xI p else xO p)
               | None => if b then Some xH else None
               end
  end.

Fixpoint pack (l : list bool) : bytes :=
  match l with
  | [] => []
  | b0 :: b1 :: b2 :: b3 :: b4 :: b5 :: b6 :: b7 :: l' =>
      Init.Byte.of_bits (b0, (b1, (b2, (b3, (b4, (b5, (b6, b7))))))) :: pack l'
  | _ =>
      let b i := nth i l false in
      [Init.Byte.of_bits (b 0, (b 1, (b 2, (b 3, (b 4, (b 5, (b 6, b 7)))))))]
  end.

Fixpoint unpack (b : bytes) : list bool :=
  match b with
  | [] => []
  | x :: b' =>
      let '(b0, (b1, (b2, (b3, (b4, (b5, (b6, b7))))))) := Init.Byte.to_bits x in
      b0 :: b1 :: b2 :: b3 :: b4 :: b5 :: b6 :: b7 :: unpack b'
  end.

Lemma unpack_pack : forall l, exists n, unpack (pack l) = l ++ replicate n false.
Proof.
  fix IH 1. intros l. destruct l as [|b0 [|b1 [|b2 [|b3 [|b4 [|b5 [|b6 [|b7 l]]]]]]]].
  1: by exists 0.
  8: { destruct (IH l) as [n E]. exists n. cbn [pack unpack]. by rewrite Init.Byte.to_bits_of_bits, E. }
  all: cbn [pack unpack nth]; rewrite Init.Byte.to_bits_of_bits.
  1: by exists 7. 1: by exists 6. 1: by exists 5. 1: by exists 4. 1: by exists 3. 1: by exists 2. by exists 1.
Qed.

Lemma bits_pos_bits p n : bits_pos (pos_bits p ++ replicate n false) = Some p.
Proof.
  induction p as [p IH|p IH|]; cbn; rewrite ?IH; [done..|]. assert (E : bits_pos (replicate n false) = None); [|by rewrite E].
  induction n as [|n IH]; [done|]. cbn. by rewrite IH.
Qed.

#[local, refine] Instance bit_json : JsonBytes := {
  json_bytes v := pack (pos_bits (encode (json_clone v)));
  json_of_bytes b := or_throw "SyntaxError" (bits_pos (unpack b) ≫= decode);
}.
Proof.
  - intros v _. destruct (unpack_pack (pos_bits (encode (json_clone v)))) as [n ->]. by rewrite bits_pos_bits; cbn; rewrite decode_encode.
  - intros v. by rewrite json_clone_idem.
Defined.

#[local] Instance plain_coercions : Coercions := {
  toNumber v := match v with JNum n => Ok n | _ => Ok NaN end;
  toText v := match v with JStr s => Ok s | _ => throw "TypeError" end;
  toNumber_num n := eq_refl;
  toText_str s := eq_refl;
}.

(** A key is a number; the signature of a text is the key and the text's sum. *)
Definition toy_signature (k : nat) (m : bytes) : bytes :=
  [byte_of_Z (Z.of_nat k); byte_of_Z (foldl (fun a b => a + byte_to_Z b)%Z 0%Z m)].

#[local, refine] Instance toy_crypto : UcanCrypto nat nat := {
  getRandomValues n := [byte_of_Z (Z.of_nat n)];
  subtle_sign _ k m := Ok (toy_signature k m);
  subtle_verify k sig m := Ok (bool_decide (sig = toy_signature k m));
  exportRaw k := Ok [byte_of_Z (Z.of_nat k)];
  public_of k := k;
}.
Proof. intros n k m sig [= <-]. by rewrite bool_decide_true. Defined.

Definition resolve (v : jsval) : result nat :=
  match v with
  | JStr "creator" => Ok 1
  | JStr "editor" => Ok 2
  | JStr "reader" => Ok 3
  | _ => throw "unknown key"
  end.

Definition noon (_ : nat) : Z := 1000000.

Definition get {A} (d : A) (r : result A) : A := match r with Ok a => a | Err _ => d end.

(** The creator makes an editor, who makes a reader for a limited time. *)
Definition editor_grant : @grant nat := Grant 0 1 "creator" "editor" [Capability "doc" CAP_DOC_WRITE] None None.
Definition editor_token : jsval := Eval vm_compute in get JNull (create editor_grant []).
Definition editor_text : string := Eval vm_compute in get "" (serializeUCAN editor_token).

Definition reader_grant : @grant nat := Grant 7 2 "editor" "reader" [Capability "doc" CAP_DOC_READ] (Some (2000 : num)%Z) None.
Definition reader_token : jsval := Eval vm_compute in get JNull (create reader_grant [editor_text]).
Definition reader_text : string := Eval vm_compute in get "" (serializeUCAN reader_token).

Definition outcome : result verdict * chain_state :=
  Eval vm_compute in validateUCANChain noon 1 resolve 10 reader_token (Chain [] 0).

Lemma authority_from_root_witness :
  granted noon 1 resolve (JStr "doc") (JStr CAP_DOC_READ) 10 reader_token.
Proof.
  apply (authority_from_root noon 1 resolve 10 reader_token (Chain [] 0) outcome.2).
  - vm_compute. reflexivity.
  - exists [capability_object (Capability "doc" CAP_DOC_READ)], (capability_object (Capability "doc" CAP_DOC_READ)).
    split_and!; [reflexivity|by left|reflexivity|reflexivity].
Defined.

Lemma honest_editor : honest noon resolve editor_grant.
Proof. by split. Qed.

Lemma honest_reader : honest noon resolve reader_grant.
Proof. split; [done| |done]. intros e [= <-]. by split. Qed.

Lemma delegated_editor : delegated noon 1 resolve [editor_text] editor_grant editor_token.
Proof. apply (delegated_root _ _ _ _ _ _ [byte_of_Z 1]); [vm_compute; reflexivity..|apply honest_editor|done|done]. Qed.

Lemma delegated_reader : delegated noon 1 resolve [reader_text; editor_text] reader_grant reader_token.
Proof.
  apply (delegated_by _ _ _ _ _ editor_grant editor_token); [apply delegated_editor|vm_compute; reflexivity..|apply honest_reader|done|].
  intros c ->%list_elem_of_singleton. exists (Capability "doc" CAP_DOC_WRITE). split; [by left|done].
Qed.

Lemma delegation_accepted_witness :
  exists n, validateUCANChain noon 1 resolve 10 reader_token (Chain [] 0) = (Ok Valid, Chain [reader_text; editor_text] n).
Proof. apply (delegation_accepted noon 1 resolve _ reader_grant); [apply delegated_reader|simpl; lia]. Defined.

(** ** Two proofs with the same root

    The creator makes an editor twice, and the editor's two tokens rest on the one token
    that made it; a reader's token that cites both is refused. *)

Definition note_grant (draw : nat) : @grant nat := Grant draw 2 "editor" "editor" [Capability "doc" CAP_DOC_READ] None None.
Definition note_token (draw : nat) : jsval := get JNull (create (note_grant draw) [editor_text]).
Definition note_text (draw : nat) : string := get "" (serializeUCAN (note_token draw)).

Definition diamond_token : jsval :=
  Eval vm_compute in get JNull (create (Grant 9 2 "editor" "reader" [Capability "doc" CAP_DOC_READ] None None) [note_text 3; note_text 4]).

Theorem diamond_refused :
  (validateUCANChain noon 1 resolve 10 (note_token 3) (Chain [] 0)).1 = Ok Valid /\
  (validateUCANChain noon 1 resolve 10 (note_token 4) (Chain [] 0)).1 = Ok Valid /\
  (validateUCANChain noon 1 resolve 10 diamond_token (Chain [] 0)).1 =
    Ok (Invalid "Circular delegation detected in UCAN chain").
Proof. vm_compute. repeat split. Qed.

(** ** Lists with capabilities *)

#[local] Existing Instance DocExamples.list_acl.

Definition key_name (k : nat) : result string := Ok (String.String (Ascii.ascii_of_nat (65 + k)) "").

Abbreviation acl := (@UcanAcl.UCANACL (list nat)).

Definition grant_to (k : nat) (capability issuer : string) (s : acl) : result (list nat) * acl :=
  UcanAcl.grant (PublicKey := nat) key_name 0 k capability "doc" 1 issuer [] None s.

Definition one_admin : acl := (grant_to 5 CAP_DOC_ADMIN "B" UcanAcl.initialize).2.

Lemma revoked_stays_out_witness :
  let s' := UcanAcl.run_calls key_name
    [UcanAcl.Add 5; UcanAcl.GrantTo (PrivateKey := nat) 3 5 CAP_DOC_ADMIN "doc" 1 "B" [] None; UcanAcl.Merge [5]]
    (UcanAcl.remove key_name 5 one_admin).2 in
  UcanAcl.check key_name 5 (Some CAP_DOC_READ) s' = Ok false /\
  forall l, UcanAcl.users key_name (Some CAP_DOC_READ) s' = Ok l -> 5 ∉ l.
Proof. apply (UcanAcl.revoked_stays_out key_name 5 5 "F" CAP_DOC_READ); done. Defined.

Lemma acl_transparent_witness :
  @UcanAcl.operate_all _ _ _ (UcanAcl.UCANACLProvider key_name) [UcanAcl.DoAdd 5; UcanAcl.DoRemove 5; UcanAcl.DoMerge [6]; UcanAcl.DoUsers]
    UcanAcl.initialize =
  UcanAcl.operate_all [UcanAcl.DoAdd 5; UcanAcl.DoRemove 5; UcanAcl.DoMerge [6]; UcanAcl.DoUsers] (Document.acl_initialize (ACLProvider := DocExamples.list_acl)).
Proof. apply (UcanAcl.acl_transparent key_name). intros k. by eexists. Defined.

(** A member that was granted reading here may do everything on a replica that merged
    the change. *)
Theorem granted_reader_is_admin_elsewhere :
  let here := grant_to 5 CAP_DOC_READ "B" UcanAcl.initialize in
  let there := (UcanAcl.merge (get [] here.1) (UcanAcl.initialize : acl)).2 in
  UcanAcl.check key_name 5 (Some CAP_DOC_ADMIN) here.2 = Ok false /\
  UcanAcl.check key_name 5 (Some CAP_DOC_ADMIN) there = Ok true.
Proof. by vm_compute. Qed.

(** A second grant replaces the first. *)
Theorem second_grant_replaces :
  let s := (grant_to 5 CAP_DOC_HISTORY "B" one_admin).2 in
  UcanAcl.check key_name 5 (Some CAP_DOC_READ) one_admin = Ok true /\
  UcanAcl.check key_name 5 (Some CAP_DOC_READ) s = Ok false.
Proof. by vm_compute. Qed.

(** Revoking a member leaves what it granted. *)
Theorem downstream_survives :
  let s := (UcanAcl.revoke key_name 5 (grant_to 6 CAP_DOC_WRITE "F" one_admin).2).2 in
  UcanAcl.check key_name 5 (Some CAP_DOC_READ) s = Ok false /\
  UcanAcl.check key_name 6 (Some CAP_DOC_WRITE) s = Ok true.
Proof. by vm_compute. Qed.

End UcanExamples.
