(* ===== verification/JsonMessages.v ===== *)
(** * Sync messages as JSON

    Models [packages/collabswarm/src/json-serializer.ts] and the serializers of the two
    adapters, [YjsJSONSerializer] of [collabswarm-yjs/src/collabswarm-yjs.ts] and
    [AutomergeJSONSerializer] of [collabswarm-automerge/src/collabswarm-automerge.ts],
    which differ in how changes are written.

    A message is an object of the language: its fields are in the order in which they were
    assigned, and JSON text has them in that order. Which of several malformed fields
    an error names is left out. *)
From stdpp Require Import base numbers list list_numbers strings sets.
From Stdlib Require Import ZArith Lia.
From S2P Require Import Prelude TipsHash ChangeTree Wire.

Open Scope string_scope.
Open Scope list_scope.
Open Scope nat_scope.

Module JsonMessages.
Import ChangeTree Wire.

(** ** Changes *)

(** How an adapter writes and reads a value of its [ChangesType]; [is_changes] is the test
    that decides whether the state of a snapshot is read. *)
Class ChangesCodec (C : Type) := {
  encodeChanges : C -> jsval;
  decodeChanges : jsval -> result C;
  is_changes : jsval -> bool;
}.

Class CodecLaws (C : Type) `{!ChangesCodec C} := {
  decode_encode_changes c : decodeChanges (encodeChanges c) = Ok c;
  encode_is_changes c : is_changes (encodeChanges c) = true;
  encode_plain c : json_clone (encodeChanges c) = encodeChanges c;
  encode_defined c : encodeChanges c <> JUndefined;
}.

Section Codecs.
  Context `{B64 : !Base64}.

(** [Base64.toUint8Array(v)] *)
Definition decode_bytes (v : jsval) : result bytes :=
  match v with JStr s => or_throw "base64" (toUint8Array s) | _ => throw "TypeError" end.

(** Yjs: one update. *)
#[export] Instance YjsCodec : ChangesCodec bytes := {
  encodeChanges c := JStr (fromUint8Array c);
  decodeChanges := decode_bytes;
  is_changes v := match v with JStr _ => true | _ => false end;
}.

(** Automerge: a list of changes. *)
Definition serializeBinaryChanges (cs : list bytes) : jsval := JArr ((fun c => JStr (fromUint8Array c)) <$> cs).

Definition deserializeBinaryChanges (v : jsval) : result (list bytes) :=
  match v with JArr l => map_throwing decode_bytes l | _ => throw "TypeError" end.

#[export] Instance AutomergeCodec : ChangesCodec (list bytes) := {
  encodeChanges := serializeBinaryChanges;
  decodeChanges := deserializeBinaryChanges;
  is_changes v := match v with JArr _ => true | _ => false end;
}.

#[export] Instance YjsCodec_laws : CodecLaws bytes.
Proof. split; [|done..]. intros c. simpl. by rewrite base64_roundtrip. Qed.

#[export] Instance AutomergeCodec_laws : CodecLaws (list bytes).
Proof.
  split; [|done| |done].
  - intros cs. simpl. apply map_throwing_ok_iff. induction cs as [|c cs IH]; constructor; [|done]. simpl. by rewrite base64_roundtrip.
  - intros cs. cbn [encodeChanges AutomergeCodec]. unfold serializeBinaryChanges. rewrite json_clone_arr. f_equal. rewrite <- list_fmap_compose. by apply list_fmap_ext.
Qed.

End Codecs.

Section Messages.
  Context {C : Type} `{B64 : !Base64, JB : !JsonBytes, CC : !ChangesCodec C}.

(** ** Messages *)

(** A field of a snapshot; the public key of its author cannot be written. *)
Inductive snapshot_field := SState (c : C) | SBytes (b : bytes) | SJson (v : jsval) | SKey.

Inductive field :=
| FText (s : string)
| FBytes (b : bytes)
| FChanges (c : C)
| FTree (n : CRDTChangeNode C)
| FTips (l : list string)
| FJson (v : jsval)
| FSnapshot (ps : list (string * snapshot_field))
| FUndefined.

Abbreviation message := (list (string * field)).

Definition field_of (k : string) (m : message) : field := default FUndefined (map_get k m).

(** *** Writing *)

Definition wire_snapshot_field (f : snapshot_field) : jsval :=
  match f with
  | SState c => encodeChanges c
  | SBytes b => JStr (fromUint8Array b)
  | SJson v => v
  | SKey => JUndefined
  end.

(** [snapshotForWire] *)
Definition wire_snapshot (ps : list (string * snapshot_field)) : list (string * jsval) :=
  map_delete "publicKey" ((fun p => (p.1, wire_snapshot_field p.2)) <$> ps).

Definition wire_field (f : field) : jsval :=
  match f with
  | FText s => JStr s
  | FBytes b => JStr (fromUint8Array b)
  | FChanges c => encodeChanges c
  | FTree n => serializeChangeNodeForJSON encodeChanges n
  | FTips l => JArr (JStr <$> l)
  | FJson v => v
  | FSnapshot ps => JObj (wire_snapshot ps)
  | FUndefined => JUndefined
  end.

(** The fields written out after [...message]; a field that the message has keeps its
    place. *)
Definition written : list string :=
  ["changes"; "keychainChanges"; "welcomeEpochId"; "welcomeRecipient"; "welcomeRecipientKemPublicKey"; "eciesSealed";
   "pathUpdate"; "pathUpdateEpochId"; "tipsHash"; "tips"; "snapshot"].

Definition wire_object (m : message) : list (string * jsval) :=
  foldl (fun o k => map_set k (wire_field (field_of k m)) o) ((fun p => (p.1, wire_field p.2)) <$> m) written.

Definition serializeSyncMessage (m : message) : bytes := json_bytes (JObj (wire_object m)).

(** *** Reading *)

Inductive field_kind := KText | KBytes | KHash | KTips | KChanges | KTree | KObject | KSnapshot.

(** The declared fields, in the order in which the result is built. *)
Definition declared : list (string * field_kind) :=
  [("documentId", KText); ("changeId", KText); ("signature", KText); ("changes", KTree); ("keychainChanges", KChanges);
   ("welcomeEpochId", KBytes); ("welcomeRecipient", KText); ("welcomeRecipientKemPublicKey", KBytes); ("eciesSealed", KBytes);
   ("pathUpdate", KObject); ("pathUpdateEpochId", KBytes); ("tipsHash", KHash); ("tips", KTips); ("snapshot", KSnapshot)].

Definition read_text (v : jsval) : result string := match v with JStr s => Ok s | _ => throw "must be a string" end.

(** The state and the signature are decoded where they are encoded. *)
Definition read_snapshot_field (p : string * jsval) : result (string * snapshot_field) :=
  let (k, v) := p in
  if decide (k = "state") then
    if is_changes v then let? c := decodeChanges v in Ok (k, SState c) else Ok (k, SJson v)
  else if decide (k = "signature") then
    match v with JStr s => let? b := decode_bytes v in Ok (k, SBytes b) | _ => Ok (k, SJson v) end
  else Ok (k, SJson v).

Definition read_field (kind : field_kind) (v : jsval) : result field :=
  match kind with
  | KText => let? s := read_text v in Ok (FText s)
  | KBytes => let? _ := read_text v in let? b := decode_bytes v in Ok (FBytes b)
  | KHash =>
      let? _ := read_text v in let? b := decode_bytes v in
      if (Z.of_nat (length b) =? TipsHash.TIPS_HASH_LENGTH)%Z then Ok (FBytes b) else throw "tipsHash"
  | KTips => match v with JArr l => let? ts := map_throwing read_text l in Ok (FTips ts) | _ => throw "tips" end
  | KChanges => let? c := decodeChanges v in Ok (FChanges c)
  | KTree => let? n := deserializeChangeNodeFromJSON decodeChanges v in Ok (FTree n)
  | KObject => match v with JObj _ => Ok (FJson v) | _ => throw "pathUpdate" end
  | KSnapshot => match v with JObj ps => let? fs := map_throwing read_snapshot_field ps in Ok (FSnapshot fs) | _ => throw "snapshot" end
  end.

(** Each field that the received object has. *)
Fixpoint read_fields (fields : list (string * field_kind)) (raw : list (string * jsval)) : result message :=
  match fields with
  | [] => Ok []
  | (k, kind) :: fields' =>
      match jget k raw with
      | JUndefined => read_fields fields' raw
      | v =>
          let? f := read_field kind v in
          let? rest := read_fields fields' raw in
          Ok ((k, f) :: rest)
      end
  end.

Definition deserializeSyncMessage (b : bytes) : result message :=
  let? decoded := json_of_bytes b in
  match decoded with
  | JObj raw =>
      let? _ := read_text (jget "documentId" raw) in
      read_fields declared raw
  | _ => throw "expected a plain object"
  end.

(** ** Change blocks *)

Record CRDTChangeBlock := ChangeBlock {
  b_changes : C;
  b_nonce : bytes;
  b_keyID : option string;
  b_blindIndexTokens : option (list (string * string));
}.

Definition DANGEROUS_KEYS : list string := ["__proto__"; "constructor"; "prototype"].

(** The bytes of the text. *)
Definition serializeChangeBlock (block : CRDTChangeBlock) : bytes :=
  json_bytes (JObj (
    [("changes", encodeChanges (b_changes block)); ("nonce", JStr (fromUint8Array (b_nonce block)))] ++
    (match b_keyID block with Some k => [("keyID", JStr k)] | None => [] end) ++
    (match b_blindIndexTokens block with
     | Some tokens => [("blindIndexTokens", JObj ((fun p => (p.1, JStr p.2)) <$> tokens))]
     | None => []
     end))).

(** The loop over the received tokens. *)
Fixpoint sanitize (sanitized : list (string * string)) (entries : list (string * jsval)) : result (list (string * string)) :=
  match entries with
  | [] => Ok sanitized
  | (key, val) :: entries' =>
      if bool_decide (key ∈ DANGEROUS_KEYS) then sanitize sanitized entries'
      else match val with
           | JStr s => sanitize (map_set key s sanitized) entries'
           | _ => throw "blindIndexTokens values must be strings"
           end
  end.

(** The key ID and the tokens of the result. *)
Definition validateChangeBlockMetadata (deserialized : list (string * jsval)) :
    result (option string * option (list (string * string))) :=
  let? keyID :=
    match map_get "keyID" deserialized with
    | None => Ok None
    | Some (JStr s) => Ok (Some s)
    | Some _ => throw "keyID must be a string"
    end in
  let? tokens :=
    match map_get "blindIndexTokens" deserialized with
    | None => Ok None
    | Some (JObj entries) => let? t := sanitize [] entries in Ok (Some t)
    | Some _ => throw "blindIndexTokens must be a plain object"
    end in
  Ok (keyID, tokens).

Definition deserializeChangeBlock (b : bytes) : result CRDTChangeBlock :=
  let? raw := json_of_bytes b in
  match raw with
  | JObj deserialized =>
      match jget "nonce" deserialized with
      | JStr nonce =>
          if is_changes (jget "changes" deserialized) then
            let? changes := decodeChanges (jget "changes" deserialized) in
            let? nonce := decode_bytes (JStr nonce) in
            let? metadata := validateChangeBlockMetadata deserialized in
            Ok (ChangeBlock changes nonce metadata.1 metadata.2)
          else throw "Invalid change block"
      | _ => throw "Invalid change block"
      end
  | _ => throw "Invalid change block"
  end.

(** ** The messages of a document

    The objects as [collabswarm-document.ts] assigns their fields, without the
    signature. *)

Definition assign (k : string) (f : field) (m : message) : message := map_set k f m.

(** [{ documentId: this.documentPath }], or the last message. *)
Definition create_object (documentPath : string) (last : option message) : message :=
  match last with Some m => m | None => [("documentId", FText documentPath)] end.

(** [_makeChange]: the new last message, signed. *)
Definition update_object (documentPath : string) (last : option message) (hash : string) (tree : CRDTChangeNode C)
    (signature : string) : message :=
  assign "signature" (FText signature) (assign "changes" (FTree tree) (assign "changeId" (FText hash) (create_object documentPath last))).

(** [_refreshLastSyncMessageFromSync], when it adopts the received tree. *)
Definition refresh_object (documentPath : string) (last : option message) (hash : string) (tree : CRDTChangeNode C) : message :=
  assign "tipsHash" FUndefined (assign "tips" FUndefined (assign "signature" FUndefined
    (assign "changes" (FTree tree) (assign "changeId" (FText hash) (create_object documentPath last))))).

(** [handleLoadRequestData] *)
Definition load_object (documentPath : string) (last : option message) (keychain : C)
    (snapshot : option (list (string * snapshot_field))) (tips : list string) : message :=
  let m := assign "keychainChanges" (FChanges keychain) (create_object documentPath last) in
  let m := match snapshot with Some ps => assign "snapshot" (FSnapshot ps) m | None => m end in
  assign "tips" (FTips tips) m.

(** [handleSnapshotLoadRequestData] *)
Definition snapshot_object (documentPath : string) (last : option message) (keychain : C)
    (snapshot : list (string * snapshot_field)) (tips : list string) : message :=
  assign "tips" (FTips tips) (assign "keychainChanges" (FChanges keychain)
    (assign "snapshot" (FSnapshot snapshot) (create_object documentPath last))).

Definition advertisement_object (documentPath : string) (hash : bytes) : message :=
  [("documentId", FText documentPath); ("tipsHash", FBytes hash)].

Definition welcome_object (documentPath : string) (epoch : bytes) (recipient : string) (kem sealed : bytes) : message :=
  [("documentId", FText documentPath); ("welcomeEpochId", FBytes epoch); ("welcomeRecipient", FText recipient);
   ("welcomeRecipientKemPublicKey", FBytes kem); ("eciesSealed", FBytes sealed)].

Definition path_update_object (documentPath : string) (update : jsval) (epoch : bytes) : message :=
  [("documentId", FText documentPath); ("pathUpdate", FJson update); ("pathUpdateEpochId", FBytes epoch)].

Definition key_update_object (documentPath : string) (keychain : C) : message :=
  [("documentId", FText documentPath); ("keychainChanges", FChanges keychain)].

(** *** Messages that the interface describes *)

Definition snapshot_field_ok (p : string * snapshot_field) : Prop :=
  match p.2 with
  | SState _ => p.1 = "state"
  | SBytes _ => p.1 = "signature"
  | SJson v => p.1 <> "state" /\ p.1 <> "signature" /\ p.1 <> "publicKey" /\ json_clone v = v /\ v <> JUndefined
  | SKey => p.1 = "publicKey"
  end.

Definition field_ok (kind : field_kind) (f : field) : Prop :=
  match kind, f with
  | _, FUndefined | KText, FText _ | KBytes, FBytes _ | KTips, FTips _ | KChanges, FChanges _ | KTree, FTree _ => True
  | KHash, FBytes b => Z.of_nat (length b) = TipsHash.TIPS_HASH_LENGTH
  | KObject, FJson (JObj ps) => json_clone (JObj ps) = JObj ps
  | KSnapshot, FSnapshot ps => NoDup ps.*1 /\ Forall snapshot_field_ok ps
  | _, _ => False
  end.

Record proper (m : message) : Prop := {
  pr_keys : NoDup m.*1;
  pr_fields k f : map_get k m = Some f -> exists kind, map_get k declared = Some kind /\ field_ok kind f;
  pr_document : exists d, map_get "documentId" m = Some (FText d);
}.

Definition is_defined (f : field) : bool := match f with FUndefined => false | _ => true end.

Definition defined (m : message) : message := List.filter (fun p => is_defined p.2) m.

(** What arrives: the defined fields in the receiver's order, the author's key left out. *)
Definition received_field (f : field) : field :=
  match f with
  | FSnapshot ps => FSnapshot (List.filter (fun p => negb (bool_decide (p.1 = "publicKey"))) ps)
  | _ => f
  end.

Definition received (m : message) : message :=
  omap (fun d : string * field_kind => let f := field_of d.1 m in
          if is_defined f then Some (d.1, received_field f) else None) declared.

(** [const { signature, ...messageWithoutSignature } = message] *)
Definition without_signature (m : message) : message := map_delete "signature" m.

End Messages.

(** *** Round trip *)

Section Theory.
  Context {C : Type} `{B64 : !Base64, JB : !JsonBytes, CC : !ChangesCodec C, CL : !CodecLaws C}.
  Abbreviation message := (list (string * @field C)).

Lemma map_set_same {V} k (v : V) (o : list (string * V)) : map_get k o = Some v -> map_set k v o = o.
Proof.
  induction o as [|[k' v'] o IH]; [done|]. cbn. case_decide as E; [intros [= ->]; by subst|]. intros Hg. by rewrite IH.
Qed.

Lemma map_set_new {V} k (v : V) (o : list (string * V)) : map_get k o = None -> map_set k v o = o ++ [(k, v)].
Proof. induction o as [|[k' v'] o IH]; [done|]. cbn. case_decide; [done|]. intros Hg. by rewrite IH. Qed.

Lemma map_get_fmap {V W} (g : V -> W) k (o : list (string * V)) :
  map_get k ((fun p => (p.1, g p.2)) <$> o) = g <$> map_get k o.
Proof. induction o as [|[k' v'] o IH]; [done|]. cbn. by case_decide. Qed.

Lemma jget_clone k ps : NoDup ps.*1 -> jget k (omap clone_prop ps) = json_clone (jget k ps).
Proof.
  intros Hnd. unfold jget. induction ps as [|[k' v] ps IH]; [done|]. apply NoDup_cons in Hnd as [Hk Hnd]. specialize (IH Hnd).
  assert (Hnone : map_get k' ps = None).
  { destruct (map_get k' ps) eqn:E; [|done]. exfalso. apply Hk. apply (map_has_spec k' ps). unfold map_has. by rewrite E. }
  destruct v; cbn in *; case_decide; try done. subst k'. by rewrite IH, Hnone.
Qed.

(** Writing the listed fields again changes nothing that JSON text shows. *)
Lemma wire_object_clone m : NoDup m.*1 ->
  omap clone_prop (wire_object m) = omap clone_prop ((fun p => (p.1, wire_field p.2)) <$> m).
Proof.
  intros Hnd. unfold wire_object.
  assert (Hinv : forall k, map_get k ((fun p => (p.1, wire_field p.2)) <$> m) = Some (wire_field (field_of k m)) \/
                   (map_get k ((fun p => (p.1, wire_field p.2)) <$> m) = None /\ field_of k m = FUndefined)).
  { intros k. rewrite map_get_fmap. unfold field_of. destruct (map_get k m); [by left|by right]. }
  revert Hinv. generalize ((fun p : string * field => (p.1, wire_field p.2)) <$> m).
  induction written as [|k ks IH]; intros o Ho; [done|]. cbn [foldl]. rewrite IH; clear IH.
  - destruct (Ho k) as [E|[E Eu]]; [by rewrite map_set_same|]. rewrite map_set_new by done. rewrite Eu, omap_app. apply app_nil_r.
  - intros k'. rewrite map_get_set. case_decide; [subst; by left|apply Ho].
Qed.

Lemma wire_defined kind (f : @field C) : field_ok kind f -> is_defined f = true -> wire_field f <> JUndefined.
Proof. destruct kind, f as [s|b|c|n|l|[]|ps|]; try done; intros _ _; cbn; [apply encode_defined|by destruct n]. Qed.

Lemma read_texts l : map_throwing read_text (clone_elem <$> (JStr <$> l)) = Ok l.
Proof. apply map_throwing_ok_iff. induction l as [|t l IH]; by constructor. Qed.

Lemma read_bytes b : decode_bytes (JStr (fromUint8Array b)) = Ok b.
Proof. cbn. by rewrite base64_roundtrip. Qed.

(** What is read back from the snapshot that was written. *)
Lemma read_snapshot (ps : list (string * @snapshot_field C)) : NoDup ps.*1 -> Forall snapshot_field_ok ps ->
  map_throwing read_snapshot_field (omap clone_prop (wire_snapshot ps)) =
    Ok (List.filter (fun p => negb (bool_decide (p.1 = "publicKey"))) ps).
Proof.
  intros Hnd Hok. unfold wire_snapshot. induction Hok as [|[k f] ps Hf _ IH]; [done|]. apply NoDup_cons in Hnd as [_ Hnd].
  specialize (IH Hnd). cbn [fmap list_fmap fst snd map_delete List.filter].
  destruct (decide ("publicKey" = k)) as [<-|Hk]; [by rewrite bool_decide_true by done|]. rewrite bool_decide_false by done. cbn [negb].
  destruct f as [c|b|v|]; unfold snapshot_field_ok in Hf; cbn [fst snd] in Hf; [subst k..| |done].
  - cbn [omap list_omap clone_prop wire_snapshot_field snd fst]. rewrite (clone_prop_defined "state") by apply encode_defined.
    cbn [map_throwing read_snapshot_field]. rewrite decide_True by done. rewrite encode_plain, encode_is_changes, decode_encode_changes.
    cbn. by rewrite IH.
  - cbn -[decode_bytes read_snapshot_field]. cbn [read_snapshot_field]. rewrite decide_False, decide_True by done. rewrite read_bytes. by rewrite IH.
  - destruct Hf as (H1 & H2 & _ & Hv & Hu). cbn [omap list_omap wire_snapshot_field snd fst]. rewrite (clone_prop_defined k) by done.
    cbn [map_throwing read_snapshot_field]. rewrite !decide_False by done. rewrite Hv. by rewrite IH.
Qed.

Lemma read_wire kind (f : @field C) : field_ok kind f -> is_defined f = true ->
  read_field kind (json_clone (wire_field f)) = Ok (received_field f).
Proof.
  destruct kind, f as [s|b|c|n|l|[]|ps|]; try done; intros Hok _; cbn [wire_field received_field].
  - cbn -[decode_bytes]. by rewrite read_bytes.
  - cbn -[decode_bytes]. rewrite read_bytes. cbn in Hok. by rewrite Hok.
  - rewrite json_clone_arr. cbn [read_field]. by rewrite read_texts.
  - rewrite encode_plain. cbn. by rewrite decode_encode_changes.
  - cbn [read_field]. destruct (change_tree_roundtrip encodeChanges decodeChanges n) as [_ ->]; [|done].
    intros c. rewrite encode_plain. auto using encode_defined, decode_encode_changes.
  - cbn [field_ok] in Hok. cbn [read_field]. by rewrite Hok.
  - destruct Hok as [Hnd Hps]. rewrite json_clone_obj. cbn [read_field]. by rewrite read_snapshot.
Qed.

Lemma field_of_some k (m : message) f : field_of k m = f -> is_defined f = true -> map_get k m = Some f.
Proof. unfold field_of. destruct (map_get k m); cbn; [by intros ->|by intros <-]. Qed.

Lemma declared_nodup : NoDup declared.*1.
Proof. apply (bool_decide_unpack _). by vm_compute. Qed.

Lemma read_received (m : message) : proper m ->
  read_fields declared (omap clone_prop ((fun p => (p.1, wire_field p.2)) <$> m)) = Ok (received m).
Proof.
  intros [Hnd Hf _]. unfold received.
  assert (Hd : forall k kind, (k, kind) ∈ declared -> map_get k declared = Some kind).
  { intros k kind Hin. by apply (elem_of_map_get k kind declared declared_nodup). }
  assert (Hnd' : NoDup (((fun p => (p.1, wire_field p.2)) <$> m).*1)).
  { rewrite <- list_fmap_compose. exact Hnd. }
  revert Hd. generalize declared at 1 3 4 as ds. induction ds as [|[k kind] ds IH]; intros Hd; [done|]. cbn [read_fields omap list_omap fst].
  rewrite jget_clone by done. unfold jget. rewrite map_get_fmap.
  replace (default JUndefined (wire_field <$> map_get k m)) with (wire_field (field_of k m)) by (unfold field_of; by destruct (map_get k m)).
  specialize (IH (fun k kind H => Hd k kind ltac:(by right))).
  destruct (is_defined (field_of k m)) eqn:Edef.
  - pose proof (field_of_some _ _ _ eq_refl Edef) as Hget. destruct (Hf k _ Hget) as (kind' & Hk & Hok).
    rewrite (Hd k kind ltac:(left)) in Hk. injection Hk as <-.
    pose proof (json_clone_defined _ (wire_defined _ _ Hok Edef)) as Hne. pose proof (read_wire _ _ Hok Edef) as Hr. revert Hne Hr.
    destruct (json_clone (wire_field (field_of k m))); intros Hne Hr; [done|rewrite Hr, IH; done..].
  - by destruct (field_of k m).
Qed.

(** A message survives the wire: what a peer reads from the text of a message that has
    the declared fields with their types is that message, field for field, in the
    receiver's order and without the snapshot author's key, which is never sent. *)
Theorem sync_message_roundtrip (m : message) : proper m ->
  deserializeSyncMessage (serializeSyncMessage m) = Ok (received m).
Proof.
  intros Hm. unfold deserializeSyncMessage, serializeSyncMessage. rewrite json_bytes_roundtrip by done.
  rewrite json_clone_obj, (wire_object_clone m) by apply Hm. destruct (pr_document m Hm) as [d Hdoc].
  rewrite jget_clone by (rewrite <- list_fmap_compose; apply Hm). unfold jget at 1. rewrite map_get_fmap, Hdoc. cbn -[read_fields].
  by apply read_received.
Qed.

(** *** What the receiver verifies

    The signature is over the text of the message without it; the receiver writes the
    message it read again. *)

(** The text of a message shows its defined fields in their order. *)
Definition visible (m : message) : list (string * jsval) := (fun p => (p.1, json_clone (wire_field p.2))) <$> defined m.

Lemma visible_clone (m : message) : (forall k f, (k, f) ∈ m -> is_defined f = true -> wire_field f <> JUndefined) ->
  omap clone_prop ((fun p => (p.1, wire_field p.2)) <$> m) = visible m.
Proof.
  unfold visible, defined. induction m as [|[k f] m IH]; intros Hm; [done|]. cbn [fmap list_fmap omap list_omap List.filter fst snd].
  specialize (IH (fun k f Hin => Hm k f ltac:(by right))). destruct (is_defined f) eqn:E.
  - rewrite clone_prop_defined by (apply (Hm k); [left|done]). cbn [fmap list_fmap fst snd]. f_equal. exact IH.
  - by destruct f.
Qed.

Lemma same_bytes (m m' : message) : NoDup m.*1 -> NoDup m'.*1 ->
  (forall k f, (k, f) ∈ m ++ m' -> is_defined f = true -> wire_field f <> JUndefined) ->
  serializeSyncMessage m = serializeSyncMessage m' <-> visible m = visible m'.
Proof.
  intros Hm Hm' Hd. unfold serializeSyncMessage. rewrite <- (visible_clone m), <- (visible_clone m') by set_solver.
  rewrite <- (wire_object_clone m), <- (wire_object_clone m') by done. split.
  - intros E. apply (f_equal json_of_bytes) in E. rewrite !json_bytes_roundtrip, !json_clone_obj in E by done. by injection E.
  - intros E. rewrite <- json_bytes_clone, <- (json_bytes_clone (JObj (wire_object m'))), !json_clone_obj. by rewrite E.
Qed.

Lemma sublist_filter (l c : list string) : l `sublist_of` c -> NoDup c -> List.filter (fun k => bool_decide (k ∈ l)) c = l.
Proof.
  induction 1 as [|x l c H IH|x l c H IH]; intros Hc; [done|..]; apply NoDup_cons in Hc as [Hx Hc]; cbn [List.filter].
  - rewrite bool_decide_true by left. f_equal. transitivity (List.filter (fun k => bool_decide (k ∈ l)) c); [|by apply IH]. apply filter_ext_in. intros k Hk. apply bool_decide_ext.
    rewrite elem_of_cons. split; [intros [->|]; [|done]|by right]. by apply list_elem_of_In in Hk.
  - rewrite bool_decide_false by (intros Hin; by apply Hx; eapply elem_of_sublist). by apply IH.
Qed.

Lemma wire_received (f : @field C) : wire_field (received_field f) = wire_field f.
Proof.
  destruct f as [| | | | | |ps|]; try done. cbn. f_equal. unfold wire_snapshot. induction ps as [|[k f] ps IH]; [done|].
  cbn [List.filter fst fmap list_fmap map_delete]. case_bool_decide as E; cbn [negb].
  - subst k. by rewrite decide_True by done.
  - cbn [fmap list_fmap map_delete fst snd]. rewrite !decide_False by done. f_equal. exact IH.
Qed.

Lemma defined_received (f : @field C) : is_defined (received_field f) = is_defined f.
Proof. by destruct f. Qed.

(** The keys that the receiver's message has without the signature. *)
Definition signed_keys (m : message) : list string :=
  List.filter (fun k => negb (bool_decide (k = "signature")) && is_defined (field_of k m)) declared.*1.

Definition show (m : message) (k : string) : string * jsval := (k, json_clone (wire_field (field_of k m))).

Lemma visible_received (m : message) : visible (without_signature (received m)) = show m <$> signed_keys m.
Proof.
  unfold visible, without_signature, received, signed_keys, defined. induction declared as [|[k kind] ds IH]; [done|].
  cbn [omap list_omap fst fmap list_fmap List.filter]. destruct (is_defined (field_of k m)) eqn:E; [|by rewrite andb_false_r].
  cbn [map_delete]. destruct (decide ("signature" = k)) as [<-|Hk]; [by rewrite bool_decide_true by done|].
  rewrite bool_decide_false by done. cbn [negb andb List.filter fst snd]. rewrite defined_received, E.
  cbn [fmap list_fmap fst snd]. rewrite wire_received. f_equal. exact IH.
Qed.

Lemma without_signature_keys k (m : message) : map_get k (without_signature m) = if decide (k = "signature") then None else map_get k m.
Proof. apply map_get_delete. Qed.

Lemma visible_sent (m : message) : NoDup m.*1 ->
  visible (without_signature m) = show m <$> (defined (without_signature m)).*1.
Proof.
  intros Hnd. unfold visible. rewrite <- list_fmap_compose. apply list_fmap_ext. intros i [k f] Hi. cbn.
  apply list_elem_of_lookup_2 in Hi. unfold defined in Hi. apply list_elem_of_In, filter_In in Hi as [Hi _]. apply list_elem_of_In in Hi.
  apply elem_of_map_get in Hi; [|by apply NoDup_map_delete]. rewrite without_signature_keys in Hi. case_decide; [done|].
  unfold show, field_of. by rewrite Hi.
Qed.

Lemma elem_of_defined k (m : message) : NoDup m.*1 ->
  k ∈ (defined (without_signature m)).*1 <-> k <> "signature" /\ is_defined (field_of k m) = true.
Proof.
  intros Hnd. rewrite list_elem_of_fmap. unfold defined. split.
  - intros ([k' f] & -> & Hin). apply list_elem_of_In, filter_In in Hin as [Hin Hdef]. apply list_elem_of_In in Hin.
    apply elem_of_map_get in Hin; [|by apply NoDup_map_delete]. rewrite without_signature_keys in Hin. case_decide; [done|].
    split; [done|]. unfold field_of. cbn [fst]. by rewrite Hin.
  - intros [Hk Hdef]. pose proof (field_of_some k m _ eq_refl Hdef) as Hg. exists (k, field_of k m). split; [done|].
    apply list_elem_of_In, filter_In. split; [|done]. apply list_elem_of_In, map_get_elem_of. by rewrite without_signature_keys, decide_False.
Qed.

Lemma proper_wire (m : message) k f : proper m -> (k, f) ∈ m -> is_defined f = true -> wire_field f <> JUndefined.
Proof.
  intros Hm Hin Hdef. apply elem_of_map_get in Hin; [|apply Hm]. destruct (pr_fields m Hm k f Hin) as (kind & _ & Hok).
  by eapply wire_defined.
Qed.

Lemma elem_of_map_delete k (p : string * @field C) (m : message) : p ∈ map_delete k m -> p ∈ m.
Proof. induction m as [|[k' f] m IH]; [done|]. cbn. case_decide; rewrite ?elem_of_cons; naive_solver. Qed.

Lemma received_wire (m : message) k f : proper m -> (k, f) ∈ received m -> wire_field f <> JUndefined.
Proof.
  intros Hm Hin. unfold received in Hin. apply list_elem_of_omap in Hin as ([k' kind] & _ & E). cbn in E.
  destruct (is_defined (field_of k' m)) eqn:Hdef; [|done]. injection E as <- <-. rewrite wire_received.
  pose proof (field_of_some _ m _ eq_refl Hdef) as Hg. by eapply proper_wire; [|apply map_get_elem_of|].
Qed.

Lemma received_keys (m : message) : NoDup (received m).*1.
Proof.
  assert (Hs : (received m).*1 `sublist_of` declared.*1); [|exact (sublist_NoDup _ _ declared_nodup Hs)].
  unfold received. induction declared as [|[k kind] ds IH]; [constructor|]. cbn. destruct (is_defined _); cbn; by constructor.
Qed.

Lemma signed_bytes_same (m : message) : proper m ->
  serializeSyncMessage (without_signature (received m)) = serializeSyncMessage (without_signature m) <->
  (defined (without_signature m)).*1 `sublist_of` declared.*1.
Proof.
  intros Hm. rewrite same_bytes.
  2, 3: apply NoDup_map_delete; [apply received_keys || apply Hm].
  2:{ intros k f [Hin|Hin]%elem_of_app Hdef; apply elem_of_map_delete in Hin; [by eapply received_wire|by eapply proper_wire]. }
  rewrite visible_received, visible_sent by apply Hm. set (l := (defined (without_signature m)).*1).
  assert (HK : signed_keys m = List.filter (fun k => bool_decide (k ∈ l)) declared.*1).
  { apply filter_ext. intros k. apply eq_true_iff_eq. rewrite bool_decide_eq_true. unfold l. rewrite elem_of_defined by apply Hm.
    rewrite andb_true_iff, negb_true_iff, bool_decide_eq_false. done. }
  split.
  - intros E. apply list_fmap_eq_inj in E; [|by intros ? ? [= ->]]. rewrite <- E, HK.
    clear. induction declared.*1 as [|k ks IH]; [constructor|]. cbn. case_bool_decide; by constructor.
  - intros Hs. by rewrite HK, (sublist_filter l _ Hs declared_nodup).
Qed.

(** C22. What a signature covers: the receiver checks it against the bytes that the sender
    signed if and only if the sender assigned the fields of the message in the order in
    which the receiver rebuilds them. *)
Theorem verified_bytes_iff (m : message) : proper m ->
  serializeSyncMessage (without_signature (received m)) = serializeSyncMessage (without_signature m) <->
  (defined (without_signature m)).*1 `sublist_of` declared.*1.
Proof. apply signed_bytes_same. Qed.

(** ** Which messages of a document can be verified *)

Definition in_order (keys : list string) : bool :=
  bool_decide (List.filter (fun k => bool_decide (k ∈ keys)) declared.*1 = keys).

Lemma in_order_spec keys : in_order keys = true <-> keys `sublist_of` declared.*1.
Proof.
  unfold in_order. rewrite bool_decide_eq_true. split; [|intros Hs; by apply sublist_filter, declared_nodup].
  intros <-. clear. induction declared.*1 as [|k ks IH]; [constructor|]. cbn. case_bool_decide; by constructor.
Qed.

(** How the last message of a document came about. *)
Inductive last_event := Authored (hash : string) (tree : CRDTChangeNode C) (signature : string) | Adopted (hash : string) (tree : CRDTChangeNode C).

Definition last_step (documentPath : string) (last : option message) (e : last_event) : option message :=
  Some match e with
       | Authored hash tree signature => update_object documentPath last hash tree signature
       | Adopted hash tree => refresh_object documentPath last hash tree
       end.

Definition last_message (documentPath : string) (events : list last_event) : option message := foldl (last_step documentPath) None events.

Definition is_adopted (e : last_event) : bool := match e with Adopted _ _ => true | _ => false end.

(** The last message has its fields in one of three orders. *)
Lemma last_shape doc events : events = [] /\ last_message doc events = None \/
  exists hash tree sig, (forall kind, kind = KText -> field_ok kind sig) /\
    last_message doc events = Some ([("documentId", FText doc); ("changeId", FText hash); ("changes", FTree tree); ("signature", sig)] ++
      if existsb is_adopted events then [("tips", FUndefined); ("tipsHash", FUndefined)] else []).
Proof.
  unfold last_message. induction events as [|e events IH] using rev_ind; [by left|right].
  rewrite foldl_app, existsb_app. cbn [foldl existsb].
  destruct IH as [[-> ->]|(hash & tree & sig & Hs & ->)].
  - destruct e as [hash tree sig|hash tree]; exists hash, tree; eexists; (split; [|reflexivity]); by intros ? ->.
  - destruct (existsb is_adopted events), e as [hash' tree' sig'|hash' tree']; exists hash', tree'; eexists; (split; [|reflexivity]); by intros ? ->.
Qed.

Lemma proper_list (m : message) : bool_decide (NoDup m.*1) = true ->
  Forall (fun p => exists kind, map_get p.1 declared = Some kind /\ field_ok kind p.2) m ->
  (exists d, map_get "documentId" m = Some (FText d)) -> proper m.
Proof.
  intros Hk Hf Hd. apply bool_decide_eq_true in Hk. split; [done| |done].
  intros k f Hg. apply map_get_elem_of in Hg. rewrite Forall_forall in Hf. exact (Hf (k, f) Hg).
Qed.

Definition snapshot_ok (ps : list (string * @snapshot_field C)) : Prop := NoDup ps.*1 /\ Forall snapshot_field_ok ps.

Ltac proper_tac :=
  apply proper_list;
    [reflexivity
    |cbn -[json_clone]; repeat (apply Forall_cons; split; [eexists; split; [reflexivity|first [exact I|assumption]]|]); try by apply Forall_nil
    |eexists; reflexivity].

(** C23. Which load responses can be verified: the bytes that the receiver checks are those
    that the responder signed if and only if the response has no snapshot and the
    responder's tree was never adopted from another peer. *)
Theorem load_response_verified doc events (keychain : C) snapshot tips :
  (forall ps, snapshot = Some ps -> snapshot_ok ps) ->
  let m := load_object doc (last_message doc events) keychain snapshot tips in
  serializeSyncMessage (without_signature (received m)) = serializeSyncMessage (without_signature m) <->
  snapshot = None /\ existsb is_adopted events = false.
Proof.
  intros Hs m. unfold m. clear m. unfold load_object.
  destruct (last_shape doc events) as [[-> ->]|(hash & tree & sig & Hsig & ->)].
  - destruct snapshot as [ps|].
    + specialize (Hs ps eq_refl). rewrite signed_bytes_same by proper_tac. rewrite <- in_order_spec. split; [done|by intros [? _]].
    + rewrite signed_bytes_same by proper_tac. rewrite <- in_order_spec. done.
  - specialize (Hsig KText eq_refl). destruct snapshot as [ps|], (existsb is_adopted events); try specialize (Hs _ eq_refl).
    all: rewrite signed_bytes_same by proper_tac; rewrite <- in_order_spec.
    all: destruct sig; try done; (split; [intros E; vm_compute in E; done|intros [? ?]; done]).
Qed.

(** A response to a request for the snapshot is never verified. *)
Theorem snapshot_response_unverified doc events (keychain : C) snapshot tips : snapshot_ok snapshot ->
  let m := snapshot_object doc (last_message doc events) keychain snapshot tips in
  serializeSyncMessage (without_signature (received m)) <> serializeSyncMessage (without_signature m).
Proof.
  intros Hs m. unfold m. clear m. unfold snapshot_object.
  destruct (last_shape doc events) as [[-> ->]|(hash & tree & sig & Hsig & ->)].
  - rewrite signed_bytes_same by proper_tac. rewrite <- in_order_spec. intros E. by vm_compute in E.
  - specialize (Hsig KText eq_refl). destruct (existsb is_adopted events).
    all: rewrite signed_bytes_same by proper_tac; rewrite <- in_order_spec; destruct sig; try done; intros E; by vm_compute in E.
Qed.

(** The messages that can be verified whatever they hold. *)
Theorem broadcasts_verified doc events hash tree sig (keychain : C) tipshash epoch recipient kem sealed ps :
  Z.of_nat (length tipshash) = TipsHash.TIPS_HASH_LENGTH -> json_clone (JObj ps) = JObj ps ->
  Forall (fun m => serializeSyncMessage (without_signature (received m)) = serializeSyncMessage (without_signature m))
    [update_object doc (last_message doc events) hash tree sig; advertisement_object doc tipshash;
     welcome_object doc epoch recipient kem sealed; path_update_object doc (JObj ps) epoch; key_update_object doc keychain].
Proof.
  intros Hh Hp. repeat (apply Forall_cons; split); [..|by apply Forall_nil].
  2-5: apply signed_bytes_same; [proper_tac|by apply in_order_spec].
  unfold update_object. destruct (last_shape doc events) as [[-> ->]|(h & t & sg & Hsig & ->)].
  - apply signed_bytes_same; [proper_tac|by apply in_order_spec].
  - specialize (Hsig KText eq_refl). destruct (existsb is_adopted events);
      (apply signed_bytes_same; [proper_tac|by apply in_order_spec]).
Qed.

(** ** Change blocks *)

Definition safe_tokens (tokens : list (string * string)) : Prop := NoDup tokens.*1 /\ forall k, k ∈ tokens.*1 -> k ∉ DANGEROUS_KEYS.

Lemma sanitize_safe acc entries t : safe_tokens acc -> sanitize acc entries = Ok t -> safe_tokens t.
Proof.
  revert acc. induction entries as [|[k v] entries IH]; intros acc Hacc; cbn [sanitize]; [by intros [= <-]|].
  case_bool_decide as Hk; [by apply IH|]. destruct v as [| | | |s| |]; try done. apply IH. destruct Hacc as [Hnd Hd].
  split; [by apply NoDup_map_set|]. intros k' Hk'. rewrite elem_of_map_keys_set in Hk'. destruct Hk' as [->|]; auto.
Qed.

Lemma sanitize_tokens tokens acc : NoDup (acc ++ tokens).*1 -> (forall k, k ∈ tokens.*1 -> k ∉ DANGEROUS_KEYS) ->
  sanitize acc ((fun p => (p.1, JStr p.2)) <$> tokens) = Ok (acc ++ tokens).
Proof.
  revert acc. induction tokens as [|[k t] tokens IH]; intros acc Hnd Hd; cbn [fmap list_fmap sanitize fst snd]; [by rewrite app_nil_r|].
  rewrite bool_decide_false by (apply Hd; left). rewrite map_set_new.
  - replace (acc ++ (k, t) :: tokens) with ((acc ++ [(k, t)]) ++ tokens) in * by (by rewrite <- app_assoc).
    apply IH; [done|]. intros k' Hk'. apply Hd. by right.
  - destruct (map_get k acc) eqn:E; [|done]. exfalso. rewrite fmap_app in Hnd. apply NoDup_app in Hnd as (_ & Hnd & _).
    apply (Hnd k); [|left]. apply map_get_is_Some. by eexists.
Qed.

(** A change block survives the wire with its key ID and its tokens, when the tokens
    have no dangerous name; and whatever text a peer sends, no accepted block has one. *)
Theorem change_block_wire :
  (forall block : @CRDTChangeBlock C, (forall t, b_blindIndexTokens block = Some t -> safe_tokens t) ->
     deserializeChangeBlock (serializeChangeBlock block) = Ok block) /\
  (forall b (block : @CRDTChangeBlock C) t, deserializeChangeBlock b = Ok block -> b_blindIndexTokens block = Some t -> safe_tokens t).
Proof.
  split.
  - intros [c nonce keyID tokens] Ht. cbn in Ht. unfold deserializeChangeBlock, serializeChangeBlock. rewrite json_bytes_roundtrip by done.
    rewrite json_clone_obj. cbn [b_changes b_nonce b_keyID b_blindIndexTokens app].
    set (rest := _ ++ _).
    assert (Er : omap clone_prop (("changes", encodeChanges c) :: ("nonce", JStr (fromUint8Array nonce)) :: rest) =
      ("changes", encodeChanges c) :: ("nonce", JStr (fromUint8Array nonce)) :: rest).
    { cbn [omap list_omap]. rewrite !clone_prop_defined by (done || apply encode_defined). rewrite encode_plain. do 2 f_equal.
      unfold rest. destruct keyID, tokens as [t|]; try done; cbn [app omap list_omap].
      all: rewrite !clone_prop_defined by done; rewrite json_clone_obj; do 4 f_equal.
      all: induction t as [|[k v] t IHt]; [done|]; cbn [fmap list_fmap omap list_omap fst snd clone_prop json_clone]; f_equal; apply IHt.
      all: intros t' [= <-]; destruct (Ht _ eq_refl) as [Hnd Hd]; apply NoDup_cons in Hnd as [_ Hnd]; split; [done|]; intros k' Hk'; apply Hd; by right. }
    rewrite Er. change (jget "nonce" _) with (JStr (fromUint8Array nonce)). change (jget "changes" _) with (encodeChanges c). cbv iota beta.
    rewrite encode_is_changes, decode_encode_changes, read_bytes.
    assert (Em : validateChangeBlockMetadata (("changes", encodeChanges c) :: ("nonce", JStr (fromUint8Array nonce)) :: rest) = Ok (keyID, tokens)).
    { unfold validateChangeBlockMetadata. set (ps := _ :: _ :: rest).
      assert (E1 : map_get "keyID" ps = option_map JStr keyID) by (unfold ps, rest; by destruct keyID, tokens).
      assert (E2 : map_get "blindIndexTokens" ps = option_map (fun t => JObj ((fun p => (p.1, JStr p.2)) <$> t)) tokens)
        by (unfold ps, rest; by destruct keyID, tokens).
      rewrite E1, E2. destruct tokens as [t|]; [|by destruct keyID]. destruct (Ht t eq_refl) as [Hnd Hd]. cbn [option_map].
      rewrite sanitize_tokens by done. by destruct keyID. }
    by rewrite Em.
  - intros b block t. unfold deserializeChangeBlock. destruct (json_of_bytes b) as [[| | | | | |ps]|]; try done.
    destruct (jget "nonce" ps) as [| | | |s| |]; try done. destruct (is_changes _); [|done]. destruct (decodeChanges _) as [c|]; [|done].
    destruct (decode_bytes _) as [n|]; [|done]. destruct (validateChangeBlockMetadata ps) as [[k t']|] eqn:Em; [|done].
    intros [= <-] [= ->]. revert Em. unfold validateChangeBlockMetadata. destruct (map_get "keyID" ps) as [[| | | |kid| |]|]; try done.
    all: destruct (map_get "blindIndexTokens" ps) as [[| | | | | |es]|]; try done; destruct (sanitize [] es) as [t'|] eqn:Es; [|done].
    all: intros [= _ <-]; eapply sanitize_safe; [|exact Es]; (split; [constructor|by intros ? ?%elem_of_nil]).
Qed.

End Theory.
End JsonMessages.
