(* ===== verification/JsonExamples.v ===== *)
(** * Concrete messages as JSON

    The theorems about the text of messages are applied to a load response of a peer that
    has made one change, with and without a snapshot. *)
From stdpp Require Import base numbers list list_numbers strings sets.
From Stdlib Require Import ZArith Lia.
From S2P Require Import Prelude TipsHash ChangeTree Wire UcanExamples JsonMessages.

Open Scope string_scope.
Open Scope list_scope.
Open Scope nat_scope.

Module JsonExamples.
Import ChangeTree Wire JsonMessages.
#[local] Existing Instances Wire.latin1 UcanExamples.bit_json.

Definition one_leaf : CRDTChangeNode bytes := Node None DocumentNode (Some [Init.Byte.x01]) NoChildren.

Definition authored : list (@last_event bytes) := [Authored "cid-1" one_leaf "sig-1"].

Definition some_snapshot : list (string * @snapshot_field bytes) :=
  [("state", SState [Init.Byte.x07]); ("lastChangeNodeCID", SJson (JStr "cid-1")); ("compactedCount", SJson (JNum 1%Z));
   ("signature", SBytes [Init.Byte.x02]); ("publicKey", SKey); ("timestamp", SJson (JNum 5%Z))].

Lemma some_snapshot_ok : snapshot_ok some_snapshot.
Proof.
  split; [apply (bool_decide_unpack _); by vm_compute|].
  repeat (apply Forall_cons; split; [vm_compute; repeat split; discriminate|]). by apply Forall_nil.
Qed.

Definition response (snapshot : option (list (string * @snapshot_field bytes))) : list (string * @field bytes) :=
  load_object "/doc" (last_message "/doc" authored) [Init.Byte.x09] snapshot ["cid-1"].

Lemma response_proper : proper (response (Some some_snapshot)).
Proof.
  apply proper_list; [reflexivity| |eexists; reflexivity]. pose proof some_snapshot_ok as Hs.
  repeat (apply Forall_cons; split; [eexists; split; [reflexivity|first [exact I|exact Hs]]|]). by apply Forall_nil.
Qed.

Lemma sync_message_roundtrip_witness :
  deserializeSyncMessage (serializeSyncMessage (response (Some some_snapshot))) = Ok (received (response (Some some_snapshot))).
Proof. apply (sync_message_roundtrip (response (Some some_snapshot))). exact response_proper. Defined.

Lemma verified_bytes_iff_witness :
  serializeSyncMessage (without_signature (received (response (Some some_snapshot)))) =
    serializeSyncMessage (without_signature (response (Some some_snapshot))) <->
  (defined (without_signature (response (Some some_snapshot)))).*1 `sublist_of` declared.*1.
Proof. apply (verified_bytes_iff (response (Some some_snapshot))). exact response_proper. Defined.

Lemma load_response_verified_witness :
  serializeSyncMessage (without_signature (received (response None))) = serializeSyncMessage (without_signature (response None)).
Proof. apply (load_response_verified "/doc" authored [Init.Byte.x09] None ["cid-1"]); [discriminate|by split]. Defined.

(** With the snapshot, the signer's text ends in the tips and the receiver's in the
    snapshot. *)
Theorem snapshot_before_tips :
  (defined (without_signature (response (Some some_snapshot)))).*1 =
    ["documentId"; "changeId"; "changes"; "keychainChanges"; "snapshot"; "tips"] /\
  (defined (without_signature (received (response (Some some_snapshot))))).*1 =
    ["documentId"; "changeId"; "changes"; "keychainChanges"; "tips"; "snapshot"].
Proof. by vm_compute. Qed.

End JsonExamples.
