(* ===== verification/JsonSerializers.v ===== *)
(** * The serializers of the adapters

    [JSONSerializer] of [packages/collabswarm/src/json-serializer.ts] with what
    [YjsJSONSerializer] and [AutomergeJSONSerializer] override, and the contract that a
    document relies on. *)
From stdpp Require Import base numbers list list_numbers strings sets.
From Stdlib Require Import ZArith Lia.
From S2P Require Import Prelude TipsHash ChangeTree Wire JsonMessages Loading.

Open Scope string_scope.
Open Scope list_scope.
Open Scope nat_scope.

Module JsonSerializers.
Import ChangeTree Wire JsonMessages Loading.

(** The methods; text is given by its bytes. *)
Record JSONSerializer (C : Type) := Serializer {
  serializeChanges : C -> bytes;
  deserializeChanges : bytes -> result C;
  serializeChangeBlock_ : @CRDTChangeBlock C -> bytes;
  deserializeChangeBlock_ : bytes -> result (@CRDTChangeBlock C);
  serializeSyncMessage_ : list (string * @field C) -> bytes;
  deserializeSyncMessage_ : bytes -> result (list (string * @field C));
  serializeLoadRequest : CRDTLoadRequest -> bytes;
  deserializeLoadRequest : bytes -> result jsval;
}.
Arguments serializeChanges {_} _ _.
Arguments deserializeChanges {_} _ _.
Arguments serializeChangeBlock_ {_} _ _.
Arguments deserializeChangeBlock_ {_} _ _.
Arguments serializeSyncMessage_ {_} _ _.
Arguments deserializeSyncMessage_ {_} _ _.
Arguments serializeLoadRequest {_} _ _.
Arguments deserializeLoadRequest {_} _ _.

Section Serializers.
  Context `{B64 : !Base64, JB : !JsonBytes}.

(** Inherited from [JSONSerializer]; the shape of what is read is not checked. *)
Definition base_serializeLoadRequest (m : CRDTLoadRequest) : bytes :=
  json_bytes (JObj [("documentId", JStr (lr_documentId m)); ("signature", JStr (lr_signature m))]).

Definition base_deserializeLoadRequest (b : bytes) : result jsval := json_of_bytes b.

Definition YjsJSONSerializer : JSONSerializer bytes := {|
  serializeChanges changes := changes;
  deserializeChanges changes := Ok changes;
  serializeChangeBlock_ := serializeChangeBlock;
  deserializeChangeBlock_ := deserializeChangeBlock;
  serializeSyncMessage_ := serializeSyncMessage;
  deserializeSyncMessage_ := deserializeSyncMessage;
  serializeLoadRequest := base_serializeLoadRequest;
  deserializeLoadRequest := base_deserializeLoadRequest;
|}.

Definition AutomergeJSONSerializer : JSONSerializer (list bytes) := {|
  serializeChanges changes := json_bytes (serializeBinaryChanges changes);
  deserializeChanges changes :=
    let? raw := json_of_bytes changes in
    match raw with
    | JArr _ => deserializeBinaryChanges raw
    | _ => throw "Invalid serialized changes: expected string[]"
    end;
  serializeChangeBlock_ := serializeChangeBlock;
  deserializeChangeBlock_ := deserializeChangeBlock;
  serializeSyncMessage_ := serializeSyncMessage;
  deserializeSyncMessage_ := deserializeSyncMessage;
  serializeLoadRequest := base_serializeLoadRequest;
  deserializeLoadRequest := base_deserializeLoadRequest;
|}.

(** ** What a document relies on *)
Record contract {C} `{!ChangesCodec C} (s : JSONSerializer C) : Prop := {
  ct_changes c : deserializeChanges s (serializeChanges s c) = Ok c;
  ct_block block : (forall t, b_blindIndexTokens block = Some t -> safe_tokens t) ->
    deserializeChangeBlock_ s (serializeChangeBlock_ s block) = Ok block;
  ct_tokens b block t : deserializeChangeBlock_ s b = Ok block -> b_blindIndexTokens block = Some t -> safe_tokens t;
  ct_message m : proper m -> deserializeSyncMessage_ s (serializeSyncMessage_ s m) = Ok (received m);
  ct_request m : deserializeLoadRequest s (serializeLoadRequest s m) =
    Ok (JObj [("documentId", JStr (lr_documentId m)); ("signature", JStr (lr_signature m))]);
}.

(** C25. Both serializers keep the contract: changes, change blocks with safe tokens, sync
    messages with the declared fields and load requests are read back as they were, and no
    accepted block has a token under a dangerous name, whatever bytes a peer sends. *)
Theorem serializers_keep_contract : contract YjsJSONSerializer /\ contract AutomergeJSONSerializer.
Proof.
  split; split; cbn; try apply change_block_wire; try apply sync_message_roundtrip; try done.
  - intros m. unfold base_deserializeLoadRequest, base_serializeLoadRequest. by rewrite json_bytes_roundtrip.
  - intros c. rewrite json_bytes_roundtrip by done. change (serializeBinaryChanges c) with (encodeChanges c). rewrite encode_plain.
    exact (decode_encode_changes c).
  - intros m. unfold base_deserializeLoadRequest, base_serializeLoadRequest. by rewrite json_bytes_roundtrip.
Qed.

End Serializers.
End JsonSerializers.
