(* ===== verification/Lru.v ===== *)
(** * The bounded cache

    Models [packages/collabswarm/src/lru-cache.ts]. The cache is compared with an
    unbounded list of everything that was stored, ordered by last use: it holds the
    most recently used entries of that list, as many as fit. *)
From stdpp Require Import base numbers list list_numbers strings sets.
From Stdlib Require Import ZArith QArith Qround Lia.
From S2P Require Import Prelude.

Open Scope list_scope.
Open Scope nat_scope.

Module Lru.

Section Cache.
  Context {K V : Type} `{!EqDecision K}.

Record LRUCache := mk_cache {
  _map : list (K * V);
  _maxSize : nat;
}.

#[export] Instance settable_cache : Settable LRUCache := fun c => mk_cache (_map c) (_maxSize c).

(** [new LRUCache(maxSize)] *)
Definition newLRUCache (maxSize : num) : result LRUCache :=
  match maxSize with
  | Fin q => if num_lt (Fin q) 1%Z then throw "RangeError" else Ok (mk_cache [] (Z.to_nat (Qfloor q)))
  | _ => throw "RangeError"
  end.

(** Values are never [undefined], so a present key and a defined value are the same. *)
Definition lru_get (key : K) : eff LRUCache (option V) :=
  let! c := get in
  match map_get key (_map c) with
  | Some value =>
      let! _ := modify (fun c => c <| _map := map_delete key (_map c) |>) in
      let! _ := modify (fun c => c <| _map := map_set key value (_map c) |>) in
      ret (Some value)
  | None => ret None
  end.

Definition lru_set (key : K) (value : V) : eff LRUCache unit :=
  let! c := get in
  let! _ :=
    if map_has key (_map c) then modify (fun c => c <| _map := map_delete key (_map c) |>)
    else if _maxSize c <=? length (_map c) then
      modify (fun c => c <| _map := match _map c with (firstKey, _) :: _ => map_delete firstKey (_map c) | [] => [] end |>)
    else ret tt in
  modify (fun c => c <| _map := map_set key value (_map c) |>).

Definition lru_has (key : K) (c : LRUCache) : bool := map_has key (_map c).

Definition lru_size (c : LRUCache) : nat := length (_map c).

(** ** The unbounded list *)

(** Store or use an entry: it becomes the most recent one. *)
Definition touch (key : K) (value : V) (l : list (K * V)) : list (K * V) := map_delete key l ++ [(key, value)].

(** The last [n] entries. *)
Definition recent (n : nat) (l : list (K * V)) : list (K * V) := drop (length l - n) l.

Inductive access := Get (key : K) | Set_ (key : K) (value : V).

(** A use of an entry that no longer fits is not seen. *)
Definition use (n : nat) (l : list (K * V)) (a : access) : list (K * V) :=
  match a with
  | Get key => match map_get key (recent n l) with Some v => touch key v l | None => l end
  | Set_ key value => touch key value l
  end.

Definition run_access (a : access) (c : LRUCache) : LRUCache :=
  match a with
  | Get key => (lru_get key c).2
  | Set_ key value => (lru_set key value c).2
  end.

Lemma map_delete_app (k : K) (l l' : list (K * V)) : map_delete k (l ++ l') = map_delete k l ++ map_delete k l'.
Proof. induction l as [|[k' v] l IH]; [done|]. cbn. case_decide; [done|]. by rewrite IH. Qed.

Lemma map_set_append (k : K) (v : V) (l : list (K * V)) : k ∉ l.*1 -> map_set k v l = l ++ [(k, v)].
Proof.
  induction l as [|[k' v'] l IH]; [done|]. cbn. rewrite not_elem_of_cons. intros [Hk Hl]. rewrite decide_False by done. by rewrite IH.
Qed.

Lemma notin_delete (k : K) (l : list (K * V)) : k ∉ (map_delete k l).*1.
Proof. rewrite elem_of_map_keys_delete. tauto. Qed.

Lemma map_has_notin (k : K) (l : list (K * V)) : map_has k l = false <-> k ∉ l.*1.
Proof. rewrite <- (not_true_iff_false (map_has k l)), map_has_spec. done. Qed.

Lemma length_map_delete (k : K) (l : list (K * V)) : NoDup l.*1 -> k ∈ l.*1 -> S (length (map_delete k l)) = length l.
Proof.
  induction l as [|[k' v] l IH]; [by intros _ ?%elem_of_nil|]. cbn. intros [Hk Hnd]%NoDup_cons Hin. case_decide as E.
  - subst. by rewrite map_delete_notin.
  - cbn. f_equal. apply IH; [done|]. by apply elem_of_cons in Hin as [|].
Qed.

Lemma touch_nodup k v (l : list (K * V)) : NoDup l.*1 -> NoDup (touch k v l).*1.
Proof.
  intros Hl. unfold touch. rewrite fmap_app. apply NoDup_app. split_and!; [by apply NoDup_map_delete| |by repeat constructor; set_solver].
  intros k' Hk' ->%list_elem_of_singleton. by apply notin_delete in Hk'.
Qed.

Lemma recent_all n (l : list (K * V)) : length l <= n -> recent n l = l.
Proof. intros H. unfold recent. by replace (length l - n) with 0 by lia. Qed.

(** Splitting off what does not fit. *)
Lemma recent_split n (l : list (K * V)) : exists old, l = old ++ recent n l /\ length (recent n l) = n `min` length l.
Proof.
  exists (take (length l - n) l). unfold recent. rewrite take_drop, length_drop. split; [done|lia].
Qed.

Lemma recent_app n (old w : list (K * V)) : length w = n -> recent n (old ++ w) = w.
Proof. intros <-. unfold recent. rewrite length_app. replace (_ - _) with (length old) by lia. apply drop_app_length. Qed.

Lemma recent_short n (old w : list (K * V)) : length w < n -> recent n (old ++ w) = w -> old = [].
Proof.
  intros Hw H. apply (f_equal length) in H. destruct (recent_split n (old ++ w)) as (o & _ & Hl). rewrite Hl, length_app in H.
  destruct old; [done|]. cbn in H. lia.
Qed.

Record cache_ok (n : nat) (l : list (K * V)) (c : LRUCache) : Prop := {
  co_keys : NoDup l.*1;
  co_max : _maxSize c = n;
  co_map : _map c = recent n l;
}.

Lemma touch_recent n k v (l : list (K * V)) : 0 < n -> NoDup l.*1 ->
  recent n (touch k v l) =
    if decide (k ∈ (recent n l).*1) then touch k v (recent n l)
    else (if n <=? length (recent n l) then drop 1 (recent n l) else recent n l) ++ [(k, v)].
Proof.
  intros Hn Hl. destruct (recent_split n l) as (old & E & Hw). set (w := recent n l) in *. clearbody w. assert (Hlen : length l = length old + length w) by (rewrite E; apply length_app). rewrite E in Hl |- *.
  rewrite fmap_app in Hl. apply NoDup_app in Hl as (Hold & Hdis & Hwnd).
  unfold touch. rewrite map_delete_app. case_decide as Hk.
  - rewrite (map_delete_notin k old) by (intros Hin; by apply (Hdis k)). rewrite <- app_assoc.
    pose proof (length_map_delete k w Hwnd Hk) as Hdel. destruct (decide (length l <= n)) as [Hs|Hs].
    + assert (old = []) as -> by (destruct old; [done|cbn in Hlen; lia]).
      apply recent_all. rewrite length_app. cbn. lia.
    + apply recent_app. rewrite length_app. cbn. lia.
  - rewrite (map_delete_notin k w) by done. destruct (Nat.leb_spec n (length w)) as [Hfull|Hshort].
    + destruct w as [|x w']; [cbn in Hfull; lia|]. cbn [drop]. rewrite <- app_assoc.
      change ((x :: w') ++ [(k, v)]) with ([x] ++ (w' ++ [(k, v)])). rewrite app_assoc. apply recent_app. rewrite length_app. cbn [length drop] in *. rewrite ?drop_0. lia.
    + assert (old = []) as -> by (destruct old; [done|cbn in Hlen; lia]).
      cbn. apply recent_all. rewrite length_app. cbn. lia.
Qed.

Lemma recent_nodup n (l : list (K * V)) : NoDup l.*1 -> NoDup (recent n l).*1.
Proof.
  intros Hl. destruct (recent_split n l) as (old & E & _). rewrite E, fmap_app in Hl. by apply NoDup_app in Hl as (_ & _ & ?).
Qed.

Lemma access_refines n l c a : 0 < n -> cache_ok n l c -> cache_ok n (use n l a) (run_access a c).
Proof.
  intros Hn [Hk Hm Hc]. pose proof (recent_nodup n l Hk) as Hw. destruct a as [k|k v]; cbn [run_access use].
  - unfold lru_get. rewrite (bind_ok _ _ c c c) by done. rewrite Hc. destruct (map_get k (recent n l)) as [v|] eqn:E; [|by split].
    rewrite !bind_modify. split; cbn; [by apply touch_nodup|done|]. rewrite touch_recent by done.
    rewrite decide_True by (apply map_get_is_Some; by eexists). rewrite Hc. unfold touch. rewrite map_set_append; [done|apply notin_delete].
  - unfold lru_set. rewrite (bind_ok _ _ c c c) by done. split; [by apply touch_nodup| |].
    + destruct (map_has k (_map c)); [done|]. by destruct (_maxSize c <=? length (_map c)).
    + rewrite Hc, Hm, touch_recent by done. destruct (map_has k (recent n l)) eqn:Eh.
      * rewrite decide_True by (by apply map_has_spec). rewrite bind_modify. cbn. rewrite Hc. unfold touch. rewrite map_set_append; [done|apply notin_delete].
      * apply map_has_notin in Eh. rewrite decide_False by done. destruct (n <=? length (recent n l)).
        -- rewrite bind_modify. cbn. rewrite Hc. destruct (recent n l) as [|[fk fv] w]; [done|]. cbn [fmap list_fmap fst] in *.
           apply NoDup_cons in Hw as [Hf Hw]. apply not_elem_of_cons in Eh as [Hne Hin].
           cbn [map_delete drop]. rewrite decide_True by done. rewrite map_delete_notin by done. by rewrite map_set_append.
        -- cbn. rewrite Hc. by rewrite map_set_append.
Qed.

(** ** What a group of accesses leaves in the cache

    While only keys of [K0] are used, the ones used so far are the newest. *)
Definition held (K0 T : list K) (l : list (K * V)) : Prop :=
  exists old new, l = old ++ new /\ new.*1 ⊆ K0 /\ T ⊆ new.*1.

Lemma held_touch K0 T l k v : k ∈ K0 -> held K0 T l -> held K0 (k :: T) (touch k v l).
Proof.
  intros Hk (old & new & -> & Hn & HT). exists (map_delete k old), (touch k v new).
  split; [unfold touch; rewrite map_delete_app; by rewrite app_assoc|].
  assert (Hkeys : forall x, x ∈ (touch k v new).*1 <-> x = k \/ x ∈ new.*1).
  { intros x. unfold touch. rewrite fmap_app, elem_of_app, elem_of_map_keys_delete. cbn. rewrite list_elem_of_singleton.
    destruct (decide (x = k)); naive_solver. }
  split; intros x; [rewrite Hkeys; intros [->|?]; [done|by apply Hn]|]. rewrite Hkeys, elem_of_cons. intros [->|Hx]; [by left|right; by apply HT].
Qed.

Lemma held_recent n K0 T l : NoDup l.*1 -> length K0 <= n -> held K0 T l -> T ⊆ (recent n l).*1.
Proof.
  intros Hl Hlen (old & new & -> & Hn & HT). rewrite fmap_app in Hl. apply NoDup_app in Hl as (_ & _ & Hnew).
  pose proof (NoDup_submseteq _ _ Hnew Hn) as Hsub. apply submseteq_length in Hsub. rewrite length_fmap in Hsub.
  intros k Hk. apply HT in Hk. unfold recent. rewrite length_app. rewrite drop_app_le by lia. rewrite fmap_app. apply elem_of_app. by right.
Qed.

(** A cache of size [n] in which the keys [T] of [K0] are the newest. *)
Definition fresh_in (n : nat) (K0 T : list K) (c : LRUCache) : Prop := exists l, cache_ok n l c /\ held K0 T l.

Lemma fresh_start n K0 c : (exists l, cache_ok n l c) -> fresh_in n K0 [] c.
Proof. intros [l Hl]. exists l. split; [done|]. exists l, []. rewrite app_nil_r. split; [done|]. split; intros x Hx; by apply elem_of_nil in Hx. Qed.

Lemma fresh_get n K0 T c k : 0 < n -> k ∈ K0 -> fresh_in n K0 T c ->
  match lru_get k c with
  | (Ok (Some _), c') => fresh_in n K0 (k :: T) c'
  | (Ok None, c') => fresh_in n K0 T c' /\ c' = c
  | _ => False
  end.
Proof.
  intros Hn Hk (l & Hok & Hh). pose proof (access_refines n l c (Get k) Hn Hok) as Hr. cbn [run_access use] in Hr. destruct Hok as [H1 H2 H3].
  destruct (map_get k (recent n l)) as [v|] eqn:E.
  - assert (Er : (lru_get k c).1 = Ok (Some v)) by (unfold lru_get; rewrite (bind_ok _ _ c c c) by done; by rewrite H3, E).
    destruct (lru_get k c) as [r c']. cbn in Er, Hr. subst r. eexists. split; [done|]. by apply held_touch.
  - unfold lru_get. rewrite (bind_ok _ _ c c c) by done. rewrite H3, E. split; [|done]. by exists l.
Qed.

Lemma fresh_set n K0 T c k v : 0 < n -> k ∈ K0 -> fresh_in n K0 T c -> fresh_in n K0 (k :: T) (lru_set k v c).2.
Proof.
  intros Hn Hk (l & Hok & Hh). exists (touch k v l). split; [apply (access_refines n l c (Set_ k v) Hn Hok)|by apply held_touch].
Qed.

Lemma fresh_has n K0 T c k : length K0 <= n -> k ∈ T -> fresh_in n K0 T c -> is_Some (map_get k (_map c)).
Proof.
  intros Hlen Hk (l & [H1 H2 H3] & Hh). rewrite H3. apply map_get_is_Some. by apply (held_recent n K0 T l).
Qed.

(** Every operation keeps the entries sound. *)
Lemma lru_get_sound (P : K -> V -> Prop) k c : (forall x v, (x, v) ∈ _map c -> P x v) ->
  (forall x v, (x, v) ∈ _map (lru_get k c).2 -> P x v) /\ (forall v, (lru_get k c).1 = Ok (Some v) -> P k v).
Proof.
  intros H. unfold lru_get. rewrite (bind_ok _ _ c c c) by done. destruct (map_get k (_map c)) as [v|] eqn:E; [|split; [done|by intros v [=]]].
  pose proof (map_get_elem_of k v (_map c) E) as Hin. rewrite !bind_modify. cbn. split; [|intros w [= <-]; by apply H].
  rewrite map_set_append by apply notin_delete. intros x w [Hx|Hx]%elem_of_app; [|apply list_elem_of_singleton in Hx; injection Hx as -> ->; by apply H].
  apply H. revert Hx. clear. induction (_map c) as [|[k' v'] l IH]; [done|]. cbn. case_decide; [intros ?; right; auto|]. rewrite !elem_of_cons. naive_solver.
Qed.

Lemma lru_set_sound (P : K -> V -> Prop) k v c : (forall x w, (x, w) ∈ _map c -> P x w) -> P k v ->
  forall x w, (x, w) ∈ _map (lru_set k v c).2 -> P x w.
Proof.
  intros H Hp. assert (Hd : forall k' l, (forall x w, (x, w) ∈ l -> P x w) -> forall x w, (x, w) ∈ map_delete k' l -> P x w).
  { intros k' l Hl x w Hx. apply Hl. revert Hx. clear. induction l as [|[k0 v0] l IH]; [done|]. cbn. case_decide; [intros ?; right; auto|]. rewrite !elem_of_cons. naive_solver. }
  assert (Hs : forall l, (forall x w, (x, w) ∈ l -> P x w) -> forall x w, (x, w) ∈ map_set k v l -> P x w).
  { intros l. induction l as [|[k0 v0] l IH]; intros Hl x w; cbn.
    - intros [= -> ->]%list_elem_of_singleton. done.
    - case_decide; intros [[= -> ->]|Hx]%elem_of_cons; [done|apply Hl; by right|apply Hl; by left|apply (IH (fun x w Hx => Hl x w ltac:(by right)) _ _ Hx)]. }
  unfold lru_set. rewrite (bind_ok _ _ c c c) by done. destruct (map_has k (_map c)); [|destruct (_maxSize c <=? length (_map c))].
  all: rewrite ?bind_modify; cbn; apply Hs; try done.
  1: by apply Hd.
  destruct (_map c) as [|[fk fv] l] eqn:E; [by intros ? ? ?%elem_of_nil|]. rewrite <- E. apply Hd. by rewrite E.
Qed.

Lemma lru_set_ok k v c : (lru_set k v c).1 = Ok tt.
Proof. unfold lru_set. rewrite (bind_ok _ _ c c c) by done. destruct (map_has k (_map c)); [done|]. by destruct (_maxSize c <=? length (_map c)). Qed.

(** The cache is an LRU cache: after any sequence of accesses it holds, in order of
    last use, exactly the most recently used of all entries ever stored, at most as many
    as its size, each with the value stored last. *)
Theorem lru_refines (maxSize : num) (c : LRUCache) (accesses : list access) : newLRUCache maxSize = Ok c ->
  let c' := foldl (fun c a => run_access a c) c accesses in
  let n := _maxSize c in
  1 <= n /\ lru_size c' <= n /\ NoDup (_map c').*1 /\ _map c' = recent n (foldl (use n) [] accesses).
Proof.
  intros H c' n. assert (Hn : 1 <= n /\ _map c = []).
  { unfold n. revert H. unfold newLRUCache. destruct maxSize as [q| | |]; try done. destruct (num_lt (Fin q) 1%Z) eqn:E; [done|].
    intros [= <-]. split; [|done]. cbn. cbn in E. apply negb_false_iff, Qle_bool_iff in E. apply Qfloor_resp_le in E.
    change (Qfloor (inject_Z 1)) with 1%Z in E. lia. }
  destruct Hn as [Hn Hempty].
  assert (Hok : cache_ok n (foldl (use n) [] accesses) c').
  { assert (H0 : cache_ok n [] c) by (split; [constructor|done|done]). unfold c'. clearbody n. clear H Hempty c'. revert c H0.
    generalize (@nil (K * V)). induction accesses as [|a accesses IH]; intros l c H0; [done|]. cbn. apply IH. by apply access_refines. }
  destruct Hok as [H1 H2 H3]. split_and!; [done| |rewrite H3; by apply recent_nodup|done].
  unfold lru_size. rewrite H3. destruct (recent_split n (foldl (use n) [] accesses)) as (_ & _ & ->). lia.
Qed.

End Cache.

Lemma lru_refines_witness :
  let c := mk_cache [] 2 in
  let c' := foldl (fun c a => run_access a c) c [Set_ 1 10; Set_ 2 20; Get 1; Set_ 3 30] in
  1 <= 2 /\ lru_size c' <= 2 /\ NoDup (_map c').*1 /\
  _map c' = recent 2 (foldl (use 2) [] [Set_ 1 10; Set_ 2 20; Get 1; Set_ 3 30]).
Proof. apply (lru_refines 2%Z (mk_cache [] 2)). reflexivity. Defined.

Example lru_keeps_used : _map (foldl (fun c a => run_access a c) (mk_cache [] 2) [Set_ 1 10; Set_ 2 20; Get 1; Set_ 3 30]) = [(1, 10); (3, 30)].
Proof. reflexivity. Qed.

End Lru.
