(* ===== verification/Keychain.v ===== *)
(** * Keychains of the CRDT adapters

    Models [YjsKeychain] of [collabswarm-yjs/src/collabswarm-yjs.ts] and
    [AutomergeKeychain] of [collabswarm-automerge/src/collabswarm-automerge.ts]. Both keep
    the serialized keys in a list that is replicated by the CRDT library and a cache of
    imported keys; where they differ there are two definitions. The CRDT libraries and
    WebCrypto are classes. *)
From stdpp Require Import base numbers list list_numbers strings sets.
From Stdlib Require Import ZArith Lia Permutation.
From S2P Require Import Prelude TipsHash Wire Lru.

Open Scope string_scope.
Open Scope list_scope.
Open Scope nat_scope.

Module Keychain.
Import Lru Wire.

(** ** Key IDs as text *)

Definition toHex (b : bytes) : string := String.concat "" (TipsHash.byte_hex <$> b).

Definition keyIdToCacheKey (keyIDBytes : bytes) : string := toHex keyIDBytes.

(** The value of a character that [/[0-9a-fA-F]/] matches. *)
Definition hex_value (c : Ascii.ascii) : option Z :=
  let n := Z.of_N (Ascii.N_of_ascii c) in
  if (48 <=? n)%Z && (n <=? 57)%Z then Some (n - 48)%Z
  else if (65 <=? n)%Z && (n <=? 70)%Z then Some (n - 55)%Z
  else if (97 <=? n)%Z && (n <=? 102)%Z then Some (n - 87)%Z
  else None.

Definition is_hex (s : string) : bool := forallb (fun c => bool_decide (is_Some (hex_value c))) (String.list_ascii_of_string s).

(** The loop over the pairs of digits. *)
Fixpoint parse_pairs (s : string) : bytes :=
  match s with
  | String.String a (String.String b s') => byte_of_Z (16 * default 0%Z (hex_value a) + default 0%Z (hex_value b)) :: parse_pairs s'
  | _ => []
  end.

Definition cacheKeyToKeyId (cacheKey : string) : result bytes :=
  if bool_decide (cacheKey = "") || negb (is_hex cacheKey) || Nat.odd (String.length cacheKey)
  then throw "Invalid cache key format" else Ok (parse_pairs cacheKey).

(** ** The libraries *)

(** The document of a keychain: a replicated list of pairs of a key ID and a serialized key.
    [kd_new] takes the number of the draw of its client ID; [kd_diff] is the change between
    two versions of one document, [kd_all] the change from the empty one. *)
Class KeyDoc (Doc Update : Type) := {
  kd_new : nat -> Doc;
  kd_keys : Doc -> list (string * string);
  kd_push : Doc -> string * string -> Doc;
  kd_diff : Doc -> Doc -> Update;
  kd_all : Doc -> Update;
  kd_apply : Doc -> Update -> result Doc;
}.

(** [kd_in_step d d']: both have seen the same operations. *)
Class KeyDocLaws (Doc Update : Type) `{!KeyDoc Doc Update} := {
  kd_in_step : Doc -> Doc -> Prop;
  kd_new_keys n : kd_keys (kd_new n) = [];
  kd_push_keys d e : kd_keys (kd_push d e) = kd_keys d ++ [e];
  kd_same_keys d d' : kd_in_step d d' -> kd_keys d' = kd_keys d;
  kd_apply_all n d : exists d', kd_apply (kd_new n) (kd_all d) = Ok d' /\ kd_in_step d d';
  kd_apply_diff d d' e : kd_in_step d d' ->
    exists d'', kd_apply d' (kd_diff d (kd_push d e)) = Ok d'' /\ kd_in_step (kd_push d e) d'';
}.

(** The calls of WebCrypto; generation and random bytes take the number of the draw. *)
Class KeyCrypto (Key : Type) := {
  exportKey : Key -> result bytes;
  importKey : bytes -> result Key;
  generateKey : nat -> Key;
  randomId : nat -> bytes;
}.

Class KeyCryptoLaws (Key : Type) `{!KeyCrypto Key} := {
  import_export k b : exportKey k = Ok b -> importKey b = Ok k;
  export_generated n : exists b, exportKey (generateKey n) = Ok b;
  random_length n : length (randomId n) = 32;
}.

Section Keychain.
  Context {Doc Update Key : Type} `{B64 : !Base64, KD : !KeyDoc Doc Update, KC : !KeyCrypto Key}.

Definition serializeKey (key : Key) : result string :=
  let? raw := exportKey key in Ok (fromUint8Array raw).

Definition deserializeKey (text : string) : result Key :=
  let? raw := or_throw "base64" (toUint8Array text) in importKey raw.

(** ** State *)

Record keychain := mk_keychain {
  _keyCache : @LRUCache string Key;
  _keychain : Doc;
}.

#[export] Instance settable_keychain : Settable keychain := fun s => mk_keychain (_keyCache s) (_keychain s).

Definition keyIDLength : nat := 32.

Definition cache_size : nat := 1000.

(** [initialize()], with the number of the draw for the document. *)
Definition new_keychain (n : nat) : keychain := mk_keychain (mk_cache [] cache_size) (kd_new n).

Definition on_cache {A} (m : eff (@LRUCache string Key) A) : eff keychain A :=
  fun s => let (r, c) := m (_keyCache s) in (r, s <| _keyCache := c |>).

Definition cacheGet (id : string) : eff keychain (option Key) := on_cache (lru_get id).
Definition cacheSet (id : string) (key : Key) : eff keychain unit := on_cache (lru_set id key).

(** Append an entry and return the change. *)
Definition push_key (id serialized : string) : eff keychain Update :=
  let! s := get in
  let before := _keychain s in
  let after := kd_push before (id, serialized) in
  let! _ := modify (fun s => s <| _keychain := after |>) in
  ret (kd_diff before after).

(** ** Adding *)

Definition yjs_add (n : nat) : eff keychain (bytes * Key * Update) :=
  let keyIDBytes := randomId n in
  let keyIDHex := toHex keyIDBytes in
  let key := generateKey n in
  let! _ := cacheSet keyIDHex key in
  let! serialized := lift (serializeKey key) in
  let! keychainChanges := push_key keyIDHex serialized in
  ret (keyIDBytes, key, keychainChanges).

(** The key is cached after it was exported. *)
Definition automerge_add (n : nat) : eff keychain (bytes * Key * Update) :=
  let keyIDBytes := randomId n in
  let keyIDHex := toHex keyIDBytes in
  let key := generateKey n in
  let! serialized := lift (serializeKey key) in
  let! _ := cacheSet keyIDHex key in
  let! keychainChanges := push_key keyIDHex serialized in
  ret (keyIDBytes, key, keychainChanges).

Definition addEpochKey (epochId : bytes) (key : Key) : eff keychain Update :=
  let epochIdHex := toHex epochId in
  let! _ := cacheSet epochIdHex key in
  let! serialized := lift (serializeKey key) in
  push_key epochIdHex serialized.

(** ** Replication *)

Definition history (s : keychain) : Update := kd_all (_keychain s).

Definition keychain_merge (change : Update) : eff keychain unit :=
  let! s := get in
  let! d := lift (kd_apply (_keychain s) change) in
  modify (fun s => s <| _keychain := d |>).

(** Copy entries into a new document. *)
Definition copy_keys (n : nat) (entries : list (string * string)) : Update := kd_all (foldl kd_push (kd_new n) entries).

Definition currentKeyChange (n : nat) (s : keychain) : result Update :=
  match List.rev (kd_keys (_keychain s)) with
  | [] => throw "Can't get current key change from an empty keychain"
  | e :: _ => Ok (copy_keys n [e])
  end.

(** The index of the first entry under the ID. *)
Fixpoint find_start (cacheKey : string) (entries : list (string * string)) : option nat :=
  match entries with
  | [] => None
  | e :: entries' => if decide (e.1 = cacheKey) then Some 0 else S <$> find_start cacheKey entries'
  end.

Definition historySince (n : nat) (keyID : bytes) (s : keychain) : result Update :=
  match kd_keys (_keychain s) with
  | [] => throw "Can't get history-since from an empty keychain"
  | entries =>
      match find_start (keyIdToCacheKey keyID) entries with
      | None => Ok (kd_all (_keychain s))
      | Some startIdx => Ok (copy_keys n (drop startIdx entries))
      end
  end.

(** ** Reading keys *)

(** What the call for one entry of [keys] is doing when it first waits. *)
Inductive call := Cached (key : Key) | Importing (keyID serialized : string).

Definition start_key (e : string * string) : eff keychain call :=
  let! hit := cacheGet e.1 in
  ret (match hit with Some key => Cached key | None => Importing e.1 e.2 end).

(** The loop of Yjs: an ID that is not hexadecimal stops it, and the calls already started
    go on. *)
Fixpoint start_keys (entries : list (string * string)) : eff keychain (list (bytes * call) * option exn) :=
  match entries with
  | [] => ret ([], None)
  | e :: entries' =>
      match cacheKeyToKeyId e.1 with
      | Err x => ret ([], Some x)
      | Ok id =>
          let! c := start_key e in
          let! rest := start_keys entries' in
          ret ((id, c) :: rest.1, rest.2)
      end
  end.

(** In Automerge every entry has its call, and the one with a bad ID fails by itself. *)
Fixpoint start_calls (entries : list (string * string)) : eff keychain (list (result (bytes * call))) :=
  match entries with
  | [] => ret []
  | e :: entries' =>
      let! c := match cacheKeyToKeyId e.1 with
                | Err x => ret (Err x)
                | Ok id => let! c := start_key e in ret (Ok (id, c))
                end in
      let! rest := start_calls entries' in
      ret (c :: rest)
  end.

(** An import that has finished. *)
Definition settle (_ : unit) (p : string * string) : eff keychain unit :=
  match deserializeKey p.2 with Ok key => cacheSet p.1 key | Err _ => ret tt end.

Definition pending (calls : list call) : list (string * string) :=
  omap (fun c : call => match c with Importing id s => Some (id, s) | Cached _ => None end) calls.

Definition call_key (c : call) : result Key := match c with Cached key => Ok key | Importing _ s => deserializeKey s end.

Definition call_result (p : bytes * call) : result (bytes * Key) := let? key := call_key p.2 in Ok (p.1, key).

(** [order] is the order in which the imports finish. *)
Definition yjs_keys (order : list (string * string) -> list (string * string)) : eff keychain (list (bytes * Key)) :=
  let! s := get in
  let! calls := start_keys (kd_keys (_keychain s)) in
  let! _ := for_each settle tt (order (pending calls.1.*2)) in
  match calls.2 with
  | Some x => raise x
  | None => lift (map_throwing call_result calls.1)
  end.

Definition automerge_keys (order : list (string * string) -> list (string * string)) : eff keychain (list (bytes * Key)) :=
  let! s := get in
  let! calls := start_calls (kd_keys (_keychain s)) in
  let started := omap (fun r : result (bytes * call) => match r with Ok p => Some p | Err _ => None end) calls in
  let! _ := for_each settle tt (order (pending started.*2)) in
  lift (map_throwing (fun r : result (bytes * call) => let? p := r in call_result p) calls).

Definition current : eff keychain (bytes * Key) :=
  let! s := get in
  match List.rev (kd_keys (_keychain s)) with
  | [] => raise (Throw "Can't get an empty keychain's current value")
  | (keyID, serialized) :: _ =>
      let! keyIDBytes := lift (cacheKeyToKeyId keyID) in
      let! cached := cacheGet keyID in
      match cached with
      | Some key => ret (keyIDBytes, key)
      | None =>
          let! key := lift (deserializeKey serialized) in
          let! _ := cacheSet keyID key in
          ret (keyIDBytes, key)
      end
  end.

(** A lookup in the cache, and nothing else. *)
Definition getKey (keyIDBytes : bytes) : eff keychain (option Key) := cacheGet (keyIdToCacheKey keyIDBytes).

(** ** The two classes *)

Record KeychainClass := Methods {
  m_add : nat -> eff keychain (bytes * Key * Update);
  m_addEpochKey : bytes -> Key -> eff keychain Update;
  m_history : keychain -> Update;
  m_merge : Update -> eff keychain unit;
  m_keys : (list (string * string) -> list (string * string)) -> eff keychain (list (bytes * Key));
  m_current : eff keychain (bytes * Key);
  m_currentKeyChange : nat -> keychain -> result Update;
  m_historySince : nat -> bytes -> keychain -> result Update;
  m_getKey : bytes -> eff keychain (option Key);
}.

Definition YjsKeychain : KeychainClass :=
  Methods yjs_add addEpochKey history keychain_merge yjs_keys current currentKeyChange historySince getKey.

(** Every document starts with an empty list of keys, so the list is always there. *)
Definition AutomergeKeychain : KeychainClass :=
  Methods automerge_add addEpochKey history keychain_merge automerge_keys current currentKeyChange historySince getKey.

End Keychain.
End Keychain.
