(* ===== verification/KeychainTheory.v ===== *)
(** * Theorems on keychains

    Key IDs survive their text form; what a keychain hands out was stored in it; what
    another member can read from a shared part of it; and which keys a member finds after
    a merge. *)
From stdpp Require Import base numbers list list_numbers strings sets.
From Stdlib Require Import ZArith Lia Permutation.
From S2P Require Import Prelude TipsHash Wire Lru Keychain.

Open Scope string_scope.
Open Scope list_scope.
Open Scope nat_scope.

Module KeychainTheory.
Import Lru Wire Keychain.

(** ** Key IDs *)

Definition digits_of (b : byte) : bool :=
  match TipsHash.byte_hex b with
  | String.String x (String.String y String.EmptyString) =>
      match hex_value x, hex_value y with Some u, Some v => bool_decide (byte_of_Z (16 * u + v) = b) | _, _ => false end
  | _ => false
  end.

Lemma digits_of_all b : digits_of b = true.
Proof. destruct b; vm_compute; reflexivity. Qed.

Lemma byte_hex_digits b : exists x y, TipsHash.byte_hex b = String.String x (String.String y "") /\
  is_Some (hex_value x) /\ is_Some (hex_value y) /\ byte_of_Z (16 * default 0%Z (hex_value x) + default 0%Z (hex_value y)) = b.
Proof.
  pose proof (digits_of_all b) as H. unfold digits_of in H. destruct (TipsHash.byte_hex b) as [|x [|y [|]]]; try done.
  exists x, y. destruct (hex_value x), (hex_value y); try done. apply bool_decide_eq_true in H. by eauto.
Qed.

Lemma toHex_cons b l : toHex (b :: l) = String.append (TipsHash.byte_hex b) (toHex l).
Proof. unfold toHex. destruct l; cbn; [|done]. by rewrite TipsHash.append_nil_r. Qed.

Lemma parse_toHex l : parse_pairs (toHex l) = l /\ is_hex (toHex l) = true /\ Nat.odd (String.length (toHex l)) = false.
Proof.
  induction l as [|b l (IH1 & IH2 & IH3)]; [done|]. rewrite toHex_cons. destruct (byte_hex_digits b) as (x & y & -> & Hx & Hy & Hb).
  change (String.append _ (toHex l)) with (String.String x (String.String y (toHex l))).
  unfold is_hex in *. cbn [parse_pairs String.length String.list_ascii_of_string forallb]. rewrite Hb, IH1, IH2, !bool_decide_true by done. done.
Qed.

Lemma toHex_nonempty l : l <> [] -> toHex l <> "".
Proof. destruct l as [|b l]; [done|]. rewrite toHex_cons. by destruct (byte_hex_digits b) as (x & y & -> & _). Qed.

Lemma cacheKey_toHex l : l <> [] -> cacheKeyToKeyId (toHex l) = Ok l.
Proof.
  intros Hl. unfold cacheKeyToKeyId. destruct (parse_toHex l) as (H1 & H2 & H3).
  rewrite bool_decide_false by (by apply toHex_nonempty). by rewrite H1, H2, H3.
Qed.

#[export] Instance toHex_inj : Inj (=) (=) toHex.
Proof. intros a b E. destruct (parse_toHex a) as [Ha _], (parse_toHex b) as [Hb _]. congruence. Qed.

Section Theory.
  Context {Doc Update Key : Type} `{B64 : !Base64, KD : !KeyDoc Doc Update, KC : !KeyCrypto Key}.

Abbreviation keychain := (@keychain Doc Key).

(** ** What the cache holds *)

(** The cache is one that [LRUCache] can reach. *)
Definition keychain_ok (s : keychain) : Prop := exists l, cache_ok cache_size l (_keyCache s).

Lemma new_keychain_ok n : keychain_ok (new_keychain n).
Proof. exists []. split; [constructor|done|done]. Qed.

(** Every cached key satisfies [P]. *)
Definition cached_ok (P : string -> Key -> Prop) (s : keychain) : Prop := forall id k, (id, k) ∈ _map (_keyCache s) -> P id k.

(** Every importable key of the list satisfies [P]. *)
Definition listed_ok (P : string -> Key -> Prop) (entries : list (string * string)) : Prop :=
  forall id t k, (id, t) ∈ entries -> deserializeKey t = Ok k -> P id k.

Section Caching.
  Context (P : string -> Key -> Prop).

(** Only keys that satisfy [P] are cached. *)
Definition caches (s s' : keychain) : Prop := cached_ok P s -> cached_ok P s'.

#[local] Instance caches_preorder : PreOrder caches.
Proof. split; unfold Reflexive, Transitive, caches; auto. Qed.

Lemma steps_cacheGet id : steps caches (cacheGet id).
Proof.
  intros s Hs. unfold cacheGet, on_cache. destruct (lru_get_sound P id (_keyCache s) Hs) as [H _]. by destruct (lru_get id (_keyCache s)) as [r c].
Qed.

Lemma steps_cacheSet id k : P id k -> steps caches (cacheSet id k).
Proof.
  intros Hp s Hs. unfold cacheSet, on_cache. pose proof (lru_set_sound P id k (_keyCache s) Hs Hp) as H. by destruct (lru_set id k (_keyCache s)) as [r c].
Qed.

Lemma steps_push_key id t : steps caches (push_key id t).
Proof. intros s Hs. exact Hs. Qed.

#[local] Hint Resolve steps_cacheGet steps_push_key : steps.

Lemma steps_start_key e : steps caches (start_key e).
Proof. unfold start_key. steps_tac. Qed.

#[local] Hint Resolve steps_start_key : steps.

Lemma steps_start_keys entries : steps caches (start_keys entries).
Proof. induction entries as [|e entries IH]; cbn [start_keys]; steps_tac. Qed.

Lemma steps_start_calls entries : steps caches (start_calls entries).
Proof. induction entries as [|e entries IH]; cbn [start_calls]; steps_tac. Qed.

Lemma steps_settle l : listed_ok P l -> steps caches (for_each settle tt l).
Proof.
  induction l as [|p l IH]; intros H; cbn [for_each]; [steps_tac|]. apply steps_bind; [apply _| |].
  - unfold settle. destruct (deserializeKey p.2) as [k|] eqn:E; [|steps_tac]. apply steps_cacheSet. apply (H p.1 p.2); [destruct p; left|done].
  - intros []. apply IH. intros id t k Hin. apply H. by right.
Qed.

End Caching.

(** The calls that [keys] starts. *)
Lemma start_key_run e (s : keychain) : exists c s1, start_key e s = (Ok c, s1) /\ (forall id t, c = Importing id t -> (id, t) = e).
Proof.
  unfold start_key, cacheGet, on_cache, bind, lru_get, get, ret, modify, bind. cbn. destruct (map_get e.1 (_map (_keyCache s))); do 2 eexists; (split; [done|]); [done|].
  intros id t [= <- <-]. by destruct e.
Qed.

Lemma start_keys_run entries (s : keychain) : exists calls stop s1, start_keys entries s = (Ok (calls, stop), s1) /\ pending calls.*2 ⊆ entries.
Proof.
  revert s. induction entries as [|e entries IH]; intros s; cbn [start_keys]; [do 3 eexists; split; [done|]; apply list_subseteq_nil|].
  destruct (cacheKeyToKeyId e.1) as [id|x]; [|do 3 eexists; split; [done|]; apply list_subseteq_nil].
  destruct (start_key_run e s) as (c & s1 & E1 & Hc). destruct (IH s1) as (calls & stop & s2 & E2 & Hp). rewrite (bind_ok _ _ _ _ _ E1), (bind_ok _ _ _ _ _ E2).
  do 3 eexists. split; [done|]. cbn. destruct c as [k|i t]; cbn; [intros q Hq; right; by apply Hp|].
  rewrite (Hc i t) by done. intros q [->|Hq]%elem_of_cons; [left|right; by apply Hp].
Qed.

Lemma start_calls_run entries (s : keychain) : exists calls s1, start_calls entries s = (Ok calls, s1) /\
  pending (omap (fun r : result (bytes * call) => match r with Ok p => Some p | Err _ => None end) calls).*2 ⊆ entries.
Proof.
  revert s. induction entries as [|e entries IH]; intros s; cbn [start_calls]; [do 2 eexists; split; [done|]; apply list_subseteq_nil|].
  destruct (cacheKeyToKeyId e.1) as [id|x].
  - destruct (start_key_run e s) as (c & s1 & E1 & Hc). destruct (IH s1) as (calls & s2 & E2 & Hp).
    rewrite (bind_ok _ _ s (Ok (id, c)) s1) by (by rewrite (bind_ok _ _ _ _ _ E1)). rewrite (bind_ok _ _ _ _ _ E2). do 2 eexists. split; [done|].
    cbn. destruct c as [k|i t]; cbn; [intros q Hq; right; by apply Hp|]. rewrite (Hc i t) by done. intros q [->|Hq]%elem_of_cons; [left|right; by apply Hp].
  - destruct (IH s) as (calls & s2 & E2 & Hp). rewrite (bind_ok _ _ s (Err x) s) by done. rewrite (bind_ok _ _ _ _ _ E2). do 2 eexists. split; [done|]. intros q Hq; right; by apply Hp.
Qed.

Lemma find_start_app id t before after : id ∉ before.*1 -> find_start id (before ++ (id, t) :: after) = Some (length before).
Proof.
  induction before as [|e before IH]; cbn; [by rewrite decide_True|]. rewrite not_elem_of_cons. intros [H1 H2]. rewrite decide_False by done. by rewrite IH.
Qed.

Lemma find_start_none id entries : id ∉ entries.*1 -> find_start id entries = None.
Proof. induction entries as [|e entries IH]; cbn; [done|]. rewrite not_elem_of_cons. intros [H1 H2]. rewrite decide_False by done. by rewrite IH. Qed.

(** ** What a keychain hands out *)

Inductive op :=
| YjsAdd (n : nat) | AutomergeAdd (n : nat) | AddEpochKey (epochId : bytes) (key : Key) | Merge (change : Update)
| YjsKeys (order : list (string * string) -> list (string * string))
| AutomergeKeys (order : list (string * string) -> list (string * string))
| Current | GetKey (id : bytes).

Definition exec (s : keychain) (o : op) : keychain :=
  match o with
  | YjsAdd n => (yjs_add n s).2
  | AutomergeAdd n => (automerge_add n s).2
  | AddEpochKey e k => (addEpochKey e k s).2
  | Merge u => (keychain_merge u s).2
  | YjsKeys order => (yjs_keys order s).2
  | AutomergeKeys order => (automerge_keys order s).2
  | Current => (current s).2
  | GetKey id => (getKey id s).2
  end.

Definition run (ops : list op) (s : keychain) : keychain := foldl exec s ops.

(** Imports finish in some order. *)
Definition fair (o : op) : Prop :=
  match o with YjsKeys order | AutomergeKeys order => forall l, order l ≡ₚ l | _ => True end.

(** The key was in the list under this ID at some time, or was added under it. *)
Inductive stored (ops : list op) (s0 : keychain) (id : string) (k : Key) : Prop :=
| stored_listed before after t : ops = before ++ after -> (id, t) ∈ kd_keys (_keychain (run before s0)) -> deserializeKey t = Ok k -> stored ops s0 id k
| stored_epoch e : AddEpochKey e k ∈ ops -> id = toHex e -> stored ops s0 id k
| stored_added n : YjsAdd n ∈ ops \/ AutomergeAdd n ∈ ops -> id = toHex (randomId n) -> k = generateKey n -> stored ops s0 id k.

Lemma stored_mono ops ops' s0 id k : stored ops s0 id k -> stored (ops ++ ops') s0 id k.
Proof.
  intros [before after t -> H1 H2|e H1 H2|n H1 H2 H3].
  - eapply (stored_listed _ _ _ _ before (after ++ ops')); [by rewrite app_assoc|done..].
  - eapply stored_epoch; [|done]. apply elem_of_app. by left.
  - eapply stored_added; [|done..]. rewrite !elem_of_app. tauto.
Qed.

(** What the operation itself stores. *)
Definition adds_ok (P : string -> Key -> Prop) (o : op) : Prop :=
  match o with
  | YjsAdd n | AutomergeAdd n => P (toHex (randomId n)) (generateKey n)
  | AddEpochKey e k => P (toHex e) k
  | _ => True
  end.

Lemma listed_sub P l l' : l' ⊆ l -> listed_ok P l -> listed_ok P l'.
Proof. intros Hsub H id t k Hin. by apply H, Hsub. Qed.

Lemma steps_keys P order (s : keychain) : (forall l, order l ≡ₚ l) -> listed_ok P (kd_keys (_keychain s)) -> cached_ok P s ->
  cached_ok P (yjs_keys order s).2 /\ cached_ok P (automerge_keys order s).2.
Proof.
  intros Hp Hl Hs. split.
  - unfold yjs_keys. rewrite (bind_ok _ _ s s s) by done. destruct (start_keys_run (kd_keys (_keychain s)) s) as (calls & stop & s1 & E & Hsub).
    rewrite (bind_ok _ _ _ _ _ E). pose proof (steps_start_keys P (kd_keys (_keychain s)) s Hs) as H1. rewrite E in H1. revert s1 H1 E. intros s1 H1 _. revert s1 H1.
    change (steps (caches P) (let! _ := for_each settle tt (order (pending calls.*2)) in match stop with Some x => raise x | None => lift (map_throwing call_result calls) end)).
    apply steps_bind; [apply caches_preorder|apply steps_settle, (listed_sub _ (kd_keys (_keychain s))); [|done]|intros _; destruct stop; intros s2 H2; exact H2].
    intros e He. rewrite Hp in He. by apply Hsub.
  - unfold automerge_keys. rewrite (bind_ok _ _ s s s) by done. destruct (start_calls_run (kd_keys (_keychain s)) s) as (calls & s1 & E & Hsub).
    rewrite (bind_ok _ _ _ _ _ E). pose proof (steps_start_calls P (kd_keys (_keychain s)) s Hs) as H1. rewrite E in H1. revert s1 H1 E. intros s1 H1 _. revert s1 H1. cbv zeta.
    match goal with |- forall s1, _ -> cached_ok P (?m s1).2 => change (steps (caches P) m) end.
    apply steps_bind; [apply caches_preorder|apply steps_settle, (listed_sub _ (kd_keys (_keychain s))); [|done]|intros _ s2 H2; exact H2].
    intros e He. rewrite Hp in He. by apply Hsub.
Qed.

Lemma rev_head {A} (l : list A) x r : List.rev l = x :: r -> l = List.rev r ++ [x].
Proof. intros E. rewrite <- (rev_involutive l), E. done. Qed.

Lemma cacheSet_run id k (s : keychain) : cacheSet id k s = (Ok tt, s <| _keyCache := (lru_set id k (_keyCache s)).2 |>).
Proof. unfold cacheSet, on_cache. pose proof (lru_set_ok id k (_keyCache s)) as H. destruct (lru_set id k (_keyCache s)) as [r c]. cbn in H. by subst r. Qed.

Lemma steps_current P (s : keychain) : listed_ok P (kd_keys (_keychain s)) -> cached_ok P s -> cached_ok P (current s).2.
Proof.
  intros Hl Hs. unfold current. rewrite (bind_ok _ _ s s s) by done. destruct (List.rev _) as [|[id t] r] eqn:E; [done|]. apply rev_head in E.
  assert (Hin : (id, t) ∈ kd_keys (_keychain s)) by (rewrite E, elem_of_app; right; left).
  destruct (cacheKeyToKeyId id) as [b|]; [|done]. rewrite (bind_ok _ _ s b s) by done. pose proof (steps_cacheGet P id s Hs) as H1.
  unfold bind at 1. destruct (cacheGet id s) as [[[k|]|e] s1]; [done| |done]. destruct (deserializeKey t) as [k|] eqn:Ek; [|done].
  rewrite (bind_ok _ _ s1 k s1) by done. rewrite (bind_ok _ _ _ _ _ (cacheSet_run id k s1)).
  pose proof (steps_cacheSet P id k (Hl _ _ _ Hin Ek) s1 H1) as H2. by rewrite cacheSet_run in H2.
Qed.

Lemma exec_cached P s o : fair o -> listed_ok P (kd_keys (_keychain s)) -> adds_ok P o -> cached_ok P s -> cached_ok P (exec s o).
Proof.
  intros Hf Hl Ha Hs. pose proof (caches_preorder P) as Hpre. assert (Hset := steps_cacheSet P). assert (Hpush := steps_push_key P).
  destruct o as [n|n|e k|u|order|order| |id]; cbn [exec adds_ok fair] in *.
  - clear Hl. revert s Hs. change (steps (caches P) (yjs_add n)). unfold yjs_add. steps_tac.
  - clear Hl. revert s Hs. change (steps (caches P) (automerge_add n)). unfold automerge_add. steps_tac.
  - clear Hl. revert s Hs. change (steps (caches P) (addEpochKey e k)). unfold addEpochKey. steps_tac.
  - unfold keychain_merge. rewrite (bind_ok _ _ s s s) by done. by destruct (kd_apply (_keychain s) u).
  - by apply steps_keys.
  - by apply steps_keys.
  - by apply steps_current.
  - by apply steps_cacheGet.
Qed.

Lemma run_cached n ops : Forall fair ops -> cached_ok (stored ops (new_keychain n)) (run ops (new_keychain n)).
Proof.
  induction ops as [|o ops IH] using rev_ind; intros Hf; [by intros id k ?%elem_of_nil|].
  apply Forall_app in Hf as [Hf Ho]. rewrite Forall_singleton in Ho. unfold run. rewrite foldl_app. cbn.
  apply exec_cached; [done| | |].
  - intros id t k Hin Hk. by eapply (stored_listed _ _ _ _ ops [o]).
  - destruct o; cbn; try done; [eapply stored_added|eapply stored_added|eapply stored_epoch]; try done; set_solver.
  - intros id k Hin. apply stored_mono. by apply IH.
Qed.

(** A keychain hands out only what was stored in it: whatever is added, merged and
    read, and in whatever order imports finish, a key found under an ID was added under
    that ID here or was in the replicated list under it. *)
Theorem getKey_sound n ops id k : Forall fair ops ->
  (getKey id (run ops (new_keychain n))).1 = Ok (Some k) -> stored ops (new_keychain n) (toHex id) k.
Proof.
  intros Hf. pose proof (run_cached n ops Hf) as H. unfold getKey, cacheGet, on_cache, keyIdToCacheKey.
  destruct (lru_get_sound (stored ops (new_keychain n)) (toHex id) _ H) as [_ Hg]. destruct (lru_get (toHex id) _) as [r c]. by apply Hg.
Qed.

(** ** Which keys are found *)

(** An entry as [add] and [addEpochKey] write them. *)
Definition entry_ok (e : string * string) : Prop := exists id k, id <> [] /\ e.1 = toHex id /\ deserializeKey e.2 = Ok k.

(** The cached key is the one of the list. *)
Definition consistent (entries : list (string * string)) (id : string) (k : Key) : Prop := forall t, (id, t) ∈ entries -> deserializeKey t = Ok k.

Lemma consistent_listed entries : NoDup entries.*1 -> listed_ok (consistent entries) entries.
Proof.
  intros Hnd id t k Hin Hk t' Hin'. assert (t' = t) as ->; [|done].
  apply elem_of_map_get in Hin, Hin'; [congruence|done..].
Qed.

Abbreviation fresh K0 T s := (fresh_in cache_size K0 T (_keyCache s)).

Lemma start_key_fresh e K0 T (s : keychain) : e.1 ∈ K0 -> fresh K0 T s ->
  exists c s1, start_key e s = (Ok c, s1) /\
    match c with Cached _ => fresh K0 (e.1 :: T) s1 | Importing id t => fresh K0 T s1 /\ (id, t) = e end.
Proof.
  intros H0 Hf. pose proof (fresh_get cache_size K0 T (_keyCache s) e.1 ltac:(unfold cache_size; lia) H0 Hf) as Hg.
  unfold start_key, cacheGet, on_cache, bind. destruct (lru_get e.1 (_keyCache s)) as [[[k|]|x] c]; [| |done].
  - by do 2 eexists.
  - do 2 eexists. split; [done|]. destruct Hg as [Hg _]. by destruct e.
Qed.

Lemma start_keys_fresh entries K0 T (s : keychain) : Forall entry_ok entries -> entries.*1 ⊆ K0 -> fresh K0 T s ->
  exists calls s1 T', start_keys entries s = (Ok (calls, None), s1) /\ fresh K0 T' s1 /\ T ⊆ T' /\
    (forall e, e ∈ entries -> e.1 ∈ T' \/ e ∈ pending calls.*2).
Proof.
  revert T s. induction entries as [|e entries IH]; intros T s He Hsub Hf; cbn [start_keys].
  { exists [], s, T. split_and!; try done. by intros e ?%elem_of_nil. }
  apply Forall_cons in He as [(id & k & Hid & Eid & Ek) He]. assert (Hc : cacheKeyToKeyId e.1 = Ok id) by (rewrite Eid; by apply cacheKey_toHex). rewrite Hc.
  assert (H0 : e.1 ∈ K0) by (apply Hsub; left). assert (Hsub' : entries.*1 ⊆ K0) by (intros x Hx; apply Hsub; by right).
  destruct (start_key_fresh e K0 T s H0 Hf) as (c & s1 & E1 & H1). rewrite (bind_ok _ _ _ _ _ E1). destruct c as [key|i t].
  - destruct (IH _ s1 He Hsub' H1) as (calls & s2 & T' & E2 & H2 & HT & Hall). rewrite (bind_ok _ _ _ _ _ E2). do 3 eexists. split_and!; [done|exact H2|set_solver|].
    intros q [->|Hq]%elem_of_cons; [left; apply HT; left|]. by apply Hall.
  - destruct H1 as [H1 <-]. destruct (IH _ s1 He Hsub' H1) as (calls & s2 & T' & E2 & H2 & HT & Hall). rewrite (bind_ok _ _ _ _ _ E2).
    do 3 eexists. split_and!; [done|exact H2|done|]. intros q [->|Hq]%elem_of_cons; cbn; [right; left|]. destruct (Hall q Hq); [by left|right; by right].
Qed.

Lemma settle_fresh l K0 T (s : keychain) : (forall p, p ∈ l -> entry_ok p) -> l.*1 ⊆ K0 -> fresh K0 T s ->
  exists s1, for_each settle tt l s = (Ok tt, s1) /\ exists T', fresh K0 T' s1 /\ T ⊆ T' /\ l.*1 ⊆ T'.
Proof.
  revert T s. induction l as [|p l IH]; intros T s Hok Hsub Hf; cbn [for_each].
  { exists s. split; [done|]. exists T. split_and!; [done..|]. apply list_subseteq_nil. }
  destruct (Hok p) as (id & k & _ & _ & Ek); [left|]. unfold settle at 1. rewrite Ek.
  rewrite (bind_ok _ _ _ _ _ (cacheSet_run p.1 k s)).
  destruct (IH (p.1 :: T) (s <| _keyCache := (lru_set p.1 k (_keyCache s)).2 |>)) as (s1 & E & T' & H1 & H2 & H3).
  - intros q Hq. apply Hok. by right.
  - intros x Hx. apply Hsub. by right.
  - cbn. apply fresh_set; [unfold cache_size; lia|apply Hsub; left|done].
  - exists s1. split; [done|]. exists T'. split_and!; [done|set_solver|]. intros x [->|Hx]%elem_of_cons; [apply H2; left|by apply H3].
Qed.

(** What each call returns. *)
Lemma start_key_call P e (s s1 : keychain) c : cached_ok P s -> start_key e s = (Ok c, s1) ->
  cached_ok P s1 /\ (c = Importing e.1 e.2 \/ exists k, c = Cached k /\ P e.1 k).
Proof.
  intros Hs E. pose proof (steps_start_key P e s Hs) as H1. rewrite E in H1. split; [done|].
  revert E. unfold start_key, cacheGet, on_cache, bind. destruct (lru_get_sound P e.1 (_keyCache s) Hs) as [_ Hg].
  destruct (lru_get e.1 (_keyCache s)) as [[[k|]|x] c']; [| |done]; intros [= <- _]; [right|by left]. exists k. split; [done|]. by apply Hg.
Qed.

Lemma start_keys_calls P entries (s s1 : keychain) calls : cached_ok P s -> start_keys entries s = (Ok (calls, None), s1) ->
  Forall2 (fun e c => cacheKeyToKeyId e.1 = Ok c.1 /\ (c.2 = Importing e.1 e.2 \/ exists k, c.2 = Cached k /\ P e.1 k)) entries calls.
Proof.
  revert s calls. induction entries as [|e entries IH]; intros s calls Hs; cbn [start_keys]; [by intros [= <- _]; constructor|].
  destruct (cacheKeyToKeyId e.1) as [id|x] eqn:Eid; [|done].
  intros (c & s2 & E1 & (rest & s3 & E2 & E3)%bind_inv)%bind_inv. destruct rest as [calls' stop]. injection E3 as <- -> <-.
  destruct (start_key_call P e s s2 c Hs E1) as [H2 Hc]. constructor; [done|]. by eapply IH.
Qed.

Lemma keys_results entries calls : Forall entry_ok entries ->
  Forall2 (fun e c => cacheKeyToKeyId e.1 = Ok c.1 /\ (c.2 = Importing e.1 e.2 \/ exists k, c.2 = Cached k /\ deserializeKey e.2 = Ok k)) entries calls ->
  exists l, map_throwing call_result calls = Ok l /\ Forall2 (fun e p => e.1 = toHex p.1 /\ deserializeKey e.2 = Ok p.2) entries l.
Proof.
  intros Hok H. induction H as [|e [b c] entries calls [Hid Hc] H IH]; [by exists []|]. apply Forall_cons in Hok as [(id & k & Hne & Eid & Ek) Hok].
  destruct (IH Hok) as (l & El & Hl). cbn in Hid, Hc. rewrite Eid, cacheKey_toHex in Hid by done. injection Hid as <-.
  exists ((id, k) :: l). split; [|by constructor]. cbn. unfold call_result at 1. cbn [snd fst].
  assert (Er : call_key c = Ok k) by (destruct Hc as [->|(k' & -> & Hk)]; cbn; congruence).
  by rewrite Er, El.
Qed.

Lemma Forall2_elem {A B} (R : A -> B -> Prop) l k : Forall2 R l k -> Forall2 (fun x y => x ∈ l /\ R x y) l k.
Proof.
  induction 1 as [|x y l k H Hl IH]; constructor; [split; [left|done]|]. eapply Forall2_impl; [exact IH|]. intros a b [Ha Hr]. split; [by right|done].
Qed.

Lemma getKey_result id (s : keychain) : (getKey id s).1 = Ok (map_get (toHex id) (_map (_keyCache s))).
Proof.
  unfold getKey, cacheGet, on_cache, keyIdToCacheKey, lru_get. rewrite (bind_ok _ _ (_keyCache s) (_keyCache s) (_keyCache s)) by done.
  by destruct (map_get (toHex id) (_map (_keyCache s))).
Qed.

Lemma keys_available order (s : keychain) : let entries := kd_keys (_keychain s) in
  (forall l, order l ≡ₚ l) -> keychain_ok s -> Forall entry_ok entries -> NoDup entries.*1 -> length entries <= cache_size ->
  cached_ok (consistent entries) s ->
  exists l s', yjs_keys order s = (Ok l, s') /\
    Forall2 (fun e p => e.1 = toHex p.1 /\ deserializeKey e.2 = Ok p.2) entries l /\
    forall id k, (id, k) ∈ l -> (getKey id s').1 = Ok (Some k).
Proof.
  intros entries Hp Hs Hok Hnd Hlen Hc. pose proof (fresh_start cache_size entries.*1 _ Hs) as Hf.
  destruct (start_keys_fresh entries entries.*1 [] s Hok ltac:(done) Hf) as (calls & s1 & T & E1 & H1 & _ & Hall).
  destruct (start_keys_run entries s) as (calls' & stop' & s1' & E1' & Hpend). rewrite E1 in E1'. injection E1' as <- <- <-.
  destruct (settle_fresh (order (pending calls.*2)) entries.*1 T s1) as (s2 & E2 & T' & H2 & HT & HT'); [|..].
  { intros q Hq. rewrite Hp in Hq. rewrite Forall_forall in Hok. by apply Hok, Hpend. }
  { intros x (q & -> & Hq)%list_elem_of_fmap. rewrite Hp in Hq. apply list_elem_of_fmap. eexists. split; [done|]. by apply Hpend. }
  { done. }
  pose proof (start_keys_calls _ entries s s1 calls Hc E1) as Hcalls.
  destruct (keys_results entries calls Hok) as (l & El & Hl).
  { eapply Forall2_impl; [apply Forall2_elem, Hcalls|]. intros e c (Hin & Hid & Hk). split; [done|]. destruct Hk as [->|(k & -> & Hk)]; [by left|right].
    exists k. split; [done|]. apply Hk. by destruct e. }
  exists l, s2. split_and!; [|done|].
  - unfold yjs_keys. rewrite (bind_ok _ _ s s s) by done. rewrite (bind_ok _ _ _ _ _ E1). cbn [fst snd]. rewrite (bind_ok _ _ _ _ _ E2). by rewrite El.
  - intros id k Hin. assert (Hent : exists t, (toHex id, t) ∈ entries /\ deserializeKey t = Ok k).
    { apply list_elem_of_lookup in Hin as [i Hi]. destruct (Forall2_lookup_r _ _ _ _ _ Hl Hi) as ([hex t] & He & Eh & Ek). cbn in *. subst hex.
      exists t. split; [|done]. by eapply list_elem_of_lookup_2. }
    destruct Hent as (t & Ht & Ek). assert (HT2 : toHex id ∈ T').
    { destruct (Hall _ Ht) as [HinT|Hpd]; [by apply HT|]. apply HT', list_elem_of_fmap. exists (toHex id, t). split; [done|]. by rewrite Hp. }
    destruct (fresh_has cache_size entries.*1 T' (_keyCache s2) (toHex id) ltac:(by rewrite length_fmap) HT2 H2) as [k' Hk'].
    assert (Hc2 : cached_ok (consistent entries) s2).
    { destruct (steps_keys (consistent entries) order s Hp (consistent_listed _ Hnd) Hc) as [H _]. revert H. unfold yjs_keys. rewrite (bind_ok _ _ s s s) by done.
      rewrite (bind_ok _ _ _ _ _ E1). cbn [fst snd]. by rewrite (bind_ok _ _ _ _ _ E2). }
    assert (k' = k) as ->. { pose proof (Hc2 _ _ (map_get_elem_of _ _ _ Hk') t Ht). congruence. }
    by rewrite getKey_result, Hk'.
Qed.

Section Replicas.
  Context `{!KeyDocLaws Doc Update}.

Lemma copy_keys_doc (es : list (string * string)) d : kd_keys (foldl kd_push d es) = kd_keys d ++ es.
Proof. revert d. induction es as [|e es IH]; intros d; cbn; [by rewrite app_nil_r|]. rewrite IH, kd_push_keys. by rewrite <- app_assoc. Qed.

(** Merging a copied list into a new keychain. *)
Lemma merge_new (n : nat) d : exists d', kd_in_step d d' /\
  keychain_merge (kd_all d) (@new_keychain _ _ Key _ n) = (Ok tt, mk_keychain (mk_cache [] cache_size) d').
Proof.
  destruct (kd_apply_all n d) as (d' & E & Hd). exists d'. split; [done|]. unfold keychain_merge, new_keychain. rewrite (bind_ok _ _ _ _ _ (eq_refl : get _ = _)). cbn. by rewrite E.
Qed.

(** C24. What a new member finds: after merging the history of another keychain no key is
    found at all; after [current] the last one is, and only that one; after [keys] all of
    them are, when they fit the cache. *)
Theorem merged_keys_available (n : nat) order (source : keychain) : let entries := kd_keys (_keychain source) in
  (forall l, order l ≡ₚ l) -> Forall entry_ok entries -> NoDup entries.*1 -> 0 < length entries <= cache_size ->
  exists s, keychain_merge (history source) (new_keychain n) = (Ok tt, s) /\
    (forall id, (getKey id s).1 = Ok None) /\
    (exists id k t s', current s = (Ok (id, k), s') /\ last entries = Some (toHex id, t) /\ deserializeKey t = Ok k /\
       forall id', (getKey id' s').1 = Ok (if decide (id' = id) then Some k else None)) /\
    (exists l s', yjs_keys order s = (Ok l, s') /\
       Forall2 (fun e p => e.1 = toHex p.1 /\ deserializeKey e.2 = Ok p.2) entries l /\
       forall id k, (id, k) ∈ l -> (getKey id s').1 = Ok (Some k)).
Proof.
  intros entries Hp Hok Hnd [Hpos Hlen]. destruct (merge_new n (_keychain source)) as (d' & Hd & E). apply kd_same_keys in Hd.
  set (s := mk_keychain _ d') in E. exists s. split_and!; [done|by intros id; rewrite getKey_result| |].
  - destruct (List.rev entries) as [|[hex t] r] eqn:Er; [apply (f_equal length) in Er; rewrite length_rev in Er; cbn in Er; lia|].
    pose proof (rev_head _ _ _ Er) as El. assert (Hin : (hex, t) ∈ entries) by (rewrite El, elem_of_app; right; left).
    rewrite Forall_forall in Hok. destruct (Hok _ Hin) as (id & k & Hne & Eid & Ek). cbn in Eid, Ek. subst hex.
    exists id, k, t, (s <| _keyCache := (lru_set (toHex id) k (_keyCache s)).2 |>). split_and!; [|by rewrite El, last_snoc|done|].
    + unfold current. rewrite (bind_ok _ _ s s s) by done. cbn [_keychain s]. rewrite Hd. fold entries. rewrite Er, cacheKey_toHex by done.
      rewrite (bind_ok _ _ s id s) by done. rewrite (bind_ok _ _ s None s) by done. rewrite Ek, (bind_ok _ _ s k s) by done.
      by rewrite (bind_ok _ _ _ _ _ (cacheSet_run _ _ _)).
    + intros id'. rewrite getKey_result. cbn. case_decide as Hd1; case_decide as Hd2; try done; [by apply toHex_inj in Hd1|by subst id'].
  - change entries with (kd_keys (_keychain source)) in *. rewrite <- Hd in *. apply (keys_available order s); try done.
    + by exists []; split; [constructor|..].
    + by intros id k ?%elem_of_nil.
Qed.

(** What a member hands to another: from [historySince] a new member gets exactly the
    keys from the first entry under the ID on, or all of them when there is none, and from
    [currentKeyChange] only the last; an empty keychain refuses both. *)
Theorem history_shared (n m : nat) keyID (source : keychain) : let entries := kd_keys (_keychain source) in
  match entries with
  | [] => historySince m keyID source = throw "Can't get history-since from an empty keychain" /\
          currentKeyChange m source = throw "Can't get current key change from an empty keychain"
  | _ =>
      (exists u s, historySince m keyID source = Ok u /\ keychain_merge u (@new_keychain _ _ Key _ n) = (Ok tt, s) /\
         (forall before t after, entries = before ++ (toHex keyID, t) :: after -> toHex keyID ∉ before.*1 ->
            kd_keys (_keychain s) = (toHex keyID, t) :: after) /\
         (toHex keyID ∉ entries.*1 -> kd_keys (_keychain s) = entries)) /\
      (exists u s, currentKeyChange m source = Ok u /\ keychain_merge u (@new_keychain _ _ Key _ n) = (Ok tt, s) /\
         last entries = head (kd_keys (_keychain s)) /\ length (kd_keys (_keychain s)) = 1)
  end.
Proof.
  intros entries. destruct entries as [|e0 es] eqn:He.
  { subst entries. unfold historySince, currentKeyChange. by rewrite He. }
  split.
  - unfold historySince. subst entries. rewrite He. rewrite <- He. unfold keyIdToCacheKey.
    destruct (find_start (toHex keyID) (kd_keys (_keychain source))) as [i|] eqn:Ef.
    + destruct (merge_new n (foldl kd_push (kd_new m) (drop i (kd_keys (_keychain source))))) as (d' & Hd & E). apply kd_same_keys in Hd.
      rewrite copy_keys_doc, kd_new_keys in Hd. do 2 eexists. split_and!; [done|exact E| |]; cbn; rewrite Hd; cbn.
      * intros before t after Ek Hb. rewrite Ek in Ef |- *. rewrite (find_start_app _ _ _ _ Hb) in Ef. injection Ef as <-. by rewrite drop_app_length.
      * intros Hn. by rewrite find_start_none in Ef.
    + destruct (merge_new n (_keychain source)) as (d' & Hd & E). apply kd_same_keys in Hd. do 2 eexists. split_and!; [done|exact E| |done].
      intros before t after Ek Hb. rewrite Ek in Ef. by rewrite (find_start_app _ _ _ _ Hb) in Ef.
  - unfold currentKeyChange. subst entries. rewrite He. rewrite <- He. destruct (List.rev _) as [|e r] eqn:Er; [by rewrite He in Er; apply (f_equal length) in Er; rewrite length_rev in Er|].
    apply rev_head in Er. destruct (merge_new n (foldl kd_push (kd_new m) [e])) as (d' & Hd & E). apply kd_same_keys in Hd.
    rewrite copy_keys_doc, kd_new_keys in Hd. do 2 eexists. split_and!; [done|exact E| |]; cbn; rewrite Hd; [|done]. by rewrite Er, last_snoc.
Qed.

(** The additions of a member and the changes it sends, which another member merges. *)
Inductive addition := ByYjs (n : nat) | ByAutomerge (n : nat) | ByEpoch (epochId : bytes) (key : Key).

Definition publish (a : addition) : eff keychain Update :=
  match a with
  | ByYjs n => let! r := yjs_add n in ret r.2
  | ByAutomerge n => let! r := automerge_add n in ret r.2
  | ByEpoch e k => addEpochKey e k
  end.

Fixpoint replicate_ (additions : list addition) (source replica : keychain) : keychain * keychain :=
  match additions with
  | [] => (source, replica)
  | a :: additions' =>
      match publish a source with
      | (Ok change, source') => replicate_ additions' source' (keychain_merge change replica).2
      | (Err _, source') => replicate_ additions' source' replica
      end
  end.

Lemma add_run n (s : keychain) : exists c, forall r, r = yjs_add n s \/ r = automerge_add n s ->
  match serializeKey (generateKey n) with
  | Ok t => let d := kd_push (_keychain s) (toHex (randomId n), t) in
      r = (Ok (randomId n, generateKey n, kd_diff (_keychain s) d), mk_keychain c d)
  | Err x => exists c', r = (Err x, mk_keychain c' (_keychain s))
  end.
Proof.
  exists (lru_set (toHex (randomId n)) (generateKey n) (_keyCache s)).2. intros r [->| ->]; unfold yjs_add, automerge_add.
  - rewrite (bind_ok _ _ _ _ _ (cacheSet_run _ _ _)). destruct (serializeKey (generateKey n)) as [t|x]; [done|]. by eexists.
  - destruct (serializeKey (generateKey n)) as [t|x]; [|exists (_keyCache s); by destruct s].
    rewrite (bind_ok _ _ s t s) by done. by rewrite (bind_ok _ _ _ _ _ (cacheSet_run _ _ _)).
Qed.

Lemma publish_run a (s : keychain) : exists c, (exists e, publish a s = (Ok (kd_diff (_keychain s) (kd_push (_keychain s) e)), mk_keychain c (kd_push (_keychain s) e))) \/
  (exists x, publish a s = (Err x, mk_keychain c (_keychain s))).
Proof.
  destruct a as [n|n|e k]; cbn [publish].
  1,2: destruct (add_run n s) as [c Hr].
  1: specialize (Hr (yjs_add n s) (or_introl eq_refl)). 2: specialize (Hr (automerge_add n s) (or_intror eq_refl)).
  1,2: destruct (serializeKey (generateKey n)) as [t|x];
    [exists c; left; eexists; by rewrite (bind_ok _ _ _ _ _ Hr)|destruct Hr as [c' Hr]; exists c'; right; eexists; by rewrite (bind_err _ _ _ _ _ Hr)].
  exists (lru_set (toHex e) k (_keyCache s)).2. unfold addEpochKey. rewrite (bind_ok _ _ _ _ _ (cacheSet_run _ _ _)).
  destruct (serializeKey k) as [t|x]; [left; by exists (toHex e, t)|right; by exists x].
Qed.

(** A member that merged the history and then every change that the keychain reports
    has the same keys in the same order, whatever was added and whichever additions failed. *)
Theorem changes_replicate n (source : keychain) additions :
  let replica := (keychain_merge (history source) (new_keychain n)).2 in
  let (source', replica') := replicate_ additions source replica in
  kd_keys (_keychain replica') = kd_keys (_keychain source').
Proof.
  intros replica. destruct (merge_new n (_keychain source)) as (d & Hd & E). unfold replica, history. rewrite E. cbn [snd]. clear E replica.
  generalize (mk_cache (K := string) (V := Key) [] cache_size). revert source d Hd. induction additions as [|a additions IH]; intros source d Hd c; cbn [replicate_]; [by apply kd_same_keys|].
  destruct (publish_run a source) as (c' & [(e & ->)|(x & ->)]); [|by apply (IH (mk_keychain c' (_keychain source)))].
  destruct (kd_apply_diff _ _ e Hd) as (d'' & E & Hd'').
  assert (Em : (keychain_merge (kd_diff (_keychain source) (kd_push (_keychain source) e)) (mk_keychain c d)).2 = mk_keychain c d'').
  { unfold keychain_merge. rewrite (bind_ok _ _ _ _ _ (eq_refl : get _ = _)). cbn [_keychain]. by rewrite E. }
  rewrite Em. by apply (IH (mk_keychain c' (kd_push (_keychain source) e))).
Qed.

End Replicas.
End Theory.
End KeychainTheory.
