(* ===== verification/UserAcl.v ===== *)
(** * Access-control lists of the CRDT adapters

    Models [YjsACL] of [collabswarm-yjs/src/collabswarm-yjs.ts] and [AutomergeACL] of
    [collabswarm-automerge/src/collabswarm-automerge.ts]: a replicated map whose keys are
    the serialized public keys of the users, and a cache of imported keys. *)
From stdpp Require Import base numbers list list_numbers strings sets.
From Stdlib Require Import ZArith Lia Permutation.
From S2P Require Import Prelude TipsHash Wire Lru Keychain KeychainTheory.

Open Scope string_scope.
Open Scope list_scope.
Open Scope nat_scope.

Module UserAcl.
Import Lru Wire Keychain KeychainTheory.

(** The replicated map; [ud_users] lists its keys. *)
Class UserDoc (Doc Update : Type) := {
  ud_new : nat -> Doc;
  ud_users : Doc -> list string;
  ud_set : Doc -> string -> Doc;
  ud_delete : Doc -> string -> Doc;
  ud_diff : Doc -> Doc -> Update;
  ud_all : Doc -> Update;
  ud_apply : Doc -> Update -> result Doc;
}.

Class UserDocLaws (Doc Update : Type) `{!UserDoc Doc Update} := {
  ud_new_users n : ud_users (ud_new n) = [];
  ud_set_users d h h' : h' ∈ ud_users (ud_set d h) <-> h' = h \/ h' ∈ ud_users d;
  ud_delete_users d h h' : h' ∈ ud_users (ud_delete d h) <-> h' <> h /\ h' ∈ ud_users d;
  ud_nodup d : NoDup (ud_users d);
}.

Section Acl.
  Context {Doc Update Key : Type} `{B64 : !Base64, UD : !UserDoc Doc Update, KC : !KeyCrypto Key}.

(** The fields of a list are those of a keychain: the document and a cache of 1000 keys. *)
Abbreviation acl := (@keychain Doc Key).
Abbreviation _acl := (@_keychain Doc Key).

Definition new_acl (n : nat) : acl := mk_keychain (mk_cache [] cache_size) (ud_new n).

Definition acl_add (publicKey : Key) : eff acl Update :=
  let! hash := lift (serializeKey publicKey) in
  let! s := get in
  let before := _acl s in
  let! _ := modify (fun s => s <| _keychain := ud_set (_acl s) hash |>) in
  let! s := get in
  ret (ud_diff before (_acl s)).

Definition acl_remove (publicKey : Key) : eff acl Update :=
  let! hash := lift (serializeKey publicKey) in
  let! s := get in
  let before := _acl s in
  let! _ := when (bool_decide (hash ∈ ud_users (_acl s))) (modify (fun s => s <| _keychain := ud_delete (_acl s) hash |>)) in
  let! s := get in
  ret (ud_diff before (_acl s)).

Definition acl_current (s : acl) : Update := ud_all (_acl s).

Definition acl_merge (change : Update) : eff acl unit :=
  let! s := get in
  let! d := lift (ud_apply (_acl s) change) in
  modify (fun s => s <| _keychain := d |>).

Definition acl_check (publicKey : Key) (s : acl) : result bool :=
  let? hash := serializeKey publicKey in Ok (bool_decide (hash ∈ ud_users (_acl s))).

(** One call per user; [order] is the order in which the imports finish. *)
Fixpoint start_users (entries : list string) : eff acl (list call) :=
  match entries with
  | [] => ret []
  | serializedKey :: entries' =>
      let! c := start_key (serializedKey, serializedKey) in
      let! rest := start_users entries' in
      ret (c :: rest)
  end.

Definition acl_users (order : list (string * string) -> list (string * string)) : eff acl (list Key) :=
  let! s := get in
  let! calls := start_users (ud_users (_acl s)) in
  let! _ := for_each settle tt (order (pending calls)) in
  lift (map_throwing call_key calls).

(** ** The two classes, which differ in the document *)

Record AclClass := Methods {
  m_add : Key -> eff acl Update;
  m_remove : Key -> eff acl Update;
  m_current : acl -> Update;
  m_merge : Update -> eff acl unit;
  m_check : Key -> acl -> result bool;
  m_users : (list (string * string) -> list (string * string)) -> eff acl (list Key);
}.

Definition YjsACL : AclClass := Methods acl_add acl_remove acl_current acl_merge acl_check acl_users.

Definition AutomergeACL : AclClass := Methods acl_add acl_remove acl_current acl_merge acl_check acl_users.

(** ** Sequences of calls *)

Inductive op :=
| Add (key : Key) | Remove (key : Key) | Merge (change : Update) | Check (key : Key)
| Users (order : list (string * string) -> list (string * string)).

Definition exec (s : acl) (o : op) : acl :=
  match o with
  | Add k => (acl_add k s).2
  | Remove k => (acl_remove k s).2
  | Merge u => (acl_merge u s).2
  | Check _ => s
  | Users order => (acl_users order s).2
  end.

Definition fair (o : op) : Prop := match o with Users order => forall l, order l ≡ₚ l | _ => True end.

(** A cached key is the one its name stands for. *)
Definition imported (h : string) (k : Key) : Prop := deserializeKey h = Ok k.

Lemma start_users_run P entries (s : acl) : cached_ok P s -> exists calls s1, start_users entries s = (Ok calls, s1) /\
  cached_ok P s1 /\ _acl s1 = _acl s /\ Forall2 (fun h c => c = Importing h h \/ exists k, c = Cached k /\ P h k) entries calls.
Proof.
  revert s. induction entries as [|h entries IH]; intros s Hs; cbn [start_users]; [by do 2 eexists|].
  destruct (start_key_run (h, h) s) as (c & s1 & E1 & _). destruct (start_key_call P (h, h) s s1 c Hs E1) as [H1 Hc].
  assert (Hd : _acl s1 = _acl s).
  { revert E1. unfold start_key, cacheGet, on_cache, bind. destruct (lru_get _ (_keyCache s)) as [[[k|]|x] c']; [| |done]; by intros [= _ <-]. }
  destruct (IH s1 H1) as (calls & s2 & E2 & H2 & Hd2 & Hall). rewrite (bind_ok _ _ _ _ _ E1), (bind_ok _ _ _ _ _ E2).
  do 2 eexists. split_and!; [done|done|congruence|]. by constructor.
Qed.

Lemma pending_imported calls entries : Forall2 (fun h c => c = Importing h h \/ exists k, c = Cached k /\ imported h k) entries calls ->
  forall p, p ∈ pending calls -> p.1 = p.2.
Proof.
  induction 1 as [|h c entries calls Hc H IH]; [by intros p ?%elem_of_nil|]. destruct Hc as [->|(k & -> & _)]; cbn; [|done].
  intros p [->|Hp]%elem_of_cons; [done|by apply IH].
Qed.

Lemma listed_same order calls : (forall l, order l ≡ₚ l) -> (forall p : string * string, p ∈ calls -> p.1 = p.2) -> listed_ok imported (order calls).
Proof. intros Hp H id t k Hin Hk. rewrite Hp in Hin. apply H in Hin. cbn in Hin. by subst t. Qed.

Lemma settle_doc l (s : acl) : exists s1, for_each settle tt l s = (Ok tt, s1) /\ _acl s1 = _acl s.
Proof.
  revert s. induction l as [|p l IH]; intros s; cbn [for_each]; [by eexists|]. unfold settle at 1. destruct (deserializeKey p.2) as [k|].
  - rewrite (bind_ok _ _ _ _ _ (cacheSet_run p.1 k s)). destruct (IH (s <| _keyCache := (lru_set p.1 k (_keyCache s)).2 |>)) as (s1 & -> & Hd). by exists s1.
  - rewrite (bind_ok _ _ s tt s) by done. apply IH.
Qed.

(** The calls return what the names stand for, with any cache. *)
Lemma users_run order (s : acl) : (forall l, order l ≡ₚ l) -> cached_ok imported s ->
  exists s1, acl_users order s = (map_throwing deserializeKey (ud_users (_acl s)), s1) /\ _acl s1 = _acl s /\ cached_ok imported s1.
Proof.
  intros Hp Hs. unfold acl_users. rewrite (bind_ok _ _ s s s) by done.
  destruct (start_users_run imported (ud_users (_acl s)) s Hs) as (calls & s1 & E1 & H1 & Hd & Hall). rewrite (bind_ok _ _ _ _ _ E1).
  destruct (settle_doc (order (pending calls)) s1) as (s2 & E2 & Hd2). rewrite (bind_ok _ _ _ _ _ E2).
  exists s2. split_and!; [|congruence|].
  - unfold lift. f_equal. clear -Hall. induction Hall as [|h c entries calls Hc Hall IH]; [done|]. cbn. rewrite IH.
    by destruct Hc as [->|(k & -> & ->)].
  - pose proof (@steps_settle Doc Key _ _ imported (order (pending calls))) as H. specialize (H ltac:(apply (listed_same _ (pending calls) Hp), (pending_imported _ _ Hall)) s1 H1).
    by rewrite E2 in H.
Qed.

Lemma exec_imported s o : fair o -> cached_ok imported s -> cached_ok imported (exec s o).
Proof.
  intros Hf Hs. destruct o as [k|k|u|k|order]; cbn [exec].
  - unfold acl_add. by destruct (serializeKey k).
  - unfold acl_remove. destruct (serializeKey k) as [h|]; [|done]. cbn. unfold bind, when. cbn. by case_bool_decide.
  - unfold acl_merge. rewrite (bind_ok _ _ s s s) by done. by destruct (ud_apply (_acl s) u).
  - done.
  - destruct (users_run order s Hf Hs) as (s1 & E & _ & H). by rewrite E.
Qed.

Lemma run_imported n ops : Forall fair ops -> cached_ok imported (foldl exec (new_acl n) ops).
Proof.
  intros Hf. assert (H0 : cached_ok imported (new_acl n)) by (by intros h k ?%elem_of_nil). revert H0. generalize (new_acl n).
  induction Hf as [|o ops Ho Hf IH]; intros s Hs; [done|]. cbn. by apply IH, exec_imported.
Qed.

(** ** Users and members *)

(** The name of some key. *)
Definition canonical (h : string) : Prop := exists k, serializeKey k = Ok h.

Section Laws.
  Context `{!UserDocLaws Doc Update, !KeyCryptoLaws Key}.

Lemma deserialize_serialize (k : Key) h : serializeKey k = Ok h -> deserializeKey h = Ok k.
Proof.
  unfold serializeKey, deserializeKey. destruct (exportKey k) as [b|] eqn:E; [|done]. intros [= <-]. rewrite base64_roundtrip. cbn. by apply import_export.
Qed.

Lemma import_canonical names : Forall canonical names -> NoDup names -> exists l, map_throwing deserializeKey names = Ok l /\ NoDup l /\
  forall k : Key, k ∈ l <-> exists h, serializeKey k = Ok h /\ h ∈ names.
Proof.
  induction 1 as [|h names [k Hk] Hc IH]; intros Hnd; [exists []; split_and!; [done|constructor|]; intros k; split; [by intros ?%elem_of_nil|by intros (h & _ & ?%elem_of_nil)]|].
  apply NoDup_cons in Hnd as [Hh Hnd]. destruct (IH Hnd) as (l & El & Hl & Hm). exists (k :: l). cbn. rewrite (deserialize_serialize _ _ Hk), El. split_and!; [done| |].
  - constructor; [|done]. rewrite Hm. intros (h' & Eh & Hin). congruence.
  - intros k'. rewrite elem_of_cons, Hm. split.
    + intros [->|(h' & Eh & Hin)]; [exists h; split; [done|left]|exists h'; split; [done|by right]].
    + intros (h' & Eh & [->|Hin]%elem_of_cons); [left|right; by eauto]. apply deserialize_serialize in Eh, Hk. congruence.
Qed.

Lemma users_list order (s : acl) : (forall l, order l ≡ₚ l) -> cached_ok imported s -> Forall canonical (ud_users (_acl s)) ->
  exists l s', acl_users order s = (Ok l, s') /\ _acl s' = _acl s /\ NoDup l /\ forall k, k ∈ l <-> acl_check k s = Ok true.
Proof.
  intros Hp Hs Hc. destruct (users_run order s Hp Hs) as (s' & E & Hd & _). destruct (import_canonical _ Hc (ud_nodup _)) as (l & El & Hl & Hm).
  exists l, s'. rewrite E, El. split_and!; [done..|]. intros k. rewrite Hm. unfold acl_check. split.
  - intros (h & -> & Hin). by rewrite bool_decide_true.
  - destruct (serializeKey k) as [h|]; [|done]. intros [= H]. apply bool_decide_eq_true in H. by eauto.
Qed.

(** The last of the calls that add or remove the name. *)
Definition member_step (h : string) (b : bool) (o : op) : bool :=
  match o with
  | Add k => if decide (serializeKey k = Ok h) then true else b
  | Remove k => if decide (serializeKey k = Ok h) then false else b
  | _ => b
  end.

Definition member (h : string) (ops : list op) : bool := foldl (member_step h) false ops.

Definition local (o : op) : Prop := match o with Merge _ => False | _ => True end.

Lemma exec_member s o h b : fair o -> local o -> cached_ok imported s -> (h ∈ ud_users (_acl s) <-> b = true) ->
  h ∈ ud_users (_acl (exec s o)) <-> member_step h b o = true.
Proof.
  intros Hf Hl Hs Hb. destruct o as [k|k|u|k|order]; cbn [exec member_step]; try done.
  - unfold acl_add. destruct (serializeKey k) as [h'|e]; [|by rewrite decide_False]. cbn. rewrite ud_set_users, Hb. case_decide as E; [|destruct b]; naive_solver.
  - unfold acl_remove. destruct (serializeKey k) as [h'|e]; [|by rewrite decide_False]. rewrite (bind_ok _ _ s h' s) by done. rewrite (bind_ok _ _ s s s) by done.
    unfold bind, when. case_bool_decide as Hin; cbn; rewrite ?ud_delete_users, Hb; case_decide as E; destruct b; naive_solver.
  - destruct (users_run order s Hf Hs) as (s1 & E & Hd & _). rewrite E. cbn [snd]. by rewrite Hd.
Qed.

Lemma run_member n ops h : Forall fair ops -> Forall local ops -> h ∈ ud_users (_acl (foldl exec (new_acl n) ops)) <-> member h ops = true.
Proof.
  intros Hf Hl. unfold member. assert (H0 : h ∈ ud_users (_acl (new_acl n)) <-> false = true).
  { cbn. rewrite ud_new_users. split; [by intros ?%elem_of_nil|done]. }
  assert (Hi : cached_ok imported (new_acl n)) by (by intros x k ?%elem_of_nil). revert H0 Hi. generalize (new_acl n) false.
  induction ops as [|o ops IH]; intros s b Hb Hi; [done|]. apply Forall_cons in Hf as [Ho Hf]. apply Forall_cons in Hl as [Ho' Hl]. cbn.
  apply IH; [done..|by apply exec_member|by apply exec_imported].
Qed.

(** The access-control list is the set of the keys added and not removed since: after
    any sequence of local calls a key passes the check exactly when the last addition or
    removal of it was an addition, and the users are exactly the keys that pass, each
    once, whatever is in the cache and in whatever order imports finish. After merges the
    users are still the keys that pass, when every entry is the name of a key. *)
Theorem acl_refines_set n ops order : Forall fair ops -> (forall l, order l ≡ₚ l) ->
  let s := foldl exec (new_acl n) ops in
  (Forall local ops -> forall k h, serializeKey k = Ok h -> acl_check k s = Ok (member h ops)) /\
  (Forall local ops \/ Forall canonical (ud_users (_acl s)) ->
   exists l s', acl_users order s = (Ok l, s') /\ _acl s' = _acl s /\ NoDup l /\ forall k, k ∈ l <-> acl_check k s = Ok true).
Proof.
  intros Hf Hp s. split.
  - intros Hl k h Hk. unfold acl_check. rewrite Hk. f_equal. apply eq_true_iff_eq. rewrite bool_decide_eq_true. by apply run_member.
  - intros H. apply users_list; [done|by apply run_imported|]. destruct H as [Hl|]; [|done]. apply Forall_forall. intros h Hh. apply run_member in Hh; [|done..].
    revert Hh. unfold member. clear. induction ops as [|o ops IH] using rev_ind; [done|]. rewrite foldl_app. cbn. destruct o; cbn; try done; case_decide; try done. by eexists.
Qed.

End Laws.
End Acl.
End UserAcl.
