(* ===== verification/KeychainExamples.v ===== *)
(** * Concrete keychains and access-control lists

    The theorems about the adapters applied to small documents: a keychain whose document
    is the list of its entries and whose changes are the entries to append, and a list of
    users whose document is a set. *)
From stdpp Require Import base numbers list list_numbers strings sets gmap.
From Stdlib Require Import ZArith Lia Permutation.
From S2P Require Import Prelude Wire Lru Keychain KeychainTheory UserAcl.

Open Scope string_scope.
Open Scope list_scope.
Open Scope nat_scope.

Module KeychainExamples.
Import Lru Wire Keychain KeychainTheory.
#[local] Existing Instance Wire.latin1.

#[local] Instance list_doc : KeyDoc (list (string * string)) (list (string * string)) := {
  kd_new _ := [];
  kd_keys d := d;
  kd_push d e := d ++ [e];
  kd_diff before after := drop (length before) after;
  kd_all d := d;
  kd_apply d u := Ok (d ++ u);
}.

#[local] Instance list_doc_laws : KeyDocLaws (list (string * string)) (list (string * string)).
Proof.
  refine {| kd_in_step := eq |}; try done.
  - intros n d. by exists d.
  - intros d d' e <-. cbn. eexists. split; [done|]. by rewrite drop_app_length.
Defined.

(** Keys are their own raw bytes; the empty one cannot be exported. *)
#[local] Instance byte_keys : KeyCrypto bytes := {
  exportKey k := match k with [] => throw "not extractable" | _ => Ok k end;
  importKey b := Ok b;
  generateKey n := [byte_of_Z (Z.of_nat n)];
  randomId n := replicate 32 (byte_of_Z (Z.of_nat n));
}.

#[local] Instance byte_keys_laws : KeyCryptoLaws bytes.
Proof.
  split.
  - intros [|x k] b; [done|]. by intros [= <-].
  - intros n. by eexists.
  - intros n. apply length_replicate.
Qed.

Definition founder : @keychain (list (string * string)) bytes := run [YjsAdd 1; AddEpochKey [Init.Byte.x05] [Init.Byte.x06]] (new_keychain 0).

Lemma getKey_sound_witness :
  stored [YjsAdd 1; AddEpochKey [Init.Byte.x05] [Init.Byte.x06]] (new_keychain 0) (toHex [Init.Byte.x05]) [Init.Byte.x06].
Proof. apply (getKey_sound (Key := bytes) 0); [repeat constructor|reflexivity]. Defined.

Lemma founder_entries : Forall entry_ok (kd_keys (_keychain founder)).
Proof.
  apply Forall_cons. split; [exists (replicate 32 Init.Byte.x01), [Init.Byte.x01]; split_and!; [done|reflexivity|reflexivity]|].
  apply Forall_cons. split; [exists [Init.Byte.x05], [Init.Byte.x06]; split_and!; [done|reflexivity|reflexivity]|]. by apply Forall_nil.
Qed.

(** A member that was welcomed has the key of every block and finds none of them. *)
Lemma merged_keys_available_witness :
  exists s, keychain_merge (history founder) (new_keychain 7) = (Ok tt, s) /\
    (forall id, (getKey id s).1 = Ok None) /\
    (exists id k t s', current s = (Ok (id, k), s') /\ last (kd_keys (_keychain founder)) = Some (toHex id, t) /\ deserializeKey t = Ok k /\
       forall id', (getKey id' s').1 = Ok (if decide (id' = id) then Some k else None)) /\
    (exists l s', yjs_keys (@List.rev _) s = (Ok l, s') /\
       Forall2 (fun e p => e.1 = toHex p.1 /\ deserializeKey e.2 = Ok p.2) (kd_keys (_keychain founder)) l /\
       forall id k, (id, k) ∈ l -> (getKey id s').1 = Ok (Some k)).
Proof.
  apply (merged_keys_available 7 (@List.rev _) founder).
  - intros l. symmetry. apply Permutation_rev.
  - exact founder_entries.
  - apply (bool_decide_unpack _). by vm_compute.
  - vm_compute. lia.
Defined.

Lemma history_shared_witness :
  exists u s, historySince 3 [Init.Byte.x05] founder = Ok u /\ keychain_merge u (@new_keychain _ _ bytes _ 7) = (Ok tt, s) /\
    kd_keys (_keychain s) = [(toHex [Init.Byte.x05], fromUint8Array [Init.Byte.x06])].
Proof.
  destruct (history_shared (Key := bytes) 7 3 [Init.Byte.x05] founder) as [(u & s & E1 & E2 & H & _) _]. exists u, s. split_and!; [done..|].
  eapply (H [(toHex (replicate 32 Init.Byte.x01), fromUint8Array [Init.Byte.x01])]); [reflexivity|]. apply (bool_decide_unpack _). by vm_compute.
Defined.

Lemma changes_replicate_witness :
  let replica := (keychain_merge (history founder) (new_keychain 7)).2 in
  let (source', replica') := replicate_ [ByAutomerge 4; ByEpoch [Init.Byte.x08] []; ByYjs 9] founder replica in
  kd_keys (_keychain replica') = kd_keys (_keychain source').
Proof. apply (changes_replicate 7 founder). Defined.

(** A key that cannot be exported is cached by [addEpochKey] and never listed. *)
Example unexportable_stays_cached :
  let r := addEpochKey [Init.Byte.x08] [] founder in
  r.1 = throw "not extractable" /\ (getKey [Init.Byte.x08] r.2).1 = Ok (Some []) /\ kd_keys (_keychain r.2) = kd_keys (_keychain founder).
Proof. split_and!; by vm_compute. Qed.

(** ** Users *)

#[local] Instance set_users : UserAcl.UserDoc (gset string) (gset string) := {
  UserAcl.ud_new _ := ∅;
  UserAcl.ud_users d := elements d;
  UserAcl.ud_set d h := {[h]} ∪ d;
  UserAcl.ud_delete d h := d ∖ {[h]};
  UserAcl.ud_diff before after := after ∖ before;
  UserAcl.ud_all d := d;
  UserAcl.ud_apply d u := Ok (d ∪ u);
}.

#[local] Instance set_users_laws : UserAcl.UserDocLaws (gset string) (gset string).
Proof. split; cbn; intros; [done|set_solver..|apply NoDup_elements]. Qed.

Lemma acl_refines_set_witness :
  let s := foldl UserAcl.exec (UserAcl.new_acl 0) [UserAcl.Add [Init.Byte.x01]; UserAcl.Add [Init.Byte.x02]; UserAcl.Users id; UserAcl.Remove [Init.Byte.x01]] in
  (forall k h, serializeKey k = Ok h -> UserAcl.acl_check k s =
     Ok (UserAcl.member (Update := gset string) h [UserAcl.Add [Init.Byte.x01]; UserAcl.Add [Init.Byte.x02]; UserAcl.Users id; UserAcl.Remove [Init.Byte.x01]])) /\
  exists l s', UserAcl.acl_users (@List.rev _) s = (Ok l, s') /\ _keychain s' = _keychain s /\ NoDup l /\ forall k, k ∈ l <-> UserAcl.acl_check k s = Ok true.
Proof.
  destruct (UserAcl.acl_refines_set (Doc := gset string) (Update := gset string) (Key := bytes) 0
    [UserAcl.Add [Init.Byte.x01]; UserAcl.Add [Init.Byte.x02]; UserAcl.Users id; UserAcl.Remove [Init.Byte.x01]] (@List.rev _)) as [H1 H2].
  - repeat (apply Forall_cons; split; [first [exact I|by intros l]|]). by apply Forall_nil.
  - intros l. symmetry. apply Permutation_rev.
  - split; [apply H1; repeat constructor|apply H2; left; repeat constructor].
Defined.

End KeychainExamples.
