(* ===== verification/Relay.v ===== *)
(** * The relay server

    Models [relay-server/src/config.ts], [topic-policy.ts] and the topic handling of
    [index.ts]: the configuration read from the environment, the decision whether to follow
    a topic, and the two listeners that follow and leave topics as peers come and go. The
    construction of the libp2p node and the file it writes are left out. A number in the
    environment is read as an exact integer, where [parseInt] rounds above [2^53]. *)
From stdpp Require Import base numbers list list_numbers strings sets.
From Stdlib Require Import ZArith Lia Ascii.
From S2P Require Import Prelude.

Open Scope string_scope.
Open Scope list_scope.
Open Scope nat_scope.

Module Relay.

(** ** Configuration *)

Definition PUBSUB_PEER_DISCOVERY_TOPIC : string := "swarmdb._peer-discovery._p2p._pubsub".
Definition DEFAULT_MAX_AUTO_TOPICS : Z := 1000.
Definition DEFAULT_WS_PORT : string := "9001".
Definition DEFAULT_TCP_PORT : string := "9002".
Definition DEFAULT_DOCUMENT_PUBLISH_PATH : string := "/documents".
Definition SYSTEM_TOPIC_PREFIXES : list string := ["_"; "floodsub:"].

Record RelayConfig := Config {
  peerDiscoveryTopic : string;
  documentPublishPath : string;
  wsListen : string;
  tcpListen : string;
  ipv6Enabled : bool;
  wsListenV6 : string;
  tcpListenV6 : string;
  topicAllowlist : option (list string);
  maxAutoTopics : Z;
  extraTopics : list string;
}.

Definition char_code (c : Ascii.ascii) : N := Ascii.N_of_ascii c.

(** The white space of the language among the first 256 characters. *)
Definition is_space (c : Ascii.ascii) : bool :=
  let n := char_code c in ((9 <=? n) && (n <=? 13) || (n =? 32) || (n =? 160))%N.

(** [s.split(',')] *)
Fixpoint split_commas (s : string) : list string :=
  match s with
  | String.EmptyString => [""]
  | String.String c s' =>
      if Ascii.eqb c ","%char then "" :: split_commas s'
      else match split_commas s' with x :: r => String.String c x :: r | [] => [String.String c ""] end
  end.

Fixpoint trim_start (s : string) : string :=
  match s with String.String c s' => if is_space c then trim_start s' else s | _ => s end.

(** White space at the end is white space up to the end. *)
Fixpoint trim_end (s : string) : string :=
  match s with
  | String.EmptyString => ""
  | String.String c s' => match trim_end s' with "" => if is_space c then "" else String.String c "" | r => String.String c r end
  end.

Definition trim (s : string) : string := trim_end (trim_start s).

Definition parseCsv (value : option string) : option (list string) :=
  match value with
  | None | Some "" => None
  | Some v => Some (List.filter (fun p => negb (String.eqb p "")) (trim <$> split_commas v))
  end.

Definition digit (c : Ascii.ascii) : option Z :=
  let n := Z.of_N (char_code c) in if ((48 <=? n) && (n <=? 57))%Z then Some (n - 48)%Z else None.

(** The value of the leading digits, when there are any. *)
Fixpoint digits (acc : option Z) (s : string) : option Z :=
  match s with
  | String.String c s' => match digit c with Some d => digits (Some (10 * default 0 acc + d)%Z) s' | None => acc end
  | _ => acc
  end.

(** [parseInt(value, 10)]: white space, a sign and the leading digits; [None] is [NaN]. *)
Definition parseInt (s : string) : option Z :=
  match trim_start s with
  | String.String "-"%char s' => Z.opp <$> digits None s'
  | String.String "+"%char s' => digits None s'
  | s' => digits None s'
  end.

(** An integer from here on is rounded to infinity. *)
Definition infinite_from : Z := 2 ^ 1024 - 2 ^ 970.

Definition parsePositiveInt (value : option string) (fallback : Z) : Z :=
  match value with
  | None | Some "" => fallback
  | Some v =>
      match parseInt v with
      | Some n => if (0 <? n)%Z && (n <? infinite_from)%Z then n else fallback
      | None => fallback
      end
  end.

(** [env.X || fallback] and [env.X ?? fallback] *)
Definition or_default (v : option string) (fallback : string) : string :=
  match v with None | Some "" => fallback | Some s => s end.
Definition nullish_default (v : option string) (fallback : string) : string := default fallback v.

Definition loadConfig (env : string -> option string) : RelayConfig :=
  let wsPort := or_default (env "WS_PORT") DEFAULT_WS_PORT in
  let tcpPort := or_default (env "TCP_PORT") DEFAULT_TCP_PORT in
  Config PUBSUB_PEER_DISCOVERY_TOPIC
    (or_default (env "DOCUMENT_PUBLISH_PATH") DEFAULT_DOCUMENT_PUBLISH_PATH)
    (or_default (env "WS_LISTEN") ("/ip4/0.0.0.0/tcp/" +:+ wsPort +:+ "/ws"))
    (or_default (env "TCP_LISTEN") ("/ip4/0.0.0.0/tcp/" +:+ tcpPort))
    (bool_decide (env "ENABLE_IPV6" = Some "1"))
    (nullish_default (env "WS_LISTEN_V6") ("/ip6/::/tcp/" +:+ wsPort +:+ "/ws"))
    (nullish_default (env "TCP_LISTEN_V6") ("/ip6/::/tcp/" +:+ tcpPort))
    (parseCsv (env "TOPIC_ALLOWLIST"))
    (parsePositiveInt (env "MAX_AUTO_TOPICS") DEFAULT_MAX_AUTO_TOPICS)
    (default [] (parseCsv (env "EXTRA_TOPICS"))).

Definition listenAddresses (config : RelayConfig) : list string :=
  [wsListen config; tcpListen config] ++
  (if ipv6Enabled config
   then List.filter (fun addr => negb (String.eqb addr "")) [wsListenV6 config; tcpListenV6 config]
   else []).

(** ** The decision *)

Inductive AutoSubscribeSkipReason := AlreadyTracked | SystemTopic | NotInAllowlist | CapReached.
#[export] Instance skip_reason_eq_dec : EqDecision AutoSubscribeSkipReason.
Proof. solve_decision. Defined.

Inductive AutoSubscribeDecision := Subscribe | Skip (reason : AutoSubscribeSkipReason).
#[export] Instance decision_eq_dec : EqDecision AutoSubscribeDecision.
Proof. solve_decision. Defined.

Record AutoSubscribePolicy := Policy {
  allowlist : option (list string);
  p_maxAutoTopics : num;
  autoTopicCount : num;
  isTracked : string -> bool;
  systemTopicPrefixes : option (list string);
}.

(** [topic.startsWith(prefix)] *)
Definition startsWith (topic prefix : string) : bool := String.prefix prefix topic.

Definition counter_ok (n : num) : bool := match n with Fin _ => negb (num_lt n 0%Z) | _ => false end.

Definition shouldAutoSubscribe (topic : string) (policy : AutoSubscribePolicy) : result AutoSubscribeDecision :=
  if negb (counter_ok (p_maxAutoTopics policy)) || negb (counter_ok (autoTopicCount policy))
  then throw "AutoSubscribePolicy counters must be finite, non-negative numbers"
  else if isTracked policy topic then Ok (Skip AlreadyTracked)
  else if existsb (startsWith topic) (default SYSTEM_TOPIC_PREFIXES (systemTopicPrefixes policy)) then Ok (Skip SystemTopic)
  else if match allowlist policy with Some l => negb (existsb (startsWith topic) l) | None => false end then Ok (Skip NotInAllowlist)
  else if num_le (p_maxAutoTopics policy) (autoTopicCount policy) then Ok (Skip CapReached)
  else Ok Subscribe.

(** ** The topics of a running relay *)

Record relay := mk_relay {
  trackedTopics : list string;
  autoTopics : list string;
  subscribed : list string;
}.

#[export] Instance settable_relay : Settable relay := fun s => mk_relay (trackedTopics s) (autoTopics s) (subscribed s).

Definition set_delete (x : string) (l : list string) : list string := List.filter (fun y => negb (String.eqb y x)) l.
Arguments set_delete : simpl never.

Definition pubsub_subscribe (topic : string) (s : relay) : relay := s <| subscribed := set_add topic (subscribed s) |>.
Definition pubsub_unsubscribe (topic : string) (s : relay) : relay := s <| subscribed := set_delete topic (subscribed s) |>.

(** One of the [subscriptions] of an event. *)
Record subscription := Sub { s_topic : string; s_subscribe : bool }.

Section Running.
  Context (config : RelayConfig).

(** One step of the first listener. *)
Definition follow (s : relay) (sub : subscription) : result relay :=
  if negb (s_subscribe sub) then Ok s
  else
    let topic := s_topic sub in
    let? decision := shouldAutoSubscribe topic
      (Policy (topicAllowlist config) (maxAutoTopics config) (Z.of_nat (length (autoTopics s)))
         (fun t => set_has t (trackedTopics s)) None) in
    match decision with
    | Skip _ => Ok s
    | Subscribe =>
        Ok (pubsub_subscribe topic (s <| trackedTopics := set_add topic (trackedTopics s) |> <| autoTopics := set_add topic (autoTopics s) |>))
    end.

(** One step of the second listener; [getSubscribers] is [None] when the method is missing. *)
Definition leave (getSubscribers : string -> option nat) (s : relay) (sub : subscription) : relay :=
  let topic := s_topic sub in
  if s_subscribe sub || negb (set_has topic (autoTopics s)) then s
  else match getSubscribers topic with
       | Some 0 => pubsub_unsubscribe topic (s <| trackedTopics := set_delete topic (trackedTopics s) |> <| autoTopics := set_delete topic (autoTopics s) |>)
       | _ => s
       end.

Fixpoint follow_all (s : relay) (subs : list subscription) : result relay :=
  match subs with
  | [] => Ok s
  | sub :: subs' => let? s' := follow s sub in follow_all s' subs'
  end.

(** A [subscription-change] event: both listeners, in the order of their registration. *)
Record event := Event { e_subscriptions : list subscription; e_getSubscribers : string -> option nat }.

Definition handle (s : relay) (e : event) : result relay :=
  let? s' := follow_all s (e_subscriptions e) in
  Ok (foldl (leave (e_getSubscribers e)) s' (e_subscriptions e)).

Fixpoint handle_all (s : relay) (es : list event) : result relay :=
  match es with
  | [] => Ok s
  | e :: es' => let? s' := handle s e in handle_all s' es'
  end.

Definition subscribe_extra (s : relay) (topic : string) : relay :=
  if set_has topic (trackedTopics s) then s else pubsub_subscribe topic (s <| trackedTopics := set_add topic (trackedTopics s) |>).

(** What [main] does before the first event. *)
Definition start : relay :=
  let seeds := set_of_list [peerDiscoveryTopic config; documentPublishPath config] in
  let s := pubsub_subscribe (documentPublishPath config) (pubsub_subscribe (peerDiscoveryTopic config) (mk_relay [] [] [])) in
  foldl subscribe_extra (s <| trackedTopics := seeds |>) (extraTopics config).

(** ** What the relay follows *)

Definition permanent : list string := peerDiscoveryTopic config :: documentPublishPath config :: extraTopics config.

(** The topics that may be followed. *)
Definition eligible (topic : string) : bool :=
  negb (existsb (startsWith topic) SYSTEM_TOPIC_PREFIXES) &&
  match topicAllowlist config with Some l => existsb (startsWith topic) l | None => true end.

Record relay_ok (s : relay) : Prop := {
  ro_subscribed t : t ∈ subscribed s <-> t ∈ trackedTopics s;
  ro_tracked t : t ∈ trackedTopics s <-> t ∈ permanent \/ t ∈ autoTopics s;
  ro_apart t : t ∈ autoTopics s -> t ∉ permanent;
  ro_eligible t : t ∈ autoTopics s -> eligible t = true;
  ro_distinct : NoDup (trackedTopics s) /\ NoDup (autoTopics s) /\ NoDup (subscribed s);
  ro_cap : (Z.of_nat (length (autoTopics s)) <= maxAutoTopics config)%Z;
}.

Lemma counter_ok_Z (n : Z) : counter_ok n = (0 <=? n)%Z.
Proof. change (counter_ok n) with (negb (num_lt n 0%Z)). rewrite num_lt_Z. destruct (Z.ltb_spec n 0), (Z.leb_spec 0 n); lia || done. Qed.

(** The decision of the running relay. *)
Lemma decide_topic (s : relay) topic : (0 <= maxAutoTopics config)%Z ->
  shouldAutoSubscribe topic (Policy (topicAllowlist config) (maxAutoTopics config) (Z.of_nat (length (autoTopics s))) (fun t => set_has t (trackedTopics s)) None) =
  Ok (if bool_decide (topic ∈ trackedTopics s) then Skip AlreadyTracked
      else if existsb (startsWith topic) SYSTEM_TOPIC_PREFIXES then Skip SystemTopic
      else if negb (eligible topic) then Skip NotInAllowlist
      else if (maxAutoTopics config <=? Z.of_nat (length (autoTopics s)))%Z then Skip CapReached
      else Subscribe).
Proof.
  intros Hm. unfold shouldAutoSubscribe, eligible. cbn [p_maxAutoTopics autoTopicCount isTracked systemTopicPrefixes allowlist default].
  rewrite !counter_ok_Z, num_le_Z. rewrite (proj2 (Z.leb_le _ _) Hm), (proj2 (Z.leb_le 0 (Z.of_nat (length (autoTopics s))))) by lia. cbn [negb orb].
  unfold set_has. case_bool_decide; [done|]. change (default SYSTEM_TOPIC_PREFIXES None) with SYSTEM_TOPIC_PREFIXES.
  destruct (existsb _ SYSTEM_TOPIC_PREFIXES); [done|]. cbn [negb andb]. destruct (topicAllowlist config) as [l|]; [destruct (existsb (startsWith topic) l)|]; cbn [negb];
    try done; by destruct (_ <=? _)%Z.
Qed.

Lemma elem_of_set_delete x y l : y ∈ set_delete x l <-> y <> x /\ y ∈ l.
Proof. unfold set_delete. rewrite list_elem_of_In, filter_In, <- list_elem_of_In, negb_true_iff, String.eqb_neq. tauto. Qed.

Lemma NoDup_set_delete x l : NoDup l -> NoDup (set_delete x l).
Proof. intros H. eapply sublist_NoDup; [done|apply list_filter_sublist]. Qed.

Lemma length_set_delete x l : length (set_delete x l) <= length l.
Proof. apply sublist_length, list_filter_sublist. Qed.

Lemma follow_ok s sub : (0 <= maxAutoTopics config)%Z -> relay_ok s -> exists s', follow s sub = Ok s' /\ relay_ok s'.
Proof.
  intros Hm Hs. unfold follow. destruct (s_subscribe sub); [|by exists s]. cbn [negb]. rewrite decide_topic by done. set (topic := s_topic sub).
  case_bool_decide as Ht; [by exists s|]. destruct (existsb (startsWith topic) SYSTEM_TOPIC_PREFIXES); [by exists s|].
  destruct (eligible topic) eqn:He; [|by exists s]. cbn [negb]. destruct (Z.leb_spec (maxAutoTopics config) (Z.of_nat (length (autoTopics s)))); [by exists s|].
  eexists. split; [done|]. destruct Hs as [H1 H2 H3 H4 (H5 & H6 & H7) H8].
  split; cbn; intros; rewrite ?elem_of_set_add in *.
  - by rewrite H1.
  - rewrite H2. tauto.
  - destruct H0 as [->|H0]; [|by apply H3]. intros Hp. apply Ht, H2. by left.
  - destruct H0 as [->|H0]; [done|by apply H4].
  - split_and!; by apply NoDup_set_add.
  - rewrite set_add_notin, length_app by (intros Hin; apply Ht, H2; by right). cbn. lia.
Qed.

Lemma leave_ok g s sub : relay_ok s -> relay_ok (leave g s sub).
Proof.
  intros Hs. unfold leave. destruct (s_subscribe sub); [done|]. unfold set_has. case_bool_decide as Ht; [|done]. cbn [orb negb].
  destruct (g (s_topic sub)) as [[|n]|]; [|done..]. destruct Hs as [H1 H2 H3 H4 (H5 & H6 & H7) H8]. pose proof (H3 _ Ht) as Hp.
  split; cbn; intros; rewrite ?elem_of_set_delete in *.
  - by rewrite H1.
  - rewrite H2. destruct (decide (t = s_topic sub)) as [->|]; tauto.
  - apply H3. tauto.
  - apply H4. tauto.
  - split_and!; by apply NoDup_set_delete.
  - pose proof (length_set_delete (s_topic sub) (autoTopics s)). lia.
Qed.

Lemma handle_ok s e : (0 <= maxAutoTopics config)%Z -> relay_ok s -> exists s', handle s e = Ok s' /\ relay_ok s'.
Proof.
  intros Hm Hs. unfold handle. assert (Hf : exists s1, follow_all s (e_subscriptions e) = Ok s1 /\ relay_ok s1).
  { revert s Hs. induction (e_subscriptions e) as [|sub subs IH]; intros s Hs; cbn [follow_all]; [by exists s|]. destruct (follow_ok s sub Hm Hs) as (s1 & -> & H1). by apply IH. }
  destruct Hf as (s1 & -> & H1). eexists. split; [done|]. revert s1 H1. induction (e_subscriptions e) as [|sub subs IH]; intros s1 H1; [done|]. cbn. by apply IH, leave_ok.
Qed.

(** Before the first event the relay follows [topics] and nothing else. *)
Record started (topics : list string) (s : relay) : Prop := {
  st_subscribed t : t ∈ subscribed s <-> t ∈ trackedTopics s;
  st_tracked t : t ∈ trackedTopics s <-> t ∈ topics;
  st_auto : autoTopics s = [];
  st_distinct : NoDup (trackedTopics s) /\ NoDup (subscribed s);
}.

Lemma extra_started topics s x : started topics s -> started (topics ++ [x]) (subscribe_extra s x).
Proof.
  intros [H1 H2 H3 [H4 H5]]. unfold subscribe_extra, set_has. case_bool_decide as Hx.
  - split; try done. intros t. rewrite elem_of_app, list_elem_of_singleton, H2. apply H2 in Hx. split; [by left|]. by intros [?| ->].
  - split; cbn; try done.
    + intros t. by rewrite !elem_of_set_add, H1.
    + intros t. rewrite elem_of_set_add, elem_of_app, list_elem_of_singleton, H2. tauto.
    + split; by apply NoDup_set_add.
Qed.

Lemma start_ok : (0 <= maxAutoTopics config)%Z -> relay_ok start.
Proof.
  intros Hm. assert (H : started permanent start).
  { unfold start, permanent. cbv zeta. set (s := _ <| trackedTopics := _ |>).
    assert (H0 : started [peerDiscoveryTopic config; documentPublishPath config] s).
    { change s with (mk_relay (set_of_list [peerDiscoveryTopic config; documentPublishPath config]) []
        (set_add (documentPublishPath config) (set_add (peerDiscoveryTopic config) []))). split; cbn [subscribed trackedTopics autoTopics]; try done.
      - intros t. by rewrite elem_of_set_of_list.
      - split; [apply NoDup_set_of_list|]. repeat apply NoDup_set_add. constructor. }
    clearbody s. change (peerDiscoveryTopic config :: documentPublishPath config :: extraTopics config) with ([peerDiscoveryTopic config; documentPublishPath config] ++ extraTopics config).
    revert s H0. generalize [peerDiscoveryTopic config; documentPublishPath config]. induction (extraTopics config) as [|x extra IH]; intros topics s H0; cbn [foldl]; [by rewrite app_nil_r|].
    replace (topics ++ x :: extra) with ((topics ++ [x]) ++ extra) by (by rewrite <- app_assoc). by apply IH, extra_started. }
  destruct H as [H1 H2 H3 [H4 H5]]. split; rewrite ?H3.
  - done.
  - intros t. rewrite H2, elem_of_nil. tauto.
  - by intros t ?%elem_of_nil.
  - by intros t ?%elem_of_nil.
  - split_and!; [done|constructor|done].
  - done.
Qed.

Lemma handle_all_ok es s : (0 <= maxAutoTopics config)%Z -> relay_ok s -> exists s', handle_all s es = Ok s' /\ relay_ok s'.
Proof.
  intros Hm. revert s. induction es as [|e es IH]; intros s Hs; cbn [handle_all]; [by exists s|]. destruct (handle_ok s e Hm Hs) as (s1 & -> & H1). by apply IH.
Qed.

End Running.

Lemma parsePositiveInt_pos v fallback : (0 < fallback)%Z -> (0 < parsePositiveInt v fallback)%Z.
Proof.
  intros H. unfold parsePositiveInt. destruct v as [[|c v]|]; try done. destruct (parseInt _) as [n|]; [|done].
  destruct (Z.ltb_spec 0 n); [|done]. cbn. by destruct (n <? infinite_from)%Z.
Qed.

(** C33. The relay keeps its limits: whatever the environment says and whatever peers
    subscribe to, no event throws; the topics it is subscribed to are the permanent ones,
    which are never left, and those it follows for peers, which are at most the configured
    number, none of them a system topic or outside of the allowlist. *)
Theorem relay_invariant env es :
  let config := loadConfig env in
  exists s, handle_all config (start config) es = Ok s /\
    (forall t, t ∈ subscribed s <-> t ∈ permanent config \/ t ∈ autoTopics s) /\
    (forall t, t ∈ autoTopics s -> t ∉ permanent config /\ eligible config t = true) /\
    NoDup (autoTopics s) /\ (Z.of_nat (length (autoTopics s)) <= maxAutoTopics config)%Z.
Proof.
  intros config. assert (Hm : (0 <= maxAutoTopics config)%Z) by (pose proof (parsePositiveInt_pos (env "MAX_AUTO_TOPICS") DEFAULT_MAX_AUTO_TOPICS ltac:(done)); cbn; lia).
  destruct (handle_all_ok config es (start config) Hm (start_ok config Hm)) as (s & E & [H1 H2 H3 H4 (H5 & H6 & H7) H8]).
  exists s. split_and!; try done; [intros t; by rewrite H1, H2|]. intros t Ht. split; [by apply H3|by apply H4].
Qed.

(** A topic that a peer subscribes to is followed when it is eligible and there is room,
    and left when the last peer has left it. *)
Theorem topic_lifecycle config es s topic :
  (0 <= maxAutoTopics config)%Z -> handle_all config (start config) es = Ok s ->
  eligible config topic = true -> (Z.of_nat (length (autoTopics s)) < maxAutoTopics config)%Z -> topic ∉ permanent config ->
  exists s1 s2, handle config s (Event [Sub topic true] (fun _ => Some 1)) = Ok s1 /\ topic ∈ subscribed s1 /\
    handle config s1 (Event [Sub topic false] (fun _ => Some 0)) = Ok s2 /\ topic ∉ subscribed s2.
Proof.
  intros Hm E He Hr Hp. destruct (handle_all_ok config es (start config) Hm (start_ok config Hm)) as (s' & E' & Hok). rewrite E in E'. injection E' as <-.
  destruct (handle_ok config s (Event [Sub topic true] (fun _ => Some 1)) Hm Hok) as (s1 & E1 & H1).
  destruct (handle_ok config s1 (Event [Sub topic false] (fun _ => Some 0)) Hm H1) as (s2 & E2 & H2).
  assert (Hin : topic ∈ autoTopics s1).
  { revert E1. unfold handle. cbn [e_subscriptions follow_all foldl]. unfold follow. cbn [s_subscribe negb s_topic]. rewrite decide_topic, He by done.
    assert (existsb (startsWith topic) SYSTEM_TOPIC_PREFIXES = false) as -> by (revert He; unfold eligible; by destruct (existsb _ SYSTEM_TOPIC_PREFIXES)).
    cbn [negb]. rewrite (proj2 (Z.leb_gt _ _) Hr). case_bool_decide as Ht; cbn; intros [= <-]; [|apply elem_of_set_add; by left].
    destruct Hok as [_ Htr _ _ _ _]. apply Htr in Ht as [?|]; done. }
  exists s1, s2. split_and!; [done| |done|].
  - destruct H1 as [Hs Ht _ _ _ _]. apply Hs, Ht. by right.
  - destruct H2 as [Hs Ht _ _ _ _]. rewrite Hs, Ht. intros [?|Hin2]; [done|]. revert E2 Hin2. unfold handle. cbn [e_subscriptions follow_all foldl]. unfold follow. cbn [s_subscribe negb].
    unfold leave. cbn [s_subscribe s_topic orb e_getSubscribers]. unfold set_has. rewrite bool_decide_true by done. cbn [negb]. intros [= <-]. cbn. rewrite elem_of_set_delete. tauto.
Qed.

(** A list that is set but holds nothing keeps the relay closed. *)
Theorem blank_allowlist_closed env v topic : env "TOPIC_ALLOWLIST" = Some v -> v <> "" ->
  parseCsv (Some v) = Some [] -> eligible (loadConfig env) topic = false.
Proof. intros E _ Hv. unfold eligible, loadConfig. cbn [topicAllowlist]. rewrite E, Hv. cbn. by rewrite andb_false_r. Qed.

Lemma topic_lifecycle_witness :
  exists s1 s2, handle (loadConfig (fun _ => None)) (start (loadConfig (fun _ => None))) (Event [Sub "/document/a" true] (fun _ => Some 1)) = Ok s1 /\
    "/document/a" ∈ subscribed s1 /\
    handle (loadConfig (fun _ => None)) s1 (Event [Sub "/document/a" false] (fun _ => Some 0)) = Ok s2 /\ "/document/a" ∉ subscribed s2.
Proof.
  apply (topic_lifecycle _ []); [by vm_compute|reflexivity|by vm_compute|by vm_compute|]. apply (bool_decide_unpack _). by vm_compute.
Defined.

Example csv_blank : parseCsv (Some " , ") = Some [].
Proof. reflexivity. Qed.

(** The leading digits count, whatever follows them. *)
Example leading_digits : parsePositiveInt (Some "10abc") 1000 = 10%Z /\ parsePositiveInt (Some "1e3") 1000 = 1%Z /\ parsePositiveInt (Some "-5") 1000 = 1000%Z.
Proof. split_and!; reflexivity. Qed.

End Relay.
