(* ===== verification/Epoch.v ===== *)
(** * Epochs

    Models [packages/collabswarm/src/epoch.ts]: epoch identifiers, secrets and keys, and
    the manager that chains epochs. A [Uint8Array] is a view of a buffer here, because the
    code hands the whole buffer of an array to WebCrypto. A transition runs from its call to
    its end; two that overlap would take the same epoch for their parent, and are not
    represented. *)
From stdpp Require Import base numbers list list_numbers strings sets.
From Stdlib Require Import ZArith Lia.
From S2P Require Import Prelude TipsHash Auth Keychain KeychainTheory.

Open Scope string_scope.
Open Scope list_scope.
Open Scope nat_scope.

Module Epoch.
Import Auth.

Definition EPOCH_ID_LENGTH : Z := 32.
Definition GCM_NONCE_LENGTH : Z := 12.
Definition EPOCH_SECRET_INFO : string := "swarmdb-epoch-v1".

Definition ENCRYPTION_KEY_INFO (a : AesAlgorithmName) : string :=
  match a with AES_GCM => "aes-gcm-key" | AES_CTR => "aes-ctr-key" | AES_CBC => "aes-cbc-key" end.

(** ** Arrays *)

(** A [Uint8Array]: some of the bytes of a buffer. *)
Record view := View { v_buffer : bytes; v_offset : nat; v_length : nat }.

Definition content (a : view) : bytes := take (v_length a) (drop (v_offset a) (v_buffer a)).

(** An array with a buffer of its own. *)
Definition owned (b : bytes) : view := View b 0 (length b).

Lemma content_owned b : content (owned b) = b.
Proof. unfold content, owned. cbn. rewrite drop_0. apply take_ge. lia. Qed.

(** [toHex] *)
Definition toHex (a : view) : string := Keychain.toHex (content a).

(** ** The calls of WebCrypto *)

Class EpochCrypto (Key : Type) := {
  digest : bytes -> bytes;
  (** input key material, salt, info and the number of bits *)
  deriveBits : bytes -> bytes -> string -> Z -> bytes;
  (** input key material, salt, info, algorithm and whether the key can be extracted *)
  deriveKey : bytes -> bytes -> string -> AesAlgorithmName -> bool -> Key;
}.

Section Epochs.
  Context {Key : Type} `{EC : !EpochCrypto Key}.

Definition generateEpochId (groupSecret : view) (parentEpochId : option view) : view :=
  let input := match parentEpochId with Some p => owned (content groupSecret ++ content p) | None => groupSecret end in
  owned (digest (v_buffer input)).

Definition deriveEpochSecret (groupKeyAgreementOutput epochId : view) : view :=
  owned (deriveBits (v_buffer groupKeyAgreementOutput) (v_buffer epochId) EPOCH_SECRET_INFO 256).

Definition deriveEncryptionKey (epochSecret : view) (algorithmName : AesAlgorithmName) : Key :=
  deriveKey (v_buffer epochSecret) [] (ENCRYPTION_KEY_INFO algorithmName) algorithmName (match algorithmName with AES_GCM => false | _ => true end).

Record epoch := mk_epoch {
  e_id : view;
  encryptionKey : Key;
  memberHashes : list string;
  e_parent : option view;
  createdAt : Z;
}.

Definition createEpoch (groupSecret : view) (members : list string) (parentEpochId : option view) (algorithmName : AesAlgorithmName) (now : Z) : epoch :=
  let epochId := generateEpochId groupSecret parentEpochId in
  let epochSecret := deriveEpochSecret groupSecret epochId in
  let encryptionKey := deriveEncryptionKey epochSecret algorithmName in
  mk_epoch epochId encryptionKey (set_of_list members) parentEpochId now.

(** ** The manager *)

Record EpochManager := Manager {
  _epochs : list (string * epoch);
  _currentEpochId : option view;
}.

#[export] Instance settable_manager : Settable EpochManager := fun m => Manager (_epochs m) (_currentEpochId m).

Definition newManager : EpochManager := Manager [] None.

Definition currentEpoch (m : EpochManager) : option epoch :=
  match _currentEpochId m with None => None | Some id => map_get (toHex id) (_epochs m) end.

Definition addEpoch (e : epoch) (m : EpochManager) : EpochManager :=
  m <| _epochs := map_set (toHex (e_id e)) e (_epochs m) |> <| _currentEpochId := Some (e_id e) |>.

Definition getEpoch (epochId : view) (m : EpochManager) : option epoch := map_get (toHex epochId) (_epochs m).

Definition epochs (m : EpochManager) : list epoch := (_epochs m).*2.

Inductive TransitionReason := member_added | member_removed | key_update.

Record EpochTransition := Transition { t_epoch : epoch; t_reason : TransitionReason; t_affectedMember : option string }.

Definition transitionEpoch (groupSecret : view) (members : list string) (reason : TransitionReason)
    (affectedMember : option string) (algorithmName : option AesAlgorithmName) (now : Z) (m : EpochManager) : EpochTransition * EpochManager :=
  let e := createEpoch groupSecret members (_currentEpochId m) (default AES_GCM algorithmName) now in
  (Transition e reason affectedMember, addEpoch e m).

(** ** Chains *)

Record step := Step { s_secret : view; s_members : list string; s_algorithm : option AesAlgorithmName; s_now : Z }.

Definition run_step (m : EpochManager) (s : step) : EpochManager :=
  (transitionEpoch (s_secret s) (s_members s) key_update None (s_algorithm s) (s_now s) m).2.

(** The epochs that the steps make, each the child of the one before. *)
Fixpoint chain (parent : option view) (steps : list step) : list epoch :=
  match steps with
  | [] => []
  | s :: steps' =>
      let e := createEpoch (s_secret s) (s_members s) parent (default AES_GCM (s_algorithm s)) (s_now s) in
      e :: chain (Some (e_id e)) steps'
  end.

Fixpoint linked (parent : option view) (es : list epoch) : Prop :=
  match es with [] => True | e :: es' => e_parent e = parent /\ linked (Some (e_id e)) es' end.

Lemma chain_linked parent steps : linked parent (chain parent steps).
Proof. revert parent. induction steps as [|s steps IH]; intros parent; [done|]. cbn. split; [done|apply IH]. Qed.

Lemma run_chain steps m : NoDup ((_epochs m).*1 ++ ((fun e => toHex (e_id e)) <$> chain (_currentEpochId m) steps)) ->
  let m' := foldl run_step m steps in
  _epochs m' = _epochs m ++ ((fun e => (toHex (e_id e), e)) <$> chain (_currentEpochId m) steps) /\
  _currentEpochId m' = from_option (fun e => Some (e_id e)) (_currentEpochId m) (last (chain (_currentEpochId m) steps)).
Proof.
  revert m. induction steps as [|s steps IH]; intros m Hnd; cbn [foldl chain]; [by rewrite app_nil_r|].
  set (e := createEpoch _ _ _ _ _) in *. assert (Hnew : toHex (e_id e) ∉ (_epochs m).*1).
  { apply NoDup_app in Hnd as (_ & H & _). intros Hin. apply (H _ Hin). cbn [chain fmap list_fmap]. left. }
  assert (Em : run_step m s = Manager (_epochs m ++ [(toHex (e_id e), e)]) (Some (e_id e))).
  { unfold run_step, transitionEpoch, addEpoch. cbn [snd]. fold e. cbn. by rewrite map_set_notin. }
  rewrite Em. destruct (IH (Manager (_epochs m ++ [(toHex (e_id e), e)]) (Some (e_id e)))) as [H1 H2].
  { cbn [_epochs _currentEpochId]. rewrite fmap_app. cbn. rewrite <- app_assoc. exact Hnd. }
  cbn [_epochs _currentEpochId] in H1, H2. split; [rewrite H1; by rewrite <- app_assoc|]. rewrite H2.
  rewrite last_cons. by destruct (last (chain (Some (e_id e)) steps)).
Qed.

(** C37. The epochs of a manager are a chain: after any sequence of transitions whose
    identifiers do not collide, the epochs are kept in the order of the transitions, each
    with the one before as its parent, each is found under its identifier, and the current
    one is the last. *)
Theorem epoch_chain (steps : list step) : let es := chain None steps in let m := foldl run_step newManager steps in
  NoDup ((fun e => content (e_id e)) <$> es) ->
  epochs m = es /\ linked None es /\ currentEpoch m = last es /\ forall e, e ∈ es -> getEpoch (e_id e) m = Some e.
Proof.
  intros es m Hnd. destruct (run_chain steps newManager) as [H1 H2].
  { cbn. replace ((fun e => toHex (e_id e)) <$> chain None steps) with (Keychain.toHex <$> ((fun e => content (e_id e)) <$> chain None steps)) by (by rewrite <- list_fmap_compose).
    apply NoDup_fmap_2; [exact KeychainTheory.toHex_inj|done]. }
  cbn in H1, H2. fold es m in H1, H2. assert (Hget : forall e, e ∈ es -> getEpoch (e_id e) m = Some e).
  { intros e He. unfold getEpoch. rewrite H1. apply elem_of_map_get; [|apply list_elem_of_fmap; by exists e].
    rewrite <- list_fmap_compose. replace (fst ∘ _) with (Keychain.toHex ∘ (fun e => content (e_id e))) by done. rewrite list_fmap_compose. apply NoDup_fmap_2; [exact KeychainTheory.toHex_inj|done]. }
  split_and!; [|apply chain_linked| |done].
  - unfold epochs. rewrite H1, <- list_fmap_compose. apply list_fmap_id.
  - unfold currentEpoch. rewrite H2. destruct (last es) as [e|] eqn:El; [|done]. cbn. apply Hget. by apply last_Some_elem_of.
Qed.

(** Members agree on an epoch: from arrays with buffers of their own and the same
    bytes, on top of the same parent, the identifier and the key are the same; with a
    parent, the identifier is the hash of the secret and the parent's identifier, however
    the arrays lie in their buffers. *)
Theorem epoch_agreement (secret secret' : bytes) parent parent' algorithm now now' members :
  secret = secret' -> content <$> parent = content <$> parent' ->
  let e := createEpoch (owned secret) members parent algorithm now in
  let e' := createEpoch (owned secret') members parent' algorithm now' in
  e_id e = e_id e' /\ encryptionKey e = encryptionKey e' /\
  content (e_id e) = digest (secret ++ default [] (content <$> parent)).
Proof.
  intros <- Hp e e'. unfold e, e', createEpoch. cbn [e_id encryptionKey]. clear e e'. assert (Hid : generateEpochId (owned secret) parent = generateEpochId (owned secret) parent').
  { unfold generateEpochId. destruct parent as [p|], parent' as [p'|]; try done. cbn in Hp. injection Hp as Hp. by rewrite Hp. }
  split_and!; [done|by rewrite Hid|]. unfold generateEpochId. rewrite !content_owned. destruct parent as [p|]; cbn [v_buffer owned fmap option_fmap option_map default]; by rewrite ?content_owned, ?app_nil_r.
Qed.

(** The same bytes as part of a larger buffer: the first epoch is hashed from the whole
    buffer. *)
Theorem first_epoch_hashes_buffer (secret : view) : content (generateEpochId secret None) = digest (v_buffer secret).
Proof. apply content_owned. Qed.

End Epochs.

(** ** Two members with the same secret *)

#[local] Instance plain_crypto : EpochCrypto bytes := {
  digest b := b;
  deriveBits ikm salt info n := ikm ++ salt;
  deriveKey ikm salt info a x := ikm;
}.

Definition in_message : view := View [Init.Byte.x00; Init.Byte.x07; Init.Byte.x08; Init.Byte.x00] 1 2.

(** One member has the secret in an array of its own, the other as part of a message. *)
Theorem epochs_differ :
  content in_message = content (owned [Init.Byte.x07; Init.Byte.x08]) /\
  e_id (createEpoch (Key := bytes) in_message [] None AES_GCM 0) <> e_id (createEpoch (Key := bytes) (owned [Init.Byte.x07; Init.Byte.x08]) [] None AES_GCM 0).
Proof. split; [reflexivity|]. vm_compute. discriminate. Qed.

Lemma epoch_chain_witness :
  let steps := [Step (owned [Init.Byte.x01]) ["a"] None 1; Step (owned [Init.Byte.x02]) ["a"; "b"] (Some AES_CTR) 2] in
  let es := chain (Key := bytes) None steps in let m := foldl run_step newManager steps in
  epochs m = es /\ linked None es /\ currentEpoch m = last es /\ forall e, e ∈ es -> getEpoch (e_id e) m = Some e.
Proof. apply (epoch_chain (Key := bytes)). apply (bool_decide_unpack _). by vm_compute. Defined.

Lemma epoch_agreement_witness :
  let e := createEpoch (Key := bytes) (owned [Init.Byte.x01]) [] (Some in_message) AES_GCM 1 in
  let e' := createEpoch (Key := bytes) (owned [Init.Byte.x01]) [] (Some (owned [Init.Byte.x07; Init.Byte.x08])) AES_GCM 2 in
  e_id e = e_id e' /\ encryptionKey e = encryptionKey e' /\ content (e_id e) = digest [Init.Byte.x01; Init.Byte.x07; Init.Byte.x08].
Proof. apply (epoch_agreement (Key := bytes) [Init.Byte.x01] [Init.Byte.x01] (Some in_message) (Some (owned [Init.Byte.x07; Init.Byte.x08])) AES_GCM 1 2 []); reflexivity. Defined.

End Epoch.
