(* ===== verification/BlindIndex.v ===== *)
(** * Blind indexes

    Models [collabswarm-index/src/subtle-blind-index-provider.ts] and
    [blind-index-query.ts]: tokens that stand for field values in a change block, and the
    queries that compare them. A string is a list of characters below 256; WebCrypto and the
    text of a number are parameters. *)
From stdpp Require Import base numbers list list_numbers strings sets.
From Stdlib Require Import ZArith Lia Ascii QArith.
From S2P Require Import Prelude TipsHash Base64 Relay.

Open Scope string_scope.
Open Scope list_scope.
Open Scope nat_scope.

Module BlindIndex.

(** ** Text *)

(** Characters below 256: the letters of ASCII and Latin-1. *)
Definition lower_char (c : ascii) : ascii :=
  let n := Ascii.N_of_ascii c in
  if ((65 <=? n) && (n <=? 90) || ((192 <=? n) && (n <=? 222) && negb (n =? 215)))%N then Ascii.ascii_of_N (n + 32) else c.

Fixpoint toLowerCase (s : string) : string :=
  match s with String.EmptyString => "" | String.String c s' => String.String (lower_char c) (toLowerCase s') end.

(** [binary.replace(/\+/g, '-').replace(/\//g, '_')] *)
Definition url_char (c : ascii) : ascii :=
  if Ascii.eqb c "+"%char then "-"%char else if Ascii.eqb c "/"%char then "_"%char else c.

(** [.replace(/=+$/, '')] *)
Fixpoint drop_pads (l : list ascii) : list ascii :=
  match l with c :: l' => if Ascii.eqb c Base64.pad then drop_pads l' else l | [] => [] end.

Definition strip_pads (l : list ascii) : list ascii := rev (drop_pads (rev l)).

Definition base64url (b : bytes) : string :=
  String.string_of_list_ascii (strip_pads (url_char <$> String.list_ascii_of_string (Base64.uint8ArrayToBase64 b))).

(** ** The provider *)

Inductive field_value := Text (s : string) | Number (n : num).

Class BlindCrypto (MasterKey FieldKey : Type) := {
  exportRaw : MasterKey -> result bytes;
  hkdf : bytes -> bytes -> bytes -> FieldKey;
  hmac : FieldKey -> bytes -> bytes;
  number_text : num -> string;
}.

Section Provider.
  Context {MasterKey FieldKey : Type} `{BC : !BlindCrypto MasterKey FieldKey}.

Record SubtleBlindIndexProvider := Provider { _tokenLengthBytes : Z }.

Definition newProvider (tokenLengthBytes : num) : result SubtleBlindIndexProvider :=
  if negb (num_is_integer tokenLengthBytes) || num_le tokenLengthBytes 0%Z || num_lt 32%Z tokenLengthBytes then throw "RangeError"
  else match tokenLengthBytes with Fin q => Ok (Provider (Qround.Qfloor q)) | _ => throw "RangeError" end.

Definition blank (fieldPath : string) : bool := String.eqb (Relay.trim fieldPath) "".

Definition deriveFromRawBytes (raw : bytes) (fieldPath : string) : FieldKey :=
  hkdf raw (replicate 32 (byte_of_Z 0)) (TipsHash.utf8_encode fieldPath).

Definition deriveFieldKey (masterKey : MasterKey) (fieldPath : string) : result FieldKey :=
  if blank fieldPath then throw "fieldPath must be a non-empty string"
  else match exportRaw masterKey with
       | Ok rawMaster => Ok (deriveFromRawBytes rawMaster fieldPath)
       | Err _ => throw "Master key must be a raw-exportable secret key"
       end.

Definition deriveFieldKeyFromRaw (rawKeyMaterial : bytes) (fieldPath : string) : result FieldKey :=
  if blank fieldPath then throw "fieldPath must be a non-empty string"
  else if (Z.of_nat (length rawKeyMaterial) <? 16)%Z then throw "RangeError"
  else Ok (deriveFromRawBytes rawKeyMaterial fieldPath).

Definition normalize (value : field_value) : string :=
  match value with
  | Number n => "n:" +:+ number_text n
  | Text s => "s:" +:+ Relay.trim (toLowerCase s)
  end.

Definition truncateAndEncode (p : SubtleBlindIndexProvider) (b : bytes) : string := base64url (take (Z.to_nat (_tokenLengthBytes p)) b).

Definition computeToken (p : SubtleBlindIndexProvider) (fieldKey : FieldKey) (value : field_value) : string :=
  truncateAndEncode p (hmac fieldKey (TipsHash.utf8_encode (normalize value))).

Definition NUL : string := String.String Ascii.zero "".

(** [values.map(v => this._normalize(v)).join('\x00')] *)
Definition joined (values : list field_value) : string := String.concat NUL (normalize <$> values).

Definition computeCompoundToken (p : SubtleBlindIndexProvider) (fieldKey : FieldKey) (values : list field_value) : string :=
  truncateAndEncode p (hmac fieldKey (TipsHash.utf8_encode (joined values))).

(** ** Queries *)

Record BlindIndexEntry := Entry { documentPath : string; blindIndexTokens : list (string * string) }.

Definition has_token (name token : string) (entry : BlindIndexEntry) : bool := bool_decide (map_get name (blindIndexTokens entry) = Some token).

Definition exactMatch (p : SubtleBlindIndexProvider) (fieldKey : FieldKey) (fieldPath : string) (value : field_value) (entries : list BlindIndexEntry) : list BlindIndexEntry :=
  let queryToken := computeToken p fieldKey value in
  List.filter (has_token fieldPath queryToken) entries.

Definition compoundMatch (p : SubtleBlindIndexProvider) (fieldKey : FieldKey) (tokenKey : string) (values : list field_value) (entries : list BlindIndexEntry) : list BlindIndexEntry :=
  let queryToken := computeCompoundToken p fieldKey values in
  List.filter (has_token tokenKey queryToken) entries.

End Provider.

(** ** Tokens identify their bytes *)

Definition code_char (z : Z) : ascii := url_char (Base64.char_of z).

Definition sextet_ok (z : Z) : bool :=
  negb (Ascii.eqb (code_char z) Base64.pad) && forallb (fun y => negb (Ascii.eqb (code_char z) (code_char y)) || (y =? z)%Z) (Z.of_nat <$> seq 0 64).

Lemma sextets_ok : forallb sextet_ok (Z.of_nat <$> seq 0 64) = true.
Proof. vm_compute. reflexivity. Qed.

Lemma sextet_range z : Base64.six z -> In z (Z.of_nat <$> seq 0 64).
Proof. intros H. unfold Base64.six in H. apply list_elem_of_In, list_elem_of_fmap. exists (Z.to_nat z). split; [lia|]. apply list_elem_of_In, in_seq. lia. Qed.

Lemma code_char_facts z : Base64.six z -> code_char z <> Base64.pad /\ forall y, Base64.six y -> code_char z = code_char y -> z = y.
Proof.
  intros Hz. pose proof sextets_ok as H. rewrite forallb_forall in H. specialize (H z (sextet_range z Hz)). apply andb_true_iff in H as [H1 H2].
  split; [intros E; rewrite E, Ascii.eqb_refl in H1; done|]. intros y Hy E. rewrite forallb_forall in H2. specialize (H2 y (sextet_range y Hy)).
  rewrite E, Ascii.eqb_refl in H2. cbn in H2. apply Z.eqb_eq in H2. done.
Qed.

Lemma drop_pads_app l r : Forall (fun c => c = Base64.pad) l -> drop_pads (l ++ r) = drop_pads r.
Proof. induction 1 as [|c l -> Hl IH]; [done|]. cbn. done. Qed.

Lemma strip_pads_app l r : Forall (fun c => c <> Base64.pad) l -> Forall (fun c => c = Base64.pad) r -> strip_pads (l ++ r) = l.
Proof.
  intros Hl Hr. unfold strip_pads. rewrite rev_app_distr, drop_pads_app by (by apply Forall_rev in Hr). rewrite <- (rev_involutive l) at 2. f_equal.
  apply Forall_rev in Hl. destruct Hl as [|c r' Hc Hl]; [done|]. cbn. by apply Ascii.eqb_neq in Hc as ->.
Qed.

Lemma base64url_sextets (b : bytes) : base64url b = String.string_of_list_ascii (code_char <$> Base64.sextets (map byte_to_Z b)).
Proof.
  assert (Hb : Forall (fun x => 0 <= x < 256)%Z (map byte_to_Z b)) by (induction b as [|x b IH]; constructor; [apply byte_to_Z_range|done]).
  unfold base64url, Base64.uint8ArrayToBase64, Base64.btoa.
  assert (E : forallb (fun u => u <? 256)%Z (map byte_to_Z b) = true).
  { apply forallb_forall. intros u Hu. eapply List.Forall_forall in Hb; [|exact Hu]. lia. }
  rewrite E. match goal with |- context [default "" (Some ?t)] => change (default "" (Some t)) with t end. rewrite String.list_ascii_of_string_of_list_ascii, Base64.encode_sextets, fmap_app. f_equal.
  rewrite <- list_fmap_compose. change (url_char ∘ Base64.char_of) with code_char. apply strip_pads_app.
  - apply Forall_fmap. eapply Forall_impl; [apply Base64.sextets_six, Hb|]. intros z Hz. by apply code_char_facts.
  - unfold Base64.padding. destruct (_ mod 3)%Z as [|[]|]; repeat constructor.
Qed.

#[export] Instance base64url_inj : Inj (=) (=) base64url.
Proof.
  intros a b. rewrite !base64url_sextets. intros E. apply (f_equal String.list_ascii_of_string) in E. rewrite !String.list_ascii_of_string_of_list_ascii in E.
  assert (Hr : forall c : bytes, Forall (fun x => 0 <= x < 256)%Z (map byte_to_Z c)) by (intros c; induction c as [|x c IH]; constructor; [apply byte_to_Z_range|done]).
  assert (Es : Base64.sextets (map byte_to_Z a) = Base64.sextets (map byte_to_Z b)).
  { pose proof (Base64.sextets_six _ (Hr a)) as Ha. pose proof (Base64.sextets_six _ (Hr b)) as Hb. revert E Ha Hb. generalize (Base64.sextets (map byte_to_Z a)) (Base64.sextets (map byte_to_Z b)).
    intros x. induction x as [|u x IH]; intros [|v y]; try done. cbn. intros [= E1 E2] [Hu Hx]%Forall_cons [Hv Hy]%Forall_cons.
    f_equal; [by apply (proj2 (code_char_facts u Hu))|by apply IH]. }
  apply (f_equal Base64.decode) in Es. rewrite !Base64.decode_sextets in Es by apply Hr. apply (f_equal (map byte_of_Z)) in Es. rewrite !map_map in Es.
  rewrite (map_ext (fun x => byte_of_Z (byte_to_Z x)) id), (map_ext (fun x => byte_of_Z (byte_to_Z x)) id), !map_id in Es by apply byte_of_to_Z. done.
Qed.

(** ** What a query finds *)

Section Theory.
  Context {MasterKey FieldKey : Type} `{BC : !BlindCrypto MasterKey FieldKey}.

(** The part of the authentication code that a token keeps. *)
Definition tag (p : SubtleBlindIndexProvider) (k : FieldKey) (text : string) : bytes :=
  take (Z.to_nat (_tokenLengthBytes p)) (hmac k (TipsHash.utf8_encode text)).

Definition same_tag (p : SubtleBlindIndexProvider) (k : FieldKey) (text text' : string) : bool := bool_decide (tag p k text = tag p k text').

Lemma same_tag_token p k text text' : same_tag p k text text' = true <->
  truncateAndEncode p (hmac k (TipsHash.utf8_encode text)) = truncateAndEncode p (hmac k (TipsHash.utf8_encode text')).
Proof. unfold same_tag, truncateAndEncode. rewrite bool_decide_eq_true. split; [by intros E; f_equal|by intros E%(inj base64url)]. Qed.

Lemma same_tag_refl p k text : same_tag p k text text = true.
Proof. unfold same_tag. by rewrite bool_decide_true. Qed.

Lemma filter_tokens {A} (name : string) (token : A -> string) (same : A -> bool) (query : string) (entries : list (BlindIndexEntry * A)) :
  Forall (fun e => map_get name (blindIndexTokens e.1) = Some (token e.2)) entries ->
  (forall a, same a = true <-> token a = query) ->
  List.filter (has_token name query) entries.*1 = (List.filter (fun e => same e.2) entries).*1.
Proof.
  intros H Hs. induction H as [|e entries He H IH]; [done|]. cbn [fmap list_fmap List.filter].
  assert (E : has_token name query e.1 = same e.2).
  { apply eq_true_iff_eq. rewrite Hs. unfold has_token. rewrite bool_decide_eq_true, He. naive_solver. }
  rewrite E. destruct (same e.2); [|exact IH]. cbn. f_equal. exact IH.
Qed.

(** C38. A query on a blind index finds every document whose value is the same up to case
    and surrounding white space, and beyond these only documents whose authentication
    codes agree in the bytes that the token keeps; this holds of single fields and of
    compound ones. *)
Theorem blind_match_exact (p : SubtleBlindIndexProvider) (k : FieldKey) name value values (entries : list (BlindIndexEntry * field_value)) (compound : list (BlindIndexEntry * list field_value)) :
  Forall (fun e => map_get name (blindIndexTokens e.1) = Some (computeToken p k e.2)) entries ->
  Forall (fun e => map_get name (blindIndexTokens e.1) = Some (computeCompoundToken p k e.2)) compound ->
  exactMatch p k name value entries.*1 = (List.filter (fun e => same_tag p k (normalize e.2) (normalize value)) entries).*1 /\
  compoundMatch p k name values compound.*1 = (List.filter (fun e => same_tag p k (joined e.2) (joined values)) compound).*1 /\
  (forall e v, (e, v) ∈ entries -> normalize v = normalize value -> e ∈ exactMatch p k name value entries.*1) /\
  (forall e vs, (e, vs) ∈ compound -> normalize <$> vs = normalize <$> values -> e ∈ compoundMatch p k name values compound.*1).
Proof.
  intros H1 H2. pose proof (filter_tokens name _ (fun v => same_tag p k (normalize v) (normalize value)) (computeToken p k value) entries H1 (fun v => same_tag_token p k _ _)) as E1.
  pose proof (filter_tokens name _ (fun vs => same_tag p k (joined vs) (joined values)) (computeCompoundToken p k values) compound H2 (fun v => same_tag_token p k _ _)) as E2.
  unfold exactMatch, compoundMatch. split_and!; [exact E1|exact E2| |].
  - intros e v Hin Hv. rewrite E1. apply list_elem_of_fmap. exists (e, v). split; [done|]. apply list_elem_of_In, filter_In. rewrite <- list_elem_of_In. split; [done|]. cbn. rewrite Hv. apply same_tag_refl.
  - intros e v Hin Hv. rewrite E2. apply list_elem_of_fmap. exists (e, v). split; [done|]. apply list_elem_of_In, filter_In. rewrite <- list_elem_of_In. split; [done|]. cbn. unfold joined. rewrite Hv. apply same_tag_refl.
Qed.

(** ** Compound values *)

Fixpoint free_of (c : ascii) (s : string) : Prop := match s with String.EmptyString => True | String.String d s' => d <> c /\ free_of c s' end.

Lemma split_at_nul x y r r' : free_of Ascii.zero x -> free_of Ascii.zero y ->
  x +:+ NUL +:+ r = y +:+ NUL +:+ r' -> x = y /\ r = r'.
Proof.
  revert y. induction x as [|c x IH]; intros [|d y] Hx Hy E.
  - by injection E.
  - exfalso. injection E as Hd _. by destruct Hy.
  - exfalso. injection E as Hd _. by destruct Hx.
  - injection E as -> E. destruct (IH y) as [-> ->]; [apply Hx|apply Hy|exact E|]. done.
Qed.

Lemma no_nul_inside x y r : free_of Ascii.zero x -> x <> y +:+ NUL +:+ r.
Proof. revert x. induction y as [|d y IH]; intros [|c x] Hx E; try done; injection E as -> E; [by destruct Hx|]. by apply (IH x); [apply Hx|]. Qed.

(** When no value contains the separator, the text determines the values. *)
Theorem compound_unambiguous (vs vs' : list field_value) :
  vs <> [] -> vs' <> [] -> Forall (fun v => free_of Ascii.zero (normalize v)) vs -> Forall (fun v => free_of Ascii.zero (normalize v)) vs' ->
  joined vs = joined vs' -> normalize <$> vs = normalize <$> vs'.
Proof.
  intros Hne Hne' H. revert vs' Hne'. unfold joined. induction H as [|v vs Hv H IH]; intros vs' Hne' H' E; [done|].
  destruct vs' as [|v' vs']; [done|]. apply Forall_cons in H' as [Hv' H']. destruct vs as [|w vs], vs' as [|w' vs'].
  - cbn in *. by f_equal.
  - exfalso. cbn in E. by apply (no_nul_inside _ _ _ Hv) in E.
  - exfalso. cbn in E. symmetry in E. by apply (no_nul_inside _ _ _ Hv') in E.
  - cbn [fmap list_fmap String.concat] in *. apply split_at_nul in E as [-> E]; [|done..]. f_equal. by apply (IH ltac:(done) (w' :: vs')).
Qed.

(** A value that contains it stands for two. *)
Theorem compound_ambiguous (p : SubtleBlindIndexProvider) (k : FieldKey) :
  computeCompoundToken p k [Text ("a" +:+ NUL +:+ "s:b")] = computeCompoundToken p k [Text "a"; Text "b"].
Proof. reflexivity. Qed.

(** The length of a token is an integer from 1 to 32. *)
Theorem provider_bounds (n : num) p : newProvider n = Ok p -> (1 <= _tokenLengthBytes p <= 32)%Z /\ num_is_integer n = true.
Proof.
  unfold newProvider. destruct (num_is_integer n) eqn:Ei; [|done]. cbn [negb orb]. destruct (num_le n 0%Z) eqn:E0; [done|]. destruct (num_lt 32%Z n) eqn:E1; [done|]. cbn [orb].
  destruct n as [q| | |]; try done. intros [= <-]. cbn [_tokenLengthBytes]. split; [|done]. cbn in E0, E1. apply negb_false_iff, Qle_bool_iff in E1.
  assert (Hq : ~ (q <= inject_Z 0)%Q) by (intros Hq; apply Qle_bool_iff in Hq; congruence). apply Qnot_le_lt in Hq.
  pose proof (Qround.Qfloor_resp_le _ _ E1) as Hu. change (Qround.Qfloor (inject_Z 32)) with 32%Z in Hu. split; [|done].
  cbn in Ei. apply Qeq_bool_iff in Ei. rewrite Ei in Hq. change (inject_Z 0 < inject_Z (Qround.Qfloor q))%Q in Hq. rewrite <- Zlt_Qlt in Hq. lia.
Qed.

End Theory.

#[local] Instance plain_hmac : BlindCrypto bytes bytes := {
  exportRaw k := Ok k;
  hkdf ikm salt info := ikm ++ info;
  hmac k m := m ++ k;
  number_text _ := "0";
}.

Lemma blind_match_exact_witness :
  let p := Provider 4 in let k := [Init.Byte.x01] in
  let a := Entry "/a" [("title", computeToken p k (Text " Cats "))] in
  let b := Entry "/b" [("title", computeToken p k (Text "dogs"))] in
  a ∈ exactMatch p k "title" (Text "cats") [a; b].
Proof.
  intros p k a b. destruct (blind_match_exact p k "title" (Text "cats") [] [(a, Text " Cats "); (b, Text "dogs")] []) as (_ & _ & H & _).
  - repeat (apply Forall_cons; split; [reflexivity|]). by apply Forall_nil.
  - by apply Forall_nil.
  - apply (H a (Text " Cats ")); [left|reflexivity].
Defined.

End BlindIndex.
