(* ===== verification/Swarm.v ===== *)
(** * The swarm object

    Models [packages/collabswarm/src/collabswarm.ts]: the registry of open documents, the
    protocol handlers that read a stream and route it to a document, the list of
    connected peers with its listeners, and initialization. Documents are objects with an
    identity; what a document does with a request is the class [DocumentHandlers].
    Creating and dialling a libp2p node are arguments or left out. *)
From stdpp Require Import base numbers list list_numbers strings sets.
From Stdlib Require Import ZArith Lia.
From S2P Require Import Prelude TipsHash LoadQuorum Utils.

Open Scope string_scope.
Open Scope list_scope.
Open Scope nat_scope.

Module Swarm.
Import Utils.

Definition MAX_DOCUMENT_PATH_LENGTH : nat := 4096.
Definition MAX_REQUEST_SIZE : nat := Z.to_nat (10 * 1024 * 1024).

Lemma max_request : Z.of_nat MAX_REQUEST_SIZE = (10 * 1024 * 1024)%Z.
Proof. unfold MAX_REQUEST_SIZE. lia. Qed.

#[global] Opaque MAX_REQUEST_SIZE MAX_DOCUMENT_PATH_LENGTH.

(** What the handlers call of a document. An answer of [None] is an empty one. Reading
    [request.documentId] throws when the text was [null]; the field may be missing. *)
Class DocumentHandlers (D Request : Type) := {
  deserializeLoadRequest : bytes -> result Request;
  request_documentId : Request -> result (option string);
  d_handleLoad : Request -> eff D (option bytes);
  d_handleSnapshotLoad : Request -> eff D (option bytes);
  d_handleTipAdvertise : Request -> eff D (option bytes);
  d_handleKeyUpdate : bytes -> eff D unit;
  d_handleWelcome : bytes -> eff D unit;
  d_handlePathUpdate : bytes -> eff D unit;
}.

(** ** State *)

Record config := mk_config {
  loadQuorumEnabled : option bool;
  loadQuorumK : option num;
  loadQuorumQ : option num;
  loadQuorumTimeoutMs : option num;
  enableNetworkStats : bool;
}.

(** A peer listener: it may throw. *)
Definition listener : Type := string -> result unit.

Section Swarm.
  Context {D Request : Type} `{DH : !DocumentHandlers D Request, TD : !TextDecoder}.

Record swarm := mk_swarm {
  _config : option config;
  _heliaNode : bool;
  _peerIds : list string;
  _peerConnectHandlers : list (string * listener);
  _peerDisconnectHandlers : list (string * listener);
  _networkStats : bool;
  _handlersRegistered : bool;
  _documentRegistry : list (string * nat);
  (** the state of every document object *)
  _objects : list (nat * D);
}.

#[export] Instance settable_swarm : Settable swarm := fun s =>
  mk_swarm (_config s) (_heliaNode s) (_peerIds s) (_peerConnectHandlers s) (_peerDisconnectHandlers s) (_networkStats s)
    (_handlersRegistered s) (_documentRegistry s) (_objects s).

Definition new_swarm : swarm := mk_swarm None false [] [] [] false false [] [].

(** ** Documents *)

Definition registerDocument (documentPath : string) (document : nat) : eff swarm unit :=
  let! s := get in
  if map_has documentPath (_documentRegistry s) then raise (Throw "A document is already registered")
  else modify (fun s => s <| _documentRegistry := map_set documentPath document (_documentRegistry s) |>).

Definition unregisterDocument (documentPath : string) (document : nat) : eff swarm unit :=
  let! s := get in
  when (bool_decide (map_get documentPath (_documentRegistry s) = Some document))
    (modify (fun s => s <| _documentRegistry := map_delete documentPath (_documentRegistry s) |>)).

(** Run a method of a document object; a missing object cannot be called. *)
Definition on_document {A} (o : nat) (m : eff D A) : eff swarm A := fun s =>
  match map_get o (_objects s) with
  | Some d => let (r, d') := m d in (r, s <| _objects := map_set o d' (_objects s) |>)
  | None => (throw "TypeError", s)
  end.

(** ** Protocol handlers *)

(** What happens to the stream. *)
Inductive output := Sunk (data : list bytes) | Closed.

Definition answer (b : option bytes) : list output := [Sunk (match b with Some b => [b] | None => [] end)].

(** The request of a load, snapshot or tip stream; [None] when it cannot be read. *)
Definition read_request (source : stream) : option Request :=
  match readFirstDeserializable deserializeLoadRequest (Some MAX_REQUEST_SIZE) source with Ok r => Some r | Err _ => None end.

(** The two load handlers; [serve] is the method of the document. *)
Definition request_handler (serve : Request -> eff D (option bytes)) (unknown : list output) (source : stream) : eff swarm (list output) :=
  match read_request source with
  | None => ret [Sunk []]
  | Some request =>
      let! s := get in
      let! documentId := lift (request_documentId request) in
      match documentId ≫= fun p => map_get p (_documentRegistry s) with
      | None => ret unknown
      | Some o => let! b := on_document o (serve request) in ret (answer b)
      end
  end.

(** [.catch((err) => console.error(...))] *)
Definition caught (m : eff swarm (list output)) : eff swarm (list output) := catch m (fun _ => ret []).

Definition docLoadHandler (source : stream) : eff swarm (list output) := caught (request_handler d_handleLoad [Sunk []] source).

Definition snapshotLoadHandler (source : stream) : eff swarm (list output) := caught (request_handler d_handleSnapshotLoad [Sunk []] source).

(** An unknown document is disclaimed with one byte, and the stream is closed in any case. *)
Definition tipAdvertiseHandler (source : stream) : eff swarm (list output) :=
  let! out := caught (request_handler d_handleTipAdvertise [Sunk [[byte_of_Z 255]]] source) in
  ret (out ++ [Closed]).

(** The handlers of messages with a path header; the stream is closed in any case. *)
Definition path_handler (receive : bytes -> eff D unit) (source : stream) : eff swarm (list output) :=
  let! s := get in
  match readPathPrefixedProtocolHeader (fun p => map_get p (_documentRegistry s)) MAX_REQUEST_SIZE MAX_DOCUMENT_PATH_LENGTH source with
  | HeaderDrop _ => ret [Closed]
  | HeaderOk _ o payload => let! _ := caught (let! _ := on_document o (receive payload) in ret []) in ret [Closed]
  end.

Definition keyUpdateHandler : stream -> eff swarm (list output) := path_handler d_handleKeyUpdate.
Definition beekemWelcomeHandler : stream -> eff swarm (list output) := path_handler d_handleWelcome.
Definition beekemPathUpdateHandler : stream -> eff swarm (list output) := path_handler d_handlePathUpdate.

(** ** Peers *)

Definition subscribeToPeerConnect (handlerId : string) (h : listener) (s : swarm) : swarm :=
  s <| _peerConnectHandlers := map_set handlerId h (_peerConnectHandlers s) |>.
Definition unsubscribeFromPeerConnect (handlerId : string) (s : swarm) : swarm :=
  s <| _peerConnectHandlers := map_delete handlerId (_peerConnectHandlers s) |>.
Definition subscribeToPeerDisconnect (handlerId : string) (h : listener) (s : swarm) : swarm :=
  s <| _peerDisconnectHandlers := map_set handlerId h (_peerDisconnectHandlers s) |>.
Definition unsubscribeFromPeerDisconnect (handlerId : string) (s : swarm) : swarm :=
  s <| _peerDisconnectHandlers := map_delete handlerId (_peerDisconnectHandlers s) |>.

(** The handlers are called in turn; one that throws ends the loop. The result lists those
    that were called. *)
Fixpoint notify (handlers : list (string * listener)) (peerId : string) : list string * result unit :=
  match handlers with
  | [] => ([], Ok tt)
  | (id, h) :: handlers' =>
      match h peerId with
      | Ok _ => let (called, r) := notify handlers' peerId in (id :: called, r)
      | Err e => ([id], Err e)
      end
  end.

Definition on_peer_connect (peerId : string) (s : swarm) : (list string * result unit) * swarm :=
  let s := s <| _peerIds := _peerIds s ++ [peerId] |> in
  (notify (_peerConnectHandlers s) peerId, s).

(** [splice(indexOf(peerId), 1)] when it is there. *)
Fixpoint remove_first (x : string) (l : list string) : list string :=
  match l with [] => [] | y :: l' => if String.eqb y x then l' else y :: remove_first x l' end.

Definition on_peer_disconnect (peerId : string) (s : swarm) : (list string * result unit) * swarm :=
  let s := s <| _peerIds := remove_first peerId (_peerIds s) |> in
  (notify (_peerDisconnectHandlers s) peerId, s).

(** ** Initialization *)

(** [create] and [handle] are the outcomes of starting a node and of registering the
    protocols; a failure to stop the old node is ignored. *)
Definition registerSharedProtocolHandlers (handle : result unit) : eff swarm unit :=
  let! s := get in
  if _handlersRegistered s then ret tt
  else
    let! _ := modify (fun s => s <| _handlersRegistered := true |>) in
    match handle with
    | Ok _ => ret tt
    | Err e => let! _ := modify (fun s => s <| _handlersRegistered := false |>) in raise e
    end.

Definition default_config : config := mk_config None None None None false.

Definition initialize (c : option config) (create handle : result unit) : eff swarm unit :=
  let! s := get in
  if negb (bool_decide (_documentRegistry s = [])) then raise (Throw "Cannot reinitialize while documents are open")
  else
    let! _ := when (_heliaNode s) (modify (fun s => s <| _heliaNode := false |> <| _peerIds := [] |>)) in
    let c := default default_config c in
    let! _ :=
      match loadQuorumEnabled c with
      | Some false => ret tt
      | _ => match LoadQuorum.validateLoadQuorumConfig (loadQuorumK c) (loadQuorumQ c) (loadQuorumTimeoutMs c) with
             | Some _ => raise (Throw "LoadQuorumFailedError")
             | None => ret tt
             end
      end in
    let! _ := modify (fun s => s <| _config := Some c |> <| _handlersRegistered := false |> <| _networkStats := enableNetworkStats c |>) in
    let! _ := lift create in
    let! _ := modify (fun s => s <| _heliaNode := true |>) in
    registerSharedProtocolHandlers handle.

(** ** Routing *)

Definition store (o : nat) (d : D) (s : swarm) : swarm := s <| _objects := map_set o d (_objects s) |>.

Lemma on_document_run {A} o (m : eff D A) s d : map_get o (_objects s) = Some d -> on_document o m s = ((m d).1, store o (m d).2 s).
Proof. intros E. unfold on_document. rewrite E. by destruct (m d). Qed.

Lemma request_known serve unknown source s r p o d b : read_request source = Some r -> request_documentId r = Ok (Some p) ->
  map_get p (_documentRegistry s) = Some o -> map_get o (_objects s) = Some d -> (serve r d).1 = Ok b ->
  caught (request_handler serve unknown source) s = (Ok (answer b), store o (serve r d).2 s).
Proof.
  intros Er Ep Eo Ed Eb. unfold caught, catch, request_handler. rewrite Er. rewrite (bind_ok _ _ s s s) by done. rewrite Ep, (bind_ok _ _ s (Some p) s) by done.
  cbn. rewrite Eo. unfold bind. rewrite (on_document_run _ _ _ _ Ed). by rewrite Eb.
Qed.

Lemma request_unknown serve unknown source s r p : read_request source = Some r -> request_documentId r = Ok p ->
  p ≫= (fun p => map_get p (_documentRegistry s)) = None -> caught (request_handler serve unknown source) s = (Ok unknown, s).
Proof.
  intros Er Ep Eo. unfold caught, catch, request_handler. rewrite Er. rewrite (bind_ok _ _ s s s) by done. rewrite Ep, (bind_ok _ _ s p s) by done. by rewrite Eo.
Qed.

Lemma max_path : (Z.of_nat MAX_DOCUMENT_PATH_LENGTH < 2 ^ 31)%Z.
Proof. by vm_compute. Qed.

Lemma path_known receive source s p o d body frame : framePathPrefixed MAX_DOCUMENT_PATH_LENGTH p body = Ok frame -> stream_bytes source = Some frame ->
  length frame <= MAX_REQUEST_SIZE -> map_get p (_documentRegistry s) = Some o -> map_get o (_objects s) = Some d -> (receive body d).1 <> Err OutOfFuel ->
  path_handler receive source s = (Ok [Closed], store o (receive body d).2 s).
Proof.
  intros Ef Es Hl Eo Ed Hr. unfold path_handler. rewrite (bind_ok _ _ s s s) by done.
  rewrite (header_roundtrip (fun p => map_get p (_documentRegistry s)) _ _ _ _ _ _ _ max_path Ef Es Hl Eo).
  unfold caught, catch, bind. rewrite (on_document_run _ _ _ _ Ed). destruct (receive body d) as [[[]|[e|]] d']; done.
Qed.

(** C31. Every request reaches the document it names and no other: a load, snapshot or tip
    request is answered with what the registered document answers, whose state alone
    changes; a request for a document that is not open is answered with nothing, or with
    the one byte that disclaims it; a key update, welcome or path update that a peer framed
    for a path is given to the document at that path with its body unchanged. *)
Theorem requests_reach_document source s r p : read_request source = Some r -> request_documentId r = Ok (Some p) ->
  (map_get p (_documentRegistry s) = None ->
     docLoadHandler source s = (Ok [Sunk []], s) /\ snapshotLoadHandler source s = (Ok [Sunk []], s) /\
     tipAdvertiseHandler source s = (Ok [Sunk [[byte_of_Z 255]]; Closed], s)) /\
  (forall o d, map_get p (_documentRegistry s) = Some o -> map_get o (_objects s) = Some d ->
     (forall b, (d_handleLoad r d).1 = Ok b -> docLoadHandler source s = (Ok (answer b), store o (d_handleLoad r d).2 s)) /\
     (forall b, (d_handleSnapshotLoad r d).1 = Ok b -> snapshotLoadHandler source s = (Ok (answer b), store o (d_handleSnapshotLoad r d).2 s)) /\
     (forall b, (d_handleTipAdvertise r d).1 = Ok b -> tipAdvertiseHandler source s = (Ok (answer b ++ [Closed]), store o (d_handleTipAdvertise r d).2 s)) /\
     (forall body frame source', framePathPrefixed MAX_DOCUMENT_PATH_LENGTH p body = Ok frame -> stream_bytes source' = Some frame -> length frame <= MAX_REQUEST_SIZE ->
        ((d_handleKeyUpdate body d).1 <> Err OutOfFuel -> keyUpdateHandler source' s = (Ok [Closed], store o (d_handleKeyUpdate body d).2 s)) /\
        ((d_handleWelcome body d).1 <> Err OutOfFuel -> beekemWelcomeHandler source' s = (Ok [Closed], store o (d_handleWelcome body d).2 s)) /\
        ((d_handlePathUpdate body d).1 <> Err OutOfFuel -> beekemPathUpdateHandler source' s = (Ok [Closed], store o (d_handlePathUpdate body d).2 s)))).
Proof.
  intros Er Ep. split.
  - intros Eo. assert (Eo' : Some p ≫= (fun p => map_get p (_documentRegistry s)) = None) by done.
    unfold docLoadHandler, snapshotLoadHandler, tipAdvertiseHandler. split_and!; [by eapply request_unknown..|].
    by rewrite (bind_ok _ _ _ _ _ (request_unknown _ _ _ _ _ _ Er Ep Eo')).
  - intros o d Eo Ed. split_and!.
    + intros b Eb. by eapply request_known.
    + intros b Eb. by eapply request_known.
    + intros b Eb. unfold tipAdvertiseHandler. by rewrite (bind_ok _ _ _ _ _ (request_known _ _ _ _ _ _ _ _ _ Er Ep Eo Ed Eb)).
    + intros body frame source' Ef Es Hl. split_and!; intros H; by eapply path_known.
Qed.

(** ** The registry *)

Inductive op :=
| Register (p : string) (o : nat) | Unregister (p : string) (o : nat)
| Load (source : stream) | SnapshotLoad (source : stream) | TipAdvertise (source : stream)
| KeyUpdate (source : stream) | WelcomeMessage (source : stream) | PathUpdate (source : stream)
| PeerConnect (peerId : string) | PeerDisconnect (peerId : string)
| Initialize (c : option config) (create handle : result unit).

Definition exec (s : swarm) (x : op) : swarm :=
  match x with
  | Register p o => (registerDocument p o s).2
  | Unregister p o => (unregisterDocument p o s).2
  | Load source => (docLoadHandler source s).2
  | SnapshotLoad source => (snapshotLoadHandler source s).2
  | TipAdvertise source => (tipAdvertiseHandler source s).2
  | KeyUpdate source => (keyUpdateHandler source s).2
  | WelcomeMessage source => (beekemWelcomeHandler source s).2
  | PathUpdate source => (beekemPathUpdateHandler source s).2
  | PeerConnect peerId => (on_peer_connect peerId s).2
  | PeerDisconnect peerId => (on_peer_disconnect peerId s).2
  | Initialize c create handle => (initialize c create handle s).2
  end.

Definition run (ops : list op) (s : swarm) : swarm := foldl exec s ops.

(** Streams do not touch the registry. *)
Definition same_registry (s s' : swarm) : Prop := _documentRegistry s' = _documentRegistry s.

#[local] Instance same_registry_preorder : PreOrder same_registry.
Proof. split; [done|]. intros s1 s2 s3. unfold same_registry. congruence. Qed.

Lemma on_document_same {A} o (m : eff D A) : steps same_registry (on_document o m).
Proof. intros s. unfold on_document. destruct (map_get o (_objects s)) as [d|]; [|done]. by destruct (m d). Qed.

#[local] Hint Resolve on_document_same : steps.

Lemma request_handler_same serve unknown source : steps same_registry (request_handler serve unknown source).
Proof. unfold request_handler. steps_tac. Qed.

#[local] Hint Resolve request_handler_same : steps.

Lemma stream_same source : steps same_registry (docLoadHandler source) /\ steps same_registry (snapshotLoadHandler source) /\
  steps same_registry (tipAdvertiseHandler source) /\ forall receive, steps same_registry (path_handler receive source).
Proof. unfold docLoadHandler, snapshotLoadHandler, tipAdvertiseHandler, path_handler, caught. split_and!; intros; steps_tac. Qed.

Lemma initialize_registry c create handle s : _documentRegistry s <> [] -> initialize c create handle s = (throw "Cannot reinitialize while documents are open", s).
Proof. intros H. unfold initialize. rewrite (bind_ok _ _ s s s) by done. by rewrite bool_decide_false. Qed.

(** C32. An open document keeps its path: whatever happens, until the object itself is closed
    the path stays routed to it; neither a second document at the path, nor a late close of
    an earlier one, nor a request, nor a new initialization takes it away. *)
Theorem registered_stays s p o ops : map_get p (_documentRegistry s) = Some o -> Forall (fun x => x <> Unregister p o) ops ->
  map_get p (_documentRegistry (run ops s)) = Some o.
Proof.
  intros E H. unfold run. revert s E. induction H as [|x ops Hx H IH]; intros s E; [done|]. cbn. apply IH. clear IH.
  assert (Hs : forall s', same_registry s s' -> map_get p (_documentRegistry s') = Some o) by (intros s' ->; done).
  destruct x as [p' o'|p' o'|src|src|src|src|src|src|peer|peer|c cr hd]; cbn [exec].
  - unfold registerDocument. rewrite (bind_ok _ _ s s s) by done. destruct (map_has p' (_documentRegistry s)) eqn:Eh; [done|]. cbn.
    rewrite map_get_set_ne; [done|]. intros ->. apply map_has_false, map_get_None in Eh. congruence.
  - unfold unregisterDocument. rewrite (bind_ok _ _ s s s) by done. unfold when. case_bool_decide as Eb; [|done]. cbn. rewrite map_get_delete.
    case_decide as Ep; [|done]. subst p'. exfalso. apply Hx. congruence.
  - apply Hs, (stream_same src).
  - apply Hs, (stream_same src).
  - apply Hs, (stream_same src).
  - apply Hs, (stream_same src).
  - apply Hs, (stream_same src).
  - apply Hs, (stream_same src).
  - done.
  - done.
  - rewrite initialize_registry; [done|]. by intros E0; rewrite E0 in E.
Qed.

(** ** Peers *)

(** How often the peer is connected. *)
Definition balance (peerId : string) (ops : list op) : nat :=
  foldl (fun n x => match x with
                    | PeerConnect q => if String.eqb q peerId then S n else n
                    | PeerDisconnect q => if String.eqb q peerId then pred n else n
                    | _ => n
                    end) 0 ops.

Definition peer_event (x : op) : Prop := match x with PeerConnect _ | PeerDisconnect _ => True | _ => False end.

Definition occurrences (x : string) (l : list string) : nat := length (List.filter (String.eqb x) l).
Arguments occurrences : simpl never.

Lemma occurrences_remove x y l : occurrences x (remove_first y l) = if String.eqb y x then pred (occurrences x l) else occurrences x l.
Proof.
  unfold occurrences. induction l as [|z l IH]; [by destruct (String.eqb y x)|]. cbn. destruct (String.eqb z y) eqn:Ezy.
  - apply String.eqb_eq in Ezy as ->. rewrite (String.eqb_sym x y). by destruct (String.eqb y x).
  - cbn. destruct (String.eqb x z) eqn:Exz; [|done]. apply String.eqb_eq in Exz as ->. cbn. rewrite IH. rewrite String.eqb_sym, Ezy. done.
Qed.

(** The list of peers is right: it holds every peer as often as it is connected, after any
    sequence of connections and disconnections. *)
Theorem peers_tracked ops peerId : Forall peer_event ops -> occurrences peerId (_peerIds (run ops new_swarm)) = balance peerId ops.
Proof.
  intros H. induction ops as [|x ops IH] using rev_ind; [done|]. apply Forall_app in H as [H Hx]. apply Forall_cons in Hx as [Hx _].
  unfold run, balance in *. rewrite !foldl_app. cbn. rewrite <- IH by done. destruct x; try done; cbn.
  - unfold occurrences. rewrite List.filter_app, length_app. cbn. rewrite String.eqb_sym. destruct (String.eqb _ peerId); cbn; lia.
  - rewrite occurrences_remove. done.
Qed.

(** ** Initialization *)

(** Initialization leaves a usable node or says so: with open documents it is refused and
    nothing changes; when it returns, the node runs with the given configuration, whose
    quorum settings are valid or disabled, and the protocols are registered; when it
    throws, no protocol is left marked as registered. *)
Theorem initialize_outcome c create handle s :
  let r := initialize c create handle s in
  (_documentRegistry s <> [] -> r = (throw "Cannot reinitialize while documents are open", s)) /\
  (_documentRegistry s = [] ->
     let c' := default default_config c in
     match r.1 with
     | Ok _ => _heliaNode r.2 = true /\ _config r.2 = Some c' /\ _handlersRegistered r.2 = true /\
         (loadQuorumEnabled c' = Some false \/ LoadQuorum.validateLoadQuorumConfig (loadQuorumK c') (loadQuorumQ c') (loadQuorumTimeoutMs c') = None)
     | Err _ => _handlersRegistered r.2 = false \/ (_config r.2 = _config s /\ _heliaNode r.2 = false)
     end).
Proof.
  intros r. split; [apply initialize_registry|]. intros Er c'. unfold r, initialize. rewrite (bind_ok _ _ s s s) by done. rewrite bool_decide_true by done. cbn [negb].
  set (s1 := if _heliaNode s then s <| _heliaNode := false |> <| _peerIds := [] |> else s).
  assert (Hw : when (_heliaNode s) (modify (fun s => s <| _heliaNode := false |> <| _peerIds := [] |>)) s = (Ok tt, s1)) by (unfold s1, when; by destruct (_heliaNode s)).
  rewrite (bind_ok _ _ _ _ _ Hw). cbv zeta. fold c'.
  set (check := match loadQuorumEnabled c' with Some false => _ | _ => _ end).
  assert (Hc : (check s1 = (Ok tt, s1) /\ (loadQuorumEnabled c' = Some false \/ LoadQuorum.validateLoadQuorumConfig (loadQuorumK c') (loadQuorumQ c') (loadQuorumTimeoutMs c') = None)) \/
    exists e, check s1 = (Err e, s1)).
  { unfold check. destruct (loadQuorumEnabled c') as [[]|]; [|by left; split; [|left]|]; (destruct (LoadQuorum.validateLoadQuorumConfig _ _ _); [right; by eexists|left; by split; [|right]]). }
  clearbody check. destruct Hc as [[Hc Hv]|[e Hc]]; [|rewrite (bind_err _ _ _ _ _ Hc)].
  - rewrite (bind_ok _ _ _ _ _ Hc), bind_modify. destruct create as [[]|e]; [|by left]. unfold bind at 1. cbn [lift]. rewrite bind_modify.
    unfold registerSharedProtocolHandlers. unfold bind at 1. cbn. destruct handle as [[]|e]; [|by left]. cbn. done.
  - cbn. right. unfold s1. by destruct (_heliaNode s) eqn:Eh.
Qed.

End Swarm.
End Swarm.
