(* ===== verification/SwarmDocuments.v ===== *)
(** * Documents in a swarm

    The documents of [Document], [Loading] and [Group] as the objects that the swarm routes
    requests to, with load requests read from JSON text as [JSONSerializer] reads them, and
    what reaches a peer through both. *)
From stdpp Require Import base numbers list list_numbers strings sets.
From Stdlib Require Import ZArith Lia.
From S2P Require Import Prelude TipsHash ChangeTree Ecies BeeKem Wire Utils Auth Document Loading LoadingTheory Group Swarm.

Open Scope string_scope.
Open Scope list_scope.
Open Scope nat_scope.

Module SwarmDocuments.
Import Ecies Auth Document Loading LoadingTheory Group.

Section Documents.
  Context {DocType ChangesType ChangeFnType PublicKey DocumentKey ACL Keychain : Type}.
  Context {PubKey PrivKey Rand : Type} `{Box : SealedBox PubKey PrivKey Rand}
    `{Keys : !BeeKem.TreeKeys PubKey PrivKey Rand}.
  Context `{!CRDTProvider DocType ChangesType ChangeFnType, !ACLProvider ACL ChangesType PublicKey,
    !KeychainProvider Keychain ChangesType DocumentKey, !Serializers ChangesType,
    !AuthProvider DocumentKey, !Wire.Base64, !Wire.JsonBytes, !Kdf DocumentKey, !Utils.TextDecoder}.
  Context (sha256 : bytes -> bytes).

  Abbreviation docT := (@doc DocType ChangesType ChangeFnType PublicKey ACL Keychain (@group PubKey PrivKey)).

(** A document object with what it was created with. *)
Record open_document := Open {
  od_config : @config ChangeFnType PublicKey;
  od_swarm : @Group.swarm PublicKey;
  od_state : docT;
}.

Definition on_state {A} (m : @config ChangeFnType PublicKey -> @Group.swarm PublicKey -> eff docT A) : eff open_document A :=
  fun d => let (r, s) := m (od_config d) (od_swarm d) (od_state d) in (r, Open (od_config d) (od_swarm d) s).

(** A field of the parsed request; a property of [null] cannot be read. *)
Definition request_text (name : string) (request : Wire.jsval) : result (option string) :=
  match request with
  | Wire.JNull | Wire.JUndefined => throw "TypeError"
  | Wire.JObj ps => Ok (match Wire.jget name ps with Wire.JStr s => Some s | _ => None end)
  | _ => Ok None
  end.

(** The request as a document sees it; a signature that is not text is refused like a
    missing one. *)
Definition as_request (request : Wire.jsval) : CRDTLoadRequest :=
  let text name := match request_text name request with Ok (Some s) => s | _ => "" end in
  LoadRequest (text "documentId") (text "signature").

#[export] Instance document_handlers : Swarm.DocumentHandlers open_document Wire.jsval := {
  Swarm.deserializeLoadRequest := Wire.json_of_bytes;
  Swarm.request_documentId := request_text "documentId";
  Swarm.d_handleLoad r := on_state (fun cfg _ => handleLoadRequestData cfg (as_request r));
  Swarm.d_handleSnapshotLoad r := on_state (fun cfg _ => handleSnapshotLoadRequestData cfg (as_request r));
  Swarm.d_handleTipAdvertise r := on_state (fun cfg _ => handleTipAdvertiseRequestData cfg sha256 (as_request r));
  Swarm.d_handleKeyUpdate b := on_state (fun cfg _ => handleKeyUpdateRequestData cfg b);
  Swarm.d_handleWelcome b := on_state (fun cfg sw => handleBeeKEMWelcomeRequestData cfg sw b);
  Swarm.d_handlePathUpdate b := on_state (fun cfg sw => handleBeeKEMPathUpdateRequestData cfg b);
}.

Abbreviation swarmT := (@Swarm.swarm open_document).

(** The document at the request's path is open and the requester holds the key of one of its
    readers or writers. *)
Definition entitled_in (s : swarmT) (request : Wire.jsval) : Prop :=
  exists p o d, request_text "documentId" request = Ok (Some p) /\ map_get p (Swarm._documentRegistry s) = Some o /\ map_get o (Swarm._objects s) = Some d /\
    entitled (od_config d) (as_request request) (od_state d).

Lemma on_state_ok {A} (m : @config ChangeFnType PublicKey -> @Group.swarm PublicKey -> eff docT A) d r d' : on_state m d = (r, d') ->
  exists s', m (od_config d) (od_swarm d) (od_state d) = (r, s').
Proof. unfold on_state. destruct (m (od_config d) (od_swarm d) (od_state d)) as [r0 s0]. intros [= -> _]. by eexists. Qed.

(** Each of the three methods answers only the entitled. *)
Lemma served_entitled cfg request (s : docT) b s' :
  handleLoadRequestData cfg request s = (Ok (Some b), s') \/ handleSnapshotLoadRequestData cfg request s = (Ok (Some b), s') \/
  handleTipAdvertiseRequestData cfg sha256 request s = (Ok (Some b), s') -> entitled cfg request s.
Proof. intros [E|[E|E]]; apply respond_some, gate_some in E as [Ha _]; by apply authorize_entitled. Qed.

Lemma request_entitled (serve : Wire.jsval -> eff open_document (option bytes)) unknown source (s : swarmT) out s' b :
  (forall r d b d', serve r d = (Ok (Some b), d') -> entitled (od_config d) (as_request r) (od_state d)) ->
  Swarm.caught (Swarm.request_handler serve unknown source) s = (Ok out, s') -> Swarm.Sunk [b] ∈ out -> out <> unknown ->
  exists request, Swarm.read_request source = Some request /\ entitled_in s request.
Proof.
  intros Hserve. unfold Swarm.caught, catch, Swarm.request_handler. destruct (Swarm.read_request source) as [request|] eqn:Er.
  2: { intros [= <- _] Hin. apply list_elem_of_singleton in Hin. done. }
  rewrite (bind_ok _ _ s s s) by done. cbn [Swarm.request_documentId document_handlers]. destruct (request_text "documentId" request) as [p|e] eqn:Ep.
  2: { unfold bind. cbn. destruct e; [|done]. intros [= <- _] Hin. by apply elem_of_nil in Hin. }
  rewrite (bind_ok _ _ s p s) by done. destruct p as [p|]; [|cbn; by intros [= <- _]]. cbn [mbind option_bind].
  destruct (map_get p (Swarm._documentRegistry s)) as [o|] eqn:Eo; [|cbn; by intros [= <- _]]. unfold bind, Swarm.on_document.
  destruct (map_get o (Swarm._objects s)) as [d|] eqn:Ed; [|intros [= <- _] Hin; by apply elem_of_nil in Hin].
  destruct (serve request d) as [[[b'|]|[e|]] d'] eqn:Es; cbn; try done; intros [= <- _] Hin.
  - intros _. exists request. split; [done|]. exists p, o, d. split_and!; try done. by eapply Hserve.
  - by apply list_elem_of_singleton in Hin.
  - by apply elem_of_nil in Hin.
Qed.

(** C30. Nothing leaves a swarm for a stranger: whatever bytes arrive on the load, snapshot and
    tip protocols, an answer with data is given only for a request that names an open
    document and is signed by one of its current readers or writers (when the document
    requires signatures), apart from the one byte that disclaims a document. *)
Theorem swarm_answers_entitled source (s : swarmT) out s' b :
  Swarm.docLoadHandler source s = (Ok out, s') \/ Swarm.snapshotLoadHandler source s = (Ok out, s') \/ Swarm.tipAdvertiseHandler source s = (Ok out, s') ->
  Swarm.Sunk [b] ∈ out -> b <> [byte_of_Z 255] ->
  exists request, Swarm.read_request source = Some request /\ entitled_in s request.
Proof.
  intros Hout Hin Hb. assert (Hs : forall (m : @config ChangeFnType PublicKey -> CRDTLoadRequest -> eff docT (option bytes)),
    (forall cfg r st x st', m cfg r st = (Ok (Some x), st') -> entitled cfg r st) ->
    forall r d x d', on_state (fun cfg _ => m cfg (as_request r)) d = (Ok (Some x), d') -> entitled (od_config d) (as_request r) (od_state d)).
  { intros m Hm r d x d' [st' E]%on_state_ok. by eapply Hm. }
  destruct Hout as [E|[E|E]].
  - eapply (request_entitled Swarm.d_handleLoad); [apply (Hs handleLoadRequestData); intros; eapply served_entitled; eauto|exact E|done|]. intros ->. by apply list_elem_of_singleton in Hin.
  - eapply (request_entitled Swarm.d_handleSnapshotLoad); [apply (Hs handleSnapshotLoadRequestData); intros; eapply served_entitled; eauto|exact E|done|]. intros ->. by apply list_elem_of_singleton in Hin.
  - unfold Swarm.tipAdvertiseHandler in E. apply bind_inv in E as (out' & s1 & E & [= <- <-]). apply elem_of_app in Hin as [Hin|Hin%list_elem_of_singleton]; [|done].
    eapply (request_entitled Swarm.d_handleTipAdvertise); [apply (Hs (fun cfg => handleTipAdvertiseRequestData cfg sha256)); intros; eapply served_entitled; eauto|exact E|done|].
    intros ->. apply list_elem_of_singleton in Hin. injection Hin as Hin. done.
Qed.

End Documents.
End SwarmDocuments.
