(* ===== verification/SwarmExamples.v ===== *)
(** * A concrete swarm

    The theorems of [Swarm] at a swarm of documents that log what they receive, and the
    theorem of [SwarmDocuments] at a document of [GroupExamples]. *)
From stdpp Require Import base numbers list list_numbers strings countable.
From Stdlib Require Import ZArith Lia.
From S2P Require Import Prelude TreeMath TipsHash Ecies BeeKem BeeKemTheory Utils Wire ChangeTree Auth.
From S2P Require Import WriterCache Document Loading LoadingTheory DocExamples Group GroupExamples Swarm SwarmDocuments.

Open Scope string_scope.
Open Scope list_scope.
Open Scope nat_scope.

Module SwarmExamples.
Import Utils DocExamples.
#[local] Existing Instance demo_decoder.

Definition chunked (b : bytes) : stream := [Ok (Some (Uint8Array b))].

Lemma within_max n : (Z.of_nat n <=? 10 * 1024 * 1024)%Z = true -> n <= Swarm.MAX_REQUEST_SIZE.
Proof. intros H%Z.leb_le. pose proof Swarm.max_request. lia. Qed.

(** A request that comes in one piece is read. *)
Lemma read_chunked {D R} `{!Swarm.DocumentHandlers D R} b r : Swarm.deserializeLoadRequest b = Ok r -> length b <= Swarm.MAX_REQUEST_SIZE ->
  Swarm.read_request (chunked b) = Some r.
Proof.
  intros E Hl. unfold Swarm.read_request, readFirstDeserializable. rewrite (readFirst_refines _ _ _ [] []). cbn [first_decodable app chunk_bytes chunked].
  assert (Hx : exceeds (Some Swarm.MAX_REQUEST_SIZE) (length b) = false) by (apply bool_decide_eq_false_2; lia). by rewrite Hx, E.
Qed.

(** ** Documents that log *)

#[local] Instance log_handlers : Swarm.DocumentHandlers (list bytes) string := {
  Swarm.deserializeLoadRequest b := Ok (utf8_decode b);
  Swarm.request_documentId r := Ok (Some r);
  Swarm.d_handleLoad r := let! d := get in ret (head d);
  Swarm.d_handleSnapshotLoad r := ret None;
  Swarm.d_handleTipAdvertise r := raise (Throw "no tips");
  Swarm.d_handleKeyUpdate b := modify (cons b);
  Swarm.d_handleWelcome b := modify (cons b);
  Swarm.d_handlePathUpdate b := modify (cons b);
}.

Abbreviation log_swarm := (@Swarm.swarm (list bytes)).

Definition wake : bytes := [Init.Byte.x07].

(** Two documents; the first holds an entry. *)
Definition two_documents : log_swarm :=
  Swarm.mk_swarm None true [] [] [] false true [("/a", 1); ("/b", 2)] [(1, [wake]); (2, [])].

Definition ask_a : stream := chunked (TipsHash.utf8_encode "/a").

Lemma ask_a_read : Swarm.read_request ask_a = Some "/a".
Proof. apply read_chunked; [reflexivity|by apply within_max]. Qed.

Definition frame_b : bytes := be32 2 ++ TipsHash.utf8_encode "/b" ++ [Init.Byte.x01].

Lemma requests_reach_document_witness :
  Swarm.docLoadHandler ask_a two_documents = (Ok [Swarm.Sunk [wake]], Swarm.store 1 [wake] two_documents) /\
  Swarm.keyUpdateHandler (chunked frame_b) two_documents = (Ok [Swarm.Closed], Swarm.store 2 [[Init.Byte.x01]] two_documents).
Proof.
  split.
  - destruct (Swarm.requests_reach_document ask_a two_documents "/a" "/a" ask_a_read eq_refl) as [_ H].
    destruct (H 1 [wake] eq_refl eq_refl) as [Hl _]. by apply (Hl (Some wake)).
  - assert (Hr : Swarm.read_request (chunked (TipsHash.utf8_encode "/b")) = Some "/b") by (apply read_chunked; [reflexivity|by apply within_max]).
    destruct (Swarm.requests_reach_document _ two_documents "/b" "/b" Hr eq_refl) as [_ H]. destruct (H 2 [] eq_refl eq_refl) as (_ & _ & _ & Hf).
    apply (Hf [Init.Byte.x01] frame_b); [vm_compute; reflexivity|reflexivity|by apply within_max|done].
Defined.

(** A late close of another object and a second document at the path change nothing. *)
Lemma registered_stays_witness :
  map_get "/a" (Swarm._documentRegistry (Swarm.run [Swarm.Unregister "/a" 2; Swarm.Register "/a" 3; Swarm.Load ask_a; Swarm.Unregister "/b" 2] two_documents)) = Some 1.
Proof. apply (Swarm.registered_stays two_documents "/a" 1); [reflexivity|]. by repeat constructor. Defined.

Definition comings : list Swarm.op :=
  [Swarm.PeerConnect "p"; Swarm.PeerConnect "q"; Swarm.PeerConnect "p"; Swarm.PeerDisconnect "p"; Swarm.PeerDisconnect "r"].

Lemma peers_tracked_witness :
  Swarm.balance "p" comings = 1 /\ Swarm.occurrences "p" (Swarm._peerIds (Swarm.run comings (Swarm.new_swarm : log_swarm))) = Swarm.balance "p" comings.
Proof. split; [reflexivity|]. apply (Swarm.peers_tracked comings "p"). by repeat constructor. Defined.

(** ** A document of a group *)

Module Entitled.
Import Ecies Auth Document Loading LoadingTheory Group GroupExamples SwarmDocuments.
#[local] Existing Instance Wire.latin1.
#[local] Existing Instances set_crdt list_acl byte_keychain byte_auth flat_serializers.
#[local] Existing Instances BeeKemTheory.toy_box wide_keys toy_kdf tree_json.

Abbreviation openT := (@open_document (list nat) (list nat) nat nat (list nat) (list byte) byte byte).

Definition shared : openT := Open (user_cfg 1) sw founder.
Definition one_document : @Swarm.swarm openT := Swarm.mk_swarm None true [] [] [] false true [("/d", 5)] [(5, shared)].

(** A request signed by user 2, a reader. *)
Definition ask : Wire.jsval := Wire.JObj [("documentId", Wire.JStr "/d"); ("signature", Wire.JStr (Wire.fromUint8Array [nat_byte 2]))].
Definition ask_bytes : bytes := Wire.json_bytes ask.

#[local] Instance handlers : Swarm.DocumentHandlers openT Wire.jsval := document_handlers demo_sha.

Lemma ask_read : Swarm.read_request (chunked ask_bytes) = Some ask.
Proof. apply read_chunked; [vm_compute; reflexivity|apply within_max; vm_compute; reflexivity]. Qed.

Definition advertised : option bytes := match (Swarm.d_handleTipAdvertise ask shared).1 with Ok b => b | Err _ => None end.

Lemma swarm_answers_entitled_witness :
  is_Some advertised /\ exists request, Swarm.read_request (chunked ask_bytes) = Some request /\ entitled_in one_document request.
Proof.
  assert (Ea : exists b, advertised = Some b /\ b <> [byte_of_Z 255]) by (eexists; vm_compute; split; [reflexivity|discriminate]).
  destruct Ea as (b & Ea & Hb). split; [by rewrite Ea|].
  assert (Ed : (Swarm.d_handleTipAdvertise ask shared).1 = Ok (Some b)).
  { rewrite <- Ea. vm_compute. reflexivity. }
  apply (swarm_answers_entitled demo_sha (chunked ask_bytes) one_document [Swarm.Sunk [b]; Swarm.Closed]
    (Swarm.store 5 (Swarm.d_handleTipAdvertise ask shared).2 one_document) b); [|by left|done].
  right. right. unfold Swarm.tipAdvertiseHandler.
  by rewrite (bind_ok _ _ _ _ _ (Swarm.request_known _ _ _ one_document _ _ 5 shared _ ask_read eq_refl eq_refl eq_refl Ed)).
Defined.

End Entitled.
End SwarmExamples.
