(* ===== verification/Redux.v ===== *)
(** * The Redux bindings

    Models [packages/collabswarm-redux/src]: the reducer of [reducers.ts] and the thunks of
    [actions.ts] as threads that stop at each [await]. Document objects have an identity
    and live in a store of their own; what they do is the class [DocumentRef]. A call that
    is awaited takes effect when the thread resumes. The traces of actions are left out,
    and so are paths that name a property of every JavaScript object. *)
From stdpp Require Import base numbers list strings sets.
From Stdlib Require Import ZArith Lia.
From S2P Require Import Prelude Relay.

Open Scope string_scope.
Open Scope list_scope.
Open Scope nat_scope.

Module Redux.

(** What the thunks use of a document: its value, and its asynchronous methods. None of them
    changes the document before its first [await]. *)
Class DocumentRef (Obj DocType ChangeFn : Type) := {
  new_ref : string -> Obj;
  ref_document : Obj -> DocType;
  ref_open : eff Obj bool;
  ref_close : eff Obj unit;
  ref_change : ChangeFn -> option string -> eff Obj unit;
}.

Section Redux.
  Context {Obj DocType ChangeFn : Type} `{DR : !DocumentRef Obj DocType ChangeFn}.

(** ** State and actions *)

Record CollabswarmDocumentState := DocState { documentRef : nat; document : DocType; doc_peers : list string }.

Record CollabswarmState := State { documents : list (string * CollabswarmDocumentState); peers : list string }.

Definition initialState : CollabswarmState := State [] [].

Inductive CollabswarmActions :=
| Initialize | Connect
| OpenDocument (documentId : string) (ref : nat) | CloseDocument (documentId : string)
| SyncDocument (documentId : string) (d : DocType) | ChangeDocument (documentId : string) (d : DocType)
| PeerConnect (peerAddress : string) | PeerDisconnect (peerAddress : string).

Definition show_document (documentId : string) (d : DocType) (s : CollabswarmState) : CollabswarmState :=
  match map_get documentId (documents s) with
  | None => s
  | Some x => State (map_set documentId (DocState (documentRef x) d (doc_peers x)) (documents s)) (peers s)
  end.

(** [deref] reads the document of a reference, as [OPEN_DOCUMENT] does. *)
Definition collabswarmReducer (deref : nat -> option DocType) (s : CollabswarmState) (action : CollabswarmActions) : CollabswarmState :=
  match action with
  | Initialize | Connect => State (documents s) (peers s)
  | OpenDocument documentId ref =>
      match deref ref with
      | Some d => State (map_set documentId (DocState ref d []) (documents s)) (peers s)
      | None => s
      end
  | CloseDocument documentId =>
      if map_has documentId (documents s) then State (map_delete documentId (documents s)) (peers s) else s
  | SyncDocument documentId d | ChangeDocument documentId d => show_document documentId d s
  | PeerConnect a => State (documents s) (set_add a (peers s))
  | PeerDisconnect a => State (documents s) (Relay.set_delete a (peers s))
  end.

(** ** Threads *)

(** Where a thunk waits. *)
Inductive thread :=
| Closing (documentId : string) (o : nat)         (** [closeDocumentAsync], for [close()] *)
| Reopening (documentId : string) (o : nat)       (** [openDocumentAsync], for [close()] of the previous document *)
| Opening (documentId : string) (o : nat)         (** [openDocumentAsync], for [open()] *)
| Changing (documentId : string) (o : nat) (fn : ChangeFn) (message : option string).

Record system := Sys {
  state : CollabswarmState;
  objects : list (nat * Obj);
  subscriptions : list (nat * string);  (** object, and the path it is subscribed under *)
  threads : list (nat * thread);
  next : nat;
}.

#[export] Instance settable_system : Settable system := fun s => Sys (state s) (objects s) (subscriptions s) (threads s) (next s).

Definition deref (s : system) (o : nat) : option DocType := ref_document <$> map_get o (objects s).

Definition dispatch (action : CollabswarmActions) (s : system) : system := s <| state := collabswarmReducer (deref s) (state s) action |>.

Definition spawn (t : thread) (s : system) : system := s <| threads := threads s ++ [(next s, t)] |> <| next := S (next s) |>.

Definition unsubscribe (o : nat) (p : string) (s : system) : system :=
  s <| subscriptions := List.filter (fun x => negb (bool_decide (x = (o, p)))) (subscriptions s) |>.

(** [node.doc(documentId)], the subscription and the call of [open()]. *)
Definition start_opening (p : string) (s : system) : system :=
  let o := next s in
  let s := s <| objects := map_set o (new_ref p) (objects s) |> <| next := S o |> <| subscriptions := subscriptions s ++ [(o, p)] |> in
  spawn (Opening p o) s.

Definition openDocumentAsync (p : string) (s : system) : system :=
  match map_get p (documents (state s)) with
  | Some x => spawn (Reopening p (documentRef x)) (unsubscribe (documentRef x) p s)
  | None => start_opening p s
  end.

Definition closeDocumentAsync (p : string) (s : system) : system :=
  match map_get p (documents (state s)) with
  | Some x => spawn (Closing p (documentRef x)) (unsubscribe (documentRef x) p s)
  | None => s
  end.

(** The change is only called, and its first [await] comes before it is applied; a document
    that is not open makes the thunk throw. *)
Definition changeDocumentAsync (p : string) (fn : ChangeFn) (message : option string) (s : system) : result unit * system :=
  match map_get p (documents (state s)) with
  | Some x =>
      match deref s (documentRef x) with
      | Some d => (Ok tt, spawn (Changing p (documentRef x) fn message) (dispatch (ChangeDocument p d) s))
      | None => (throw "TypeError", s)
      end
  | None => (throw "Trying to edit a document that is not opened", s)
  end.

(** An awaited method of a document settles. *)
Definition settle {A} (o : nat) (m : eff Obj A) (s : system) : result A * system :=
  match map_get o (objects s) with
  | Some x => let (r, x') := m x in (r, s <| objects := map_set o x' (objects s) |>)
  | None => (throw "TypeError", s)
  end.

(** A thread goes on until its next [await]; the outcome of a change is what the thunk
    returns. A rejected promise ends the thunk. *)
Definition resume (t : nat) (s : system) : option (result DocType) * system :=
  match map_get t (threads s) with
  | None => (None, s)
  | Some th =>
      let s := s <| threads := map_delete t (threads s) |> in
      match th with
      | Closing p o => let (r, s) := settle o ref_close s in (None, match r with Ok _ => dispatch (CloseDocument p) s | Err _ => s end)
      | Reopening p o =>
          let (r, s) := settle o ref_close s in
          (None, match r with Ok _ => start_opening p (dispatch (CloseDocument p) s) | Err _ => s end)
      | Opening p o => let (r, s) := settle o ref_open s in (None, match r with Ok _ => dispatch (OpenDocument p o) s | Err _ => s end)
      | Changing p o fn message =>
          let (r, s) := settle o (ref_change fn message) s in
          (Some (match r with Ok _ => or_throw "TypeError" (deref s o) | Err e => Err e end), s)
      end
  end.

(** A document takes in what a peer sent and calls its handlers for remote changes. *)
Definition remote_update (o : nat) (f : Obj -> Obj) (s : system) : system :=
  match map_get o (objects s) with
  | None => s
  | Some x =>
      let s := s <| objects := map_set o (f x) (objects s) |> in
      foldl (fun s sub => if Nat.eqb sub.1 o then dispatch (SyncDocument sub.2 (ref_document (f x))) s else s) s (subscriptions s)
  end.

(** ** Runs *)

Inductive op :=
| Open (p : string) | Close (p : string) | Change (p : string) (fn : ChangeFn) (message : option string)
| Resume (t : nat) | Remote (o : nat) (f : Obj -> Obj) | Dispatched (a : CollabswarmActions).

Definition exec (s : system) (x : op) : system :=
  match x with
  | Open p => openDocumentAsync p s
  | Close p => closeDocumentAsync p s
  | Change p fn message => (changeDocumentAsync p fn message s).2
  | Resume t => (resume t s).2
  | Remote o f => remote_update o f s
  | Dispatched a => dispatch a s
  end.

Definition new_system : system := Sys initialState [] [] [] 0.
Definition run (ops : list op) : system := foldl exec new_system ops.

(** Only the node dispatches on its own. *)
Definition node_action (a : CollabswarmActions) : bool := match a with Initialize | Connect | PeerConnect _ | PeerDisconnect _ => true | _ => false end.
Definition no_local_change (x : op) : bool := match x with Change _ _ _ => false | Dispatched a => node_action a | _ => true end.

(** ** The store shows the documents *)

Abbreviation entry s p := (map_get p (documents (state s))).

Record wired (s : system) : Prop := {
  sub_bound o p : (o, p) ∈ subscriptions s -> o < next s;
  sub_one o p p' : (o, p) ∈ subscriptions s -> (o, p') ∈ subscriptions s -> p' = p;
  entry_bound p x : entry s p = Some x -> documentRef x < next s;
  entry_sub p p' x : entry s p = Some x -> (documentRef x, p') ∈ subscriptions s -> p' = p;
  thread_bound t th : map_get t (threads s) = Some th -> t < next s;
  closing_unsub t p o p' : map_get t (threads s) = Some (Closing p o) \/ map_get t (threads s) = Some (Reopening p o) -> o < next s /\ (o, p') ∉ subscriptions s;
  opening_new t p o : map_get t (threads s) = Some (Opening p o) ->
    t = S o /\ (forall p', (o, p') ∈ subscriptions s -> p' = p) /\ forall p' x, entry s p' = Some x -> documentRef x <> o;
  no_changing t p o fn message : map_get t (threads s) <> Some (Changing p o fn message);
}.

(** The stored value of a path is that of its document. *)
Definition shown (s : system) (p : string) (x : CollabswarmDocumentState) : Prop :=
  (documentRef x, p) ∈ subscriptions s -> (forall o, (o, p) ∈ subscriptions s -> o = documentRef x) -> deref s (documentRef x) = Some (document x).

Definition good (s : system) : Prop := wired s /\ forall p x, entry s p = Some x -> shown s p x.

Lemma elem_unsubscribe o p s o' p' : (o', p') ∈ subscriptions (unsubscribe o p s) <-> (o', p') ∈ subscriptions s /\ (o', p') <> (o, p).
Proof. cbn. rewrite list_elem_of_In, filter_In, <- list_elem_of_In, negb_true_iff, bool_decide_eq_false. done. Qed.

(** Two systems that differ in the entries only by their values. *)
Lemma wired_ext s s' : subscriptions s' = subscriptions s -> threads s' = threads s -> next s' = next s ->
  (forall p, documentRef <$> entry s' p = documentRef <$> entry s p) -> wired s -> wired s'.
Proof.
  intros Es Et En Ee [H1 H2 H3 H4 H5 H6 H7 H8]. assert (Hx : forall p x, entry s' p = Some x -> exists y, entry s p = Some y /\ documentRef y = documentRef x).
  { intros p x E. specialize (Ee p). rewrite E in Ee. cbn in Ee. symmetry in Ee. apply fmap_Some in Ee as (y & Ey & ->). eauto. }
  constructor; rewrite ?Es, ?Et, ?En; eauto.
  - intros p x (y & Ey & <-)%Hx. eauto.
  - intros p p' x (y & Ey & <-)%Hx. eauto.
  - intros t p o Ht. destruct (H7 _ _ _ Ht) as (-> & Hs & He). split_and!; [done|done|]. intros p' x (y & Ey & <-)%Hx. eauto.
Qed.

Lemma good_thread s t : good s -> good (s <| threads := map_delete t (threads s) |>).
Proof.
  intros [[H1 H2 H3 H4 H5 H6 H7 H8] Hs]. assert (Hd : forall t' th, map_get t' (map_delete t (threads s)) = Some th -> map_get t' (threads s) = Some th).
  { intros t' th. rewrite map_get_delete. by case_decide. }
  split; [|done]. constructor; cbn; eauto.
  - intros t' p o p' [H|H]; eapply H6; eauto.
  - intros t' p o fn message H. eapply H8; eauto.
Qed.

(** An object that no path shows, or that shows nothing yet, may change. *)
Lemma good_settle {A} o (m : eff Obj A) s : (forall p x, entry s p = Some x -> (documentRef x, p) ∈ subscriptions s -> documentRef x <> o) ->
  good s -> good (settle o m s).2.
Proof.
  intros Ho [Hw Hs]. unfold settle. destruct (map_get o (objects s)) as [x|] eqn:Ex; [|done]. destruct (m x) as [r x']. split; [by apply wired_ext with s|].
  intros p y Ey Hsub Hu. unfold deref. cbn in *. rewrite map_get_set_ne; [by apply (Hs p y)|]. intros E. by apply (Ho p y Ey Hsub).
Qed.

Lemma settle_frame {A} o (m : eff Obj A) s : state (settle o m s).2 = state s /\ subscriptions (settle o m s).2 = subscriptions s /\
  threads (settle o m s).2 = threads s /\ next (settle o m s).2 = next s /\ (is_Some (map_get o (objects s)) -> is_Some (deref (settle o m s).2 o)).
Proof.
  unfold settle, deref. destruct (map_get o (objects s)) as [x|] eqn:Ex; [|by split_and!; try intros []]. destruct (m x) as [r x']. cbn. by rewrite map_get_set_eq.
Qed.

Lemma good_close p s : good s -> good (dispatch (CloseDocument p) s).
Proof.
  intros [[H1 H2 H3 H4 H5 H6 H7 H8] Hs]. assert (He : forall p' x, entry (dispatch (CloseDocument p) s) p' = Some x -> entry s p' = Some x).
  { intros p' x. cbn. destruct (map_has p _); [|done]. cbn. rewrite map_get_delete. by case_decide. }
  split; [constructor; cbn [dispatch subscriptions threads next]; eauto|].
  - intros t p' o Ht. destruct (H7 _ _ _ Ht) as (-> & Hsub & Hn). eauto.
  - intros p' x E%He. by apply Hs.
Qed.

Lemma good_leaving p x (C : string -> nat -> thread) s : (C = Closing \/ C = Reopening) -> entry s p = Some x -> good s ->
  good (spawn (C p (documentRef x)) (unsubscribe (documentRef x) p s)).
Proof.
  intros HC Ex [[H1 H2 H3 H4 H5 H6 H7 H8] Hs]. set (s' := unsubscribe (documentRef x) p s).
  assert (Hu : forall o' p', (o', p') ∈ subscriptions s' -> (o', p') ∈ subscriptions s) by (intros o' p' H; apply elem_unsubscribe in H as [H _]; exact H).
  assert (Hn : forall p', (documentRef x, p') ∉ subscriptions s').
  { intros p' [Hin Hne]%elem_unsubscribe. apply Hne. by rewrite (H4 _ _ _ Ex Hin). }
  assert (Ht : forall t th, map_get t (threads s ++ [(next s, C p (documentRef x))]) = Some th -> map_get t (threads s) = Some th \/ (t = next s /\ th = C p (documentRef x))).
  { intros t th. rewrite <- (map_set_notin (next s)), map_get_set.
    - case_decide as Et; [|by left]. intros [= <-]. by right.
    - rewrite <- map_get_None. destruct (map_get (next s) (threads s)) eqn:E; [|done]. apply H5 in E. lia. }
  assert (Hk : forall o' p', (o', p') ∈ subscriptions s -> p' <> p -> (o', p') ∈ subscriptions s') by (intros o' p' H Hp; apply elem_unsubscribe; split; [done|congruence]).
  assert (Es : state s' = state s) by done. assert (Eth : threads s' = threads s) by done. assert (En : next s' = next s) by done.
  assert (Eo : objects s' = objects s) by done. clearbody s'.
  split; [constructor; cbn; rewrite ?Es, ?Eth, ?En|].
  - intros o p' Hin%Hu. apply H1 in Hin. lia.
  - eauto.
  - intros p' y E. apply H3 in E. lia.
  - eauto.
  - intros t th [H|[-> _]]%Ht; [apply H5 in H; lia|lia].
  - intros t p' o p'' Hcl. assert (Ho : (exists t p', map_get t (threads s) = Some (Closing p' o) \/ map_get t (threads s) = Some (Reopening p' o)) \/ o = documentRef x).
    { destruct Hcl as [[H|[-> H]]%Ht|[H|[-> H]]%Ht]; [left; eauto|right; destruct HC; subst; congruence|left; eauto|right; destruct HC; subst; congruence]. }
    destruct Ho as [(t' & q & Ho)| ->]; [|split; [apply H3 in Ex; lia|done]]. destruct (H6 _ _ _ p'' Ho) as [Hb Hn']. split; [lia|]. by intros ?%Hu.
  - intros t p' o [H|[_ H]]%Ht; [|destruct HC; subst; congruence]. destruct (H7 _ _ _ H) as (-> & Hsub & He). split_and!; [done|eauto|done].
  - intros t p' o fn message [H|[_ H]]%Ht; [by apply H8 in H|destruct HC; subst; congruence].
  - intros p' y Ey Hin Huniq. cbn in Ey. rewrite Es in Ey. destruct (decide (p' = p)) as [->|Hp].
    + rewrite Ex in Ey. injection Ey as <-. by destruct (Hn p).
    + unfold shown, deref in *. cbn in *. rewrite Eo. apply (Hs p' y Ey); [by apply Hu|]. intros o Ho. by apply Huniq, Hk.
Qed.

Lemma good_start p s : good s -> good (start_opening p s).
Proof.
  intros [[H1 H2 H3 H4 H5 H6 H7 H8] Hs]. unfold start_opening, spawn. remember (next s) as o eqn:Eon.
  assert (Hsub : forall o' p', (o', p') ∈ subscriptions s ++ [(o, p)] -> (o', p') ∈ subscriptions s \/ (o' = o /\ p' = p)).
  { intros o' p' [H|H%list_elem_of_singleton]%elem_of_app; [by left|right]. by injection H. }
  assert (Hfresh : forall p', (o, p') ∉ subscriptions s) by (intros p' H%H1; lia).
  assert (Ht : forall t th, map_get t (threads s ++ [(S o, Opening p o)]) = Some th -> map_get t (threads s) = Some th \/ (t = S o /\ th = Opening p o)).
  { intros t th. rewrite <- (map_set_notin (S o) (Opening p o) (threads s)), map_get_set.
    - case_decide; [|by left]. intros [= <-]. by right.
    - rewrite <- map_get_None. destruct (map_get (S o) (threads s)) eqn:E; [|done]. apply H5 in E. lia. }
  split; [constructor; cbn|].
  - intros o' p' [H%H1|[-> ->]]%Hsub; lia.
  - intros o' p' p'' [H|[Eo Ep]]%Hsub [H'|[Eo' Ep']]%Hsub; [eauto| |subst o'; by apply Hfresh in H'|congruence]. subst o'. by apply Hfresh in H.
  - intros p' x E%H3. lia.
  - intros p' p'' x E [H|[Eo ->]]%Hsub; [eauto|]. apply H3 in E. lia.
  - intros t th [H%H5|[-> _]]%Ht; lia.
  - intros t p' o' p'' H. assert (H' : map_get t (threads s) = Some (Closing p' o') \/ map_get t (threads s) = Some (Reopening p' o')).
    { destruct H as [[H|[_ H]]%Ht|[H|[_ H]]%Ht]; try done; auto. }
    destruct (H6 _ _ _ p'' H') as [Hb Hn]. split; [lia|]. intros [Hin|[Eo _]]%Hsub; [done|]. lia.
  - intros t p' o' [H|[-> H]]%Ht.
    + destruct (H7 _ _ _ H) as (-> & Hs' & He). split_and!; [done| |done]. intros p'' [Hin|[-> ->]]%Hsub; [eauto|]. apply H5 in H. lia.
    + injection H as -> ->. split_and!; [done| |].
      * intros p'' [Hin|[_ ->]]%Hsub; [by apply Hfresh in Hin|done].
      * intros p'' x E%H3 Eo. lia.
  - intros t p' o' fn message [H|[_ H]]%Ht; [by apply H8 in H|done].
  - intros p' x Ex Hin Hu. cbn in *. pose proof (H3 _ _ Ex) as Hb. unfold deref. cbn. rewrite map_get_set_ne by (lia).
    apply (Hs p' x Ex); [|intros o' Ho; apply Hu, elem_of_app; by left]. apply Hsub in Hin as [Hin|[Eo _]]; [done|]. lia.
Qed.

Lemma good_opened p o s : (forall p', (o, p') ∈ subscriptions s -> p' = p) -> (forall t q, map_get t (threads s) = Some (Opening q o) -> False) -> o < next s ->
  good s -> good (dispatch (OpenDocument p o) s).
Proof.
  intros Hp Ht Ho [[H1 H2 H3 H4 H5 H6 H7 H8] Hs]. unfold dispatch. cbn [collabswarmReducer]. destruct (deref s o) as [d|] eqn:Ed; [|by split].
  assert (He : forall p' x, map_get p' (map_set p (DocState o d []) (documents (state s))) = Some x -> (p' = p /\ x = DocState o d []) \/ entry s p' = Some x).
  { intros p' x. rewrite map_get_set. case_decide; [|by right]. intros [= <-]. by left. }
  split; [constructor; cbn; eauto|].
  - intros p' x [[-> ->]|E]%He; eauto.
  - intros p' p'' x [[-> ->]|E]%He; [apply Hp|eauto].
  - intros t q o' E. destruct (H7 _ _ _ E) as (-> & Hs' & He'). split_and!; [done|done|]. intros p' x [[-> ->]|Ex]%He; [|eauto]. cbn. intros ->. by eapply Ht.
  - intros p' x E. cbn in E. apply He in E as [[-> ->]|E]; [by intros _ _|]. by apply (Hs p' x).
Qed.

Lemma resume_good t s : good s -> good (resume t s).2.
Proof.
  intros Hg. unfold resume. destruct (map_get t (threads s)) as [th|] eqn:Et; [|done]. pose proof (good_thread s t Hg) as Hd. destruct Hg as [Hw _].
  set (s0 := s <| threads := map_delete t (threads s) |>) in *.
  assert (Hgone : forall p o, map_get t (threads s) = Some (Closing p o) \/ map_get t (threads s) = Some (Reopening p o) -> good (settle o ref_close s0).2).
  { intros p o Hc. apply good_settle; [|done]. intros p' x _ Hin Eo. cbn in Hin. rewrite Eo in Hin. by apply (proj2 (closing_unsub s Hw _ _ _ p' Hc)). }
  destruct th as [p o|p o|p o|p o fn message].
  - pose proof (Hgone p o (or_introl Et)) as Hc. destruct (settle o ref_close s0) as [[[]|e] s1]; [by apply good_close|done].
  - pose proof (Hgone p o (or_intror Et)) as Hc. destruct (settle o ref_close s0) as [[[]|e] s1]; [by apply good_start, good_close|done].
  - destruct (opening_new s Hw _ _ _ Et) as (-> & Hsub & Hnew).
    assert (Hs : good (settle o ref_open s0).2) by (apply good_settle; [by intros p' x Ex _; apply (Hnew p')|done]).
    pose proof (settle_frame o ref_open s0) as (Es & Esub & Eth & En & _). destruct (settle o ref_open s0) as [[b|e] s1]; [|done]. cbn in *.
    apply good_opened; [by rewrite Esub| |rewrite En; apply (thread_bound s Hw) in Et; lia|done].
    intros t q. rewrite Eth, map_get_delete. case_decide as Ed; [done|]. intros E. by destruct (opening_new s Hw _ _ _ E) as [-> _].
  - by destruct (no_changing s Hw t p o fn message).
Qed.

(** Each subscription of the object shows the new value at its path. *)
Lemma show_all o d subs s : let s' := foldl (fun s sub => if Nat.eqb sub.1 o then dispatch (SyncDocument sub.2 d) s else s) s subs in
  objects s' = objects s /\ subscriptions s' = subscriptions s /\ threads s' = threads s /\ next s' = next s /\
  forall p, entry s' p = (fun x => if bool_decide ((o, p) ∈ subs) then DocState (documentRef x) d (doc_peers x) else x) <$> entry s p.
Proof.
  induction subs as [|[o' p'] subs IH] using rev_ind; cbn.
  { split_and!; try done. intros p. by destruct (entry s p). }
  rewrite foldl_app. cbn. destruct IH as (IH1 & IH2 & IH3 & IH4 & IH5). set (s1 := foldl _ s subs) in *. destruct (Nat.eqb_spec o' o) as [->|Ho].
  - split_and!; try done. intros p. cbn. unfold show_document.
    destruct (entry s1 p') as [x|] eqn:Ex; cbn.
    + rewrite map_get_set. case_decide as Ep.
      * subst p'. rewrite bool_decide_true by set_solver. specialize (IH5 p). rewrite Ex in IH5. destruct (entry s p) as [y|]; [|done]. cbn in *. by case_bool_decide; simplify_eq.
      * rewrite IH5. destruct (entry s p) as [y|]; [|done]. cbn. f_equal. assert (E : bool_decide ((o, p) ∈ subs) = bool_decide ((o, p) ∈ subs ++ [(o, p')])); [|by rewrite E].
        apply bool_decide_ext. rewrite elem_of_app, list_elem_of_singleton. split; [by left|]. intros [H|H]; [done|congruence].
    + rewrite IH5. destruct (entry s p) as [y|] eqn:Ey; [|done]. cbn. f_equal. assert (E : bool_decide ((o, p) ∈ subs) = bool_decide ((o, p) ∈ subs ++ [(o, p')])); [|by rewrite E].
      apply bool_decide_ext. rewrite elem_of_app, list_elem_of_singleton. split; [by left|]. intros [H|H]; [done|]. injection H as ->. specialize (IH5 p'). rewrite Ex, Ey in IH5. done.
  - split_and!; try done. intros p. rewrite IH5. destruct (entry s p) as [y|]; [|done]. cbn. f_equal.
    assert (E : bool_decide ((o, p) ∈ subs) = bool_decide ((o, p) ∈ subs ++ [(o', p')])); [|by rewrite E].
    apply bool_decide_ext. rewrite elem_of_app, list_elem_of_singleton. split; [by left|]. intros [H|H]; [done|]. congruence.
Qed.

Lemma remote_good o f s : good s -> good (remote_update o f s).
Proof.
  intros [Hw Hs]. unfold remote_update. destruct (map_get o (objects s)) as [x|] eqn:Ex; [|done]. set (s0 := s <| objects := map_set o (f x) (objects s) |>).
  pose proof (show_all o (ref_document (f x)) (subscriptions s0) s0) as (E1 & E2 & E3 & E4 & E5). set (s' := foldl _ _ _) in *.
  split; [apply wired_ext with s; [done..| |done]|].
  - intros p. rewrite E5. cbn. destruct (entry s p) as [y|]; [|done]. cbn. by case_bool_decide.
  - intros p y' Ey Hin Hu. rewrite E5 in Ey. apply fmap_Some in Ey as (y & Ey & ->). unfold shown, deref in *. rewrite E1, E2 in *. cbn in *.
    assert (Er : forall b : bool, documentRef (if b then DocState (documentRef y) (ref_document (f x)) (doc_peers y) else y) = documentRef y) by by intros [].
    rewrite Er in *. rewrite map_get_set. case_decide as Eo.
    + subst o. by rewrite bool_decide_true.
    + rewrite bool_decide_false; [by apply (Hs p y Ey)|]. intros Hin'. apply Eo. symmetry. by apply Hu.
Qed.

Lemma exec_good s x : no_local_change x = true -> good s -> good (exec s x).
Proof.
  intros Hx Hg. destruct x as [p|p|p fn message|t|o f|a]; cbn [exec]; [| |done|by apply resume_good|by apply remote_good|].
  - unfold openDocumentAsync. destruct (entry s p) as [x|] eqn:E; [by apply good_leaving; [right| |]|by apply good_start].
  - unfold closeDocumentAsync. destruct (entry s p) as [x|] eqn:E; [by apply good_leaving; [left| |]|done].
  - destruct Hg as [Hw Hs]. destruct a; try done; (split; [by apply wired_ext with s|exact Hs]).
Qed.

(** C29. The store shows the documents it is subscribed to: as long as only peers change documents,
    whatever is opened, closed and received and however the thunks interleave, the value of
    a path is that of its document whenever this document, and no other, is subscribed
    under the path. A path that is being closed has already lost its subscription: until its
    entry is removed, the value it shows may be an old one. *)
Theorem store_current ops p x : Forall (fun x => no_local_change x = true) ops -> map_get p (documents (state (run ops))) = Some x ->
  (forall o, (o, p) ∈ subscriptions (run ops) <-> o = documentRef x) -> deref (run ops) (documentRef x) = Some (document x).
Proof.
  intros Hops Ex Hu. assert (Hg : good (run ops)).
  { clear Ex Hu. unfold run. assert (H0 : good new_system) by (split; [by constructor; cbn; try done; intros; destruct_or?; set_solver|done]).
    revert H0. generalize new_system. induction Hops as [|y ops Hy _ IH]; intros s Hs; [done|]. cbn. by apply IH, exec_good. }
  apply (proj2 Hg p x Ex); [by apply Hu|]. intros o. apply Hu.
Qed.

(** ** Local changes *)

Lemma map_get_spawned (n : nat) (th : thread) m : map_get n m = None -> map_get n (m ++ [(n, th)]) = Some th.
Proof. intros E. rewrite <- map_set_notin, map_get_set_eq; [done|]. by apply map_get_None. Qed.

(** A local change is not shown: the thunk puts the value from before the change into the
    store, and when the change is done it returns the new value but the store still has
    the old one. *)
Theorem local_change_not_shown p fn message s x obj obj' : map_get p (documents (state s)) = Some x -> map_get (documentRef x) (objects s) = Some obj ->
  map_get (next s) (threads s) = None -> ref_change fn message obj = (Ok tt, obj') ->
  let started := changeDocumentAsync p fn message s in let finished := resume (next s) started.2 in
  started.1 = Ok tt /\ finished.1 = Some (Ok (ref_document obj')) /\
  document <$> map_get p (documents (state finished.2)) = Some (ref_document obj).
Proof.
  intros Ex Eo Et Ec started finished. assert (Ed : deref s (documentRef x) = Some (ref_document obj)) by (unfold deref; by rewrite Eo).
  unfold finished, started, changeDocumentAsync. rewrite Ex, Ed. split; [done|]. unfold resume. cbn.
  rewrite map_get_spawned by done. cbn. unfold settle. cbn. rewrite Eo, Ec. cbn. unfold deref. cbn. rewrite map_get_set_eq. split; [done|].
  unfold show_document. by rewrite Ex; cbn; rewrite map_get_set_eq.
Qed.

(** ** Peers *)

Definition connected (a : string) (events : list CollabswarmActions) : bool :=
  foldl (fun c e => match e with
                    | PeerConnect b => if String.eqb b a then true else c
                    | PeerDisconnect b => if String.eqb b a then false else c
                    | _ => c
                    end) false events.

(** The peers of the store are those whose last event is a connection, each once. *)
Theorem store_peers deref events : let s := foldl (collabswarmReducer deref) initialState events in
  NoDup (peers s) /\ forall a, a ∈ peers s <-> connected a events = true.
Proof.
  induction events as [|e events IH] using rev_ind; [split; [apply NoDup_nil_2|]; intros a; split; [intros H; by apply elem_of_nil in H|done]|].
  cbv zeta in *. rewrite foldl_app. cbn. destruct IH as [IHn IH]. set (s := foldl _ initialState events) in *.
  assert (Hc : forall a, connected a (events ++ [e]) = match e with PeerConnect b => if String.eqb b a then true else connected a events
    | PeerDisconnect b => if String.eqb b a then false else connected a events | _ => connected a events end) by (intros a; unfold connected; by rewrite foldl_app).
  assert (Hs : forall s' : CollabswarmState, peers s' = peers s -> NoDup (peers s') /\ forall a, a ∈ peers s' <-> connected a events = true) by (intros s' ->; done).
  setoid_rewrite Hc. destruct e as [| |p o|p|p d|p d|b|b]; cbn [collabswarmReducer]; try (apply Hs; unfold show_document; by repeat case_match).
  - cbn [peers]. split; [by apply NoDup_set_add|]. intros a. rewrite elem_of_set_add, IH. destruct (String.eqb_spec b a); naive_solver.
  - cbn [peers]. split; [by apply Relay.NoDup_set_delete|]. intros a. rewrite Relay.elem_of_set_delete, IH. destruct (String.eqb_spec b a); naive_solver.
Qed.

End Redux.

(** ** Concrete runs *)

(** A document is a list of numbers; a change adds one. *)
#[local] Instance list_ref : DocumentRef (list nat) (list nat) nat := {
  new_ref _ := []; ref_document l := l; ref_open := ret true; ref_close := ret tt; ref_change n _ := modify (fun l => l ++ [n]);
}.

Abbreviation list_op := (@op (list nat) (list nat) nat).

(** Two paths are opened at once; data arrives before and after. *)
Definition two_opened : list list_op :=
  [Open "/a"; Open "/b"; Remote 0 (cons 5); Resume 3; Resume 1; Remote 0 (cons 6); Dispatched (PeerConnect "p")].

Example two_opened_shown : document <$> map_get "/a" (documents (state (run two_opened))) = Some [6; 5].
Proof. reflexivity. Qed.

Lemma store_current_witness : deref (run two_opened) 0 = Some [6; 5].
Proof.
  apply (store_current two_opened "/a" (DocState 0 [6; 5] [])); [by repeat constructor|reflexivity|].
  intros o. cbn. rewrite list_elem_of_In. cbn. split; [by intros [[= <-]|[[=]|[]]]|intros ->; by left].
Defined.

Lemma local_change_not_shown_witness :
  let started := changeDocumentAsync "/a" 9 None (run two_opened) in let finished := resume (next (run two_opened)) started.2 in
  started.1 = Ok tt /\ finished.1 = Some (Ok [6; 5; 9]) /\ document <$> map_get "/a" (documents (state finished.2)) = Some [6; 5].
Proof.
  apply (local_change_not_shown (DR := list_ref) "/a" 9 None (run two_opened) (DocState 0 [6; 5] []) [6; 5] [6; 5; 9]); vm_compute; reflexivity.
Defined.

(** A document that is closed while it is opened again: the late thunk removes the entry of
    the new document, which stays open and subscribed. *)
Definition close_during_reopen : list list_op :=
  [Open "/a"; Resume 1; Open "/a"; Close "/a"; Resume 2; Resume 5; Resume 3].

Example late_close_drops_document :
  map_get "/a" (documents (state (run (take 6 close_during_reopen)))) = Some (DocState 4 [] []) /\
  map_get "/a" (documents (state (run close_during_reopen))) = None /\
  subscriptions (run close_during_reopen) = [(4, "/a")].
Proof. by vm_compute. Qed.

End Redux.
