(* ===== verification/React.v ===== *)
(** * The React hook for documents

    Models [useCollabswarmDocumentState] of [packages/collabswarm-react/src/hooks.ts] with
    the shared maps of [hooks-cache.ts]: effect runs of hook instances that open a document
    together, wait for each other, subscribe, and release it. React is the order of events:
    a commit runs the cleanups of some runs and then starts others, whose closures hold the
    caches of the render before the commit; promise reactions run in order before anything
    else. A task in [openTasks] is identified with the document object it opens. Readers
    and writers are those the document reports; [collabswarm.doc] never returns null. The
    task of an opener awaits [open], [getReaders] and [getWriters] and has one outcome for
    the three: when [getReaders] fails after [open] has succeeded, the code leaves the document
    open without a hook that would close it, which the model does not show. *)
From stdpp Require Import base numbers list strings sets.
From Stdlib Require Import ZArith Lia.
From S2P Require Import Prelude Document.

Open Scope string_scope.
Open Scope list_scope.
Open Scope nat_scope.

Module React.
Import Document.

Section React.
  Context {DocType PublicKey : Type}.

(** ** State *)

(** [CollabswarmContextOpenResult] *)
Record OpenResult := Opened { docRef : option nat; readers : option (list PublicKey); writers : option (list PublicKey) }.

(** The caches of [CollabswarmContext]. *)
Record caches := Caches {
  docCache : list (string * nat);
  docDataCache : list (string * DocType);
  docReadersCache : list (string * list PublicKey);
  docWritersCache : list (string * list PublicKey);
}.

(** The callback that the opener passes to [subscribe], or the one of the other branches. *)
Inductive callback := OpenerCallback | OtherCallback.

Record object := Object {
  value : DocType;
  handlers : list (nat * (callback * string * originFilter));  (** by subscription ID *)
}.

(** One run of the effect: the hook instance, which owns the subscription ID, and the
    variables of the closure. *)
Record effect := Effect { instance : nat; path : string; filter_ : originFilter; subscribed : bool; ref : option nat }.

(** What waits for an open task. *)
Inductive reaction := OpenerResumes (run : nat) | WaiterResumes (run : nat) | Evict (p : string).

Record task := Task { t_path : string; status : option (result (list PublicKey * list PublicKey)); reactions : list reaction }.

Record hooks := Hooks {
  openTasks : list (string * nat);
  openTaskResults : list (string * OpenResult);
  subscriberCounts : list (string * nat);
  context : caches;
  objects : list (nat * object);
  tasks : list (nat * task);
  active : list (nat * effect);       (** the runs that were not cleaned up *)
  queue : list (nat * reaction);      (** reactions that are ready, with their task *)
  released : list nat;                (** the objects whose [close] was called *)
  next : nat;
}.

#[export] Instance settable_hooks : Settable hooks := fun s =>
  Hooks (openTasks s) (openTaskResults s) (subscriberCounts s) (context s) (objects s) (tasks s) (active s) (queue s) (released s) (next s).
#[export] Instance settable_caches : Settable caches := fun c => Caches (docCache c) (docDataCache c) (docReadersCache c) (docWritersCache c).
#[export] Instance settable_effect : Settable effect := fun e => Effect (instance e) (path e) (filter_ e) (subscribed e) (ref e).
#[export] Instance settable_object : Settable object := fun o => Object (value o) (handlers o).
#[export] Instance settable_task : Settable task := fun t => Task (t_path t) (status t) (reactions t).
#[export] Instance settable_result : Settable OpenResult := fun r => Opened (docRef r) (readers r) (writers r).

Definition new_hooks : hooks := Hooks [] [] [] (Caches [] [] [] []) [] [] [] [] [] 0.

Definition object_of (s : hooks) (r : OpenResult) : option (nat * object) :=
  o ← docRef r; x ← map_get o (objects s); Some (o, x).

(** [openTaskResults.forEach], with one assignment per entry that has the field. *)
Fixpoint collect {V} (f : string -> OpenResult -> option V) (l : list (string * OpenResult)) : list (string * V) :=
  match l with
  | [] => []
  | (p, r) :: l' => match f p r with Some v => (p, v) :: collect f l' | None => collect f l' end
  end.

(** All four caches from [openTaskResults]. *)
Definition rebuild (s : hooks) : hooks :=
  let l := openTaskResults s in
  s <| context := Caches (collect (fun _ r => docRef r) l) (collect (fun _ r => value ∘ snd <$> object_of s r) l)
                    (collect (fun _ => readers) l) (collect (fun _ => writers) l) |>.

(** ** Subscriptions *)

Definition on_object (o : nat) (f : object -> object) (s : hooks) : hooks :=
  match map_get o (objects s) with Some x => s <| objects := map_set o (f x) (objects s) |> | None => s end.

Definition on_effect (r : nat) (f : effect -> effect) (s : hooks) : hooks :=
  match map_get r (active s) with Some e => s <| active := map_set r (f e) (active s) |> | None => s end.

(** [docRef.subscribe(subscriptionIdRef.current, ...)] and [subscribedDocPath = documentPath]. *)
Definition subscribe (r : nat) (e : effect) (c : callback) (o : nat) (s : hooks) : hooks :=
  on_effect r (fun e => e <| subscribed := true |> <| ref := Some o |>)
    (on_object o (fun x => x <| handlers := map_set (instance e) (c, path e, filter_ e) (handlers x) |>) s).

(** The data of every open document, with [current] at the given path. *)
Definition data_with (s : hooks) (p : string) (current : DocType) : list (string * DocType) :=
  collect (fun q r => '(_, x) ← object_of s r; Some (if String.eqb q p then current else value x)) (openTaskResults s).

(** The callbacks. The opener stores the result in any case; the others only when there is
    one, and then put the values at the path in any case. (The opener also assigns to the
    cache object that it built itself, which was replaced whenever [openTaskResults]
    gained or lost a document.) *)
Definition call (c : callback) (p : string) (current : DocType) (rd wr : list PublicKey) (s : hooks) : hooks :=
  let old := map_get p (openTaskResults s) in
  match c with
  | OpenerCallback =>
      let s := s <| openTaskResults := map_set p (Opened (old ≫= docRef) (Some rd) (Some wr)) (openTaskResults s) |> in
      let l := openTaskResults s in
      s <| context := Caches (docCache (context s)) (data_with s p current) (collect (fun _ => readers) l) (collect (fun _ => writers) l) |>
  | OtherCallback =>
      let s := match old with
               | Some r => s <| openTaskResults := map_set p (Opened (docRef r) (Some rd) (Some wr)) (openTaskResults s) |>
               | None => s
               end in
      let l := openTaskResults s in
      s <| context := Caches (docCache (context s)) (map_set p current (data_with s p current))
             (map_set p rd (collect (fun _ => readers) l)) (map_set p wr (collect (fun _ => writers) l)) |>
  end.

Definition hears (f : originFilter) (isLocal : bool) : bool :=
  match f with all => true | remote => negb isLocal | local => isLocal end.

(** A document changes and calls its handlers. *)
Definition update (o : nat) (v : DocType) (rd wr : list PublicKey) (isLocal : bool) (s : hooks) : hooks :=
  match map_get o (objects s) with
  | None => s
  | Some x =>
      foldl (fun s h => let '(_, (c, p, f)) := h in if hears f isLocal then call c p v rd wr s else s)
        (on_object o (fun x => x <| value := v |>) s) (handlers x)
  end.

(** ** The effect *)

(** A reaction waits for its task, or is ready when the task has settled. *)
Definition register (o : nat) (x : reaction) (s : hooks) : hooks :=
  match map_get o (tasks s) with
  | Some t => if status t then s <| queue := queue s ++ [(o, x)] |>
              else s <| tasks := map_set o (t <| reactions := reactions t ++ [x] |>) (tasks s) |>
  | None => s
  end.

(** The body of the effect up to its first [await]; [captured] is the context of the render. *)
Definition start_effect (new_document : string -> DocType) (captured : caches) (s : hooks) (x : nat * string * originFilter) : hooks :=
  let '(i, p, f) := x in
  let r := next s in
  let e := Effect i p f false None in
  let s := s <| next := S r |> <| active := active s ++ [(r, e)] |>
             <| subscriberCounts := map_set p (S (default 0 (map_get p (subscriberCounts s)))) (subscriberCounts s) |> in
  match map_get p (docCache captured) with
  | Some o => subscribe r e OtherCallback o s
  | None =>
      match map_get p (openTasks s) with
      | Some o => register o (WaiterResumes r) s
      | None =>
          let o := next s in
          s <| next := S o |> <| objects := map_set o (Object (new_document p) []) (objects s) |>
            <| tasks := map_set o (Task p None [OpenerResumes r]) (tasks s) |> <| openTasks := map_set p o (openTasks s) |>
      end
  end.

(** The function that the effect returns. *)
Definition cleanup (s : hooks) (r : nat) : hooks :=
  match map_get r (active s) with
  | None => s
  | Some e =>
      let p := path e in
      let s := s <| active := map_delete r (active s) |> in
      let s := if subscribed e then
                 match map_get p (openTaskResults s) ≫= docRef with
                 | Some o => on_object o (fun x => x <| handlers := map_delete (instance e) (handlers x) |>) s
                 | None => s
                 end
               else s in
      match pred (default 1 (map_get p (subscriberCounts s))) with
      | 0 =>
          let s := s <| subscriberCounts := map_delete p (subscriberCounts s) |> in
          let s := match map_get p (openTasks s) with Some o => register o (Evict p) s | None => s end in
          rebuild (s <| openTaskResults := map_delete p (openTaskResults s) |>)
      | count => s <| subscriberCounts := map_set p count (subscriberCounts s) |>
      end
  end.

(** After an [await]: a run that was cleaned up does nothing. *)
Definition react (s : hooks) (x : nat * reaction) : hooks :=
  let (o, x) := x in
  match map_get o (tasks s) ≫= status, x with
  | Some (Ok (rd, wr)), OpenerResumes r =>
      match map_get r (active s) with
      | None => s
      | Some e => subscribe r e OpenerCallback o (rebuild (s <| openTaskResults := map_set (path e) (Opened (Some o) (Some rd) (Some wr)) (openTaskResults s) |>))
      end
  | Some (Ok (rd, wr)), WaiterResumes r =>
      match map_get r (active s) with
      | None => s
      | Some e =>
          let s := if map_has (path e) (openTaskResults s) then s
                   else s <| openTaskResults := map_set (path e) (Opened (Some o) (Some rd) (Some wr)) (openTaskResults s) |> in
          subscribe r e OtherCallback o (rebuild s)
      end
  | Some (Ok _), Evict p =>
      if default 0 (map_get p (subscriberCounts s)) =? 0 then
        s <| openTasks := map_delete p (openTasks s) |> <| released := released s ++ [o] |>
      else s
  | Some (Err _), Evict p => s <| openTasks := map_delete p (openTasks s) |>
  | _, _ => s
  end.

Definition drain (s : hooks) : hooks := foldl react (s <| queue := [] |>) (queue s).

(** ** Runs *)

Inductive op :=
| Commit (cleanups : list nat) (starts : list (nat * string * originFilter))
| Settle (o : nat) (r : result (list PublicKey * list PublicKey))
| Update (o : nat) (v : DocType) (rd wr : list PublicKey) (isLocal : bool).

Definition settle (o : nat) (r : result (list PublicKey * list PublicKey)) (s : hooks) : hooks :=
  match map_get o (tasks s) with
  | Some t => if status t then s
              else s <| tasks := map_set o (t <| status := Some r |> <| reactions := [] |>) (tasks s) |> <| queue := map (pair o) (reactions t) |>
  | None => s
  end.

Definition exec (new_document : string -> DocType) (s : hooks) (x : op) : hooks :=
  match x with
  | Commit cleanups starts => drain (foldl (start_effect new_document (context s)) (foldl cleanup s cleanups) starts)
  | Settle o r => drain (settle o r s)
  | Update o v rd wr isLocal => update o v rd wr isLocal s
  end.

Definition run (new_document : string -> DocType) (ops : list op) : hooks := foldl (exec new_document) new_hooks ops.

(** The change function the hook returns acts on this document, or does nothing. *)
Definition change_target (s : hooks) (p : string) : option nat := map_get p (docCache (context s)).

(** ** Invariant *)

Definition count_at (p : string) (l : list (nat * effect)) : nat := length (List.filter (fun x => String.eqb (path x.2) p) l).
Arguments count_at : simpl never.

Definition is_closed (s : hooks) (o : nat) : bool := bool_decide (o ∈ released s).

Abbreviation opened s p o := (map_get p (openTasks s) = Some o).

(** The document is the open one of the path. *)
Definition served (s : hooks) (p : string) (o : nat) : Prop := opened s p o /\ exists t v, map_get o (tasks s) = Some t /\ status t = Some (Ok v).

(** The reaction waits for the task or is among the ready ones. *)
Definition waiting (s : hooks) (q : list (nat * reaction)) (o : nat) (x : reaction) : Prop :=
  (exists t, map_get o (tasks s) = Some t /\ x ∈ reactions t) \/ (o, x) ∈ q.

Definition resumes (x : reaction) : option nat := match x with OpenerResumes r | WaiterResumes r => Some r | Evict _ => None end.

(** [commit] tells whether no reaction has run since the ready ones were registered. *)
Record core (commit : bool) (q : list (nat * reaction)) (s : hooks) : Prop := {
  c_results : NoDup (openTaskResults s).*1;
  c_active : NoDup (active s).*1;
  c_fresh r : r ∈ (active s).*1 -> r < next s;
  c_fresh_task o t : map_get o (tasks s) = Some t -> o < next s;
  c_counts p : default 0 (map_get p (subscriberCounts s)) = count_at p (active s);
  c_task p o : opened s p o -> exists t, map_get o (tasks s) = Some t /\ t_path t = p;
  c_pending o t : map_get o (tasks s) = Some t -> status t = None -> opened s (t_path t) o;
  c_settled o t : map_get o (tasks s) = Some t -> status t <> None -> reactions t = [];
  c_ready o x : (o, x) ∈ q -> exists t, map_get o (tasks s) = Some t /\ status t <> None;
  c_open p o : opened s p o -> is_closed s o = false;
  c_leak o t v : map_get o (tasks s) = Some t -> status t = Some (Ok v) -> is_closed s o = false -> opened s (t_path t) o;
  c_ref r e o : map_get r (active s) = Some e -> ref e = Some o -> served s (path e) o;
  c_result p x o : map_get p (openTaskResults s) = Some x -> docRef x = Some o -> served s p o /\ 0 < count_at p (active s);
  c_resumes_fresh o x r : waiting s q o x -> resumes x = Some r -> r < next s;
  c_resumes o x r e t : waiting s q o x -> resumes x = Some r -> map_get r (active s) = Some e -> map_get o (tasks s) = Some t ->
    path e = t_path t /\ ((forall e', status t <> Some (Err e')) -> opened s (t_path t) o);
  c_evict o p t : waiting s q o (Evict p) -> map_get o (tasks s) = Some t ->
    t_path t = p /\ (opened s p o \/ (commit = false /\ map_get p (openTasks s) = None));
  c_release p o : count_at p (active s) = 0 -> opened s p o -> waiting s q o (Evict p);
  c_released o : o ∈ released s -> o < next s;
}.

Definition cache_ok (s : hooks) : Prop := forall p o, map_get p (docCache (context s)) = Some o -> exists x, map_get p (openTaskResults s) = Some x /\ docRef x = Some o.

Lemma collect_get {V} (f : string -> OpenResult -> option V) l p : NoDup l.*1 -> map_get p (collect f l) = map_get p l ≫= f p.
Proof.
  induction l as [|[q r] l IH]; [done|]. csimpl. intros [Hn Hd]%NoDup_cons. case_decide as E.
  - subst q. cbn. destruct (f p r) as [v|] eqn:Ef; cbn; [by rewrite decide_True|]. rewrite IH by done. by rewrite (proj2 (map_get_None p l) Hn).
  - destruct (f q r); cbn; [rewrite decide_False by done|]; by rewrite IH.
Qed.

(** Only these parts matter. *)
Lemma core_ext b q s s' : openTasks s' = openTasks s -> openTaskResults s' = openTaskResults s -> subscriberCounts s' = subscriberCounts s ->
  tasks s' = tasks s -> active s' = active s -> next s' = next s -> released s' = released s -> core b q s -> core b q s'.
Proof.
  intros E1 E2 E3 E4 E5 E6 E7 [H1 H2 H3 H4 H5 H6 H7 H8 H9 H10 H11 H12 H13 H14 H15 H16 H17 H18].
  constructor; unfold served, waiting, is_closed in *; by rewrite ?E1, ?E2, ?E3, ?E4, ?E5, ?E6, ?E7.
Qed.

Lemma core_rebuild b q s : core b q s -> core b q (rebuild s) /\ cache_ok (rebuild s).
Proof.
  intros H. split; [by apply core_ext with s|]. intros p o. cbn. rewrite collect_get by apply H. intros (x & Ex & Eo)%bind_Some. eauto.
Qed.

Lemma on_object_frame o f s : openTasks (on_object o f s) = openTasks s /\ openTaskResults (on_object o f s) = openTaskResults s /\
  subscriberCounts (on_object o f s) = subscriberCounts s /\ tasks (on_object o f s) = tasks s /\ active (on_object o f s) = active s /\
  next (on_object o f s) = next s /\ context (on_object o f s) = context s /\ queue (on_object o f s) = queue s /\ released (on_object o f s) = released s.
Proof. unfold on_object. by destruct (map_get o (objects s)). Qed.

Lemma core_on_object b q o f s : core b q s -> core b q (on_object o f s).
Proof. pose proof (on_object_frame o f s) as (E1 & E2 & E3 & E4 & E5 & E6 & _ & _ & E9). by apply core_ext. Qed.

Lemma count_at_set p r e e' l : map_get r l = Some e -> path e' = path e -> count_at p (map_set r e' l) = count_at p l.
Proof.
  unfold count_at. induction l as [|[r0 e0] l IH]; [done|]. cbn. case_decide as E; [subst r0; intros [= ->] Hp; cbn; rewrite Hp; by destruct (String.eqb (path e) p)|].
  intros Er Hp. cbn. destruct (String.eqb (path e0) p); cbn; by rewrite (IH Er Hp).
Qed.

Lemma count_at_delete p r e l : NoDup l.*1 -> map_get r l = Some e ->
  count_at p l = (if String.eqb (path e) p then 1 else 0) + count_at p (map_delete r l).
Proof.
  unfold count_at. induction l as [|[r0 e0] l IH]; [done|]. csimpl. intros [Hn Hd]%NoDup_cons. case_decide as E.
  - subst r0. intros [= ->]. rewrite (map_delete_notin r l) by done. by destruct (String.eqb (path e) p).
  - intros Er. cbn. specialize (IH Hd Er). destruct (String.eqb (path e0) p); cbn; lia.
Qed.

Lemma count_at_elem p r e l : map_get r l = Some e -> path e = p -> 0 < count_at p l.
Proof.
  intros Er <-. unfold count_at. induction l as [|[r0 e0] l IH]; [done|]. cbn in *. case_decide; [simplify_eq; rewrite String.eqb_refl; cbn; lia|].
  destruct (String.eqb (path e0) (path e)); cbn; [lia|by apply IH].
Qed.

(** A run gets its document. *)
Lemma core_on_effect b q r e f s : map_get r (active s) = Some e -> path (f e) = path e -> (forall o, ref (f e) = Some o -> served s (path e) o) ->
  core b q s -> core b q (on_effect r f s).
Proof.
  intros Er Hp Hf [H1 H2 H3 H4 H5 H6 H7 H8 H9 H10 H11 H12 H13 H14 H15 H16 H17 H18]. unfold on_effect. rewrite Er.
  assert (Hk : (map_set r (f e) (active s)).*1 = (active s).*1) by (apply map_keys_set_in, map_get_is_Some; eauto).
  assert (Hc : forall p, count_at p (map_set r (f e) (active s)) = count_at p (active s)) by (intros p; by eapply count_at_set).
  constructor; cbn; rewrite ?Hk; try setoid_rewrite Hc; try done.
  - intros r' e' o. rewrite map_get_set. case_decide; [|eauto]. intros [= <-] Ho. rewrite Hp. eauto.
  - intros o x r' e' t Hw Hx He' Ht. rewrite map_get_set in He'. case_decide as E; [|eauto]. injection He' as <-. subst r'. rewrite Hp. eauto.
Qed.

Lemma core_subscribe b q r e c o s : map_get r (active s) = Some e -> served s (path e) o -> core b q s -> core b q (subscribe r e c o s).
Proof.
  intros Er Hs H. unfold subscribe. set (s1 := on_object o _ s). pose proof (on_object_frame o (fun x => x <| handlers := map_set (instance e) (c, path e, filter_ e) (handlers x) |>) s) as Hf.
  assert (H1 : core b q s1) by (by apply core_on_object). fold s1 in Hf. destruct Hf as (E1 & _ & _ & E4 & E5 & _). clearbody s1.
  eapply core_on_effect; [by rewrite E5|done| |done]. cbn. intros o' [= <-]. unfold served. by rewrite E1, E4.
Qed.

Lemma subscribe_frame r e c o s : let s' := subscribe r e c o s in
  openTasks s' = openTasks s /\ openTaskResults s' = openTaskResults s /\ tasks s' = tasks s /\ context s' = context s /\ queue s' = queue s /\ released s' = released s.
Proof.
  intros s'. unfold s', subscribe, on_effect. set (s1 := on_object o _ s).
  pose proof (on_object_frame o (fun x => x <| handlers := map_set (instance e) (c, path e, filter_ e) (handlers x) |>) s) as (E1 & E2 & E3 & E4 & E5 & E6 & E7 & E8 & E9).
  fold s1 in E1, E2, E4, E7, E8, E9. clearbody s1.
  by destruct (map_get r (active s1)).
Qed.

(** Registering a reaction. *)
Lemma waiting_register o x s t : map_get o (tasks s) = Some t -> forall o' x',
  waiting (register o x s) (queue (register o x s)) o' x' <-> waiting s (queue s) o' x' \/ (o' = o /\ x' = x).
Proof.
  intros Et o' x'. unfold register. rewrite Et. destruct (status t); unfold waiting; cbn.
  - rewrite elem_of_app, list_elem_of_singleton. naive_solver.
  - rewrite map_get_set. split.
    + intros [(t' & Ht & Hx)|Hq]; [|by left; right]. case_decide as E; [|left; left; eauto]. injection Ht as <-. cbn in Hx. subst o'.
      apply elem_of_app in Hx as [Hx| ->%list_elem_of_singleton]; [left; left; eauto|by right].
    + intros [[(t' & Ht & Hx)|Hq]|[-> ->]]; [left|by right|left].
      * case_decide as E; [|eauto]. subst o'. eexists. split; [done|]. cbn. rewrite Et in Ht. injection Ht as <-. apply elem_of_app. by left.
      * rewrite decide_True by done. eexists. split; [done|]. cbn. apply elem_of_app. right. by apply list_elem_of_singleton.
Qed.

Lemma register_frame o x s : let s' := register o x s in openTasks s' = openTasks s /\ openTaskResults s' = openTaskResults s /\
  subscriberCounts s' = subscriberCounts s /\ active s' = active s /\ next s' = next s /\ released s' = released s /\ context s' = context s /\
  (forall o', t_path <$> map_get o' (tasks s') = t_path <$> map_get o' (tasks s)) /\ forall o', status <$> map_get o' (tasks s') = status <$> map_get o' (tasks s).
Proof.
  unfold register. destruct (map_get o (tasks s)) as [t|] eqn:Et; [|done]. destruct (status t) eqn:Es; [done|]. cbn. split_and!; try done; intros o'; rewrite map_get_set;
    (case_decide; [subst o'; rewrite Et; cbn; by rewrite ?Es|done]).
Qed.

Lemma task_of {A} (f : task -> A) s s' o t : (forall o, f <$> map_get o (tasks s') = f <$> map_get o (tasks s)) -> map_get o (tasks s') = Some t ->
  exists t0, map_get o (tasks s) = Some t0 /\ f t0 = f t.
Proof. intros H E. specialize (H o). rewrite E in H. cbn in H. symmetry in H. apply fmap_Some in H as (t0 & E0 & ->). eauto. Qed.

Lemma served_frame s s' p o : openTasks s' = openTasks s -> (forall o, status <$> map_get o (tasks s') = status <$> map_get o (tasks s)) -> served s p o -> served s' p o.
Proof.
  intros Eo Hs [Ho (t & v & Et & Ev)]. split; [by rewrite Eo|]. specialize (Hs o). rewrite Et in Hs. cbn in Hs. apply fmap_Some in Hs as (t' & Et' & Es). exists t', v.
  by rewrite <- Es.
Qed.

Lemma core_register b o x s t : map_get o (tasks s) = Some t ->
  (forall r, resumes x = Some r -> r < next s /\ forall e, map_get r (active s) = Some e -> path e = t_path t /\ opened s (t_path t) o) ->
  (forall p, x = Evict p -> opened s p o) -> core b (queue s) s -> core b (queue (register o x s)) (register o x s).
Proof.
  intros Et Hr He [H1 H2 H3 H4 H5 H6 H7 H8 H9 H10 H11 H12 H13 H14 H15 H16 H17 H18]. pose proof (waiting_register o x s t Et) as Hw.
  pose proof (register_frame o x s) as (E1 & E2 & E3 & E4 & E5 & E6 & E7 & Ep & Es). cbv zeta in *.
  assert (Hset : forall o' t', map_get o' (tasks (register o x s)) = Some t' -> status t' <> None -> reactions t' = []).
  { unfold register. rewrite Et. destruct (status t) eqn:Est; cbn; [exact H8|]. intros o' t'. rewrite map_get_set. case_decide; [|apply H8]. by intros [= <-] ?. }
  assert (Hq : forall o' x', (o', x') ∈ queue (register o x s) -> exists t', map_get o' (tasks s) = Some t' /\ status t' <> None).
  { unfold register. rewrite Et. destruct (status t) eqn:Est; cbn; [|exact H9]. intros o' x' [Hin|Hin%list_elem_of_singleton]%elem_of_app; [by eapply H9|].
    injection Hin as -> ->. exists t. by rewrite Est. }
  set (s' := register o x s) in *. assert (Hc : forall o', is_closed s' o' = is_closed s o') by (intros o'; unfold is_closed; by rewrite E6). clearbody s'.
  constructor; rewrite ?E1, ?E2, ?E3, ?E4, ?E5, ?E6; try done.
  - intros o' t' (t0 & Et0 & _)%(task_of t_path s); [eauto|done].
  - intros p o' Ho. destruct (H6 _ _ Ho) as (t0 & Et0 & <-). specialize (Ep o'). rewrite Et0 in Ep. apply fmap_Some in Ep as (t' & Et' & ->). eauto.
  - intros o' t' Et' Hst. destruct (task_of status s s' o' t' Es Et') as (t0 & Et0 & Es0). destruct (task_of t_path s s' o' t' Ep Et') as (t1 & Et1 & <-).
    simplify_eq. apply H7; [done|congruence].
  - intros o' x' (t0 & Et0 & Hst)%Hq. specialize (Es o'). rewrite Et0 in Es. apply fmap_Some in Es as (t' & Et' & E). exists t'. split; [done|congruence].
  - intros p o' Ho. rewrite Hc. eauto.
  - intros o' t' v Et' Ev Hcl. rewrite Hc in Hcl. destruct (task_of status s s' o' t' Es Et') as (t0 & Et0 & Es0). destruct (task_of t_path s s' o' t' Ep Et') as (t1 & Et1 & <-).
    simplify_eq. eapply H11; [done|by rewrite Es0|done].
  - intros r e o' Er Eo. eapply served_frame; [done|done|]. by eapply H12.
  - intros p y o' Ey Eo. destruct (H13 _ _ _ Ey Eo) as [Hsv Hct]. split; [|done]. by eapply served_frame.
  - intros o' x' r [Hwt|[-> ->]]%Hw Hx'; [by eapply H14|by apply Hr].
  - intros o' x' r e t' Hwt Hx' Ee Et'. destruct (task_of status s s' o' t' Es Et') as (t0 & Et0 & Es0). destruct (task_of t_path s s' o' t' Ep Et') as (t1 & Et1 & Ep1).
    simplify_eq. rewrite <- Ep1, <- Es0. apply Hw in Hwt as [Hwt|[-> ->]]; [by eapply H15|]. simplify_eq. destruct (Hr r Hx') as [_ Hre]. destruct (Hre e Ee) as [-> Ho]. split; [done|by intros _].
  - intros o' p t' Hwt Et'. destruct (task_of t_path s s' o' t' Ep Et') as (t1 & Et1 & <-). apply Hw in Hwt as [Hwt|[-> Hx]]; [by eapply H16|]. symmetry in Hx. pose proof (He p Hx) as Ho.
    split; [|by left]. destruct (H6 _ _ Ho) as (t2 & Et2 & <-). congruence.
  - intros p o' Hct Ho. apply Hw. left. by apply H17.
Qed.

Lemma core_drop_run b q s r e counts : map_get r (active s) = Some e -> (forall p, default 0 (map_get p counts) = count_at p (map_delete r (active s))) ->
  (count_at (path e) (map_delete r (active s)) = 0 -> map_get (path e) (openTaskResults s) ≫= docRef = None /\ forall o, opened s (path e) o -> waiting s q o (Evict (path e))) ->
  core b q s -> core b q (s <| active := map_delete r (active s) |> <| subscriberCounts := counts |>).
Proof.
  intros Er Hc H0 [H1 H2 H3 H4 H5 H6 H7 H8 H9 H10 H11 H12 H13 H14 H15 H16 H17 H18].
  assert (Hd : forall r' e', map_get r' (map_delete r (active s)) = Some e' -> map_get r' (active s) = Some e') by (intros r' e'; rewrite map_get_delete; by case_decide).
  assert (Hct : forall p, count_at p (map_delete r (active s)) = 0 -> count_at p (active s) = 0 \/ p = path e).
  { intros p Hp. pose proof (count_at_delete p r e (active s) H2 Er) as E. revert E. destruct (String.eqb_spec (path e) p); intros E; [by right|left; lia]. }
  constructor; cbn; try done.
  - by apply NoDup_map_delete.
  - intros r' Hin. apply H3. eapply elem_of_submseteq; [exact Hin|]. apply sublist_submseteq, fmap_sublist, map_delete_sublist.
  - intros r' e' o E%Hd. by apply H12 with r'.
  - intros p x o Ex Eo. destruct (H13 _ _ _ Ex Eo) as [Hs Hp]. split; [done|]. destruct (decide (count_at p (map_delete r (active s)) = 0)) as [E|]; [|lia].
    destruct (Hct p E) as [E0| ->]; [lia|]. destruct (H0 E) as [Hn _]. rewrite Ex in Hn. cbn in Hn. congruence.
  - intros o x r' e' t Hw Hx Ee%Hd. by eapply H15.
  - intros p o Hp Ho. destruct (Hct p Hp) as [E0| ->]; [by apply H17|]. by apply (proj2 (H0 Hp)).
Qed.

Lemma core_drop_result b q s p : core b q s -> core b q (s <| openTaskResults := map_delete p (openTaskResults s) |>).
Proof.
  intros [H1 H2 H3 H4 H5 H6 H7 H8 H9 H10 H11 H12 H13 H14 H15 H16 H17 H18]. constructor; cbn; try done; [by apply NoDup_map_delete|].
  intros p' x o. rewrite map_get_delete. case_decide; [done|]. apply H13.
Qed.

Lemma core_set_result b q s p x : (forall o, docRef x = Some o -> served s p o /\ 0 < count_at p (active s)) -> core b q s ->
  core b q (s <| openTaskResults := map_set p x (openTaskResults s) |>).
Proof.
  intros Hx [H1 H2 H3 H4 H5 H6 H7 H8 H9 H10 H11 H12 H13 H14 H15 H16 H17 H18]. constructor; cbn; try done; [by apply NoDup_map_set|].
  intros p' x' o. rewrite map_get_set. case_decide; [|apply H13]. intros [= <-] Eo. subst p'. by apply Hx.
Qed.

(** ** Cleanups *)

Lemma register_tasks o x s s' : tasks s' = tasks s -> queue s' = queue s ->
  tasks (register o x s') = tasks (register o x s) /\ queue (register o x s') = queue (register o x s).
Proof. intros Et Eq. unfold register. rewrite Et. destruct (map_get o (tasks s)) as [t|]; [|done]. destruct (status t); cbn; by rewrite ?Et, ?Eq. Qed.

(** Counts after one run less. *)
Lemma counts_less s r e p : NoDup (active s).*1 -> map_get r (active s) = Some e -> (forall p, default 0 (map_get p (subscriberCounts s)) = count_at p (active s)) ->
  let n := pred (default 1 (map_get (path e) (subscriberCounts s))) in
  n = count_at (path e) (map_delete r (active s)) /\
  (n <> 0 -> default 0 (map_get p (map_set (path e) n (subscriberCounts s))) = count_at p (map_delete r (active s))) /\
  (n = 0 -> default 0 (map_get p (map_delete (path e) (subscriberCounts s))) = count_at p (map_delete r (active s))).
Proof.
  intros Hd Er Hc n. pose proof (count_at_delete (path e) r e _ Hd Er) as Ee. rewrite String.eqb_refl in Ee. pose proof (Hc (path e)) as He.
  assert (En : n = count_at (path e) (map_delete r (active s))). { unfold n. destruct (map_get (path e) (subscriberCounts s)); cbn in *; lia. }
  clearbody n. pose proof (count_at_delete p r e _ Hd Er) as Ep. pose proof (Hc p) as Hp. split; [done|]. rewrite map_get_set, map_get_delete.
  destruct (String.eqb_spec (path e) p) as [<-|Hne].
  - rewrite !decide_True by done. cbn. split; intros ?; lia.
  - rewrite !decide_False by done. split; intros _; lia.
Qed.

Definition unchanged (s s' : hooks) : Prop := openTasks s' = openTasks s /\ forall o, status <$> map_get o (tasks s') = status <$> map_get o (tasks s).

Lemma cleanup_unchanged s r : unchanged s (cleanup s r).
Proof.
  unfold cleanup, unchanged. destruct (map_get r (active s)) as [e|] eqn:Er; [|done]. set (s1 := if subscribed e then _ else _).
  assert (H1 : openTasks s1 = openTasks s /\ tasks s1 = tasks s).
  { unfold s1. destruct (subscribed e); [|done]. cbn. destruct (map_get (path e) (openTaskResults s) ≫= docRef) as [o|]; [|done].
    pose proof (on_object_frame o (fun x => x <| handlers := map_delete (instance e) (handlers x) |>) (s <| active := map_delete r (active s) |>)) as (E1 & _ & _ & E4 & _). by rewrite E1, E4. }
  clearbody s1. destruct H1 as [E1 E4]. destruct (pred _); cbn; [|by rewrite E1, E4]. rewrite E1. destruct (map_get (path e) (openTasks s)) as [o|]; cbn; [|by rewrite E1, E4].
  set (s2 := s1 <| subscriberCounts := _ |>). pose proof (register_frame o (Evict (path e)) s2) as (F1 & _ & _ & _ & _ & _ & _ & _ & F9).
  rewrite F1. split; [done|]. intros o'. rewrite F9. cbn. by rewrite E4.
Qed.

Lemma cleanup_next s r : next (cleanup s r) = next s.
Proof.
  unfold cleanup. destruct (map_get r (active s)) as [e|]; [|done]. set (s1 := if subscribed e then _ else _).
  assert (E : next s1 = next s). { unfold s1. destruct (subscribed e); [|done]. destruct (_ ≫= docRef) as [o|]; [|done]. unfold on_object. cbn. by destruct (map_get o (objects s)). }
  clearbody s1. destruct (pred _); [|done]. destruct (map_get _ (openTasks _)) as [o|]; [|done]. cbn. pose proof (register_frame o (Evict (path e)) (s1 <| subscriberCounts := map_delete (path e) (subscriberCounts s1) |>)) as (_ & _ & _ & _ & F & _).
  by rewrite F.
Qed.

Lemma cleanup_core s r : core true (queue s) s -> cache_ok s -> core true (queue (cleanup s r)) (cleanup s r) /\ cache_ok (cleanup s r).
Proof.
  intros H Hc. unfold cleanup. destruct (map_get r (active s)) as [e|] eqn:Er; [|done].
  set (s0 := if subscribed e then match map_get (path e) (openTaskResults s) ≫= docRef with
                                  | Some o => on_object o (fun x => x <| handlers := map_delete (instance e) (handlers x) |>) s | None => s end else s).
  assert (H0 : core true (queue s) s0) by (unfold s0; destruct (subscribed e); [|done]; destruct (map_get (path e) (openTaskResults s) ≫= docRef); [by apply core_on_object|done]).
  set (s1 := if subscribed e then _ else _).
  assert (E01 : s1 = s0 <| active := map_delete r (active s0) |> /\ active s0 = active s /\ subscriberCounts s0 = subscriberCounts s /\ context s0 = context s /\ openTaskResults s0 = openTaskResults s /\ queue s0 = queue s).
  { unfold s1, s0. destruct (subscribed e); [|done]. cbn. destruct (map_get (path e) (openTaskResults s) ≫= docRef) as [o|]; [|done].
    unfold on_object. cbn. by destruct (map_get o (objects s)). }
  clearbody s0. destruct E01 as (-> & Ea & Ec & Ex & Eres & Eq). rewrite <- Ea in Er. cbn [subscriberCounts update_field].
  pose proof (fun p => counts_less s0 r e p (c_active _ _ _ H0) Er (c_counts _ _ _ H0)) as Hn. cbn in Hn |- *.
  destruct (pred (default 1 (map_get (path e) (subscriberCounts s0)))) as [|n] eqn:En.
  - set (s2 := s0 <| openTaskResults := map_delete (path e) (openTaskResults s0) |>). rewrite <- Eq in H0.
    set (s3 := match map_get (path e) (openTasks s2) with Some o => register o (Evict (path e)) s2 | None => s2 end).
    assert (H2 : core true (queue s2) s2) by (by apply core_drop_result).
    assert (H3 : core true (queue s3) s3 /\ active s3 = active s0 /\ openTaskResults s3 = openTaskResults s2 /\ openTasks s3 = openTasks s2 /\
      (forall o, opened s3 (path e) o -> waiting s3 (queue s3) o (Evict (path e)))).
    { unfold s3. destruct (map_get (path e) (openTasks s2)) as [o|] eqn:Eo; [|split_and!; try done; intros o; by rewrite Eo].
      destruct (c_task _ _ _ H2 _ _ Eo) as (t & Et & Ep). pose proof (register_frame o (Evict (path e)) s2) as (F1 & F2 & _ & F4 & _). split_and!; try done.
      - eapply core_register; [exact Et|done| |done]. by intros p [= <-].
      - intros o'. rewrite F1, Eo. intros [= <-]. apply (waiting_register _ _ _ _ Et). by right. }
    destruct H3 as (H3 & Ea3 & Er3 & Eo3 & Hw3).
    pose proof (core_drop_run true (queue s3) s3 r e (map_delete (path e) (subscriberCounts s0))) as Hd. rewrite Ea3 in Hd. specialize (Hd Er).
    assert (H4 : core true (queue s3) (s3 <| active := map_delete r (active s0) |> <| subscriberCounts := map_delete (path e) (subscriberCounts s0) |>)).
    { apply Hd; [intros p; by apply Hn| |done]. intros _. split; [|done]. rewrite Er3. cbn. rewrite map_get_delete, decide_True by done. done. }
    set (s4 := match map_get (path e) (openTasks s0) with Some o => register o (Evict (path e)) _ | None => _ end).
    assert (E4 : tasks s4 = tasks s3 /\ queue s4 = queue s3 /\ openTasks s4 = openTasks s3 /\ active s4 = map_delete r (active s0) /\ subscriberCounts s4 = map_delete (path e) (subscriberCounts s0) /\
      openTaskResults s4 = openTaskResults s0 /\ next s4 = next s3 /\ released s4 = released s3).
    { unfold s4, s3. cbn [openTasks update_field s2]. destruct (map_get (path e) (openTasks s0)) as [o|]; [|done]. unfold register. cbn.
      destruct (map_get o (tasks s0)) as [t|]; [|done]. by destruct (status t). }
    clearbody s4. destruct E4 as (G1 & G2 & G3 & G4 & G5 & G6 & G7 & G8). cbn [queue rebuild update_field]. rewrite G2. apply core_rebuild.
    eapply core_ext; [..|exact H4]; cbn; try done. by rewrite G6, Er3.
  - split; [|intros p o; cbn; rewrite Ex, Eres; apply Hc]. cbn [queue update_field]. rewrite Eq. apply core_drop_run with e; [done|intros p; by apply Hn| |done].
    intros E0. destruct (Hn "") as [En' _]. lia.
Qed.

(** ** Starts *)

Lemma core_add_run b q s i p f : core b q s ->
  core b q (s <| next := S (next s) |> <| active := active s ++ [(next s, Effect i p f false None)] |>
              <| subscriberCounts := map_set p (S (default 0 (map_get p (subscriberCounts s)))) (subscriberCounts s) |>).
Proof.
  intros [H1 H2 H3 H4 H5 H6 H7 H8 H9 H10 H11 H12 H13 H14 H15 H16 H17 H18]. set (e := Effect i p f false None).
  assert (Hn : next s ∉ (active s).*1) by (intros Hin%H3; lia).
  assert (Hg : forall r e', map_get r (active s ++ [(next s, e)]) = Some e' -> map_get r (active s) = Some e' \/ (r = next s /\ e' = e)).
  { intros r e'. rewrite <- map_set_notin, map_get_set by done. case_decide; [intros [= <-]; by right|by left]. }
  assert (Hc : forall p', count_at p' (active s ++ [(next s, e)]) = count_at p' (active s) + if String.eqb p p' then 1 else 0).
  { intros p'. unfold count_at. rewrite List.filter_app, length_app. cbn. by destruct (String.eqb p p'). }
  assert (Hfr : forall o x r, waiting s q o x -> resumes x = Some r -> r <> next s) by (intros o x r Hw Hx; specialize (H14 _ _ _ Hw Hx); lia).
  constructor; cbn; try done; try (setoid_rewrite Hc).
  - rewrite fmap_app. cbn. apply NoDup_app. split_and!; [done| |apply NoDup_singleton]. intros r Hr ->%list_elem_of_singleton. done.
  - intros r. rewrite fmap_app. intros [Hr%H3|Hr%list_elem_of_singleton]%elem_of_app; [lia|cbn in Hr; lia].
  - intros o t Et%H4. lia.
  - intros p'. rewrite map_get_set. destruct (String.eqb_spec p p') as [<-|Hne]; [rewrite decide_True by done; cbn; rewrite H5; lia|]. rewrite decide_False by done. rewrite H5. lia.
  - intros r e' o [E|[-> ->]]%Hg; [by apply H12 with r|done].
  - intros p' x o Ex Eo. destruct (H13 _ _ _ Ex Eo) as [Hs Hp]. split; [done|lia].
  - intros o x r Hw Hx. specialize (H14 _ _ _ Hw Hx). lia.
  - intros o x r e' t Hw Hx [E|[Er ->]]%Hg Et; [by eapply H15|]. by destruct (Hfr o x r Hw Hx).
  - intros p' o Hp Ho. apply H17; [lia|done].
  - intros o Hin%H18. lia.
Qed.

(** A new task for a path that has none. *)
Lemma core_new_task s p r e v : let o := next s in map_get r (active s) = Some e -> path e = p -> map_get p (openTasks s) = None -> core true (queue s) s ->
  core true (queue s) (s <| next := S o |> <| objects := map_set o (Object v []) (objects s) |>
    <| tasks := map_set o (Task p None [OpenerResumes r]) (tasks s) |> <| openTasks := map_set p o (openTasks s) |>).
Proof.
  intros o Er Hp Ho [H1 H2 H3 H4 H5 H6 H7 H8 H9 H10 H11 H12 H13 H14 H15 H16 H17 H18].
  assert (Ht : forall o' t, map_get o' (map_set o (Task p None [OpenerResumes r]) (tasks s)) = Some t -> (o' = o /\ t = Task p None [OpenerResumes r]) \/ (o' <> o /\ map_get o' (tasks s) = Some t)).
  { intros o' t. rewrite map_get_set. case_decide; [intros [= <-]; by left|by right]. }
  assert (Hk : forall o' t, map_get o' (tasks s) = Some t -> map_get o' (map_set o (Task p None [OpenerResumes r]) (tasks s)) = Some t).
  { intros o' t E. rewrite map_get_set_ne; [done|]. intros ->. apply H4 in E. unfold o in E. lia. }
  assert (Ho' : forall p' o', opened s p' o' -> map_get p' (map_set p o (openTasks s)) = Some o') by (intros p' o' E; rewrite map_get_set_ne; [done|congruence]).
  assert (Hi : forall p' o', map_get p' (map_set p o (openTasks s)) = Some o' -> (p' = p /\ o' = o) \/ opened s p' o').
  { intros p' o'. rewrite map_get_set. case_decide; [intros [= <-]; by left|by right]. }
  assert (Hw : forall s' o' x, tasks s' = map_set o (Task p None [OpenerResumes r]) (tasks s) -> waiting s' (queue s) o' x -> waiting s (queue s) o' x \/ (o' = o /\ x = OpenerResumes r)).
  { intros s' o' x Es [(t & Et & Hx)|Hq]; [|left; by right]. rewrite Es in Et. apply Ht in Et as [[-> ->]|[_ Et]]; [right; by apply list_elem_of_singleton in Hx|left; left; eauto]. }
  set (s' := s <| next := S o |> <| objects := _ |> <| tasks := _ |> <| openTasks := _ |>).
  assert (Hcl : forall o', is_closed s' o' = is_closed s o') by done.
  assert (Hsv : forall p' o', served s p' o' -> served s' p' o') by (intros p' o' [Hop (t & w & Et & Ew)]; split; [by apply Ho'|exists t, w; split; [by apply Hk|done]]).
  constructor; try done.
  - intros r' Hr'%H3. cbn. lia.
  - intros o' t [[-> _]|[_ E%H4]]%Ht; cbn; lia.
  - intros p' o' [[-> ->]|E]%Hi; [eexists; split; [apply map_get_set_eq|done]|]. destruct (H6 _ _ E) as (t & Et & <-). eauto.
  - intros o' t [[-> ->]|[_ E]]%Ht Hs; [apply map_get_set_eq|]. by apply Ho', H7.
  - intros o' t [[-> ->]|[_ E]]%Ht Hs; [done|by eapply H8].
  - intros o' x (t & Et & Hs)%H9. eauto.
  - intros p' o' E. rewrite Hcl. apply Hi in E as [[_ ->]|E]; [|by eapply H10]. apply bool_decide_eq_false. intros Hin%H18. unfold o in Hin. lia.
  - intros o' t w [[-> ->]|[Hne E]]%Ht Ew Hc; [done|]. rewrite Hcl in Hc. apply Ho'. by eapply H11.
  - intros r' e' o' E Eo. apply Hsv. by eapply H12.
  - intros p' x o' Ex Eo. destruct (H13 _ _ _ Ex Eo) as [Hs Hct]. split; [by apply Hsv|done].
  - intros o' x r' Hwt Hx. apply Hw in Hwt as [Hwt|[-> ->]]; [|injection Hx as <-; apply map_get_elem_of in Er; apply (list_elem_of_fmap_2 fst), H3 in Er; cbn in *; lia|done]. specialize (H14 _ _ _ Hwt Hx). cbn. lia.
  - intros o' x r' e' t Hwt Hx Ee Et. apply Hw in Hwt as [Hwt|[-> ->]]; [| |done].
    + apply Ht in Et as [[-> ->]|[_ Et]].
      * exfalso. destruct Hwt as [(t & Et & _)|Hq]; [apply H4 in Et; unfold o in Et; lia|]. destruct (H9 _ _ Hq) as (t & Et & _). apply H4 in Et. unfold o in Et. lia.
      * destruct (H15 _ _ _ _ _ Hwt Hx Ee Et) as [-> Hop]. split; [done|]. intros Hs. by apply Ho', Hop.
    + injection Hx as <-. cbn in Ee. rewrite Er in Ee. injection Ee as <-. cbn in Et. rewrite map_get_set_eq in Et. injection Et as <-. split; [done|]. intros _. apply map_get_set_eq.
  - intros o' p' t Hwt Et. apply Hw in Hwt as [Hwt|[_ [=]]]; [|done]. apply Ht in Et as [[-> ->]|[_ Et]].
    + exfalso. destruct Hwt as [(t & Et & _)|Hq]; [apply H4 in Et; unfold o in Et; lia|]. destruct (H9 _ _ Hq) as (t & Et & _). apply H4 in Et. unfold o in Et. lia.
    + destruct (H16 _ _ _ Hwt Et) as [-> [Hop|[[=] _]]]. split; [done|]. left. by apply Ho'.
  - intros p' o' Hct [[-> ->]|E]%Hi; [pose proof (count_at_elem _ _ _ _ Er Hp) as Hps; cbn in Hct; lia|]. destruct (H17 _ _ Hct E) as [(t & Et & Hx)|Hq]; [|by right]. left. exists t. split; [by apply Hk|done].
  - intros o' Hin%H18. cbn. lia.
Qed.

Definition captured_ok (captured : caches) (s : hooks) : Prop := forall p o, map_get p (docCache captured) = Some o -> served s p o.

Lemma start_core new_document captured s x : captured_ok captured s -> core true (queue s) s -> cache_ok s ->
  let s' := start_effect new_document captured s x in core true (queue s') s' /\ cache_ok s' /\ captured_ok captured s'.
Proof.
  destruct x as [[i p] f]. intros Hcap H Hc. cbv zeta. unfold start_effect. pose proof (core_add_run true (queue s) s i p f H) as H1.
  set (r := next s) in *. set (e := Effect i p f false None) in *. set (s1 := s <| next := S r |> <| active := _ |> <| subscriberCounts := _ |>) in *.
  assert (Er : map_get r (active s1) = Some e). { cbn. rewrite <- map_set_notin, map_get_set_eq; [done|]. intros Hin. apply (c_fresh _ _ _ H) in Hin. unfold r in Hin. lia. }
  assert (Hc1 : cache_ok s1) by exact Hc. assert (Hcap1 : captured_ok captured s1) by exact Hcap. change (queue s) with (queue s1) in H1. clearbody s1.
  destruct (map_get p (docCache captured)) as [o|] eqn:Ecap; [|destruct (map_get p (openTasks s1)) as [o|] eqn:Eo].
  - pose proof (subscribe_frame r e OtherCallback o s1) as (E1 & E2 & E3 & E4 & E5 & _). cbv zeta in *. rewrite E5. split_and!.
    + apply core_subscribe; [done|by apply Hcap1|done].
    + intros p' o'. rewrite E4, E2. apply Hc1.
    + intros p' o' E%Hcap1. unfold served in *. by rewrite E1, E3.
  - destruct (c_task _ _ _ H1 _ _ Eo) as (t & Et & Ep). pose proof (register_frame o (WaiterResumes r) s1) as (E1 & E2 & _ & _ & _ & _ & E7 & _ & E9). split_and!.
    + eapply core_register; [exact Et| |done|exact H1]. intros r' [= <-]. split; [apply (c_fresh _ _ _ H1), map_get_is_Some; eauto|]. intros e'. rewrite Er. intros [= <-]. rewrite Ep. by split.
    + intros p' o'. rewrite E7, E2. apply Hc1.
    + intros p' o' E%Hcap1. by eapply served_frame.
  - split_and!; [by apply (core_new_task s1 p r e (new_document p))|exact Hc1|]. intros p' o' [Hop (t & v & Et & Ev)]%Hcap1. split; [cbn; rewrite map_get_set_ne; congruence|]. exists t, v. split; [|done].
    cbn. rewrite map_get_set_ne; [done|]. intros ->. apply (c_fresh_task _ _ _ H1) in Et. lia.
Qed.

(** ** Reactions *)

Lemma core_pop b o x q s : (forall p, x = Evict p -> count_at p (active s) <> 0) -> core b ((o, x) :: q) s -> core b q s.
Proof.
  intros Hx [H1 H2 H3 H4 H5 H6 H7 H8 H9 H10 H11 H12 H13 H14 H15 H16 H17 H18].
  assert (Hw : forall o' x', waiting s q o' x' -> waiting s ((o, x) :: q) o' x') by (intros o' x' [H|H]; [by left|right; by apply elem_of_cons; right]).
  constructor; eauto.
  - intros o' x' Hin. eapply H9. apply elem_of_cons. by right.
  - intros p o' Hct Ho. destruct (H17 p o' Hct Ho) as [H|H]; [by left|]. apply elem_of_cons in H as [H|H]; [|by right]. injection H as -> E. by destruct (Hx p (eq_sym E)).
Qed.

Lemma core_evicted o p q s s' t : core false ((o, Evict p) :: q) s -> map_get o (tasks s) = Some t ->
  (exists e, status t = Some (Err e)) \/ ((exists v, status t = Some (Ok v)) /\ count_at p (active s) = 0 /\ is_closed s' o = true) ->
  openTasks s' = map_delete p (openTasks s) -> openTaskResults s' = openTaskResults s -> subscriberCounts s' = subscriberCounts s -> tasks s' = tasks s ->
  active s' = active s -> next s' = next s -> (forall o', o' ∈ released s' <-> o' ∈ released s \/ (o' = o /\ is_closed s' o = true)) -> core false q s'.
Proof.
  intros [H1 H2 H3 H4 H5 H6 H7 H8 H9 H10 H11 H12 H13 H14 H15 H16 H17 H18] Et Hst E1 E2 E3 E4 E5 E6 Hrel.
  assert (Hcl : forall o', o' <> o -> is_closed s' o' = is_closed s o') by (intros o' Hne; apply bool_decide_ext; rewrite Hrel; naive_solver).
  destruct (H16 o p t) as [Ep Hopen]; [right; by left|done|].
  assert (Hd : forall p' o', map_get p' (map_delete p (openTasks s)) = Some o' <-> p' <> p /\ opened s p' o') by (intros p' o'; rewrite map_get_delete; case_decide; naive_solver).
  assert (Hsame : forall o', opened s p o' -> o' = o) by (intros o' Ho'; destruct Hopen as [Ho|[_ Hn]]; congruence).
  assert (Hnot : forall p' o' t' v, opened s p' o' -> map_get o' (tasks s) = Some t' -> status t' = Some (Ok v) -> (p' = p -> 0 < count_at p (active s)) -> p' <> p).
  { intros p' o' t' v Ho' Et' Ev Hct ->. rewrite (Hsame _ Ho') in *. simplify_eq. destruct Hst as [[e He]|(_ & Hc & _)]; [congruence|]. specialize (Hct eq_refl). lia. }
  assert (Hsv : forall p' o', served s p' o' -> (p' = p -> 0 < count_at p (active s)) -> served s' p' o').
  { intros p' o' [Ho' (t' & v & Et' & Ev)] Hct. split; [|exists t', v; by rewrite E4]. rewrite E1. apply Hd. split; [by eapply Hnot|done]. }
  assert (Hw : forall o' x', waiting s' q o' x' -> waiting s ((o, Evict p) :: q) o' x').
  { intros o' x' [H|H]; [left; by rewrite E4 in H|right; by apply elem_of_cons; right]. }
  constructor; rewrite ?E1, ?E2, ?E3, ?E4, ?E5, ?E6; try done.
  - intros p' o' [_ Ho]%Hd. eauto.
  - intros o' t' Et' Es. apply Hd. split; [|by apply H7]. intros Ep'. pose proof (H7 _ _ Et' Es) as Ho'. rewrite Ep' in Ho'. rewrite (Hsame _ Ho') in *. simplify_eq.
    destruct Hst as [[e He]|((v & Hv) & _)]; congruence.
  - intros o' x' Hin. eapply H9. apply elem_of_cons. by right.
  - intros p' o' [Hp Ho]%Hd. rewrite Hcl; [by eapply H10|]. intros ->. destruct (H6 _ _ Ho) as (t' & Et' & E). congruence.
  - intros o' t' v Et' Ev Hc. apply Hd. destruct (decide (o' = o)) as [->|Hne].
    + simplify_eq. destruct Hst as [[e He]|(_ & _ & Hx)]; congruence.
    + rewrite Hcl in Hc by done. pose proof (H11 _ _ _ Et' Ev Hc) as Ho'. split; [|done]. intros Ep'. rewrite Ep' in Ho'. by apply Hne, Hsame.
  - intros r e o' Er Eo. apply Hsv; [by apply (H12 r)|]. intros Ep'. by eapply count_at_elem.
  - intros p' x o' Ex Eo. destruct (H13 _ _ _ Ex Eo) as [Hs Hct]. split; [|done]. apply Hsv; [done|]. by intros <-.
  - intros o' x' r Hwt%Hw. by eapply H14.
  - intros o' x' r e t' Hwt%Hw Hx Ee Et'. destruct (H15 _ _ _ _ _ Hwt Hx Ee Et') as [Epe Hop]. split; [done|]. intros Hne. apply Hd. pose proof (Hop Hne) as Ho'. split; [|done].
    intros Ep'. rewrite Ep' in Ho', Epe. rewrite (Hsame _ Ho') in *. simplify_eq. destruct Hst as [[e' He]|(_ & Hc & _)]; [by apply (Hne e')|]. pose proof (count_at_elem _ _ _ _ Ee eq_refl). rewrite Epe in *. lia.
  - intros o' p' t' Hwt%Hw Et'. destruct (H16 _ _ _ Hwt Et') as [-> Ho']. split; [done|]. rewrite map_get_delete. case_decide; [by right|]. destruct Ho' as [Ho'|[_ Ho']]; [by left|by right].
  - intros p' o' Hct [Hp Ho]%Hd. destruct (H17 _ _ Hct Ho) as [H|H]; [left; by rewrite E4|]. apply elem_of_cons in H as [H|H]; [|by right]. injection H as -> ->. done.
  - intros o' [Hin%H18|[-> _]]%Hrel; [done|]. by apply H4 in Et.
Qed.

Lemma core_pop_resume b o x q r s : resumes x = Some r -> core b ((o, x) :: q) s -> core b q s.
Proof. intros Hx. apply core_pop. by intros p ->. Qed.

(** A run that waited resumes and gets the document. *)
Lemma resumed_core o x q r e c s t v rd wr (store : bool) : core false ((o, x) :: q) s -> resumes x = Some r -> map_get r (active s) = Some e ->
  map_get o (tasks s) = Some t -> status t = Some (Ok v) ->
  let s1 := if store then s <| openTaskResults := map_set (path e) (Opened (Some o) (Some rd) (Some wr)) (openTaskResults s) |> else s in
  core false q (subscribe r e c o (rebuild s1)) /\ cache_ok (subscribe r e c o (rebuild s1)).
Proof.
  intros H Hx Er Et Ev s1. destruct (c_resumes _ _ _ H o x r e t) as [Ep Ho]; [right; by left|done..|].
  assert (Hs : served s (path e) o) by (split; [rewrite Ep; apply Ho; congruence|eauto]).
  apply (core_pop_resume _ _ _ _ r) in H; [|done].
  assert (H1 : core false q s1) by (unfold s1; destruct store; [|done]; apply core_set_result; [|done]; intros o' [= <-]; split; [done|by eapply count_at_elem]).
  apply core_rebuild in H1 as [H1 Hc1]. pose proof (subscribe_frame r e c o (rebuild s1)) as (_ & E2 & _ & E4 & _). split.
  - apply core_subscribe; [by unfold s1; destruct store| |done]. by unfold s1; destruct store.
  - intros p o'. rewrite E4, E2. apply Hc1.
Qed.

Lemma react_core o x q s : core false ((o, x) :: q) s -> cache_ok s -> core false q (react s (o, x)) /\ cache_ok (react s (o, x)).
Proof.
  intros H Hc. unfold react. destruct (c_ready _ _ _ H o x) as (t & Et & Hst); [by left|]. rewrite Et. cbn. destruct (status t) as [[[rd wr]|err]|] eqn:Ev; [| |done].
  - destruct x as [r|r|p].
    + destruct (map_get r (active s)) as [e|] eqn:Er; [by apply (resumed_core o (OpenerResumes r) q r e OpenerCallback s t (rd, wr) rd wr true)|]. split; [by eapply core_pop_resume; [|exact H]|done].
    + destruct (map_get r (active s)) as [e|] eqn:Er; [|split; [by eapply core_pop_resume; [|exact H]|done]].
      pose proof (resumed_core o (WaiterResumes r) q r e OtherCallback s t (rd, wr) rd wr (negb (map_has (path e) (openTaskResults s)))) as Hr.
      destruct (map_has (path e) (openTaskResults s)); by apply Hr.
    + rewrite (c_counts _ _ _ H). destruct (Nat.eqb_spec (count_at p (active s)) 0) as [E0|E0]; [|split; [eapply core_pop; [|done]; by intros p' [= <-]|done]].
      split; [|exact Hc]. eapply (core_evicted o p q s _ t H Et); try done.
      * right. split_and!; [eauto|done|]. apply bool_decide_eq_true. cbn. apply elem_of_app. right. by apply list_elem_of_singleton.
      * intros o'. unfold is_closed. rewrite bool_decide_eq_true. cbn. rewrite !elem_of_app, !list_elem_of_singleton. naive_solver.
  - destruct x as [r|r|p]; [split; [by eapply core_pop_resume; [|exact H]|done]..|]. split; [|exact Hc]. eapply (core_evicted o p q s _ t H Et); try done; [left; eauto|].
    intros o'. unfold is_closed. rewrite bool_decide_eq_true. cbn. naive_solver.
Qed.


Lemma foldl_react_core q s : core false q s -> cache_ok s -> core false [] (foldl react s q) /\ cache_ok (foldl react s q).
Proof. revert s. induction q as [|[o x] q IH]; intros s H Hc; [done|]. cbn [foldl]. destruct (react_core o x q s H Hc). by apply IH. Qed.

Lemma react_queue q s : queue (foldl react s q) = queue s.
Proof.
  revert s. induction q as [|[o x] q IH]; intros s; [done|]. cbn [foldl]. rewrite IH. unfold react. destruct (map_get o (tasks s) ≫= status) as [[[rd wr]|err]|]; [| |done].
  - destruct x as [r|r|p]; [destruct (map_get r (active s)) as [e|]; [|done]..|].
    + pose proof (subscribe_frame r e OpenerCallback o (rebuild (s <| openTaskResults := map_set (path e) (Opened (Some o) (Some rd) (Some wr)) (openTaskResults s) |>))) as (_ & _ & _ & _ & E & _). by rewrite E.
    + set (s1 := if map_has _ _ then _ else _). pose proof (subscribe_frame r e OtherCallback o (rebuild s1)) as (_ & _ & _ & _ & E & _). cbv zeta in *. rewrite E. unfold s1. by destruct (map_has _ _).
    + by destruct (_ =? 0).
  - by destruct x.
Qed.

Lemma core_commit q s : core true q s -> core false q s.
Proof. intros [H1 H2 H3 H4 H5 H6 H7 H8 H9 H10 H11 H12 H13 H14 H15 H16 H17 H18]. constructor; try done. intros o p t Hw Et. destruct (H16 _ _ _ Hw Et) as [? [?|[[=] _]]]. auto. Qed.

(** With no reaction ready every eviction is still to come. *)
Lemma core_idle s : core false [] s -> core true [] s.
Proof.
  intros [H1 H2 H3 H4 H5 H6 H7 H8 H9 H10 H11 H12 H13 H14 H15 H16 H17 H18]. constructor; try done. intros o p t Hw Et. destruct (H16 _ _ _ Hw Et) as [Ep _]. split; [done|]. left.
  destruct Hw as [(t' & Et' & Hx)|Hq]; [|by apply elem_of_nil in Hq]. rewrite Et in Et'. injection Et' as <-. rewrite <- Ep. apply H7; [done|]. destruct (status t) eqn:E; [|done].
  rewrite (H8 _ _ Et) in Hx by congruence. by apply elem_of_nil in Hx.
Qed.

Record ok (s : hooks) : Prop := { ok_core : core true [] s; ok_cache : cache_ok s; ok_queue : queue s = [] }.

Lemma drain_ok s : core false (queue s) s -> cache_ok s -> ok (drain s).
Proof.
  intros H Hc. unfold drain. set (s0 := s <| queue := [] |>). assert (H0 : core false (queue s) s0) by (by apply core_ext with s).
  destruct (foldl_react_core (queue s) s0 H0 Hc) as [H1 Hc1]. split; [by apply core_idle|done|]. by rewrite react_queue.
Qed.

Lemma cleanups_core cs s : core true (queue s) s -> cache_ok s ->
  let s' := foldl cleanup s cs in core true (queue s') s' /\ cache_ok s' /\ forall p o, served s p o -> served s' p o.
Proof.
  revert s. induction cs as [|r cs IH]; intros s H Hc; [done|]. cbn. destruct (cleanup_core s r H Hc) as [H1 Hc1]. destruct (IH _ H1 Hc1) as (H2 & Hc2 & Hs). split_and!; try done.
  intros p o Hp. apply Hs. pose proof (cleanup_unchanged s r) as [E1 E2]. by eapply served_frame.
Qed.

Lemma starts_core new_document captured xs s : captured_ok captured s -> core true (queue s) s -> cache_ok s ->
  let s' := foldl (start_effect new_document captured) s xs in core true (queue s') s' /\ cache_ok s'.
Proof.
  revert s. induction xs as [|x xs IH]; intros s Hcap H Hc; [done|]. cbn. destruct (start_core new_document captured s x Hcap H Hc) as (H1 & Hc1 & Hcap1). by apply IH.
Qed.

Lemma settle_core o r s : ok s -> core true (queue (settle o r s)) (settle o r s) /\ cache_ok (settle o r s).
Proof.
  intros [H Hc Hq]. unfold settle. destruct (map_get o (tasks s)) as [t|] eqn:Et; [|by rewrite Hq]. destruct (status t) eqn:Es; [by rewrite Hq|]. split; [|exact Hc].
  destruct H as [H1 H2 H3 H4 H5 H6 H7 H8 H9 H10 H11 H12 H13 H14 H15 H16 H17 H18]. set (t1 := t <| status := Some r |> <| reactions := [] |>).
  assert (Hg : forall o' t', map_get o' (map_set o t1 (tasks s)) = Some t' -> (o' = o /\ t' = t1) \/ (o' <> o /\ map_get o' (tasks s) = Some t')).
  { intros o' t'. rewrite map_get_set. case_decide; [intros [= <-]; by left|by right]. }
  assert (Hp : forall o' t', map_get o' (tasks s) = Some t' -> exists t'', map_get o' (map_set o t1 (tasks s)) = Some t'' /\ t_path t'' = t_path t').
  { intros o' t' E. rewrite map_get_set. case_decide; [|eauto]. subst o'. eexists. split; [done|]. by simplify_eq. }
  assert (Hw : forall s' o' x, tasks s' = map_set o t1 (tasks s) -> waiting s' (map (pair o) (reactions t)) o' x <-> waiting s [] o' x).
  { intros s' o' x Es'. unfold waiting. rewrite Es'. split.
    - intros [(t' & E & Hx)|Hin]; [apply Hg in E as [[-> ->]|[_ E]]; [by apply elem_of_nil in Hx|left; eauto]|]. apply list_elem_of_fmap in Hin as (y & [= -> ->] & Hin). left. eauto.
    - intros [(t' & E & Hx)|Hin]; [|by apply elem_of_nil in Hin]. destruct (decide (o' = o)) as [->|Hne]; [right; simplify_eq; by apply (list_elem_of_fmap_2 (pair o))|].
      left. exists t'. by rewrite map_get_set_ne. }
  assert (Hs : forall s' p o', openTasks s' = openTasks s -> tasks s' = map_set o t1 (tasks s) -> served s p o' -> served s' p o').
  { intros s' p o' Eo Es' [Ho (t' & v & E & Ev)]. split; [by rewrite Eo|]. exists t', v. rewrite Es', map_get_set_ne; [done|]. intros ->. congruence. }
  constructor; cbn; try done.
  - intros o' t' [[-> ->]|[_ E]]%Hg; eauto.
  - intros p o' Ho. destruct (H6 _ _ Ho) as (t' & E & <-). destruct (Hp _ _ E) as (t'' & ? & ?). eauto.
  - intros o' t' [[-> ->]|[_ E]]%Hg E'; [done|by apply H7].
  - intros o' t' [[-> ->]|[_ E]]%Hg E'; [done|by eapply H8].
  - intros o' x Hin. apply list_elem_of_fmap in Hin as (y & [= -> ->] & Hin). exists t1. by rewrite map_get_set_eq.
  - intros o' t' v [[-> ->]|[_ E]]%Hg E' Hcl; [by apply (H7 _ _ Et)|by eapply H11].
  - intros r' e o' Er Eo. eapply Hs; [done..|]. by eapply H12.
  - intros p x o' Ex Eo. destruct (H13 _ _ _ Ex Eo) as [Hsv Hct]. split; [|done]. by eapply Hs.
  - intros o' x r' Hwt. apply Hw in Hwt; [|done]. by eapply H14.
  - intros o' x r' e t' Hwt Hx Ee E. apply Hw in Hwt; [|done]. apply Hg in E as [[-> ->]|[_ E]]; [|by eapply H15]. destruct (H15 _ _ _ _ _ Hwt Hx Ee Et) as [Ep _]. split; [done|]. intros _. by apply (H7 _ _ Et).
  - intros o' p t' Hwt E. apply Hw in Hwt; [|done]. apply Hg in E as [[-> ->]|[_ E]]; [|by eapply H16]. by destruct (H16 _ _ _ Hwt Et).
  - intros p o' Hct Ho. apply Hw; [done|]. by apply H17.
Qed.

Lemma call_ok c p v rd wr s : ok s -> ok (call c p v rd wr s).
Proof.
  intros [H Hc Hq]. set (x := map_get p (openTaskResults s)).
  assert (Hset : forall s', openTasks s' = openTasks s -> (openTaskResults s' = openTaskResults s \/ openTaskResults s' = map_set p (Opened (x ≫= docRef) (Some rd) (Some wr)) (openTaskResults s)) ->
    subscriberCounts s' = subscriberCounts s -> tasks s' = tasks s -> active s' = active s -> next s' = next s -> released s' = released s -> queue s' = queue s -> docCache (context s') = docCache (context s) -> ok s').
  { intros s' E1 E2 E3 E4 E5 E6 E7 E8 E9. set (s1 := s <| openTaskResults := openTaskResults s' |>).
    assert (H1 : core true [] s1).
    { destruct E2 as [E2|E2]; unfold s1; rewrite E2; [by apply core_ext with s|]. apply core_set_result; [|done]. cbn. intros o (y & Ey & Eo)%bind_Some. by apply (c_result _ _ _ H p y). }
    split; [by apply core_ext with s1| |congruence]. intros p' o. rewrite E9. intros (y & Ey & Eo)%Hc. destruct E2 as [E2|E2]; rewrite E2; [eauto|]. rewrite map_get_set.
    case_decide as Ep; [|eauto]. subst p'. eexists. split; [done|]. cbn. unfold x. by rewrite Ey. }
  unfold call. fold x. destruct c; [apply Hset; try done; by right|]. destruct x as [y|] eqn:Ex; apply Hset; try done; [by right|by left].
Qed.

Lemma update_ok o v rd wr isLocal s : ok s -> ok (update o v rd wr isLocal s).
Proof.
  intros H. unfold update. destruct (map_get o (objects s)) as [x|]; [|done]. set (f := fun x : object => x <| value := v |>).
  assert (H0 : ok (on_object o f s)).
  { pose proof (on_object_frame o f s) as (_ & E2 & _ & _ & _ & _ & E7 & E8 & _). destruct H as [H Hc Hq]. split; [by apply core_on_object| |congruence]. intros p o'. rewrite E7, E2. apply Hc. }
  revert H0. generalize (on_object o f s). induction (handlers x) as [|[i [[c p] fl]] hs IH]; intros s0 H0; [done|]. cbn [foldl]. apply IH. destruct (hears fl isLocal); [by apply call_ok|done].
Qed.

Lemma run_ok new_document ops : ok (run new_document ops).
Proof.
  unfold run. assert (Hw : forall o x, ~ waiting new_hooks [] o x) by (intros o x [(t & [=] & _)|Hin]; by apply elem_of_nil in Hin).
  assert (H0 : ok new_hooks).
  { split; [|done|done]. constructor; try done; try apply NoDup_nil_2; try (intros * Hin; by apply elem_of_nil in Hin); intros * Hin; by apply Hw in Hin. }
  revert H0. generalize new_hooks. induction ops as [|x ops IH]; intros s Hs; [done|]. cbn [foldl]. apply IH. destruct x as [cs xs|o r|o v rd wr l]; cbn [exec].
  - destruct Hs as [H Hc Hq]. rewrite <- Hq in H. destruct (cleanups_core cs s H Hc) as (H1 & Hc1 & Hs1).
    destruct (starts_core new_document (context s) xs (foldl cleanup s cs)) as [H2 Hc2]; [|done|done|apply drain_ok; [by apply core_commit|done]].
    intros p o (x & Ex & Eo)%Hc. apply Hs1. by apply (c_result _ _ _ H p x o).
  - destruct (settle_core o r s Hs) as [H1 Hc1]. apply drain_ok; [by apply core_commit|done].
  - by apply update_ok.
Qed.

(** ** What the hooks guarantee *)

(** C26. Components share their documents: whatever is mounted, updated and unmounted, and
    whenever opening succeeds or fails, all mounted runs that are subscribed at a path
    hold the same document, which was opened for that path and was not closed under them;
    and the shared count of a path is the number of its mounted runs. *)
Theorem hooks_share_document new_document ops : let s := run new_document ops in
  (forall r r' e e' o o', map_get r (active s) = Some e -> map_get r' (active s) = Some e' -> path e = path e' -> ref e = Some o -> ref e' = Some o' ->
     o = o' /\ o ∉ released s /\ exists t, map_get o (tasks s) = Some t /\ t_path t = path e) /\
  (forall p, default 0 (map_get p (subscriberCounts s)) = count_at p (active s)).
Proof.
  intros s. pose proof (ok_core _ (run_ok new_document ops)) as H. fold s in H. split; [|apply H]. intros r r' e e' o o' Er Er' Ep Eo Eo'.
  pose proof (c_ref _ _ _ H _ _ _ Er Eo) as [Ho _]. pose proof (c_ref _ _ _ H _ _ _ Er' Eo') as [Ho' _]. rewrite <- Ep in Ho'. split_and!; [congruence| |by apply (c_task _ _ _ H)].
  apply (c_open _ _ _ H) in Ho. by apply bool_decide_eq_false in Ho.
Qed.

(** C27. Nothing is left open: when no opening is under way, a path that no component shows
    has no open document; every document that was opened for it has been closed. *)
Theorem documents_released new_document ops p : let s := run new_document ops in
  (forall o t, map_get o (tasks s) = Some t -> status t <> None) -> count_at p (active s) = 0 ->
  forall o t v, map_get o (tasks s) = Some t -> t_path t = p -> status t = Some (Ok v) -> o ∈ released s.
Proof.
  intros s Hset Hct o t v Et Ep Ev. pose proof (ok_core _ (run_ok new_document ops)) as H. fold s in H. destruct (is_closed s o) eqn:Hc; [by apply bool_decide_eq_true in Hc|]. exfalso.
  pose proof (c_leak _ _ _ H _ _ _ Et Ev Hc) as Ho. rewrite Ep in Ho. destruct (c_release _ _ _ H _ _ Hct Ho) as [(t' & Et' & Hx)|Hq]; [|by apply elem_of_nil in Hq].
  rewrite (c_settled _ _ _ H _ _ Et' (Hset _ _ Et')) in Hx. by apply elem_of_nil in Hx.
Qed.

Lemma call_docCache c p v rd wr s : docCache (context (call c p v rd wr s)) = docCache (context s).
Proof. unfold call. destruct c; [done|]. by destruct (map_get p (openTaskResults s)). Qed.

Lemma update_docCache o v rd wr isLocal s : docCache (context (update o v rd wr isLocal s)) = docCache (context s).
Proof.
  unfold update. destruct (map_get o (objects s)) as [x|]; [|done]. set (f := fun x : object => x <| value := v |>).
  pose proof (on_object_frame o f s) as (_ & _ & _ & _ & _ & _ & E7 & _). rewrite <- E7. generalize (on_object o f s).
  induction (handlers x) as [|[i [[c p] fl]] hs IH]; intros s0; [done|]. cbn [foldl]. rewrite IH. destruct (hears fl isLocal); [apply call_docCache|done].
Qed.

(** The last run of a path is cleaned up. *)
Lemma last_cleanup s r e o : ok s -> map_get r (active s) = Some e -> count_at (path e) (active s) = 1 -> opened s (path e) o -> (exists t v, map_get o (tasks s) = Some t /\ status t = Some (Ok v)) ->
  map_get (path e) (docCache (context (cleanup s r))) = None /\ queue (cleanup s r) = [(o, Evict (path e))] /\ map_get (path e) (subscriberCounts (cleanup s r)) = None /\ tasks (cleanup s r) = tasks s.
Proof.
  intros [H Hc Hq] Er Hct Ho (t & v & Et & Ev). pose proof (counts_less s r e (path e) (c_active _ _ _ H) Er (c_counts _ _ _ H)) as (En & _).
  pose proof (count_at_delete (path e) r e _ (c_active _ _ _ H) Er) as Ed. rewrite String.eqb_refl in Ed. unfold cleanup. rewrite Er.
  set (s1 := if subscribed e then _ else _).
  assert (E1 : subscriberCounts s1 = subscriberCounts s /\ openTasks s1 = openTasks s /\ tasks s1 = tasks s /\ queue s1 = queue s /\ openTaskResults s1 = openTaskResults s).
  { unfold s1. destruct (subscribed e); [|done]. cbn. destruct (map_get (path e) (openTaskResults s) ≫= docRef) as [o'|]; [|done]. unfold on_object. cbn. by destruct (map_get o' (objects s)). }
  clearbody s1. destruct E1 as (F1 & F2 & F3 & F4 & F5). rewrite F1. replace (pred (default 1 (map_get (path e) (subscriberCounts s)))) with 0 by lia.
  cbn [openTasks update_field]. rewrite F2, Ho. unfold register. cbn. rewrite F3, Et, Ev. cbn. rewrite ?F3, ?F4, ?F5, Hq, map_get_delete, decide_True by done. split_and!; try done.
  rewrite collect_get by (apply NoDup_map_delete, H). by rewrite map_get_delete, decide_True.
Qed.

Lemma subscribe_counts r e c o s : subscriberCounts (subscribe r e c o s) = subscriberCounts s.
Proof. unfold subscribe, on_effect, on_object. destruct (map_get o (objects s)); cbn; by destruct (map_get r (active s)). Qed.

Lemma drain_kept s o p t v : queue s = [(o, Evict p)] -> map_get o (tasks s) = Some t -> status t = Some (Ok v) -> default 0 (map_get p (subscriberCounts s)) <> 0 ->
  drain s = s <| queue := [] |>.
Proof. intros Eq Et Ev Hc. unfold drain. rewrite Eq. cbn. rewrite Et. cbn. rewrite Ev. destruct v. by destruct (Nat.eqb_spec (default 0 (map_get p (subscriberCounts s))) 0). Qed.

(** C28. A component that takes over a document loses it: when the only component that shows an
    open document is replaced in one commit by another (or runs its effect again with
    another filter), the new run is subscribed to the document but the document is gone
    from the cache, so that the change function the hook returns does nothing, whatever
    updates arrive afterwards. *)
Theorem takeover_loses_document new_document ops r e o i f updates : let s := run new_document ops in
  map_get r (active s) = Some e -> count_at (path e) (active s) = 1 -> change_target s (path e) = Some o ->
  let s' := exec new_document s (Commit [r] [(i, path e, f)]) in
  ref <$> map_get (next s) (active s') = Some (Some o) /\
  change_target (foldl (fun s u => let '(o, v, rd, wr, isLocal) := u in update o v rd wr isLocal s) s' updates) (path e) = None.
Proof.
  intros s Er Hct Hcc s'. assert (Hok : ok s) by apply run_ok. clearbody s. destruct (ok_cache _ Hok _ _ Hcc) as (x & Ex & Eo). destruct (c_result _ _ _ (ok_core _ Hok) _ _ _ Ex Eo) as [[Ho Hs] _].
  destruct (last_cleanup s r e o Hok Er Hct Ho Hs) as (E1 & E2 & E3 & E4). destruct Hs as (t & v & Et & Ev).
  assert (En : next (cleanup s r) = next s /\ next s ∉ (active (cleanup s r)).*1).
  { destruct (cleanup_core s r) as [H1 _]; [by rewrite (ok_queue _ Hok); apply Hok|by apply Hok|]. assert (En : next (cleanup s r) = next s) by apply cleanup_next. split; [done|].
    intros Hin%(c_fresh _ _ _ H1). lia. }
  destruct En as [En Hfresh]. set (s1 := cleanup s r) in *. set (e1 := Effect i (path e) f false None).
  set (s2 := s1 <| next := S (next s1) |> <| active := active s1 ++ [(next s1, e1)] |> <| subscriberCounts := map_set (path e) (S (default 0 (map_get (path e) (subscriberCounts s1)))) (subscriberCounts s1) |>).
  assert (Er2 : map_get (next s) (active s2) = Some e1) by (cbn; rewrite En, <- map_set_notin, map_get_set_eq by done; done).
  set (s3 := subscribe (next s1) e1 OtherCallback o s2).
  pose proof (subscribe_frame (next s1) e1 OtherCallback o s2) as (G1 & G2 & G3 & G4 & G5 & G6). fold s3 in G1, G2, G3, G4, G5, G6.
  assert (Es' : s' = s3 <| queue := [] |>).
  { unfold s', exec. cbn [foldl]. fold s1. unfold start_effect. unfold change_target in Hcc. rewrite Hcc. fold e1 s2 s3. eapply drain_kept; [by rewrite G5|by rewrite G3; cbn; rewrite E4|exact Ev|].
    unfold s3. rewrite subscribe_counts. cbn. by rewrite map_get_set_eq. }
  split.
  - rewrite Es'. cbn. unfold s3, subscribe. set (s4 := on_object o _ s2). unfold on_effect. assert (Ea : active s4 = active s2) by apply on_object_frame. rewrite Ea, En, Er2. cbn. by rewrite map_get_set_eq.
  - assert (Hn : change_target s' (path e) = None) by (rewrite Es'; unfold change_target; cbn; by rewrite G4). revert Hn. generalize s'. clear.
    induction updates as [|[[[[o' v] rd] wr] l] us IH]; intros s' Hn; [done|]. cbn [foldl]. apply IH. unfold change_target. by rewrite update_docCache.
Qed.

End React.

(** ** A concrete page *)

Abbreviation page := (@run nat nat (fun _ => 0)).
Abbreviation page_op := (@op nat nat).

(** Two components show a document that opens once; data arrives. *)
Definition shown_twice : list page_op := [Commit [] [(0, "/a", all); (1, "/a", remote)]; Settle 1 (Ok ([7], [8])); Update 1 5 [7] [8] false].

Example shown_twice_state : ref <$> map_get 0 (active (page shown_twice)) = Some (Some 1) /\ ref <$> map_get 2 (active (page shown_twice)) = Some (Some 1) /\
  map_get "/a" (docDataCache (context (page shown_twice))) = Some 5 /\ change_target (page shown_twice) "/a" = Some 1.
Proof. by vm_compute. Qed.

Lemma hooks_share_document_witness : 1 = 1 /\ 1 ∉ released (page shown_twice) /\ exists t, map_get 1 (tasks (page shown_twice)) = Some t /\ t_path t = "/a".
Proof.
  destruct (hooks_share_document (fun _ => 0) shown_twice) as [H _].
  apply (H 0 2 (Effect 0 "/a" all true (Some 1)) (Effect 1 "/a" remote true (Some 1))); vm_compute; reflexivity.
Defined.

(** Both components go; the document is closed. *)
Definition all_gone : list page_op := shown_twice ++ [Commit [0] []; Commit [2] []].

Lemma documents_released_witness : 1 ∈ released (page all_gone).
Proof.
  apply (documents_released (fun _ => 0) all_gone "/a") with (Task "/a" (Some (Ok ([7], [8]))) []) ([7], [8]); [|vm_compute; reflexivity..].
  intros o t Ht. assert (E : tasks (page all_gone) = [(1, Task "/a" (Some (Ok ([7], [8]))) [])]) by (vm_compute; reflexivity).
  rewrite E in Ht. clear E. cbn in Ht. destruct (decide (o = 1)); [|discriminate Ht]. injection Ht as <-. discriminate.
Defined.

(** A list view and a detail view of one document: the second replaces the first. *)
Definition listed : list page_op := [Commit [] [(0, "/a", all)]; Settle 1 (Ok ([], []))].

Definition lister : effect := Effect 0 "/a" all true (Some 1).

Definition later (s : @hooks nat nat) : hooks :=
  foldl (fun s u => let '(o, v, rd, wr, isLocal) := u in update o v rd wr isLocal s) s [(1, 6, [], [], false)].

Lemma takeover_loses_document_witness : next (page listed) = 2 /\
  let s' := exec (fun _ => 0) (page listed) (Commit [0] [(9, path lister, all)]) in
  ref <$> map_get (next (page listed)) (active s') = Some (Some 1) /\ change_target (later s') (path lister) = None.
Proof.
  split; [vm_compute; reflexivity|].
  assert (E1 : map_get 0 (active (page listed)) = Some lister) by (vm_compute; reflexivity).
  assert (E2 : count_at (path lister) (active (page listed)) = 1) by (vm_compute; reflexivity).
  assert (E3 : change_target (page listed) (path lister) = Some 1) by (vm_compute; reflexivity).
  unfold later. exact (takeover_loses_document (fun _ => 0) listed 0 lister 1 9 all [(1, 6, [], [], false)] E1 E2 E3).
Defined.

End React.
