(* ===== verification/Node.v ===== *)
(** * The pinning node

    Models [packages/collabswarm/src/collabswarm-node.ts] and the ICE-server helpers of
    [collabswarm-config.ts] that it uses: the limit on concurrent pin operations, the walk
    over a published change tree, the handler of publish messages, [start] and [stop], and
    the server list that is written for browsers. A pin operation runs between the step
    that gives it a slot and the step in which it finishes. Parsing a CID, pinning and
    opening a document are parameters or events; the libp2p configuration is left out. *)
From stdpp Require Import base numbers list strings sets.
From Stdlib Require Import ZArith Lia.
From S2P Require Import Prelude TipsHash LoadQuorum Utils Wire ChangeTree Auth WriterCache Document Swarm.

Open Scope string_scope.
Open Scope list_scope.
Open Scope nat_scope.

Module Node.
Import ChangeTree.

(** ** Pin operations *)

Definition MAX_CONCURRENT_PINS : nat := 10.
Arguments MAX_CONCURRENT_PINS : simpl never.

Record pins := Pins {
  _seenCids : list string;
  _pinningCids : list string;
  _pinQueue : list string;      (** the operations that wait for a slot *)
  _activePins : nat;
  running : list string;        (** the operations that have one *)
}.

#[export] Instance settable_pins : Settable pins := fun s => Pins (_seenCids s) (_pinningCids s) (_pinQueue s) (_activePins s) (running s).

Definition no_pins : pins := Pins [] [] [] 0 [].

Definition acquirePinSlot (cid : string) (s : pins) : pins :=
  if _activePins s <? MAX_CONCURRENT_PINS then s <| _activePins := S (_activePins s) |> <| running := running s ++ [cid] |>
  else s <| _pinQueue := _pinQueue s ++ [cid] |>.

Definition releasePinSlot (s : pins) : pins :=
  match _pinQueue s with
  | next :: queue => s <| _pinQueue := queue |> <| running := running s ++ [next] |>
  | [] => s <| _activePins := pred (_activePins s) |>
  end.

Definition remove (x : string) (l : list string) : list string := List.filter (fun y => negb (String.eqb y x)) l.
Arguments remove : simpl never.

Section Pins.
  (** Whether [CID.parse] accepts the text. *)
  Context (cid_parse : string -> bool).

(** [_pinCID] up to its wait for a slot. *)
Definition pinCID (s : pins) (cid : string) : pins :=
  if set_has cid (_seenCids s) || set_has cid (_pinningCids s) then s
  else if negb (cid_parse cid) then s
  else acquirePinSlot cid (s <| _pinningCids := set_add cid (_pinningCids s) |>).

(** A running operation ends; [ok] tells whether the pin succeeded. *)
Definition finish (s : pins) (x : string * bool) : pins :=
  let (cid, ok) := x in
  if set_has cid (running s) then
    let s := s <| running := remove cid (running s) |> in
    let s := if ok then s <| _seenCids := set_add cid (_seenCids s) |> else s in
    releasePinSlot (s <| _pinningCids := remove cid (_pinningCids s) |>)
  else s.

(** [_pinNewCIDs]: a call starts all pins of its subtree before anything else happens;
    deferred children make the promise reject. *)
Fixpoint pinNewCIDs {C} (cid : string) (n : CRDTChangeNode C) (s : pins) : result unit * pins :=
  let s := pinCID s cid in
  match n with
  | Node _ _ _ DeferredChildren => (throw "Currently IPLD deferred nodes are not supported!", s)
  | Node _ _ _ NoChildren => (Ok tt, s)
  | Node _ _ _ (Children l) =>
      (fix go (l : list (string * CRDTChangeNode C)) (s : pins) : result unit * pins :=
         match l with
         | [] => (Ok tt, s)
         | (childHash, childNode) :: l' =>
             let (r, s) := pinNewCIDs childHash childNode s in
             let (r', s) := go l' s in
             (let? _ := r in r', s)
         end) l s
  end.

(** ** Runs *)

Inductive op := Pin (cid : string) | Finish (cid : string) (ok : bool).

Definition exec (s : pins) (x : op) : pins := match x with Pin cid => pinCID s cid | Finish cid ok => finish s (cid, ok) end.

Definition run (ops : list op) : pins := foldl exec no_pins ops.

Record pins_ok (s : pins) : Prop := {
  p_active : _activePins s = length (running s);
  p_bound : length (running s) <= MAX_CONCURRENT_PINS;
  p_waits : _pinQueue s <> [] -> length (running s) = MAX_CONCURRENT_PINS;
  p_pinning : _pinningCids s ≡ₚ running s ++ _pinQueue s;
  p_once : NoDup (_pinningCids s);
  p_fresh cid : cid ∈ _pinningCids s -> cid ∉ _seenCids s;
}.

Lemma elem_of_remove x y l : y ∈ remove x l <-> y <> x /\ y ∈ l.
Proof. unfold remove. rewrite list_elem_of_In, filter_In, <- list_elem_of_In, negb_true_iff, String.eqb_neq. naive_solver. Qed.

Lemma remove_cons x y l : remove x (y :: l) = if String.eqb y x then remove x l else y :: remove x l.
Proof. unfold remove. cbn. by destruct (String.eqb y x). Qed.

Lemma remove_notin x l : x ∉ l -> remove x l = l.
Proof.
  induction l as [|y l IH]; [done|]. intros [Hx Hl]%not_elem_of_cons. rewrite remove_cons. destruct (String.eqb_spec y x); [congruence|]. f_equal. by apply IH.
Qed.

(** Removing one of several distinct elements. *)
Lemma remove_perm x l : NoDup l -> x ∈ l -> l ≡ₚ x :: remove x l.
Proof.
  induction l as [|y l IH]; intros Hd Hx; [by apply elem_of_nil in Hx|]. apply NoDup_cons in Hd as [Hn Hd]. rewrite remove_cons. destruct (String.eqb_spec y x) as [->|Hne].
  - by rewrite (remove_notin x l).
  - apply elem_of_cons in Hx as [->|Hx]; [done|]. rewrite Permutation_swap. f_equiv. by apply IH.
Qed.

Lemma remove_app x l k : remove x (l ++ k) = remove x l ++ remove x k.
Proof. apply List.filter_app. Qed.

#[export] Instance remove_proper x : Proper ((≡ₚ) ==> (≡ₚ)) (remove x).
Proof. intros l k H. induction H as [|y l k _ IH|y z l|]; [done| | |by etrans]; rewrite !remove_cons; [by destruct (String.eqb y x); rewrite ?IH|]. destruct (String.eqb z x), (String.eqb y x); try done. apply Permutation_swap. Qed.

Lemma pinCID_ok s cid : pins_ok s -> pins_ok (pinCID s cid).
Proof.
  intros [H1 H2 H3 H4 H5 H6]. unfold pinCID. destruct (set_has cid (_seenCids s)) eqn:Es; [done|]. destruct (set_has cid (_pinningCids s)) eqn:Ep; [done|]. cbn.
  destruct (cid_parse cid); [|done]. cbn. assert (Hs : cid ∉ _seenCids s) by (intros H; apply set_has_spec in H; congruence).
  assert (Hp : cid ∉ _pinningCids s) by (intros H; apply set_has_spec in H; congruence). unfold acquirePinSlot. rewrite set_add_notin by done. change (_activePins (s <| _pinningCids := _pinningCids s ++ [cid] |>)) with (_activePins s).
  assert (Hd : NoDup (_pinningCids s ++ [cid])) by (apply NoDup_app; split_and!; [done|intros x Hx ->%list_elem_of_singleton; done|apply NoDup_singleton]).
  assert (Hf : forall c, c ∈ _pinningCids s ++ [cid] -> c ∉ _seenCids s) by (intros c [Hc| ->%list_elem_of_singleton]%elem_of_app; [by apply H6|done]).
  destruct (Nat.ltb_spec (_activePins s) MAX_CONCURRENT_PINS) as [Hlt|Hge]; constructor; cbn; rewrite ?length_app; cbn; try done; try lia.
  - intros Hq. apply H3 in Hq. lia.
  - rewrite H4, <- !app_assoc. f_equiv. apply Permutation_app_comm.
  - by rewrite H4, <- app_assoc.
Qed.

Lemma finish_ok s cid ok : pins_ok s -> pins_ok (finish s (cid, ok)).
Proof.
  intros [H1 H2 H3 H4 H5 H6]. unfold finish. destruct (set_has cid (running s)) eqn:Er; [|done]. apply set_has_spec in Er.
  assert (Hd : NoDup (running s ++ _pinQueue s)) by (by rewrite <- H4). apply NoDup_app in Hd as (Hr & Hrq & Hq).
  pose proof (remove_perm cid (running s) Hr Er) as Hpr. assert (Hl : length (running s) = S (length (remove cid (running s)))) by by rewrite Hpr at 1.
  assert (Hp : remove cid (_pinningCids s) ≡ₚ remove cid (running s) ++ _pinQueue s) by (rewrite H4, remove_app, (remove_notin cid (_pinQueue s)) by (by apply Hrq); done).
  assert (Hnd : NoDup (remove cid (_pinningCids s))) by (apply NoDup_ListNoDup, List.NoDup_filter, NoDup_ListNoDup, H5).
  assert (Hf : forall c, c ∈ remove cid (_pinningCids s) -> c ∉ set_add cid (_seenCids s)).
  { intros c [Hne Hc]%elem_of_remove Hs. apply elem_of_set_add in Hs as [->|Hs]; [done|]. by apply (H6 c). }
  assert (Hf' : forall c, c ∈ remove cid (_pinningCids s) -> c ∉ _seenCids s) by (intros c [_ Hc]%elem_of_remove; by apply H6).
  unfold releasePinSlot. destruct ok; cbn; (destruct (_pinQueue s) as [|x q] eqn:Eq; constructor; cbn; rewrite ?length_app; cbn; try done; try lia).
  all: try (intros _; specialize (H3 ltac:(done)); lia); rewrite Hp, ?Eq, <- ?app_assoc; done.
Qed.

Lemma run_pins_ok ops : pins_ok (run ops).
Proof.
  unfold run. assert (H0 : pins_ok no_pins) by (constructor; cbn; try done; [unfold MAX_CONCURRENT_PINS; lia|apply NoDup_nil_2|intros c Hc; by apply elem_of_nil in Hc]). revert H0. generalize no_pins.
  induction ops as [|x ops IH]; intros s Hs; [done|]. cbn. apply IH. destruct x; [by apply pinCID_ok|by apply finish_ok].
Qed.

(** C34. Pinning is bounded and never repeated: after any requests and completions at most ten
    pins run, a request waits only while all ten slots are taken, no CID is being pinned
    twice at once, none that was pinned is pinned again, and the counter of slots is the
    number of pins that run. *)
Theorem pins_bounded ops : let s := run ops in
  length (running s) <= MAX_CONCURRENT_PINS /\ _activePins s = length (running s) /\ NoDup (running s ++ _pinQueue s) /\
  (_pinQueue s <> [] -> length (running s) = MAX_CONCURRENT_PINS) /\
  forall cid, cid ∈ running s ++ _pinQueue s -> cid ∉ _seenCids s.
Proof.
  intros s. destruct (run_pins_ok ops) as [H1 H2 H3 H4 H5 H6]. fold s in H1, H2, H3, H4, H5, H6. split_and!; try done; [by rewrite <- H4|]. intros cid. rewrite <- H4. apply H6.
Qed.

(** One running operation ends. *)
Lemma finish_step s cid ok : pins_ok s -> cid ∈ running s ->
  _pinningCids (finish s (cid, ok)) = remove cid (_pinningCids s) /\ _seenCids (finish s (cid, ok)) = if ok then set_add cid (_seenCids s) else _seenCids s.
Proof.
  intros _ Hr. unfold finish. assert (E : set_has cid (running s) = true) by (by apply set_has_spec). rewrite E. unfold releasePinSlot.
  destruct ok; cbn; by destruct (_pinQueue s).
Qed.

(** A schedule that completes running operations. *)
Inductive completes : pins -> list (string * bool) -> pins -> Prop :=
| completes_done s : completes s [] s
| completes_step s cid ok l s' : cid ∈ running s -> completes (finish s (cid, ok)) l s' -> completes s ((cid, ok) :: l) s'.

(** C35. Every pin is tried: as long as a CID waits or is being pinned some operation runs, and
    in whatever order operations end, after as many completions as there were CIDs nothing
    is left, each of the CIDs has been tried exactly once, and those that succeeded are
    pinned. *)
Theorem pins_finish ops : let s := run ops in
  (_pinningCids s <> [] -> running s <> []) /\
  (forall l s', completes s l s' -> length l <= length (_pinningCids s) /\
     (length l = length (_pinningCids s) -> _pinningCids s' = [] /\ _activePins s' = 0 /\ l.*1 ≡ₚ _pinningCids s /\ forall cid, (cid, true) ∈ l -> cid ∈ _seenCids s')).
Proof.
  intros s0. pose proof (run_pins_ok ops) as Hok. fold s0 in Hok. generalize dependent s0. clear ops. intros s Hok. split.
  - intros Hne Hr. destruct Hok as [H1 H2 H3 H4 H5 H6]. rewrite Hr in *. cbn in *. destruct (_pinQueue s) as [|x q]; [by apply Permutation_nil_r in H4|]. by specialize (H3 ltac:(done)).
  - intros l s' Hc. induction Hc as [s|s cid ok l s' Hr Hc IH].
    + split; [cbn; lia|]. cbn. intros E. symmetry in E. apply length_zero_iff_nil in E. destruct Hok as [H1 H2 H3 H4 H5 H6]. rewrite E in *. split_and!; try done; [|intros cid Hin; by apply elem_of_nil in Hin].
      apply Permutation_nil in H4. apply app_eq_nil in H4 as [Er _]. by rewrite H1, Er.
    + destruct (finish_step s cid ok Hok Hr) as [Ep Es]. specialize (IH (finish_ok s cid ok Hok)). rewrite Ep in IH. destruct Hok as [H1 H2 H3 H4 H5 H6].
      assert (Hin : cid ∈ _pinningCids s) by (rewrite H4; apply elem_of_app; by left). pose proof (remove_perm cid _ H5 Hin) as Hp. pose proof (Permutation_length Hp) as Hl. cbn in Hl |- *.
      destruct IH as [IH1 IH2]. split; [lia|]. intros El. destruct IH2 as (I1 & I2 & I3 & I4); [lia|]. split_and!; [done|done|by rewrite Hp, I3|].
      intros c [Ec|Hc']%elem_of_cons; [|by apply I4]. injection Ec as -> <-. assert (Hs : cid ∈ _seenCids (finish s (cid, true))) by (rewrite Es; apply elem_of_set_add; by left).
      clear -Hc Hs. revert Hc Hs. generalize (finish s (cid, true)). intros s1 Hc Hs. induction Hc as [|s1 c ok l s' Hr Hc IH]; [done|]. apply IH. unfold finish. destruct (set_has c (running s1)); [|done]. unfold releasePinSlot.
      destruct ok; cbn; destruct (_pinQueue s1); cbn; rewrite ?elem_of_set_add; auto.
Qed.

(** ** The walk over a tree *)

Definition in_tree {C} (rid : string) (r : CRDTChangeNode C) (cid : string) : Prop := exists n, occ (Some rid) r (Some cid) n.

Fixpoint tree_cids {C} (cid : string) (n : CRDTChangeNode C) : list string :=
  cid :: match n with
         | Node _ _ _ (Children l) => (fix go (l : list (string * CRDTChangeNode C)) := match l with [] => [] | (h, c) :: l' => tree_cids h c ++ go l' end) l
         | _ => []
         end.

Lemma tree_cids_list {C} (l : list (string * CRDTChangeNode C)) :
  (fix go (l : list (string * CRDTChangeNode C)) := match l with [] => [] | (h, c) :: l' => tree_cids h c ++ go l' end) l = mjoin ((fun x => tree_cids x.1 x.2) <$> l).
Proof. induction l as [|[h c] l IH]; [done|]. cbn. by rewrite IH. Qed.

Lemma pinNewCIDs_requests {C} (n : CRDTChangeNode C) : forall cid s, (pinNewCIDs cid n s).2 = foldl pinCID s (tree_cids cid n).
Proof.
  induction n as [k kd ch [| |l] IH] using node_ind'; intros cid s; [done..|]. cbn. generalize (pinCID s cid). clear s. induction IH as [|[h c] l Hc _ IHl]; intros s; [done|].
  rewrite foldl_app, <- IHl, <- Hc. cbn. destruct (pinNewCIDs h c s) as [r s1]. cbn. by case_match.
Qed.

Lemma occ_tree_cids {C} rid (r : CRDTChangeNode C) id n : occ (Some rid) r id n -> exists c, id = Some c /\ forall x, x ∈ tree_cids c n -> x ∈ tree_cids rid r.
Proof.
  intros H. induction H as [|id n l c m Ho (cn & -> & IH) En Hin]; [eauto|]. exists c. split; [done|]. intros x Hx. apply IH. destruct n as [k kd ch chs]. cbn in En. subst chs.
  cbn. rewrite tree_cids_list. apply elem_of_cons. right. apply list_elem_of_join. exists (tree_cids c m). split; [done|]. by apply (list_elem_of_fmap_2 (fun x => tree_cids x.1 x.2)) in Hin.
Qed.

Definition known (s : pins) (cid : string) : Prop := cid ∈ _seenCids s \/ cid ∈ _pinningCids s.

Lemma pinCID_known s cid : cid_parse cid = true -> known (pinCID s cid) cid.
Proof.
  intros Hp. unfold pinCID, known. destruct (set_has cid (_seenCids s)) eqn:Es; [left; by apply set_has_spec|]. destruct (set_has cid (_pinningCids s)) eqn:Ep; [right; by apply set_has_spec|].
  cbn. rewrite Hp. unfold acquirePinSlot. right. destruct (_ <? _); cbn; apply elem_of_set_add; by left.
Qed.

Lemma pinCID_mono s cid x : known s x -> known (pinCID s cid) x.
Proof.
  intros H. unfold pinCID. destruct (_ || _); [done|]. destruct (cid_parse cid); [|done]. cbn. unfold acquirePinSlot, known in *. destruct (_ <? _); cbn; rewrite elem_of_set_add; naive_solver.
Qed.

Lemma foldl_pinCID_known l s x : known s x \/ (x ∈ l /\ cid_parse x = true) -> known (foldl pinCID s l) x.
Proof.
  revert s. induction l as [|y l IH]; intros s [H|[Hx Hp]]; [done|by apply elem_of_nil in Hx|..]; cbn; apply IH; [left; by apply pinCID_mono|].
  apply elem_of_cons in Hx as [->|Hx]; [left; by apply pinCID_known|by right].
Qed.

(** A published tree is pinned whole: every CID in it that is well formed is pinned, being
    pinned or waiting afterwards, also when the walk is reported as failed because of
    deferred children. *)
Theorem tree_pinned {C} rid (r : CRDTChangeNode C) s cid : in_tree rid r cid -> cid_parse cid = true -> known (pinNewCIDs rid r s).2 cid.
Proof.
  intros (n & Hn) Hp. rewrite pinNewCIDs_requests. apply foldl_pinCID_known. right. split; [|done]. destruct (occ_tree_cids _ _ _ _ Hn) as (c & [= <-] & Hc). apply Hc.
  destruct n. apply elem_of_cons. by left.
Qed.

(** ** Publish messages *)

Section Messages.
  Context {ChangesType : Type}.

Record node := mk_node {
  n_pins : pins;
  _subscriptions : list (string * nat);  (** the reference last made for a document *)
  pinning_handlers : list nat;           (** the references that have the pinning handler *)
  open_calls : list (string * nat);      (** the calls of [open()]; nobody waits for them *)
  listening : bool;
  next_ref : nat;
}.

#[export] Instance settable_node : Settable node := fun s =>
  mk_node (n_pins s) (_subscriptions s) (pinning_handlers s) (open_calls s) (listening s) (next_ref s).

Definition new_node : node := mk_node no_pins [] [] [] false 0.

(** [_docPublishHandler]: [thisNodeId] throws before initialization, [sender] is absent on an
    unsigned message, and what is thrown is logged. *)
Definition docPublishHandler (thisNodeId : result string) (sender : option string) (decoded : result (Document.CRDTSyncMessage ChangesType)) (s : node) : node :=
  match thisNodeId with
  | Err _ => s
  | Ok me =>
      if bool_decide (sender = Some me) then s
      else match decoded with
           | Err _ => s
           | Ok message =>
               let o := next_ref s in
               let p := Document.documentId message in
               let s := s <| next_ref := S o |> <| _subscriptions := map_set p o (_subscriptions s) |> <| pinning_handlers := pinning_handlers s ++ [o] |>
                          <| open_calls := open_calls s ++ [(p, o)] |> in
               match Document.truthy (Document.changeId message), Document.changes message with
               | Some id, Some c => s <| n_pins := (pinNewCIDs id c (n_pins s)).2 |>
               | _, _ => s
               end
           end
  end.

(** A document calls its handlers with the hashes of new changes. *)
Definition document_changed (o : nat) (hashes : list string) (s : node) : node :=
  if bool_decide (o ∈ pinning_handlers s) then s <| n_pins := foldl pinCID (n_pins s) hashes |> else s.

(** The end of [start]. *)
Definition listen (s : node) : node := s <| listening := true |>.

Definition stop (s : node) : node :=
  s <| listening := false |> <| pinning_handlers := List.filter (fun o => negb (bool_decide (o ∈ (_subscriptions s).*2))) (pinning_handlers s) |>.

(** A second announcement breaks a pinned document: it makes a second reference, whose
    [open()] rejects because the path is registered, and the rejection is not handled; the
    map then names only that reference, so that [stop] leaves the handler of the first
    one, which goes on pinning. *)
Theorem second_announcement {D} me sender sender' m m' (sw : @Swarm.swarm D) hashes :
  sender <> Some me -> sender' <> Some me -> Document.documentId m' = Document.documentId m -> map_get (Document.documentId m) (Swarm._documentRegistry sw) = None ->
  let s := docPublishHandler (Ok me) sender' (Ok m') (docPublishHandler (Ok me) sender (Ok m) (listen new_node)) in
  open_calls s = [(Document.documentId m, 0); (Document.documentId m, 1)] /\
  (exists sw', Swarm.registerDocument (Document.documentId m) 0 sw = (Ok tt, sw') /\ exists e, (Swarm.registerDocument (Document.documentId m) 1 sw').1 = Err e) /\
  pinning_handlers (stop s) = [0] /\ n_pins (document_changed 0 hashes (stop s)) = foldl pinCID (n_pins s) hashes.
Proof.
  intros Hs Hs' Ed Er s. assert (E : open_calls s = [(Document.documentId m, 0); (Document.documentId m, 1)] /\ pinning_handlers s = [0; 1] /\ (_subscriptions s).*2 = [1]).
  { unfold s, docPublishHandler. rewrite !bool_decide_false by done. cbn. rewrite Ed.
    destruct (Document.truthy (Document.changeId m)), (Document.changes m), (Document.truthy (Document.changeId m')), (Document.changes m'); cbn; rewrite decide_True by done; done. }
  clearbody s. destruct E as (E1 & E2 & E3). assert (E4 : pinning_handlers (stop s) = [0]) by (cbn; rewrite E2, E3; done). split_and!; [done| |done|].
  - unfold Swarm.registerDocument. eexists. split.
    + rewrite (bind_ok _ _ sw sw sw) by done. rewrite (proj2 (map_has_false _ _)) by (by apply map_get_None). reflexivity.
    + unfold bind at 1. cbn. rewrite (proj2 (map_has_spec _ _)); [eauto|]. apply map_get_is_Some. rewrite map_get_set_eq. eauto.
  - unfold document_changed. rewrite E4. done.
Qed.

End Messages.
End Pins.

(** ** ICE servers *)

Record IceServer := Ice { urls : string + list string; username : option string; credential : option string }.

Definition DEFAULT_WEBRTC_ICE_SERVERS : list IceServer :=
  [Ice (inl "stun:stun.l.google.com:19302") None None; Ice (inl "stun:stun1.l.google.com:19302") None None;
   Ice (inl "stun:stun.cloudflare.com:3478") None None; Ice (inl "stun:global.stun.twilio.com:3478") None None].

(** A copy has the same fields; freezing does not change them. *)
Definition cloneIceServer (server : IceServer) : IceServer := Ice (urls server) (username server) (credential server).

(** The servers for the transports and those shown in the configuration. *)
Definition resolveIceServers (override : option (list IceServer)) : list IceServer * list IceServer :=
  let sourceIceServers := default DEFAULT_WEBRTC_ICE_SERVERS override in (sourceIceServers, map cloneIceServer sourceIceServers).

(** What [start] hands on of the node's servers, and the entries it warns about. *)
Definition strip (server : IceServer) : IceServer := Ice (urls server) None None.

Definition browserSafeIceServers (servers : option (list IceServer)) : option (list IceServer) := map strip <$> servers.

Definition url_label (server : IceServer) : string := match urls server with inl u => u | inr l => String.concat "," l end.

Definition strippedTurnEntries (servers : option (list IceServer)) : list string :=
  set_of_list (map url_label (List.filter (fun x => match username x, credential x with None, None => false | _, _ => true end) (default [] servers))).

(** [webrtcIceServers] of the client configuration that [start] writes to a file. *)
Definition client_ice_servers (servers : option (list IceServer)) : list IceServer := (resolveIceServers (browserSafeIceServers servers)).2.

(** No secret leaves the node: the configuration written for browsers has the node's
    servers in order with their addresses, or the public defaults, and never a user name or
    a credential; every entry that lost one is named in the warning. *)
Theorem client_config_has_no_secrets servers :
  Forall (fun x => username x = None /\ credential x = None) (client_ice_servers servers) /\
  map urls (client_ice_servers servers) = map urls (default DEFAULT_WEBRTC_ICE_SERVERS servers) /\
  forall l x, servers = Some l -> x ∈ l -> x = strip x \/ url_label x ∈ strippedTurnEntries servers.
Proof.
  unfold client_ice_servers, browserSafeIceServers, strippedTurnEntries. split_and!.
  - destruct servers as [l|]; cbn; [|by repeat constructor]. rewrite List.map_map, Forall_fmap. by apply Forall_true.
  - destruct servers as [l|]; cbn; [|done]. by rewrite !List.map_map.
  - intros l x -> Hx. cbn. destruct x as [u [n|] [c|]]; try (by left); right; apply elem_of_set_of_list; apply (list_elem_of_fmap_2 url_label _ (Ice _ _ _)); apply list_elem_of_In, filter_In;
      (split; [by apply list_elem_of_In|done]).
Qed.

(** ** Concrete runs *)

Definition valid (cid : string) : bool := negb (String.eqb cid "").

(** Twelve requests and a repetition: ten run, two wait. *)
Definition requests : list op := map Pin ["a"; "b"; "c"; "d"; "e"; "f"; "g"; "h"; "i"; "j"; "k"; "l"; "a"; ""].

Example ten_run : length (running (run valid requests)) = 10 /\ _pinQueue (run valid requests) = ["k"; "l"].
Proof. by vm_compute. Qed.

Definition two_requests : list op := [Pin "a"; Pin "b"].

Lemma pins_finish_witness : let s' := finish (finish (run valid two_requests) ("b", true)) ("a", false) in
  completes (run valid two_requests) [("b", true); ("a", false)] s' /\ _pinningCids s' = [] /\ "b" ∈ _seenCids s'.
Proof.
  intros s'. assert (Hc : completes (run valid two_requests) [("b", true); ("a", false)] s').
  { constructor; [apply (bool_decide_unpack _); by vm_compute|]. constructor; [apply (bool_decide_unpack _); by vm_compute|]. constructor. }
  split; [done|]. destruct (pins_finish valid two_requests) as [_ H]. destruct (H _ _ Hc) as [_ Hd]. destruct Hd as (H1 & _ & _ & H2); [by vm_compute|].
  split; [done|]. apply H2. by left.
Defined.

Definition small_tree : CRDTChangeNode nat := ChangeTree.Node None DocumentNode (Some 1) (Children [("x", ChangeTree.Node None DocumentNode None DeferredChildren); ("y", ChangeTree.Node None WriterNode (Some 2) NoChildren)]).

Lemma tree_pinned_witness : known (pinNewCIDs valid "r" small_tree no_pins).2 "y".
Proof.
  apply (tree_pinned valid "r" small_tree no_pins "y"); [|reflexivity]. exists (ChangeTree.Node None WriterNode (Some 2) NoChildren).
  eapply occ_child; [apply occ_root|reflexivity|]. right. left.
Defined.

Definition announce : Document.CRDTSyncMessage nat := Document.empty_message "/d".

Lemma second_announcement_witness :
  let s := docPublishHandler valid (Ok "n") (Some "b") (Ok announce) (docPublishHandler valid (Ok "n") (Some "a") (Ok announce) (listen new_node)) in
  open_calls s = [("/d", 0); ("/d", 1)] /\ pinning_handlers (stop s) = [0].
Proof.
  destruct (second_announcement valid "n" (Some "a") (Some "b") announce announce (Swarm.new_swarm (D := nat)) ["h"]) as (H1 & _ & H2 & _); [done|done|reflexivity|reflexivity|].
  by split.
Defined.

End Node.
