(* ===== verification/Startup.v ===== *)
(** * Starting a node, streams, topics and statistics

    Models [store-lifecycle.ts] and [helia-node.ts] (opening the stores, starting the node,
    and giving everything back when that fails), [stream-adapter.ts], [document-topic.ts]
    and [network-stats.ts] of [packages/collabswarm/src]. Helia, libp2p and the stores are
    their outcomes; what the code does to them is a log of events. *)
From stdpp Require Import base numbers list strings sets.
From Stdlib Require Import ZArith QArith Lia Ascii.
From S2P Require Import Prelude.

Open Scope string_scope.
Open Scope list_scope.
Open Scope nat_scope.

Module Startup.

(** ** Stores *)

(** What is done to a store or to the node. *)
Inductive event := OpenStore (id : nat) | CloseStore (id : nat) | CreateNode | StartNode | StopNode.

Section Stores.
  (** The values passed as stores are known by identity: whether they can be opened, and what
      opening gives. Closing never fails to be tried; a store may have no [close]. *)
  Context (openable : nat -> bool) (opens : nat -> result unit) (closable : nat -> bool).

(** The effects on the log of events. *)
Definition logged (A : Type) : Type := eff (list event) A.

Definition log (e : event) : logged unit := modify (fun l => l ++ [e]).

Definition closeLegacyHeliaStores (stores : list nat) : logged unit :=
  for_each (fun _ i => when (closable i) (log (CloseStore i))) tt (reverse stores).

(** The loop of [openLegacyHeliaStores]; what was opened, and the error if there was one. *)
Fixpoint open_loop (stores : list nat) (opened : list nat) : logged (list nat * option exn) :=
  match stores with
  | [] => ret (opened, None)
  | i :: stores' =>
      if openable i then
        match opens i with
        | Ok _ => let! _ := log (OpenStore i) in open_loop stores' (opened ++ [i])
        | Err e => ret (opened, Some e)
        end
      else open_loop stores' opened
  end.

Definition openLegacyHeliaStores (stores : list nat) : logged (list nat) :=
  let! r := open_loop (set_of_list stores) [] in
  match r with
  | (opened, None) => ret opened
  | (opened, Some e) => let! _ := closeLegacyHeliaStores opened in raise e
  end.

(** [heliaInit]: its stores and whether [libp2p] is a node that already exists; [create] and
    [start] are the outcomes of making and starting the node, and [pubsub] tells whether
    it has the service. *)
Record HeliaInit := Init { datastore : nat; blockstore : nat; is_libp2p : bool }.

Definition createAndStartHeliaNode (heliaInit : option HeliaInit) (create start : result unit) (pubsub : bool) : logged (list nat) :=
  let! openedLegacyStores := match heliaInit with
                             | Some x => openLegacyHeliaStores [datastore x; blockstore x]
                             | None => ret []
                             end in
  let stopped e := let! _ := log StopNode in let! _ := closeLegacyHeliaStores openedLegacyStores in raise e in
  let failed e := let! _ := closeLegacyHeliaStores openedLegacyStores in raise e in
  if match heliaInit with Some x => is_libp2p x | None => false end
  then failed (Throw "Helia 7 requires libp2p creation options")
  else match create with
       | Err e => failed e
       | Ok _ =>
           let! _ := log CreateNode in
           match start with
           | Err e => stopped e
           | Ok _ =>
               let! _ := log StartNode in
               if pubsub then ret openedLegacyStores else stopped (Throw "Helia node must be initialized with a pubsub service")
           end
       end.

(** ** What is left *)

Definition opened_in (l : list event) : list nat := omap (fun e => match e with OpenStore i => Some i | _ => None end) l.
Definition closed_in (l : list event) : list nat := omap (fun e => match e with CloseStore i => Some i | _ => None end) l.

Definition given_back (l : list nat) : list event := map CloseStore (List.filter closable (reverse l)).

Lemma close_log stores l : closeLegacyHeliaStores stores l = (Ok tt, l ++ given_back stores).
Proof.
  unfold closeLegacyHeliaStores, given_back. generalize (reverse stores). clear stores. intros k. revert l. induction k as [|i k IH]; intros l; cbn; [by rewrite app_nil_r|].
  unfold when, bind, log, modify. destruct (closable i); cbn; rewrite IH; [|done]. by rewrite <- app_assoc.
Qed.

Lemma open_loop_log stores opened l : exists k, NoDup stores -> Forall (fun i => openable i = true) k /\ k `sublist_of` stores /\
  (open_loop stores opened l).2 = l ++ map OpenStore k /\ exists e, (open_loop stores opened l).1 = Ok (opened ++ k, e).
Proof.
  revert opened l. induction stores as [|i stores IH]; intros opened l; cbn.
  { exists []. intros _. rewrite !app_nil_r. split_and!; try done. eauto. }
  destruct (openable i) eqn:Eo.
  - destruct (opens i) as [[]|e].
    + destruct (IH (opened ++ [i]) (l ++ [OpenStore i])) as (k & Hk). exists (i :: k). intros [_ Hd]%NoDup_cons. destruct (Hk Hd) as (H1 & H2 & H3 & e & H4). unfold bind, log, modify. cbn.
      split_and!; [by constructor|by constructor|rewrite H3, <- app_assoc; done|]. exists e. rewrite H4, <- app_assoc. done.
    + exists []. intros _. rewrite !app_nil_r. split_and!; [done|apply sublist_nil_l|done|eauto].
  - destruct (IH opened l) as (k & Hk). exists k. intros [_ Hd]%NoDup_cons. destruct (Hk Hd) as (H1 & H2 & H3 & H4). split_and!; try done. by constructor.
Qed.

Lemma opened_in_app l k : opened_in (l ++ k) = opened_in l ++ opened_in k.
Proof. apply omap_app. Qed.
Lemma closed_in_app l k : closed_in (l ++ k) = closed_in l ++ closed_in k.
Proof. apply omap_app. Qed.
Lemma opened_opens k : opened_in (map OpenStore k) = k.
Proof. induction k as [|i k IH]; [done|]. unfold opened_in in *. csimpl. by rewrite IH. Qed.
Lemma opened_closes k : opened_in (map CloseStore k) = [].
Proof. induction k as [|i k IH]; [done|]. exact IH. Qed.
Lemma closed_opens k : closed_in (map OpenStore k) = [].
Proof. induction k as [|i k IH]; [done|]. exact IH. Qed.
Lemma closed_closes k : closed_in (map CloseStore k) = k.
Proof. induction k as [|i k IH]; [done|]. unfold closed_in in *. csimpl. by rewrite IH. Qed.

Lemma open_stores_log stores : exists k, NoDup k /\
  (openLegacyHeliaStores stores [] = (Ok k, map OpenStore k) \/ exists e, openLegacyHeliaStores stores [] = (Err e, map OpenStore k ++ given_back k)).
Proof.
  destruct (open_loop_log (set_of_list stores) [] []) as (k & Hk). pose proof (NoDup_set_of_list stores) as Hd. destruct (Hk Hd) as (_ & Hsub & H3 & e & H4). exists k.
  split; [by eapply sublist_NoDup|]. unfold openLegacyHeliaStores, bind. destruct (open_loop (set_of_list stores) [] []) as [r l]. cbn in *. subst r l. destruct e as [e|]; [|by left].
  right. exists e. rewrite close_log. done.
Qed.

Lemma open_loop_opens stores opened l : (forall i, opens i = Ok tt) -> (open_loop stores opened l).1 = Ok (opened ++ List.filter openable stores, None).
Proof.
  intros Ho. revert opened l. induction stores as [|i stores IH]; intros opened l; cbn; [by rewrite app_nil_r|]. destruct (openable i); [|apply IH].
  rewrite Ho. unfold bind, log, modify. cbn. rewrite IH. by rewrite <- app_assoc.
Qed.

Lemma startup_succeeds heliaInit create start pubsub : create = Ok tt -> start = Ok tt -> pubsub = true -> match heliaInit with Some x => is_libp2p x = false | None => True end -> (forall i, opens i = Ok tt) ->
  (createAndStartHeliaNode heliaInit create start pubsub []).1 = Ok (List.filter openable match heliaInit with Some x => set_of_list [datastore x; blockstore x] | None => [] end).
Proof.
  intros -> -> -> Hl Ho. unfold createAndStartHeliaNode, bind. destruct heliaInit as [x|]; [|done]. rewrite Hl. unfold openLegacyHeliaStores, bind.
  pose proof (open_loop_opens (set_of_list [datastore x; blockstore x]) [] [] Ho) as E. destruct (open_loop _ [] []) as [r l]. cbn in E. subst r. done.
Qed.

(** C36. Starting is all or nothing: every store is opened at most once; when starting fails,
    whatever the reason, every store that was opened and can be closed is closed, the last
    opened first, and a node that was made is stopped; when it succeeds the node runs with
    its pubsub service and exactly the opened stores are handed over, none closed; and it
    succeeds, with every store that can be opened, when nothing goes wrong. *)
Theorem startup_all_or_nothing heliaInit create start pubsub : let r := createAndStartHeliaNode heliaInit create start pubsub [] in
  (create = Ok tt -> start = Ok tt -> pubsub = true -> match heliaInit with Some x => is_libp2p x = false | None => True end -> (forall i, opens i = Ok tt) ->
     r.1 = Ok (List.filter openable match heliaInit with Some x => set_of_list [datastore x; blockstore x] | None => [] end)) /\
  NoDup (opened_in r.2) /\
  match r.1 with
  | Ok l => opened_in r.2 = l /\ closed_in r.2 = [] /\ StartNode ∈ r.2 /\ StopNode ∉ r.2 /\ pubsub = true
  | Err _ => closed_in r.2 = List.filter closable (reverse (opened_in r.2)) /\ (CreateNode ∈ r.2 -> StopNode ∈ r.2)
  end.
Proof.
  intros r. split; [apply startup_succeeds|]. set (opening := match heliaInit with Some x => openLegacyHeliaStores [datastore x; blockstore x] | None => ret [] end).
  assert (Ho : exists k, NoDup k /\ (opening [] = (Ok k, map OpenStore k) \/ exists e, opening [] = (Err e, map OpenStore k ++ given_back k))).
  { unfold opening. destruct heliaInit; [apply open_stores_log|]. exists []. split; [apply NoDup_nil_2|by left]. }
  destruct Ho as (k & Hd & Ho). assert (Hn : forall e, e ∈ map OpenStore k ++ given_back k -> e <> CreateNode /\ e <> StopNode).
  { intros e [He|He]%elem_of_app; apply list_elem_of_fmap in He as (i & -> & _); done. }
  assert (Hg : opened_in (given_back k) = [] /\ closed_in (given_back k) = List.filter closable (reverse k)) by (unfold given_back; by rewrite opened_closes, closed_closes).
  destruct Hg as [Hg1 Hg2]. unfold r, createAndStartHeliaNode. fold opening. destruct Ho as [Ho|[e Ho]].
  - rewrite (bind_ok _ _ _ _ _ Ho). destruct (match heliaInit with Some x => is_libp2p x | None => false end).
    { unfold bind. rewrite close_log. cbn. rewrite opened_in_app, closed_in_app, opened_opens, closed_opens, Hg1, Hg2, app_nil_r. split_and!; try done. intros He%Hn. by destruct He. }
    destruct create as [[]|e].
    2: { unfold bind. rewrite close_log. cbn. rewrite opened_in_app, closed_in_app, opened_opens, closed_opens, Hg1, Hg2, app_nil_r. split_and!; try done. intros He%Hn. by destruct He. }
    destruct start as [[]|e]; [destruct pubsub|]; unfold bind, log, modify, ret, raise; rewrite ?close_log; cbn; fold (given_back k);
      rewrite ?opened_in_app, ?closed_in_app, ?opened_opens, ?closed_opens, ?Hg1, ?Hg2; cbn; rewrite ?app_nil_r; split_and!; try done; try (intros _; rewrite !elem_of_app, !list_elem_of_singleton; tauto).
    + rewrite !elem_of_app, !list_elem_of_singleton. tauto.
    + rewrite !elem_of_app, !list_elem_of_singleton. intros [[He|[=]]|[=]]. apply list_elem_of_fmap in He as (i & [=] & _).
  - rewrite (bind_err _ _ _ _ _ Ho). cbn. rewrite opened_in_app, closed_in_app, opened_opens, closed_opens, Hg1, Hg2, app_nil_r. split_and!; try done. intros He%Hn. by destruct He.
Qed.

End Stores.

(** ** Streams *)

(** What [sink] does to the libp2p stream. *)
Inductive stream_event := Send (chunk : bytes) | Drained | CloseWrite.

(** [sink] of [wrapStream]: the data may end with an error; [send] tells whether the buffer
    has room, or throws; [drain] and [close] are the outcomes of waiting. *)
Section Sink.
  Context (send : bytes -> result bool) (drain close : result unit).

Fixpoint sink (data : list (result bytes)) : eff (list stream_event) unit :=
  match data with
  | [] => let! _ := lift close in modify (fun l => l ++ [CloseWrite])
  | Err e :: _ => raise e
  | Ok chunk :: data' =>
      let! ok := lift (send chunk) in
      let! _ := modify (fun l => l ++ [Send chunk]) in
      let! _ := when (negb ok) (let! _ := lift drain in modify (fun l => l ++ [Drained])) in
      sink data'
  end.

(** Each chunk, and the wait after it when the buffer was full. *)
Definition sent_events (chunk : bytes) : list stream_event := Send chunk :: match send chunk with Ok false => [Drained] | _ => [] end.

Lemma sink_returns chunks data l : data = Ok <$> chunks -> Forall (fun c => exists ok, send c = Ok ok) chunks -> drain = Ok tt -> close = Ok tt -> (sink data l).1 = Ok tt.
Proof.
  intros -> H Hd Hc. revert l. induction H as [|c chunks [ok Hs] _ IH]; intros l; cbn [sink fmap list_fmap]; unfold bind.
  - by rewrite Hc.
  - rewrite Hs, Hd. cbn. destruct ok; cbn; apply IH.
Qed.

(** A sink sends everything or leaves the stream open: it returns exactly when every chunk
    could be read and sent and every wait ended; then the chunks were sent in order, with a
    wait after each one that found the buffer full, and the writing end was closed after
    the last; otherwise what was sent is a prefix and the writing end was not closed. *)
Theorem sink_complete data l : let r := sink data l in
  (forall chunks, data = Ok <$> chunks -> Forall (fun c => exists ok, send c = Ok ok) chunks -> drain = Ok tt -> close = Ok tt -> r.1 = Ok tt) /\
  match r.1 with
  | Ok _ => exists chunks, data = Ok <$> chunks /\ r.2 = l ++ mjoin (sent_events <$> chunks) ++ [CloseWrite]
  | Err _ => exists chunks k, (Ok <$> chunks) `prefix_of` data /\ r.2 = l ++ k /\ k `prefix_of` mjoin (sent_events <$> chunks)
  end.
Proof.
  intros r. split; [intros chunks Ed; by apply sink_returns|]. unfold r. clear r. revert l. induction data as [|[chunk|e] data IH]; intros l; cbn [sink].
  - unfold bind, modify. destruct close as [[]|e]; cbn; [by exists []|]. exists [], []. by rewrite app_nil_r.
  - destruct (send chunk) as [ok|e] eqn:Es; [|unfold bind; cbn; exists [], []; rewrite app_nil_r; split_and!; try done; apply prefix_nil].
    rewrite (bind_ok _ _ l ok l) by done. rewrite bind_modify. unfold when. destruct ok; cbn [negb].
    + rewrite (bind_ok _ _ _ tt (l ++ [Send chunk])) by done. specialize (IH (l ++ [Send chunk])). destruct (sink data (l ++ [Send chunk])) as [[[]|e] l']; cbn in *.
      * destruct IH as (chunks & -> & ->). exists (chunk :: chunks). split; [done|]. cbn. unfold sent_events at 2. rewrite Es. by rewrite <- !app_assoc.
      * destruct IH as (chunks & k & Hp & -> & Hk). exists (chunk :: chunks), (Send chunk :: k). split_and!; [by apply prefix_cons|by rewrite <- app_assoc|].
        cbn. unfold sent_events at 1. rewrite Es. cbn. by apply prefix_cons.
    + destruct drain as [[]|e]; [rewrite (bind_ok _ _ _ tt ((l ++ [Send chunk]) ++ [Drained])) by done|unfold bind; cbn].
      * specialize (IH ((l ++ [Send chunk]) ++ [Drained])). destruct (sink data ((l ++ [Send chunk]) ++ [Drained])) as [[[]|e] l']; cbn in *.
        -- destruct IH as (chunks & -> & ->). exists (chunk :: chunks). split; [done|]. cbn. unfold sent_events at 2. rewrite Es. by rewrite <- !app_assoc.
        -- destruct IH as (chunks & k & Hp & -> & Hk). exists (chunk :: chunks), (Send chunk :: Drained :: k). split_and!; [by apply prefix_cons|by rewrite <- !app_assoc|].
           cbn. unfold sent_events at 1. rewrite Es. cbn. by do 2 apply prefix_cons.
      * exists [chunk], [Send chunk]. split_and!; [apply prefix_cons, prefix_nil|done|]. cbn. unfold sent_events. rewrite Es. cbn. apply prefix_cons, prefix_nil.
  - exists [], []. rewrite app_nil_r. split_and!; try done. apply prefix_nil.
Qed.

End Sink.

(** ** Topics *)

Definition DEFAULT_DOCUMENT_TOPIC_PREFIX : string := "/document/".

Definition slash : ascii := "/"%char.

Definition starts_with_slash (s : string) : bool := match s with String.String c _ => Ascii.eqb c slash | _ => false end.

Fixpoint ends_with_slash (s : string) : bool :=
  match s with
  | String.EmptyString => false
  | String.String c String.EmptyString => Ascii.eqb c slash
  | String.String _ s' => ends_with_slash s'
  end.

(** [slice(1)] *)
Definition tail (s : string) : string := match s with String.String _ s' => s' | _ => "" end.

Definition documentTopic (documentPath topicPrefix : string) : string :=
  if String.eqb topicPrefix "" then documentPath
  else if ends_with_slash topicPrefix && starts_with_slash documentPath then topicPrefix +:+ tail documentPath
  else if negb (ends_with_slash topicPrefix) && negb (starts_with_slash documentPath) then topicPrefix +:+ "/" +:+ documentPath
  else topicPrefix +:+ documentPath.

(** [_computeTopic]: the configured prefix, if there is one. *)
Definition computeTopic (documentPath : string) (prefix : option string) : string :=
  documentTopic documentPath (default DEFAULT_DOCUMENT_TOPIC_PREFIX prefix).

(** A path without one leading slash, and a prefix with a final one. *)
Definition bare (p : string) : string := if starts_with_slash p then tail p else p.
Definition directory (prefix : string) : string := if ends_with_slash prefix then prefix else prefix +:+ "/".

Lemma string_app_assoc (a b c : string) : (a +:+ b) +:+ c = a +:+ (b +:+ c).
Proof. induction a as [|x a IH]; [done|]. exact (f_equal (String.String x) IH). Qed.

Lemma string_app_inj (a b c : string) : a +:+ b = a +:+ c -> b = c.
Proof. induction a as [|x a IH]; [done|]. cbn. intros [= H]. by apply IH. Qed.

Lemma slash_tail p : starts_with_slash p = true -> p = "/" +:+ tail p.
Proof. destruct p as [|c p]; [done|]. cbn. intros E%Ascii.eqb_eq. by subst c. Qed.

(** Topics keep documents apart: with a prefix the topic is the prefix, ended by one slash,
    and the path without a leading slash, so that two documents share a topic exactly when
    their paths differ at most in a leading slash; without a prefix it is the path. *)
Theorem topics_separate p q prefix :
  (prefix <> "" -> documentTopic p prefix = directory prefix +:+ bare p /\ (documentTopic p prefix = documentTopic q prefix <-> bare p = bare q)) /\
  (prefix = "" -> documentTopic p prefix = p).
Proof.
  split; [|by intros ->]. intros Hn. assert (Ht : forall p, documentTopic p prefix = directory prefix +:+ bare p).
  { clear p q. intros p. unfold documentTopic, directory, bare. destruct (String.eqb_spec prefix ""); [done|]. destruct (ends_with_slash prefix), (starts_with_slash p) eqn:Es; cbn; try done.
    - rewrite string_app_assoc. by rewrite <- slash_tail.
    - by rewrite string_app_assoc. }
  split; [apply Ht|]. rewrite !Ht. split; [apply string_app_inj|by intros ->].
Qed.

(** ** Statistics *)

Record NetworkStats := Stats {
  _messagesSent : Z; _messagesReceived : Z; _bytesSent : Q; _bytesReceived : Q;
  _documentsOpened : Z; _documentsClosed : Z; _peersConnected : Z; _peersDisconnected : Z;
}.

#[export] Instance settable_stats : Settable NetworkStats := fun s =>
  Stats (_messagesSent s) (_messagesReceived s) (_bytesSent s) (_bytesReceived s) (_documentsOpened s) (_documentsClosed s) (_peersConnected s) (_peersDisconnected s).

Definition newNetworkStats : NetworkStats := Stats 0 0 0 0 0 0 0 0.

(** Sizes that are not finite or negative count as zero; sums are taken as exact. *)
Definition validateBytes (b : num) : Q := match b with Fin q => if Qle_bool 0 q then q else 0 | _ => 0 end.

Inductive stats_op := RecordSent (b : num) | RecordReceived (b : num) | RecordDocumentOpen | RecordDocumentClose | RecordPeerConnect | RecordPeerDisconnect | ResetStats.

Definition record_stats (s : NetworkStats) (x : stats_op) : NetworkStats :=
  match x with
  | RecordSent b => s <| _messagesSent := (_messagesSent s + 1)%Z |> <| _bytesSent := (_bytesSent s + validateBytes b)%Q |>
  | RecordReceived b => s <| _messagesReceived := (_messagesReceived s + 1)%Z |> <| _bytesReceived := (_bytesReceived s + validateBytes b)%Q |>
  | RecordDocumentOpen => s <| _documentsOpened := (_documentsOpened s + 1)%Z |>
  | RecordDocumentClose => s <| _documentsClosed := (_documentsClosed s + 1)%Z |>
  | RecordPeerConnect => s <| _peersConnected := (_peersConnected s + 1)%Z |>
  | RecordPeerDisconnect => s <| _peersDisconnected := (_peersDisconnected s + 1)%Z |>
  | ResetStats => newNetworkStats
  end.

(** Nothing that is recorded makes a counter decrease, also not a size that is no number. *)
Definition stats_le (s s' : NetworkStats) : Prop :=
  (_messagesSent s <= _messagesSent s')%Z /\ (_messagesReceived s <= _messagesReceived s')%Z /\ (_bytesSent s <= _bytesSent s')%Q /\ (_bytesReceived s <= _bytesReceived s')%Q /\
  (_documentsOpened s <= _documentsOpened s')%Z /\ (_documentsClosed s <= _documentsClosed s')%Z /\ (_peersConnected s <= _peersConnected s')%Z /\ (_peersDisconnected s <= _peersDisconnected s')%Z.

Lemma validateBytes_nonneg b : (0 <= validateBytes b)%Q.
Proof. destruct b as [q| | |]; cbn; try apply Qle_refl. destruct (Qle_bool 0 q) eqn:E; [by apply Qle_bool_iff|apply Qle_refl]. Qed.

Theorem stats_grow s x : x <> ResetStats -> stats_le s (record_stats s x).
Proof.
  assert (Hq : forall q b, (q <= q + validateBytes b)%Q) by (intros q b; rewrite <- (Qplus_0_r q) at 1; apply Qplus_le_compat; [apply Qle_refl|apply validateBytes_nonneg]).
  intros Hx. destruct x; try done; unfold stats_le; cbn; split_and!; try lia; try apply Qle_refl; apply Hq.
Qed.

(** ** Concrete runs *)

(** The second store cannot be opened: the first is closed. *)
Example second_store_fails :
  createAndStartHeliaNode (fun _ => true) (fun i => if i =? 2 then throw "blocked" else Ok tt) (fun _ => true) (Some (Init 1 2 false)) (Ok tt) (Ok tt) true []
  = (throw "blocked", [OpenStore 1; CloseStore 1]).
Proof. reflexivity. Qed.

Example shared_topic : documentTopic "/a" "/document/" = documentTopic "a" "/document/".
Proof. reflexivity. Qed.

Lemma topics_separate_witness : documentTopic "/notes/1" "/document/" = "/document/notes/1".
Proof. destruct (topics_separate "/notes/1" "x" "/document/") as [H _]. destruct H as [H _]; [done|]. exact H. Defined.

End Startup.
