(* ===== verification/IndexHooks.v ===== *)
(** * The React hooks for indexes

    Models [packages/collabswarm-index/src/react.ts]: [useDefineIndexes], whose effect
    defines indexes one after the other and whose cleanup removes those defined so far, and
    the subscription of [useIndexQuery]. Of the manager the definitions and the query
    subscribers are kept. A call of [defineIndex] has two steps, as in [index-manager.ts]:
    the definition is looked up and entered when it is called, and the store is initialized
    when the promise settles; a removal takes effect when it is called. *)
From stdpp Require Import base numbers list strings sets.
From Stdlib Require Import Lia.
From S2P Require Import Prelude.

Open Scope string_scope.
Open Scope list_scope.
Open Scope nat_scope.

Module IndexHooks.

(** ** [useDefineIndexes] *)

Section Definitions.
Context {Config : Type} `{EqDecision Config}.

(** What the first step of [defineIndex] found: the same definition, another one under the
    name, or none. *)
Inductive call := Same | Different | Initializing.

Definition begin_define (d : string * Config) (indexes : list (string * Config)) : call * list (string * Config) :=
  match map_get d.1 indexes with
  | Some existing => (if decide (existing = d.2) then Same else Different, indexes)
  | None => (Initializing, map_set d.1 d.2 indexes)
  end.

(** Whether the promise resolves, when the storage's initialization does as [stored] says. *)
Definition resolves (c : call) (stored : bool) : bool :=
  match c with Same => true | Different => false | Initializing => stored end.

(** One run of the effect. *)
Record definer := Definer {
  names : list string; rest : list (string * Config); calling : option (string * call); allSucceeded : bool; cancelled : bool
}.

Record hook := Hook { indexes : list (string * Config); ready : bool; current : definer }.

(** The head of the loop: its end, its early return, or its next call. *)
Definition advance (h : hook) : hook :=
  let d := current h in
  match rest d with
  | [] => Hook (indexes h) (if negb (cancelled d) && allSucceeded d then true else ready h) d
  | def :: rest' =>
      if cancelled d then Hook (indexes h) (ready h) (Definer (names d) [] None (allSucceeded d) true)
      else let r := begin_define def (indexes h) in
           Hook r.2 (ready h) (Definer (names d) rest' (Some (def.1, r.1)) (allSucceeded d) false)
  end.

Definition start_defining (definitions : list (string * Config)) (indexes : list (string * Config)) : hook :=
  advance (Hook indexes false (Definer [] definitions None true false)).

(** The call it waits for settles. *)
Definition defined (stored : bool) (h : hook) : hook :=
  let d := current h in
  match calling d with
  | None => h
  | Some (name, c) =>
      advance (Hook (indexes h) (ready h)
        (if resolves c stored then Definer (names d ++ [name]) (rest d) None (allSucceeded d) (cancelled d)
         else Definer (names d) (rest d) None false (cancelled d)))
  end.

Definition cleanup (h : hook) : hook :=
  let d := current h in
  Hook (foldl (fun l n => map_delete n l) (indexes h) (names d)) (ready h) (Definer (names d) (rest d) (calling d) (allSucceeded d) true).

Definition settle_all (outcomes : list bool) (h : hook) : hook := foldl (fun h ok => defined ok h) h outcomes.

(** The definitions whose initialization has a given outcome. *)
Definition having (b : bool) (definitions : list (string * Config)) (outcomes : list bool) : list (string * Config) :=
  omap (fun x : (string * Config) * bool => if eqb x.2 b then Some x.1 else None) (zip definitions outcomes).

Lemma define_fresh outcomes d defs ixs rd nm ok : length outcomes = S (length defs) -> NoDup (d :: defs).*1 -> (forall x, x ∈ (d :: defs).*1 -> x ∉ ixs.*1) ->
  settle_all outcomes (Hook (ixs ++ [d]) rd (Definer nm defs (Some (d.1, Initializing)) ok false)) =
  Hook (ixs ++ d :: defs) (ok && forallb id outcomes || rd) (Definer (nm ++ (having true (d :: defs) outcomes).*1) [] None (ok && forallb id outcomes) false).
Proof.
  revert outcomes d ixs nm ok. induction defs as [|e defs IH]; intros [|o outcomes] d ixs nm ok Hl Hnd Hf; try done.
  - destruct outcomes; [|done]. unfold settle_all, defined, advance. cbn. destruct o, ok, rd; cbn; by rewrite ?app_nil_r.
  - unfold settle_all. cbn [foldl]. set (h := Hook _ _ _).
    assert (E : defined o h = Hook ((ixs ++ [d]) ++ [e]) rd (Definer (if o then nm ++ [d.1] else nm) defs (Some (e.1, Initializing)) (if o then ok else false) false)).
    { assert (Hnew : e.1 ∉ (ixs ++ [d]).*1). { rewrite fmap_app, elem_of_app. cbn. cbn in Hnd, Hf. apply NoDup_cons in Hnd as [Hd _]. set_solver. }
      unfold defined, h. cbn. destruct o; unfold advance, begin_define; cbn; rewrite (proj2 (map_get_None _ _) Hnew); cbn; rewrite map_set_notin by done; by destruct e. }
    rewrite E. assert (IH' := fun nm ok => IH outcomes e (ixs ++ [d]) nm ok). unfold settle_all in IH'. rewrite IH'.
    + rewrite <- app_assoc. unfold having. cbn. destruct o; cbn; rewrite <- ?app_assoc, ?andb_false_r; done.
    + cbn in Hl. cbn. lia.
    + cbn in Hnd. apply NoDup_cons in Hnd as [_ Hnd]. done.
    + intros x Hx. rewrite fmap_app, elem_of_app. cbn in *. apply NoDup_cons in Hnd as [Hd _]. set_solver.
Qed.

Lemma settle_new outcomes definitions before : length outcomes = length definitions -> NoDup definitions.*1 -> (forall x, x ∈ definitions.*1 -> x ∉ before.*1) ->
  settle_all outcomes (start_defining definitions before) =
  Hook (before ++ definitions) (forallb id outcomes) (Definer (having true definitions outcomes).*1 [] None (forallb id outcomes) false).
Proof.
  intros Hl Hnd Hf. destruct definitions as [|d defs].
  { destruct outcomes; [|done]. cbn. by rewrite app_nil_r. }
  assert (Hd : d.1 ∉ before.*1) by (apply Hf; cbn; set_solver).
  unfold start_defining, advance, begin_define. cbn. rewrite (proj2 (map_get_None _ _) Hd). cbn. rewrite map_set_notin by done.
  destruct d as [n c]. cbn. assert (E := define_fresh outcomes (n, c) defs before false [] true). cbn in E. rewrite E by done. by rewrite orb_false_r.
Qed.

Lemma filter_all {A} (P : A -> Prop) `{forall x, Decision (P x)} (l : list A) : (forall x, x ∈ l -> P x) -> filter P l = l.
Proof.
  induction l as [|x l IH]; intros Hp; [done|]. rewrite filter_cons_True by (apply Hp; set_solver). f_equal. apply IH. set_solver.
Qed.

Lemma filter_agree {A} (P Q : A -> Prop) `{forall x, Decision (P x)} `{forall x, Decision (Q x)} (l : list A) :
  (forall x, x ∈ l -> P x <-> Q x) -> filter P l = filter Q l.
Proof.
  induction l as [|x l IH]; intros Hp; [done|]. rewrite !filter_cons, IH by set_solver. specialize (Hp x ltac:(set_solver)). repeat case_decide; tauto.
Qed.

Lemma delete_all ns (l : list (string * Config)) : foldl (fun l n => map_delete n l) l ns = filter (fun x => x.1 ∉ ns) l.
Proof.
  revert l. induction ns as [|n ns IH]; intros l; cbn.
  { symmetry. apply filter_all. set_solver. }
  rewrite IH. clear IH. induction l as [|[k v] l IHl]; [done|]. cbn [map_delete]. rewrite (filter_cons _ (k, v) l). cbn. case_decide as Hk.
  - subst. rewrite decide_False by set_solver. done.
  - rewrite filter_cons, IHl. cbn. repeat case_decide; set_solver.
Qed.

Lemma having_sub b outcomes definitions : (having b definitions outcomes).*1 ⊆ definitions.*1.
Proof.
  revert outcomes. induction definitions as [|d defs IH]; intros [|o outcomes]; unfold having in *; cbn; [set_solver..|]. specialize (IH outcomes). destruct (eqb o b); cbn; set_solver.
Qed.

(** Deleting the initialized definitions leaves the others. *)
Lemma having_complement definitions outcomes : length outcomes = length definitions -> NoDup definitions.*1 ->
  filter (fun x => x.1 ∉ (having true definitions outcomes).*1) definitions = having false definitions outcomes.
Proof.
  revert outcomes. induction definitions as [|d defs IH]; intros [|o outcomes] Hl Hnd; try done. cbn in Hnd. apply NoDup_cons in Hnd as [Hd Hnd].
  specialize (IH outcomes ltac:(cbn in Hl; lia) Hnd). assert (Hsub := having_sub true outcomes defs). rewrite filter_cons.
  destruct o; [rewrite decide_False by (cbn; set_solver)|rewrite decide_True by (cbn; set_solver)].
  - change (having false (d :: defs) (true :: outcomes)) with (having false defs outcomes). rewrite <- IH. apply filter_agree. intros x Hx.
    assert (x.1 ∈ defs.*1) by (apply list_elem_of_fmap; eauto). cbn. set_solver.
  - change (having false (d :: defs) (false :: outcomes)) with (d :: having false defs outcomes). f_equal. exact IH.
Qed.

(** A page gets its indexes and gives them back: definitions under new names are all in
    the manager when they have settled, the hook is ready exactly when every store was
    initialized, and the cleanup restores what was there before; a definition whose store
    could not be initialized stays. *)
Theorem definitions_given_back definitions outcomes before : length outcomes = length definitions -> NoDup definitions.*1 -> (forall x, x ∈ definitions.*1 -> x ∉ before.*1) ->
  let h := settle_all outcomes (start_defining definitions before) in
  indexes h = before ++ definitions /\ ready h = forallb id outcomes /\ indexes (cleanup h) = before ++ having false definitions outcomes.
Proof.
  intros Hl Hnd Hf. cbn. rewrite settle_new by done. cbn. split_and!; [done..|]. rewrite delete_all, filter_app, having_complement by done. f_equal.
  apply filter_all. intros x Hx Hin. apply (Hf x.1); [by eapply having_sub|apply list_elem_of_fmap; eauto].
Qed.

(** A definition under way is not given back: when the component goes while a definition
    is being made, the index exists once it succeeds and no cleanup removes it. *)
Theorem late_definition_stays name c rest' before : name ∉ before.*1 ->
  let h := defined true (cleanup (start_defining ((name, c) :: rest') before)) in
  map_get name (indexes h) = Some c /\ calling (current h) = None /\ ready h = false /\ forall outcomes, settle_all outcomes h = h.
Proof.
  intros Hb. unfold start_defining, advance, cleanup, defined, begin_define. cbn. rewrite (proj2 (map_get_None _ _) Hb). cbn.
  destruct rest'; cbn; rewrite map_get_set_eq; (split_and!; [done..|]); intros outcomes; induction outcomes; done.
Qed.

(** Two components that define the same index do not share it: the second finds it
    there, and its cleanup removes it under the first. *)
Theorem shared_index_removed name (c : Config) before : map_get name before = Some c ->
  let h := defined true (start_defining [(name, c)] before) in
  indexes h = before /\ ready h = true /\ map_get name (indexes (cleanup h)) = None.
Proof.
  intros Hb. unfold start_defining, advance, begin_define, defined, cleanup. cbn. rewrite Hb. rewrite decide_True by done. cbn.
  split_and!; [done..|]. rewrite map_get_delete. by rewrite decide_True.
Qed.
End Definitions.

(** ** [useIndexQuery] *)

(** The subscriptions of the manager are numbered; a mounted hook holds one. *)
Record queries {Options : Type} := Queries { subscribers : list (nat * Options); mounted : list (nat * nat); next_sub : nat }.
Arguments queries : clear implicits.
Arguments Queries {Options} _ _ _.

Definition start_query {Options} (i : nat) (options : Options) (s : queries Options) : queries Options :=
  Queries (map_set (next_sub s) options (subscribers s)) (map_set i (next_sub s) (mounted s)) (S (next_sub s)).

Definition stop_query {Options} (i : nat) (s : queries Options) : queries Options :=
  match map_get i (mounted s) with
  | Some n => Queries (map_delete n (subscribers s)) (map_delete i (mounted s)) (next_sub s)
  | None => s
  end.

(** New options: the cleanup, then the effect. *)
Definition requery {Options} (i : nat) (options : Options) (s : queries Options) : queries Options := start_query i options (stop_query i s).

Inductive query_op (Options : Type) := SetQuery (i : nat) (options : Options) | EndQuery (i : nat).
Arguments SetQuery {Options} _ _.
Arguments EndQuery {Options} _.

Definition query_step {Options} (s : queries Options) (o : query_op Options) : queries Options :=
  match o with SetQuery i options => requery i options s | EndQuery i => stop_query i s end.

(** The options a hook has shown last. *)
Definition shown {Options} (ops : list (query_op Options)) : list (nat * Options) :=
  foldl (fun m o => match o with SetQuery i options => map_set i options m | EndQuery i => map_delete i m end) [] ops.

(** Every hook holds the subscription of its options, and there is no other. *)
Definition linked {Options} (s : queries Options) (m : list (nat * Options)) : Prop :=
  (forall i options, map_get i m = Some options <-> exists n, map_get i (mounted s) = Some n /\ map_get n (subscribers s) = Some options) /\
  (forall n, n ∈ (subscribers s).*1 -> exists i, map_get i (mounted s) = Some n) /\
  (forall i n, map_get i (mounted s) = Some n -> n ∈ (subscribers s).*1 /\ n < next_sub s) /\
  (forall i j n, map_get i (mounted s) = Some n -> map_get j (mounted s) = Some n -> i = j).

Lemma linked_same {Options} (s : queries Options) m m' : (forall i, map_get i m' = map_get i m) -> linked s m' -> linked s m.
Proof. intros E (H1 & H2). split; [|done]. intros i o. by rewrite <- E. Qed.

Lemma linked_stop {Options} i (s : queries Options) m : linked s m -> linked (stop_query i s) (map_delete i m) /\ map_get i (mounted (stop_query i s)) = None /\ next_sub (stop_query i s) = next_sub s.
Proof.
  intros (H1 & H2 & H3 & H4). unfold stop_query. destruct (map_get i (mounted s)) as [k|] eqn:E.
  2: { split_and!; [|done..]. unfold linked. split_and!; [|done..]. intros j o. rewrite map_get_delete. case_decide; [|done]. subst. rewrite E. naive_solver. }
  split_and!; [|cbn; rewrite map_get_delete; by rewrite decide_True|done]. unfold linked. cbn. split_and!.
  - intros j o. rewrite map_get_delete. case_decide as Hj.
    { subst. split; [done|]. intros (n & Hn & _). rewrite map_get_delete, decide_True in Hn by done. done. }
    rewrite H1. split; intros (n & Hn & Ho); exists n; revert Hn Ho; rewrite !map_get_delete; (rewrite (decide_False (P := j = i)) by done); case_decide as Hk; try done.
    intros Hn. subst. destruct Hj. eauto.
  - intros n Hn. apply elem_of_map_keys_delete in Hn as [Hne Hn]. destruct (H2 n Hn) as [j Hj]. exists j. rewrite map_get_delete. case_decide; [congruence|done].
  - intros j n. rewrite map_get_delete. case_decide as Hj; [done|]. intros Hn. destruct (H3 j n Hn). split; [|done]. apply elem_of_map_keys_delete. split; [|done]. intros ->. destruct Hj. eauto.
  - intros j j' n. rewrite !map_get_delete. repeat case_decide; try done. eauto.
Qed.

Lemma linked_start {Options} i options (s : queries Options) m : linked s m -> map_get i (mounted s) = None -> linked (start_query i options s) (map_set i options m).
Proof.
  intros (H1 & H2 & H3 & H4) E. assert (Hfresh : forall j n, map_get j (mounted s) = Some n -> n <> next_sub s) by (intros j n Hn; destruct (H3 j n Hn); lia).
  unfold linked, start_query. cbn. split_and!.
  - intros j o. rewrite map_get_set. case_decide as Hj.
    + subst. split; [intros [= ->]; exists (next_sub s); by rewrite !map_get_set_eq|]. intros (n & Hn & Ho). rewrite map_get_set_eq in Hn. injection Hn as <-. by rewrite map_get_set_eq in Ho.
    + rewrite H1. split; intros (n & Hn & Ho); exists n; revert Hn Ho; rewrite !map_get_set; (rewrite (decide_False (P := j = i)) by done); case_decide as Hk; try done; intros Hn; by apply Hfresh in Hn.
  - intros n Hn. apply elem_of_map_keys_set in Hn as [->|Hn]; [exists i; by rewrite map_get_set_eq|]. destruct (H2 n Hn) as [j Hj]. exists j. rewrite map_get_set_ne; [done|congruence].
  - intros j n. rewrite map_get_set. case_decide; [intros [= <-]|intros Hn; destruct (H3 j n Hn)]; (split; [apply elem_of_map_keys_set; auto|lia]).
  - intros j j' n. rewrite !map_get_set. repeat case_decide; intros Ha Hb; [congruence|exfalso; apply (Hfresh j' n); congruence|exfalso; apply (Hfresh j n); congruence|eauto].
Qed.

(** A component hears of its own query only: after any mounts, changes of the options and
    unmounts, the subscriptions are exactly those of the mounted hooks, one each, with the
    options it showed last. *)
Theorem one_subscription {Options} (ops : list (query_op Options)) : linked (foldl query_step (Queries [] [] 0) ops) (shown ops).
Proof.
  induction ops as [|o ops IH] using rev_ind.
  { unfold linked. cbn. split_and!; naive_solver set_solver. }
  unfold shown in *. rewrite !foldl_app. cbn. destruct o as [i options|i]; cbn.
  - unfold requery. destruct (linked_stop i _ _ IH) as (Hs & Hn & _). apply (linked_start i options) in Hs; [|done]. revert Hs. apply linked_same.
    intros j. rewrite !map_get_set, map_get_delete. by repeat case_decide.
  - by apply linked_stop.
Qed.

Lemma definitions_given_back_witness :
  indexes (cleanup (settle_all [true; false] (start_defining [("a", 1); ("b", 2)] [("c", 3)]))) = [("c", 3); ("b", 2)].
Proof. apply (definitions_given_back [("a", 1); ("b", 2)] [true; false] [("c", 3)]); [done|by apply (bool_decide_unpack _)|set_solver]. Defined.

Lemma late_definition_stays_witness : map_get "a" (indexes (defined true (cleanup (start_defining [("a", 1); ("b", 2)] [])))) = Some 1.
Proof. apply (late_definition_stays "a" 1 [("b", 2)] []). set_solver. Defined.

Lemma shared_index_removed_witness : map_get "a" (indexes (cleanup (defined true (start_defining [("a", 1)] [("a", 1)])))) = None.
Proof. by apply (shared_index_removed "a" 1 [("a", 1)]). Defined.

End IndexHooks.
